(* ===== verification/_CoqProject ===== *)
-Q . S2P
Prelude.v
Random.v
Base.v
Crc32c.v
Wire.v
RecordBatch.v
SparseIndex.v
Disk.v
Text.v
SimDisk.v
Segment.v
Chain.v
SegmentFacts.v
SegmentProps.v
LogDump.v
Log.v
LogFacts.v
LogRecovery.v
LogDurable.v
LogCut.v
LogProps.v
LogFindings.v
Posix.v
RealDisk.v
Machine.v
RealDiskProps.v
CrashDemo.v
CrashDemoProps.v
RaftTypes.v
RaftCodec.v
StateFile.v
RaftNode.v
RaftFacts.v
RaftVotes.v
RaftLog.v
Cluster.v
Scripts.v
RaftCommit.v
Election.v
Network.v
Broker.v
BrokerFacts.v
BrokerRefines.v
BrokerDurable.v
BrokerMember.v
BrokerProps.v
BrokerFrame.v
Sockets.v
RealNetwork.v
RealNetworkProps.v
Queue.v
Trace.v
Scheduler.v
SimNetwork.v
SimNetworkFacts.v
SimNetworkProps.v
EventLoop.v
Process.v
Histogram.v
LogEngine.v
LogEngineProps.v
Oracle.v
Workload.v
Simulation.v
SimulationFacts.v
SimulationProps.v
SimTool.v
SimToolProps.v
Echo.v
EchoProps.v
