(* ===== verification/Prelude.v ===== *)
(** * log-engine

    A verification development for log-engine, a replicated commit log in C++: record batches
    with a checksum, segments with a sparse index, a partition log over the segments, a Raft
    state machine, a broker that drives it, and a deterministic simulator that runs brokers
    on a simulated disk, network and clock and checks invariants from outside.

    ** How the code is rendered

    Pure functions are functions.  Objects are records named [t] in a module named after the
    class, with the members' names; an assignment [x.f = v] is [x <| f := v |>] (below).
    Members that change state take the object last and return it; what a member reads or
    writes through a reference (the disk, the generator, the scheduler, the oracle) is passed
    and returned in the same way.  [base::Result] is [Result], with [Ok] and [fail], and early
    returns are written with [fail_if ... with ... else] and [let? ... := ... in].  Unsigned
    integers are [Z] reduced by [u8], [u16], [u32] and [u64] wherever the code can wrap; a
    counter that would need 2^64 events to wrap is left unreduced, and its file says so.
    Bytes are [Z] in [0, 256), byte strings lists of them.  [std::map] is [gmap], [std::set]
    is [gset]; where iteration order shows, the loop goes through a sort.  Doubles are
    binary64 values of the standard library's [SpecFloat].  A [std::function] is a value of a
    type of closures, and calling it is an argument of the definitions that do.

    The interfaces of [src/src/io] are type classes over a machine state: [Random] with the law
    [RandomOk], [Disk.t] and [Network.t] with their laws.  Theorems about storage are proved
    against the laws of the disk; the simulated disk and the disk of the process are both
    shown to satisfy them, the second over a kernel whose calls are a class as well ([Posix],
    [Sockets]) with the documented behaviour as laws.  [Disk.laws] are what every disk keeps.
    Three further classes say what some disks do and some theorems need: [Disk.removes] (a file
    that is there can be removed), [Disk.steady] (that, a write that fails has written nothing,
    and the size of an open file can be had), [Disk.crash_laws] (a power cut keeps every name
    and every settled byte).  The simulated disk has them; the disk of the process has them on
    a kernel whose writes take everything or are refused ([PosixWhole]) and whose names and
    sizes outlive a power cut ([PosixJournal]).  A theorem that needs one of them says so.  A broker is proved things about in any
    [Broker.Host], a world in which its disk, network, loop and generator can be found; the
    simulation and the process are two of them.  A printed line is a value of a type [Line].

    ** The files

    - [Prelude]: records, machine integers, byte strings, [std::partition_point], tactics.
    - [Random]: [io/random.h], [io/seeded_random.h].
    - [Base]: [base/error.h], [result.h], [slice.h], [endian.h], [buffer.h].
    - [Crc32c]: [base/crc32c.*], the table, the byte loop and the hardware loop.
    - [Wire]: [wire/frame.*], [wire/api.h], and a receive loop over them.
    - [RecordBatch], [SparseIndex]: [storage/record_batch.*], [storage/sparse_index.*].
    - [Disk]: [io/disk.h], the interface, its laws, the steady disks, and what a crash may do.
    - [Text]: the number and string functions of the C and C++ libraries the programs use.
    - [SimDisk]: [io/sim/sim_disk.*], and that it satisfies those laws.
    - [Segment]: [storage/segment.*]; [Chain] is the vocabulary of sequences of batches,
      [SegmentFacts] the lemmas, [SegmentProps] the theorems.
    - [Log]: [storage/log.*]; [LogFacts] the invariant and the operations on it,
      [LogRecovery] opening a directory, [LogDurable] histories and crashes, [LogCut] logs that
      were truncated, [LogProps] the theorems, [LogFindings] three runs that go wrong.
    - [LogDump], [CrashDemo] (with [CrashDemoProps]): [tools/log_dump.cpp],
      [tools/crash_demo.cpp].
    - [Posix], [Machine]: the kernel's file calls with their laws, and a kernel that has them,
      fsync of a directory included; [RealDisk], [RealDiskProps]: [io/real/real_disk.*].
    - [RaftTypes], [RaftCodec], [StateFile], [RaftNode]: [raft/types.h], [raft/codec.*],
      [raft/state_file.*] with the broker's reading and writing of it, [raft/node.*].
    - [RaftFacts], [RaftVotes], [RaftLog], [RaftCommit]: what one node does to its term and
      vote, to its log, to its commit index.
    - [Cluster]: the entry points of a broker as events of a cluster, [Scripts] for concrete
      runs, [Election] for the argument over all runs.
    - [Network]: [io/network.h], the interface and its laws.
    - [Broker]: [server/broker.*], the object in full; [BrokerFacts] and [BrokerFrame] what its
      members can change, [BrokerRefines] its [drive] as the cluster's, [BrokerDurable] what is
      on the platter when it speaks, [BrokerMember] its entry points as events of the cluster
      with its vote file as the member's durable state, [BrokerProps] the theorems and runs on
      a bench.
    - [Sockets]: the kernel's socket and epoll calls, which may be refused; [RealNetwork], [RealNetworkProps]:
      [io/real/real_network.*].
    - [Queue], [Trace], [Scheduler]: the heap order, [sim/trace.*], [sim/scheduler.*] and
      [io/sim/sim_clock.h].
    - [SimNetwork]: [io/sim/sim_network.*]; [SimNetworkFacts] the invariant over all runs,
      [SimNetworkProps] the theorems.
    - [EventLoop]: [runtime/event_loop.*].
    - [Process]: [io/real/real_clock.*], [real_random.*], and the world of a broker process;
      [Histogram]: [bench/histogram.h]; [LogEngine], [LogEngineProps]: [main/logengine.cpp].
    - [Oracle], [Workload]: [sim/workload.*], what watches and what generates load.
    - [Simulation]: [sim/simulation.*]; [SimulationFacts] what the nodes cannot do to it,
      [SimulationProps] the theorems.
    - [SimTool], [SimToolProps]: [tools/sim.cpp], [bench/failover.cpp].
    - [Echo], [EchoProps]: [bench/echo.cpp].

    ** What the theorems show

    Elections: no two leaders of one term in any run of a cluster that fsyncs its votes,
    whatever is lost, duplicated, delayed or crashed; a vote is durable before it is sent;
    the branch of the node that handles a second leader is dead; without the fsync two
    leaders appear; a silent leader leads to an election.
    Replication: a node's step on a message is the specified step on its abstract log; the
    leader's commit rule; the commit index never goes back in a leader's term or on a
    follower except where the code lets it; a run in which two followers commit different
    entries at one index, without a crash or an error of a disk.
    Broker: every entry point of the object is an event of the cluster the election argument is
    about, or none, with the results of log and vote that its own disk gives; on a steady disk
    its vote file says what the member's durable state is; the entry and the vote that a [Ready]
    orders, and what was on the platter before, survive a power cut that follows its messages,
    on a steady disk whose power cuts keep names and settled bytes; a broker whose device is full answers for entries
    it does not have, and one whose port is taken goes on without it.
    State file: the last durable state, or the one being written, survives a torn write; a
    torn first write does not.
    Storage: on such a disk, what was fsynced survives a power cut and a reopening of the log,
    as a prefix of what was appended, also behind a truncation; recovery keeps exactly the longest valid
    prefix of the files; append, replicated append, read, truncation and the epoch scan against
    the list of batches the log holds; a damaged batch is detected; what log-dump calls valid
    covers what recovery keeps; the acks of crash-demo survive a power cut.
    Codecs: batches, frames under any chunking of the stream, Raft messages, hard state, the
    lines of a trace, the peers of a command line.
    The disk and the network of the process: the disk implements the interface on any POSIX
    kernel, and loses a file whose directory nobody syncs; epoll's interest list is the table's
    but for descriptors the kernel has refused to watch; two runs of [poll] that go wrong.
    Simulator: the disk implements the interface; events fire in order and time goes
    forward; a connection is a byte stream; the event loop comes back; a crash leaves on the
    disk what a power cut leaves, and the node is booted again exactly once; the oracle is
    silent on sound clusters; a sweep exits with 0 exactly when no seed breaks an invariant;
    the hash of a replayed run is the one the program computes.
    Benchmarks: what the echo server returns is what it received, byte for byte; which samples
    [failover] takes; a producer's latencies are not negative.

    ** Bounds and fuel

    A loop that is not structural takes fuel.  Where the caller's state bounds the iterations
    the definition computes the fuel itself (a segment scan passes at least a header per
    iteration, so the size of the file is enough; dropping segments takes at most their
    number; the bisection takes the length of the list; a retried system call has a byte to
    move or a signal to come) and the theorems cover every input.  Where a callee decides
    ([EventLoop.fire_loop], [SimNetwork.poll_loop], [NodeWorkload.verify_loop],
    [SeededRandom.next_below], the reading loops of [Broker] and [Echo], the loops over seeds
    of [SimTool]) fuel is an argument and running out of it is [None], or raises [stuck_] in
    [Simulation] and [Process]; where termination is a theorem it has the fuel that is enough
    and the condition on the callees.  Programs that run until they are killed ([LogEngine],
    the appender of [CrashDemo]) are followed for as many rounds as they are given.
    Terms are assumed below 2^64 - 1 and offsets below 2^64 where the code counts them up; a
    run of the network makes fewer than 2^63 calls.

    ** Not modelled

    - The kqueue branch of [io/real/real_network.cpp] and the [F_FULLFSYNC] of
      [real_disk.cpp]: other operating systems' programs in the same files.
    - The threads of [main] in [bench/echo.cpp] and the throughput the programs print: both
      are measurements of a machine.
    - Shell scripts and build files, which have no behaviour of their own.
    - Names of error codes and the capacity of vectors, except where [RealNetwork] holds a
      reference into one: no observable effect on what is modelled.
    - The CRC instructions are arguments with their documented behaviour as hypotheses, and so
      is everything of the kernel. *)
From Stdlib Require Export ZArith Lia.
From stdpp Require Export base gmap strings sorting numbers.
From stdpp Require Export list.

#[global] Set Default Proof Using "Type".

Declare Scope le_scope.
Delimit Scope le_scope with le.
#[global] Open Scope le_scope.
#[global] Open Scope Z_scope.

(** ** Functional record update

    [r <| field := v |>] is the C++ assignment [r.field = v] on a value.  A record type
    opts in by an [eta] instance that rebuilds a value from its projections. *)

Class Settable (R : Type) := eta : R -> R.

Class Setter {R T : Type} (proj : R -> T) := set : (T -> T) -> R -> R.
Arguments set {R T} proj {_} _ _ /.

Ltac solve_setter :=
  match goal with
  | |- @Setter ?R ?T ?proj =>
      let f := fresh "f" in
      let r := fresh "r" in
      intros f r;
      let t := eval hnf in (@eta R _ r) in
      match t with
      | context C [proj r] => let t' := context C [f (proj r)] in exact t'
      end
  end.

#[global] Hint Extern 0 (Setter _) => solve_setter : typeclass_instances.

#[warnings="-postfix-notation-not-level-1"]
Notation "x <| proj := v |>" := (set proj (fun _ => v) x)
  (at level 12, left associativity, format "x  <| proj  :=  v |>") : le_scope.

(** Reduce projections of updated records. *)
Ltac fields := cbn.
Tactic Notation "fields" "in" hyp(H) := cbn in H.

(** ** Unsigned machine integers, kept as [Z] with their wrap-around written out *)

Definition wrap (w x : Z) : Z := x mod 2 ^ w.
Abbreviation u8 := (wrap 8).
Abbreviation u16 := (wrap 16).
Abbreviation u32 := (wrap 32).
Abbreviation u64 := (wrap 64).

(** Two's complement reading of an unsigned 64-bit word ([static_cast<i64>]). *)
Definition i64 (x : Z) : Z :=
  let v := u64 x in if v <? 2 ^ 63 then v else v - 2 ^ 64.

(** ** Byte strings, addressed by [Z] offsets as the code's [size_t] does *)

Definition zlen {A} (l : list A) : Z := Z.of_nat (length l).
Definition ztake {A} (n : Z) (l : list A) : list A := take (Z.to_nat n) l.
Definition zdrop {A} (n : Z) (l : list A) : list A := drop (Z.to_nat n) l.
Definition zsub {A} (off n : Z) (l : list A) : list A := ztake n (zdrop off l).
Definition zrep {A} (n : Z) (x : A) : list A := replicate (Z.to_nat n) x.

(** [p[i]] *)
Definition at_ (l : list Z) (i : Z) : Z := nth (Z.to_nat i) l 0.

(** Overwrite the bytes of [l] from [off] with [data] ([memcpy] into a buffer that is
    large enough). *)
Definition splice {A} (l : list A) (off : Z) (data : list A) : list A :=
  ztake off l ++ data ++ zdrop (off + zlen data) l.

Definition byte_ok (b : Z) : Prop := 0 <= b < 256.
Abbreviation bytes_ok := (Forall byte_ok).

(** ** [std::upper_bound] / [std::lower_bound]

    libstdc++'s loop: halve [len] elements from [first], moving past the middle element
    while the partition predicate still holds of it.  The result is the number of
    elements in front of the partition point. *)
Fixpoint partition_loop {A} (p : A -> bool) (l : list A) (first len : nat) (fuel : nat)
  : nat :=
  match fuel with
  | O => first
  | S fuel' =>
      if (len =? 0)%nat then first
      else
        let half := Nat.div2 len in
        match l !! (first + half)%nat with
        | Some x =>
            if p x then partition_loop p l (first + half + 1) (len - half - 1) fuel'
            else partition_loop p l first half fuel'
        | None => first
        end
  end.

Definition partition_point {A} (p : A -> bool) (l : list A) : nat :=
  partition_loop p l 0 (length l) (length l).

(** The specification: the length of the longest prefix that satisfies [p]. *)
Fixpoint prefix_count {A} (p : A -> bool) (l : list A) : nat :=
  match l with
  | [] => 0
  | x :: l' => if p x then S (prefix_count p l') else 0
  end.

(** [l] is partitioned by [p]: once [p] fails it keeps failing. *)
Definition partitioned {A} (p : A -> bool) (l : list A) : Prop :=
  forall i j x y, (i <= j)%nat -> l !! i = Some x -> l !! j = Some y -> p y = true -> p x = true.

Create HintDb le discriminated.

(** ** Tactics *)

(** Turn boolean comparisons in the context and the goal into propositions. *)
Ltac bool_prop :=
  repeat match goal with
    | H : (_ && _)%bool = true |- _ => apply andb_prop in H; destruct H
    | H : (_ || _)%bool = false |- _ => apply orb_false_iff in H; destruct H
    | H : negb _ = true |- _ => apply negb_true_iff in H
    | H : negb _ = false |- _ => apply negb_false_iff in H
    | H : (_ <? _) = true |- _ => apply Z.ltb_lt in H
    | H : (_ <? _) = false |- _ => apply Z.ltb_ge in H
    | H : (_ <=? _) = true |- _ => apply Z.leb_le in H
    | H : (_ <=? _) = false |- _ => apply Z.leb_gt in H
    | H : (_ =? _) = true |- _ => apply Z.eqb_eq in H
    | H : (_ =? _) = false |- _ => apply Z.eqb_neq in H
    end.

(** Close a fact about concrete data: ranges, byte strings, computed equations. *)
Ltac ground :=
  repeat match goal with
    | |- Forall _ [] => constructor
    | |- Forall _ (_ :: _) => constructor
    | |- _ /\ _ => split
    | |- _ => progress cbv beta
    end;
  first [ discriminate | vm_compute; reflexivity | vm_compute; discriminate
        | vm_compute; split; first [reflexivity | discriminate] ].

(** Case analysis on every [if] of the goal or of a hypothesis, remembering the test. *)
Ltac cases_if :=
  repeat match goal with
    | |- context [if ?b then _ else _] => destruct b eqn:?
    end; bool_prop.

Ltac cases_if_in H :=
  repeat match type of H with
    | context [if ?b then _ else _] => destruct b eqn:?
    end; bool_prop.

(** Case analysis on the first [match] of a hypothesis. *)
Ltac case_in H :=
  match type of H with
  | context [match ?x with _ => _ end] => destruct x eqn:?
  end.

(** Replace the powers of two of machine words by their values, for [lia]. *)
Ltac pow2 :=
  change (2 ^ 8) with 256 in *; change (2 ^ 16) with 65536 in *;
  change (2 ^ 24) with 16777216 in *; change (2 ^ 32) with 4294967296 in *;
  change (2 ^ 63) with 9223372036854775808 in *;
  change (2 ^ 64) with 18446744073709551616 in *.

(** [lia] with quotients and remainders by literals. *)
Ltac dmlia := Z.to_euclidean_division_equations; lia.

(** ** Lengths and slices *)

Lemma zlen_nonneg {A} (l : list A) : 0 <= zlen l.
Proof. unfold zlen. lia. Qed.

Lemma zlen_nil {A} : zlen (@nil A) = 0.
Proof. reflexivity. Qed.

Lemma zlen_cons {A} (x : A) l : zlen (x :: l) = 1 + zlen l.
Proof. unfold zlen. simpl length. lia. Qed.

Lemma zlen_app {A} (l k : list A) : zlen (l ++ k) = zlen l + zlen k.
Proof. unfold zlen. rewrite length_app. lia. Qed.

Lemma zlen_ztake {A} n (l : list A) : zlen (ztake n l) = Z.min (Z.max 0 n) (zlen l).
Proof. unfold zlen, ztake. rewrite length_take. lia. Qed.

Lemma zlen_zdrop {A} n (l : list A) : zlen (zdrop n l) = Z.max 0 (zlen l - Z.max 0 n).
Proof. unfold zlen, zdrop. rewrite length_drop. lia. Qed.

Lemma zlen_zsub {A} off n (l : list A) :
  zlen (zsub off n l) = Z.min (Z.max 0 n) (Z.max 0 (zlen l - Z.max 0 off)).
Proof. unfold zsub. by rewrite zlen_ztake, zlen_zdrop. Qed.

Lemma zlen_zrep {A} n (x : A) : zlen (zrep n x) = Z.max 0 n.
Proof. unfold zlen, zrep. rewrite length_replicate. lia. Qed.

Lemma zlen_splice {A} (l : list A) off data :
  0 <= off -> off + zlen data <= zlen l -> zlen (splice l off data) = zlen l.
Proof.
  intros. unfold splice. rewrite !zlen_app, zlen_ztake, zlen_zdrop.
  pose proof (zlen_nonneg data). lia.
Qed.

Lemma zlen_0 {A} (l : list A) : zlen l = 0 -> l = [].
Proof. unfold zlen. destruct l; simpl; [done | lia]. Qed.

Create Rewrite HintDb zlen.
#[global] Hint Rewrite @zlen_nil @zlen_cons @zlen_app @zlen_ztake @zlen_zdrop @zlen_zsub
  @zlen_zrep : zlen.

(** Normalise lengths and close linear goals about them. *)
Ltac len :=
  autorewrite with zlen in *;
  repeat match goal with
    | |- context [zlen ?l] =>
        lazymatch goal with H : 0 <= zlen l |- _ => fail | _ => pose proof (zlen_nonneg l) end
    | _ : context [zlen ?l] |- _ =>
        lazymatch goal with H : 0 <= zlen l |- _ => fail | _ => pose proof (zlen_nonneg l) end
    end;
  lia.

Lemma ztake_ge {A} n (l : list A) : zlen l <= n -> ztake n l = l.
Proof. unfold zlen, ztake. intros. apply take_ge. lia. Qed.

Lemma ztake_le {A} n (l : list A) : n <= 0 -> ztake n l = [].
Proof. unfold ztake. intros. replace (Z.to_nat n) with O by lia. done. Qed.

Lemma zdrop_le {A} n (l : list A) : n <= 0 -> zdrop n l = l.
Proof. unfold zdrop. intros. by replace (Z.to_nat n) with O by lia. Qed.

Lemma zdrop_ge {A} n (l : list A) : zlen l <= n -> zdrop n l = [].
Proof. unfold zlen, zdrop. intros. apply drop_ge. lia. Qed.

Lemma ztake_zdrop {A} n (l : list A) : ztake n l ++ zdrop n l = l.
Proof. apply take_drop. Qed.

Lemma zdrop_zdrop {A} n m (l : list A) : 0 <= n -> 0 <= m -> zdrop n (zdrop m l) = zdrop (m + n) l.
Proof. unfold zdrop. intros. rewrite drop_drop. f_equal. lia. Qed.

Lemma ztake_app {A} n (l k : list A) : n = zlen l -> ztake n (l ++ k) = l.
Proof. intros ->. unfold ztake, zlen. rewrite Nat2Z.id. apply take_app_length. Qed.

Lemma ztake_app_le {A} n (l k : list A) : n <= zlen l -> ztake n (l ++ k) = ztake n l.
Proof. unfold ztake, zlen. intros. apply take_app_le. lia. Qed.

Lemma ztake_app_ge {A} n (l k : list A) :
  zlen l <= n -> ztake n (l ++ k) = l ++ ztake (n - zlen l) k.
Proof.
  unfold ztake, zlen. intros. rewrite take_app_ge by lia. f_equal. f_equal. lia.
Qed.

Lemma zdrop_app {A} n (l k : list A) : n = zlen l -> zdrop n (l ++ k) = k.
Proof. intros ->. unfold zdrop, zlen. rewrite Nat2Z.id. apply drop_app_length. Qed.

Lemma zdrop_app_le {A} n (l k : list A) : n <= zlen l -> zdrop n (l ++ k) = zdrop n l ++ k.
Proof. unfold zdrop, zlen. intros. apply drop_app_le. lia. Qed.

Lemma zdrop_app_ge {A} n (l k : list A) :
  zlen l <= n -> zdrop n (l ++ k) = zdrop (n - zlen l) k.
Proof. unfold zdrop, zlen. intros. rewrite drop_app_ge by lia. f_equal. lia. Qed.

Lemma ztake_ztake {A} n m (l : list A) : ztake n (ztake m l) = ztake (Z.min n m) l.
Proof. unfold ztake. rewrite take_take. f_equal. lia. Qed.

Lemma zsub_app_l {A} off n (l k : list A) :
  0 <= off -> 0 <= n -> off + n <= zlen l -> zsub off n (l ++ k) = zsub off n l.
Proof. intros. unfold zsub. rewrite zdrop_app_le, ztake_app_le by len. done. Qed.

Lemma zsub_app_r {A} off n (l k : list A) :
  zlen l <= off -> zsub off n (l ++ k) = zsub (off - zlen l) n k.
Proof. intros. unfold zsub. by rewrite zdrop_app_ge. Qed.

Lemma zsub_app_mid {A} off n (l m k : list A) :
  off = zlen l -> n = zlen m -> zsub off n (l ++ m ++ k) = m.
Proof. intros -> ->. unfold zsub. rewrite zdrop_app by done. by apply ztake_app. Qed.

Lemma zsub_app_end {A} off n (l m : list A) :
  off = zlen l -> n = zlen m -> zsub off n (l ++ m) = m.
Proof. intros -> ->. unfold zsub. rewrite zdrop_app by done. by apply ztake_ge. Qed.

Lemma zsub_all {A} n (l : list A) : zlen l <= n -> zsub 0 n l = l.
Proof. intros. unfold zsub. rewrite zdrop_le by lia. by apply ztake_ge. Qed.

Lemma zsub_zsub {A} o1 n1 o2 n2 (l : list A) :
  0 <= o1 -> 0 <= o2 -> 0 <= n2 -> o2 + n2 <= n1 ->
  zsub o2 n2 (zsub o1 n1 l) = zsub (o1 + o2) n2 l.
Proof.
  intros. unfold zsub, ztake, zdrop.
  rewrite take_drop_commute, take_take, Nat.min_l by lia.
  rewrite <- take_drop_commute, drop_drop. f_equal. f_equal. lia.
Qed.

Lemma zdrop_splice_lt {A} n (l : list A) off data :
  0 <= off -> off <= zlen l -> off + zlen data <= n ->
  zdrop n (splice l off data) = zdrop n l.
Proof.
  intros. unfold splice. pose proof (zlen_nonneg data).
  rewrite zdrop_app_ge by len. rewrite zdrop_app_ge by len.
  rewrite zdrop_zdrop by len. f_equal. rewrite zlen_ztake. lia.
Qed.

Lemma ztake_splice_le {A} n (l : list A) off data :
  n <= off -> off <= zlen l -> ztake n (splice l off data) = ztake n l.
Proof.
  intros. unfold splice. rewrite ztake_app_le by len. rewrite ztake_ztake. f_equal. lia.
Qed.

Lemma zsub_splice {A} (l : list A) off data :
  0 <= off -> off <= zlen l -> zsub off (zlen data) (splice l off data) = data.
Proof. intros. unfold splice. apply zsub_app_mid; len. Qed.

Lemma splice_0 {A} (l data : list A) : splice l 0 data = data ++ zdrop (zlen data) l.
Proof. unfold splice. by rewrite ztake_le by lia. Qed.

Lemma at_app_l l k i : 0 <= i < zlen l -> at_ (l ++ k) i = at_ l i.
Proof. unfold at_, zlen. intros. apply app_nth1. lia. Qed.

Lemma at_app_r l k i : zlen l <= i -> at_ (l ++ k) i = at_ k (i - zlen l).
Proof. unfold at_, zlen. intros. rewrite app_nth2 by lia. f_equal. lia. Qed.

Lemma at_zdrop l n i : 0 <= n -> 0 <= i -> at_ (zdrop n l) i = at_ l (n + i).
Proof.
  unfold at_, zdrop. intros. rewrite !nth_lookup, lookup_drop. do 2 f_equal. lia.
Qed.

Lemma at_ztake l n i : 0 <= i < n -> at_ (ztake n l) i = at_ l i.
Proof. unfold at_, ztake. intros. rewrite !nth_lookup, lookup_take_lt; [done | lia]. Qed.

Lemma at_cons_0 x l : at_ (x :: l) 0 = x.
Proof. reflexivity. Qed.

Lemma at_byte_ok l i : bytes_ok l -> byte_ok (at_ l i).
Proof.
  unfold at_. intros Hl. rewrite nth_lookup.
  destruct (l !! Z.to_nat i) as [x|] eqn:E; simpl.
  - eapply Forall_lookup_1; eauto.
  - unfold byte_ok. lia.
Qed.

Lemma bytes_ok_zsub l off n : bytes_ok l -> bytes_ok (zsub off n l).
Proof. intros. unfold zsub, ztake, zdrop. by apply Forall_take, Forall_drop. Qed.

(** Concrete byte strings are checked by evaluation. *)
Lemma bytes_ok_forallb l : forallb (fun b => (0 <=? b) && (b <? 256)) l = true -> bytes_ok l.
Proof.
  intros H. apply Forall_forall. intros b Hb. apply list_elem_of_In in Hb.
  rewrite forallb_forall in H. specialize (H b Hb). unfold byte_ok. bool_prop. lia.
Qed.

(** ** Machine integers *)

Lemma wrap_range w x : 0 <= w -> 0 <= wrap w x < 2 ^ w.
Proof. intros. unfold wrap. apply Z.mod_pos_bound. apply Z.pow_pos_nonneg; lia. Qed.

Lemma wrap_small w x : 0 <= x < 2 ^ w -> wrap w x = x.
Proof. intros. by apply Z.mod_small. Qed.

Lemma wrap_wrap w x : 0 <= w -> wrap w (wrap w x) = wrap w x.
Proof. intros. apply wrap_small. by apply wrap_range. Qed.

Lemma wrap_add_l w x y : wrap w (wrap w x + y) = wrap w (x + y).
Proof. unfold wrap. by rewrite Zplus_mod_idemp_l. Qed.

Lemma i64_range x : - 2 ^ 63 <= i64 x < 2 ^ 63.
Proof.
  unfold i64. pose proof (wrap_range 64 x). change (2^64) with (2 * 2^63) in *.
  destruct (u64 x <? 2 ^ 63) eqn:E; bool_prop; lia.
Qed.

Lemma i64_u64 x : - 2 ^ 63 <= x < 2 ^ 63 -> i64 (u64 x) = x.
Proof.
  intros. unfold i64. rewrite wrap_wrap by lia. unfold wrap.
  change (2^64) with (2 * 2^63) in *.
  destruct (Z_lt_dec x 0).
  - replace (x mod (2 * 2 ^ 63)) with (x + 2 * 2^63).
    + destruct (_ <? _) eqn:E; bool_prop; lia.
    + symmetry. rewrite <- (Z.mod_add x 1) by lia. apply Z.mod_small. lia.
  - rewrite Z.mod_small by lia. destruct (_ <? _) eqn:E; bool_prop; lia.
Qed.

Lemma i64_small x : - 2 ^ 63 <= x < 2 ^ 63 -> i64 x = x.
Proof.
  intros H. rewrite <- (i64_u64 x H) at 2. unfold i64. by rewrite wrap_wrap by lia.
Qed.

(** ** The binary search finds the partition point *)

Lemma prefix_count_le {A} (p : A -> bool) l : (prefix_count p l <= length l)%nat.
Proof. induction l; simpl; [lia | destruct (p a); lia]. Qed.

Lemma prefix_count_true {A} (p : A -> bool) l i x :
  (i < prefix_count p l)%nat -> l !! i = Some x -> p x = true.
Proof.
  revert i. induction l as [|a l IH]; intros i Hi Hx; simpl in *; [lia|].
  destruct (p a) eqn:E; [|lia]. destruct i; simpl in *; [congruence|].
  eapply IH; [|done]. lia.
Qed.

Lemma prefix_count_false {A} (p : A -> bool) l x :
  l !! prefix_count p l = Some x -> p x = false.
Proof. induction l as [|a l IH]; simpl; [done|]. destruct (p a) eqn:E; simpl; [done|congruence]. Qed.

Lemma prefix_count_unique {A} (p : A -> bool) l k :
  (k <= length l)%nat ->
  (forall i x, (i < k)%nat -> l !! i = Some x -> p x = true) ->
  (forall x, l !! k = Some x -> p x = false) ->
  prefix_count p l = k.
Proof.
  intros Hk Ht Hf. destruct (Nat.lt_trichotomy (prefix_count p l) k) as [H|[H|H]]; [|done|].
  - assert (is_Some (l !! prefix_count p l)) as [x Hx] by (apply lookup_lt_is_Some; lia).
    specialize (Ht _ _ H Hx).
    pose proof (prefix_count_false p l x Hx). congruence.
  - pose proof (prefix_count_le p l).
    assert (is_Some (l !! k)) as [x Hx] by (apply lookup_lt_is_Some; lia).
    specialize (Hf x Hx). pose proof (prefix_count_true p l k x H Hx). congruence.
Qed.

Lemma partition_loop_spec {A} (p : A -> bool) l :
  partitioned p l ->
  forall fuel first len,
    (len <= fuel)%nat -> (first + len <= length l)%nat ->
    (first <= prefix_count p l <= first + len)%nat ->
    partition_loop p l first len fuel = prefix_count p l.
Proof.
  intros Hp. induction fuel as [|fuel IH]; intros first len Hf Hl Hc; simpl; [lia|].
  destruct (len =? 0)%nat eqn:E0; [apply Nat.eqb_eq in E0; lia|]. apply Nat.eqb_neq in E0.
  assert (Nat.div2 len < len)%nat as Hh by (apply Nat.lt_div2; lia).
  generalize dependent (Nat.div2 len). intros half Hh.
  destruct (l !! (first + half)%nat) as [x|] eqn:Ex.
  2:{ apply lookup_ge_None in Ex. lia. }
  destruct (p x) eqn:Ep; (apply IH; [lia | lia | split; try lia]).
  - apply Nat.nlt_ge. intros Hlt.
    assert (is_Some (l !! prefix_count p l)) as [y Hy] by (apply lookup_lt_is_Some; lia).
    pose proof (prefix_count_false p l y Hy).
    assert (p y = true); [|congruence]. eapply Hp; [|done|exact Ex|done]. lia.
  - apply Nat.nlt_ge. intros Hlt.
    pose proof (prefix_count_true p l _ _ Hlt Ex). congruence.
Qed.

Lemma partition_point_spec {A} (p : A -> bool) l :
  partitioned p l -> partition_point p l = prefix_count p l.
Proof.
  intros. apply partition_loop_spec; auto; try lia. pose proof (prefix_count_le p l). lia.
Qed.

Lemma partition_point_app {A} (p : A -> bool) xs ys :
  Forall (fun x => p x = true) xs -> Forall (fun y => p y = false) ys -> partition_point p (xs ++ ys) = length xs.
Proof.
  intros Hx Hy. assert (forall i x, (xs ++ ys) !! i = Some x -> p x = true <-> (i < length xs)%nat) as Hi.
  { intros i x E. destruct (decide (i < length xs)%nat) as [Hl|Hl].
    - rewrite lookup_app_l in E by done. by rewrite (Forall_lookup_1 _ _ _ _ Hx E).
    - rewrite lookup_app_r in E by lia. rewrite (Forall_lookup_1 _ _ _ _ Hy E). split; [done | lia]. }
  rewrite partition_point_spec.
  - apply prefix_count_unique; [rewrite length_app; lia | |].
    + intros i x Hl E. by apply (Hi i).
    + intros x E. apply not_true_iff_false. intros Hp. apply Hi in E as [E _]. specialize (E Hp). lia.
  - intros i j x y Hij Ex Ey Hp. apply (Hi i); [done|]. apply (Hi j) in Hp; [lia | done].
Qed.

(** ** Bounds of the bitwise operations *)

Lemma lxor_bound w a b : 0 <= w -> 0 <= a < 2 ^ w -> 0 <= b < 2 ^ w -> 0 <= Z.lxor a b < 2 ^ w.
Proof.
  intros Hw Ha Hb. split; [by apply Z.lxor_nonneg; lia|].
  destruct (Z.eq_dec (Z.lxor a b) 0) as [->|Hn]; [apply Z.pow_pos_nonneg; lia|].
  assert (0 <= Z.lxor a b) by (apply Z.lxor_nonneg; lia).
  apply Z.log2_lt_pow2; [lia|]. eapply Z.le_lt_trans; [by apply Z.log2_lxor; lia|].
  assert (forall x, 0 <= x < 2 ^ w -> x = 0 \/ Z.log2 x < w) as L.
  { intros x Hx. destruct (Z.eq_dec x 0); [by left | right]. apply Z.log2_lt_pow2; lia. }
  pose proof (Z.log2_nonneg a). pose proof (Z.log2_nonneg b).
  destruct (L a Ha) as [->|], (L b Hb) as [->|];
    first [by rewrite Z.lxor_0_l in Hn | change (Z.log2 0) with 0; lia].
Qed.

Lemma lor_bound w a b : 0 <= w -> 0 <= a < 2 ^ w -> 0 <= b < 2 ^ w -> 0 <= Z.lor a b < 2 ^ w.
Proof.
  intros Hw Ha Hb. split; [by apply Z.lor_nonneg; lia|].
  destruct (Z.eq_dec (Z.lor a b) 0) as [->|Hn]; [apply Z.pow_pos_nonneg; lia|].
  assert (0 <= Z.lor a b) by (apply Z.lor_nonneg; lia).
  apply Z.log2_lt_pow2; [lia|]. eapply Z.le_lt_trans; [by rewrite Z.log2_lor by lia; apply Z.le_refl|].
  assert (forall x, 0 <= x < 2 ^ w -> x = 0 \/ Z.log2 x < w) as L.
  { intros x Hx. destruct (Z.eq_dec x 0); [by left | right]. apply Z.log2_lt_pow2; lia. }
  pose proof (Z.log2_nonneg a). pose proof (Z.log2_nonneg b).
  destruct (L a Ha) as [->|], (L b Hb) as [->|];
    first [by rewrite Z.lor_0_l in Hn | change (Z.log2 0) with 0; lia].
Qed.
