(* ===== verification/Random.v ===== *)
(** * Randomness behind the io seam

    Models [src/src/io/random.h] and [src/src/io/seeded_random.h].  The abstract class
    [io::Random] is the typeclass [Random] over a generator state; what its callers rely on
    is [RandomOk].  [SeededRandom] is the xoshiro256** generator with its SplitMix64
    seeding and Lemire's rejection loop, which runs on fuel since nothing in the code
    bounds the number of rejections.

    The theorems: bounded draws stay below their bound and the derived [next_in_range]
    stays inside its range; whatever the seed, the generator never reaches the all-zero
    state, the one state xoshiro256** cannot leave. *)
From S2P Require Import Prelude.
From Stdlib Require Import SpecFloat.

(** ** [io::Random] *)

Class Random (G : Type) := {
  next_u64 : G -> Z * G;
  next_below : Z -> G -> Z * G }.

(** What the header documents: 64-bit words, and draws below a non-zero bound. *)
Class RandomOk (G : Type) `{Random G} := {
  next_u64_range : forall g, 0 <= (next_u64 g).1 < 2 ^ 64;
  next_below_range : forall b g, 0 < b < 2 ^ 64 -> 0 <= (next_below b g).1 < b }.

Definition next_in_range `{Random G} (lo hi : Z) (g : G) : Z * G :=
  if hi <=? lo then (lo, g)
  else
    let span := u64 (u64 (i64 (hi - lo)) + 1) in
    let '(r, g') := next_below span g in
    (i64 (lo + i64 r), g').

(** C++ [double]s are binary64 values of the [SpecFloat] library. *)
Abbreviation double := spec_float (only parsing).
Definition double_of_u64 (n : Z) : double := binary_normalize 53 1024 n 0 false.
Definition kScale : double := SFdiv 53 1024 (double_of_u64 1) (double_of_u64 9007199254740992).

Definition next_bool_with_probability `{Random G} (p : double) (g : G) : bool * G :=
  if SFleb p (S754_zero false) then (false, g)
  else if SFleb (double_of_u64 1) p then (true, g)
  else
    let '(r, g') := next_u64 g in
    (SFltb (SFmul 53 1024 (double_of_u64 (Z.shiftr r 11)) kScale) p, g').

(** A generator that counts, for evaluating models on concrete inputs. *)
#[export] Instance counter_random : Random Z := {
  next_u64 g := (u64 g, g + 1);
  next_below b g := (g mod b, g + 1) }.

#[export] Instance counter_random_ok : RandomOk Z.
Proof.
  split; simpl; intros; [apply wrap_range; lia | apply Z.mod_pos_bound; lia].
Qed.

(** ** [io::SeededRandom] *)

Module SeededRandom.

(** The words [s_[0..3]]. *)
Record t := mk { s0 : Z; s1 : Z; s2 : Z; s3 : Z }.

Definition rotl (x k : Z) : Z := Z.lor (u64 (Z.shiftl x k)) (Z.shiftr x (64 - k)).

(** The body of the seeding loop: the word produced from the advanced seed. *)
Definition mix (seed : Z) : Z :=
  let z := u64 (Z.lxor seed (Z.shiftr seed 30) * 0xBF58476D1CE4E5B9) in
  let z := u64 (Z.lxor z (Z.shiftr z 27) * 0x94D049BB133111EB) in
  Z.lxor z (Z.shiftr z 31).

Definition kGolden : Z := 0x9E3779B97F4A7C15.

Definition reseed (seed : Z) : t :=
  let seed0 := u64 (seed + kGolden) in
  let seed1 := u64 (seed0 + kGolden) in
  let seed2 := u64 (seed1 + kGolden) in
  let seed3 := u64 (seed2 + kGolden) in
  mk (mix seed0) (mix seed1) (mix seed2) (mix seed3).

Definition next_u64 (g : t) : Z * t :=
  let result := u64 (rotl (u64 (s1 g * 5)) 7 * 9) in
  let tt := u64 (Z.shiftl (s1 g) 17) in
  let a2 := Z.lxor (s2 g) (s0 g) in
  let a3 := Z.lxor (s3 g) (s1 g) in
  let a1 := Z.lxor (s1 g) a2 in
  let a0 := Z.lxor (s0 g) a3 in
  let a2 := Z.lxor a2 tt in
  let a3 := rotl a3 45 in
  (result, mk a0 a1 a2 a3).

(** The rejection loop, [fuel] draws long at most. *)
Fixpoint next_below_loop (fuel : nat) (threshold bound : Z) (g : t) : option (Z * t) :=
  match fuel with
  | O => None
  | S fuel' =>
      let '(r, g') := next_u64 g in
      if threshold <=? r then Some (r mod bound, g')
      else next_below_loop fuel' threshold bound g'
  end.

Definition next_below (fuel : nat) (bound : Z) (g : t) : option (Z * t) :=
  if bound <=? 1 then Some (0, g)
  else next_below_loop fuel (u64 (u64 (Z.lnot bound) + 1) mod bound) bound g.

(** ** Specification vocabulary *)

Definition words_ok (g : t) : Prop :=
  0 <= s0 g < 2 ^ 64 /\ 0 <= s1 g < 2 ^ 64 /\ 0 <= s2 g < 2 ^ 64 /\ 0 <= s3 g < 2 ^ 64.

Definition all_zero (g : t) : Prop := s0 g = 0 /\ s1 g = 0 /\ s2 g = 0 /\ s3 g = 0.

(** The state after [n] draws from a fresh generator. *)
Fixpoint after (n : nat) (seed : Z) : t :=
  match n with
  | O => reseed seed
  | S n' => (next_u64 (after n' seed)).2
  end.

End SeededRandom.

Section SeededLemmas.
Import SeededRandom.

Lemma xorshift_zero z k : 0 <= z -> 0 < k -> Z.lxor z (Z.shiftr z k) = 0 -> z = 0.
Proof.
  intros Hz Hk H. apply Z.lxor_eq in H. rewrite Z.shiftr_div_pow2 in H by lia.
  assert (2 ^ 1 <= 2 ^ k) by (apply Z.pow_le_mono_r; lia).
  destruct (Z.eq_dec z 0); [done|]. pose proof (Z.div_lt z (2 ^ k) ltac:(lia) ltac:(lia)). lia.
Qed.

(** Multiplication by a unit of [Z/2^64] loses nothing. *)
Lemma mul_unit_zero x c ci : (c * ci) mod 2 ^ 64 = 1 -> u64 (x * c) = 0 -> x mod 2 ^ 64 = 0.
Proof.
  unfold wrap. intros Hc Hx.
  replace (x mod 2 ^ 64) with ((x * (c * ci)) mod 2 ^ 64).
  - rewrite Z.mul_assoc, Z.mul_mod, Hx by done. by rewrite Z.mul_0_l.
  - by rewrite Z.mul_mod, Hc, Z.mul_1_r, Z.mod_mod by done.
Qed.

Lemma mix_zero z : 0 <= z < 2 ^ 64 -> mix z = 0 -> z = 0.
Proof.
  intros Hz H. unfold mix in H. cbv zeta in H.
  assert (forall x k, 0 <= x < 2 ^ 64 -> 0 < k -> 0 <= Z.lxor x (Z.shiftr x k) < 2 ^ 64) as Hr.
  { intros x k Hx Hk. apply lxor_bound; [lia | done |]. rewrite Z.shiftr_div_pow2 by lia.
    pose proof (Z.pow_pos_nonneg 2 k). split; [apply Z.div_pos; lia|].
    apply Z.div_lt_upper_bound; [lia|]. nia. }
  apply xorshift_zero in H; [|apply wrap_range; lia|lia].
  apply mul_unit_zero with (ci := 3573116690164977347) in H; [|done].
  rewrite Z.mod_small in H by (apply Hr; [apply wrap_range; lia | lia]).
  apply xorshift_zero in H; [|apply wrap_range; lia|lia].
  apply mul_unit_zero with (ci := 10871156337175269513) in H; [|done].
  rewrite Z.mod_small in H by (by apply Hr). apply xorshift_zero in H; [done | lia | lia].
Qed.

Lemma rotl_range x k : 0 <= x < 2 ^ 64 -> 0 <= k <= 64 -> 0 <= rotl x k < 2 ^ 64.
Proof.
  intros Hx Hk. unfold rotl. rewrite Z.shiftr_div_pow2 by lia.
  apply lor_bound; [lia | apply wrap_range; lia |].
  pose proof (Z.pow_pos_nonneg 2 (64 - k)). split; [apply Z.div_pos; lia|].
  apply Z.div_lt_upper_bound; [lia|]. nia.
Qed.

Lemma rotl_zero x k : 0 <= x < 2 ^ 64 -> 0 <= k <= 64 -> rotl x k = 0 -> x = 0.
Proof.
  intros Hx Hk H. apply Z.lor_eq_0_iff in H as [H1 H2].
  rewrite Z.shiftr_div_pow2 in H2 by lia. rewrite Z.shiftl_mul_pow2 in H1 by lia. unfold wrap in H1.
  apply Z.div_small_iff in H2; [|lia].
  assert (2 ^ (64 - k) * 2 ^ k = 2 ^ 64) by (rewrite <- Z.pow_add_r by lia; f_equal; lia).
  pose proof (Z.pow_pos_nonneg 2 k). rewrite Z.mod_small in H1 by nia. nia.
Qed.

Lemma next_words_ok g : words_ok g -> words_ok (next_u64 g).2.
Proof.
  intros (H0 & H1 & H2 & H3). unfold words_ok; cbn [next_u64 snd s0 s1 s2 s3].
  assert (0 <= u64 (Z.shiftl (s1 g) 17) < 2 ^ 64) by (apply wrap_range; lia).
  refine (conj _ (conj _ (conj _ _)));
    repeat first [ assumption | apply lxor_bound; [lia | |] | apply rotl_range; [|lia] ].
Qed.

Lemma next_nonzero g : words_ok g -> all_zero (next_u64 g).2 -> all_zero g.
Proof.
  intros (H0 & H1 & H2 & H3). unfold all_zero; cbn [next_u64 snd s0 s1 s2 s3].
  intros (E0 & E1 & E2 & E3). apply rotl_zero in E3; [|by apply lxor_bound; lia|lia].
  rewrite E3, Z.lxor_0_r in E0. apply Z.lxor_eq in E3. rewrite E0, Z.lxor_0_r in *.
  apply Z.lxor_eq in E1, E2. rewrite <- E1 in E2. rewrite Z.shiftl_mul_pow2 in E2 by lia.
  assert (s1 g = 0) as Z1.
  { rewrite <- (Z.mod_small (s1 g) (2 ^ 64)) by lia.
    apply mul_unit_zero with (c := 131071) (ci := 18444492256715866111); [done|].
    unfold wrap in *. replace (s1 g * 131071) with (s1 g * 2 ^ 17 - s1 g) by lia.
    rewrite Zminus_mod, <- E2, (Z.mod_small (s1 g)), Z.sub_diag by lia. done. }
  split_and!; congruence.
Qed.

Lemma mix_range z : 0 <= mix z < 2 ^ 64.
Proof.
  unfold mix. cbv zeta. set (x := u64 _). assert (0 <= x < 2 ^ 64) by (apply wrap_range; lia).
  apply lxor_bound; [lia | done |]. rewrite Z.shiftr_div_pow2 by lia.
  split; [apply Z.div_pos; lia | apply Z.div_lt_upper_bound; lia].
Qed.

Lemma reseed_ok seed : words_ok (reseed seed) /\ ~ all_zero (reseed seed).
Proof.
  split; [by unfold words_ok; simpl; repeat apply conj; apply mix_range|].
  intros (E0 & E1 & _). cbn [reseed s0 s1] in E0, E1.
  apply mix_zero in E0; [|apply wrap_range; lia]. apply mix_zero in E1; [|apply wrap_range; lia].
  rewrite E0 in E1. vm_compute in E1. done.
Qed.

Lemma after_ok n seed : words_ok (after n seed) /\ ~ all_zero (after n seed).
Proof.
  induction n as [|n [IH1 IH2]]; [apply reseed_ok|]. simpl.
  split; [by apply next_words_ok|]. intros H. by apply IH2, next_nonzero.
Qed.

Lemma next_below_loop_spec fuel threshold bound g r g' :
  0 < bound -> next_below_loop fuel threshold bound g = Some (r, g') -> 0 <= r < bound.
Proof.
  intros Hb. revert g. induction fuel as [|fuel IH]; intros g; [done|].
  cbn [next_below_loop]. destruct (next_u64 g) as [x g1]. destruct (threshold <=? x); [|apply IH].
  intros [= <- <-]. apply Z.mod_pos_bound. lia.
Qed.

End SeededLemmas.

(** ** Properties *)

(** Whatever the seed and however many words were drawn, the state of [SeededRandom]
    is four 64-bit words that are not all zero, so the generator never falls into the
    fixed point of xoshiro256**. *)
Theorem seeded_never_degenerate (seed : Z) (n : nat) :
  SeededRandom.words_ok (SeededRandom.after n seed) /\
  ~ SeededRandom.all_zero (SeededRandom.after n seed).
Proof. apply after_ok. Qed.

(** A generator that keeps the contract of [next_below] makes [next_in_range] land
    inside [[lo, hi]], and on [lo] when the range is empty, for every pair of 64-bit
    bounds whose distance fits in an [i64] below its maximum. *)
Theorem next_in_range_inside `{RandomOk G} (lo hi : Z) (g : G) :
  - 2 ^ 63 <= lo -> hi < 2 ^ 63 -> hi - lo < 2 ^ 63 - 1 ->
  let r := (next_in_range lo hi g).1 in (lo <= r <= hi) \/ (hi <= lo /\ r = lo).
Proof.
  intros Hlo Hhi Hd. unfold next_in_range. destruct (hi <=? lo) eqn:E; bool_prop; [by right|left].
  assert (u64 (u64 (i64 (hi - lo)) + 1) = hi - lo + 1) as ->.
  { rewrite i64_small by (pow2; lia). rewrite (wrap_small 64 (hi - lo)) by (pow2; lia).
    apply wrap_small. pow2; lia. }
  destruct (next_below (hi - lo + 1) g) as [x g'] eqn:N.
  assert (0 <= x < hi - lo + 1).
  { pose proof (next_below_range (hi - lo + 1) g ltac:(pow2; lia)) as R. by rewrite N in R. }
  simpl. rewrite (i64_small x) by (pow2; lia). rewrite i64_small by (pow2; lia). lia.
Qed.

Lemma next_in_range_inside_witness :
  let r := (next_in_range (-5) 12 40).1 in (-5 <= r <= 12) \/ (12 <= -5 /\ r = -5).
Proof. apply (next_in_range_inside (-5) 12 40); pow2; lia. Defined.
