(* ===== verification/Base.v ===== *)
(** * Base: error codes, results, slices, little-endian words, byte buffers

    Models [src/src/base/]: [error.h] ([ErrorCode], [is_retryable]), [result.h]
    ([Result], [Status]), [slice.h] ([Slice::subslice]), [endian.h] (the loads and
    stores) and [buffer.h] ([Buffer], the growable byte queue behind every stream).

    The theorems: the loads invert the stores and the stores invert the loads, and
    [Buffer] with its lazy compaction refines a plain FIFO of bytes. *)
From S2P Require Import Prelude.

(** ** error.h *)

Inductive ErrorCode :=
| kNone
| kNotLeader | kRequestTimedOut | kNotEnoughReplicas | kWouldBlock
| kOffsetOutOfRange | kCorruptRecord | kInvalidProducerEpoch | kMessageTooLarge
| kInvalidRequest | kUnsupportedVersion | kIoError | kClosed | kNotFound
| kInvalidArgument.

#[export] Instance ErrorCode_eq_dec : EqDecision ErrorCode.
Proof. solve_decision. Defined.

(** The enumerators' numeric values. *)
Definition error_value (c : ErrorCode) : Z :=
  match c with
  | kNone => 0
  | kNotLeader => 1 | kRequestTimedOut => 2 | kNotEnoughReplicas => 3 | kWouldBlock => 4
  | kOffsetOutOfRange => 100 | kCorruptRecord => 101 | kInvalidProducerEpoch => 102
  | kMessageTooLarge => 103 | kInvalidRequest => 104 | kUnsupportedVersion => 105
  | kIoError => 106 | kClosed => 107 | kNotFound => 108 | kInvalidArgument => 109
  end.

Definition is_retryable (c : ErrorCode) : bool :=
  (0 <? error_value c) && (error_value c <? 100).

(** ** result.h *)

Inductive Result (A : Type) :=
| Ok (a : A)
| fail (e : ErrorCode).
Arguments Ok {A} a.
Arguments fail {A} e.

Abbreviation Status := (Result unit).

Definition ok {A} (r : Result A) : bool := match r with Ok _ => true | fail _ => false end.

Definition is_Ok {A} (r : Result A) : Prop := exists a, r = Ok a.

Definition error {A} (r : Result A) : ErrorCode :=
  match r with Ok _ => kNone | fail e => e end.

Definition value_or {A} (r : Result A) (fallback : A) : A :=
  match r with Ok a => a | fail _ => fallback end.

(** [auto x = r; if (!x) return fail(x.error()); k] *)
Notation "'let?' x ':=' r 'in' k" :=
  (match r with Ok x => k | fail e => fail e end)
  (at level 10, x pattern, r at level 100, k at level 200) : le_scope.

(** [if (b) return fail(e); k] *)
Notation "'fail_if' b 'with' e 'else' k" :=
  (if b then fail e else k)
  (at level 10, b at level 100, e at level 100, k at level 200)
  : le_scope.

(** ** slice.h *)

(** [Slice::subslice(offset, count)]; [count] is clamped to what is there. *)
Definition subslice (s : list Z) (offset count : Z) : list Z :=
  let avail := zlen s - offset in
  zsub offset (if count <? avail then count else avail) s.

(** ** endian.h *)

Definition store_u16_le (v : Z) : list Z :=
  [Z.land v 0xFF; Z.land (Z.shiftr v 8) 0xFF].

Definition store_u32_le (v : Z) : list Z :=
  [Z.land v 0xFF; Z.land (Z.shiftr v 8) 0xFF; Z.land (Z.shiftr v 16) 0xFF;
   Z.land (Z.shiftr v 24) 0xFF].

Definition store_u64_le (v : Z) : list Z :=
  store_u32_le (Z.land v 0xFFFFFFFF) ++ store_u32_le (Z.land (Z.shiftr v 32) 0xFFFFFFFF).

Definition store_i64_le (v : Z) : list Z := store_u64_le (u64 v).

Definition load_u16_le (p : list Z) (off : Z) : Z :=
  Z.lor (at_ p off) (Z.shiftl (at_ p (off + 1)) 8).

Definition load_u32_le (p : list Z) (off : Z) : Z :=
  Z.lor (Z.lor (Z.lor (at_ p off) (Z.shiftl (at_ p (off + 1)) 8))
    (Z.shiftl (at_ p (off + 2)) 16)) (Z.shiftl (at_ p (off + 3)) 24).

Definition load_u64_le (p : list Z) (off : Z) : Z :=
  Z.lor (load_u32_le p off) (Z.shiftl (load_u32_le p (off + 4)) 32).

Definition load_i64_le (p : list Z) (off : Z) : Z := i64 (load_u64_le p off).

Arguments store_u16_le : simpl never.
Arguments store_u32_le : simpl never.
Arguments store_u64_le : simpl never.
Arguments store_i64_le : simpl never.

(** ** buffer.h *)

Module Buffer.

Record t := mk { bytes_ : list Z; read_pos_ : Z }.

Definition empty_buffer : t := mk [] 0.

Definition size (b : t) : Z := zlen (bytes_ b) - read_pos_ b.
Definition empty (b : t) : bool := size b =? 0.
Definition slice (b : t) : list Z := zsub (read_pos_ b) (size b) (bytes_ b).

Definition clear (b : t) : t := mk [] 0.

Definition compact (b : t) : t :=
  if read_pos_ b =? 0 then b
  else mk (zsub (read_pos_ b) (zlen (bytes_ b) - read_pos_ b) (bytes_ b)) 0.

Definition consume (b : t) (n : Z) : t :=
  let b' := mk (bytes_ b) (read_pos_ b + n) in
  if read_pos_ b' =? zlen (bytes_ b') then clear b'
  else if zlen (bytes_ b') <=? read_pos_ b' * 2 then compact b'
  else b'.

Definition append (b : t) (s : list Z) : t := mk (bytes_ b ++ s) (read_pos_ b).
Definition append_u8 (b : t) (v : Z) : t := append b [u8 v].
Definition append_u16_le (b : t) (v : Z) : t := append b (store_u16_le v).
Definition append_u32_le (b : t) (v : Z) : t := append b (store_u32_le v).
Definition append_u64_le (b : t) (v : Z) : t := append b (store_u64_le v).
Definition append_i64_le (b : t) (v : Z) : t := append b (store_i64_le v).

(** Grow by [n] zeroed bytes (what [std::vector::resize] appends). *)
Definition append_uninitialized (b : t) (n : Z) : t := append b (zrep n 0).

Definition shrink_by (b : t) (n : Z) : t :=
  mk (ztake (zlen (bytes_ b) - n) (bytes_ b)) (read_pos_ b).

(** Write [data] over the readable bytes at [off]: what a caller does through
    [mutable_data() + off]. *)
Definition write_at (b : t) (off : Z) (data : list Z) : t :=
  mk (splice (bytes_ b) (read_pos_ b + off) data) (read_pos_ b).

(** The representation invariant. *)
Definition wf (b : t) : Prop := 0 <= read_pos_ b <= zlen (bytes_ b).

End Buffer.

(** ** Lemmas on [Result] *)

Lemma retryable_or_terminal c :
  c <> kNone -> is_retryable c = negb (100 <=? error_value c).
Proof. destruct c; done. Qed.

Lemma is_Ok_ok {A} (r : Result A) : is_Ok r <-> ok r = true.
Proof. destruct r; simpl; split; intros H; try done; [eexists; done | by destruct H]. Qed.

(** ** Lemmas on words *)

Lemma lor_shiftl_add a b k : 0 <= k -> 0 <= a < 2 ^ k -> Z.lor a (Z.shiftl b k) = a + b * 2 ^ k.
Proof.
  intros Hk Ha. rewrite <- Z.lxor_lor, <- Z.add_nocarry_lxor.
  - by rewrite Z.shiftl_mul_pow2.
  - apply Z.bits_inj'. intros n Hn. rewrite Z.land_spec, Z.bits_0.
    destruct (Z_lt_dec n k).
    + by rewrite Z.shiftl_spec_low, andb_false_r.
    + assert (Z.testbit a n = false) as ->; [|done].
      rewrite <- (Z.mod_small a (2 ^ k)) by done. apply Z.mod_pow2_bits_high. lia.
  - apply Z.bits_inj'. intros n Hn. rewrite Z.land_spec, Z.bits_0.
    destruct (Z_lt_dec n k).
    + by rewrite Z.shiftl_spec_low, andb_false_r.
    + assert (Z.testbit a n = false) as ->; [|done].
      rewrite <- (Z.mod_small a (2 ^ k)) by done. apply Z.mod_pow2_bits_high. lia.
Qed.

Lemma land_ff v : Z.land v 0xFF = v mod 256.
Proof. change 0xFF with (Z.ones 8). by rewrite Z.land_ones. Qed.

Lemma land_ffffffff v : Z.land v 0xFFFFFFFF = v mod 2 ^ 32.
Proof. change 0xFFFFFFFF with (Z.ones 32). by rewrite Z.land_ones. Qed.

Lemma shiftr_div v k : 0 <= k -> Z.shiftr v k = v / 2 ^ k.
Proof. intros. by rewrite Z.shiftr_div_pow2. Qed.

Lemma load_u16_value p off :
  byte_ok (at_ p off) -> byte_ok (at_ p (off + 1)) ->
  load_u16_le p off = at_ p off + at_ p (off + 1) * 256.
Proof. unfold byte_ok, load_u16_le. intros. rewrite lor_shiftl_add; [done | lia | lia]. Qed.

Lemma load_u32_value p off :
  byte_ok (at_ p off) -> byte_ok (at_ p (off + 1)) -> byte_ok (at_ p (off + 2)) ->
  byte_ok (at_ p (off + 3)) ->
  load_u32_le p off =
    at_ p off + at_ p (off + 1) * 256 + at_ p (off + 2) * 65536 + at_ p (off + 3) * 16777216.
Proof.
  unfold byte_ok, load_u32_le. intros.
  rewrite (lor_shiftl_add _ _ 8), (lor_shiftl_add _ _ 16), (lor_shiftl_add _ _ 24) by lia.
  lia.
Qed.

Lemma load_u64_value p off :
  0 <= load_u32_le p off < 2 ^ 32 ->
  load_u64_le p off = load_u32_le p off + load_u32_le p (off + 4) * 2 ^ 32.
Proof. unfold load_u64_le. intros. rewrite lor_shiftl_add; lia. Qed.

Lemma load_u16_range p off : bytes_ok p -> 0 <= load_u16_le p off < 2 ^ 16.
Proof.
  intros H. rewrite load_u16_value by (by apply at_byte_ok).
  pose proof (at_byte_ok p off H). pose proof (at_byte_ok p (off + 1) H). unfold byte_ok in *. lia.
Qed.

Lemma load_u32_range p off : bytes_ok p -> 0 <= load_u32_le p off < 2 ^ 32.
Proof.
  intros H. rewrite load_u32_value by (by apply at_byte_ok).
  pose proof (at_byte_ok p off H). pose proof (at_byte_ok p (off + 1) H).
  pose proof (at_byte_ok p (off + 2) H). pose proof (at_byte_ok p (off + 3) H).
  unfold byte_ok in *. lia.
Qed.

Lemma load_u64_range p off : bytes_ok p -> 0 <= load_u64_le p off < 2 ^ 64.
Proof.
  intros H. rewrite load_u64_value by (by apply load_u32_range).
  pose proof (load_u32_range p off H). pose proof (load_u32_range p (off + 4) H). lia.
Qed.

Lemma zlen_store_u16 v : zlen (store_u16_le v) = 2.
Proof. reflexivity. Qed.
Lemma zlen_store_u32 v : zlen (store_u32_le v) = 4.
Proof. reflexivity. Qed.
Lemma zlen_store_u64 v : zlen (store_u64_le v) = 8.
Proof. reflexivity. Qed.
Lemma zlen_store_i64 v : zlen (store_i64_le v) = 8.
Proof. reflexivity. Qed.

#[global] Hint Rewrite zlen_store_u16 zlen_store_u32 zlen_store_u64 zlen_store_i64 : zlen.

Lemma byte_ok_mod v : byte_ok (v mod 256).
Proof. unfold byte_ok. apply Z.mod_pos_bound. lia. Qed.

Lemma bytes_ok_store_u16 v : bytes_ok (store_u16_le v).
Proof. unfold store_u16_le. rewrite !land_ff. repeat constructor; apply byte_ok_mod. Qed.
Lemma bytes_ok_store_u32 v : bytes_ok (store_u32_le v).
Proof. unfold store_u32_le. rewrite !land_ff. repeat constructor; apply byte_ok_mod. Qed.
Lemma bytes_ok_store_u64 v : bytes_ok (store_u64_le v).
Proof. unfold store_u64_le. apply Forall_app. split; apply bytes_ok_store_u32. Qed.
Lemma bytes_ok_store_i64 v : bytes_ok (store_i64_le v).
Proof. apply bytes_ok_store_u64. Qed.

#[export] Hint Resolve bytes_ok_store_u16 bytes_ok_store_u32 bytes_ok_store_u64
  bytes_ok_store_i64 : le.

(** Reading at an offset past a prefix reads the rest. *)
Lemma load_u16_app_r l k off :
  zlen l <= off -> load_u16_le (l ++ k) off = load_u16_le k (off - zlen l).
Proof. intros. unfold load_u16_le. rewrite !at_app_r by lia. by rewrite Z.add_sub_swap. Qed.

Lemma load_u32_app_r l k off :
  zlen l <= off -> load_u32_le (l ++ k) off = load_u32_le k (off - zlen l).
Proof.
  intros. unfold load_u32_le. rewrite !at_app_r by lia.
  by rewrite !Z.add_sub_swap.
Qed.

Lemma load_u64_app_r l k off :
  zlen l <= off -> load_u64_le (l ++ k) off = load_u64_le k (off - zlen l).
Proof.
  intros. unfold load_u64_le. rewrite !load_u32_app_r by lia.
  by replace (off + 4 - zlen l) with (off - zlen l + 4) by lia.
Qed.

Lemma load_u32_app_l l k off :
  0 <= off -> off + 4 <= zlen l -> load_u32_le (l ++ k) off = load_u32_le l off.
Proof. intros. unfold load_u32_le. by rewrite !at_app_l by lia. Qed.

Lemma load_u32_store v k : load_u32_le (store_u32_le v ++ k) 0 = u32 v.
Proof.
  assert (forall i, 0 <= i < 4 -> byte_ok (at_ (store_u32_le v ++ k) i)) as Hb.
  { intros i Hi. rewrite at_app_l by done. apply at_byte_ok, bytes_ok_store_u32. }
  rewrite load_u32_value by (apply Hb; lia).
  unfold store_u32_le, at_, wrap. rewrite !land_ff, !shiftr_div by lia.
  change (Z.to_nat 0) with 0%nat. change (Z.to_nat (0 + 1)) with 1%nat.
  change (Z.to_nat (0 + 2)) with 2%nat. change (Z.to_nat (0 + 3)) with 3%nat.
  cbn [app nth]. pow2. change 65536 with (256 * 256) at 1.
  change 16777216 with (256 * (256 * 256)) at 1. rewrite <- !Z.div_div by lia. dmlia.
Qed.

Lemma load_u16_store v k : load_u16_le (store_u16_le v ++ k) 0 = u16 v.
Proof.
  assert (forall i, 0 <= i < 2 -> byte_ok (at_ (store_u16_le v ++ k) i)) as Hb.
  { intros i Hi. rewrite at_app_l by done. apply at_byte_ok, bytes_ok_store_u16. }
  rewrite load_u16_value by (apply Hb; lia).
  unfold store_u16_le, at_, wrap. rewrite !land_ff, !shiftr_div by lia.
  change (Z.to_nat 0) with 0%nat. change (Z.to_nat (0 + 1)) with 1%nat.
  cbn [app nth]. pow2. dmlia.
Qed.

Lemma load_u64_store v k : load_u64_le (store_u64_le v ++ k) 0 = u64 v.
Proof.
  unfold store_u64_le. rewrite <- app_assoc.
  assert (load_u32_le (store_u32_le (Z.land v 0xFFFFFFFF) ++
     store_u32_le (Z.land (Z.shiftr v 32) 0xFFFFFFFF) ++ k) 0 = v mod 2 ^ 32) as E.
  { rewrite load_u32_store. unfold wrap. rewrite land_ffffffff. apply Z.mod_mod. lia. }
  rewrite load_u64_value, E.
  2:{ rewrite E. apply Z.mod_pos_bound. lia. }
  rewrite load_u32_app_r by (rewrite zlen_store_u32; lia). rewrite zlen_store_u32.
  change (0 + 4 - 4) with 0. rewrite load_u32_store. unfold wrap.
  rewrite land_ffffffff, Z.mod_mod, shiftr_div by lia. pow2. dmlia.
Qed.

(** The same, at an offset. *)
Lemma load_u16_store_at l v k off : off = zlen l -> load_u16_le (l ++ store_u16_le v ++ k) off = u16 v.
Proof. intros ->. rewrite load_u16_app_r, Z.sub_diag by lia. apply load_u16_store. Qed.
Lemma load_u32_store_at l v k off : off = zlen l -> load_u32_le (l ++ store_u32_le v ++ k) off = u32 v.
Proof. intros ->. rewrite load_u32_app_r, Z.sub_diag by lia. apply load_u32_store. Qed.
Lemma load_u64_store_at l v k off : off = zlen l -> load_u64_le (l ++ store_u64_le v ++ k) off = u64 v.
Proof. intros ->. rewrite load_u64_app_r, Z.sub_diag by lia. apply load_u64_store. Qed.

Lemma store_u32_load p off :
  bytes_ok p -> 0 <= off -> off + 4 <= zlen p -> store_u32_le (load_u32_le p off) = zsub off 4 p.
Proof.
  intros Hb H0 Hl.
  rewrite load_u32_value by (by apply at_byte_ok).
  pose proof (at_byte_ok p off Hb) as B0. pose proof (at_byte_ok p (off + 1) Hb) as B1.
  pose proof (at_byte_ok p (off + 2) Hb) as B2. pose proof (at_byte_ok p (off + 3) Hb) as B3.
  assert (zsub off 4 p = [at_ p off; at_ p (off + 1); at_ p (off + 2); at_ p (off + 3)]) as ->.
  { unfold zsub. rewrite <- (Z.add_0_r off) at 2. rewrite <- !at_zdrop by lia.
    assert (4 <= zlen (zdrop off p)) as H4 by len.
    destruct (zdrop off p) as [|a [|b [|c [|d r]]]]; unfold zlen in H4; simpl in H4; try lia.
    reflexivity. }
  unfold byte_ok in *. unfold store_u32_le. rewrite !land_ff, !shiftr_div by lia.
  pow2. repeat f_equal; dmlia.
Qed.

Lemma store_u16_load p off : bytes_ok p -> 0 <= off -> off + 2 <= zlen p -> store_u16_le (load_u16_le p off) = zsub off 2 p.
Proof.
  intros Hb H0 Hl. rewrite load_u16_value by (by apply at_byte_ok).
  pose proof (at_byte_ok p off Hb) as B0. pose proof (at_byte_ok p (off + 1) Hb) as B1.
  assert (zsub off 2 p = [at_ p off; at_ p (off + 1)]) as ->.
  { unfold zsub. rewrite <- (Z.add_0_r off) at 2. rewrite <- !at_zdrop by lia. assert (2 <= zlen (zdrop off p)) as H2 by len.
    destruct (zdrop off p) as [|a [|b r]]; unfold zlen in H2; simpl in H2; try lia. reflexivity. }
  unfold byte_ok in *. unfold store_u16_le. rewrite !land_ff, !shiftr_div by lia. pow2. repeat f_equal; dmlia.
Qed.

(** ** [Buffer] refines a byte queue *)

Section BufferRefinement.
Import Buffer.

Lemma slice_zdrop b : wf b -> slice b = zdrop (read_pos_ b) (bytes_ b).
Proof. unfold wf, slice, size. intros. unfold zsub. apply ztake_ge. len. Qed.

Lemma append_wf b s : wf b -> wf (append b s).
Proof. unfold wf, append. simpl. intros. len. Qed.

Lemma append_slice b s : wf b -> slice (append b s) = slice b ++ s.
Proof.
  intros H. rewrite !slice_zdrop by auto using append_wf. simpl.
  apply zdrop_app_le. unfold wf in H. lia.
Qed.

Lemma compact_slice b : wf b -> wf (compact b) /\ slice (compact b) = slice b.
Proof.
  intros H. unfold compact. destruct (_ =? _) eqn:E; bool_prop; [done|].
  assert (wf (mk (zsub (read_pos_ b) (zlen (bytes_ b) - read_pos_ b) (bytes_ b)) 0)) as W.
  { unfold wf in *; simpl. split; [lia | apply zlen_nonneg]. }
  split; [done|]. rewrite slice_zdrop by done. simpl. by rewrite zdrop_le by lia.
Qed.

Lemma consume_spec b n :
  wf b -> 0 <= n <= size b ->
  wf (consume b n) /\ slice (consume b n) = zdrop n (slice b) /\
  (read_pos_ (consume b n) = 0 \/ read_pos_ (consume b n) * 2 < zlen (bytes_ (consume b n))).
Proof.
  intros H Hn. unfold consume. simpl.
  assert (wf (mk (bytes_ b) (read_pos_ b + n))) as W by (unfold wf, size in *; simpl; lia).
  assert (slice (mk (bytes_ b) (read_pos_ b + n)) = zdrop n (slice b)) as S.
  { rewrite !slice_zdrop by done. simpl. rewrite zdrop_zdrop by (unfold wf in H; lia). done. }
  destruct (_ =? _) eqn:E; bool_prop.
  - split_and!; [unfold wf; simpl; unfold zlen; simpl; lia | | by left].
    rewrite (slice_zdrop b) by done. unfold wf in H.
    rewrite zdrop_zdrop, (zdrop_ge (_ + n)) by lia. done.
  - destruct (_ <=? _) eqn:E2; bool_prop.
    + destruct (compact_slice _ W) as [W' S']. split_and!; [done | by rewrite S' | left].
      unfold compact. simpl. destruct (_ =? 0) eqn:E3; bool_prop; done.
    + split_and!; [done | done | right; simpl; lia].
Qed.

Lemma shrink_by_slice b n :
  wf b -> 0 <= n <= size b ->
  wf (shrink_by b n) /\ slice (shrink_by b n) = ztake (size b - n) (slice b).
Proof.
  intros H Hn. unfold shrink_by. assert (wf (mk (ztake (zlen (bytes_ b) - n) (bytes_ b)) (read_pos_ b))) as W.
  { unfold wf, size in *; simpl. len. }
  split; [done|]. rewrite !slice_zdrop by done. simpl. unfold wf, size in *.
  unfold ztake, zdrop. rewrite take_drop_commute. f_equal. f_equal. lia.
Qed.

End BufferRefinement.

(** ** Reading a field out of a sequence of stores *)

Lemma load_u64_store_0 v k off : off = 0 -> load_u64_le (store_u64_le v ++ k) off = u64 v.
Proof. intros ->. apply load_u64_store. Qed.
Lemma load_u32_store_0 v k off : off = 0 -> load_u32_le (store_u32_le v ++ k) off = u32 v.
Proof. intros ->. apply load_u32_store. Qed.
Lemma load_u16_store_0 v k off : off = 0 -> load_u16_le (store_u16_le v ++ k) off = u16 v.
Proof. intros ->. apply load_u16_store. Qed.
Lemma at_single v k off : off = 0 -> at_ ([v] ++ k) off = v.
Proof. by intros ->. Qed.

(** Read one field out of a concatenation of stores. *)
Ltac load_field :=
  rewrite <- ?app_assoc;
  repeat first
    [ rewrite load_u64_store_0 by len | rewrite load_u32_store_0 by len
    | rewrite load_u16_store_0 by len | rewrite at_single by len
    | rewrite load_u64_app_r by len | rewrite load_u32_app_r by len
    | rewrite load_u16_app_r by len | rewrite at_app_r by len ].

Lemma subslice_exact s off n :
  0 <= off -> 0 <= n -> off + n <= zlen s -> subslice s off n = zsub off n s.
Proof.
  intros. unfold subslice. destruct (_ <? _) eqn:E; bool_prop; [done|].
  by replace (zlen s - off) with n by lia.
Qed.

(** ** Properties *)

(** [Buffer] is a queue of bytes.  Appending adds at the back and consuming drops from
    the front, whatever compaction does to the storage; the space kept for consumed bytes
    never reaches half of the storage. *)
Theorem buffer_is_a_queue (b : Buffer.t) (s : list Z) (n : Z) :
  Buffer.wf b -> 0 <= n <= Buffer.size b ->
  (Buffer.wf (Buffer.append b s) /\ Buffer.slice (Buffer.append b s) = Buffer.slice b ++ s) /\
  (Buffer.wf (Buffer.consume b n) /\ Buffer.slice (Buffer.consume b n) = zdrop n (Buffer.slice b)) /\
  (Buffer.wf (Buffer.compact b) /\ Buffer.slice (Buffer.compact b) = Buffer.slice b) /\
  (Buffer.read_pos_ (Buffer.consume b n) = 0 \/
   Buffer.read_pos_ (Buffer.consume b n) * 2 < zlen (Buffer.bytes_ (Buffer.consume b n))).
Proof.
  intros W Hn. destruct (consume_spec b n W Hn) as (W1 & S1 & R1).
  split_and!; auto using append_wf, append_slice; by apply compact_slice.
Qed.

Lemma buffer_is_a_queue_witness :
  let b := Buffer.mk [1; 2; 3; 4; 5] 1 in
  (Buffer.wf (Buffer.append b [6]) /\ Buffer.slice (Buffer.append b [6]) = Buffer.slice b ++ [6]) /\
  (Buffer.wf (Buffer.consume b 2) /\ Buffer.slice (Buffer.consume b 2) = zdrop 2 (Buffer.slice b)) /\
  (Buffer.wf (Buffer.compact b) /\ Buffer.slice (Buffer.compact b) = Buffer.slice b) /\
  (Buffer.read_pos_ (Buffer.consume b 2) = 0 \/
   Buffer.read_pos_ (Buffer.consume b 2) * 2 < zlen (Buffer.bytes_ (Buffer.consume b 2))).
Proof. intros b. apply (buffer_is_a_queue b [6] 2); vm_compute; split; discriminate. Defined.
