(* ===== verification/Crc32c.v ===== *)
(** * CRC-32C

    Models [src/src/base/crc32c.cpp]: the constexpr table, the portable table-driven loop
    [crc32c_software], and the hardware loop of [crc32c] with its alignment prologue,
    eight-byte body and byte tail.  The CPU instructions are not source code, so the
    hardware path is a section over them, with the bit-serial definition of CRC-32C as
    their documented behaviour.

    The theorems: both paths compute the bit-serial CRC; checksums compose over
    concatenation; and a change confined to any four consecutive bytes always changes the
    checksum. *)
From S2P Require Import Prelude Base.

Definition kReflectedPoly : Z := 0x82F63B78.

(** The inner statement of [make_table]. *)
Definition crc_bit (c : Z) : Z :=
  if negb (Z.land c 1 =? 0) then Z.lxor kReflectedPoly (Z.shiftr c 1) else Z.shiftr c 1.

Definition make_table : list Z :=
  (fun i => Nat.iter 8 crc_bit (Z.of_nat i)) <$> seq 0 256.

Definition kTable : list Z := Eval vm_compute in make_table.

(** One iteration of the table loop. *)
Definition crc_step (c b : Z) : Z :=
  Z.lxor (at_ kTable (Z.land (Z.lxor c b) 0xFF)) (Z.shiftr c 8).

Definition crc32c_software (crc : Z) (data : list Z) : Z :=
  Z.lxor (foldl crc_step (Z.lxor crc 0xFFFFFFFF) data) 0xFFFFFFFF.

(** [crc32c] in a build without the CRC instructions. *)
Definition crc32c (crc : Z) (data : list Z) : Z := crc32c_software crc data.

(** ** The hardware path *)

Section Hardware.
(** [_mm_crc32_u8]/[__crc32cb] and [_mm_crc32_u64]/[__crc32cd]. *)
Variables crc32_u8 crc32_u64 : Z -> Z -> Z.

(** [while (n > 0 && (p & 7) != 0)]: one byte at a time up to an aligned address. *)
Fixpoint align_loop (p c : Z) (data : list Z) : Z * list Z :=
  match data with
  | [] => (c, [])
  | b :: rest =>
      if Z.land p 7 =? 0 then (c, data) else align_loop (p + 1) (crc32_u8 c b) rest
  end.

(** [while (n >= 8)]: a little-endian load of eight bytes per step. *)
Fixpoint word_loop (fuel : nat) (c : Z) (data : list Z) : Z * list Z :=
  match fuel with
  | O => (c, data)
  | S fuel' =>
      if 8 <=? zlen data then
        word_loop fuel' (u32 (crc32_u64 c (load_u64_le data 0))) (zdrop 8 data)
      else (c, data)
  end.

(** [p] is the address of the first byte. *)
Definition crc32c_hw (p crc : Z) (data : list Z) : Z :=
  let c := Z.lxor crc 0xFFFFFFFF in
  let '(c, data) := align_loop p c data in
  let '(c, data) := word_loop (length data) c data in
  Z.lxor (foldl crc32_u8 c data) 0xFFFFFFFF.
End Hardware.

(** ** The bit-serial definition *)

(** Feed one byte into the reflected shift register. *)
Definition crc_serial_byte (c b : Z) : Z := Nat.iter 8 crc_bit (Z.lxor c b).

Definition crc_serial (crc : Z) (data : list Z) : Z :=
  Z.lxor (foldl crc_serial_byte (Z.lxor crc 0xFFFFFFFF) data) 0xFFFFFFFF.

(** The little-endian value of a byte string. *)
Fixpoint le_value (bs : list Z) : Z :=
  match bs with
  | [] => 0
  | b :: r => Z.lxor b (Z.shiftl (le_value r) 8)
  end.

(** The shift register run backwards: bit 31 of the polynomial is set, so the bit that
    was shifted out can be read off the result. *)
Definition crc_unbit (r : Z) : Z :=
  if Z.testbit r 31 then 2 * Z.lxor kReflectedPoly r + 1 else 2 * r.

Definition u32_ok (c : Z) : Prop := 0 <= c < 2 ^ 32.

(** ** Linearity of the shift register *)

Lemma crc_bit_alt c :
  crc_bit c = Z.lxor (Z.shiftr c 1) (if Z.odd c then kReflectedPoly else 0).
Proof.
  unfold crc_bit. change 1 with (Z.ones 1) at 1. rewrite Z.land_ones by lia.
  rewrite Zmod_odd. destruct (Z.odd c); simpl; [by rewrite Z.lxor_comm | by rewrite Z.lxor_0_r].
Qed.

Lemma odd_lxor a b : Z.odd (Z.lxor a b) = xorb (Z.odd a) (Z.odd b).
Proof. rewrite <- !Z.bit0_odd. apply Z.lxor_spec. Qed.

Lemma crc_bit_lxor a b : crc_bit (Z.lxor a b) = Z.lxor (crc_bit a) (crc_bit b).
Proof.
  rewrite !crc_bit_alt, Z.shiftr_lxor, odd_lxor.
  destruct (Z.odd a), (Z.odd b); simpl xorb; cbv iota;
    apply Z.bits_inj'; intros n Hn; rewrite !Z.lxor_spec, ?Z.bits_0;
    repeat match goal with |- context [Z.testbit ?x n] => destruct (Z.testbit x n) end;
    reflexivity.
Qed.

Lemma iter_crc_bit_lxor n a b :
  Nat.iter n crc_bit (Z.lxor a b) = Z.lxor (Nat.iter n crc_bit a) (Nat.iter n crc_bit b).
Proof. induction n; simpl; [done|]. by rewrite IHn, crc_bit_lxor. Qed.

Lemma crc_bit_double a : crc_bit (2 * a) = a.
Proof.
  rewrite crc_bit_alt, Z.odd_mul. simpl. rewrite Z.lxor_0_r, shiftr_div by lia.
  change (2 ^ 1) with 2. rewrite Z.mul_comm. by apply Z.div_mul.
Qed.

Lemma iter_crc_bit_shiftl n a : Nat.iter n crc_bit (Z.shiftl a (Z.of_nat n)) = a.
Proof.
  induction n; [by rewrite Z.shiftl_0_r|]. rewrite Nat.iter_succ_r.
  replace (Z.shiftl a (Z.of_nat (S n))) with (2 * Z.shiftl a (Z.of_nat n)).
  - by rewrite crc_bit_double.
  - rewrite !Z.shiftl_mul_pow2 by lia. rewrite Nat2Z.inj_succ, Z.pow_succ_r by lia. lia.
Qed.

Lemma iter_add {A} (f : A -> A) n m x : Nat.iter (n + m) f x = Nat.iter n f (Nat.iter m f x).
Proof. induction n; simpl; congruence. Qed.

(** ** Ranges and invertibility *)

Lemma crc_bit_range c : u32_ok c -> u32_ok (crc_bit c).
Proof.
  unfold u32_ok. intros. rewrite crc_bit_alt. apply lxor_bound; [lia| |].
  - rewrite shiftr_div by lia. pow2. change (2 ^ 1) with 2. dmlia.
  - destruct (Z.odd c); [|lia]. vm_compute. split; congruence.
Qed.

Lemma iter_crc_bit_range n c : u32_ok c -> u32_ok (Nat.iter n crc_bit c).
Proof. intros. induction n; simpl; [done | by apply crc_bit_range]. Qed.

Lemma crc_unbit_bit c : u32_ok c -> crc_unbit (crc_bit c) = c.
Proof.
  unfold u32_ok. intros Hc. unfold crc_unbit. rewrite crc_bit_alt.
  assert (Z.testbit (Z.shiftr c 1) 31 = false) as E.
  { rewrite Z.shiftr_spec by lia. change (31 + 1) with 32.
    rewrite <- (Z.mod_small c (2 ^ 32)) by done. by apply Z.mod_pow2_bits_high. }
  rewrite Z.lxor_spec, E. destruct (Z.odd c) eqn:O.
  - change (Z.testbit kReflectedPoly 31) with true. cbn [xorb].
    rewrite (Z.lxor_comm (Z.shiftr c 1)), <- Z.lxor_assoc, Z.lxor_nilpotent, Z.lxor_0_l.
    rewrite shiftr_div by lia. change (2 ^ 1) with 2.
    pose proof (Z.div_mod c 2 ltac:(lia)) as D. rewrite Zmod_odd, O in D. lia.
  - rewrite Z.bits_0. simpl. rewrite Z.lxor_0_r, shiftr_div by lia. change (2 ^ 1) with 2.
    pose proof (Z.div_mod c 2 ltac:(lia)) as D. rewrite Zmod_odd, O in D. lia.
Qed.

Lemma iter_crc_bit_inj n a b :
  u32_ok a -> u32_ok b -> Nat.iter n crc_bit a = Nat.iter n crc_bit b -> a = b.
Proof.
  intros Ha Hb. induction n; simpl; [done|]. intros H. apply IHn.
  rewrite <- (crc_unbit_bit (Nat.iter n crc_bit a)), <- (crc_unbit_bit (Nat.iter n crc_bit b))
    by (by apply iter_crc_bit_range).
  by rewrite H.
Qed.

(** ** The table loop computes the bit-serial CRC *)

Lemma kTable_spec i : 0 <= i < 256 -> at_ kTable i = Nat.iter 8 crc_bit i.
Proof.
  intros Hi. change kTable with make_table. unfold at_, make_table.
  rewrite nth_lookup, list_lookup_fmap, lookup_seq_lt by lia. simpl.
  by rewrite Z2Nat.id by lia.
Qed.

Lemma split_low_byte x : x = Z.lxor (Z.land x 0xFF) (Z.shiftl (Z.shiftr x 8) 8).
Proof.
  apply Z.bits_inj'. intros n Hn. rewrite Z.lxor_spec, Z.land_spec.
  change 0xFF with (Z.ones 8). rewrite Z.shiftl_spec by lia.
  destruct (Z_lt_dec n 8).
  - rewrite Z.ones_spec_low, (Z.testbit_neg_r _ (n - 8)) by lia. by rewrite andb_true_r, xorb_false_r.
  - rewrite Z.ones_spec_high, Z.shiftr_spec by lia. rewrite andb_false_r.
    replace (n - 8 + 8) with n by lia. by destruct (Z.testbit x n).
Qed.

Lemma crc_step_serial c b : byte_ok b -> crc_step c b = crc_serial_byte c b.
Proof.
  intros Hb. unfold crc_step, crc_serial_byte.
  rewrite (split_low_byte (Z.lxor c b)) at 2. rewrite iter_crc_bit_lxor.
  rewrite (iter_crc_bit_shiftl 8). rewrite kTable_spec.
  - f_equal. rewrite Z.shiftr_lxor. replace (Z.shiftr b 8) with 0; [by rewrite Z.lxor_0_r|].
    unfold byte_ok in Hb. rewrite shiftr_div by lia. symmetry. by apply Z.div_small.
  - rewrite land_ff. apply Z.mod_pos_bound. lia.
Qed.

Lemma foldl_step_serial c data :
  bytes_ok data -> foldl crc_step c data = foldl crc_serial_byte c data.
Proof.
  intros H. revert c. induction H; intros c; simpl; [done|]. by rewrite crc_step_serial, IHForall.
Qed.

Lemma software_serial crc data : bytes_ok data -> crc32c_software crc data = crc_serial crc data.
Proof. intros. unfold crc32c_software, crc_serial. by rewrite foldl_step_serial. Qed.

(** ** Ranges *)

Lemma byte_u32 b : byte_ok b -> u32_ok b.
Proof. unfold byte_ok, u32_ok. pow2. lia. Qed.

Lemma crc_serial_byte_range c b : u32_ok c -> byte_ok b -> u32_ok (crc_serial_byte c b).
Proof.
  intros. apply iter_crc_bit_range. apply lxor_bound; [lia | done | by apply byte_u32].
Qed.

Lemma foldl_serial_range c data : u32_ok c -> bytes_ok data -> u32_ok (foldl crc_serial_byte c data).
Proof.
  intros Hc H. revert c Hc. induction H; intros; simpl; [done|].
  apply IHForall. by apply crc_serial_byte_range.
Qed.

Lemma u32_ones : u32_ok 0xFFFFFFFF.
Proof. unfold u32_ok. lia. Qed.

Lemma crc32c_range crc data : u32_ok crc -> bytes_ok data -> u32_ok (crc32c crc data).
Proof.
  intros. unfold crc32c. rewrite software_serial by done. unfold crc_serial.
  apply lxor_bound; [lia | | apply u32_ones]. apply foldl_serial_range; [|done].
  apply lxor_bound; [lia | done | apply u32_ones].
Qed.

(** ** Composition *)

Lemma crc32c_app crc a b : crc32c crc (a ++ b) = crc32c (crc32c crc a) b.
Proof.
  unfold crc32c, crc32c_software. rewrite foldl_app, Z.lxor_assoc, Z.lxor_nilpotent.
  by rewrite Z.lxor_0_r.
Qed.

(** ** Burst errors *)

Lemma foldl_serial_le c bs :
  foldl crc_serial_byte c bs = Nat.iter (8 * length bs) crc_bit (Z.lxor c (le_value bs)).
Proof.
  revert c. induction bs as [|b bs IH]; intros c; simpl le_value.
  - simpl. by rewrite Z.lxor_0_r.
  - simpl foldl. rewrite IH. unfold crc_serial_byte.
    replace (8 * length (b :: bs))%nat with (8 * length bs + 8)%nat by (simpl; lia).
    rewrite (iter_add _ (8 * length bs) 8). f_equal.
    by rewrite <- Z.lxor_assoc, !iter_crc_bit_lxor, (iter_crc_bit_shiftl 8).
Qed.

Lemma le_value_step b v :
  byte_ok b -> Z.lxor b (Z.shiftl v 8) = b + 256 * v.
Proof.
  unfold byte_ok. intros. rewrite Z.lxor_lor, lor_shiftl_add; [lia | lia | lia |].
  apply Z.bits_inj'. intros n Hn. rewrite Z.land_spec, Z.bits_0.
  destruct (Z_lt_dec n 8).
  - by rewrite Z.shiftl_spec_low, andb_false_r.
  - assert (Z.testbit b n = false) as ->; [|done].
    rewrite <- (Z.mod_small b (2 ^ 8)) by lia. apply Z.mod_pow2_bits_high. lia.
Qed.

Lemma le_value_range bs : bytes_ok bs -> 0 <= le_value bs < 2 ^ (8 * zlen bs).
Proof.
  induction 1 as [|b bs Hb _ IH]; simpl le_value.
  - split; [lia | reflexivity].
  - rewrite le_value_step by done. rewrite zlen_cons.
    replace (8 * (1 + zlen bs)) with (8 + 8 * zlen bs) by lia.
    rewrite Z.pow_add_r by (pose proof (zlen_nonneg bs); lia). unfold byte_ok in Hb.
    change (2 ^ 8) with 256. nia.
Qed.

Lemma le_value_inj a b :
  bytes_ok a -> bytes_ok b -> length a = length b -> le_value a = le_value b -> a = b.
Proof.
  intros Ha. revert b. induction Ha as [|x a Hx Ha IH]; intros [|y b] Hb Hl E; try done.
  inversion Hb as [|? ? Hy Hb']; subst. simpl in E. rewrite !le_value_step in E by done.
  unfold byte_ok in *. assert (x = y) as -> by lia. f_equal.
  apply IH; [done | simpl in Hl; lia | lia].
Qed.

Lemma foldl_serial_inj_state a b data :
  bytes_ok data -> u32_ok a -> u32_ok b ->
  foldl crc_serial_byte a data = foldl crc_serial_byte b data -> a = b.
Proof.
  intros H. revert a b. induction H as [|x data Hx Hd IH]; intros a b Ha Hb E; simpl in E; [done|].
  apply IH in E; try by apply crc_serial_byte_range.
  apply iter_crc_bit_inj in E; try (apply lxor_bound; [lia | done | by apply byte_u32]).
  assert (Z.lxor (Z.lxor a x) x = Z.lxor (Z.lxor b x) x) as E' by (by rewrite E).
  by rewrite !Z.lxor_assoc, !Z.lxor_nilpotent, !Z.lxor_0_r in E'.
Qed.

Lemma foldl_serial_inj_burst c a b :
  u32_ok c -> bytes_ok a -> bytes_ok b -> length a = length b -> zlen a <= 4 ->
  foldl crc_serial_byte c a = foldl crc_serial_byte c b -> a = b.
Proof.
  intros Hc Ha Hb Hl H4 E. rewrite !foldl_serial_le, Hl in E.
  assert (forall l, bytes_ok l -> zlen l <= 4 -> u32_ok (le_value l)) as R.
  { intros l Hlb Hl4. pose proof (le_value_range l Hlb). unfold u32_ok.
    assert (2 ^ (8 * zlen l) <= 2 ^ 32) by (apply Z.pow_le_mono_r; len). lia. }
  assert (zlen b <= 4) by (unfold zlen in *; lia).
  apply iter_crc_bit_inj in E; try (apply lxor_bound; [lia | done | by apply R]).
  apply le_value_inj; try done.
  assert (Z.lxor c (Z.lxor c (le_value a)) = Z.lxor c (Z.lxor c (le_value b))) as E' by congruence.
  by rewrite <- !Z.lxor_assoc, Z.lxor_nilpotent, !Z.lxor_0_l in E'.
Qed.

(** Two strings with equal checksums that agree outside four consecutive bytes agree. *)
Lemma crc32c_burst crc pre a b post :
  u32_ok crc -> bytes_ok pre -> bytes_ok a -> bytes_ok b -> bytes_ok post ->
  length a = length b -> zlen a <= 4 ->
  crc32c crc (pre ++ a ++ post) = crc32c crc (pre ++ b ++ post) -> a = b.
Proof.
  intros Hc Hpre Ha Hb Hpost Hl H4. unfold crc32c.
  rewrite !software_serial by (repeat apply Forall_app_2; done). unfold crc_serial. intros E.
  rewrite !foldl_app in E.
  assert (u32_ok (Z.lxor crc 0xFFFFFFFF)) as H1 by (apply lxor_bound; [lia | done | apply u32_ones]).
  assert (forall x y, Z.lxor x 0xFFFFFFFF = Z.lxor y 0xFFFFFFFF -> x = y) as X.
  { intros x y H. assert (Z.lxor (Z.lxor x 0xFFFFFFFF) 0xFFFFFFFF = Z.lxor (Z.lxor y 0xFFFFFFFF) 0xFFFFFFFF)
      as H' by (by rewrite H).
    by rewrite !Z.lxor_assoc, !Z.lxor_nilpotent, !Z.lxor_0_r in H'. }
  apply X in E. apply foldl_serial_inj_state in E; try done.
  - eapply foldl_serial_inj_burst; [| | | | |exact E]; try done. by apply foldl_serial_range.
  - by repeat apply foldl_serial_range.
  - by repeat apply foldl_serial_range.
Qed.

(** ** The hardware path *)

Section HardwareProofs.
Context (crc32_u8 crc32_u64 : Z -> Z -> Z).
(** The documented behaviour of the instructions: accumulate one byte, or the eight bytes
    of a little-endian word from the least significant one on. *)
Hypothesis u8_spec : forall c b, byte_ok b -> crc32_u8 c b = crc_serial_byte c b.
Hypothesis u64_spec : forall c v,
  crc32_u64 c v =
  foldl crc_serial_byte c ((fun i => Z.land (Z.shiftr v (8 * Z.of_nat i)) 0xFF) <$> seq 0 8).

Lemma foldl_u8_serial c data :
  bytes_ok data -> foldl crc32_u8 c data = foldl crc_serial_byte c data.
Proof using u8_spec.
  intros H. revert c. induction H; intros c; simpl; [done|]. by rewrite u8_spec, IHForall.
Qed.

Lemma align_loop_spec p c data :
  bytes_ok data ->
  exists front, data = front ++ (align_loop crc32_u8 p c data).2 /\
    (align_loop crc32_u8 p c data).1 = foldl crc_serial_byte c front.
Proof using u8_spec.
  intros H. revert p c. induction H as [|b data Hb Hd IH]; intros p c; simpl.
  - by exists [].
  - destruct (_ =? _); [by exists []|]. destruct (IH (p + 1) (crc32_u8 c b)) as (front & E1 & E2).
    exists (b :: front). simpl. split; [congruence|]. by rewrite E2, u8_spec.
Qed.

Lemma byte_of_low_word x k :
  0 <= k <= 24 ->
  Z.land (Z.shiftr (Z.land x 0xFFFFFFFF) k) 0xFF = Z.land (Z.shiftr x k) 0xFF.
Proof.
  intros. apply Z.bits_inj'. intros n Hn. rewrite !Z.land_spec, !Z.shiftr_spec, Z.land_spec by lia.
  change 0xFF with (Z.ones 8). change 0xFFFFFFFF with (Z.ones 32).
  destruct (Z_lt_dec n 8); [|by rewrite (Z.ones_spec_high 8), !andb_false_r by lia].
  by rewrite (Z.ones_spec_low 32), andb_true_r by lia.
Qed.

Lemma load_u64_bytes data :
  bytes_ok data -> 8 <= zlen data ->
  (fun i => Z.land (Z.shiftr (load_u64_le data 0) (8 * Z.of_nat i)) 0xFF) <$> seq 0 8
  = ztake 8 data.
Proof.
  intros Hb Hl.
  assert (store_u64_le (load_u64_le data 0) = ztake 8 data) as <-.
  { rewrite load_u64_value by (by apply load_u32_range).
    pose proof (load_u32_range data 0 Hb). pose proof (load_u32_range data 4 Hb).
    unfold store_u64_le. rewrite !land_ffffffff, shiftr_div by lia. change (0 + 4) with 4.
    replace ((load_u32_le data 0 + load_u32_le data 4 * 2 ^ 32) mod 2 ^ 32)
      with (load_u32_le data 0) by (pow2; dmlia).
    replace (((load_u32_le data 0 + load_u32_le data 4 * 2 ^ 32) / 2 ^ 32) mod 2 ^ 32)
      with (load_u32_le data 4) by (pow2; dmlia).
    rewrite !store_u32_load by (done || lia).
    rewrite <- (ztake_zdrop 4 (ztake 8 data)). f_equal.
    - unfold zsub. by rewrite zdrop_le, ztake_ztake by lia.
    - unfold zsub, ztake, zdrop. by rewrite take_drop_commute. }
  unfold store_u64_le, store_u32_le.
  change (seq 0 8) with [0; 1; 2; 3; 4; 5; 6; 7]%nat. cbn [fmap list_fmap app].
  generalize (load_u64_le data 0). intros v.
  assert (forall x, Z.land (Z.land x 0xFFFFFFFF) 0xFF = Z.land x 0xFF) as L.
  { intros x. pose proof (byte_of_low_word x 0 ltac:(lia)) as H. by rewrite !Z.shiftr_0_r in H. }
  rewrite !L, !byte_of_low_word, !Z.shiftr_shiftr by lia. by rewrite Z.shiftr_0_r.
Qed.

Lemma word_loop_spec fuel c data :
  u32_ok c -> bytes_ok data ->
  exists front, data = front ++ (word_loop crc32_u64 fuel c data).2 /\
    (word_loop crc32_u64 fuel c data).1 = foldl crc_serial_byte c front.
Proof using u64_spec.
  revert c data. induction fuel as [|fuel IH]; intros c data Hc Hb; simpl; [by exists []|].
  destruct (8 <=? zlen data) eqn:E; bool_prop; [|by exists []].
  assert (bytes_ok (zdrop 8 data)) as Hd by (by apply Forall_drop).
  assert (bytes_ok (ztake 8 data)) as Ht by (by apply Forall_take).
  assert (u32 (crc32_u64 c (load_u64_le data 0)) = foldl crc_serial_byte c (ztake 8 data)) as ->.
  { rewrite u64_spec, load_u64_bytes by done. apply wrap_small. by apply foldl_serial_range. }
  destruct (IH (foldl crc_serial_byte c (ztake 8 data)) (zdrop 8 data)) as (front & E1 & E2).
  { by apply foldl_serial_range. } { done. }
  exists (ztake 8 data ++ front). rewrite <- app_assoc, <- E1, ztake_zdrop, foldl_app. done.
Qed.

Lemma crc32c_hw_software p crc data :
  u32_ok crc -> bytes_ok data ->
  crc32c_hw crc32_u8 crc32_u64 p crc data = crc32c_software crc data.
Proof using u8_spec u64_spec.
  intros Hc Hb. rewrite software_serial by done. unfold crc32c_hw, crc_serial.
  assert (u32_ok (Z.lxor crc 0xFFFFFFFF)) as H1 by (apply lxor_bound; [lia | done | apply u32_ones]).
  destruct (align_loop_spec p (Z.lxor crc 0xFFFFFFFF) data Hb) as (f1 & E1 & E2).
  destruct (align_loop _ _ _ _) as [c1 d1]. simpl in *.
  rewrite E1 in Hb. apply Forall_app in Hb as [Hf1 Hd1].
  destruct (word_loop_spec (length d1) c1 d1) as (f2 & E3 & E4); [|done|].
  { rewrite E2. by apply foldl_serial_range. }
  destruct (word_loop _ _ _ _) as [c2 d2]. simpl in *.
  rewrite E3 in Hd1. apply Forall_app in Hd1 as [Hf2 Hd2].
  rewrite foldl_u8_serial by done. by rewrite E1, E3, !foldl_app, E4, E2.
Qed.
End HardwareProofs.

(** From here on words are written and read through their lemmas only. *)
#[global] Opaque store_u16_le store_u32_le store_u64_le.

(** ** Properties *)

(** C40: The two implementations agree.  Given instructions that accumulate a byte, or the
    eight bytes of a little-endian word, into the bit-serial register, the dispatched
    hardware routine returns what the table-driven one does, which is the bit-serial CRC-32C
    of the data, at every alignment and length. *)
Theorem crc_implementations_agree (crc32_u8 crc32_u64 : Z -> Z -> Z) (p crc : Z) (data : list Z) :
  (forall c b, byte_ok b -> crc32_u8 c b = crc_serial_byte c b) ->
  (forall c v, crc32_u64 c v =
     foldl crc_serial_byte c ((fun i => Z.land (Z.shiftr v (8 * Z.of_nat i)) 0xFF) <$> seq 0 8)) ->
  u32_ok crc -> bytes_ok data ->
  crc32c_hw crc32_u8 crc32_u64 p crc data = crc32c_software crc data /\
  crc32c_software crc data = crc_serial crc data.
Proof.
  intros H8 H64 Hc Hb. split; [by apply crc32c_hw_software | by apply software_serial].
Qed.

Lemma crc_implementations_agree_witness :
  let u64_step c v := foldl crc_serial_byte c ((fun i => Z.land (Z.shiftr v (8 * Z.of_nat i)) 0xFF) <$> seq 0 8) in
  let data := [49; 50; 51; 52; 53; 54; 55; 56; 57; 48; 49] in
  crc32c_hw crc_serial_byte u64_step 5 0 data = crc32c_software 0 data /\
  crc32c_software 0 data = crc_serial 0 data.
Proof.
  intros u64_step data.
  apply (crc_implementations_agree crc_serial_byte u64_step 5 0 data); [done | done | ground | unfold data; ground].
Defined.

(** Checksums compose, and a burst is caught.  The CRC of a concatenation is the CRC of
    the second part continued from that of the first; two buffers that differ only within
    four consecutive bytes have different CRCs. *)
Theorem crc_composes_and_detects (crc : Z) (pre a b post : list Z) :
  u32_ok crc -> bytes_ok pre -> bytes_ok a -> bytes_ok b -> bytes_ok post ->
  length a = length b -> zlen a <= 4 -> a <> b ->
  crc32c crc (pre ++ a) = crc32c (crc32c crc pre) a /\
  crc32c crc (pre ++ a ++ post) <> crc32c crc (pre ++ b ++ post).
Proof.
  intros Hc Hp Ha Hb Hpo Hl H4 Hne. split; [apply crc32c_app|].
  intros E. apply Hne. by apply (crc32c_burst crc pre a b post).
Qed.

Lemma crc_composes_and_detects_witness :
  crc32c 0 ([1; 2; 3] ++ [4; 5]) = crc32c (crc32c 0 [1; 2; 3]) [4; 5] /\
  crc32c 0 ([1; 2; 3] ++ [4; 5] ++ [6]) <> crc32c 0 ([1; 2; 3] ++ [4; 7] ++ [6]).
Proof.
  apply (crc_composes_and_detects 0 [1; 2; 3] [4; 5] [4; 7] [6]); ground.
Defined.
