(* ===== verification/Wire.v ===== *)
(** * The wire frame

    Models [src/src/wire/api.h] and [src/src/wire/frame.cpp]/[frame.h]: the API keys, the
    frame encoder and the incremental [FrameDecoder] over a [Buffer], and the inner loop
    of [Broker::on_readable] that takes whole frames out of a read buffer.

    The theorems: a frame decodes to what was encoded and is consumed exactly; a partial
    frame is never an error and never delivers; and the frames a connection delivers do
    not depend on how the byte stream is cut into reads. *)
From S2P Require Import Prelude Base Crc32c.

(** ** api.h

    [enum class ApiKey : u16].  The decoder casts any 16-bit value to it, so a key is a
    number with named values rather than a closed enumeration. *)

Definition kProduce : Z := 0.
Definition kFetch : Z := 1.
Definition kMetadata : Z := 2.
Definition kListOffsets : Z := 3.
Definition kOffsetCommit : Z := 4.
Definition kRequestVoteKey : Z := 100.
Definition kAppendEntriesKey : Z := 101.
Definition kInstallSnapshot : Z := 102.
Definition kEcho : Z := 1000.

Definition kApiVersion0 : Z := 0.

Definition is_broker_api (key : Z) : bool := (100 <=? key) && (key <? 1000).

(** ** frame.h *)

Definition kLengthFieldBytes : Z := 4.
Definition kHeaderBytes : Z := 8.
Definition kFramePrefixBytes : Z := kLengthFieldBytes + kHeaderBytes.
Definition kDefaultMaxFrameBytes : Z := 16 * 1024 * 1024.

Record FrameHeader := mkFrameHeader {
  api_key : Z;
  api_version : Z;
  correlation_id : Z
}.

(** ** frame.cpp *)

Definition encode_frame (out : Buffer.t) (header : FrameHeader) (payload : list Z)
  : Buffer.t :=
  let length := u32 (kHeaderBytes + zlen payload) in
  let out := Buffer.append_u32_le out length in
  let out := Buffer.append_u16_le out (api_key header) in
  let out := Buffer.append_u16_le out (api_version header) in
  let out := Buffer.append_u32_le out (correlation_id header) in
  Buffer.append out payload.

Section FrameDecoder.
Variable max_frame_bytes_ : Z.

Definition bytes_needed (buf : Buffer.t) : Z :=
  if Buffer.size buf <? kLengthFieldBytes then kLengthFieldBytes - Buffer.size buf
  else
    let length := load_u32_le (Buffer.slice buf) 0 in
    let total := kLengthFieldBytes + length in
    if total <=? Buffer.size buf then 0 else total - Buffer.size buf.

(** [Ok None] is [false]: need more bytes.  [Ok (Some (h, p))] is [true] with the out
    parameters set. *)
Definition next (buf : Buffer.t) : Result (option (FrameHeader * list Z)) :=
  if Buffer.size buf <? kLengthFieldBytes then Ok None
  else
    let data := Buffer.slice buf in
    let length := load_u32_le data 0 in
    fail_if length <? kHeaderBytes with kInvalidRequest else
    fail_if max_frame_bytes_ <? length with kMessageTooLarge else
    let total := kLengthFieldBytes + length in
    if Buffer.size buf <? total then Ok None
    else
      let header := mkFrameHeader (load_u16_le data 4) (load_u16_le data 6) (load_u32_le data 8) in
      Ok (Some (header, zsub kFramePrefixBytes (length - kHeaderBytes) data)).

Definition consume_frame (buf : Buffer.t) : Buffer.t :=
  if Buffer.size buf <? kLengthFieldBytes then buf
  else
    let length := load_u32_le (Buffer.slice buf) 0 in
    let total := kLengthFieldBytes + length in
    if Buffer.size buf <? total then buf else Buffer.consume buf total.

(** What a drained read buffer yields: the frames in order, the buffer that is left, and
    the protocol error that closes the connection, if any. *)
Record Drained := mkDrained {
  frames : list (FrameHeader * list Z);
  left : Buffer.t;
  violation : option ErrorCode
}.

(** The inner [while (true)] of [Broker::on_readable]: hand every whole frame to the
    handler, then drop it. *)
Fixpoint drain (fuel : nat) (buf : Buffer.t) : Drained :=
  match fuel with
  | O => mkDrained [] buf None
  | S fuel' =>
      match next buf with
      | fail e => mkDrained [] buf (Some e)
      | Ok None => mkDrained [] buf None
      | Ok (Some f) =>
          let d := drain fuel' (consume_frame buf) in
          mkDrained (f :: frames d) (left d) (violation d)
      end
  end.

(** Enough fuel: every frame takes at least twelve bytes. *)
Definition drain_all (buf : Buffer.t) : Drained := drain (S (length (Buffer.slice buf))) buf.

(** One connection: every read appends a chunk to the buffer and drains it; a violation
    closes the connection, after which nothing more is delivered. *)
Fixpoint receive (buf : Buffer.t) (chunks : list (list Z)) : Drained :=
  match chunks with
  | [] => mkDrained [] buf None
  | c :: rest =>
      let d := drain_all (Buffer.append buf c) in
      match violation d with
      | Some e => d
      | None =>
          let d' := receive (left d) rest in
          mkDrained (frames d ++ frames d') (left d') (violation d')
      end
  end.
End FrameDecoder.

(** ** The codec as functions of byte strings *)

Definition frame_bytes (f : FrameHeader * list Z) : list Z :=
  store_u32_le (u32 (kHeaderBytes + zlen f.2)) ++ store_u16_le (api_key f.1) ++
  store_u16_le (api_version f.1) ++ store_u32_le (correlation_id f.1) ++ f.2.

Definition header_ok (h : FrameHeader) : Prop :=
  0 <= api_key h < 2 ^ 16 /\ 0 <= api_version h < 2 ^ 16 /\ 0 <= correlation_id h < 2 ^ 32.

(** A frame the decoder accepts. *)
Definition frame_ok (max : Z) (f : FrameHeader * list Z) : Prop :=
  header_ok f.1 /\ kHeaderBytes + zlen f.2 <= max.

(** The decoder's verdict on a byte string: an error, a need for more bytes, or a frame
    with the rest of the string. *)
Inductive Parse := PError (e : ErrorCode) | PMore | PFrame (f : FrameHeader * list Z) (rest : list Z).

Definition parse_frame (max : Z) (data : list Z) : Parse :=
  if zlen data <? 4 then PMore
  else
    let len := load_u32_le data 0 in
    if len <? 8 then PError kInvalidRequest
    else if max <? len then PError kMessageTooLarge
    else if zlen data <? 4 + len then PMore
    else PFrame (mkFrameHeader (load_u16_le data 4) (load_u16_le data 6) (load_u32_le data 8),
                 zsub 12 (len - 8) data) (zdrop (4 + len) data).

Fixpoint parse_all (max : Z) (fuel : nat) (data : list Z)
  : list (FrameHeader * list Z) * list Z * option ErrorCode :=
  match fuel with
  | O => ([], data, None)
  | S fuel' =>
      match parse_frame max data with
      | PError e => ([], data, Some e)
      | PMore => ([], data, None)
      | PFrame f rest =>
          let '(fs, l, v) := parse_all max fuel' rest in (f :: fs, l, v)
      end
  end.

Definition parse_stream (max : Z) (data : list Z) := parse_all max (S (length data)) data.

(** ** Refinement of the [Buffer]-level decoder *)

Lemma size_slice b : Buffer.wf b -> Buffer.size b = zlen (Buffer.slice b).
Proof. intros H. rewrite slice_zdrop by done. unfold Buffer.size, Buffer.wf in *. len. Qed.

Lemma next_parse max b :
  Buffer.wf b ->
  next max b = match parse_frame max (Buffer.slice b) with
               | PError e => fail e | PMore => Ok None | PFrame f _ => Ok (Some f) end.
Proof.
  intros H. unfold next, parse_frame. rewrite size_slice by done.
  unfold kLengthFieldBytes, kHeaderBytes, kFramePrefixBytes, kLengthFieldBytes, kHeaderBytes.
  change (4 + 8) with 12. by cases_if.
Qed.

Lemma consume_frame_parse max b f rest :
  Buffer.wf b -> bytes_ok (Buffer.slice b) -> parse_frame max (Buffer.slice b) = PFrame f rest ->
  Buffer.wf (consume_frame b) /\ Buffer.slice (consume_frame b) = rest.
Proof.
  intros H Hb E. unfold parse_frame in E. unfold consume_frame.
  pose proof (load_u32_range _ 0 Hb). rewrite size_slice by done. unfold kLengthFieldBytes.
  cases_if_in E; try discriminate. injection E as _ <-.
  destruct (consume_spec b (4 + load_u32_le (Buffer.slice b) 0)) as (W & S & _); [done| |done].
  rewrite size_slice by done. lia.
Qed.

Lemma parse_frame_rest max data f rest :
  bytes_ok data -> parse_frame max data = PFrame f rest ->
  zlen rest + 12 <= zlen data /\ bytes_ok rest.
Proof.
  intros Hb E. unfold parse_frame in E. cases_if_in E; try discriminate. injection E as _ <-.
  split; [len | by apply Forall_drop].
Qed.

Lemma drain_parse max fuel b :
  Buffer.wf b -> bytes_ok (Buffer.slice b) ->
  let d := drain max fuel b in
  Buffer.wf (left d) /\
  parse_all max fuel (Buffer.slice b) = (frames d, Buffer.slice (left d), violation d).
Proof.
  revert b. induction fuel as [|fuel IH]; intros b H Hb; simpl; [done|].
  rewrite next_parse by done. destruct (parse_frame _ _) as [e| |f rest] eqn:E; simpl; try done.
  destruct (consume_frame_parse _ _ _ _ H Hb E) as [W S].
  pose proof (parse_frame_rest _ _ _ _ Hb E) as [_ Hr].
  specialize (IH (consume_frame b) W). rewrite S in IH. destruct (IH Hr) as [W' P].
  split; [done|]. by rewrite P.
Qed.

(** ** Fuel *)

Lemma zlen_length_lt {A} (l k : list A) : zlen l + 12 <= zlen k -> (length l < length k)%nat.
Proof. unfold zlen. lia. Qed.

Lemma parse_all_fuel max fuel1 fuel2 data :
  bytes_ok data -> (length data < fuel1)%nat -> (length data < fuel2)%nat ->
  parse_all max fuel1 data = parse_all max fuel2 data.
Proof.
  revert fuel2 data. induction fuel1 as [|f1 IH]; intros [|f2] data Hb H1 H2; try lia. simpl.
  destruct (parse_frame _ _) as [e| |f rest] eqn:E; try done.
  destruct (parse_frame_rest _ _ _ _ Hb E) as [L Hr]. apply zlen_length_lt in L.
  rewrite (IH f2 rest); [done | done | lia | lia].
Qed.

Lemma parse_stream_unfold max data :
  bytes_ok data ->
  parse_stream max data =
  match parse_frame max data with
  | PError e => ([], data, Some e)
  | PMore => ([], data, None)
  | PFrame f rest => let '(fs, l, v) := parse_stream max rest in (f :: fs, l, v)
  end.
Proof.
  intros Hb. unfold parse_stream at 1. simpl.
  destruct (parse_frame _ _) as [e| |f rest] eqn:E; try done.
  destruct (parse_frame_rest _ _ _ _ Hb E) as [L Hr]. apply zlen_length_lt in L.
  unfold parse_stream. rewrite (parse_all_fuel _ (length data) (S (length rest))); [done|done|lia|lia].
Qed.

(** ** A verdict is stable under more bytes *)

Lemma at_app_prefix (l k : list Z) i : 0 <= i < zlen l -> at_ (l ++ k) i = at_ l i.
Proof. apply at_app_l. Qed.

Lemma parse_frame_app max data more :
  match parse_frame max data with
  | PError e => parse_frame max (data ++ more) = PError e
  | PFrame f rest => bytes_ok data -> parse_frame max (data ++ more) = PFrame f (rest ++ more)
  | PMore => True
  end.
Proof.
  unfold parse_frame. destruct (zlen data <? 4) eqn:E0; [done|]. bool_prop.
  assert ((zlen (data ++ more) <? 4) = false) as -> by (apply Z.ltb_ge; len).
  rewrite load_u32_app_l by lia.
  destruct (_ <? 8) eqn:E1; [done|]. destruct (max <? _) eqn:E2; [done|].
  destruct (zlen data <? _) eqn:E3; [done|]. bool_prop. intros Hb.
  assert ((zlen (data ++ more) <? 4 + load_u32_le data 0) = false) as -> by (apply Z.ltb_ge; len).
  rewrite load_u32_app_l, zdrop_app_le, zsub_app_l by lia.
  unfold load_u16_le. by rewrite !at_app_l by lia.
Qed.

(** Cutting the stream in two places no difference. *)
Lemma parse_stream_app max data more :
  bytes_ok data -> bytes_ok more ->
  parse_stream max (data ++ more) =
  match parse_stream max data with
  | (fs, rest, Some e) => (fs, rest ++ more, Some e)
  | (fs, rest, None) => let '(fs', l, v) := parse_stream max (rest ++ more) in (fs ++ fs', l, v)
  end.
Proof.
  remember (length data) as n eqn:Hn. revert data Hn.
  induction (lt_wf n) as [n _ IH]; intros data -> Hb Hm.
  rewrite (parse_stream_unfold max data) by done.
  pose proof (parse_frame_app max data more) as P.
  destruct (parse_frame max data) as [e| |f rest] eqn:E.
  - rewrite parse_stream_unfold by (by apply Forall_app). by rewrite P.
  - by destruct (parse_stream _ _) as [[fs' l] v].
  - rewrite parse_stream_unfold, (P Hb) by (by apply Forall_app).
    destruct (parse_frame_rest _ _ _ _ Hb E) as [L Hr]. apply zlen_length_lt in L.
    rewrite (IH (length rest) L rest eq_refl Hr Hm).
    destruct (parse_stream max rest) as [[fs r] [e|]]; [done|].
    by destruct (parse_stream max (r ++ more)) as [[fs' l] v].
Qed.

Lemma parse_stream_rest max data : bytes_ok data -> bytes_ok (parse_stream max data).1.2.
Proof.
  remember (length data) as n eqn:Hn. revert data Hn.
  induction (lt_wf n) as [n _ IH]; intros data -> Hb. rewrite parse_stream_unfold by done.
  destruct (parse_frame _ _) as [e| |f rest] eqn:E; try done.
  destruct (parse_frame_rest _ _ _ _ Hb E) as [L Hr]. apply zlen_length_lt in L.
  specialize (IH _ L rest eq_refl Hr). by destruct (parse_stream max rest) as [[fs l] v].
Qed.

Lemma drain_all_parse max b :
  Buffer.wf b -> bytes_ok (Buffer.slice b) ->
  let d := drain_all max b in
  Buffer.wf (left d) /\ parse_stream max (Buffer.slice b) = (frames d, Buffer.slice (left d), violation d).
Proof. intros. by apply drain_parse. Qed.

Lemma receive_parse max b chunks :
  Buffer.wf b -> bytes_ok (Buffer.slice b) -> Forall bytes_ok chunks ->
  parse_stream max (Buffer.slice b) = ([], Buffer.slice b, None) ->
  let d := receive max b chunks in
  let '(fs, rest, v) := parse_stream max (Buffer.slice b ++ concat chunks) in
  frames d = fs /\ violation d = v /\ (v = None -> Buffer.slice (left d) = rest).
Proof.
  intros Hw Hb Hc. revert b Hw Hb. induction Hc as [|c chunks Hc Hcs IH]; intros b Hw Hb Hn; simpl.
  - rewrite app_nil_r, Hn. done.
  - assert (bytes_ok (Buffer.slice (Buffer.append b c))) as Hb'.
    { rewrite append_slice by done. by apply Forall_app. }
    destruct (drain_all_parse max (Buffer.append b c)) as [W P]; [by apply append_wf | done |].
    set (d := drain_all max (Buffer.append b c)) in *.
    pose proof (parse_stream_rest max _ Hb') as R. rewrite P in R. simpl in R.
    rewrite append_slice in P, Hb' by done.
    rewrite app_assoc, parse_stream_app, P by (done || by apply Forall_concat).
    destruct (violation d) as [e|] eqn:V; simpl; [by rewrite V|].
    assert (parse_stream max (Buffer.slice (left d)) = ([], Buffer.slice (left d), None)) as Hn'.
    { pose proof (parse_stream_app max (Buffer.slice b ++ c) [] Hb' ltac:(done)) as A.
      rewrite !app_nil_r, P in A. rewrite app_nil_r in A.
      destruct (parse_stream max (Buffer.slice (left d))) as [[fs' l] v].
      injection A as A1 A2 A3. rewrite <- (app_nil_r (frames d)) in A1 at 1.
      apply app_inv_head in A1. by subst. }
    specialize (IH (left d) W R Hn').
    destruct (parse_stream max (Buffer.slice (left d) ++ concat chunks)) as [[fs' l] v].
    destruct IH as (I1 & I2 & I3). simpl. by rewrite I1.
Qed.

(** ** Encoding *)

Lemma encode_frame_slice out h payload :
  Buffer.wf out ->
  Buffer.wf (encode_frame out h payload) /\
  Buffer.slice (encode_frame out h payload) = Buffer.slice out ++ frame_bytes (h, payload).
Proof.
  intros H. unfold encode_frame, Buffer.append_u32_le, Buffer.append_u16_le, frame_bytes. cbn [fst snd].
  split; [by repeat apply append_wf|]. rewrite !append_slice by (by repeat apply append_wf).
  by rewrite <- !app_assoc.
Qed.

Lemma parse_frame_encoded max f rest :
  frame_ok max f -> max < 2 ^ 32 -> parse_frame max (frame_bytes f ++ rest) = PFrame f rest.
Proof.
  intros [(K & V & C) L] Hm. destruct f as [[k v c] p]. unfold frame_bytes, parse_frame, kHeaderBytes in *.
  cbn [fst snd api_key api_version correlation_id] in *. pose proof (zlen_nonneg p).
  rewrite wrap_small by lia. rewrite <- !app_assoc.
  assert (zlen (store_u32_le (8 + zlen p) ++ store_u16_le k ++ store_u16_le v ++
    store_u32_le c ++ p ++ rest) = 12 + zlen p + zlen rest) as Hl by len.
  rewrite Hl, load_u32_store, wrap_small by lia. pose proof (zlen_nonneg rest).
  repeat match goal with |- context [if ?b then _ else _] =>
    replace b with false by (symmetry; apply Z.ltb_ge; lia) end.
  rewrite (load_u16_store_at (store_u32_le (8 + zlen p))) by len.
  rewrite (app_assoc (store_u32_le (8 + zlen p))), (load_u16_store_at (_ ++ _)) by len.
  rewrite (app_assoc (_ ++ _)), (load_u32_store_at (_ ++ _)) by len.
  rewrite !wrap_small by done. f_equal.
  - f_equal. rewrite (app_assoc (_ ++ _)). apply zsub_app_mid; len.
  - rewrite !app_assoc. apply zdrop_app. len.
Qed.

Lemma parse_frame_partial max f k :
  frame_ok max f -> max < 2 ^ 32 -> k < zlen (frame_bytes f) ->
  parse_frame max (ztake k (frame_bytes f)) = PMore.
Proof.
  intros [_ L] Hm Hk. destruct f as [h p]. unfold frame_bytes, parse_frame, kHeaderBytes in *.
  cbn [fst snd] in *.
  pose proof (zlen_nonneg p). rewrite wrap_small in * by lia.
  destruct (zlen (ztake k _) <? 4) eqn:E; [done|]. bool_prop.
  assert (4 <= k) by len.
  rewrite ztake_app_ge by len. rewrite load_u32_store, wrap_small by lia.
  repeat match goal with |- context [if ?b then _ else _] =>
    first [replace b with false by (symmetry; apply Z.ltb_ge; len)
          |replace b with true by (symmetry; apply Z.ltb_lt; len)] end.
  done.
Qed.

Lemma bytes_ok_frame f : bytes_ok f.2 -> bytes_ok (frame_bytes f).
Proof. intros. unfold frame_bytes. repeat (apply Forall_app; split); auto with le. Qed.

Lemma parse_stream_frames max fs tail :
  max < 2 ^ 32 -> Forall (frame_ok max) fs -> Forall (fun f => bytes_ok f.2) fs -> bytes_ok tail ->
  parse_frame max tail = PMore ->
  parse_stream max (concat (frame_bytes <$> fs) ++ tail) = (fs, tail, None).
Proof.
  intros Hm Hok Hb Ht Hp. induction Hok as [|f fs Hf Hfs IH]; cbn [fmap list_fmap concat].
  - simpl. rewrite parse_stream_unfold by done. by rewrite Hp.
  - inversion Hb as [|? ? Hb1 Hb2]; subst.
    assert (bytes_ok (concat (frame_bytes <$> fs))) as Hc.
    { apply Forall_concat, Forall_fmap. eapply Forall_impl; [exact Hb2|]. intros; by apply bytes_ok_frame. }
    rewrite <- app_assoc, parse_stream_unfold.
    + rewrite parse_frame_encoded by done. by rewrite IH.
    + apply Forall_app; split; [by apply bytes_ok_frame | by apply Forall_app].
Qed.

(** ** Properties *)

Lemma encode_frames_slice fs : forall out,
  Buffer.wf out ->
  let out' := foldl (fun b f => encode_frame b f.1 f.2) out fs in
  Buffer.wf out' /\ Buffer.slice out' = Buffer.slice out ++ concat (frame_bytes <$> fs).
Proof.
  induction fs as [|f fs IH]; intros out W; cbn [foldl fmap list_fmap concat]; [by rewrite app_nil_r|].
  destruct (encode_frame_slice out f.1 f.2 W) as [W1 S1]. destruct (IH _ W1) as [W2 S2].
  split; [done|]. rewrite S2, S1, <- app_assoc. by destruct f.
Qed.

(** C12: Framing round trip over a byte stream.  Frames encoded one after the other, followed
    by any proper part of one more, arrive as exactly those frames, in order and unchanged,
    however the stream is cut into reads; the part stays in the buffer and is not an error. *)
Theorem frames_survive_any_chunking (max : Z) (fs : list (FrameHeader * list Z))
    (f : FrameHeader * list Z) (k : Z) (chunks : list (list Z)) :
  max < 2 ^ 32 -> Forall (frame_ok max) (f :: fs) -> Forall (fun f => bytes_ok f.2) (f :: fs) ->
  k < zlen (frame_bytes f) ->
  concat chunks =
    Buffer.slice (foldl (fun b f => encode_frame b f.1 f.2) Buffer.empty_buffer fs) ++ ztake k (frame_bytes f) ->
  let d := receive max Buffer.empty_buffer chunks in
  frames d = fs /\ violation d = None /\ Buffer.slice (left d) = ztake k (frame_bytes f).
Proof.
  intros Hm Hok Hb Hk Hc. inversion Hok as [|? ? Hf Hfs]; subst. inversion Hb as [|? ? Hbf Hbs]; subst.
  assert (Buffer.wf Buffer.empty_buffer) as W0 by (vm_compute; split; discriminate).
  destruct (encode_frames_slice fs Buffer.empty_buffer W0) as [_ S]. cbv zeta in S. rewrite S in Hc.
  change (Buffer.slice Buffer.empty_buffer) with (@nil Z) in *. cbn [app] in Hc.
  assert (bytes_ok (ztake k (frame_bytes f))) as Ht by (apply Forall_take, bytes_ok_frame, Hbf).
  assert (bytes_ok (concat chunks)) as Hcb.
  { rewrite Hc. apply Forall_app. split; [|done]. apply Forall_concat, Forall_fmap.
    eapply Forall_impl; [exact Hbs|]. intros; by apply bytes_ok_frame. }
  pose proof (receive_parse max Buffer.empty_buffer chunks W0 ltac:(constructor)) as R.
  change (Buffer.slice Buffer.empty_buffer) with (@nil Z) in R. cbn [app] in R. rewrite Hc in R.
  rewrite parse_stream_frames in R by (done || by apply parse_frame_partial).
  destruct R as (R1 & R2 & R3); [by apply Forall_concat | done | auto].
Qed.

Lemma frames_survive_any_chunking_witness :
  let f1 := (mkFrameHeader 100 0 7, [1; 2; 3]) in
  let f2 := (mkFrameHeader 101 0 8, []) in
  let bytes := frame_bytes f1 ++ frame_bytes f2 ++ ztake 5 (frame_bytes f1) in
  let d := receive kDefaultMaxFrameBytes Buffer.empty_buffer [ztake 3 bytes; zsub 3 20 bytes; zdrop 23 bytes] in
  frames d = [f1; f2] /\ violation d = None /\ Buffer.slice (left d) = ztake 5 (frame_bytes f1).
Proof.
  intros f1 f2 bytes.
  apply (frames_survive_any_chunking kDefaultMaxFrameBytes [f1; f2] f1 5);
    [ground | unfold frame_ok, header_ok; ground | repeat constructor; ground | ground | ground].
Defined.

(** The reads are invisible.  Two ways of cutting the same bytes, hostile ones included,
    deliver the same frames and end in the same protocol error, if any. *)
Theorem chunking_is_invisible (max : Z) (chunks1 chunks2 : list (list Z)) :
  Forall bytes_ok chunks1 -> Forall bytes_ok chunks2 -> concat chunks1 = concat chunks2 ->
  frames (receive max Buffer.empty_buffer chunks1) = frames (receive max Buffer.empty_buffer chunks2) /\
  violation (receive max Buffer.empty_buffer chunks1) = violation (receive max Buffer.empty_buffer chunks2).
Proof.
  intros H1 H2 E. assert (Buffer.wf Buffer.empty_buffer) as W0 by (vm_compute; split; discriminate).
  pose proof (receive_parse max Buffer.empty_buffer chunks1 W0 ltac:(constructor) H1 eq_refl) as R1.
  pose proof (receive_parse max Buffer.empty_buffer chunks2 W0 ltac:(constructor) H2 eq_refl) as R2.
  cbv zeta in *. rewrite E in R1. destruct (parse_stream max _) as [[fs rest] v].
  destruct R1 as (-> & -> & _), R2 as (-> & -> & _). done.
Qed.

Lemma chunking_is_invisible_witness :
  frames (receive 64 Buffer.empty_buffer [[8; 0]; [0; 0; 100; 0; 0; 0; 1; 0; 0; 0; 200]; [0; 0; 0]]) =
  frames (receive 64 Buffer.empty_buffer [[8; 0; 0; 0; 100; 0; 0; 0; 1; 0; 0; 0; 200; 0; 0; 0]]) /\
  violation (receive 64 Buffer.empty_buffer [[8; 0]; [0; 0; 100; 0; 0; 0; 1; 0; 0; 0; 200]; [0; 0; 0]]) =
  violation (receive 64 Buffer.empty_buffer [[8; 0; 0; 0; 100; 0; 0; 0; 1; 0; 0; 0; 200; 0; 0; 0]]).
Proof.
  apply (chunking_is_invisible 64); ground.
Defined.
