(* ===== verification/RecordBatch.v ===== *)
(** * Record batches

    Models [src/src/storage/record_batch.h]/[record_batch.cpp]: the 52-byte batch header
    and its codec, the CRC over everything after the CRC field, [validate_batch] (the gate
    every byte read off a disk or a socket passes), [BatchBuilder] and [RecordIterator].

    The theorems: what the builder frames validates, decodes to the header it was given
    and iterates to the records it was given; what validates iterates to exactly
    [record_count] records; a corruption of up to four consecutive bytes in the CRC field
    or behind it never validates; and rewriting [base_offset] never invalidates a batch. *)
From S2P Require Import Prelude Base Crc32c Wire.

(** ** record_batch.h *)

Definition kBatchHeaderBytes : Z := 52.
Definition kBatchLengthPrefixBytes : Z := 12.
Definition kCrcFieldOffset : Z := 12.
Definition kCrcCoveredFrom : Z := 16.
Definition kMagicV0 : Z := 0.
Definition kAttrCompressed : Z := 1.
Definition kAttrControl : Z := 2.
Definition kMaxBatchBytes : Z := 8 * 1024 * 1024.
Definition kRecordLengthBytes : Z := 4.

Record BatchHeader := mkBatchHeader {
  base_offset : Z;
  batch_length : Z;
  leader_epoch : Z;
  magic : Z;
  attributes : Z;
  crc : Z;
  last_offset_delta : Z;
  timestamp_ms : Z;
  producer_id : Z;
  producer_epoch : Z;
  base_sequence : Z;
  record_count : Z
}.

#[export] Instance eta_BatchHeader : Settable BatchHeader := fun h =>
  mkBatchHeader (base_offset h) (batch_length h) (leader_epoch h) (magic h) (attributes h)
    (crc h) (last_offset_delta h) (timestamp_ms h) (producer_id h) (producer_epoch h)
    (base_sequence h) (record_count h).

Definition is_control (h : BatchHeader) : bool :=
  negb (Z.land (attributes h) kAttrControl =? 0).

Definition total_bytes (h : BatchHeader) : Z := kBatchLengthPrefixBytes + batch_length h.

Definition last_offset (h : BatchHeader) : Z := u64 (base_offset h + last_offset_delta h).
Definition next_offset (h : BatchHeader) : Z := u64 (last_offset h + 1).

Record BatchMeta := mkBatchMeta {
  meta_leader_epoch : Z;
  meta_control : bool;
  meta_timestamp_ms : Z;
  meta_producer_id : Z;
  meta_producer_epoch : Z;
  meta_base_sequence : Z
}.

(** ** record_batch.cpp *)

(** The 52 bytes written at [out]. *)
Definition encode_header (h : BatchHeader) : list Z :=
  store_u64_le (base_offset h) ++ store_u32_le (batch_length h) ++ store_u32_le (crc h) ++
  store_u32_le (leader_epoch h) ++ [magic h] ++ [attributes h] ++
  store_u32_le (last_offset_delta h) ++ store_i64_le (timestamp_ms h) ++
  store_u64_le (producer_id h) ++ store_u16_le (producer_epoch h) ++
  store_u32_le (base_sequence h) ++ store_u32_le (record_count h).

Definition decode_header (bytes : list Z) : Result BatchHeader :=
  fail_if zlen bytes <? kBatchHeaderBytes with kCorruptRecord else
  let h := {|
    base_offset := load_u64_le bytes 0;
    batch_length := load_u32_le bytes 8;
    crc := load_u32_le bytes 12;
    leader_epoch := load_u32_le bytes 16;
    magic := at_ bytes 20;
    attributes := at_ bytes 21;
    last_offset_delta := load_u32_le bytes 22;
    timestamp_ms := load_i64_le bytes 26;
    producer_id := load_u64_le bytes 34;
    producer_epoch := load_u16_le bytes 42;
    base_sequence := load_u32_le bytes 44;
    record_count := load_u32_le bytes 48 |} in
  fail_if negb (magic h =? kMagicV0) with kCorruptRecord else
  fail_if total_bytes h <? kBatchHeaderBytes with kCorruptRecord else
  fail_if kMaxBatchBytes <? total_bytes h with kCorruptRecord else
  Ok h.

Definition compute_crc (framed : list Z) (total : Z) : Z :=
  crc32c 0 (subslice framed kCrcCoveredFrom (total - kCrcCoveredFrom)).

(** The [for] loop of [validate_batch] from iteration [i] at byte [pos].  Each iteration
    that does not fail passes at least four bytes, so [S (length framed)] iterations are
    more than the loop can make. *)
Fixpoint walk_records (framed : list Z) (total count : Z) (fuel : nat) (i pos : Z)
  : Result Z :=
  match fuel with
  | O => fail kCorruptRecord
  | S fuel' =>
      if i <? count then
        fail_if total - pos <? kRecordLengthBytes with kCorruptRecord else
        let len := load_u32_le framed pos in
        let pos := pos + kRecordLengthBytes in
        fail_if total - pos <? len with kCorruptRecord else
        walk_records framed total count fuel' (i + 1) (pos + len)
      else Ok pos
  end.

Definition validate_batch (framed : list Z) : Status :=
  let? h := decode_header framed in
  let total := total_bytes h in
  fail_if zlen framed <? total with kCorruptRecord else
  fail_if negb (compute_crc framed total =? crc h) with kCorruptRecord else
  fail_if record_count h =? 0 with kCorruptRecord else
  fail_if negb (last_offset_delta h =? u32 (record_count h - 1)) with kCorruptRecord else
  fail_if negb (Z.land (attributes h) kAttrCompressed =? 0) with kCorruptRecord else
  let? pos := walk_records framed total (record_count h) (S (length framed)) 0 kBatchHeaderBytes in
  fail_if negb (pos =? total) with kCorruptRecord else
  Ok tt.

Module BatchBuilder.

Record t := mk { buf_ : Buffer.t; record_count_ : Z }.

(** [BatchBuilder::clear], and the constructor. *)
Definition clear (b : t) : t :=
  mk (Buffer.append_uninitialized (Buffer.clear (buf_ b)) kBatchHeaderBytes) 0.

Definition new : t := clear (mk Buffer.empty_buffer 0).

Definition empty (b : t) : bool := record_count_ b =? 0.
Definition framed_bytes (b : t) : Z := Buffer.size (buf_ b).

Definition add_record (b : t) (value : list Z) : Status * t :=
  let added := kRecordLengthBytes + zlen value in
  if kMaxBatchBytes <? Buffer.size (buf_ b) + added then (fail kMessageTooLarge, b)
  else if kMaxBatchBytes <? zlen value then (fail kMessageTooLarge, b)
  else
    let buf := Buffer.append_u32_le (buf_ b) (u32 (zlen value)) in
    let buf := Buffer.append buf value in
    (Ok tt, mk buf (u32 (record_count_ b + 1))).

(** Stamps header and CRC; returns the framed view and the builder. *)
Definition finish (b : t) (offset : Z) (meta : BatchMeta) : list Z * t :=
  let h := {|
    base_offset := offset;
    batch_length := u32 (Buffer.size (buf_ b) - kBatchLengthPrefixBytes);
    leader_epoch := meta_leader_epoch meta;
    magic := kMagicV0;
    attributes := if meta_control meta then kAttrControl else 0;
    crc := 0;
    last_offset_delta := u32 (record_count_ b - 1);
    timestamp_ms := meta_timestamp_ms meta;
    producer_id := meta_producer_id meta;
    producer_epoch := meta_producer_epoch meta;
    base_sequence := meta_base_sequence meta;
    record_count := record_count_ b |} in
  let buf := Buffer.write_at (buf_ b) 0 (encode_header h) in
  let c := compute_crc (Buffer.slice buf) (Buffer.size buf) in
  let buf := Buffer.write_at buf kCrcFieldOffset (store_u32_le c) in
  (Buffer.slice buf, mk buf (record_count_ b)).

End BatchBuilder.

Module RecordIterator.

Record t := mk { framed_ : list Z; pos_ : Z; end_ : Z }.

Definition new (framed : list Z) : t :=
  if zlen framed <? kBatchHeaderBytes then mk framed kBatchHeaderBytes kBatchHeaderBytes
  else
    let total := kBatchLengthPrefixBytes + load_u32_le framed 8 in
    let total := if total <? kBatchHeaderBytes then kBatchHeaderBytes else total in
    mk framed kBatchHeaderBytes (if total <? zlen framed then total else zlen framed).

(** [Some value] is [true]. *)
Definition next (it : t) : option (list Z) * t :=
  if end_ it - pos_ it <? kRecordLengthBytes then (None, it)
  else
    let len := load_u32_le (framed_ it) (pos_ it) in
    let pos := pos_ it + kRecordLengthBytes in
    if end_ it - pos <? len then (None, mk (framed_ it) pos (end_ it))
    else (Some (subslice (framed_ it) pos len), mk (framed_ it) (pos + len) (end_ it)).

(** [while (it.next(&value)) ...]; every call that returns a record passes four bytes. *)
Fixpoint collect (fuel : nat) (it : t) : list (list Z) :=
  match fuel with
  | O => []
  | S fuel' =>
      match next it with
      | (Some v, it') => v :: collect fuel' it'
      | (None, _) => []
      end
  end.

Definition records (framed : list Z) : list (list Z) :=
  collect (S (length framed)) (new framed).

End RecordIterator.

(** ** Specification vocabulary *)

Definition record_bytes (v : list Z) : list Z := store_u32_le (zlen v) ++ v.

Definition body_bytes (vs : list (list Z)) : list Z := concat (record_bytes <$> vs).

Definition header_wf (h : BatchHeader) : Prop :=
  0 <= base_offset h < 2 ^ 64 /\ 0 <= batch_length h < 2 ^ 32 /\ 0 <= leader_epoch h < 2 ^ 32 /\
  byte_ok (magic h) /\ byte_ok (attributes h) /\ 0 <= crc h < 2 ^ 32 /\
  0 <= last_offset_delta h < 2 ^ 32 /\ - 2 ^ 63 <= timestamp_ms h < 2 ^ 63 /\
  0 <= producer_id h < 2 ^ 64 /\ 0 <= producer_epoch h < 2 ^ 16 /\
  0 <= base_sequence h < 2 ^ 32 /\ 0 <= record_count h < 2 ^ 32.

Definition meta_wf (m : BatchMeta) : Prop :=
  0 <= meta_leader_epoch m < 2 ^ 32 /\ - 2 ^ 63 <= meta_timestamp_ms m < 2 ^ 63 /\
  0 <= meta_producer_id m < 2 ^ 64 /\ 0 <= meta_producer_epoch m < 2 ^ 16 /\
  0 <= meta_base_sequence m < 2 ^ 32.

(** Adding records one by one, stopping at the first refusal. *)
Fixpoint add_records (b : BatchBuilder.t) (vs : list (list Z)) : Status * BatchBuilder.t :=
  match vs with
  | [] => (Ok tt, b)
  | v :: vs' =>
      match BatchBuilder.add_record b v with
      | (Ok _, b') => add_records b' vs'
      | (fail e, b') => (fail e, b')
      end
  end.

(** The header [finish] stamps for a body of [n] records. *)
Definition stamped_header (offset : Z) (meta : BatchMeta) (vs : list (list Z)) (c : Z)
  : BatchHeader := {|
    base_offset := offset;
    batch_length := 40 + zlen (body_bytes vs);
    leader_epoch := meta_leader_epoch meta;
    magic := kMagicV0;
    attributes := if meta_control meta then kAttrControl else 0;
    crc := c;
    last_offset_delta := zlen vs - 1;
    timestamp_ms := meta_timestamp_ms meta;
    producer_id := meta_producer_id meta;
    producer_epoch := meta_producer_epoch meta;
    base_sequence := meta_base_sequence meta;
    record_count := zlen vs |}.

(** The bytes of a batch: header with its CRC, then the body. *)
Definition header_crc (h : BatchHeader) (body : list Z) : Z :=
  crc32c 0 (zdrop 16 (encode_header h) ++ body).

Definition batch_bytes (offset : Z) (meta : BatchMeta) (vs : list (list Z)) : list Z :=
  let h := stamped_header offset meta vs 0 in
  encode_header (h <| crc := header_crc h (body_bytes vs) |>) ++ body_bytes vs.

(** ** The header codec *)

Lemma zlen_encode_header h : zlen (encode_header h) = 52.
Proof. unfold encode_header, store_i64_le. len. Qed.
#[global] Hint Rewrite zlen_encode_header : zlen.

Lemma encode_header_ok h : byte_ok (magic h) -> byte_ok (attributes h) -> bytes_ok (encode_header h).
Proof.
  intros. unfold encode_header.
  repeat (apply Forall_app; split); auto with le; by repeat constructor.
Qed.

Lemma decode_encode_header h rest :
  header_wf h -> magic h = kMagicV0 -> 52 <= total_bytes h <= kMaxBatchBytes ->
  decode_header (encode_header h ++ rest) = Ok h.
Proof.
  intros (W1 & W2 & W3 & W4 & W5 & W6 & W7 & W8 & W9 & W10 & W11 & W12) Hm Ht.
  unfold decode_header.
  replace (zlen (encode_header h ++ rest) <? kBatchHeaderBytes) with false
    by (symmetry; apply Z.ltb_ge; unfold kBatchHeaderBytes; len).
  assert (load_u64_le (encode_header h ++ rest) 0 = base_offset h) as ->
    by (unfold encode_header; load_field; by apply wrap_small).
  assert (load_u32_le (encode_header h ++ rest) 8 = batch_length h) as ->
    by (unfold encode_header; load_field; by apply wrap_small).
  assert (load_u32_le (encode_header h ++ rest) 12 = crc h) as ->
    by (unfold encode_header; load_field; by apply wrap_small).
  assert (load_u32_le (encode_header h ++ rest) 16 = leader_epoch h) as ->
    by (unfold encode_header; load_field; by apply wrap_small).
  assert (at_ (encode_header h ++ rest) 20 = magic h) as -> by (unfold encode_header; by load_field).
  assert (at_ (encode_header h ++ rest) 21 = attributes h) as -> by (unfold encode_header; by load_field).
  assert (load_u32_le (encode_header h ++ rest) 22 = last_offset_delta h) as ->
    by (unfold encode_header; load_field; by apply wrap_small).
  assert (load_i64_le (encode_header h ++ rest) 26 = timestamp_ms h) as ->
    by (unfold load_i64_le, encode_header, store_i64_le; load_field;
        rewrite wrap_wrap by lia; by apply i64_u64).
  assert (load_u64_le (encode_header h ++ rest) 34 = producer_id h) as ->
    by (unfold encode_header; load_field; by apply wrap_small).
  assert (load_u16_le (encode_header h ++ rest) 42 = producer_epoch h) as ->
    by (unfold encode_header; load_field; by apply wrap_small).
  assert (load_u32_le (encode_header h ++ rest) 44 = base_sequence h) as ->
    by (unfold encode_header; load_field; by apply wrap_small).
  assert (load_u32_le (encode_header h ++ rest) 48 = record_count h) as ->
    by (unfold encode_header; load_field; by apply wrap_small).
  unfold total_bytes, kBatchHeaderBytes, kMaxBatchBytes in *. simpl magic. simpl batch_length.
  rewrite Hm. simpl negb. cbv iota.
  destruct (_ <? 52) eqn:E1; bool_prop; [lia|]. destruct (_ <? _) eqn:E2; bool_prop; [lia|].
  destruct h; simpl in *. by subst.
Qed.

(** ** Walking records *)

Lemma zlen_record_bytes v : zlen (record_bytes v) = 4 + zlen v.
Proof. unfold record_bytes. len. Qed.
#[global] Hint Rewrite zlen_record_bytes : zlen.

Lemma body_bytes_cons v vs : body_bytes (v :: vs) = record_bytes v ++ body_bytes vs.
Proof. reflexivity. Qed.

Lemma body_bytes_app vs ws : body_bytes (vs ++ ws) = body_bytes vs ++ body_bytes ws.
Proof. unfold body_bytes. by rewrite fmap_app, concat_app. Qed.

Lemma zlen_body_bytes vs : 4 * zlen vs <= zlen (body_bytes vs).
Proof. induction vs as [|v vs IH]; [done|]. rewrite body_bytes_cons. len. Qed.

Lemma body_bytes_ok vs : Forall bytes_ok vs -> bytes_ok (body_bytes vs).
Proof.
  intros H. apply Forall_concat, Forall_fmap. eapply Forall_impl; [exact H|].
  intros v Hv. apply Forall_app. split; auto with le.
Qed.

Lemma load_record_len pre v post :
  zlen v < 2 ^ 32 -> load_u32_le (pre ++ (record_bytes v ++ post)) (zlen pre) = zlen v.
Proof.
  intros. unfold record_bytes. rewrite <- app_assoc, load_u32_store_at by done.
  apply wrap_small. pose proof (zlen_nonneg v). lia.
Qed.

Lemma walk_records_body vs : forall pre post i fuel,
  Forall (fun v => zlen v < 2 ^ 32) vs -> (length vs < fuel)%nat ->
  walk_records (pre ++ body_bytes vs ++ post) (zlen pre + zlen (body_bytes vs)) (i + zlen vs)
    fuel i (zlen pre) = Ok (zlen pre + zlen (body_bytes vs)).
Proof.
  induction vs as [|v vs IH]; intros pre post i [|fuel] Hv Hf; cbn [length] in Hf; try lia;
    cbn [walk_records].
  - rewrite zlen_nil, Z.add_0_r, Z.ltb_irrefl. change (body_bytes []) with (@nil Z).
    by rewrite zlen_nil, Z.add_0_r.
  - inversion Hv as [|? ? Hv1 Hv2]; subst. rewrite zlen_cons.
    pose proof (zlen_nonneg vs).
    replace (i <? i + (1 + zlen vs)) with true by (symmetry; apply Z.ltb_lt; lia).
    rewrite !body_bytes_cons, <- app_assoc, load_record_len by done.
    unfold kRecordLengthBytes. pose proof (zlen_body_bytes vs).
    destruct (_ <? 4) eqn:E1; bool_prop; [exfalso; len|].
    destruct (_ <? zlen v) eqn:E2; bool_prop; [exfalso; len|].
    specialize (IH (pre ++ record_bytes v) post (i + 1) fuel Hv2 ltac:(lia)).
    rewrite zlen_app, zlen_record_bytes, <- app_assoc in IH.
    rewrite zlen_app, zlen_record_bytes.
    replace (zlen pre + 4 + zlen v) with (zlen pre + (4 + zlen v)) by lia.
    replace (zlen pre + (4 + zlen v + zlen (body_bytes vs)))
      with (zlen pre + (4 + zlen v) + zlen (body_bytes vs)) by lia.
    replace (i + (1 + zlen vs)) with (i + 1 + zlen vs) by lia. exact IH.
Qed.

Lemma zsub_split {A} off n m (l : list A) :
  0 <= off -> 0 <= n -> 0 <= m -> zsub off (n + m) l = zsub off n l ++ zsub (off + n) m l.
Proof.
  intros. unfold zsub. rewrite <- zdrop_zdrop by lia. unfold ztake, zdrop.
  rewrite take_take_drop. f_equal. lia.
Qed.

Lemma record_at framed pos :
  bytes_ok framed -> 0 <= pos -> pos + 4 + load_u32_le framed pos <= zlen framed ->
  zsub pos (4 + load_u32_le framed pos) framed =
  record_bytes (zsub (pos + 4) (load_u32_le framed pos) framed).
Proof.
  intros Hb Hp Hl. pose proof (load_u32_range framed pos Hb).
  rewrite zsub_split by lia. unfold record_bytes. f_equal.
  rewrite zlen_zsub. rewrite Z.min_l by lia. rewrite Z.max_r by lia.
  symmetry. apply store_u32_load; [done | lia | lia].
Qed.

Lemma walk_records_inv framed total count :
  bytes_ok framed -> total <= zlen framed ->
  forall fuel i pos pos', 0 <= pos <= total -> i <= count ->
  walk_records framed total count fuel i pos = Ok pos' ->
  pos <= pos' <= total /\
  exists vs, zlen vs = count - i /\ zsub pos (pos' - pos) framed = body_bytes vs /\
    Forall (fun v => zlen v < 2 ^ 32) vs.
Proof.
  intros Hb Ht. induction fuel as [|fuel IH]; intros i pos pos' Hp Hi E; simpl in E; [done|].
  destruct (i <? count) eqn:Ei; bool_prop.
  - unfold kRecordLengthBytes in E. pose proof (load_u32_range framed pos Hb).
    cases_if_in E; try discriminate. apply IH in E; [|lia|lia].
    destruct E as [Hr (vs & Hn & Hz & Hf)]. split; [lia|].
    exists (zsub (pos + 4) (load_u32_le framed pos) framed :: vs). split_and!.
    + rewrite zlen_cons. lia.
    + rewrite body_bytes_cons, <- record_at, <- Hz by (done || lia).
      replace (pos' - pos) with ((4 + load_u32_le framed pos) + (pos' - (pos + 4 + load_u32_le framed pos))) by lia.
      rewrite zsub_split by lia. f_equal. f_equal. lia.
    + constructor; [|done]. rewrite zlen_zsub. lia.
  - injection E as <-. split; [lia|]. exists []. rewrite Z.sub_diag. split_and!; [|done|done].
    rewrite zlen_nil. lia.
Qed.

(** ** Iterating records *)

Lemma collect_body vs : forall pre post fuel,
  Forall (fun v => zlen v < 2 ^ 32) vs -> (length vs < fuel)%nat ->
  RecordIterator.collect fuel (RecordIterator.mk (pre ++ body_bytes vs ++ post) (zlen pre)
    (zlen pre + zlen (body_bytes vs))) = vs.
Proof.
  induction vs as [|v vs IH]; intros pre post [|fuel] Hv Hf; cbn [length] in Hf; try lia;
    cbn [RecordIterator.collect]; unfold RecordIterator.next;
    cbn [RecordIterator.end_ RecordIterator.pos_ RecordIterator.framed_]; unfold kRecordLengthBytes.
  - change (body_bytes []) with (@nil Z). rewrite zlen_nil.
    destruct (_ <? 4) eqn:E; bool_prop; [done|lia].
  - inversion Hv as [|? ? Hv1 Hv2]; subst.
    rewrite !body_bytes_cons, <- app_assoc, load_record_len by done.
    pose proof (zlen_body_bytes vs). pose proof (zlen_nonneg vs).
    destruct (_ <? 4) eqn:E1; bool_prop; [exfalso; len|].
    destruct (_ <? zlen v) eqn:E2; bool_prop; [exfalso; len|]. f_equal.
    + unfold subslice, record_bytes. rewrite <- app_assoc.
      destruct (zlen v <? _) eqn:E3; bool_prop.
      * rewrite app_assoc. apply zsub_app_mid; len.
      * assert (zlen (body_bytes vs ++ post) = 0) as Z0 by len.
        rewrite app_assoc. apply zsub_app_mid; len.
    + specialize (IH (pre ++ record_bytes v) post fuel Hv2 ltac:(lia)).
      rewrite zlen_app, zlen_record_bytes, <- app_assoc in IH.
      replace (zlen pre + 4 + zlen v) with (zlen pre + (4 + zlen v)) by lia.
      rewrite zlen_app, zlen_record_bytes.
      replace (zlen pre + (4 + zlen v + zlen (body_bytes vs)))
        with (zlen pre + (4 + zlen v) + zlen (body_bytes vs)) by lia. exact IH.
Qed.

(** ** What [decode_header] and [validate_batch] establish *)

Lemma decode_header_inv bytes h :
  decode_header bytes = Ok h ->
  52 <= zlen bytes /\ 52 <= total_bytes h <= kMaxBatchBytes /\
  batch_length h = load_u32_le bytes 8 /\ crc h = load_u32_le bytes 12 /\
  record_count h = load_u32_le bytes 48 /\ base_offset h = load_u64_le bytes 0 /\
  last_offset_delta h = load_u32_le bytes 22.
Proof.
  unfold decode_header, kBatchHeaderBytes. intros E. cases_if_in E; try discriminate.
  injection E as <-. simpl in *. split_and!; (done || lia).
Qed.

(** Every read of the header lies in its first 52 bytes. *)
Lemma decode_header_app bytes more :
  52 <= zlen bytes -> decode_header (bytes ++ more) = decode_header bytes.
Proof.
  intros. unfold decode_header.
  replace (zlen (bytes ++ more) <? kBatchHeaderBytes) with (zlen bytes <? kBatchHeaderBytes).
  2:{ unfold kBatchHeaderBytes. destruct (zlen bytes <? 52) eqn:E1, (zlen (bytes ++ more) <? 52) eqn:E2;
      bool_prop; try done; len. }
  unfold load_i64_le, load_u64_le, load_u16_le. rewrite !load_u32_app_l, !at_app_l by lia. done.
Qed.

Lemma subslice_app s more off n :
  0 <= off -> 0 <= n -> off + n <= zlen s -> subslice (s ++ more) off n = subslice s off n.
Proof.
  intros. unfold subslice.
  assert (forall l : list Z, off + n <= zlen l -> zsub off (if n <? zlen l - off then n else zlen l - off) l
    = zsub off n l) as X.
  { intros l Hl. destruct (_ <? _) eqn:E; bool_prop; [done|]. by replace (zlen l - off) with n by lia. }
  rewrite !X by len. by apply zsub_app_l.
Qed.

Lemma walk_records_app framed more total count : total <= zlen framed ->
  forall fuel fuel' i pos r, 0 <= pos <= total -> bytes_ok framed -> (fuel <= fuel')%nat ->
  walk_records framed total count fuel i pos = Ok r ->
  walk_records (framed ++ more) total count fuel' i pos = Ok r.
Proof.
  intros Ht. induction fuel as [|fuel IH]; intros [|fuel'] i pos r Hp Hb Hf E; simpl in *; try done; try lia.
  destruct (i <? count); [|done]. unfold kRecordLengthBytes in *.
  destruct (total - pos <? 4) eqn:E1; [done|]. bool_prop. rewrite load_u32_app_l by lia.
  destruct (_ <? load_u32_le framed pos) eqn:E2; [done|]. bool_prop.
  pose proof (load_u32_range framed pos Hb). apply IH; [lia | done | lia | done].
Qed.

(** A valid batch stays valid when more bytes follow it in the read buffer. *)
Lemma validate_batch_app framed more :
  bytes_ok framed -> validate_batch framed = Ok tt -> validate_batch (framed ++ more) = Ok tt.
Proof.
  intros Hb E. unfold validate_batch in *.
  destruct (decode_header framed) as [h|] eqn:D; [|done].
  pose proof (decode_header_inv _ _ D) as (H1 & H2 & _). rewrite decode_header_app, D by done.
  destruct (zlen framed <? total_bytes h) eqn:E1; [done|]. bool_prop.
  replace (zlen (framed ++ more) <? total_bytes h) with false by (symmetry; apply Z.ltb_ge; len).
  unfold compute_crc, kCrcCoveredFrom in *. rewrite subslice_app by lia.
  repeat (case_match; [done|]).
  destruct (walk_records framed _ _ _ _ _) as [r|] eqn:W; [|done].
  erewrite walk_records_app; [exact E | | | | | exact W]; try done.
  - unfold kBatchHeaderBytes. lia.
  - rewrite length_app. lia.
Qed.

Lemma validate_batch_inv framed :
  bytes_ok framed -> validate_batch framed = Ok tt ->
  exists h vs,
    decode_header framed = Ok h /\ total_bytes h <= zlen framed /\
    compute_crc framed (total_bytes h) = crc h /\
    zlen vs = record_count h /\ 0 < record_count h /\ last_offset_delta h = record_count h - 1 /\
    zsub 52 (total_bytes h - 52) framed = body_bytes vs /\
    Forall (fun v => zlen v < 2 ^ 32) vs.
Proof.
  intros Hb E. unfold validate_batch in E.
  destruct (decode_header framed) as [h|] eqn:D; [|done].
  pose proof (decode_header_inv _ _ D) as (H1 & H2 & _ & _ & Hrc & _ & _).
  pose proof (load_u32_range framed 48 Hb) as R. rewrite <- Hrc in R.
  repeat (case_match; [done|]). bool_prop.
  destruct (walk_records framed _ _ _ _ _) as [pos|] eqn:W; [|done].
  destruct (negb (pos =? total_bytes h)) eqn:P; [done|]. bool_prop.
  apply walk_records_inv in W; [|done|lia|unfold kBatchHeaderBytes; lia|lia].
  destruct W as [Hpos (vs & Hn & Hz & Hf)]. exists h, vs. unfold kBatchHeaderBytes in *. subst pos.
  rewrite wrap_small in * by lia. split_and!; (done || lia).
Qed.

Lemma records_of_body framed h vs :
  bytes_ok framed -> decode_header framed = Ok h -> total_bytes h <= zlen framed ->
  zsub 52 (total_bytes h - 52) framed = body_bytes vs ->
  Forall (fun v => zlen v < 2 ^ 32) vs ->
  RecordIterator.records framed = vs.
Proof.
  intros Hb D Ht Hz Hf. pose proof (decode_header_inv _ _ D) as (H1 & H2 & Hbl & _).
  unfold RecordIterator.records, RecordIterator.new, kBatchHeaderBytes, kBatchLengthPrefixBytes.
  unfold total_bytes, kBatchLengthPrefixBytes in *. rewrite <- Hbl.
  assert (zlen (body_bytes vs) = 12 + batch_length h - 52) as Hlb by (rewrite <- Hz; len).
  destruct (_ <? 52) eqn:E1; bool_prop; [lia|]. destruct (_ <? 52) eqn:E2; bool_prop; [lia|].
  assert (framed = ztake 52 framed ++ body_bytes vs ++ zdrop (12 + batch_length h) framed) as Hsplit.
  { rewrite <- Hz. unfold zsub. replace (zdrop (12 + batch_length h) framed) with
      (zdrop (12 + batch_length h - 52) (zdrop 52 framed)) by (rewrite zdrop_zdrop by lia; f_equal; lia).
    by rewrite !ztake_zdrop. }
  assert (zlen (ztake 52 framed) = 52) as H52 by len.
  pose proof (zlen_body_bytes vs) as Hv4.
  replace (if 12 + batch_length h <? zlen framed then 12 + batch_length h else zlen framed)
    with (zlen (ztake 52 framed) + zlen (body_bytes vs)).
  2:{ destruct (_ <? _) eqn:E3; bool_prop; lia. }
  rewrite Hsplit at 2. rewrite <- H52 at 2. apply collect_body; [done|]. unfold zlen in *. lia.
Qed.

(** ** The builder *)

Definition builder_holds (b : BatchBuilder.t) (vs : list (list Z)) : Prop :=
  exists hdr, Buffer.read_pos_ (BatchBuilder.buf_ b) = 0 /\ zlen hdr = 52 /\
    Buffer.bytes_ (BatchBuilder.buf_ b) = hdr ++ body_bytes vs /\
    BatchBuilder.record_count_ b = zlen vs.

Lemma clear_holds b : builder_holds (BatchBuilder.clear b) [].
Proof. exists (zrep 52 0). by split_and!. Qed.

Lemma holds_size b vs : builder_holds b vs -> Buffer.size (BatchBuilder.buf_ b) = 52 + zlen (body_bytes vs).
Proof. intros (hdr & H1 & H2 & H3 & _). unfold Buffer.size. rewrite H1, H3. len. Qed.

Lemma add_record_holds b vs v :
  builder_holds b vs ->
  52 + zlen (body_bytes vs) + 4 + zlen v <= kMaxBatchBytes ->
  exists b', BatchBuilder.add_record b v = (Ok tt, b') /\ builder_holds b' (vs ++ [v]).
Proof.
  intros H Hm. pose proof (holds_size _ _ H) as Hs. unfold BatchBuilder.add_record.
  rewrite Hs. unfold kRecordLengthBytes. pose proof (zlen_body_bytes vs). pose proof (zlen_nonneg vs).
  pose proof (zlen_nonneg v).
  destruct (_ <? _) eqn:E1; bool_prop; [lia|]. destruct (_ <? zlen v) eqn:E2; bool_prop; [lia|].
  eexists. split; [done|]. destruct H as (hdr & P1 & P2 & P3 & P4). exists hdr.
  unfold kMaxBatchBytes in *. cbn -[app]. rewrite P3, P4. split_and!; try done.
  - rewrite body_bytes_app, wrap_small by lia. unfold body_bytes at 3. simpl.
    unfold record_bytes. by rewrite !app_nil_r, <- !app_assoc.
  - rewrite wrap_small by lia. len.
Qed.

Lemma add_records_holds vs : forall b us,
  builder_holds b us -> 52 + zlen (body_bytes (us ++ vs)) <= kMaxBatchBytes ->
  exists b', add_records b vs = (Ok tt, b') /\ builder_holds b' (us ++ vs).
Proof.
  induction vs as [|v vs IH]; intros b us H Hm; simpl.
  - rewrite app_nil_r in *. eauto.
  - rewrite body_bytes_app, body_bytes_cons in Hm.
    destruct (add_record_holds b us v H) as (b1 & -> & H1).
    { pose proof (zlen_body_bytes vs). len. }
    destruct (IH b1 (us ++ [v]) H1) as (b2 & E & H2).
    { rewrite <- app_assoc. simpl. by rewrite body_bytes_app, body_bytes_cons. }
    rewrite <- app_assoc in H2. eauto.
Qed.

Lemma stamped_header_wf offset meta vs c :
  0 <= offset < 2 ^ 64 -> meta_wf meta -> 0 < zlen vs -> 0 <= c < 2 ^ 32 ->
  52 + zlen (body_bytes vs) <= kMaxBatchBytes -> header_wf (stamped_header offset meta vs c).
Proof.
  intros Ho (M1 & M2 & M3 & M4 & M5) Hn Hc Hm. pose proof (zlen_body_bytes vs).
  unfold kMaxBatchBytes in Hm. unfold header_wf, stamped_header, byte_ok, kMagicV0. simpl.
  pow2. split_and!; try lia; destruct (meta_control meta); unfold kAttrControl; lia.
Qed.

(** The CRC field is the only part of the header [finish] patches afterwards. *)
Lemma encode_header_crc h c :
  splice (encode_header h) 12 (store_u32_le c) = encode_header (h <| crc := c |>).
Proof.
  unfold splice, encode_header. fields. rewrite zlen_store_u32.
  change (12 + 4) with 16.
  rewrite (app_assoc (store_u64_le _)), (ztake_app 12) by len.
  rewrite (app_assoc (_ ++ _) (store_u32_le (crc h))), (zdrop_app 16) by len.
  by rewrite <- !app_assoc.
Qed.

Lemma finish_holds b vs offset meta :
  builder_holds b vs -> 0 < zlen vs -> 52 + zlen (body_bytes vs) <= kMaxBatchBytes ->
  exists b', BatchBuilder.finish b offset meta = (batch_bytes offset meta vs, b') /\
    builder_holds b' vs.
Proof.
  intros H Hn Hm. pose proof (holds_size _ _ H) as Hs. destruct H as (hdr & H1 & H2 & H3 & H4).
  pose proof (zlen_body_bytes vs) as Hb. unfold kMaxBatchBytes in Hm.
  unfold BatchBuilder.finish. rewrite Hs, H4. unfold kBatchLengthPrefixBytes.
  rewrite (wrap_small 32 (52 + _ - 12)), (wrap_small 32 (zlen vs - 1)) by lia.
  set (h := stamped_header offset meta vs 0).
  match goal with |- context [encode_header ?x] => replace x with h end.
  2:{ unfold h, stamped_header. f_equal. lia. }
  assert (Buffer.bytes_ (Buffer.write_at (BatchBuilder.buf_ b) 0 (encode_header h))
    = encode_header h ++ body_bytes vs) as B1.
  { simpl. rewrite H1, H3. change (0 + 0) with 0. rewrite splice_0, zlen_encode_header.
    by rewrite zdrop_app by lia. }
  set (buf1 := Buffer.write_at _ 0 _) in *.
  assert (Buffer.read_pos_ buf1 = 0) as P1 by done.
  assert (forall l, zlen l = 52 -> Buffer.slice (Buffer.mk (l ++ body_bytes vs) 0) = l ++ body_bytes vs) as SL.
  { intros l Hl. rewrite slice_zdrop; [apply zdrop_le; done | unfold Buffer.wf; simpl; len]. }
  assert (Buffer.slice buf1 = encode_header h ++ body_bytes vs) as S1.
  { rewrite <- SL by len. rewrite <- B1, <- P1. by destruct buf1. }
  assert (Buffer.size buf1 = 52 + zlen (body_bytes vs)) as Z1.
  { unfold Buffer.size. rewrite B1, P1. len. }
  assert (compute_crc (Buffer.slice buf1) (Buffer.size buf1) = header_crc h (body_bytes vs)) as C1.
  { rewrite S1, Z1. unfold compute_crc, header_crc, subslice, kCrcCoveredFrom. f_equal.
    destruct (_ <? _) eqn:E; bool_prop; unfold zsub; rewrite zdrop_app_le by len; apply ztake_ge; len. }
  rewrite C1. unfold kCrcFieldOffset. set (c := header_crc h (body_bytes vs)).
  assert (Buffer.write_at buf1 12 (store_u32_le c)
    = Buffer.mk (encode_header (h <| crc := c |>) ++ body_bytes vs) 0) as ->.
  { unfold Buffer.write_at. rewrite B1, P1. apply (f_equal (fun l => Buffer.mk l 0)). change (0 + 12) with 12.
    rewrite <- encode_header_crc. unfold splice. rewrite zlen_store_u32. change (12 + 4) with 16.
    rewrite ztake_app_le, zdrop_app_le by len. by rewrite <- !app_assoc. }
  eexists. split; [by rewrite SL by done|].
  exists (encode_header (h <| crc := c |>)). by split_and!.
Qed.

Lemma encode_header_tail_crc h c :
  zdrop 16 (encode_header (h <| crc := c |>)) = zdrop 16 (encode_header h).
Proof. rewrite <- encode_header_crc. apply zdrop_splice_lt; len. Qed.

Lemma header_crc_range h body :
  byte_ok (magic h) -> byte_ok (attributes h) -> bytes_ok body -> 0 <= header_crc h body < 2 ^ 32.
Proof.
  intros. apply crc32c_range; [unfold u32_ok; lia|]. apply Forall_app. split; [|done].
  apply Forall_drop. by apply encode_header_ok.
Qed.

Lemma attr_ok meta : byte_ok (if meta_control meta then kAttrControl else 0).
Proof. destruct (meta_control meta); unfold byte_ok, kAttrControl; lia. Qed.

Lemma batch_bytes_decode offset meta vs rest :
  0 <= offset < 2 ^ 64 -> meta_wf meta -> 0 < zlen vs -> Forall bytes_ok vs ->
  52 + zlen (body_bytes vs) <= kMaxBatchBytes ->
  decode_header (batch_bytes offset meta vs ++ rest) =
  Ok (stamped_header offset meta vs (header_crc (stamped_header offset meta vs 0) (body_bytes vs))).
Proof.
  intros Ho Hmt Hn Hb Hm. unfold batch_bytes. rewrite <- app_assoc.
  pose proof (zlen_body_bytes vs). apply decode_encode_header.
  - apply (stamped_header_wf offset meta vs); try done.
    apply header_crc_range; [unfold byte_ok; simpl; unfold kMagicV0; lia | apply attr_ok | by apply body_bytes_ok].
  - done.
  - unfold total_bytes, kBatchLengthPrefixBytes. fields. lia.
Qed.

Lemma zlen_batch_bytes offset meta vs : zlen (batch_bytes offset meta vs) = 52 + zlen (body_bytes vs).
Proof. unfold batch_bytes. len. Qed.

Lemma zlen_value_body v vs : v ∈ vs -> zlen v <= zlen (body_bytes vs).
Proof.
  intros H. induction H as [v vs|v w vs H IH]; rewrite body_bytes_cons, zlen_app, zlen_record_bytes.
  - pose proof (zlen_nonneg (body_bytes vs)). lia.
  - pose proof (zlen_nonneg w). lia.
Qed.

Lemma batch_bytes_valid offset meta vs :
  0 <= offset < 2 ^ 64 -> meta_wf meta -> 0 < zlen vs -> Forall bytes_ok vs ->
  52 + zlen (body_bytes vs) <= kMaxBatchBytes ->
  validate_batch (batch_bytes offset meta vs) = Ok tt.
Proof.
  intros Ho Hmt Hn Hb Hm. unfold validate_batch.
  pose proof (batch_bytes_decode offset meta vs [] Ho Hmt Hn Hb Hm) as D. rewrite app_nil_r in D.
  rewrite D. pose proof (zlen_body_bytes vs) as H4. pose proof (zlen_batch_bytes offset meta vs) as L.
  unfold kMaxBatchBytes in Hm. set (c := header_crc _ _) in *.
  unfold total_bytes, kBatchLengthPrefixBytes. simpl batch_length. simpl crc. simpl record_count.
  simpl last_offset_delta. simpl attributes.
  replace (12 + (40 + zlen (body_bytes vs))) with (52 + zlen (body_bytes vs)) by lia.
  rewrite L, Z.ltb_irrefl.
  assert (compute_crc (batch_bytes offset meta vs) (52 + zlen (body_bytes vs)) = c) as ->.
  { unfold compute_crc, subslice, kCrcCoveredFrom. rewrite L, Z.ltb_irrefl. unfold c, header_crc. f_equal.
    unfold batch_bytes, zsub. rewrite zdrop_app_le by len. rewrite encode_header_tail_crc.
    apply ztake_ge. len. }
  rewrite Z.eqb_refl. simpl negb. cbv iota.
  destruct (zlen vs =? 0) eqn:E; bool_prop; [lia|].
  rewrite wrap_small, Z.eqb_refl by lia. simpl negb. cbv iota.
  replace (Z.land (if meta_control meta then kAttrControl else 0) kAttrCompressed) with 0
    by (by destruct (meta_control meta)). simpl negb. cbv iota.
  assert (Forall (fun v => zlen v < 2 ^ 32) vs) as Hv.
  { apply Forall_forall. intros v Hv. pose proof (zlen_value_body v vs Hv). lia. }
  unfold batch_bytes at 1. set (hd := encode_header _).
  rewrite <- (app_nil_r (body_bytes vs)) at 1. replace kBatchHeaderBytes with (zlen hd) by done.
  replace 52 with (zlen hd) at 1 by done. change (zlen vs) with (0 + zlen vs) at 1.
  rewrite walk_records_body; [by rewrite Z.eqb_refl | done |]. unfold zlen in *. lia.
Qed.

Lemma next_offset_spec h :
  0 <= base_offset h < 2 ^ 64 -> 0 < record_count h < 2 ^ 32 ->
  last_offset_delta h = record_count h - 1 ->
  next_offset h = u64 (base_offset h + record_count h).
Proof.
  intros H1 H2 H3. unfold next_offset, last_offset. rewrite wrap_add_l, H3. f_equal. lia.
Qed.

(** ** Corruption *)

Lemma load_u32_same_prefix pre a b off :
  0 <= off -> off + 4 <= zlen pre -> load_u32_le (pre ++ a) off = load_u32_le (pre ++ b) off.
Proof. intros. by rewrite !load_u32_app_l. Qed.

(** Two byte strings that both validate and agree on bytes 8 to 11 have the same length
    field, so their checksums cover the same range. *)
Lemma validate_same_total x y hx hy :
  decode_header x = Ok hx -> decode_header y = Ok hy ->
  load_u32_le x 8 = load_u32_le y 8 -> total_bytes hx = total_bytes hy.
Proof.
  intros Hx Hy E. apply decode_header_inv in Hx, Hy. unfold total_bytes.
  destruct Hx as (_ & _ & -> & _), Hy as (_ & _ & -> & _). by rewrite E.
Qed.

Lemma corrupt_covered pre a b post h :
  bytes_ok (pre ++ a ++ post) -> bytes_ok b -> length a = length b -> zlen a <= 4 ->
  16 <= zlen pre -> validate_batch (pre ++ a ++ post) = Ok tt ->
  decode_header (pre ++ a ++ post) = Ok h -> zlen pre + zlen a <= total_bytes h ->
  validate_batch (pre ++ b ++ post) = Ok tt -> a = b.
Proof.
  intros Hb Hbb Hl H4 Hp V D Ht V'.
  apply Forall_app in Hb as Hb'. destruct Hb' as [Hpre Hap]. apply Forall_app in Hap as [Ha Hpost].
  assert (bytes_ok (pre ++ b ++ post)) as Hb2 by (repeat (apply Forall_app; split); done).
  apply validate_batch_inv in V as (h1 & vs1 & D1 & T1 & C1 & _); [|done].
  apply validate_batch_inv in V' as (h2 & vs2 & D2 & T2 & C2 & _); [|done].
  rewrite D in D1. injection D1 as <-.
  assert (total_bytes h2 = total_bytes h) as Tt.
  { eapply validate_same_total; [exact D2 | exact D |]. apply load_u32_same_prefix; lia. }
  pose proof (decode_header_inv _ _ D) as (_ & Hbnd & _ & Hc1 & _).
  pose proof (decode_header_inv _ _ D2) as (_ & _ & _ & Hc2 & _).
  assert (crc h2 = crc h) as Hc.
  { rewrite Hc1, Hc2. apply load_u32_same_prefix; lia. }
  rewrite Tt in C2. rewrite Hc, <- C1 in C2.
  assert (zlen b = zlen a) as Hlz by (unfold zlen; lia).
  unfold compute_crc, kCrcCoveredFrom in C2.
  rewrite !subslice_exact in C2 by len.
  assert (forall m, zlen m = zlen a -> zsub 16 (total_bytes h - 16) (pre ++ m ++ post) =
    zdrop 16 pre ++ m ++ ztake (total_bytes h - zlen pre - zlen a) post) as X.
  { intros m Hm. unfold zsub. rewrite zdrop_app_le by lia.
    rewrite ztake_app_ge by len. f_equal. rewrite ztake_app_ge by len. f_equal. f_equal. len. }
  rewrite !X in C2 by done. symmetry in C2. apply crc32c_burst in C2; try done.
  - by apply Forall_drop.
  - by apply Forall_take.
Qed.

Lemma load_u32_inj x y off :
  bytes_ok x -> bytes_ok y -> 0 <= off -> off + 4 <= zlen x -> off + 4 <= zlen y ->
  load_u32_le x off = load_u32_le y off -> zsub off 4 x = zsub off 4 y.
Proof. intros. rewrite <- !store_u32_load by done. congruence. Qed.

Lemma corrupt_crc_field pre a b post :
  bytes_ok (pre ++ a ++ post) -> bytes_ok b -> length a = length b ->
  12 <= zlen pre -> zlen pre + zlen a <= 16 ->
  validate_batch (pre ++ a ++ post) = Ok tt -> validate_batch (pre ++ b ++ post) = Ok tt -> a = b.
Proof.
  intros Hb Hbb Hl Hp H16 V V'.
  apply Forall_app in Hb as Hb'. destruct Hb' as [Hpre Hap]. apply Forall_app in Hap as [Ha Hpost].
  assert (bytes_ok (pre ++ b ++ post)) as Hb2 by (repeat (apply Forall_app; split); done).
  apply validate_batch_inv in V as (h1 & vs1 & D1 & T1 & C1 & _); [|done].
  apply validate_batch_inv in V' as (h2 & vs2 & D2 & T2 & C2 & _); [|done].
  pose proof (decode_header_inv _ _ D1) as (L1 & B1 & _ & K1 & _).
  pose proof (decode_header_inv _ _ D2) as (L2 & _ & _ & K2 & _).
  assert (zlen b = zlen a) as Hlz by (unfold zlen; lia).
  assert (total_bytes h2 = total_bytes h1) as Tt.
  { eapply validate_same_total; [exact D2 | exact D1 |]. apply load_u32_same_prefix; lia. }
  assert (crc h1 = crc h2) as Hc.
  { rewrite <- C1, <- C2, Tt. unfold compute_crc, kCrcCoveredFrom. rewrite !subslice_exact by lia.
    f_equal. unfold zsub. f_equal. rewrite !app_assoc, !zdrop_app_ge by len. f_equal. len. }
  rewrite K1, K2 in Hc. apply load_u32_inj in Hc; try done; try lia.
  assert (zsub (zlen pre - 12) (zlen a) (zsub 12 4 (pre ++ a ++ post)) = a) as Ea.
  { rewrite zsub_zsub by len. apply zsub_app_mid; lia. }
  assert (zsub (zlen pre - 12) (zlen a) (zsub 12 4 (pre ++ b ++ post)) = b) as Eb.
  { rewrite zsub_zsub by len. apply zsub_app_mid; lia. }
  congruence.
Qed.

(** ** Rewriting the offset *)

Lemma rewrite_offset_loads framed o off :
  8 <= zlen framed -> 8 <= off -> at_ (store_u64_le o ++ zdrop 8 framed) off = at_ framed off.
Proof. intros. rewrite at_app_r by len. rewrite at_zdrop by len. f_equal. len. Qed.

Lemma rewrite_offset_walk framed o total count : 8 <= zlen framed -> bytes_ok framed ->
  forall fuel i pos, 8 <= pos ->
  walk_records (store_u64_le o ++ zdrop 8 framed) total count fuel i pos =
  walk_records framed total count fuel i pos.
Proof.
  intros H8 Hb. induction fuel as [|fuel IH]; intros i pos Hp; cbn [walk_records]; [done|].
  destruct (i <? count); [|done]. unfold load_u32_le at 1 2. rewrite !rewrite_offset_loads by lia.
  fold (load_u32_le framed pos). pose proof (load_u32_range framed pos Hb).
  unfold kRecordLengthBytes. by rewrite IH by lia.
Qed.

Lemma rewrite_offset_decode framed o h :
  0 <= o < 2 ^ 64 -> decode_header framed = Ok h ->
  decode_header (store_u64_le o ++ zdrop 8 framed) = Ok (h <| base_offset := o |>).
Proof.
  intros Ho D. unfold decode_header in *. unfold kBatchHeaderBytes in *.
  destruct (zlen framed <? 52) eqn:E; [done|]. bool_prop.
  replace (zlen (store_u64_le o ++ zdrop 8 framed) <? 52) with false by (symmetry; apply Z.ltb_ge; len).
  rewrite load_u64_store, wrap_small by done.
  unfold load_i64_le, load_u64_le, load_u32_le, load_u16_le in *.
  rewrite !rewrite_offset_loads by lia. cases_if_in D; try discriminate.
  injection D as <-. unfold total_bytes in *. cbn [magic batch_length] in *.
  rewrite Heqb. simpl negb. cbv iota. do 2 (case_match; bool_prop; [lia|]). done.
Qed.

(** ** Properties *)

(** C11: A batch built from records by [BatchBuilder] validates, decodes to a header that
    carries the offset, epoch and count it was stamped with, names the offset after its
    last record as the next one, and iterates back to exactly the records added. *)
Theorem builder_roundtrip (offset : Z) (meta : BatchMeta) (vs : list (list Z)) :
  0 <= offset < 2 ^ 64 -> meta_wf meta -> vs <> [] -> Forall bytes_ok vs ->
  52 + zlen (body_bytes vs) <= kMaxBatchBytes ->
  exists b framed b' h,
    add_records BatchBuilder.new vs = (Ok tt, b) /\
    BatchBuilder.finish b offset meta = (framed, b') /\
    validate_batch framed = Ok tt /\ decode_header framed = Ok h /\
    base_offset h = offset /\ leader_epoch h = meta_leader_epoch meta /\
    is_control h = meta_control meta /\ record_count h = zlen vs /\
    next_offset h = u64 (offset + zlen vs) /\ total_bytes h = zlen framed /\
    RecordIterator.records framed = vs.
Proof.
  intros Ho Hmt Hne Hb Hm.
  assert (0 < zlen vs) as Hn by (destruct vs; [done|]; rewrite zlen_cons; pose proof (zlen_nonneg vs); lia).
  destruct (add_records_holds vs BatchBuilder.new [] (clear_holds _) Hm) as (b & E & Hh).
  destruct (finish_holds b vs offset meta Hh Hn Hm) as (b' & F & _).
  pose proof (batch_bytes_decode offset meta vs [] Ho Hmt Hn Hb Hm) as D. rewrite app_nil_r in D.
  pose proof (zlen_body_bytes vs). unfold kMaxBatchBytes in *.
  eexists b, _, b', _. split_and!; [done | exact F | by apply batch_bytes_valid | exact D | done | done | | done | | |].
  - unfold is_control. simpl. by destruct (meta_control meta).
  - rewrite next_offset_spec; simpl; (done || lia).
  - rewrite zlen_batch_bytes. unfold total_bytes, kBatchLengthPrefixBytes. simpl. lia.
  - eapply records_of_body; [| exact D | | |].
    + unfold batch_bytes. apply Forall_app. split; [|by apply body_bytes_ok].
      apply encode_header_ok; fields; [unfold byte_ok, kMagicV0; lia | apply attr_ok].
    + rewrite zlen_batch_bytes. unfold total_bytes, kBatchLengthPrefixBytes. simpl. lia.
    + unfold batch_bytes, total_bytes, kBatchLengthPrefixBytes. simpl batch_length.
      apply zsub_app_end; len.
    + apply Forall_forall. intros v Hv. pose proof (zlen_value_body v vs Hv). lia.
Qed.

Lemma builder_roundtrip_witness :
  exists b framed b' h,
    add_records BatchBuilder.new [[104; 105]; []] = (Ok tt, b) /\
    BatchBuilder.finish b 7 (mkBatchMeta 3 false 0 0 0 0) = (framed, b') /\
    validate_batch framed = Ok tt /\ decode_header framed = Ok h /\
    base_offset h = 7 /\ leader_epoch h = 3 /\ is_control h = false /\ record_count h = 2 /\
    next_offset h = u64 (7 + 2) /\ total_bytes h = zlen framed /\
    RecordIterator.records framed = [[104; 105]; []].
Proof.
  apply (builder_roundtrip 7 (mkBatchMeta 3 false 0 0 0 0) [[104; 105]; []]).
  - lia.
  - unfold meta_wf. simpl. lia.
  - discriminate.
  - repeat constructor; unfold byte_ok; lia.
  - vm_compute. discriminate.
Defined.

(** Bytes that [validate_batch] accepts hold a whole batch: the header decodes, the
    batch lies inside the buffer, the checksum matches, the records tile the body exactly,
    there are as many as the header declares, and iterating yields them. *)
Theorem validate_batch_sound (framed : list Z) :
  bytes_ok framed -> validate_batch framed = Ok tt ->
  exists h,
    decode_header framed = Ok h /\ total_bytes h <= zlen framed /\
    compute_crc framed (total_bytes h) = crc h /\ 0 < record_count h /\
    zlen (RecordIterator.records framed) = record_count h /\
    zsub 52 (total_bytes h - 52) framed = body_bytes (RecordIterator.records framed) /\
    next_offset h = u64 (base_offset h + record_count h).
Proof.
  intros Hb V. apply validate_batch_inv in V as (h & vs & D & T & C & N & P & L & Z & F); [|done].
  exists h. rewrite (records_of_body framed h vs) by done.
  pose proof (decode_header_inv _ _ D) as (_ & _ & _ & _ & R & O & _).
  split_and!; try done. apply next_offset_spec; [|split; [done|]|done].
  - rewrite O. by apply load_u64_range.
  - rewrite R. by apply load_u32_range.
Qed.

Lemma validate_batch_sound_witness :
  exists h,
    decode_header (batch_bytes 5 (mkBatchMeta 2 false 0 0 0 0) [[1]]) = Ok h /\
    total_bytes h <= zlen (batch_bytes 5 (mkBatchMeta 2 false 0 0 0 0) [[1]]) /\
    compute_crc (batch_bytes 5 (mkBatchMeta 2 false 0 0 0 0) [[1]]) (total_bytes h) = crc h /\
    0 < record_count h /\
    zlen (RecordIterator.records (batch_bytes 5 (mkBatchMeta 2 false 0 0 0 0) [[1]])) = record_count h /\
    zsub 52 (total_bytes h - 52) (batch_bytes 5 (mkBatchMeta 2 false 0 0 0 0) [[1]]) =
      body_bytes (RecordIterator.records (batch_bytes 5 (mkBatchMeta 2 false 0 0 0 0) [[1]])) /\
    next_offset h = u64 (base_offset h + record_count h).
Proof.
  apply (validate_batch_sound (batch_bytes 5 (mkBatchMeta 2 false 0 0 0 0) [[1]])).
  - vm_compute. repeat constructor; discriminate.
  - vm_compute. reflexivity.
Defined.

(** C39: No corruption of up to four consecutive bytes that lies in the checksum field or
    behind it inside the batch survives validation: if the damaged bytes still validate,
    nothing was damaged. *)
Theorem corruption_detected (pre a b post : list Z) (h : BatchHeader) :
  bytes_ok (pre ++ a ++ post) -> bytes_ok b -> length a = length b -> zlen a <= 4 ->
  validate_batch (pre ++ a ++ post) = Ok tt -> decode_header (pre ++ a ++ post) = Ok h ->
  (16 <= zlen pre /\ zlen pre + zlen a <= total_bytes h) \/
  (12 <= zlen pre /\ zlen pre + zlen a <= 16) ->
  a <> b -> exists e, validate_batch (pre ++ b ++ post) = fail e.
Proof.
  intros Hb Hbb Hl H4 V D Hpos Hne.
  destruct (validate_batch (pre ++ b ++ post)) as [[]|e] eqn:V'; [|by exists e].
  exfalso. apply Hne. destruct Hpos as [[Hp Ht]|[Hp Ht]].
  - eapply corrupt_covered; eauto.
  - eapply corrupt_crc_field; eauto.
Qed.

Lemma corruption_detected_witness :
  let batch := batch_bytes 5 (mkBatchMeta 2 false 0 0 0 0) [[1; 2; 3]] in
  exists e, validate_batch (ztake 21 batch ++ [kAttrControl] ++ zdrop 22 batch) = fail e.
Proof.
  intros batch.
  apply (corruption_detected (ztake 21 batch) [0] [kAttrControl] (zdrop 22 batch)
    (value_or (decode_header batch) (mkBatchHeader 0 0 0 0 0 0 0 0 0 0 0 0))).
  - vm_compute. repeat constructor; discriminate.
  - vm_compute. repeat constructor; discriminate.
  - reflexivity.
  - vm_compute. discriminate.
  - vm_compute. reflexivity.
  - vm_compute. reflexivity.
  - left. vm_compute. split; discriminate.
  - discriminate.
Defined.

(** The log may stamp a different base offset on a valid batch without touching
    anything else: the batch still validates and only [base_offset] changes. *)
Theorem base_offset_rewritable (framed : list Z) (h : BatchHeader) (o : Z) :
  bytes_ok framed -> validate_batch framed = Ok tt -> decode_header framed = Ok h ->
  0 <= o < 2 ^ 64 ->
  validate_batch (store_u64_le o ++ zdrop 8 framed) = Ok tt /\
  decode_header (store_u64_le o ++ zdrop 8 framed) = Ok (h <| base_offset := o |>) /\
  zdrop 8 (store_u64_le o ++ zdrop 8 framed) = zdrop 8 framed.
Proof.
  intros Hb V D Ho. pose proof (decode_header_inv _ _ D) as (L & B & _).
  pose proof (rewrite_offset_decode framed o h Ho D) as D'. split_and!; [|done|apply zdrop_app; len].
  unfold validate_batch in *. rewrite D in V. rewrite D'.
  assert (total_bytes (h <| base_offset := o |>) = total_bytes h) as -> by done.
  assert (zlen (store_u64_le o ++ zdrop 8 framed) = zlen framed) as Hz by len.
  assert (length (store_u64_le o ++ zdrop 8 framed) = length framed) as Hz' by (unfold zlen in *; lia).
  rewrite Hz, Hz'. destruct (zlen framed <? total_bytes h) eqn:E; [done|]. bool_prop.
  assert (compute_crc (store_u64_le o ++ zdrop 8 framed) (total_bytes h) = compute_crc framed (total_bytes h)) as ->.
  { unfold compute_crc, kCrcCoveredFrom. rewrite !subslice_exact by lia. f_equal. unfold zsub. f_equal.
    rewrite zdrop_app_ge by len. rewrite zdrop_zdrop by len. by replace (8 + (16 - zlen (store_u64_le o))) with 16 by len. }
  rewrite rewrite_offset_walk by (done || unfold kBatchHeaderBytes; lia). exact V.
Qed.

Lemma base_offset_rewritable_witness :
  let batch := batch_bytes 5 (mkBatchMeta 2 false 0 0 0 0) [[1; 2; 3]] in
  let h := value_or (decode_header batch) (mkBatchHeader 0 0 0 0 0 0 0 0 0 0 0 0) in
  validate_batch (store_u64_le 900 ++ zdrop 8 batch) = Ok tt /\
  decode_header (store_u64_le 900 ++ zdrop 8 batch) = Ok (h <| base_offset := 900 |>) /\
  zdrop 8 (store_u64_le 900 ++ zdrop 8 batch) = zdrop 8 batch.
Proof.
  intros batch h. apply (base_offset_rewritable batch h 900).
  - vm_compute. repeat constructor; discriminate.
  - vm_compute. reflexivity.
  - vm_compute. reflexivity.
  - lia.
Defined.
