(* ===== verification/SparseIndex.v ===== *)
(** * The sparse offset index

    Models [src/src/storage/sparse_index.h]/[sparse_index.cpp]: the sorted vector of
    (relative offset, file position) pairs with its binary searches, and the codec of the
    never-fsynced sidecar file.

    The theorems: every operation keeps the index strictly increasing in both fields;
    [lookup] returns the greatest entry at or below its target; whatever bytes a crash
    leaves in the sidecar, [decode] yields a strictly increasing index that points inside
    the log, and on any prefix of an encoded index it yields a prefix of the entries. *)
From S2P Require Import Prelude Base Crc32c.

Record IndexEntry := mkIndexEntry { rel_offset : Z; file_pos : Z }.

#[export] Instance IndexEntry_eq_dec : EqDecision IndexEntry.
Proof. solve_decision. Defined.

Definition kIndexEntryBytes : Z := 8.
Definition kDefaultIndexIntervalBytes : Z := 4096.

Module SparseIndex.

(** [entries_] *)
Abbreviation t := (list IndexEntry) (only parsing).

Definition clear (ix : t) : t := [].
Definition empty (ix : t) : bool := match ix with [] => true | _ => false end.

Definition add (ix : t) (rel pos : Z) : t := ix ++ [mkIndexEntry rel pos].

Definition maybe_add (ix : t) (rel pos interval_bytes : Z) : t :=
  match last ix with
  | Some e =>
      if rel <=? rel_offset e then ix
      else if pos <=? file_pos e then ix
      else if u32 (pos - file_pos e) <? interval_bytes then ix
      else add ix rel pos
  | None => add ix rel pos
  end.

Definition lookup (ix : t) (rel : Z) : IndexEntry :=
  let it := partition_point (fun e => negb (rel <? rel_offset e)) ix in
  match it with
  | O => mkIndexEntry 0 0
  | S k => nth k ix (mkIndexEntry 0 0)
  end.

Definition truncate_from (ix : t) (pos : Z) : t :=
  take (partition_point (fun e => file_pos e <? pos) ix) ix.

Definition encode_entry (e : IndexEntry) : list Z :=
  store_u32_le (rel_offset e) ++ store_u32_le (file_pos e).

Definition encode (ix : t) (out : Buffer.t) : Buffer.t :=
  foldl (fun b e => Buffer.append_u32_le (Buffer.append_u32_le b (rel_offset e)) (file_pos e))
    out ix.

(** The [for] loop from iteration [i], with [n] iterations left. *)
Fixpoint decode_loop (bytes : list Z) (log_size : Z) (n : nat) (i : Z) (index : t) : t :=
  match n with
  | O => index
  | S n' =>
      let p := i * kIndexEntryBytes in
      let e := mkIndexEntry (load_u32_le bytes p) (load_u32_le bytes (p + 4)) in
      if log_size <=? file_pos e then index
      else
        match last index with
        | Some b =>
            if (rel_offset e <=? rel_offset b) || (file_pos e <=? file_pos b) then index
            else decode_loop bytes log_size n' (i + 1) (index ++ [e])
        | None => decode_loop bytes log_size n' (i + 1) (index ++ [e])
        end
  end.

Definition decode (bytes : list Z) (log_size : Z) : t :=
  decode_loop bytes log_size (Z.to_nat (zlen bytes / kIndexEntryBytes)) 0 [].

(** ** Specification vocabulary *)

Definition before (a b : IndexEntry) : Prop :=
  rel_offset a < rel_offset b /\ file_pos a < file_pos b.

(** Strictly increasing in both fields. *)
Definition sorted (ix : t) : Prop := StronglySorted before ix.

Definition entry_ok (e : IndexEntry) : Prop :=
  0 <= rel_offset e < 2 ^ 32 /\ 0 <= file_pos e < 2 ^ 32.

Definition index_bytes (ix : t) : list Z := concat (encode_entry <$> ix).

End SparseIndex.

Section IndexLemmas.
Import SparseIndex.

Lemma sorted_lookup ix i j a b :
  sorted ix -> (i < j)%nat -> ix !! i = Some a -> ix !! j = Some b -> before a b.
Proof.
  intros H. revert i j. induction H as [|x ix Hs IH Hx]; intros i j Hij Ha Hb; [done|].
  destruct i as [|i], j as [|j]; simpl in *; try lia.
  - injection Ha as <-. eapply Forall_lookup_1; eauto.
  - eapply IH; [|done|done]. lia.
Qed.

Lemma sorted_app_r ix e :
  sorted ix -> (forall b, last ix = Some b -> before b e) -> sorted (ix ++ [e]).
Proof.
  intros H. induction H as [|x ix Hs IH Hx]; intros Hl; simpl; [by repeat constructor|].
  constructor.
  - apply IH. intros b Hb. apply Hl. destruct ix; [done|]. by rewrite last_cons_cons.
  - apply Forall_app. split; [done|]. constructor; [|done].
    destruct (last ix) as [b|] eqn:Eb.
    + assert (before b e) by (apply Hl; rewrite last_cons, Eb; done).
      assert (before x b) by (eapply Forall_lookup_1; [exact Hx | rewrite last_lookup in Eb; exact Eb]).
      unfold before in *. lia.
    + apply last_None in Eb. subst. by apply Hl.
Qed.

Lemma sorted_take ix n : sorted ix -> sorted (take n ix).
Proof.
  intros H. revert n. induction H as [|x ix Hs IH Hx]; intros [|n]; simpl; try constructor.
  - apply IH. - by apply Forall_take.
Qed.

Lemma sorted_partitioned_rel ix rel : sorted ix -> partitioned (fun e => negb (rel <? rel_offset e)) ix.
Proof.
  intros H i j x y Hij Hx Hy Hp. destruct (decide (i = j)) as [->|]; [congruence|].
  pose proof (sorted_lookup ix i j x y H ltac:(lia) Hx Hy) as [L _].
  bool_prop. apply negb_true_iff, Z.ltb_ge. lia.
Qed.

Lemma sorted_partitioned_pos ix pos : sorted ix -> partitioned (fun e => file_pos e <? pos) ix.
Proof.
  intros H i j x y Hij Hx Hy Hp. destruct (decide (i = j)) as [->|]; [congruence|].
  pose proof (sorted_lookup ix i j x y H ltac:(lia) Hx Hy) as [_ L].
  bool_prop. apply Z.ltb_lt. lia.
Qed.

Lemma add_sorted ix rel pos :
  sorted ix -> (forall b, last ix = Some b -> rel_offset b < rel /\ file_pos b < pos) ->
  sorted (add ix rel pos).
Proof. intros H Hl. by apply sorted_app_r. Qed.

Lemma maybe_add_sorted ix rel pos interval : sorted ix -> sorted (maybe_add ix rel pos interval).
Proof.
  intros H. unfold maybe_add. destruct (last ix) as [e|] eqn:E.
  - cases_if; try done. apply add_sorted; [done|]. intros b Hb. rewrite E in Hb. injection Hb as <-. lia.
  - apply add_sorted; [done|]. intros b Hb. congruence.
Qed.

Lemma maybe_add_elem ix rel pos interval e :
  e ∈ maybe_add ix rel pos interval -> e ∈ ix \/ e = mkIndexEntry rel pos.
Proof.
  unfold maybe_add, add. intros H. destruct (last ix); [repeat case_match|]; auto;
    apply elem_of_app in H; rewrite list_elem_of_singleton in H; tauto.
Qed.

Lemma truncate_from_spec ix pos :
  sorted ix ->
  truncate_from ix pos = take (prefix_count (fun e => file_pos e <? pos) ix) ix.
Proof. intros. unfold truncate_from. by rewrite partition_point_spec by (by apply sorted_partitioned_pos). Qed.

Lemma truncate_from_sorted ix pos : sorted ix -> sorted (truncate_from ix pos).
Proof. intros. by apply sorted_take. Qed.

Lemma truncate_from_elem ix pos e :
  sorted ix -> e ∈ truncate_from ix pos <-> e ∈ ix /\ file_pos e < pos.
Proof.
  intros H. rewrite truncate_from_spec by done. set (p := fun e => file_pos e <? pos). split.
  - intros He. apply list_elem_of_lookup in He as [i Hi]. apply lookup_take_Some in Hi as [Hi Hlt].
    split; [apply list_elem_of_lookup; eauto|].
    pose proof (prefix_count_true p ix i e Hlt Hi) as Hp. unfold p in Hp. bool_prop. lia.
  - intros [He Hp]. apply list_elem_of_lookup in He as [i Hi]. apply list_elem_of_lookup.
    exists i. apply lookup_take_Some. split; [done|].
    apply Nat.nle_gt. intros Hle. pose proof (lookup_lt_Some _ _ _ Hi).
    assert (is_Some (ix !! prefix_count p ix)) as [y Hy] by (apply lookup_lt_is_Some; lia).
    pose proof (prefix_count_false p ix y Hy) as Hf.
    pose proof (sorted_partitioned_pos ix pos H _ _ _ _ Hle Hy Hi) as X. fold p in X.
    rewrite X in Hf; [done|]. unfold p. by apply Z.ltb_lt.
Qed.

Lemma truncate_from_lt ix e :
  sorted ix -> last ix = Some e -> truncate_from ix (file_pos e) = removelast ix.
Proof.
  intros H Hl. assert (exists ix', ix = ix' ++ [e]) as [ix' ->].
  { apply last_Some in Hl as [l' ->]. by exists l'. }
  rewrite removelast_last. unfold truncate_from.
  rewrite partition_point_spec by (by apply sorted_partitioned_pos).
  rewrite (prefix_count_unique _ _ (length ix')).
  - by rewrite take_app_length.
  - rewrite length_app. simpl. lia.
  - intros i x Hi Hx. assert ((ix' ++ [e]) !! length ix' = Some e) as He.
    { by rewrite lookup_app_r, Nat.sub_diag by lia. }
    pose proof (sorted_lookup _ _ _ _ _ H Hi Hx He) as [_ L]. by apply Z.ltb_lt.
  - intros x Hx. rewrite lookup_app_r, Nat.sub_diag in Hx by lia. injection Hx as <-.
    apply Z.ltb_irrefl.
Qed.

(** [lookup] answers with the greatest entry at or below the target. *)
Lemma lookup_spec ix rel :
  sorted ix ->
  (exists e, lookup ix rel = e /\ e ∈ ix /\ rel_offset e <= rel /\
     forall e', e' ∈ ix -> rel_offset e' <= rel -> rel_offset e' <= rel_offset e) \/
  (lookup ix rel = mkIndexEntry 0 0 /\ forall e', e' ∈ ix -> rel < rel_offset e').
Proof.
  intros H. unfold lookup. rewrite partition_point_spec by (by apply sorted_partitioned_rel).
  set (p := fun e => negb (rel <? rel_offset e)).
  assert (forall e', e' ∈ ix -> rel_offset e' <= rel ->
    exists i, (i < prefix_count p ix)%nat /\ ix !! i = Some e') as Hbelow.
  { intros e' He Hr. apply list_elem_of_lookup in He as [i Hi]. exists i. split; [|done].
    apply Nat.nle_gt. intros Hle. pose proof (lookup_lt_Some _ _ _ Hi).
    assert (is_Some (ix !! prefix_count p ix)) as [y Hy] by (apply lookup_lt_is_Some; lia).
    pose proof (prefix_count_false p ix y Hy) as Hf.
    pose proof (sorted_partitioned_rel ix rel H _ _ _ _ Hle Hy Hi) as X. fold p in X.
    rewrite X in Hf; [done|]. unfold p. by apply negb_true_iff, Z.ltb_ge. }
  destruct (prefix_count p ix) as [|k] eqn:K.
  - right. split; [done|]. intros e' He. apply Z.nle_gt. intros Hr.
    destruct (Hbelow e' He Hr) as (i & Hi & _). lia.
  - left. pose proof (prefix_count_le p ix).
    assert (is_Some (ix !! k)) as [e He] by (apply lookup_lt_is_Some; lia).
    exists e. rewrite (nth_lookup_Some _ _ _ _ He). split_and!; [done | apply list_elem_of_lookup; eauto | |].
    + pose proof (prefix_count_true p ix k e ltac:(lia) He) as Hp. unfold p in Hp. bool_prop. lia.
    + intros e' He' Hr. destruct (Hbelow e' He' Hr) as (i & Hi & Hx).
      destruct (decide (i = k)) as [->|]; [simplify_eq; lia|].
      pose proof (sorted_lookup _ i k _ _ H ltac:(lia) Hx He) as [L _]. lia.
Qed.

(** ** The sidecar codec *)

Lemma zlen_encode_entry e : zlen (encode_entry e) = 8.
Proof. unfold encode_entry. len. Qed.

Lemma zlen_index_bytes ix : zlen (index_bytes ix) = 8 * zlen ix.
Proof.
  induction ix as [|e ix IH]; [done|]. change (index_bytes (e :: ix)) with (encode_entry e ++ index_bytes ix).
  rewrite zlen_app, zlen_encode_entry, zlen_cons. lia.
Qed.

Lemma encode_slice ix out :
  Buffer.wf out ->
  Buffer.wf (encode ix out) /\ Buffer.slice (encode ix out) = Buffer.slice out ++ index_bytes ix.
Proof.
  revert out. induction ix as [|e ix IH]; intros out Hw; simpl.
  - unfold index_bytes. simpl. by rewrite app_nil_r.
  - unfold Buffer.append_u32_le.
    destruct (IH (Buffer.append (Buffer.append out (store_u32_le (rel_offset e))) (store_u32_le (file_pos e))))
      as [W S]; [by repeat apply append_wf|]. split; [done|].
    rewrite S, !append_slice by (by repeat apply append_wf).
    change (index_bytes (e :: ix)) with (encode_entry e ++ index_bytes ix).
    unfold encode_entry. by rewrite <- !app_assoc.
Qed.

Lemma decode_loop_sound bytes log_size n : forall i index,
  sorted index -> Forall (fun e => file_pos e < log_size) index ->
  let r := decode_loop bytes log_size n i index in
  sorted r /\ Forall (fun e => file_pos e < log_size) r /\ index `prefix_of` r.
Proof.
  induction n as [|n IH]; intros i index Hs Hf; cbn [decode_loop]; cbv zeta; [done|].
  set (e := mkIndexEntry _ _). destruct (log_size <=? file_pos e) eqn:E; [by split_and!|]. bool_prop.
  assert (forall b, last index = Some b -> before b e \/ (rel_offset e <=? rel_offset b) || (file_pos e <=? file_pos b) = true)
    as Hb.
  { intros b _. destruct ((rel_offset e <=? rel_offset b) || (file_pos e <=? file_pos b)) eqn:E'; [by right|].
    left. apply orb_false_iff in E' as [E1 E2]. bool_prop. split; lia. }
  destruct (last index) as [b|] eqn:L.
  - destruct ((_ <=? _) || _) eqn:E3; [done|].
    destruct (IH (i + 1) (index ++ [e])) as (S & F & P).
    + apply sorted_app_r; [done|]. intros b' Hb'. rewrite L in Hb'. injection Hb' as <-.
      destruct (Hb b eq_refl); [done | congruence].
    + apply Forall_app. split; [done|]. by constructor.
    + split_and!; try done. by eapply prefix_app_l.
  - destruct (IH (i + 1) (index ++ [e])) as (S & F & P).
    + apply sorted_app_r; [done|]. intros b' Hb'. congruence.
    + apply Forall_app. split; [done|]. by constructor.
    + split_and!; try done. by eapply prefix_app_l.
Qed.

Lemma load_entry pre e post :
  entry_ok e ->
  load_u32_le (pre ++ encode_entry e ++ post) (zlen pre) = rel_offset e /\
  load_u32_le (pre ++ encode_entry e ++ post) (zlen pre + 4) = file_pos e.
Proof.
  intros [H1 H2]. unfold encode_entry. rewrite <- app_assoc. split.
  - rewrite load_u32_store_at by done. by apply wrap_small.
  - rewrite app_assoc, load_u32_store_at by len. by apply wrap_small.
Qed.

Lemma decode_loop_encoded ix : forall done_ tail log_size i,
  sorted (done_ ++ ix) -> Forall entry_ok ix -> Forall (fun e => file_pos e < log_size) ix ->
  i = zlen done_ ->
  decode_loop (index_bytes done_ ++ index_bytes ix ++ tail) log_size (length ix) i done_ = done_ ++ ix.
Proof.
  induction ix as [|e ix IH]; intros done_ tail log_size i Hs Hok Hlt ->; simpl; [by rewrite app_nil_r|].
  inversion Hok as [|? ? Hok1 Hok2]; subst. inversion Hlt as [|? ? Hlt1 Hlt2]; subst.
  change (index_bytes (e :: ix)) with (encode_entry e ++ index_bytes ix).
  unfold kIndexEntryBytes.
  replace (zlen done_ * 8) with (zlen (index_bytes done_)) by (rewrite zlen_index_bytes; lia).
  rewrite <- app_assoc.
  destruct (load_entry (index_bytes done_) e (index_bytes ix ++ tail) Hok1) as [-> ->].
  simpl file_pos. replace (log_size <=? file_pos e) with false by (symmetry; apply Z.leb_gt; lia).
  assert (decode_loop (index_bytes done_ ++ encode_entry e ++ index_bytes ix ++ tail) log_size (length ix)
    (zlen done_ + 1) (done_ ++ [e]) = done_ ++ e :: ix) as Hrec.
  { specialize (IH (done_ ++ [e]) tail log_size (zlen done_ + 1)).
    rewrite <- app_assoc in IH. simpl in IH. rewrite <- IH; try done.
    - f_equal. unfold index_bytes. rewrite fmap_app, concat_app. simpl.
      by rewrite app_nil_r, <- app_assoc.
    - len. }
  destruct e as [r q]; simpl in *. destruct (last done_) as [b|] eqn:L; [|exact Hrec].
  assert (before b (mkIndexEntry r q)) as [L1 L2].
  { rewrite last_lookup in L. pose proof (lookup_lt_Some _ _ _ L).
    eapply (sorted_lookup _ (pred (length done_)) (length done_)); [exact Hs | lia | |].
    - by rewrite lookup_app_l by lia. - by rewrite lookup_app_r, Nat.sub_diag by lia. }
  simpl in *. replace (r <=? rel_offset b) with false by (symmetry; apply Z.leb_gt; lia).
  replace (q <=? file_pos b) with false by (symmetry; apply Z.leb_gt; lia). exact Hrec.
Qed.

Lemma index_bytes_app a b : index_bytes (a ++ b) = index_bytes a ++ index_bytes b.
Proof. unfold index_bytes. by rewrite fmap_app, concat_app. Qed.

Lemma sorted_prefix a b : sorted (a ++ b) -> sorted a.
Proof. intros H. rewrite <- (take_app_length a b). by apply sorted_take. Qed.

(** A sidecar cut anywhere decodes to the entries that survived whole. *)
Lemma decode_prefix ix k log_size :
  sorted ix -> Forall entry_ok ix -> Forall (fun e => file_pos e < log_size) ix ->
  0 <= k <= zlen (index_bytes ix) ->
  decode (ztake k (index_bytes ix)) log_size = ztake (k / 8) ix.
Proof.
  intros Hs Hok Hlt Hk. rewrite zlen_index_bytes in Hk.
  assert (0 <= k / 8 <= zlen ix) as Hd by dmlia.
  assert (ix = ztake (k / 8) ix ++ zdrop (k / 8) ix) as E by (by rewrite ztake_zdrop).
  set (a := ztake (k / 8) ix) in *. set (c := zdrop (k / 8) ix) in *.
  assert (zlen a = k / 8) as La by (unfold a; len).
  assert (ztake k (index_bytes ix) =
    index_bytes a ++ ztake (k - 8 * (k / 8)) (index_bytes c)) as ->.
  { rewrite E, index_bytes_app, ztake_app_ge by (rewrite zlen_index_bytes, La; dmlia).
    by rewrite zlen_index_bytes, La. }
  set (tail := ztake _ (index_bytes c)).
  assert (zlen tail < 8) by (unfold tail; rewrite zlen_ztake; dmlia).
  unfold decode, kIndexEntryBytes.
  replace (Z.to_nat _) with (length a).
  2:{ rewrite zlen_app, zlen_index_bytes, La. pose proof (zlen_nonneg tail). unfold zlen in La.
      replace ((8 * (k / 8) + zlen tail) / 8) with (k / 8) by dmlia. lia. }
  rewrite E in Hs, Hok, Hlt. apply Forall_app in Hok as [Hok _]. apply Forall_app in Hlt as [Hlt _].
  by apply (decode_loop_encoded a [] tail log_size 0 (sorted_prefix _ _ Hs) Hok Hlt).
Qed.

End IndexLemmas.

(** ** Properties *)

(** [lookup] on a well-formed index returns the greatest entry whose offset is at or
    below the target, and the segment start when there is none, so the scan that follows
    never starts past the batch it looks for. *)
Theorem index_lookup_greatest (ix : SparseIndex.t) (rel : Z) :
  SparseIndex.sorted ix -> 0 <= rel ->
  rel_offset (SparseIndex.lookup ix rel) <= rel /\
  (SparseIndex.lookup ix rel ∈ ix \/ SparseIndex.lookup ix rel = mkIndexEntry 0 0) /\
  forall e, e ∈ ix -> rel_offset e <= rel -> rel_offset e <= rel_offset (SparseIndex.lookup ix rel).
Proof.
  intros H Hr. destruct (lookup_spec ix rel H) as [(e & -> & He & Hle & Hmax) | [-> Hnone]].
  - split_and!; auto.
  - split_and!; simpl; [lia | by right | intros e He Hle]. specialize (Hnone e He). lia.
Qed.

Lemma index_lookup_greatest_witness :
  let ix := [mkIndexEntry 0 0; mkIndexEntry 40 4100; mkIndexEntry 95 9000] in
  rel_offset (SparseIndex.lookup ix 60) <= 60 /\
  (SparseIndex.lookup ix 60 ∈ ix \/ SparseIndex.lookup ix 60 = mkIndexEntry 0 0) /\
  forall e, e ∈ ix -> rel_offset e <= 60 -> rel_offset e <= rel_offset (SparseIndex.lookup ix 60).
Proof.
  intros ix. apply (index_lookup_greatest ix 60); [|lia].
  repeat constructor; vm_compute; done.
Defined.

(** Whatever bytes are in the sidecar, the decoded index is strictly increasing in
    both fields and points inside the log; and when the bytes are a prefix of an encoded
    index, cut anywhere, the result is the entries that survived whole. *)
Theorem index_decode_trustworthy (bytes : list Z) (log_size : Z) :
  (SparseIndex.sorted (SparseIndex.decode bytes log_size) /\
   Forall (fun e => file_pos e < log_size) (SparseIndex.decode bytes log_size)) /\
  (forall (ix : SparseIndex.t) (k : Z),
     SparseIndex.sorted ix -> Forall SparseIndex.entry_ok ix ->
     Forall (fun e => file_pos e < log_size) ix ->
     0 <= k <= zlen (SparseIndex.index_bytes ix) ->
     SparseIndex.decode (ztake k (SparseIndex.index_bytes ix)) log_size = ztake (k / 8) ix).
Proof.
  split.
  - destruct (decode_loop_sound bytes log_size (Z.to_nat (zlen bytes / kIndexEntryBytes)) 0 []) as (S & F & _);
      [constructor | done | done].
  - intros ix k Hs Hok Hlt. by apply decode_prefix.
Qed.

(** Recovery's [truncate_from] and the append path's [maybe_add] keep the index
    strictly increasing, and truncation keeps exactly the entries below the cut. *)
Theorem index_maintenance (ix : SparseIndex.t) (rel pos interval : Z) :
  SparseIndex.sorted ix ->
  SparseIndex.sorted (SparseIndex.maybe_add ix rel pos interval) /\
  SparseIndex.sorted (SparseIndex.truncate_from ix pos) /\
  (forall e, e ∈ SparseIndex.truncate_from ix pos <-> e ∈ ix /\ file_pos e < pos).
Proof.
  intros H. split_and!; [by apply maybe_add_sorted | by apply truncate_from_sorted |].
  intros e. by apply truncate_from_elem.
Qed.

Lemma index_maintenance_witness :
  let ix := [mkIndexEntry 0 0; mkIndexEntry 40 4100] in
  SparseIndex.sorted (SparseIndex.maybe_add ix 90 9000 4096) /\
  SparseIndex.sorted (SparseIndex.truncate_from ix 9000) /\
  (forall e, e ∈ SparseIndex.truncate_from ix 9000 <-> e ∈ ix /\ file_pos e < 9000).
Proof.
  intros ix. apply (index_maintenance ix 90 9000 4096). repeat constructor; vm_compute; done.
Defined.
