(* ===== verification/Disk.v ===== *)
(** * The disk behind the io seam

    Models [src/src/io/disk.h].  The abstract class [io::Disk] is the typeclass [Disk.t]
    over a machine state [D]: every call returns its result and the state it leaves.  A
    read into a caller's buffer returns the bytes it copied.

    [Disk.laws] is what the storage layer relies on: there is a file system of visible
    bytes behind the calls, a call either has its POSIX effect on it or fails, a short read
    means end of file, a failing write touches nothing in front of its offset, and bytes
    are [settled] once [fsync] returned and until somebody writes over them or truncates
    them away.  A call on a handle whose file is gone is promised nothing.  [Disk.crash_laws] adds what a power cut leaves behind.  The storage theorems
    are proved against these interfaces; [SimDisk.v] discharges them for the simulated
    disk, [RealDisk.v] the first for the disk of the process. *)
From S2P Require Import Prelude Base.
From Stdlib Require Export Ascii.
From Stdlib Require String.

(** [std::string] *)
Abbreviation chars := (list ascii).

Definition lit (s : string) : chars := String.list_ascii_of_string s.

Definition slash : ascii := "/"%char.

(** [std::string]'s [operator<=]: bytes compared as unsigned characters. *)
Definition chars_le (a b : chars) : Prop :=
  String.le (String.string_of_list_ascii a) (String.string_of_list_ascii b).

#[export] Instance chars_le_dec : RelDecision chars_le.
Proof. intros a b. apply _. Defined.

(** The [join] of [storage/segment.cpp] and [storage/log.cpp]. *)
Definition join (dir name : chars) : chars :=
  match last dir with
  | Some c => if bool_decide (c = slash) then dir ++ name else (dir ++ [slash]) ++ name
  | None => dir ++ name
  end.

Definition kInvalidFile : Z := 2 ^ 64 - 1.

Inductive OpenMode := kRead | kReadWrite | kCreate.

#[export] Instance OpenMode_eq_dec : EqDecision OpenMode.
Proof. solve_decision. Defined.

(** Writing [data] into a file at [off]: a gap past the end reads as zeros, and writing
    nothing extends nothing. *)
Definition overwrite (image : list Z) (off : Z) (data : list Z) : list Z :=
  match data with
  | [] => image
  | _ => splice (image ++ zrep (off + zlen data - zlen image) 0) off data
  end.

(** [resize(n, 0)] *)
Definition resize (image : list Z) (n : Z) : list Z :=
  ztake n image ++ zrep (n - zlen image) 0.

Module Disk.

(** [io::Disk].  [pread file n offset] reads into a buffer of [n] bytes. *)
Class t (D : Type) := {
  open : chars -> OpenMode -> D -> Result Z * D;
  close : Z -> D -> D;
  pwrite : Z -> list Z -> Z -> D -> Result Z * D;
  pread : Z -> Z -> Z -> D -> Result (list Z) * D;
  fsync : Z -> D -> Status * D;
  truncate : Z -> Z -> D -> Status * D;
  size : Z -> D -> Result Z * D;
  remove : chars -> D -> Status * D;
  make_directories : chars -> D -> Status * D;
  list_directory : chars -> D -> Result (list chars) * D }.

(** What the calls are about. *)
Class view (D : Type) := {
  good : D -> Prop;                            (* the implementation's own invariant *)
  files : D -> gmap chars (list Z);            (* the visible bytes of every file *)
  handles : D -> gmap Z (chars * OpenMode);    (* the open files *)
  settled : D -> chars -> list Z -> Prop }.    (* leading bytes that a crash cannot take *)

Section Frames.
Context {D : Type} `{view D}.

(** Nothing visible happened. *)
Definition same (d d' : D) : Prop :=
  good d' /\ files d' = files d /\ handles d' = handles d /\
  forall p bs, settled d p bs -> settled d' p bs.

(** Only the file [p] may have changed. *)
Definition only (p : chars) (d d' : D) : Prop :=
  good d' /\ handles d' = handles d /\
  (forall q, q <> p -> files d' !! q = files d !! q) /\
  (forall q bs, q <> p -> settled d q bs -> settled d' q bs).

(** The same, and the handles on [p] may be handles on nothing now. *)
Definition without (p : chars) (d d' : D) : Prop :=
  good d' /\ (forall f q m, q <> p -> handles d !! f = Some (q, m) -> handles d' !! f = Some (q, m)) /\
  (forall q, q <> p -> files d' !! q = files d !! q) /\
  (forall q bs, q <> p -> settled d q bs -> settled d' q bs).

(** The handle [f] is open on the file [p], which holds [b]. *)
Definition opened (d : D) (f : Z) (p : chars) (b : list Z) : Prop :=
  (exists m, handles d !! f = Some (p, m)) /\ files d !! p = Some b.

(** A path without a trailing slash, and a directory's: the root keeps its slash. *)
Definition file_path (p : chars) : Prop := last p <> Some slash.
Definition dir_path (p : chars) : Prop := file_path p \/ p = [slash].

End Frames.

Class laws (D : Type) `{t D} `{view D} : Prop := {
  file_bytes d p b : good d -> files d !! p = Some b -> bytes_ok b /\ zlen b < 2 ^ 64;
  settled_prefix d p bs : good d -> settled d p bs -> exists b, files d !! p = Some b /\ bs `prefix_of` b;
  settled_shorter d p bs cs : cs `prefix_of` bs -> settled d p bs -> settled d p cs;

  open_law d p m r d' : good d -> file_path p -> open p m d = (r, d') ->
    match r with
    | fail _ => same d d'
    | Ok f =>
        handles d !! f = None /\ good d' /\ handles d' = <[f := (p, m)]> (handles d) /\
        (forall q bs, settled d q bs -> settled d' q bs) /\
        (is_Some (files d !! p) /\ files d' = files d \/
         m = kCreate /\ files d !! p = None /\ files d' = <[p := []]> (files d) /\ settled d' p [])
    end;

  close_law d f : good d ->
    good (close f d) /\ files (close f d) = files d /\ handles (close f d) = delete f (handles d) /\
    forall p bs, settled d p bs -> settled (close f d) p bs;

  pwrite_law d f p b data off r d' :
    good d -> opened d f p b -> 0 <= off < 2 ^ 64 -> bytes_ok data -> zlen data < 2 ^ 64 ->
    pwrite f data off d = (r, d') ->
    (exists e, r = fail e /\ same d d') \/
    exists k, only p d d' /\ 0 <= k <= zlen data /\
      files d' !! p = Some (overwrite b off (ztake k data)) /\
      (forall bs, settled d p bs -> zlen bs <= off -> settled d' p bs) /\
      (forall n, r = Ok n -> n = k);

  pread_law d f p b n off r d' :
    good d -> opened d f p b -> 0 <= n -> 0 <= off < 2 ^ 64 -> pread f n off d = (r, d') ->
    same d d' /\ forall bs, r = Ok bs -> bs = zsub off n b;

  (* a failure carries an error code *)
  pread_error d f n off d' : pread f n off d <> (fail kNone, d');

  fsync_law d f p b r d' : good d -> opened d f p b -> fsync f d = (r, d') ->
    same d d' /\ (r = Ok tt -> settled d' p b);

  truncate_law d f p b n r d' : good d -> opened d f p b -> 0 <= n < 2 ^ 64 -> truncate f n d = (r, d') ->
    match r with
    | fail _ => same d d'
    | Ok _ => only p d d' /\ files d' !! p = Some (resize b n) /\
        (forall bs, settled d p bs -> zlen bs <= n -> settled d' p bs)
    end;

  size_law d f p b r d' : good d -> opened d f p b -> size f d = (r, d') ->
    same d d' /\ forall n, r = Ok n -> n = zlen b;

  remove_law d p r d' : good d -> file_path p -> remove p d = (r, d') ->
    match r with
    | fail _ => same d d'
    | Ok _ => without p d d' /\ files d' !! p = None
    end;

  make_directories_law d p r d' : good d -> make_directories p d = (r, d') -> same d d';

  list_directory_law d dir r d' : good d -> dir_path dir -> list_directory dir d = (r, d') ->
    same d d' /\
    forall names, r = Ok names -> NoDup names /\
      forall name, name <> [] -> slash ∉ name -> is_Some (files d !! join dir name) -> name ∈ names }.

(** Three things the contract does not promise, and which a theorem that needs them assumes.
    A file that is there can be removed. *)
Class removes (D : Type) `{t D} `{view D} : Prop := {
  remove_there d p : good d -> file_path p -> is_Some (files d !! p) -> (remove p d).1 = Ok tt }.

(** A steady disk: besides, a write to an open file that fails changes nothing and one that
    succeeds is complete, and the size of an open file is known. *)
Class steady (D : Type) `{t D} `{view D} : Prop := {
  #[global] steady_removes :: removes D;
  steady_pwrite d f p b data off r d' :
    good d -> opened d f p b -> 0 <= off < 2 ^ 64 -> bytes_ok data -> zlen data < 2 ^ 64 ->
    pwrite f data off d = (r, d') ->
    match r with fail _ => same d d' | Ok n => n = zlen data end;
  steady_size d f p b : good d -> opened d f p b -> (size f d).1 = Ok (zlen b) }.

(** A power cut, as the machine comes back up: every handle is gone, every file still there,
    and what was settled still is; a file settled to its end comes back as it was. *)
Class crash_laws (D : Type) `{view D} (crashed : D -> D -> Prop) : Prop := {
  crash_law d d' : good d -> crashed d d' ->
    good d' /\ handles d' = ∅ /\ dom (files d') = dom (files d) /\
    (forall p bs, settled d p bs -> settled d' p bs) /\
    forall p b, settled d p b -> files d !! p = Some b -> files d' !! p = Some b }.

End Disk.

(** ** File images, byte by byte *)

Lemma list_ext_at (a b : list Z) :
  zlen a = zlen b -> (forall i, 0 <= i < zlen a -> at_ a i = at_ b i) -> a = b.
Proof.
  unfold zlen. intros L E. apply (nth_ext _ _ 0 0); [lia|].
  intros n Hn. specialize (E (Z.of_nat n)). unfold at_ in E. rewrite Nat2Z.id in E. apply E. lia.
Qed.

Lemma at_beyond (l : list Z) i : zlen l <= i -> at_ l i = 0.
Proof. unfold zlen, at_. intros. apply nth_overflow. lia. Qed.

Lemma at_zrep n i : at_ (zrep n 0) i = 0.
Proof.
  unfold at_, zrep. generalize (Z.to_nat i). induction (Z.to_nat n); intros [|k]; simpl; auto.
Qed.

Lemma zlen_resize b n : 0 <= n -> zlen (resize b n) = n.
Proof. intros. unfold resize. len. Qed.

Lemma at_resize b n i : 0 <= n -> 0 <= i < n -> at_ (resize b n) i = at_ b i.
Proof.
  intros. unfold resize. destruct (Z_lt_dec i (zlen b)).
  - rewrite at_app_l by len. by rewrite at_ztake by lia.
  - rewrite at_app_r by len. by rewrite at_zrep, at_beyond by lia.
Qed.

Lemma zlen_overwrite b off data :
  0 <= off -> zlen (overwrite b off data) = if zlen data =? 0 then zlen b else Z.max (zlen b) (off + zlen data).
Proof.
  intros. unfold overwrite. destruct data as [|x data]; [done|].
  replace (zlen (x :: data) =? 0) with false by (symmetry; apply Z.eqb_neq; len).
  rewrite zlen_splice; len.
Qed.

Lemma at_splice l off data i :
  0 <= off <= zlen l -> 0 <= i ->
  at_ (splice l off data) i = if (off <=? i) && (i <? off + zlen data) then at_ data (i - off) else at_ l i.
Proof.
  intros. unfold splice.
  assert (zlen (ztake off l) = off) as L by len.
  destruct (Z_lt_dec i off).
  - replace (off <=? i) with false by (symmetry; apply Z.leb_gt; lia). simpl.
    rewrite at_app_l by len. by rewrite at_ztake by lia.
  - replace (off <=? i) with true by (symmetry; apply Z.leb_le; lia). simpl.
    rewrite at_app_r, L by lia. destruct (i <? off + zlen data) eqn:E; bool_prop.
    + by rewrite at_app_l by lia.
    + rewrite at_app_r by lia. rewrite at_zdrop by len. f_equal. lia.
Qed.

Lemma at_overwrite b off data i :
  0 <= off -> 0 <= i ->
  at_ (overwrite b off data) i = if (off <=? i) && (i <? off + zlen data) then at_ data (i - off) else at_ b i.
Proof.
  intros. unfold overwrite. destruct data as [|x data].
  - rewrite zlen_nil, Z.add_0_r. destruct (off <=? i) eqn:E1; [|done]. simpl.
    replace (i <? off) with false; [done|]. symmetry. apply Z.ltb_ge. bool_prop. lia.
  - rewrite at_splice by len. destruct (_ && _) eqn:E; [done|].
    destruct (Z_lt_dec i (zlen b)); [by rewrite at_app_l by lia|].
    by rewrite at_app_r, at_zrep, at_beyond by lia.
Qed.

Lemma prefix_at (a b : list Z) :
  a `prefix_of` b <-> zlen a <= zlen b /\ forall i, 0 <= i < zlen a -> at_ b i = at_ a i.
Proof.
  split.
  - intros [k ->]. split; [len|]. intros. by apply at_app_l.
  - intros [L E]. exists (zdrop (zlen a) b). apply list_ext_at; [len|].
    intros i Hi. destruct (Z_lt_dec i (zlen a)).
    + rewrite at_app_l by lia. apply E. lia.
    + rewrite at_app_r by lia. rewrite at_zdrop by len. f_equal. lia.
Qed.

Lemma prefix_overwrite bs b off data :
  bs `prefix_of` b -> zlen bs <= off -> bs `prefix_of` overwrite b off data.
Proof.
  rewrite !prefix_at. intros [L E] Ho. pose proof (zlen_nonneg bs).
  rewrite zlen_overwrite by lia. split; [destruct (_ =? 0); lia|].
  intros i Hi. rewrite at_overwrite by lia. replace (off <=? i) with false; [by apply E|].
  symmetry. apply Z.leb_gt. lia.
Qed.

Lemma prefix_resize bs b n : bs `prefix_of` b -> zlen bs <= n -> bs `prefix_of` resize b n.
Proof.
  rewrite !prefix_at. intros [L E] Hn. pose proof (zlen_nonneg bs). rewrite zlen_resize by lia.
  split; [lia|]. intros i Hi. rewrite at_resize by lia. by apply E.
Qed.

Lemma bytes_ok_zrep n : bytes_ok (zrep n 0).
Proof. unfold zrep. apply Forall_replicate. unfold byte_ok. lia. Qed.

Lemma bytes_ok_splice l off data : bytes_ok l -> bytes_ok data -> bytes_ok (splice l off data).
Proof.
  intros. unfold splice, ztake, zdrop. repeat (apply Forall_app; split); auto using Forall_take, Forall_drop.
Qed.

Lemma bytes_ok_resize b n : bytes_ok b -> bytes_ok (resize b n).
Proof. intros. unfold resize. apply Forall_app. split; [by apply Forall_take | apply bytes_ok_zrep]. Qed.

Lemma bytes_ok_overwrite b off data : bytes_ok b -> bytes_ok data -> bytes_ok (overwrite b off data).
Proof.
  intros Hb Hd. unfold overwrite. destruct data; [done|]. apply bytes_ok_splice; [|done].
  apply Forall_app. split; [done | apply bytes_ok_zrep].
Qed.

Lemma resize_cut b n : n <= zlen b -> resize b n = ztake n b.
Proof. intros. unfold resize, zrep. replace (Z.to_nat (n - zlen b)) with O by lia. by rewrite app_nil_r. Qed.

Lemma opened_fun {D} `{Disk.view D} (d : D) f p b q c :
  Disk.opened d f p b -> Disk.opened d f q c -> p = q /\ b = c.
Proof. intros [[m1 M1] F1] [[m2 M2] F2]. rewrite M1 in M2. injection M2 as <- <-. split; congruence. Qed.
