(* ===== verification/Text.v ===== *)
(** * Numbers and strings

    The functions of the C and C++ libraries that the programs of [main], [tools] and [bench]
    read their arguments and files with: [strtoul] and its like, [std::to_string], [find] and
    [rfind].  A [char*] holds no zero byte. *)
From S2P Require Import Prelude Base Disk.
From stdpp Require Import pretty.

#[local] Open Scope Z_scope.

Definition code (c : ascii) : Z := Z.of_N (N_of_ascii c).

Module Strto.

Definition is_space (c : ascii) : bool := (code c =? 32) || ((9 <=? code c) && (code c <=? 13)).

(** The value of a digit, if it is one in this base. *)
Definition digit (base : Z) (c : ascii) : option Z :=
  let n := code c in
  let v :=
    if (48 <=? n) && (n <=? 57) then n - 48
    else if (97 <=? n) && (n <=? 122) then n - 87
    else if (65 <=? n) && (n <=? 90) then n - 55
    else base in
  if v <? base then Some v else None.

Fixpoint skip_space (s : chars) : chars :=
  match s with
  | c :: rest => if is_space c then skip_space rest else s
  | [] => []
  end.

(** The digits in front, none at all being 0. *)
Fixpoint digits (base : Z) (s : chars) (acc : Z) : Z :=
  match s with
  | c :: rest => match digit base c with Some d => digits base rest (acc * base + d) | None => acc end
  | [] => acc
  end.

(** Base 0 is 16 behind [0x], 8 behind [0], and 10 otherwise. *)
Definition magnitude (base : Z) (s : chars) : Z :=
  if base =? 0
  then
    match s with
    | "0"%char :: x :: (h :: _) as rest =>
        if (bool_decide (x = "x"%char) || bool_decide (x = "X"%char)) && bool_decide (is_Some (digit 16 h))
        then digits 16 (drop 2 s) 0 else digits 8 s 0
    | "0"%char :: _ => digits 8 s 0
    | _ => digits 10 s 0
    end
  else digits base s 0.

(** The sign and the magnitude. *)
Definition scan (base : Z) (s : chars) : bool * Z :=
  match skip_space s with
  | [] => (false, 0)
  | c :: rest =>
      if bool_decide (c = "-"%char) then (true, magnitude base rest)
      else if bool_decide (c = "+"%char) then (false, magnitude base rest)
      else (false, magnitude base (c :: rest))
  end.

(** [strtoul] and [strtoull], which are one on a machine with 64-bit [long] *)
Definition strtoul (base : Z) (s : chars) : Z :=
  let '(negative, n) := scan base s in
  if 2 ^ 64 <=? n then 2 ^ 64 - 1 else if negative then u64 (- n) else n.

Definition strtoll (base : Z) (s : chars) : Z :=
  let '(negative, n) := scan base s in
  if negative then Z.max (- 2 ^ 63) (- n) else Z.min (2 ^ 63 - 1) n.

End Strto.
Import Strto.

(** [std::to_string] *)
Definition to_chars (n : Z) : chars := lit (pretty n).

(** The bytes of a string. *)
Definition bytes_of (s : chars) : list Z := map code s.

Definition chars_of (bytes : list Z) : chars := map (fun b => ascii_of_N (Z.to_N b)) bytes.

(** [s.resize(size, c)] on bytes. *)
Definition resize_with (c : Z) (size : Z) (s : list Z) : list Z := ztake size s ++ zrep (size - zlen s) c.

Definition newline : ascii := ascii_of_N 10.
Definition space : ascii := " "%char.

(** The [%14lld] and the [%-16s] of [printf], for a width of [w]. *)
Definition pad_left (w : nat) (s : chars) : chars := replicate (w - length s) space ++ s.
Definition pad_right (w : nat) (s : chars) : chars := s ++ replicate (w - length s) space.

(** [find]: up to the first [c], and behind it if there is one. *)
Fixpoint split_at (c : ascii) (s : chars) : chars * option chars :=
  match s with
  | [] => ([], None)
  | x :: rest =>
      if bool_decide (x = c) then ([], Some rest)
      else let '(before, behind) := split_at c rest in (x :: before, behind)
  end.

(** [rfind]: the parts around the last [c]. *)
Definition rsplit_at (c : ascii) (s : chars) : option (chars * chars) :=
  match split_at c (reverse s) with
  | (_, None) => None
  | (behind, Some before) => Some (reverse before, reverse behind)
  end.

(** ** Splitting *)

Lemma split_at_behind c a b : c ∉ a -> split_at c (a ++ c :: b) = (a, Some b).
Proof.
  induction a as [|x a IH]; cbn; intros Hc; [by rewrite bool_decide_true|].
  apply not_elem_of_cons in Hc as [Hx Hc]. rewrite bool_decide_false by congruence. by rewrite IH.
Qed.

Lemma split_at_none c a : c ∉ a -> split_at c a = (a, None).
Proof.
  induction a as [|x a IH]; cbn; intros Hc; [done|].
  apply not_elem_of_cons in Hc as [Hx Hc]. rewrite bool_decide_false by congruence. by rewrite IH.
Qed.

Lemma rsplit_at_last c a b : c ∉ b -> rsplit_at c (a ++ c :: b) = Some (a, b).
Proof.
  intros Hc. unfold rsplit_at. rewrite reverse_app, reverse_cons, <- app_assoc. cbn.
  rewrite split_at_behind by by rewrite elem_of_reverse. by rewrite !reverse_involutive.
Qed.

(** ** Decimal numbers *)

Definition all_digits (s : chars) : Prop := Forall (fun c => is_Some (digit 10 c)) s.

Lemma not_digit c s : digit 10 c = None -> all_digits s -> c ∉ s.
Proof. intros Hc Hs Hin. unfold all_digits in Hs. rewrite Forall_forall in Hs. destruct (Hs _ Hin) as [d E]. congruence. Qed.

Lemma digit_10 c d : digit 10 c = Some d -> 48 <= code c <= 57 /\ d = code c - 48.
Proof. unfold digit. cbv zeta. intros E. cases_if_in E; try discriminate; bool_prop; injection E as <-; lia. Qed.

Lemma digits_nonneg s : forall acc, 0 <= acc -> acc <= digits 10 s acc.
Proof.
  induction s as [|c s IH]; intros acc Ha; cbn [digits]; [lia|]. destruct (digit 10 c) as [d|] eqn:E; [|lia].
  apply digit_10 in E. specialize (IH (acc * 10 + d)). lia.
Qed.

Lemma digits_stop s c rest : forall acc, all_digits s -> digit 10 c = None -> digits 10 (s ++ c :: rest) acc = digits 10 s acc.
Proof.
  induction s as [|x s IH]; intros acc Hs Hc; cbn [digits app]; [by rewrite Hc|].
  apply Forall_cons in Hs as [[d E] Hs]. rewrite E. by apply IH.
Qed.

(** A number without a sign, up to where its digits end. *)
Lemma strtoul_digits s rest : s <> [] -> all_digits s -> match rest with [] => True | c :: _ => digit 10 c = None end ->
  digits 10 s 0 < 2 ^ 64 -> strtoul 10 (s ++ rest) = digits 10 s 0.
Proof.
  intros Hn Hs Hr Hl. assert (digits 10 (s ++ rest) 0 = digits 10 s 0) as E
    by (destruct rest; [by rewrite app_nil_r | by apply digits_stop]).
  destruct s as [|c s]; [done|]. pose proof Hs as [[d Hd] _]%Forall_cons. apply digit_10 in Hd as [Hc _].
  assert (is_space c = false) as Sp.
  { unfold is_space. apply orb_false_iff. split; [apply Z.eqb_neq; lia|]. apply andb_false_iff. right. apply Z.leb_gt. lia. }
  unfold strtoul, scan. cbn [skip_space app]. rewrite Sp.
  assert (c <> "-"%char) by (intros ->; vm_compute in Hc; by destruct Hc).
  assert (c <> "+"%char) by (intros ->; vm_compute in Hc; by destruct Hc).
  rewrite !bool_decide_false by done. change (magnitude 10 (c :: s ++ rest)) with (digits 10 ((c :: s) ++ rest) 0). rewrite E.
  by rewrite (proj2 (Z.leb_gt _ _)) by lia.
Qed.

Lemma strtoul_all s : all_digits s -> digits 10 s 0 < 2 ^ 64 -> strtoul 10 s = digits 10 s 0.
Proof.
  intros Hs Hl. destruct s as [|c s]; [done|]. rewrite <- (app_nil_r (c :: s)) at 1. by apply strtoul_digits.
Qed.

Lemma pretty_digit (d : N) : (d < 10)%N -> digit 10 (pretty_N_char d) = Some (Z.of_N d).
Proof.
  intros Hd. assert (d = 0 \/ d = 1 \/ d = 2 \/ d = 3 \/ d = 4 \/ d = 5 \/ d = 6 \/ d = 7 \/ d = 8 \/ d = 9)%N as C by lia.
  repeat destruct C as [-> | C]; try subst d; reflexivity.
Qed.

Lemma pretty_go_digits x : forall s, all_digits (lit s) ->
  all_digits (lit (pretty_N_go x s)) /\ digits 10 (lit (pretty_N_go x s)) 0 = digits 10 (lit s) (Z.of_N x).
Proof.
  induction x as [x IH] using (well_founded_ind N.lt_wf_0). intros s Hs.
  assert (x = 0 \/ 0 < x)%N as [-> | Hx] by lia; [by rewrite pretty_N_go_0|]. rewrite pretty_N_go_step by done.
  assert (digit 10 (pretty_N_char (x `mod` 10)) = Some (Z.of_N (x `mod` 10))) as E by (apply pretty_digit, N.mod_lt; lia).
  destruct (IH (x `div` 10)%N ltac:(apply N.div_lt; lia) (String (pretty_N_char (x `mod` 10)) s)) as [H1 H2].
  { constructor; [by rewrite E|done]. }
  split; [done|]. rewrite H2. change (lit (String ?c s)) with (c :: lit s). cbn [digits]. rewrite E. f_equal.
  rewrite N2Z.inj_div, N2Z.inj_mod. pose proof (Z.div_mod (Z.of_N x) 10). lia.
Qed.

(** Printing a number and reading it back. *)
Lemma to_chars_digits n : 0 <= n -> to_chars n <> [] /\ all_digits (to_chars n) /\ digits 10 (to_chars n) 0 = n.
Proof.
  intros Hn. unfold to_chars. destruct n as [|p|p]; [|clear Hn|lia].
  { split; [done|]. split; [|done]. constructor; [by eexists|constructor]. }
  change (pretty (Z.pos p)) with (pretty_N_go (N.pos p) "").
  destruct (pretty_go_digits (N.pos p) "" ltac:(constructor)) as [H1 H2]. split; [|done].
  intros E. rewrite E in H2. done.
Qed.

Lemma pretty_go_length k : forall (x : N) s, (x < 10 ^ N.of_nat k)%N ->
  (length (lit (pretty_N_go x s)) <= k + length (lit s))%nat.
Proof.
  induction k as [|k IH]; intros x s Hx; (assert (x = 0 \/ 0 < x)%N as [-> | Hp] by lia; [rewrite pretty_N_go_0; lia|]).
  { cbn in Hx. lia. }
  rewrite pretty_N_go_step by done. etrans; [apply IH|].
  - apply N.Div0.div_lt_upper_bound. by rewrite Nat2N.inj_succ, N.pow_succ_r' in Hx.
  - change (lit (String ?c s)) with (c :: lit s). cbn [length]. lia.
Qed.

(** A 64-bit number has at most twenty digits. *)
Lemma to_chars_length n : 0 <= n < 2 ^ 64 -> (length (to_chars n) <= 20)%nat.
Proof.
  intros Hn. unfold to_chars. destruct n as [|p|p]; [cbn; lia| |lia].
  change (pretty (Z.pos p)) with (pretty_N_go (N.pos p) "").
  etrans; [apply (pretty_go_length 20)|cbn; lia]. change (10 ^ N.of_nat 20)%N with 100000000000000000000%N. lia.
Qed.

Lemma strtoul_to_chars n rest : 0 <= n < 2 ^ 64 -> match rest with [] => True | c :: _ => digit 10 c = None end ->
  strtoul 10 (to_chars n ++ rest) = n.
Proof. intros Hn Hr. destruct (to_chars_digits n) as (H1 & H2 & H3); [lia|]. rewrite strtoul_digits; [done..|lia]. Qed.

(** ** Columns *)

(** The column in front, behind any spaces, and what is behind it. *)
Fixpoint drop_spaces (s : chars) : chars :=
  match s with
  | c :: rest => if bool_decide (c = space) then drop_spaces rest else s
  | [] => []
  end.

Definition column (s : chars) : chars * option chars := split_at space (drop_spaces s).

(** Something a column can hold. *)
Definition solid (s : chars) : Prop := s <> [] /\ space ∉ s.

Lemma drop_spaces_pad k s rest : solid s -> drop_spaces (replicate k space ++ s ++ rest) = s ++ rest.
Proof.
  intros [Hn Hs]. induction k as [|k IH]; cbn [replicate app drop_spaces]; [|by rewrite bool_decide_true].
  destruct s as [|c s]; [done|]. cbn. apply not_elem_of_cons in Hs as [Hc _]. by rewrite bool_decide_false by congruence.
Qed.

Lemma column_left w s rest : solid s -> column (pad_left w s ++ space :: rest) = (s, Some rest).
Proof. intros Hs. unfold column, pad_left. rewrite <- app_assoc, drop_spaces_pad by done. by apply split_at_behind, Hs. Qed.

Lemma column_last w s : solid s -> column (pad_left w s) = (s, None).
Proof.
  intros Hs. unfold column, pad_left. rewrite <- (app_nil_r s) at 2. rewrite drop_spaces_pad by done.
  rewrite app_nil_r. by apply split_at_none, Hs.
Qed.

Lemma column_right w s rest : solid s ->
  exists k, column (pad_right w s ++ space :: rest) = (s, Some (replicate k space ++ rest)).
Proof.
  intros [Hn Hs]. exists (w - length s)%nat. unfold column, pad_right. rewrite <- app_assoc.
  change (s ++ ?r) with (replicate 0 space ++ s ++ r) at 1. rewrite drop_spaces_pad by done. set (k := (w - length s)%nat).
  assert (replicate k space ++ space :: rest = space :: replicate k space ++ rest) as ->.
  { clear. induction k as [|k IH]; cbn; [done|]. by rewrite IH. }
  by apply split_at_behind.
Qed.

Lemma pad_left_spaces w k s : replicate k space ++ pad_left w s = replicate (k + (w - length s)) space ++ s.
Proof. unfold pad_left. by rewrite app_assoc, replicate_add. Qed.

Lemma column_left_spaces k w s rest : solid s -> column (replicate k space ++ pad_left w s ++ space :: rest) = (s, Some rest).
Proof.
  intros Hs. unfold column. rewrite app_assoc, pad_left_spaces, <- app_assoc, drop_spaces_pad by done. by apply split_at_behind, Hs.
Qed.

Lemma pad_left_length w s : length (pad_left w s) = max w (length s).
Proof. unfold pad_left. rewrite length_app, length_replicate. lia. Qed.

Lemma pad_right_length w s : length (pad_right w s) = max w (length s).
Proof. unfold pad_right. rewrite length_app, length_replicate. lia. Qed.

Lemma lit_inj s s' : lit s = lit s' -> s = s'.
Proof. intros E. rewrite <- (String.string_of_list_ascii_of_string s), <- (String.string_of_list_ascii_of_string s'). by f_equal. Qed.

Lemma to_chars_neg p : to_chars (Z.neg p) = "-"%char :: to_chars (Z.pos p).
Proof. done. Qed.

Lemma to_chars_solid n : solid (to_chars n).
Proof.
  assert (forall m, 0 <= m -> solid (to_chars m)) as P.
  { intros m Hm. destruct (to_chars_digits m Hm) as (H1 & H2 & _). split; [done|]. by apply not_digit. }
  destruct n as [|p|p]; [by apply P..|]. rewrite to_chars_neg. split; [done|].
  apply not_elem_of_cons. split; [done|]. apply (P (Z.pos p)). lia.
Qed.

Lemma to_chars_inj m n : to_chars m = to_chars n -> m = n.
Proof. intros E. apply lit_inj in E. by apply (inj pretty) in E. Qed.

Lemma code_range c : 0 <= code c < 256.
Proof. unfold code. pose proof (N_ascii_bounded c). lia. Qed.

Lemma bytes_of_ok s : bytes_ok (bytes_of s).
Proof. unfold bytes_of. apply Forall_fmap, Forall_true. intros c. apply code_range. Qed.

Lemma chars_of_bytes s : chars_of (bytes_of s) = s.
Proof.
  unfold chars_of, bytes_of. rewrite map_map. induction s as [|c s IH]; cbn [map]; [done|]. rewrite IH. f_equal.
  unfold code. by rewrite N2Z.id, ascii_N_embedding.
Qed.

Lemma zlen_resize_with c size s : 0 <= size -> zlen (resize_with c size s) = size.
Proof. intros. unfold resize_with. len. Qed.

Lemma resize_with_ok c size s : byte_ok c -> bytes_ok s -> bytes_ok (resize_with c size s).
Proof. intros Hc Hs. apply Forall_app. split; [by apply Forall_take | by apply Forall_replicate]. Qed.
