(* ===== verification/SimDisk.v ===== *)
(** * The simulated disk

    Models [src/src/io/sim/sim_disk.h]/[sim_disk.cpp]: an in-memory file system in which
    every file has a durable and a visible image and the queue of writes between them,
    [fsync] replays the queue, and [crash] keeps a random prefix of it.  The generator
    behind [rng_] is part of the state.  [std::map] iterates in key order, so the loops over
    all files go through [in_order].  File ids are handed out from a counter that is not
    wrapped: the run would have to open 2^64 files.

    The theorems: the simulated disk implements the disk interface and its crash contract,
    and on every file [durable + pending = visible], the equation [fsync] is built on, holds
    after every sequence of calls and crashes.  A bit flip can break that equation. *)
From S2P Require Import Prelude Base Random Disk.
From Stdlib Require Import SpecFloat.

Module SimDisk.

Record DiskFaultConfig := mkFaults {
  torn_write_probability : double;
  keep_unflushed_probability : double;
  io_error_probability : double }.

Definition kMaxFileBytes : Z := Z.shiftl 1 30.

(** [while (p.size() > 1 && p.back() == '/') p.pop_back();] *)
Fixpoint normalize_loop (fuel : nat) (p : chars) : chars :=
  match fuel with
  | O => p
  | S fuel' =>
      if (1 <? length p)%nat && bool_decide (last p = Some slash)
      then normalize_loop fuel' (removelast p) else p
  end.

Definition normalize (p : chars) : chars := normalize_loop (length p) p.

(** [path.rfind('/')] *)
Fixpoint rfind (c : ascii) (s : chars) : option nat :=
  match s with
  | [] => None
  | a :: s' =>
      match rfind c s' with
      | Some n => Some (S n)
      | None => if bool_decide (a = c) then Some O else None
      end
  end.

Definition parent_of (path : chars) : chars :=
  match rfind slash path with
  | None => []
  | Some O => [slash]
  | Some n => take n path
  end.

Definition basename_of (path : chars) : chars :=
  match rfind slash path with
  | None => path
  | Some n => drop (S n) path
  end.

Definition apply_bytes (image : list Z) (offset : Z) (data : list Z) : list Z :=
  let count := zlen data in
  if count =? 0 then image
  else
    let image := if zlen image <? offset + count then resize image (offset + count) else image in
    splice image offset data.

Record PendingWrite := mkWrite { w_offset : Z; w_bytes : list Z }.

Record File := mkFile {
  durable : list Z;
  visible : list Z;
  pending : list PendingWrite }.

Record Handle := mkHandle { h_path : chars; h_mode : OpenMode }.

(** The entries of a [std::map] keyed by strings, in its iteration order. *)
Definition in_order {A} (m : gmap chars A) : list (chars * A) :=
  merge_sort (fun a b => chars_le a.1 b.1) (map_to_list m).

Section Sim.
Context {G : Type} `{Random G}.

Record t := mk {
  rng_ : G;
  faults_ : DiskFaultConfig;
  files_ : gmap chars File;
  dirs_ : gset chars;
  open_ : gmap Z Handle;
  next_id_ : Z;
  powered_ : bool;
  bytes_lost_ : Z;
  crashes_ : Z }.

#[global] Instance SimDisk_eta : Settable t := fun d =>
  mk (rng_ d) (faults_ d) (files_ d) (dirs_ d) (open_ d) (next_id_ d) (powered_ d) (bytes_lost_ d)
    (crashes_ d).

Definition new (rng : G) (faults : DiskFaultConfig) : t :=
  mk rng faults ∅ {[ []; [slash] ]} ∅ 0 true 0 0.

(** The path and the file behind an open id. *)
Definition resolve (file : Z) (for_write : bool) (d : t) : Result (chars * File) :=
  fail_if negb (powered_ d) with kIoError else
  match open_ d !! file with
  | None => fail kNotFound
  | Some handle =>
      fail_if for_write && bool_decide (h_mode handle = kRead) with kIoError else
      match files_ d !! h_path handle with
      | None => fail kNotFound
      | Some f => Ok (h_path handle, f)
      end
  end.

(** [rng_.next_bool_with_probability(p)] *)
Definition draw (p : double) (d : t) : bool * t :=
  let '(b, g) := next_bool_with_probability p (rng_ d) in (b, d <| rng_ := g |>).

Definition store (path : chars) (f : File) (d : t) : t := d <| files_ := <[path := f]> (files_ d) |>.

Definition open (path : chars) (mode : OpenMode) (d : t) : Result Z * t :=
  if negb (powered_ d) then (fail kIoError, d)
  else
    let p := normalize path in
    if bool_decide (p ∈ dirs_ d) then (fail kIoError, d)
    else
      let grant d :=
        (Ok (next_id_ d),
         d <| open_ := <[next_id_ d := mkHandle p mode]> (open_ d) |> <| next_id_ := next_id_ d + 1 |>) in
      match files_ d !! p with
      | Some _ => grant d
      | None =>
          if negb (bool_decide (mode = kCreate)) then (fail kNotFound, d)
          else if negb (bool_decide (parent_of p ∈ dirs_ d)) then (fail kNotFound, d)
          else grant (store p (mkFile [] [] []) d)
      end.

Definition close (file : Z) (d : t) : t := d <| open_ := delete file (open_ d) |>.

Definition pwrite (file : Z) (data : list Z) (offset : Z) (d : t) : Result Z * t :=
  match resolve file true d with
  | fail err => (fail err, d)
  | Ok (path, f) =>
      let '(broken, d) := draw (io_error_probability (faults_ d)) d in
      if broken then (fail kIoError, d)
      else if zlen data =? 0 then (Ok 0, d)
      else
        let end_ := u64 (offset + zlen data) in
        if (end_ <? offset) || (kMaxFileBytes <? end_) then (fail kInvalidArgument, d)
        else
          (Ok (zlen data),
           store path (mkFile (durable f) (apply_bytes (visible f) offset data)
                         (pending f ++ [mkWrite offset data])) d)
  end.

Definition pread (file n offset : Z) (d : t) : Result (list Z) * t :=
  match resolve file false d with
  | fail err => (fail err, d)
  | Ok (path, f) =>
      let '(broken, d) := draw (io_error_probability (faults_ d)) d in
      if broken then (fail kIoError, d)
      else if zlen (visible f) <=? offset then (Ok [], d)
      else (Ok (zsub offset (Z.min n (zlen (visible f) - offset)) (visible f)), d)
  end.

Definition replay (image : list Z) (ws : list PendingWrite) : list Z :=
  foldl (fun image w => apply_bytes image (w_offset w) (w_bytes w)) image ws.

Definition fsync (file : Z) (d : t) : Status * t :=
  match resolve file false d with
  | fail err => (fail err, d)
  | Ok (path, f) =>
      let '(broken, d) := draw (io_error_probability (faults_ d)) d in
      if broken then (fail kIoError, d)
      else (Ok tt, store path (mkFile (replay (durable f) (pending f)) (visible f) []) d)
  end.

(** What [truncate] keeps of a queued write. *)
Definition clip (size : Z) (w : PendingWrite) : PendingWrite :=
  if size <=? w_offset w then mkWrite (w_offset w) []
  else if size - w_offset w <? zlen (w_bytes w)
  then mkWrite (w_offset w) (resize (w_bytes w) (size - w_offset w))
  else w.

Definition truncate (file size : Z) (d : t) : Status * t :=
  match resolve file true d with
  | fail err => (fail err, d)
  | Ok (path, f) =>
      if kMaxFileBytes <? size then (fail kInvalidArgument, d)
      else
        (Ok tt,
         store path (mkFile (resize (durable f) size) (resize (visible f) size)
           (filter (fun w => w_bytes w <> []) (clip size <$> pending f))) d)
  end.

Definition size (file : Z) (d : t) : Result Z * t :=
  match resolve file false d with
  | fail err => (fail err, d)
  | Ok (path, f) => (Ok (zlen (visible f)), d)
  end.

Definition remove (path : chars) (d : t) : Status * t :=
  if negb (powered_ d) then (fail kIoError, d)
  else
    let p := normalize path in
    match files_ d !! p with
    | None => (fail (if bool_decide (p ∈ dirs_ d) then kIoError else kNotFound), d)
    | Some _ => (Ok tt, d <| files_ := delete p (files_ d) |>)
    end.

(** The [for] loop of [make_directories] from index [i] on, with [n] iterations left. *)
Fixpoint make_loop (p : chars) (n i : nat) (d : t) : Status * t :=
  match n with
  | O => (Ok tt, d)
  | S n' =>
      if negb (i =? length p)%nat && negb (bool_decide (p !! i = Some slash)) then make_loop p n' (S i) d
      else
        let prefix := take (if (i =? 0)%nat then 1 else i) p in
        if bool_decide (is_Some (files_ d !! prefix)) then (fail kIoError, d)
        else make_loop p n' (S i) (d <| dirs_ := {[ prefix ]} ∪ dirs_ d |>)
  end.

Definition make_directories (path : chars) (d : t) : Status * t :=
  if negb (powered_ d) then (fail kIoError, d)
  else
    let p := normalize path in
    match p with
    | [] => (Ok tt, d)
    | _ => make_loop p (S (length p)) 0 d
    end.

Definition list_directory (path : chars) (d : t) : Result (list chars) * t :=
  if negb (powered_ d) then (fail kIoError, d)
  else
    let p := normalize path in
    if negb (bool_decide (p ∈ dirs_ d))
    then (fail (if bool_decide (is_Some (files_ d !! p)) then kIoError else kNotFound), d)
    else
      let names : gset chars :=
        list_to_set (basename_of <$> filter (fun q => parent_of q = p) ((map_to_list (files_ d)).*1)) ∪
        list_to_set (basename_of <$>
          filter (fun q => q <> [] /\ q <> p /\ parent_of q = p) (elements (dirs_ d))) in
      (Ok (merge_sort chars_le (elements names)), d).

(** One file's queue in a power cut: each write is kept, torn or dropped, and the first one
    that is not kept whole is the last one that leaves a trace. *)
Fixpoint survive (keep_p tear_p : double) (ws : list PendingWrite) (image : list Z) (lost : Z) (g : G)
  : list Z * Z * G :=
  match ws with
  | [] => (image, lost, g)
  | w :: rest =>
      let total := zlen (w_bytes w) in
      let '(keep, g) := next_bool_with_probability keep_p g in
      let '(applied, g) :=
        if keep then (total, g)
        else
          let '(tear, g) := next_bool_with_probability tear_p g in
          if tear && (1 <? total) then let '(r, g) := next_below (total - 1) g in (1 + r, g)
          else (0, g) in
      let image := if 0 <? applied then apply_bytes image (w_offset w) (ztake applied (w_bytes w)) else image in
      let lost := u64 (lost + (total - applied)) in
      if applied <? total
      then (image, foldl (fun lost w => u64 (lost + zlen (w_bytes w))) lost rest, g)
      else survive keep_p tear_p rest image lost g
  end.

Definition crash_file (keep_p tear_p : double) (d : t) (entry : chars * File) : t :=
  let '(path, f) := entry in
  let '(image, lost, g) := survive keep_p tear_p (pending f) (durable f) (bytes_lost_ d) (rng_ d) in
  store path (mkFile image image []) (d <| bytes_lost_ := lost |> <| rng_ := g |>).

Definition crash (d : t) : t :=
  let keep_p := keep_unflushed_probability (faults_ d) in
  let tear_p :=
    if SFleb (double_of_u64 1) keep_p then S754_zero false
    else SFdiv 53 1024 (torn_write_probability (faults_ d)) (SFsub 53 1024 (double_of_u64 1) keep_p) in
  let d := d <| crashes_ := u64 (crashes_ d + 1) |> in
  let d := foldl (crash_file keep_p tear_p) d (in_order (files_ d)) in
  d <| powered_ := false |> <| open_ := ∅ |>.

Definition power_on (d : t) : t := d <| powered_ := true |>.

Definition corrupt_random_byte (d : t) : bool * t :=
  match filter (fun e : chars * File => durable e.2 <> []) (in_order (files_ d)) with
  | [] => (false, d)
  | candidates =>
      let '(c, g) := next_below (zlen candidates) (rng_ d) in
      match candidates !! Z.to_nat c with
      | None => (false, d)
      | Some (path, f) =>
          let '(index, g) := next_below (zlen (durable f)) g in
          let '(bit, g) := next_below 8 g in
          let mask := u8 (Z.shiftl 1 bit) in
          let before := at_ (durable f) index in
          let after := u8 (Z.lxor before mask) in
          let rotten := splice (durable f) index [after] in
          let seen :=
            if (index <? zlen (visible f)) && (at_ (visible f) index =? before)
            then splice (visible f) index [after] else visible f in
          (true, store path (mkFile rotten seen (pending f)) (d <| rng_ := g |>))
      end
  end.

Definition unflushed_bytes (d : t) : Z :=
  foldl (fun total e => foldl (fun total w => u64 (total + zlen (w_bytes w))) total (pending e.2)) 0
    (in_order (files_ d)).

#[global] Instance sim_disk : Disk.t t := {
  Disk.open := open; Disk.close := close; Disk.pwrite := pwrite; Disk.pread := pread;
  Disk.fsync := fsync; Disk.truncate := truncate; Disk.size := size; Disk.remove := remove;
  Disk.make_directories := make_directories; Disk.list_directory := list_directory }.

End Sim.
Arguments t : clear implicits.

(** ** Paths *)

Lemma normalize_file p : Disk.file_path p -> normalize p = p.
Proof.
  unfold Disk.file_path, normalize. intros Hp. destruct (length p); simpl; [done|].
  rewrite bool_decide_eq_false_2 by done. by rewrite andb_false_r.
Qed.

Lemma normalize_dir p : Disk.dir_path p -> normalize p = p.
Proof. intros [Hp | ->]; [by apply normalize_file | done]. Qed.

Lemma rfind_none name : slash ∉ name -> rfind slash name = None.
Proof.
  induction name as [|a name IH]; simpl; [done|]. intros Hn.
  apply not_elem_of_cons in Hn as [Ha Hn]. rewrite IH by done. by rewrite bool_decide_eq_false_2.
Qed.

Lemma rfind_app dir name : slash ∉ name -> rfind slash (dir ++ slash :: name) = Some (length dir).
Proof.
  intros Hn. induction dir as [|a dir IH]; simpl; [|by rewrite IH].
  by rewrite rfind_none.
Qed.

Lemma join_parts dir name :
  Disk.dir_path dir -> slash ∉ name ->
  parent_of (join dir name) = dir /\ basename_of (join dir name) = name.
Proof.
  intros Hd Hn. unfold join, parent_of, basename_of.
  destruct (last dir) as [c|] eqn:L.
  - destruct Hd as [Hd | ->].
    + rewrite bool_decide_eq_false_2 by (intros ->; by apply Hd).
      rewrite <- app_assoc. simpl. rewrite rfind_app by done.
      destruct dir as [|a dir]; [done|]. change (S (length dir)) with (length (a :: dir)).
      split; [apply take_app_length|]. change (slash :: name) with ([slash] ++ name).
      rewrite app_assoc. by rewrite drop_app_ge, length_app, Nat.add_comm, Nat.sub_diag
        by (rewrite length_app; simpl; lia).
    + injection L as <-. rewrite bool_decide_eq_true_2 by done.
      change ([slash] ++ name) with ([] ++ slash :: name). by rewrite rfind_app.
  - apply last_None in L. subst. simpl. by rewrite rfind_none.
Qed.

(** ** Images *)

Lemma apply_bytes_overwrite image off data :
  0 <= off -> apply_bytes image off data = overwrite image off data.
Proof.
  intros. unfold apply_bytes, overwrite. destruct data as [|x data]; [done|].
  replace (zlen (x :: data) =? 0) with false by (symmetry; apply Z.eqb_neq; len).
  f_equal. destruct (_ <? _) eqn:E; bool_prop.
  - unfold resize. by rewrite ztake_ge by lia.
  - unfold zrep. replace (Z.to_nat _) with O by lia. by rewrite app_nil_r.
Qed.

Record write_ok (w : PendingWrite) : Prop := {
  wo_offset : 0 <= w_offset w;
  wo_bytes : bytes_ok (w_bytes w);
  wo_size : w_offset w + zlen (w_bytes w) <= kMaxFileBytes }.

Record file_good (f : File) : Prop := {
  fg_bytes : bytes_ok (durable f);
  fg_writes : Forall write_ok (pending f);
  fg_visible : visible f = replay (durable f) (pending f);
  fg_size : zlen (durable f) <= kMaxFileBytes }.

Lemma replay_app image ws w : replay image (ws ++ [w]) = apply_bytes (replay image ws) (w_offset w) (w_bytes w).
Proof. unfold replay. by rewrite foldl_app. Qed.

Lemma replay_bytes image ws : bytes_ok image -> Forall write_ok ws -> bytes_ok (replay image ws).
Proof.
  intros Hi Hw. revert image Hi. induction Hw as [|w ws [Ho Hb Hz] _ IH]; intros image Hi; [done|].
  simpl. apply IH. rewrite apply_bytes_overwrite by done. by apply bytes_ok_overwrite.
Qed.

Lemma replay_prefix bs image ws :
  bs `prefix_of` image -> Forall write_ok ws -> Forall (fun w => zlen bs <= w_offset w) ws ->
  bs `prefix_of` replay image ws.
Proof.
  intros Hp Hw. revert image Hp. induction Hw as [|w ws [Ho Hb Hz] _ IH]; intros image Hp Hs; [done|].
  apply Forall_cons in Hs as [Hs1 Hs]. simpl. apply IH; [|done].
  rewrite apply_bytes_overwrite by done. by apply prefix_overwrite.
Qed.

(** Cutting a write and cutting the file it was applied to agree. *)
Lemma clip_resize image n w :
  0 <= n -> write_ok w ->
  apply_bytes (resize image n) (w_offset w) (w_bytes (clip n w)) =
  resize (apply_bytes image (w_offset w) (w_bytes w)) n.
Proof.
  intros Hn [Ho _ _]. rewrite !apply_bytes_overwrite by done.
  assert (zlen (w_bytes (clip n w)) = Z.max 0 (Z.min (zlen (w_bytes w)) (n - w_offset w)) /\
    forall i, 0 <= i < n - w_offset w -> at_ (w_bytes (clip n w)) i = at_ (w_bytes w) i) as [L E].
  { unfold clip. destruct (n <=? w_offset w) eqn:E1; bool_prop; simpl; [split; [len | lia]|].
    destruct (n - w_offset w <? zlen (w_bytes w)) eqn:E2; bool_prop; simpl; [|split; [len | done]].
    rewrite zlen_resize by lia. split; [len|]. intros. by rewrite at_resize by lia. }
  apply list_ext_at.
  - rewrite zlen_overwrite, !zlen_resize, L by done. destruct (_ =? 0) eqn:E0; [done|]. bool_prop. lia.
  - intros i Hi. rewrite zlen_overwrite, zlen_resize, L in Hi by done.
    assert (0 <= i < n) by (destruct (_ =? 0) eqn:E0 in Hi; bool_prop; lia).
    rewrite at_resize by lia. rewrite !at_overwrite, L by lia. rewrite at_resize by lia.
    destruct (w_offset w <=? i) eqn:E1; simpl; [|done]. bool_prop.
    destruct (i <? w_offset w + zlen (w_bytes w)) eqn:E2; bool_prop.
    + replace (i <? _) with true by (symmetry; apply Z.ltb_lt; lia). apply E. lia.
    + by replace (i <? _) with false by (symmetry; apply Z.ltb_ge; lia).
Qed.

Lemma Forall_filtered {A} (P Q : A -> Prop) `{forall x, Decision (P x)} l : Forall Q l -> Forall Q (filter P l).
Proof. induction 1; [done|]. rewrite filter_cons. case_decide; by try constructor. Qed.

Lemma clip_offset n w : w_offset (clip n w) = w_offset w.
Proof. unfold clip. destruct (_ <=? _); [done|]. by destruct (_ <? _). Qed.

Lemma clip_ok n w : write_ok w -> write_ok (clip n w).
Proof.
  intros [Ho Hb Hz]. unfold clip. destruct (_ <=? _) eqn:E1; [|destruct (_ <? _) eqn:E2; [|done]];
    bool_prop; split; simpl; auto using bytes_ok_resize.
  - len.
  - rewrite zlen_resize by lia. lia.
Qed.

Lemma replay_size image ws :
  zlen image <= kMaxFileBytes -> Forall write_ok ws -> zlen (replay image ws) <= kMaxFileBytes.
Proof.
  intros Hi Hw. revert image Hi. induction Hw as [|w ws [Ho Hb Hz] _ IH]; intros image Hi; [done|].
  simpl. apply IH. rewrite apply_bytes_overwrite, zlen_overwrite by done. destruct (_ =? _); lia.
Qed.

Lemma write_ok_torn n w : write_ok w -> write_ok (mkWrite (w_offset w) (ztake n (w_bytes w))).
Proof. intros [Ho Hb Hz]. split; simpl; [done | by apply Forall_take | len]. Qed.

Lemma replay_clip image n ws :
  0 <= n -> Forall write_ok ws ->
  replay (resize image n) (filter (fun w => w_bytes w <> []) (clip n <$> ws)) = resize (replay image ws) n.
Proof.
  intros Hn Hw. revert image. induction Hw as [|w ws Hw1 _ IH]; intros image; [done|].
  rewrite fmap_cons, filter_cons. simpl. rewrite <- IH, <- clip_resize by done.
  rewrite <- (clip_offset n w). case_decide as Hb; [done | by rewrite Hb].
Qed.

(** ** The interface *)

Section Laws.
Context {G : Type} `{Random G}.

#[global] Instance sim_view : Disk.view (t G) := {
  Disk.good d := map_Forall (fun _ f => file_good f) (files_ d) /\ map_Forall (fun id _ => id < next_id_ d) (open_ d) /\
    powered_ d = true;
  Disk.files d := visible <$> files_ d;
  Disk.handles d := (fun h => (h_path h, h_mode h)) <$> open_ d;
  Disk.settled d p bs := exists f, files_ d !! p = Some f /\ bs `prefix_of` durable f /\
    Forall (fun w => zlen bs <= w_offset w) (pending f) }.

Lemma core_same (d d' : t G) :
  files_ d' = files_ d -> open_ d' = open_ d -> next_id_ d' = next_id_ d -> powered_ d' = powered_ d ->
  Disk.good d -> Disk.same d d'.
Proof.
  intros E1 E2 E3 E4 (G1 & G2 & G3). unfold Disk.same. simpl. rewrite E1, E2, E3, E4. auto.
Qed.

Lemma draw_core p (d : t G) b d' :
  draw p d = (b, d') ->
  files_ d' = files_ d /\ open_ d' = open_ d /\ next_id_ d' = next_id_ d /\ powered_ d' = powered_ d.
Proof. unfold draw. destruct (next_bool_with_probability _ _). intros [= <- <-]. done. Qed.

Lemma draw_same p (d : t G) b d' : draw p d = (b, d') -> Disk.good d -> Disk.same d d'.
Proof. intros Hd. apply draw_core in Hd as (? & ? & ? & ?). by apply core_same. Qed.

Lemma resolve_spec f w (d : t G) p fl :
  resolve f w d = Ok (p, fl) -> Disk.opened d f p (visible fl) /\ files_ d !! p = Some fl.
Proof.
  unfold resolve, Disk.opened. destruct (negb _); [done|].
  destruct (open_ d !! f) as [h|] eqn:E; [|done]. destruct (_ && _); [done|].
  destruct (files_ d !! h_path h) as [fl'|] eqn:E2; [|done]. intros [= <- <-].
  simpl. rewrite !lookup_fmap, E, E2. eauto.
Qed.

(** Replacing the image of a file by a good one. *)
Lemma store_only p fl fl' (d : t G) :
  Disk.good d -> files_ d !! p = Some fl -> file_good fl' ->
  Disk.only p d (store p fl' d) /\ Disk.files (store p fl' d) !! p = Some (visible fl').
Proof.
  intros (G1 & G2 & G3) Hp Hg. unfold Disk.only. simpl. split_and!.
  - by apply map_Forall_insert_2.
  - done.
  - done.
  - done.
  - intros q Hq. by rewrite fmap_insert, lookup_insert_ne.
  - intros q bs Hq (f & Hf & Hs). exists f. by rewrite lookup_insert_ne.
  - by rewrite fmap_insert, lookup_insert_eq.
Qed.

Lemma settled_store p fl' (d : t G) bs :
  bs `prefix_of` durable fl' -> Forall (fun w => zlen bs <= w_offset w) (pending fl') ->
  Disk.settled (store p fl' d) p bs.
Proof. intros. exists fl'. simpl. by rewrite lookup_insert_eq. Qed.

Lemma same_store (d d1 : t G) p fl :
  files_ d1 = files_ d -> open_ d1 = open_ d -> next_id_ d1 = next_id_ d -> powered_ d1 = powered_ d ->
  Disk.only p d1 (store p fl d1) ->
  Disk.only p d (store p fl d1).
Proof. unfold Disk.only. simpl. by intros -> -> -> ->. Qed.

Lemma good_file (d : t G) p fl : Disk.good d -> files_ d !! p = Some fl -> file_good fl.
Proof. intros [G1 _] E. by apply (G1 p). Qed.

Lemma open_sim (d : t G) p m r d' :
  Disk.good d -> Disk.file_path p -> open p m d = (r, d') ->
  match r with
  | fail _ => Disk.same d d'
  | Ok f =>
      Disk.handles d !! f = None /\ Disk.good d' /\ Disk.handles d' = <[f := (p, m)]> (Disk.handles d) /\
      (forall q bs, Disk.settled d q bs -> Disk.settled d' q bs) /\
      (is_Some (Disk.files d !! p) /\ Disk.files d' = Disk.files d \/
       m = kCreate /\ Disk.files d !! p = None /\ Disk.files d' = <[p := []]> (Disk.files d) /\
       Disk.settled d' p [])
  end.
Proof.
  intros (G1 & G2 & G3) Hp. unfold open. rewrite normalize_file by done.
  assert (forall d1 : t G, Disk.good d1 -> Disk.same d1 d1) as Refl by (intros; by apply core_same).
  assert (open_ d !! next_id_ d = None) as Hfresh.
  { destruct (open_ d !! next_id_ d) eqn:E; [|done]. specialize (G2 _ _ E). simpl in G2. lia. }
  assert (map_Forall (fun id _ => id < next_id_ d + 1) (<[next_id_ d := mkHandle p m]> (open_ d))) as Hids.
  { apply map_Forall_insert_2; [lia|]. intros i h Hh. specialize (G2 _ _ Hh). simpl in G2. lia. }
  destruct (negb (powered_ d)); [by intros [= <- <-]; apply Refl|].
  destruct (bool_decide (p ∈ dirs_ d)); [by intros [= <- <-]; apply Refl|].
  destruct (files_ d !! p) as [fl|] eqn:Ef.
  2: destruct (negb (bool_decide (m = kCreate))) eqn:Em; [by intros [= <- <-]; apply Refl|].
  2: destruct (negb (bool_decide (parent_of p ∈ dirs_ d))); [by intros [= <- <-]; apply Refl|].
  all: intros [= <- <-]; simpl.
  - rewrite !lookup_fmap, Hfresh. split_and!; [done | done | done | done | by rewrite fmap_insert | done |].
    left. rewrite Ef. eauto.
  - rewrite !lookup_fmap, Hfresh, Ef. split_and!; [done | | done | done | by rewrite fmap_insert | |].
    + apply map_Forall_insert_2; [|done]. split; try constructor. vm_compute. discriminate.
    + intros q bs (f & Hf & Hs). exists f. destruct (decide (q = p)) as [->|]; [congruence|].
      by rewrite lookup_insert_ne.
    + right. split_and!; [| done | by rewrite fmap_insert |].
      * by apply negb_false_iff, bool_decide_eq_true_1 in Em.
      * eexists. rewrite lookup_insert_eq. split; [done|]. split; [done | constructor].
Qed.

Lemma pwrite_sim (d : t G) f data off r d' :
  Disk.good d -> 0 <= off -> bytes_ok data -> zlen data < 2 ^ 64 -> pwrite f data off d = (r, d') ->
  (exists e, r = fail e /\ Disk.same d d') \/
  exists p b k, Disk.opened d f p b /\ Disk.only p d d' /\ 0 <= k <= zlen data /\
    Disk.files d' !! p = Some (overwrite b off (ztake k data)) /\
    (forall bs, Disk.settled d p bs -> zlen bs <= off -> Disk.settled d' p bs) /\
    (forall n, r = Ok n -> n = k).
Proof.
  intros Hg Ho Hb Hsz. unfold pwrite.
  destruct (resolve f true d) as [[p fl]|e] eqn:R; [|intros [= <- <-]; left; eauto using core_same].
  apply resolve_spec in R as [Hop Hf]. pose proof (good_file _ _ _ Hg Hf) as Hfl.
  destruct (draw _ d) as [broken d1] eqn:Dr. pose proof (draw_same _ _ _ _ Dr Hg) as S1.
  apply draw_core in Dr as (E1 & E2 & E3 & E4).
  destruct broken; [intros [= <- <-]; left; eauto|].
  destruct (zlen data =? 0) eqn:E0.
  { intros [= <- <-]. right. apply Z.eqb_eq, zlen_0 in E0. subst. exists p, (visible fl), 0.
    destruct S1 as (Sg & Sf & Sh & Ss). unfold Disk.only. rewrite Sf, Sh. split_and!; auto using zlen_nonneg; try lia.
    - apply Hop. - by intros n [= <-]. }
  destruct (_ || _) eqn:Eend; [intros [= <- <-]; left; eauto|]. bool_prop.
  intros [= <- <-]. right. exists p, (visible fl), (zlen data).
  rewrite <- E1 in Hf. assert (Disk.good d1) as Hg1 by apply S1.
  assert (off + zlen data <= kMaxFileBytes) as Hend.
  { unfold wrap in *. change kMaxFileBytes with 1073741824 in *. pow2. pose proof (zlen_nonneg data).
    destruct (Z_lt_dec (off + zlen data) 18446744073709551616).
    - rewrite Z.mod_small in * by lia. lia.
    - destruct (Z_lt_dec off 18446744073709551616); dmlia. }
  set (fl' := mkFile _ _ _).
  assert (file_good fl') as Hfl'.
  { destruct Hfl as [F1 F2 F3 F4]. split; simpl; auto.
    - apply Forall_app. split; [done|]. constructor; [by split | constructor].
    - by rewrite replay_app, F3. }
  destruct (store_only p fl fl' d1 Hg1 Hf Hfl') as [Hon Hl].
  split_and!; [done | by apply same_store | apply zlen_nonneg | done | | |].
  - rewrite Hl. simpl. by rewrite apply_bytes_overwrite, ztake_ge.
  - intros bs (f0 & Hf0 & P1 & P2) Hlen. rewrite <- E1, Hf in Hf0. injection Hf0 as <-.
    apply settled_store; [done|]. simpl. apply Forall_app. split; [done | by repeat constructor].
  - by intros n [= <-].
Qed.

Lemma pread_sim (d : t G) f n off r d' :
  Disk.good d -> 0 <= n -> 0 <= off -> pread f n off d = (r, d') ->
  Disk.same d d' /\ forall bs, r = Ok bs -> exists p b, Disk.opened d f p b /\ bs = zsub off n b.
Proof.
  intros Hg Hn Ho. unfold pread.
  destruct (resolve f false d) as [[p fl]|e] eqn:R; [|intros [= <- <-]; split; [by apply core_same | done]].
  apply resolve_spec in R as [Hop Hf].
  destruct (draw _ d) as [broken d1] eqn:Dr. pose proof (draw_same _ _ _ _ Dr Hg) as S1.
  destruct broken; [intros [= <- <-]; by split|].
  destruct (_ <=? off) eqn:E; bool_prop; intros [= <- <-]; (split; [done|]); intros bs [= <-];
    exists p, (visible fl); (split; [done|]).
  - unfold zsub, ztake. rewrite zdrop_ge by done. by rewrite take_nil.
  - unfold zsub. destruct (Z_le_dec n (zlen (visible fl) - off)); [by rewrite Z.min_l|].
    rewrite Z.min_r by lia. by rewrite !ztake_ge by len.
Qed.

Lemma fsync_sim (d : t G) f r d' :
  Disk.good d -> fsync f d = (r, d') ->
  Disk.same d d' /\ (r = Ok tt -> exists p b, Disk.opened d f p b /\ Disk.settled d' p b).
Proof.
  intros Hg. unfold fsync.
  destruct (resolve f false d) as [[p fl]|e] eqn:R; [|intros [= <- <-]; split; [by apply core_same | done]].
  apply resolve_spec in R as [Hop Hf]. pose proof (good_file _ _ _ Hg Hf) as [F1 F2 F3 F4].
  destruct (draw _ d) as [broken d1] eqn:Dr. pose proof (draw_same _ _ _ _ Dr Hg) as S1.
  apply draw_core in Dr as (E1 & E2 & E3 & E4).
  destruct broken; intros [= <- <-]; [by split|].
  rewrite <- E1 in Hf. rewrite <- F3. set (fl' := mkFile _ _ _).
  assert (file_good fl') as Hfl'.
  { split; simpl; auto; rewrite F3; auto using replay_bytes, replay_size. }
  destruct (store_only p fl fl' d1 (proj1 S1) Hf Hfl') as [Hon Hl].
  split.
  - apply same_store with (d := d) in Hon; [|done..]. destruct Hon as (Og & Oh & Of & Os).
    split_and!; [done | | done |].
    + simpl. rewrite fmap_insert, E1. simpl. apply insert_id. rewrite E1 in Hf. by rewrite lookup_fmap, Hf.
    + intros q bs Hq. destruct (decide (q = p)) as [->|]; [|by apply Os].
      destruct Hq as (f0 & Hf0 & P1 & P2). rewrite <- E1, Hf in Hf0. injection Hf0 as <-.
      apply settled_store; [|constructor]. simpl. rewrite F3. by apply replay_prefix.
  - intros _. exists p, (visible fl). split; [done|]. apply settled_store; [done | constructor].
Qed.

Lemma truncate_sim (d : t G) f n r d' :
  Disk.good d -> 0 <= n -> truncate f n d = (r, d') ->
  match r with
  | fail _ => Disk.same d d'
  | Ok _ => exists p b, Disk.opened d f p b /\ Disk.only p d d' /\ Disk.files d' !! p = Some (resize b n) /\
      (forall bs, Disk.settled d p bs -> zlen bs <= n -> Disk.settled d' p bs)
  end.
Proof.
  intros Hg Hn. unfold truncate.
  destruct (resolve f true d) as [[p fl]|e] eqn:R; [|intros [= <- <-]; by apply core_same].
  apply resolve_spec in R as [Hop Hf]. pose proof (good_file _ _ _ Hg Hf) as [F1 F2 F3 F4].
  destruct (_ <? n) eqn:En; intros [= <- <-]; [by apply core_same|]. bool_prop.
  exists p, (visible fl). set (fl' := mkFile _ _ _).
  assert (file_good fl') as Hfl'.
  { split; simpl.
    - by apply bytes_ok_resize.
    - apply Forall_filtered, Forall_fmap. eapply Forall_impl; [exact F2|]. intros w Hw. by apply clip_ok.
    - rewrite F3. symmetry. by apply replay_clip.
    - by rewrite zlen_resize. }
  destruct (store_only p fl fl' d Hg Hf Hfl') as [Hon Hl].
  split_and!; [done | done | done |].
  intros bs (f0 & Hf0 & P1 & P2) Hlen. rewrite Hf in Hf0. injection Hf0 as <-.
  apply settled_store; simpl; [by apply prefix_resize|].
  apply Forall_filtered, Forall_fmap. eapply Forall_impl; [exact P2|]. intros w Hw. simpl. by rewrite clip_offset.
Qed.

Lemma remove_sim (d : t G) p r d' :
  Disk.good d -> Disk.file_path p -> remove p d = (r, d') ->
  match r with
  | fail _ => Disk.same d d'
  | Ok _ => Disk.without p d d' /\ Disk.files d' !! p = None
  end.
Proof.
  intros (G1 & G2 & G3) Hp. unfold remove. rewrite normalize_file by done.
  destruct (negb _); [intros [= <- <-]; by apply core_same|].
  destruct (files_ d !! p) as [fl|] eqn:Ef; intros [= <- <-]; [|by apply core_same].
  unfold Disk.without. simpl. rewrite fmap_delete. split_and!; auto.
  - by apply map_Forall_delete.
  - intros q Hq. by rewrite lookup_delete_ne.
  - intros q bs Hq (f & Hf & Hs). exists f. by rewrite lookup_delete_ne.
  - apply lookup_delete_eq.
Qed.

Lemma make_loop_core p n i (d : t G) :
  let d' := (make_loop p n i d).2 in
  files_ d' = files_ d /\ open_ d' = open_ d /\ next_id_ d' = next_id_ d /\ powered_ d' = powered_ d.
Proof.
  revert i d. induction n as [|n IH]; intros i d; simpl; [done|].
  destruct (_ && _); [apply IH|]. destruct (bool_decide _); [done|].
  match goal with |- context [make_loop p n (S i) ?d1] => by destruct (IH (S i) d1) as (-> & -> & -> & ->) end.
Qed.

Lemma make_directories_sim (d : t G) p r d' :
  Disk.good d -> make_directories p d = (r, d') -> Disk.same d d'.
Proof.
  intros Hg. unfold make_directories. destruct (negb _); [intros [= <- <-]; by apply core_same|].
  destruct (normalize p) as [|a q] eqn:E; [intros [= <- <-]; by apply core_same|].
  intros Hm. pose proof (make_loop_core (a :: q) (S (length (a :: q))) 0 d) as C.
  rewrite Hm in C. destruct C as (? & ? & ? & ?). by apply core_same.
Qed.

Lemma list_directory_sim (d : t G) dir r d' :
  Disk.good d -> Disk.dir_path dir -> list_directory dir d = (r, d') ->
  Disk.same d d' /\
  forall names, r = Ok names -> NoDup names /\
    forall name, name <> [] -> slash ∉ name -> is_Some (Disk.files d !! join dir name) -> name ∈ names.
Proof.
  intros Hg Hd. unfold list_directory. rewrite normalize_dir by done.
  assert (Disk.same d d) as S by (by apply core_same).
  destruct (negb (powered_ d)); [by intros [= <- <-]|].
  destruct (negb _); [by intros [= <- <-]|]. intros [= <- <-].
  split; [done|]. intros names [= <-]. split.
  - rewrite merge_sort_Permutation. apply NoDup_elements.
  - intros name _ Hn [b Hb]. rewrite merge_sort_Permutation. apply elem_of_elements, elem_of_union_l.
    destruct (join_parts dir name Hd Hn) as [Hpar Hbase].
    apply elem_of_list_to_set, list_elem_of_fmap. exists (join dir name). split; [done|].
    apply list_elem_of_filter. split; [done|].
    simpl in Hb. rewrite lookup_fmap in Hb. destruct (files_ d !! join dir name) as [f|] eqn:Ef; [|done].
    apply list_elem_of_fmap. exists (join dir name, f). split; [done|]. by apply elem_of_map_to_list.
Qed.

(** ** Power cuts *)

Lemma survive_spec keep_p tear_p ws image lost (g : G) :
  Forall write_ok ws ->
  exists ws', Forall write_ok ws' /\ (survive keep_p tear_p ws image lost g).1.1 = replay image ws' /\
    (forall n, Forall (fun w => n <= w_offset w) ws -> Forall (fun w => n <= w_offset w) ws') /\
    (Forall (fun w => w_bytes w = []) ws -> Forall (fun w => w_bytes w = []) ws').
Proof.
  intros Hw. revert image lost g. induction Hw as [|w ws Hw1 _ IH]; intros image lost g.
  { exists []. split_and!; [constructor | done | constructor | constructor]. }
  simpl. destruct (next_bool_with_probability keep_p g) as [keep g1].
  set (pick := if keep then _ else _). destruct pick as [applied g2].
  set (w' := mkWrite (w_offset w) (ztake applied (w_bytes w))).
  assert (write_ok w') as Hw' by (by apply write_ok_torn).
  assert ((if 0 <? applied then apply_bytes image (w_offset w) (ztake applied (w_bytes w)) else image) =
    replay image [w']) as ->.
  { simpl. destruct (0 <? applied) eqn:E; [done|]. bool_prop. unfold w'. simpl. by rewrite ztake_le. }
  destruct (applied <? zlen (w_bytes w)).
  - exists [w']. split_and!; [by apply Forall_singleton | done | intros n Hn | intros Hn];
      apply Forall_cons in Hn as [Hn _]; apply Forall_singleton; [done|].
    unfold w', ztake. simpl. by rewrite Hn, take_nil.
  - destruct (IH (replay image [w']) (u64 (lost + (zlen (w_bytes w) - applied))) g2) as (ws' & F & E & S & S').
    exists (w' :: ws'). split_and!; [by constructor | done | intros n Hn | intros Hn];
      apply Forall_cons in Hn as [Hn Hr]; constructor; auto.
    unfold w', ztake. simpl. by rewrite Hn, take_nil.
Qed.

(** A file on the platter after a power cut: no queue, and some of the queue applied. *)
Definition survivor (f f' : File) : Prop :=
  exists ws, Forall write_ok ws /\ f' = mkFile (replay (durable f) ws) (replay (durable f) ws) [] /\
    (forall n, Forall (fun w => n <= w_offset w) (pending f) -> Forall (fun w => n <= w_offset w) ws) /\
    (Forall (fun w => w_bytes w = []) (pending f) -> Forall (fun w => w_bytes w = []) ws).

Lemma crash_files keep_p tear_p l (d : t G) :
  NoDup l.*1 -> Forall (fun e => file_good e.2) l ->
  let d' := foldl (crash_file keep_p tear_p) d l in
  (forall p, p ∉ l.*1 -> files_ d' !! p = files_ d !! p) /\
  (forall p f, (p, f) ∈ l -> exists f', files_ d' !! p = Some f' /\ survivor f f').
Proof.
  revert d. induction l as [|[p f] l IH]; intros d Hn Hg; simpl.
  { split; [done|]. intros p f Hin. by apply elem_of_nil in Hin. }
  apply NoDup_cons in Hn as [Hp Hn]. apply Forall_cons in Hg as [Hf Hg].
  destruct (survive_spec keep_p tear_p (pending f) (durable f) (bytes_lost_ d) (rng_ d) (fg_writes _ Hf))
    as (ws & W & E & S).
  destruct (survive _ _ _ _ _ _) as [[image lost] g]. simpl in E. subst image.
  set (d1 := store _ _ _). destruct (IH d1 Hn Hg) as [Out In]. split.
  - intros q Hq. apply not_elem_of_cons in Hq as [Hq1 Hq]. rewrite Out by done. simpl.
    by rewrite lookup_insert_ne.
  - intros q f0 Hin. apply elem_of_cons in Hin as [[= -> ->] | Hin]; [|by apply In].
    rewrite Out by done. simpl. rewrite lookup_insert_eq. eexists. split; [done|]. by exists ws.
Qed.

Definition crashed (d d' : t G) : Prop := d' = power_on (crash d).

Lemma crash_survivors (d : t G) :
  Disk.good d ->
  forall p, match files_ d !! p with
            | Some f => exists f', files_ (power_on (crash d)) !! p = Some f' /\ survivor f f'
            | None => files_ (power_on (crash d)) !! p = None
            end.
Proof.
  intros [G1 _] p. unfold power_on, crash.
  assert (in_order (files_ d) ≡ₚ map_to_list (files_ d)) as Perm by apply merge_sort_Permutation.
  match goal with |- context [foldl (crash_file ?k ?t) ?d1 _] =>
    destruct (crash_files k t (in_order (files_ d)) d1) as [Out In] end.
  { rewrite Perm. apply NoDup_fst_map_to_list. }
  { rewrite Perm. apply Forall_forall. intros [q f] Hq. apply elem_of_map_to_list in Hq. by apply (G1 q). }
  cbn [files_ set] in *.
  destruct (files_ d !! p) as [f|] eqn:E.
  - apply In. rewrite Perm. by apply elem_of_map_to_list.
  - rewrite Out; [done|]. rewrite Perm. intros Hin. apply list_elem_of_fmap in Hin as ([q f] & -> & Hin).
    apply elem_of_map_to_list in Hin. simpl in *. congruence.
Qed.

Lemma survivor_good f f' : file_good f -> survivor f f' -> file_good f'.
Proof.
  intros [F1 F2 F3 F4] (ws & W & -> & _). split; simpl; auto using replay_bytes, replay_size.
Qed.

Lemma crash_good (d : t G) : Disk.good d -> Disk.good (power_on (crash d)).
Proof.
  intros Hg. split_and!; [|by apply map_Forall_empty | done].
  intros p f' Hf'. pose proof (crash_survivors d Hg p) as C. destruct (files_ d !! p) as [f|] eqn:E.
  - destruct C as (f1 & E1 & S). rewrite E1 in Hf'. injection Hf' as <-.
    eapply survivor_good; [|done]. by eapply good_file.
  - congruence.
Qed.

Lemma crash_settled (d : t G) p bs :
  Disk.good d -> Disk.settled d p bs -> Disk.settled (power_on (crash d)) p bs.
Proof.
  intros Hg (f & Hf & P1 & P2). pose proof (crash_survivors d Hg p) as C. rewrite Hf in C.
  destruct C as (f' & E & ws & W & -> & S & _). exists (mkFile (replay (durable f) ws) (replay (durable f) ws) []).
  split; [done|]. split; [|constructor]. simpl. apply replay_prefix; auto.
Qed.

Lemma replay_nothing image ws : Forall write_ok ws -> Forall (fun w => w_bytes w = []) ws -> replay image ws = image.
Proof.
  intros Hw He. induction Hw as [|w ws [Ho _ _] _ IH]; [done|]. apply Forall_cons in He as [E He].
  simpl. rewrite apply_bytes_overwrite, E by done. by apply IH.
Qed.

(** Replaying writes never shortens an image, and a write that starts at its end or behind it
    shows. *)
Lemma replay_longer ws : forall image,
  Forall write_ok ws -> zlen image <= zlen (replay image ws) /\
  (zlen (replay image ws) = zlen image -> Forall (fun w => zlen image <= w_offset w) ws ->
   Forall (fun w => w_bytes w = []) ws).
Proof.
  induction ws as [|w ws IH]; intros image Hw; [by split|]. apply Forall_cons in Hw as [[Ho _ _] Hw]. simpl.
  destruct (IH (apply_bytes image (w_offset w) (w_bytes w)) Hw) as [I1 I2].
  rewrite apply_bytes_overwrite in * by done. rewrite zlen_overwrite in * by done.
  pose proof (zlen_nonneg (w_bytes w)). destruct (_ =? 0) eqn:E; bool_prop.
  - split; [done|]. intros Hz Hs. apply Forall_cons in Hs as [_ Hs]. constructor; [by apply zlen_0 | auto].
  - split; [lia|]. intros Hz Hs. apply Forall_cons in Hs as [Hs _]. lia.
Qed.

Lemma crash_whole (d : t G) p b :
  Disk.good d -> Disk.settled d p b -> Disk.files d !! p = Some b -> Disk.files (power_on (crash d)) !! p = Some b.
Proof.
  intros Hg (f & Hf & P1 & P2). cbn [Disk.files sim_view]. rewrite !lookup_fmap, Hf. intros [= E].
  pose proof (good_file _ _ _ Hg Hf) as [F1 F2 F3 F4]. rewrite E in F3.
  pose proof (crash_survivors d Hg p) as C. rewrite Hf in C. destruct C as (f' & -> & ws & W & -> & _ & S).
  destruct (replay_longer (pending f) (durable f) F2) as [L1 L2]. rewrite <- F3 in *.
  pose proof (prefix_length _ _ P1) as L3. assert (b = durable f) as Eb.
  { destruct P1 as [rest Er]. rewrite Er in *. rewrite zlen_app in L1.
    assert (rest = []) as -> by (apply zlen_0; pose proof (zlen_nonneg rest); lia). by rewrite app_nil_r. }
  simpl. rewrite replay_nothing; [by rewrite Eb | done |]. apply S, L2; [by rewrite Eb | by rewrite <- Eb].
Qed.

#[global] Instance sim_removes : Disk.removes (t G).
Proof.
  split. intros d p (_ & _ & Pw) Hp [b Hb]. cbn [Disk.remove sim_disk].
  change (Disk.files d) with (visible <$> files_ d) in Hb. unfold remove. rewrite Pw, normalize_file by done. simpl. rewrite lookup_fmap in Hb.
  by destruct (files_ d !! p).
Qed.

#[global] Instance sim_steady : Disk.steady (t G).
Proof.
  split; [apply _ | |].
  - intros d f p' b' data off r d' Hg _ [Ho _] Hb Hl E. pose proof E as L. apply pwrite_sim in L; auto.
    cbn [Disk.pwrite sim_disk] in E. unfold pwrite in E.
    destruct (resolve f true d) as [[p fl]|e]; [|injection E as <- <-; by apply core_same].
    destruct (draw _ d) as [broken d1] eqn:Dr. apply draw_same in Dr; [|done].
    destruct broken; [injection E as <- <-; done|].
    destruct (zlen data =? 0) eqn:E0; [injection E as <- <-; by bool_prop|].
    destruct (_ || _); injection E as <- <-; done.
  - intros d f p b (_ & _ & Pw) [[m Hm] Hf]. cbn [Disk.size sim_disk].
    simpl in Hm, Hf. unfold size, resolve. rewrite Pw. simpl. rewrite lookup_fmap in Hm.
    rewrite lookup_fmap in Hf.
    destruct (open_ d !! f) as [h|]; [|done]. injection Hm as <- _.
    destruct (files_ d !! h_path h) as [fl|]; [|done]. by injection Hf as <-.
Qed.

#[global] Instance sim_crash_laws : Disk.crash_laws (t G) crashed.
Proof.
  split. intros d d' Hg ->. split_and!.
  - by apply crash_good.
  - apply fmap_empty.
  - apply set_eq. intros p. unfold Disk.files, sim_view. rewrite !dom_fmap, !elem_of_dom. pose proof (crash_survivors d Hg p) as C.
    destruct (files_ d !! p) as [f|]; [|by rewrite C].
    destruct C as (f' & -> & _). split; eauto.
  - intros p bs. by apply crash_settled.
  - intros p b. by apply crash_whole.
Qed.

#[global] Instance sim_laws : Disk.laws (t G).
Proof.
  split.
  - intros d p b Hg. simpl. rewrite lookup_fmap. destruct (files_ d !! p) as [f|] eqn:E; [|done].
    intros [= <-]. pose proof (good_file _ _ _ Hg E) as [F1 F2 -> F4].
    split; [by apply replay_bytes|]. pose proof (replay_size _ _ F4 F2).
    unfold kMaxFileBytes in *. change (Z.shiftl 1 30) with (2 ^ 30) in *. lia.
  - intros d p bs Hg (f & Hf & P1 & P2). exists (visible f). simpl. rewrite lookup_fmap, Hf. split; [done|].
    pose proof (good_file _ _ _ Hg Hf) as [F1 F2 -> F4]. by apply replay_prefix.
  - intros d p bs cs Hp (f & Hf & P1 & P2). exists f. split; [done|]. split; [by etrans|].
    apply prefix_at in Hp as [Hp _]. eapply Forall_impl; [exact P2|]. simpl. lia.
  - exact open_sim.
  - intros d f (G1 & G2 & G3). simpl. rewrite fmap_delete. split_and!; auto. by apply map_Forall_delete.
  - intros d f p b data off r d' Hg Ho Hoff Hb Hl E.
    apply pwrite_sim in E as [? | (q & c & k & Ho' & R)]; auto; [|lia]. right. exists k.
    by destruct (opened_fun _ _ _ _ _ _ Ho Ho') as [<- <-].
  - intros d f p b n off r d' Hg Ho Hn Hoff E. apply pread_sim in E as [S R]; auto; [|lia]. split; [done|].
    intros bs Hr. destruct (R bs Hr) as (q & c & Ho' & ->). by destruct (opened_fun _ _ _ _ _ _ Ho Ho') as [<- <-].
  - intros d f n off d'. simpl. unfold pread, resolve. repeat case_match; congruence.
  - intros d f p b r d' Hg Ho E. apply fsync_sim in E as [S R]; auto. split; [done|].
    intros Hr. destruct (R Hr) as (q & c & Ho' & St). by destruct (opened_fun _ _ _ _ _ _ Ho Ho') as [<- <-].
  - intros d f p b n r d' Hg Ho Hn E. apply truncate_sim in E; auto; [|lia]. destruct r as [u|e]; [|done].
    destruct E as (q & c & Ho' & R). by destruct (opened_fun _ _ _ _ _ _ Ho Ho') as [<- <-].
  - intros d f p b r d' Hg Ho. simpl. unfold size. destruct (resolve f false d) as [[q fl]|e] eqn:R.
    + apply resolve_spec in R as [Ho' _]. intros [= <- <-]. split; [by apply core_same|].
      intros n [= <-]. by destruct (opened_fun _ _ _ _ _ _ Ho Ho') as [<- <-].
    + intros [= <- <-]. split; [by apply core_same | done].
  - exact remove_sim.
  - exact make_directories_sim.
  - exact list_directory_sim.
Qed.

(** ** Runs of calls and power cuts *)

Inductive Op :=
  | Open (path : chars) (mode : OpenMode)
  | Close (file : Z)
  | Write (file : Z) (data : list Z) (offset : Z)
  | Read (file n offset : Z)
  | Sync (file : Z)
  | Truncate (file size : Z)
  | Remove (path : chars)
  | MakeDirectories (path : chars)
  | PowerCut.

Definition op_ok (o : Op) : Prop :=
  match o with
  | Open path _ | Remove path => Disk.file_path path
  | Write _ data offset => 0 <= offset /\ bytes_ok data /\ zlen data < 2 ^ 64
  | Read _ n offset => 0 <= n /\ 0 <= offset
  | Truncate _ size => 0 <= size
  | _ => True
  end.

Definition perform (d : t G) (o : Op) : t G :=
  match o with
  | Open path mode => (open path mode d).2
  | Close file => close file d
  | Write file data offset => (pwrite file data offset d).2
  | Read file n offset => (pread file n offset d).2
  | Sync file => (fsync file d).2
  | Truncate file n => (truncate file n d).2
  | Remove path => (remove path d).2
  | MakeDirectories path => (make_directories path d).2
  | PowerCut => power_on (crash d)
  end.

Lemma perform_good (d : t G) o : Disk.good d -> op_ok o -> Disk.good (perform d o).
Proof.
  intros Hg Ho. destruct o; cbn [op_ok perform] in *.
  - destruct (open path mode d) as [[f|e] d'] eqn:E; apply open_sim in E; auto; apply E.
  - exact (proj1 (Disk.close_law (D := t G) d file Hg)).
  - destruct Ho as (? & ? & ?). destruct (pwrite _ _ _ _) as [r d'] eqn:E.
    apply pwrite_sim in E as [(e & _ & S) | (p & b & k & _ & S & _)]; auto; apply S.
  - destruct Ho. destruct (pread _ _ _ _) as [r d'] eqn:E. apply pread_sim in E as [S _]; auto; apply S.
  - destruct (fsync _ _) as [r d'] eqn:E. apply fsync_sim in E as [S _]; auto; apply S.
  - destruct (truncate _ _ _) as [[u|e] d'] eqn:E; apply truncate_sim in E; auto.
    + destruct E as (p & b & _ & S & _). apply S. + apply E.
  - destruct (remove _ _) as [[u|e] d'] eqn:E; apply remove_sim in E; auto; apply E.
  - destruct (make_directories _ _) as [r d'] eqn:E. apply make_directories_sim in E; auto; apply E.
  - by apply crash_good.
Qed.

Lemma new_good rng faults : Disk.good (new rng faults : t G).
Proof. split_and!; [apply map_Forall_empty | apply map_Forall_empty | done]. Qed.

End Laws.
End SimDisk.

(** ** Properties *)

(** C26: The simulated disk implements the disk interface the storage layer is proved
    against, call by call and for every fault configuration, and its power cut keeps every
    handle closed, every file present and every settled byte in place. *)
Theorem sim_disk_refines_interface (G : Type) (RG : Random G) :
  Disk.laws (SimDisk.t G) /\ Disk.steady (SimDisk.t G) /\ Disk.crash_laws (SimDisk.t G) SimDisk.crashed.
Proof. split_and!; apply _. Qed.

(** The equation [fsync] is built on.  After any sequence of calls and power cuts on a
    new disk, with I/O errors and torn writes at will, replaying the queued writes of a file
    onto its durable image gives its visible image. *)
Theorem replay_gives_visible (G : Type) (RG : Random G) (rng : G) (faults : SimDisk.DiskFaultConfig)
    (ops : list SimDisk.Op) (p : chars) (f : SimDisk.File) :
  Forall SimDisk.op_ok ops ->
  SimDisk.files_ (foldl SimDisk.perform (SimDisk.new rng faults) ops) !! p = Some f ->
  SimDisk.visible f = SimDisk.replay (SimDisk.durable f) (SimDisk.pending f).
Proof.
  intros Ho. assert (Disk.good (foldl SimDisk.perform (SimDisk.new rng faults) ops)) as [G1 _].
  { generalize (SimDisk.new_good rng faults). generalize (SimDisk.new rng faults).
    induction Ho as [|o ops Ho1 _ IH]; intros d Hd; simpl; [done|]. by apply IH, SimDisk.perform_good. }
  intros Hf. apply (G1 p f Hf).
Qed.

Lemma replay_gives_visible_witness :
  let half := S754_finite false 4503599627370496 (-53) in
  let faults := SimDisk.mkFaults half half (S754_zero false) in
  let ops := [SimDisk.Open (lit "a") kCreate; SimDisk.Write 0 [1; 2; 3] 0; SimDisk.Sync 0;
              SimDisk.Write 0 [9; 9] 2; SimDisk.Truncate 0 3; SimDisk.Write 0 [7] 5] in
  exists f, SimDisk.files_ (foldl SimDisk.perform (SimDisk.new 0 faults) ops) !! lit "a" = Some f /\
    SimDisk.visible f = [1; 2; 9; 0; 0; 7] /\
    SimDisk.visible f = SimDisk.replay (SimDisk.durable f) (SimDisk.pending f).
Proof.
  intros half faults ops. eexists. split; [vm_compute; reflexivity|]. split; [reflexivity|].
  eapply (replay_gives_visible Z counter_random 0 faults ops (lit "a")); [|vm_compute; reflexivity].
  subst half faults ops. repeat constructor; try lia; try done.
Defined.

(** A bit flip breaks the equation.  When a queued write repeats the byte that is on
    the platter, [corrupt_random_byte] takes the visible byte for the durable one and flips
    both; the next [fsync] then writes the good byte to the platter, reports success and
    leaves readers looking at a byte that is on no platter. *)
Theorem bit_flip_breaks_replay :
  let zero := S754_zero false in
  let ops := [SimDisk.Open (lit "a") kCreate; SimDisk.Write 0 [7] 0; SimDisk.Sync 0; SimDisk.Write 0 [7] 0] in
  let d := foldl SimDisk.perform (SimDisk.new 0 (SimDisk.mkFaults zero zero zero)) ops in
  let '(flipped, d) := SimDisk.corrupt_random_byte d in
  let '(st, d) := SimDisk.fsync 0 d in
  flipped = true /\ st = Ok tt /\
  exists f, SimDisk.files_ d !! lit "a" = Some f /\ SimDisk.pending f = [] /\
    SimDisk.durable f = [7] /\ SimDisk.visible f <> [7].
Proof. vm_compute. split_and!; [done | done |]. eexists. by split_and!. Qed.
