(* ===== verification/Segment.v ===== *)
(** * Log segments

    Models [src/src/storage/segment.h]/[segment.cpp]: one [<base_offset>.log] file with its
    index sidecar.  A segment is the record [Segment.t] of the C++ members; the disk behind
    [disk_] is an implementation of the interface of [Disk.v], passed along explicitly, and
    every operation returns its result, the segment and the disk.

    Loops over a file run on fuel, one unit per iteration, starting from the number of bytes
    in front of them: every iteration passes at least one whole batch header.  A loop that
    ran out would report [kNone], an error code the program never fails with;
    [SegmentFacts.v] proves what the operations do without that case. *)
From S2P Require Import Prelude Base Crc32c RecordBatch SparseIndex Disk.
From Stdlib Require String.

(** ** File names *)

Definition kOffsetDigits : nat := 20.
Definition kLogSuffix : chars := lit ".log".
Definition kIndexSuffix : chars := lit ".index".

(** The character of a decimal digit. *)
Definition digit (v : Z) : ascii := ascii_of_nat (48 + Z.to_nat v).

(** [for (i = kOffsetDigits; i-- > 0 && v > 0;)] *)
Fixpoint fill_digits (i : nat) (v : Z) (name : chars) : chars :=
  match i with
  | O => name
  | S i' => if 0 <? v then fill_digits i' (v / 10) (<[i' := digit (v mod 10)]> name) else name
  end.

Definition offset_to_name (offset : Z) (suffix : chars) : chars :=
  fill_digits kOffsetDigits offset (replicate kOffsetDigits (digit 0)) ++ suffix.

(** The digit loop of [parse_log_name]. *)
Fixpoint parse_digits (value : Z) (name : chars) : Result Z :=
  match name with
  | [] => Ok value
  | c :: name' =>
      let v := Z.of_nat (nat_of_ascii c) - 48 in
      fail_if (v <? 0) || (9 <? v) with kInvalidArgument else
      parse_digits (u64 (value * 10 + v)) name'
  end.

Module Segment.

Record Options := mkOptions { max_bytes : Z; index_interval_bytes : Z }.

Record RecoveryReport := mkReport {
  batches_scanned : Z;
  bytes_truncated : Z;
  valid_bytes : Z;
  report_next_offset : Z;
  index_was_usable : bool;
  truncated : bool }.

Record t := mk {
  base_offset_ : Z;
  next_offset_ : Z;
  options_ : Options;
  log_file_ : Z;
  log_path_ : chars;
  index_path_ : chars;
  size_bytes_ : Z;
  index_ : SparseIndex.t;
  recovery_ : RecoveryReport }.

#[global] Instance Segment_eta : Settable t := fun s =>
  mk (base_offset_ s) (next_offset_ s) (options_ s) (log_file_ s) (log_path_ s) (index_path_ s)
    (size_bytes_ s) (index_ s) (recovery_ s).

Definition empty (s : t) : bool := size_bytes_ s =? 0.

Definition log_name (offset : Z) : chars := offset_to_name offset kLogSuffix.
Definition index_name (offset : Z) : chars := offset_to_name offset kIndexSuffix.

Definition parse_log_name (name : chars) : Result Z :=
  fail_if negb (length name =? kOffsetDigits + length kLogSuffix)%nat with kInvalidArgument else
  fail_if negb (bool_decide (drop kOffsetDigits name = kLogSuffix)) with kInvalidArgument else
  parse_digits 0 (take kOffsetDigits name).

Section Operations.
Context {D : Type} `{Disk.t D}.

(** Step 1 of [recover]: the sidecar, as far as it can be read and vouched for. *)
Definition read_index (index_path : chars) (file_size : Z) (index : SparseIndex.t) (d : D) : SparseIndex.t * D :=
  match Disk.open index_path kRead d with
  | (fail _, d) => (index, d)
  | (Ok id, d) =>
      let '(index, d) :=
        match Disk.size id d with
        | (fail _, d) => (index, d)
        | (Ok n, d) =>
            if 0 <? n then
              match Disk.pread id n 0 d with
              | (Ok bytes, d) => (SparseIndex.decode bytes file_size, d)
              | (fail _, d) => (index, d)
              end
            else (index, d)
        end in
      (index, Disk.close id d)
  end.

(** The claim of an index entry, checked against the bytes it points at. *)
Definition usable (base : Z) (candidate : IndexEntry) (got : Result (list Z)) : bool :=
  match got with
  | fail _ => false
  | Ok bytes =>
      (zlen bytes =? kBatchHeaderBytes) &&
      match decode_header bytes with
      | Ok h => base_offset h =? u64 (base + rel_offset candidate)
      | fail _ => false
      end
  end.

(** Step 2: walk back to the last entry whose claim holds. *)
Fixpoint find_start (base log_file : Z) (fuel : nat) (index : SparseIndex.t) (d : D)
  : SparseIndex.t * option IndexEntry * D :=
  match fuel with
  | O => (index, None, d)
  | S fuel' =>
      match last index with
      | None => (index, None, d)
      | Some candidate =>
          let '(got, d) := Disk.pread log_file kBatchHeaderBytes (file_pos candidate) d in
          if usable base candidate got then (index, Some candidate, d)
          else find_start base log_file fuel' (SparseIndex.truncate_from index (file_pos candidate)) d
      end
  end.

(** The variables of the scan loop. *)
Record Scan := mkScan {
  sc_pos : Z;
  sc_expect : Z;
  sc_index : SparseIndex.t;
  sc_batches : Z }.

(** Step 3: validate batch after batch; [Ok] is a scan that stopped, at the end of the file
    or in front of something that does not check out. *)
Fixpoint scan_tail (s : t) (file_size : Z) (fuel : nat) (sc : Scan) (d : D) : Result Scan * D :=
  match fuel with
  | O => (fail kNone, d)
  | S fuel' =>
      let pos := sc_pos sc in
      if negb (pos <? file_size) then (Ok sc, d)
      else
        match Disk.pread (log_file_ s) kBatchHeaderBytes pos d with
        | (fail e, d) => (fail e, d)
        | (Ok got, d) =>
            if zlen got <? kBatchHeaderBytes then (Ok sc, d)
            else
              match decode_header got with
              | fail _ => (Ok sc, d)
              | Ok h =>
                  let total := total_bytes h in
                  if file_size - pos <? total then (Ok sc, d)
                  else
                    match Disk.pread (log_file_ s) total pos d with
                    | (fail e, d) => (fail e, d)
                    | (Ok body, d) =>
                        if zlen body <? total then (Ok sc, d)
                        else if negb (ok (validate_batch body)) then (Ok sc, d)
                        else if negb (base_offset h =? sc_expect sc) then (Ok sc, d)
                        else
                          scan_tail s file_size fuel'
                            (mkScan (u32 (pos + total)) (next_offset h)
                               (SparseIndex.maybe_add (sc_index sc) (u32 (base_offset h - base_offset_ s)) pos
                                  (index_interval_bytes (options_ s)))
                               (u64 (sc_batches sc + 1))) d
                    end
              end
        end
  end.

Definition recover (s : t) (d : D) : Status * t * D :=
  match Disk.size (log_file_ s) d with
  | (fail e, d) => (fail e, s, d)
  | (Ok size, d) =>
      if max_bytes (options_ s) <? size then (fail kCorruptRecord, s, d)
      else
        let file_size := u32 size in
        let '(index, d) := read_index (index_path_ s) file_size (index_ s) d in
        let '(index, start, d) := find_start (base_offset_ s) (log_file_ s) (length index) index d in
        let scan_pos := match start with Some e => file_pos e | None => 0 end in
        let expect := match start with Some e => u64 (base_offset_ s + rel_offset e) | None => base_offset_ s end in
        let r := recovery_ s in
        let was_usable := match start with Some _ => true | None => index_was_usable r end in
        match scan_tail s file_size (S (Z.to_nat file_size)) (mkScan scan_pos expect index (batches_scanned r)) d with
        | (fail e, d) => (fail e, s <| index_ := index |>, d)
        | (Ok sc, d) =>
            let pos := sc_pos sc in
            let finish index bytes_truncated truncated d :=
              (Ok tt,
               mk (base_offset_ s) (sc_expect sc) (options_ s) (log_file_ s) (log_path_ s) (index_path_ s)
                 pos index (mkReport (sc_batches sc) bytes_truncated pos (sc_expect sc) was_usable truncated), d) in
            if pos <? file_size then
              match Disk.truncate (log_file_ s) pos d with
              | (fail e, d) => (fail e, s <| index_ := sc_index sc |>, d)
              | (Ok _, d) => finish (SparseIndex.truncate_from (sc_index sc) pos) (file_size - pos) true d
              end
            else finish (sc_index sc) (bytes_truncated r) (truncated r) d
        end
  end.

(** [~Segment] *)
Definition destroy (s : t) (d : D) : D :=
  if log_file_ s =? kInvalidFile then d else Disk.close (log_file_ s) d.

(** A segment that fails to open is destroyed on the way out. *)
Definition open (dir : chars) (offset : Z) (options : Options) (d : D) : Result t * D :=
  let seg := mk offset offset options kInvalidFile (join dir (log_name offset)) (join dir (index_name offset))
    0 [] (mkReport 0 0 0 0 false false) in
  match Disk.open (log_path_ seg) kCreate d with
  | (fail e, d) => (fail e, destroy seg d)
  | (Ok file, d) =>
      match recover (seg <| log_file_ := file |>) d with
      | (fail e, seg, d) => (fail e, destroy seg d)
      | (Ok _, seg, d) => (Ok seg, d)
      end
  end.

Definition append (framed : list Z) (header : BatchHeader) (s : t) (d : D) : Status * t * D :=
  if negb (base_offset header =? next_offset_ s) then (fail kInvalidArgument, s, d)
  else if u32 (max_bytes (options_ s) - size_bytes_ s) <? zlen framed then (fail kMessageTooLarge, s, d)
  else
    match Disk.pwrite (log_file_ s) framed (size_bytes_ s) d with
    | (fail e, d) => (fail e, s, d)
    | (Ok written, d) =>
        if negb (written =? zlen framed) then (fail kIoError, s, d)
        else
          (Ok tt,
           s <| index_ := SparseIndex.maybe_add (index_ s) (u32 (base_offset header - base_offset_ s))
                            (size_bytes_ s) (index_interval_bytes (options_ s)) |>
             <| size_bytes_ := u32 (size_bytes_ s + u32 (zlen framed)) |>
             <| next_offset_ := next_offset header |>, d)
    end.

Definition fsync (s : t) (d : D) : Status * D := Disk.fsync (log_file_ s) d.

(** The header at [pos], as [read], [scan_headers] and [truncate_to] fetch it. *)
Definition header_at (s : t) (pos : Z) (d : D) : Result BatchHeader * D :=
  match Disk.pread (log_file_ s) kBatchHeaderBytes pos d with
  | (fail e, d) => (fail e, d)
  | (Ok got, d) =>
      if zlen got <? kBatchHeaderBytes then (fail kCorruptRecord, d)
      else
        match decode_header got with
        | fail _ => (fail kCorruptRecord, d)
        | Ok h => (Ok h, d)
        end
  end.

(** The walk of [read]: where the batch that contains [want] begins, and its size. *)
Fixpoint seek (s : t) (want : Z) (fuel : nat) (pos : Z) (d : D) : Result (Z * Z) * D :=
  match fuel with
  | O => (fail kNone, d)
  | S fuel' =>
      if negb (pos <? size_bytes_ s) then (Ok (pos, 0), d)
      else
        match header_at s pos d with
        | (fail e, d) => (fail e, d)
        | (Ok h, d) =>
            if want <? next_offset h then (Ok (pos, total_bytes h), d)
            else seek s want fuel' (u32 (pos + u32 (total_bytes h))) d
        end
  end.

(** The loop at the end of [read]: how many bytes of [got] are whole, valid batches. *)
Fixpoint whole_batches (got : list Z) (fuel : nat) (whole : Z) : Result Z :=
  match fuel with
  | O => fail kNone
  | S fuel' =>
      if whole + kBatchHeaderBytes <=? zlen got then
        let candidate := subslice got whole (zlen got - whole) in
        match decode_header candidate with
        | fail _ => fail kCorruptRecord
        | Ok h =>
            let total := total_bytes h in
            if zlen got <? whole + total then Ok whole
            else if negb (ok (validate_batch candidate)) then fail kCorruptRecord
            else whole_batches got fuel' (whole + total)
        end
      else Ok whole
  end.

(** [read] into a buffer of [out_size] bytes: the bytes it vouches for. *)
Definition read (s : t) (offset out_size : Z) (d : D) : Result (list Z) * D :=
  if next_offset_ s <=? offset then (Ok [], d)
  else
    let want := if offset <? base_offset_ s then base_offset_ s else offset in
    let pos := file_pos (SparseIndex.lookup (index_ s) (u32 (want - base_offset_ s))) in
    match seek s want (S (Z.to_nat (size_bytes_ s))) pos d with
    | (fail e, d) => (fail e, d)
    | (Ok (pos, first_total), d) =>
        if size_bytes_ s <=? pos then (Ok [], d)
        else if out_size <? first_total then (fail kMessageTooLarge, d)
        else
          let avail := size_bytes_ s - pos in
          let want_bytes := if avail <? out_size then avail else out_size in
          match Disk.pread (log_file_ s) want_bytes pos d with
          | (fail e, d) => (fail e, d)
          | (Ok got, d) => (let? whole := whole_batches got (S (length got)) 0 in Ok (ztake whole got), d)
          end
    end.

(** [scan_headers], with the state its visitor captures; [false] stops the walk. *)
Fixpoint scan_loop {A} (visit : A -> BatchHeader -> bool * A) (s : t) (fuel : nat) (pos : Z) (a : A) (d : D)
  : Result A * D :=
  match fuel with
  | O => (fail kNone, d)
  | S fuel' =>
      if negb (pos <? size_bytes_ s) then (Ok a, d)
      else
        match header_at s pos d with
        | (fail e, d) => (fail e, d)
        | (Ok h, d) =>
            let '(more, a) := visit a h in
            if negb more then (Ok a, d)
            else scan_loop visit s fuel' (u32 (pos + u32 (total_bytes h))) a d
        end
  end.

Definition scan_headers {A} (visit : A -> BatchHeader -> bool * A) (s : t) (a : A) (d : D) : Result A * D :=
  scan_loop visit s (S (Z.to_nat (size_bytes_ s))) 0 a d.

(** The walk of [truncate_to]: where the batch with base offset [offset] begins. *)
Fixpoint find_cut (s : t) (offset : Z) (fuel : nat) (pos : Z) (d : D) : Result Z * D :=
  match fuel with
  | O => (fail kNone, d)
  | S fuel' =>
      if negb (pos <? size_bytes_ s) then (fail kInvalidArgument, d)
      else
        match header_at s pos d with
        | (fail e, d) => (fail e, d)
        | (Ok h, d) =>
            if base_offset h =? offset then (Ok pos, d)
            else if offset <? base_offset h then (fail kInvalidArgument, d)
            else find_cut s offset fuel' (u32 (pos + u32 (total_bytes h))) d
        end
  end.

Definition truncate_to (offset : Z) (s : t) (d : D) : Status * t * D :=
  if next_offset_ s <=? offset then (Ok tt, s, d)
  else
    let pos := if base_offset_ s <? offset
      then file_pos (SparseIndex.lookup (index_ s) (u32 (offset - base_offset_ s))) else 0 in
    let '(found, d) :=
      if offset <=? base_offset_ s then (Ok pos, d)
      else find_cut s offset (S (Z.to_nat (size_bytes_ s))) pos d in
    match found with
    | fail e => (fail e, s, d)
    | Ok cut =>
        match Disk.truncate (log_file_ s) cut d with
        | (fail e, d) => (fail e, s, d)
        | (Ok _, d) =>
            (Ok tt, s <| size_bytes_ := cut |> <| next_offset_ := offset |>
                      <| index_ := SparseIndex.truncate_from (index_ s) cut |>, d)
        end
    end.

Definition flush_index (s : t) (d : D) : Status * D :=
  let out := SparseIndex.encode (index_ s) Buffer.empty_buffer in
  match Disk.open (index_path_ s) kCreate d with
  | (fail e, d) => (fail e, d)
  | (Ok id, d) =>
      let '(st, d) := Disk.truncate id 0 d in
      let '(st, d) :=
        if ok st && negb (Buffer.empty out) then
          match Disk.pwrite id (Buffer.slice out) 0 d with
          | (fail e, d) => (fail e, d)
          | (Ok _, d) => (st, d)
          end
        else (st, d) in
      (st, Disk.close id d)
  end.

End Operations.
End Segment.
