(* ===== verification/Chain.v ===== *)
(** * Chains of batches

    The specification side of a log file: a [chain] is a run of valid batches, each starting
    at the offset where the one before it ended; [valid_batches] is the longest chain a byte
    string starts with, the reference for recovery; an index entry is a [boundary] when it
    points at the start of a batch of the chain. *)
From S2P Require Import Prelude Base Crc32c RecordBatch SparseIndex.

(** ** Batches and chains *)

(** [b] is one whole batch with header [h]. *)
Definition is_batch (b : list Z) (h : BatchHeader) : Prop :=
  decode_header b = Ok h /\ validate_batch b = Ok tt /\ total_bytes h = zlen b.

(** Consecutive batches that take the offset from [from] to [next]. *)
Fixpoint chain (from : Z) (bs : list (list Z)) (next : Z) : Prop :=
  match bs with
  | [] => next = from
  | b :: bs' => exists h, is_batch b h /\ base_offset h = from /\ chain (next_offset h) bs' next
  end.

(** The batch a byte string starts with, when it starts with one that continues at [from]. *)
Definition first_batch (from : Z) (bytes : list Z) : option BatchHeader :=
  match decode_header bytes with
  | fail _ => None
  | Ok h =>
      if (total_bytes h <=? zlen bytes) && ok (validate_batch (ztake (total_bytes h) bytes)) &&
         (base_offset h =? from)
      then Some h else None
  end.

Fixpoint valid_loop (fuel : nat) (from : Z) (bytes : list Z) : list (list Z) * Z :=
  match fuel with
  | O => ([], from)
  | S fuel' =>
      match first_batch from bytes with
      | None => ([], from)
      | Some h =>
          let '(bs, next) := valid_loop fuel' (next_offset h) (zdrop (total_bytes h) bytes) in
          (ztake (total_bytes h) bytes :: bs, next)
      end
  end.

(** The longest chain [bytes] starts with, and the offset it ends at. *)
Definition valid_batches (from : Z) (bytes : list Z) : list (list Z) * Z :=
  valid_loop (length bytes) from bytes.

Abbreviation cat := (@concat Z).

Lemma is_batch_size b h : is_batch b h -> 52 <= zlen b <= kMaxBatchBytes.
Proof. intros (D & _ & T). apply decode_header_inv in D as (_ & D & _). lia. Qed.

(** The offsets of a batch: it holds at least one record, at most one per four bytes. *)
Lemma is_batch_records b h :
  bytes_ok b -> is_batch b h ->
  0 <= base_offset h < 2 ^ 64 /\ 0 < record_count h <= zlen b /\
  next_offset h = u64 (base_offset h + record_count h).
Proof.
  intros Hb (D & V & T). destruct (validate_batch_inv b Hb V) as (h' & vs & D' & _ & _ & Hn & Hp & Hl & Hz & _).
  rewrite D in D'. injection D' as <-.
  apply decode_header_inv in D as (D1 & D2 & _ & _ & Hrc & Hbo & _).
  pose proof (load_u64_range b 0 Hb). pose proof (load_u32_range b 48 Hb).
  pose proof (zlen_body_bytes vs) as B. rewrite <- Hz, zlen_zsub in B.
  assert (next_offset h = u64 (base_offset h + record_count h)) by (apply next_offset_spec; lia).
  split_and!; lia || done.
Qed.

(** What a builder frames is a batch. *)
Lemma batch_bytes_is_batch offset meta vs :
  0 <= offset < 2 ^ 64 -> meta_wf meta -> vs <> [] -> Forall bytes_ok vs ->
  52 + zlen (body_bytes vs) <= kMaxBatchBytes ->
  bytes_ok (batch_bytes offset meta vs) /\
  exists h, is_batch (batch_bytes offset meta vs) h /\ base_offset h = offset /\
    leader_epoch h = meta_leader_epoch meta /\ next_offset h = u64 (offset + zlen vs).
Proof.
  intros Ho Hmt Hv Hb Hm. assert (0 < zlen vs) as Hn by (destruct vs; [done | len]).
  pose proof (batch_bytes_decode offset meta vs [] Ho Hmt Hn Hb Hm) as Dh.
  rewrite app_nil_r in Dh. pose proof (zlen_body_bytes vs). unfold kMaxBatchBytes in *. split.
  - unfold batch_bytes. apply Forall_app. split; [|by apply body_bytes_ok].
    apply encode_header_ok; fields; [unfold byte_ok, kMagicV0; lia | apply attr_ok].
  - eexists. split; [split; [exact Dh | split; [by apply batch_bytes_valid|]]|].
    2:{ split_and!; [done | done | rewrite next_offset_spec; simpl; (done || lia)]. }
    rewrite zlen_batch_bytes. unfold total_bytes, kBatchLengthPrefixBytes. simpl. lia.
Qed.

Lemma decode_header_take bytes n : 52 <= n -> 52 <= zlen bytes -> decode_header (ztake n bytes) = decode_header bytes.
Proof.
  intros. rewrite <- (ztake_zdrop n bytes) at 2. by rewrite decode_header_app by len.
Qed.

Lemma first_batch_app from b h rest : is_batch b h -> base_offset h = from -> first_batch from (b ++ rest) = Some h.
Proof.
  intros (D & V & T) E. pose proof (decode_header_inv _ _ D) as (L & _).
  unfold first_batch. rewrite decode_header_app, D by done.
  replace (total_bytes h <=? zlen (b ++ rest)) with true by (symmetry; apply Z.leb_le; len).
  rewrite ztake_app, V by done. simpl. by rewrite (proj2 (Z.eqb_eq _ _) E).
Qed.

Lemma first_batch_inv from bytes h :
  first_batch from bytes = Some h ->
  is_batch (ztake (total_bytes h) bytes) h /\ base_offset h = from /\ 52 <= total_bytes h <= zlen bytes.
Proof.
  unfold first_batch. destruct (decode_header bytes) as [h'|] eqn:D; [|done].
  destruct (_ && _) eqn:E; [|done]. intros [= ->]. bool_prop.
  pose proof (decode_header_inv _ _ D) as (L & T & _).
  split_and!; try lia. split_and!.
  - by rewrite decode_header_take by lia.
  - destruct (validate_batch _) as [[]|]; done.
  - len.
Qed.

Lemma chain_app from bs cs next :
  chain from (bs ++ cs) next <-> exists mid, chain from bs mid /\ chain mid cs next.
Proof.
  revert from. induction bs as [|b bs IH]; intros from; simpl.
  - split; [eauto | by intros (mid & -> & ?)].
  - split.
    + intros (h & B & E & C). apply IH in C as (mid & C1 & C2). eauto 6.
    + intros (mid & (h & B & E & C1) & C2). exists h. split_and!; [done | done |]. apply IH. eauto.
Qed.

Lemma chain_fun from bs n1 n2 : chain from bs n1 -> chain from bs n2 -> n1 = n2.
Proof.
  revert from. induction bs as [|b bs IH]; intros from; simpl; [congruence|].
  intros (h1 & (D1 & _) & _ & C1) (h2 & (D2 & _) & _ & C2). rewrite D1 in D2. injection D2 as <-. eauto.
Qed.

Lemma chain_len from bs next : chain from bs next -> 52 * zlen bs <= zlen (cat bs).
Proof.
  revert from. induction bs as [|b bs IH]; intros from; simpl; [done|].
  intros (h & B & _ & C). apply is_batch_size in B. specialize (IH _ C). len.
Qed.

(** Offsets move forward, by at most one per byte. *)
Lemma chain_bounds from bs next :
  chain from bs next -> bytes_ok (cat bs) -> 0 <= from -> from + zlen (cat bs) < 2 ^ 64 ->
  from <= next <= from + zlen (cat bs) /\ (bs <> [] -> from < next).
Proof.
  revert from. induction bs as [|b bs IH]; intros from; simpl.
  { intros -> _ H0 _. rewrite zlen_nil. split; [lia | done]. }
  intros (h & B & E & C) Hb H0 Hmax. apply Forall_app in Hb as [Hb Hbs].
  destruct (is_batch_records b h Hb B) as (_ & Hr & Hn). rewrite zlen_app in *.
  pose proof (zlen_nonneg (cat bs)). rewrite wrap_small in Hn by lia.
  destruct (IH _ C Hbs) as [I1 I2]; try lia.
Qed.

(** ** The reference scan *)

Lemma valid_loop_spec fuel : forall from bytes,
  (length bytes <= fuel)%nat ->
  let '(bs, next) := valid_loop fuel from bytes in
  chain from bs next /\ exists rest, bytes = cat bs ++ rest /\ first_batch next rest = None.
Proof.
  induction fuel as [|fuel IH]; intros from bytes Hf; simpl.
  { destruct bytes; simpl in Hf; [|lia]. split; [done|]. by exists []. }
  destruct (first_batch from bytes) as [h|] eqn:F.
  2:{ split; [done|]. by exists bytes. }
  apply first_batch_inv in F as (B & E & T).
  specialize (IH (next_offset h) (zdrop (total_bytes h) bytes)).
  destruct (valid_loop fuel _ _) as [bs next].
  destruct IH as [C (rest & R & N)]. { unfold zdrop. rewrite length_drop. lia. }
  split; [by exists h|]. exists rest. split; [|done]. simpl. rewrite <- app_assoc, <- R. by rewrite ztake_zdrop.
Qed.

Lemma valid_batches_spec from bytes :
  let '(bs, next) := valid_batches from bytes in
  chain from bs next /\ exists rest, bytes = cat bs ++ rest /\ first_batch next rest = None.
Proof. by apply valid_loop_spec. Qed.

(** Any chain in front of the bytes is part of the longest one. *)
Lemma longest_chain bs next rest : forall from cs mid more,
  chain from bs next -> first_batch next rest = None -> chain from cs mid -> cat bs ++ rest = cat cs ++ more ->
  cs `prefix_of` bs.
Proof.
  induction bs as [|b bs IH]; intros from cs mid more C N C' E.
  - destruct cs as [|c cs]; [done|]. exfalso. simpl in C, C', E. destruct C' as (h & B & Eo & _).
    by rewrite C, E, <- app_assoc, (first_batch_app _ c h) in N.
  - destruct cs as [|c cs]; [apply prefix_nil|]. simpl in *.
    destruct C as (h & B & Eo & C). destruct C' as (h' & B' & Eo' & C').
    rewrite <- !app_assoc in E.
    assert (h = h') as <-.
    { pose proof (first_batch_app from b h (cat bs ++ rest) B Eo) as F. rewrite E in F.
      rewrite (first_batch_app from c h') in F by done. congruence. }
    assert (b = c) as <-.
    { destruct B as (_ & _ & T), B' as (_ & _ & T').
      apply (f_equal (ztake (total_bytes h))) in E. by rewrite !ztake_app in E by done. }
    apply app_inv_head in E. apply prefix_cons. eapply IH; eauto.
Qed.

Lemma valid_batches_unique from bytes bs next rest :
  chain from bs next -> bytes = cat bs ++ rest -> first_batch next rest = None ->
  valid_batches from bytes = (bs, next).
Proof.
  intros C E N. pose proof (valid_batches_spec from bytes) as V.
  destruct (valid_batches from bytes) as [bs' next']. destruct V as [C' (rest' & E' & N')].
  rewrite E in E'.
  assert (bs = bs') as <-.
  { apply (anti_symm prefix); [eapply (longest_chain bs' _ rest'); eauto | eapply (longest_chain bs _ rest); eauto]. }
  f_equal. by eapply chain_fun.
Qed.

(** A chain in front adds itself to the longest chain behind it. *)
Lemma valid_batches_app from cs mid rest :
  chain from cs mid ->
  valid_batches from (cat cs ++ rest) = (cs ++ (valid_batches mid rest).1, (valid_batches mid rest).2).
Proof.
  intros C. pose proof (valid_batches_spec mid rest) as V.
  destruct (valid_batches mid rest) as [bs next]. destruct V as [C' (rest' & E & N)]. simpl.
  apply (valid_batches_unique _ _ _ _ rest'); [apply chain_app; eauto | | done].
  by rewrite E, concat_app, app_assoc.
Qed.

(** ** Index entries as boundaries *)

(** [e] points at the start of batch [k] of the chain. *)
Definition boundary_at (base : Z) (bs : list (list Z)) (k : nat) (e : IndexEntry) : Prop :=
  file_pos e = zlen (cat (take k bs)) /\ 0 <= rel_offset e /\ chain base (take k bs) (base + rel_offset e).

Definition boundary (base : Z) (bs : list (list Z)) (e : IndexEntry) : Prop :=
  exists k, (k <= length bs)%nat /\ boundary_at base bs k e.

(** The entries are boundaries, possibly the end of the chain. *)
Record index_le (base : Z) (bs : list (list Z)) (ix : SparseIndex.t) : Prop := {
  ix_sorted : SparseIndex.sorted ix;
  ix_boundary : Forall (boundary base bs) ix }.

(** The entries point at batches of the chain. *)
Definition index_ok (base : Z) (bs : list (list Z)) (ix : SparseIndex.t) : Prop :=
  index_le base bs ix /\ Forall (fun e => file_pos e < zlen (cat bs)) ix.

Lemma boundary_app base bs cs e : boundary base bs e -> boundary base (bs ++ cs) e.
Proof.
  intros (k & Hk & B). exists k. rewrite length_app. split; [lia|].
  unfold boundary_at in *. by rewrite take_app_le by lia.
Qed.

Lemma index_le_nil base bs : index_le base bs [].
Proof. split; constructor. Qed.

Lemma index_ok_nil base bs : index_ok base bs [].
Proof. split; [apply index_le_nil | constructor]. Qed.

Lemma zlen_take_mono bs j k : (j <= k)%nat -> zlen (cat (take j bs)) <= zlen (cat (take k bs)).
Proof.
  intros. replace (take j bs) with (take j (take k bs)) by (rewrite take_take; f_equal; lia).
  rewrite <- (take_drop j (take k bs)) at 2. rewrite concat_app. len.
Qed.

Lemma zlen_take_lt from bs next j k :
  chain from bs next -> (j < k <= length bs)%nat -> zlen (cat (take j bs)) < zlen (cat (take k bs)).
Proof.
  intros C Hjk. assert (is_Some (bs !! j)) as [b Hb] by (apply lookup_lt_is_Some; lia).
  rewrite <- (take_drop_middle bs j b Hb) in C. apply chain_app in C as (mid & _ & (h & B & _)).
  apply is_batch_size in B. pose proof (zlen_take_mono bs (S j) k ltac:(lia)) as M.
  rewrite (take_S_r _ _ _ Hb), concat_app in M. simpl in M. len.
Qed.

Lemma boundary_pos base bs e : boundary base bs e -> file_pos e <= zlen (cat bs).
Proof.
  intros (k & Hk & P & _). rewrite P. rewrite <- (take_ge bs (length bs)) at 2 by lia.
  by apply zlen_take_mono.
Qed.

(** Adding the next batch to the index, as append and recovery do. *)
Lemma index_ok_add base bs b next ix interval rel pos :
  chain base bs next -> rel = next - base -> base <= next -> pos = zlen (cat bs) -> 0 < zlen b ->
  index_le base bs ix -> index_ok base (bs ++ [b]) (SparseIndex.maybe_add ix rel pos interval).
Proof.
  intros C Hr Hb Hp Hl [S F].
  assert (boundary base (bs ++ [b]) (mkIndexEntry rel pos)) as B.
  { exists (length bs). rewrite length_app. simpl. split; [lia|]. unfold boundary_at.
    rewrite take_app_length. simpl. split_and!; [done | lia |]. by replace (base + rel) with next by lia. }
  assert (Forall (fun e => boundary base (bs ++ [b]) e /\ file_pos e < zlen (cat (bs ++ [b]))) ix) as F'.
  { eapply Forall_impl; [exact F|]. intros e He. split; [by apply boundary_app|].
    apply boundary_pos in He. rewrite concat_app. simpl. len. }
  assert (Forall (fun e => boundary base (bs ++ [b]) e /\ file_pos e < zlen (cat (bs ++ [b])))
    (SparseIndex.maybe_add ix rel pos interval)) as A.
  { assert (Forall (fun e => boundary base (bs ++ [b]) e /\ file_pos e < zlen (cat (bs ++ [b])))
      (SparseIndex.add ix rel pos)) as A.
    { apply Forall_app. split; [done|]. apply Forall_singleton. split; [done|].
      rewrite concat_app. simpl. len. }
    unfold SparseIndex.maybe_add. destruct (last ix); [|done]. by repeat (case_match; [done|]). }
  apply Forall_and in A as [A1 A2]. split; [|done]. split; [by apply maybe_add_sorted | done].
Qed.

(** Cutting the chain at batch [k] and the index at its position. *)
Lemma index_ok_cut base bs ix k pos :
  (k <= length bs)%nat -> pos = zlen (cat (take k bs)) ->
  index_le base bs ix -> index_ok base (take k bs) (SparseIndex.truncate_from ix pos).
Proof.
  intros Hk -> [S F].
  assert (forall e, e ∈ SparseIndex.truncate_from ix (zlen (cat (take k bs))) ->
    boundary base (take k bs) e /\ file_pos e < zlen (cat (take k bs))) as A.
  { intros e He. apply truncate_from_elem in He as [He Hlt]; [|done]. split; [|done].
    rewrite Forall_forall in F. destruct (F e He) as (j & Hj & P & R & Ch). exists j.
    assert (j < k)%nat.
    { apply Nat.nle_gt. intros Hkj. pose proof (zlen_take_mono bs k j Hkj). lia. }
    rewrite length_take. split; [lia|]. unfold boundary_at. by rewrite take_take, Nat.min_l by lia. }
  split; [split; [by apply truncate_from_sorted|]|]; apply Forall_forall; intros e He; by apply A.
Qed.

(** Where a lookup for an offset of the chain starts the walk: in front of its batch. *)
Lemma index_ok_lookup base bs ix rel :
  index_le base bs ix -> 0 <= rel ->
  exists k, (k <= length bs)%nat /\ boundary_at base bs k (SparseIndex.lookup ix rel) /\
    rel_offset (SparseIndex.lookup ix rel) <= rel.
Proof.
  intros [S F] Hr. destruct (lookup_spec ix rel S) as [(e & -> & He & Hle & _) | [-> _]].
  - rewrite Forall_forall in F. destruct (F e He) as (k & Hk & B). exists k. split_and!; [lia | done | done].
  - exists 0%nat. split_and!; [lia | | done]. unfold boundary_at. simpl. split_and!; [done | done | lia].
Qed.
