(* ===== verification/SegmentFacts.v ===== *)
(** * What a segment promises

    The behaviour of the operations of [Segment.v] in terms of the chains of [Chain.v]: a
    segment holds a chain as the leading bytes of its file, and its index points at
    boundaries of that chain ([seg_inv]).  Each lemma covers every outcome of the disk, for
    any disk that keeps the laws of [Disk.v]: recovery keeps exactly the longest chain and
    truncates the rest; appending, reading, truncating and flushing do what their comments
    say, and a failure leaves the segment as it was. *)
From S2P Require Import Prelude Base Crc32c RecordBatch SparseIndex Disk Segment Chain.

(** ** Reading through the interface *)

Section Walks.
#[local] Set Default Proof Using "Type*".
Context {D : Type} `{DL : Disk.laws D}.

Lemma same_refl (d : D) : Disk.good d -> Disk.same d d.
Proof. unfold Disk.same. auto. Qed.

Lemma same_trans (d1 d2 d3 : D) : Disk.same d1 d2 -> Disk.same d2 d3 -> Disk.same d1 d3.
Proof.
  intros (G1 & F1 & H1 & S1) (G2 & F2 & H2 & S2).
  unfold Disk.same. rewrite F2, H2. split_and!; auto.
Qed.

Lemma same_opened (d d' : D) f p b : Disk.same d d' -> Disk.opened d f p b -> Disk.opened d' f p b.
Proof. intros (_ & F & Hd & _) [[m Hm] Hp]. split; [exists m|]; congruence. Qed.

(** Positions in a file fit the interface's 64 bits. *)
Lemma inside_file (d : D) f p b off :
  Disk.good d -> Disk.opened d f p b -> 0 <= off <= zlen b -> 0 <= off < 2 ^ 64.
Proof. intros Hg [_ Hf] Ho. apply Disk.file_bytes in Hf as [_ L]; [lia | done]. Qed.

(** The disk refused a read with [e]. *)
Definition read_failed (e : ErrorCode) : Prop :=
  e <> kNone /\ exists f n off d d', Disk.pread f n off d = (fail e, d').

Lemma pread_opened (d : D) f p b n off r d' :
  Disk.good d -> Disk.opened d f p b -> 0 <= n -> 0 <= off <= zlen b -> Disk.pread f n off d = (r, d') ->
  Disk.same d d' /\ (r = Ok (zsub off n b) \/ exists e, r = fail e /\ read_failed e).
Proof.
  intros Hg Ho Hn Hoff E. destruct (Disk.pread_law _ _ _ _ _ _ _ _ Hg Ho Hn (inside_file _ _ _ _ _ Hg Ho Hoff) E) as [S R].
  split; [done|]. destruct r as [bs|e].
  - left. by rewrite (R bs eq_refl).
  - right. exists e. split; [done|]. split; [|by eexists _, _, _, _, _].
    intros ->. by eapply Disk.pread_error.
Qed.

(** The header of the batch behind a prefix of the file. *)
Lemma header_at_spec s (d : D) xs b h rest p r d' :
  Disk.good d -> Disk.opened d (Segment.log_file_ s) p (cat xs ++ b ++ rest) -> is_batch b h ->
  Segment.header_at s (zlen (cat xs)) d = (r, d') ->
  Disk.same d d' /\ (r = Ok h \/ exists e, r = fail e /\ read_failed e).
Proof.
  intros Hg Ho B. pose proof (is_batch_size _ _ B) as L. destruct B as (Dh & _ & _). unfold Segment.header_at.
  destruct (Disk.pread _ _ _ d) as [got d1] eqn:E.
  apply (pread_opened _ _ _ _ _ _ _ _ Hg Ho) in E as [S [-> | (e & -> & F)]]; [| |done|len].
  - assert (zsub (zlen (cat xs)) kBatchHeaderBytes (cat xs ++ b ++ rest) = ztake 52 b) as ->.
    { unfold zsub, kBatchHeaderBytes. rewrite zdrop_app by done. by rewrite ztake_app_le by lia. }
    unfold kBatchHeaderBytes.
    replace (zlen (ztake 52 b) <? 52) with false by (symmetry; apply Z.ltb_ge; len).
    rewrite decode_header_take, Dh by lia. intros [= <- <-]. split; [done | by left].
  - intros [= <- <-]. split; [done | right; eauto].
Qed.

(** What a walk over the chain of a segment knows while it stands behind [xs]. *)
Record walking (d : D) (s : Segment.t) (bs : list (list Z)) (next : Z) : Prop := {
  wk_good : Disk.good d;
  wk_opened : exists p rest, Disk.opened d (Segment.log_file_ s) p (cat bs ++ rest);
  wk_chain : chain (Segment.base_offset_ s) bs next;
  wk_size : Segment.size_bytes_ s = zlen (cat bs);
  wk_small : zlen (cat bs) < 2 ^ 32;
  wk_base : 0 <= Segment.base_offset_ s /\ Segment.base_offset_ s + 2 ^ 32 <= 2 ^ 64 }.

Lemma walking_same (d d' : D) s bs next : Disk.same d d' -> walking d s bs next -> walking d' s bs next.
Proof.
  intros S [W1 (p & rest & W2) W3 W4 W5 W6]. split; auto; [apply S|].
  exists p, rest. by eapply same_opened.
Qed.

Lemma walking_bytes (d : D) s bs next : walking d s bs next -> bytes_ok (cat bs).
Proof.
  intros [W1 (p & rest & [_ W2]) _ _ _ _]. apply Disk.file_bytes in W2 as [W2 _]; [|done].
  by apply Forall_app in W2 as [W2 _].
Qed.

(** One step of a walk: the header at hand is the one of the next batch, its offsets are the
    chain's, and passing it does not wrap. *)
Lemma walk_step (d : D) s xs b ys next mid r d' :
  walking d s (xs ++ b :: ys) next -> chain (Segment.base_offset_ s) xs mid ->
  Segment.header_at s (zlen (cat xs)) d = (r, d') ->
  Disk.same d d' /\ zlen (cat xs) < Segment.size_bytes_ s /\
  ((exists h, r = Ok h /\ is_batch b h /\ base_offset h = mid /\ mid < next_offset h /\
      chain (Segment.base_offset_ s) (xs ++ [b]) (next_offset h) /\
      u32 (zlen (cat xs) + u32 (total_bytes h)) = zlen (cat (xs ++ [b]))) \/
   exists e, r = fail e /\ read_failed e).
Proof.
  intros W C E. pose proof (walking_bytes _ _ _ _ W) as Hb.
  destruct W as [W1 (p & rest & W2) W3 W4 W5 W6].
  pose proof W3 as W3'. apply chain_app in W3' as (mid' & C' & (h & B & Eo & C2)).
  rewrite (chain_fun _ _ _ _ C C') in *. clear C mid. pose proof (is_batch_size _ _ B) as L.
  rewrite concat_app in *. simpl in *. rewrite <- app_assoc in W2. rewrite <- app_assoc in W2.
  destruct (header_at_spec _ _ _ _ _ _ _ _ _ W1 W2 B E) as [S R].
  split; [done|]. rewrite W4. split; [len|]. destruct R as [-> | R]; [left | by right].
  exists h. apply Forall_app in Hb as [Hx Hb]. apply Forall_app in Hb as [Hb Hy].
  destruct (is_batch_records b h Hb B) as (_ & Hr & Hn). rewrite !zlen_app in W5.
  pose proof (zlen_nonneg (cat xs)). pose proof (zlen_nonneg (cat ys)).
  destruct (chain_bounds _ _ _ C' Hx) as [Bd _]; try (pow2; lia).
  split_and!; auto.
  - rewrite Hn, wrap_small; pow2; lia.
  - apply chain_app. exists mid'. split; [done|]. exists h. by split_and!.
  - destruct B as (_ & _ & T). rewrite T, app_nil_r, zlen_app.
    rewrite (wrap_small 32 (zlen b)) by lia. apply wrap_small. lia.
Qed.

(** [read]'s walk stops at the batch that contains [want]. *)
Lemma seek_spec s bs next want ys : forall xs mid fuel (d : D) r d',
  walking d s bs next -> bs = xs ++ ys -> chain (Segment.base_offset_ s) xs mid -> mid <= want < next ->
  (length ys < fuel)%nat -> Segment.seek s want fuel (zlen (cat xs)) d = (r, d') ->
  Disk.same d d' /\
  ((exists us v vs h, ys = us ++ v :: vs /\ is_batch v h /\ base_offset h <= want < next_offset h /\
      r = Ok (zlen (cat (xs ++ us)), zlen v)) \/
   exists e, r = fail e /\ read_failed e).
Proof.
  induction ys as [|b ys IH]; intros xs mid fuel d r d' W -> C Hw Hf E.
  { exfalso. rewrite app_nil_r in W. pose proof (chain_fun _ _ _ _ C (wk_chain _ _ _ _ W)). lia. }
  destruct fuel as [|fuel]; [simpl in Hf; lia|]. simpl in E, Hf.
  destruct (Segment.header_at s (zlen (cat xs)) d) as [r1 d1] eqn:Hh.
  destruct (walk_step _ _ _ _ _ _ _ _ _ W C Hh) as (S & Hlt & R).
  rewrite (proj2 (Z.ltb_lt _ _) Hlt) in E. simpl in E.
  destruct R as [(h & -> & B & Eo & Hn & C' & Hp) | (e & -> & F)].
  2:{ injection E as <- <-. eauto 8. }
  destruct (want <? next_offset h) eqn:Ew; bool_prop.
  - injection E as <- <-. split; [done|]. left. exists [], b, ys, h. rewrite app_nil_r.
    pose proof B as (_ & _ & T). rewrite T. split_and!; auto; lia.
  - rewrite Hp in E. apply (IH (xs ++ [b]) (next_offset h)) in E; [|by eapply walking_same | by rewrite <- app_assoc | done | lia | lia].
    destruct E as [S' [(us & v & vs & h' & -> & B' & Hr & ->) | F]]; (split; [by eapply same_trans|]); [left | by right].
    exists (b :: us), v, vs, h'. split_and!; auto; [lia | lia |]. by rewrite <- app_assoc.
Qed.

(** Offsets along a chain never go back. *)
Lemma walking_mono (d : D) s xs us vs next mid o :
  walking d s (xs ++ us ++ vs) next -> chain (Segment.base_offset_ s) xs mid ->
  chain (Segment.base_offset_ s) (xs ++ us) o -> mid <= o /\ (us <> [] -> mid < o).
Proof.
  intros W C Co. pose proof (walking_bytes _ _ _ _ W) as Hb. destruct W as [_ _ _ _ W5 W6].
  apply chain_app in Co as (mid' & C' & Co). rewrite <- (chain_fun _ _ _ _ C C') in Co.
  rewrite !concat_app in *. apply Forall_app in Hb as [Hx Hb]. apply Forall_app in Hb as [Hu _].
  rewrite !zlen_app in W5. pose proof (zlen_nonneg (cat xs)). pose proof (zlen_nonneg (cat us)).
  pose proof (zlen_nonneg (cat vs)).
  destruct (chain_bounds _ _ _ C Hx) as [B1 _]; try (pow2; lia).
  destruct (chain_bounds _ _ _ Co Hu) as [B2 B3]; try (pow2; lia). split; [lia | done].
Qed.

(** [truncate_to]'s walk finds the batch that begins at [offset], or knows there is none. *)
Lemma find_cut_spec s bs next offset ys : forall xs mid fuel (d : D) r d',
  walking d s bs next -> bs = xs ++ ys -> chain (Segment.base_offset_ s) xs mid ->
  (length ys < fuel)%nat -> Segment.find_cut s offset fuel (zlen (cat xs)) d = (r, d') ->
  Disk.same d d' /\
  ((exists us vs, ys = us ++ vs /\ chain (Segment.base_offset_ s) (xs ++ us) offset /\
      r = Ok (zlen (cat (xs ++ us)))) \/
   (r = fail kInvalidArgument /\
      forall us vs, ys = us ++ vs -> vs <> [] -> ~ chain (Segment.base_offset_ s) (xs ++ us) offset) \/
   exists e, r = fail e /\ read_failed e).
Proof.
  induction ys as [|b ys IH]; intros xs mid fuel d r d' W -> C Hf E.
  { destruct fuel as [|fuel]; [simpl in Hf; lia|]. simpl in E. rewrite app_nil_r in W.
    rewrite (wk_size _ _ _ _ W), Z.ltb_irrefl in E. injection E as <- <-.
    split; [apply same_refl, W|]. right. left. split; [done|].
    intros us vs Eq Hv. by destruct us, vs. }
  destruct fuel as [|fuel]; [simpl in Hf; lia|]. simpl in E, Hf.
  destruct (Segment.header_at s (zlen (cat xs)) d) as [r1 d1] eqn:Hh.
  destruct (walk_step _ _ _ _ _ _ _ _ _ W C Hh) as (S & Hlt & R).
  rewrite (proj2 (Z.ltb_lt _ _) Hlt) in E. simpl in E.
  destruct R as [(h & -> & B & Eo & Hn & C' & Hp) | (e & -> & F)].
  2:{ injection E as <- <-. eauto 8. }
  destruct (base_offset h =? offset) eqn:Eq; bool_prop.
  { injection E as <- <-. split; [done|]. left. exists [], (b :: ys). rewrite app_nil_r.
    split_and!; auto. by rewrite <- Eq, Eo. }
  destruct (offset <? base_offset h) eqn:Ego; bool_prop.
  { injection E as <- <-. split; [done|]. right. left. split; [done|]. intros us vs Ey _ Co.
    rewrite Ey in W. pose proof (walking_mono _ _ _ _ _ _ _ _ W C Co). lia. }
  rewrite Hp in E. apply (IH (xs ++ [b]) (next_offset h)) in E;
    [|by eapply walking_same | by rewrite <- app_assoc | done | lia].
  destruct E as [S' R']. split; [by eapply same_trans|].
  destruct R' as [(us & vs & -> & Co & ->) | [[-> No] | F]]; [left | right; left | by right; right].
  - exists (b :: us), vs. rewrite <- app_assoc in *. by split_and!.
  - split; [done|]. intros [|b' us] vs Ey Hv Co.
    + rewrite app_nil_r in Co. pose proof (chain_fun _ _ _ _ C Co). lia.
    + injection Ey as <- Ey. apply (No us vs Ey Hv). by rewrite <- app_assoc.
Qed.

(** A walk over every header, as the visitor sees it. *)
Fixpoint visit_all {A} (visit : A -> BatchHeader -> bool * A) (hs : list BatchHeader) (a : A) : A :=
  match hs with
  | [] => a
  | h :: hs' => let '(more, a) := visit a h in if more then visit_all visit hs' a else a
  end.

Lemma scan_loop_spec {A} (visit : A -> BatchHeader -> bool * A) s bs next ys hs : forall xs mid fuel a (d : D) r d',
  walking d s bs next -> bs = xs ++ ys -> chain (Segment.base_offset_ s) xs mid ->
  Forall2 (fun b h => decode_header b = Ok h) ys hs ->
  (length ys < fuel)%nat -> Segment.scan_loop visit s fuel (zlen (cat xs)) a d = (r, d') ->
  Disk.same d d' /\ (r = Ok (visit_all visit hs a) \/ exists e, r = fail e /\ read_failed e).
Proof.
  revert hs. induction ys as [|b ys IH]; intros hs xs mid fuel a d r d' W -> C Hh2 Hf E.
  { destruct fuel as [|fuel]; [simpl in Hf; lia|]. simpl in E. rewrite app_nil_r in W.
    rewrite (wk_size _ _ _ _ W), Z.ltb_irrefl in E. injection E as <- <-.
    inversion Hh2; subst. split; [apply same_refl, W | by left]. }
  destruct fuel as [|fuel]; [simpl in Hf; lia|]. simpl in E, Hf.
  destruct (Segment.header_at s (zlen (cat xs)) d) as [r1 d1] eqn:Hh.
  destruct (walk_step _ _ _ _ _ _ _ _ _ W C Hh) as (S & Hlt & R).
  rewrite (proj2 (Z.ltb_lt _ _) Hlt) in E. simpl in E.
  destruct R as [(h & -> & B & Eo & Hn & C' & Hp) | (e & -> & F)].
  2:{ injection E as <- <-. eauto 8. }
  inversion Hh2 as [|b' h' ys' hs' Dh Hrest]; subst. destruct B as (Dh' & _). rewrite Dh in Dh'. injection Dh' as ->.
  simpl. destruct (visit a h) as [more a']. destruct more; simpl in E.
  - rewrite Hp in E. apply (IH hs' (xs ++ [b]) (next_offset h)) in E;
      [|by eapply walking_same | by rewrite <- app_assoc | done | done | lia].
    destruct E as [S' R']. split; [by eapply same_trans | done].
  - injection E as <- <-. split; [done | by left].
Qed.

(** ** Recovery *)

(** The file behind a scan that has accepted [xs]. *)
Record scanning (d : D) (s : Segment.t) (xs : list (list Z)) (mid : Z) (rest : list Z) : Prop := {
  sn_good : Disk.good d;
  sn_opened : exists p, Disk.opened d (Segment.log_file_ s) p (cat xs ++ rest);
  sn_chain : chain (Segment.base_offset_ s) xs mid;
  sn_small : zlen (cat xs ++ rest) < 2 ^ 32;
  sn_base : 0 <= Segment.base_offset_ s /\ Segment.base_offset_ s + 2 ^ 32 <= 2 ^ 64 }.

Lemma scanning_bytes (d : D) s xs mid rest : scanning d s xs mid rest -> bytes_ok (cat xs ++ rest).
Proof. intros [W1 (p & [_ W2]) _ _ _]. by apply Disk.file_bytes in W2 as [W2 _]. Qed.

Lemma scanning_mid (d : D) s xs mid rest :
  scanning d s xs mid rest -> Segment.base_offset_ s <= mid <= Segment.base_offset_ s + zlen (cat xs).
Proof.
  intros W. pose proof (scanning_bytes _ _ _ _ _ W) as Hb. apply Forall_app in Hb as [Hb _].
  destruct W as [_ _ C Hs Hbase]. rewrite zlen_app in Hs. pose proof (zlen_nonneg rest).
  destruct (chain_bounds _ _ _ C Hb) as [B _]; try (pow2; lia).
Qed.

(** Accepting the first batch of the rest. *)
Lemma scanning_step (d d' : D) s xs mid rest h :
  scanning d s xs mid rest -> Disk.same d d' -> first_batch mid rest = Some h ->
  scanning d' s (xs ++ [ztake (total_bytes h) rest]) (next_offset h) (zdrop (total_bytes h) rest).
Proof.
  intros [W1 (p & W2) W3 W4 W5] S F. apply first_batch_inv in F as (B & Eo & T).
  assert (cat (xs ++ [ztake (total_bytes h) rest]) ++ zdrop (total_bytes h) rest = cat xs ++ rest) as E.
  { rewrite concat_app. simpl. rewrite app_nil_r, <- app_assoc. by rewrite ztake_zdrop. }
  split; auto.
  - apply S.
  - exists p. rewrite E. by eapply same_opened.
  - apply chain_app. exists mid. split; [done|]. by exists h.
  - by rewrite E.
Qed.

(** Index entries of a scan: boundaries of what was accepted, inside the file. *)
Definition scan_index (s : Segment.t) (file_size : Z) (xs : list (list Z)) (ix : SparseIndex.t) : Prop :=
  index_le (Segment.base_offset_ s) xs ix /\ Forall (fun e => file_pos e < file_size) ix.

Definition scan_result (s : Segment.t) (file_size : Z) (xs : list (list Z)) (mid : Z) (rest : list Z)
    (count : Z) (sc' : Segment.Scan) : Prop :=
  let '(ys, next) := valid_batches mid rest in
  Segment.sc_pos sc' = zlen (cat (xs ++ ys)) /\ Segment.sc_expect sc' = next /\
  scan_index s file_size (xs ++ ys) (Segment.sc_index sc') /\
  Segment.sc_batches sc' = u64 (count + zlen ys).

Lemma scan_result_stop s file_size xs mid rest count sc :
  first_batch mid rest = None -> Segment.sc_pos sc = zlen (cat xs) -> Segment.sc_expect sc = mid ->
  scan_index s file_size xs (Segment.sc_index sc) -> Segment.sc_batches sc = u64 count ->
  scan_result s file_size xs mid rest count sc.
Proof.
  intros N P E I B. unfold scan_result.
  rewrite (valid_batches_unique mid rest [] mid rest) by done. rewrite app_nil_r, zlen_nil, Z.add_0_r. by split_and!.
Qed.

Lemma scan_result_step s file_size xs mid rest count h sc :
  first_batch mid rest = Some h ->
  scan_result s file_size (xs ++ [ztake (total_bytes h) rest]) (next_offset h) (zdrop (total_bytes h) rest)
    (count + 1) sc ->
  scan_result s file_size xs mid rest count sc.
Proof.
  intros F. apply first_batch_inv in F as (B & Eo & T). unfold scan_result. set (b := ztake (total_bytes h) rest) in *.
  assert (valid_batches mid rest = (b :: (valid_batches (next_offset h) (zdrop (total_bytes h) rest)).1,
    (valid_batches (next_offset h) (zdrop (total_bytes h) rest)).2)) as ->.
  { rewrite <- (ztake_zdrop (total_bytes h) rest) at 1. fold b.
    replace (b ++ zdrop (total_bytes h) rest) with (cat [b] ++ zdrop (total_bytes h) rest)
      by (simpl; by rewrite app_nil_r).
    rewrite (valid_batches_app mid [b] (next_offset h)); [done|]. by exists h. }
  destruct (valid_batches (next_offset h) _) as [ys next]. simpl.
  rewrite <- app_assoc. simpl. intros (P & X & I & N). rewrite zlen_cons. split_and!; auto.
  rewrite N. f_equal. lia.
Qed.

Lemma maybe_add_Forall (P : IndexEntry -> Prop) ix rel pos interval :
  Forall P ix -> P (mkIndexEntry rel pos) -> Forall P (SparseIndex.maybe_add ix rel pos interval).
Proof.
  intros F X. assert (Forall P (SparseIndex.add ix rel pos)) by (apply Forall_app; auto).
  unfold SparseIndex.maybe_add. destruct (last ix); [|done]. by repeat (case_match; [done|]).
Qed.

(** What the two reads of an iteration return. *)
Lemma zsub_behind (pre rest : list Z) n : zsub (zlen pre) n (pre ++ rest) = ztake n rest.
Proof. unfold zsub. by rewrite zdrop_app. Qed.

Lemma decode_header_short bytes : zlen bytes < 52 -> decode_header bytes = fail kCorruptRecord.
Proof. intros. unfold decode_header, kBatchHeaderBytes. by rewrite (proj2 (Z.ltb_lt _ _)). Qed.

(** The scan's state behind one more batch. *)
Definition scan_next (s : Segment.t) (sc : Segment.Scan) (h : BatchHeader) : Segment.Scan :=
  Segment.mkScan (u32 (Segment.sc_pos sc + total_bytes h)) (next_offset h)
    (SparseIndex.maybe_add (Segment.sc_index sc) (u32 (base_offset h - Segment.base_offset_ s)) (Segment.sc_pos sc)
       (Segment.index_interval_bytes (Segment.options_ s)))
    (u64 (Segment.sc_batches sc + 1)).

(** One iteration: the disk refuses a read, or the loop stops where no batch follows, or it
    goes on behind the batch that does. *)
Lemma scan_iteration s file_size fuel xs mid rest sc (d : D) r d' :
  scanning d s xs mid rest -> file_size = zlen (cat xs ++ rest) ->
  Segment.sc_pos sc = zlen (cat xs) -> Segment.sc_expect sc = mid ->
  Segment.scan_tail s file_size (S fuel) sc d = (r, d') ->
  (Disk.same d d' /\ exists e, r = fail e /\ read_failed e) \/
  (Disk.same d d' /\ first_batch mid rest = None /\ r = Ok sc) \/
  exists h d1, Disk.same d d1 /\ first_batch mid rest = Some h /\
    Segment.scan_tail s file_size fuel (scan_next s sc h) d1 = (r, d').
Proof.
  intros [W1 (p & W2) _ _ _] Hs Hp He E. rewrite zlen_app in Hs. unfold first_batch, scan_next.
  cbn [Segment.scan_tail] in E. rewrite Hp in *. rewrite He in E.
  destruct (zlen (cat xs) <? file_size) eqn:Elt; bool_prop; simpl in E.
  2:{ assert (rest = []) as -> by (apply zlen_0; pose proof (zlen_nonneg rest); lia).
      injection E as <- <-. right. left. split; [by apply same_refl | done]. }
  destruct (Disk.pread _ kBatchHeaderBytes _ d) as [got d1] eqn:R1.
  apply (pread_opened _ _ _ _ _ _ _ _ W1 W2) in R1 as [S1 [-> | (e & -> & F)]]; [| |done|len].
  2:{ injection E as <- <-. eauto 6. }
  rewrite zsub_behind in E. unfold kBatchHeaderBytes in E.
  destruct (zlen (ztake 52 rest) <? 52) eqn:E1; bool_prop.
  { injection E as <- <-. rewrite decode_header_short by len. auto. }
  rewrite decode_header_take in E by len. destruct (decode_header rest) as [h|] eqn:Dh.
  2:{ injection E as <- <-. auto. }
  pose proof (decode_header_inv _ _ Dh) as (_ & T & _).
  destruct (file_size - zlen (cat xs) <? total_bytes h) eqn:E2; bool_prop.
  { injection E as <- <-. rewrite (proj2 (Z.leb_gt _ _)) by lia. auto. }
  assert (Disk.good d1) as G1 by apply S1. pose proof (same_opened _ _ _ _ _ S1 W2) as W2'.
  destruct (Disk.pread _ (total_bytes h) _ d1) as [body d2] eqn:R2.
  apply (pread_opened _ _ _ _ _ _ _ _ G1 W2') in R2 as [S2 [-> | (e & -> & F)]]; [| |lia|len].
  all: pose proof (same_trans _ _ _ S1 S2) as S12.
  2:{ injection E as <- <-. eauto 6. }
  rewrite zsub_behind in E. rewrite (proj2 (Z.ltb_ge _ _)) in E by len.
  rewrite (proj2 (Z.leb_le _ _)) by lia.
  destruct (ok (validate_batch (ztake (total_bytes h) rest))); simpl in E; [|injection E as <- <-; auto].
  destruct (base_offset h =? mid); simpl in E; [|injection E as <- <-; auto].
  right. right. exists h, d2. split_and!; auto.
Qed.

Lemma scan_tail_spec s file_size fuel : forall xs mid rest count sc (d : D) r d',
  scanning d s xs mid rest -> file_size = zlen (cat xs ++ rest) -> (length rest < fuel)%nat ->
  Segment.sc_pos sc = zlen (cat xs) -> Segment.sc_expect sc = mid -> Segment.sc_batches sc = u64 count ->
  scan_index s file_size xs (Segment.sc_index sc) ->
  Segment.scan_tail s file_size fuel sc d = (r, d') ->
  Disk.same d d' /\
  ((exists sc', r = Ok sc' /\ scan_result s file_size xs mid rest count sc') \/ exists e, r = fail e /\ read_failed e).
Proof.
  induction fuel as [|fuel IH]; intros xs mid rest count sc d r d' W Hs Hf Hp He Hc [Hi Hl] E; [lia|].
  destruct (scan_iteration _ _ _ _ _ _ _ _ _ _ W Hs Hp He E) as [F | [(S & N & ->) | (h & d1 & S & FB & E')]].
  - split; [apply F | right; apply F].
  - split; [done|]. left. exists sc. split; [done|]. apply scan_result_stop; auto. by split.
  - pose proof (scanning_step _ _ _ _ _ _ _ W S FB) as W'. pose proof (scanning_mid _ _ _ _ _ W) as Hm.
    pose proof (first_batch_inv _ _ _ FB) as (B & Eo & T).
    pose proof (sn_small _ _ _ _ _ W) as Hsm. rewrite zlen_app in *.
    assert (zlen (cat (xs ++ [ztake (total_bytes h) rest])) = zlen (cat xs) + total_bytes h) as Lc
      by (rewrite concat_app; simpl; len).
    apply (IH _ _ _ (count + 1) _ _ _ _ W') in E'.
    + destruct E' as [S' R']. split; [by eapply same_trans|]. destruct R' as [(sc' & -> & R') | F]; [left | by right].
      exists sc'. split; [done|]. by eapply scan_result_step.
    + rewrite zlen_app, Lc. len.
    + unfold zdrop. rewrite length_drop. unfold zlen in T. lia.
    + simpl. rewrite Hp, Lc. apply wrap_small. lia.
    + done.
    + simpl. rewrite Hc. apply wrap_add_l.
    + simpl. rewrite Hp, Eo, wrap_small by (pow2; lia). split.
      * eapply index_ok_add; [apply W | done | lia | done | len | done].
      * apply maybe_add_Forall; [done | simpl; lia].
Qed.

(** An index that may be trusted for a file whose longest chain is [vb]: an entry is a
    boundary of that chain, or points behind it at something that is not the header it
    claims. *)
Definition honest (base : Z) (vb : list (list Z)) (content : list Z) (ix : SparseIndex.t) : Prop :=
  Forall (fun e => boundary base vb e \/
    zlen (cat vb) < file_pos e /\
    Segment.usable base e (Ok (zsub (file_pos e) kBatchHeaderBytes content)) = false) ix.

Lemma boundary_take base vb next k e e' :
  chain base vb next -> (k <= length vb)%nat -> boundary_at base vb k e -> boundary base vb e' ->
  file_pos e' <= file_pos e -> boundary base (take k vb) e'.
Proof.
  intros C Hk (P & _) (j & Hj & P' & R' & C') Hle. exists j.
  assert (j <= k)%nat.
  { apply Nat.nlt_ge. intros Hlt. pose proof (zlen_take_lt _ _ _ k j C ltac:(lia)). lia. }
  rewrite length_take. split; [lia|]. unfold boundary_at. by rewrite take_take, Nat.min_l by lia.
Qed.

Lemma honest_upto base vb next content ix k e :
  chain base vb next -> honest base vb content ix -> SparseIndex.sorted ix -> last ix = Some e ->
  (k <= length vb)%nat -> boundary_at base vb k e -> index_le base (take k vb) ix.
Proof.
  intros C Hh Hs Hl Hk B. split; [done|]. apply Forall_forall. intros e' He'.
  assert (file_pos e' <= file_pos e) as Hle.
  { apply list_elem_of_lookup in He' as [i Hi]. rewrite last_lookup in Hl.
    pose proof (lookup_lt_Some _ _ _ Hi). destruct (decide (i = pred (length ix))) as [->|].
    - rewrite Hl in Hi. injection Hi as ->. lia.
    - destruct (sorted_lookup ix i (pred (length ix)) e' e Hs) as [_ L]; [lia | done | done | lia]. }
  eapply boundary_take; eauto. unfold honest in Hh. rewrite Forall_forall in Hh.
  destruct (Hh e' He') as [|[Hgt _]]; [done|].
  assert (boundary base vb e) as Hb by (exists k; done). apply boundary_pos in Hb. lia.
Qed.

Lemma find_start_spec base f p content vb next fuel : forall ix (d : D) ix' start d',
  Disk.good d -> Disk.opened d f p content -> chain base vb next ->
  SparseIndex.sorted ix -> Forall (fun e => file_pos e < zlen content) ix -> honest base vb content ix ->
  (length ix <= fuel)%nat -> Segment.find_start base f fuel ix d = (ix', start, d') ->
  Disk.same d d' /\ ix' `prefix_of` ix /\
  match start with
  | None => ix' = []
  | Some e => exists k, (k <= length vb)%nat /\ boundary_at base vb k e /\ index_le base (take k vb) ix'
  end.
Proof.
  induction fuel as [|fuel IH]; intros ix d ix' start d' Hg Ho C Hs Hl Hh Hf E; simpl in E.
  { destruct ix; simpl in Hf; [|lia]. injection E as <- <- <-. split_and!; [by apply same_refl | done | done]. }
  destruct (last ix) as [e|] eqn:L.
  2:{ apply last_None in L. subst. injection E as <- <- <-. split_and!; [by apply same_refl | done | done]. }
  assert (e ∈ ix) as He by (rewrite last_lookup in L; by eapply list_elem_of_lookup_2).
  pose proof Hh as Hh'. unfold honest in Hh'. rewrite Forall_forall in Hh'. specialize (Hh' e He).
  assert (0 <= file_pos e) as Hpos.
  { destruct Hh' as [(k & _ & P & _) | [? _]]; [rewrite P; apply zlen_nonneg|]. pose proof (zlen_nonneg (cat vb)). lia. }
  destruct (Disk.pread f kBatchHeaderBytes (file_pos e) d) as [got d1] eqn:R.
  pose proof (proj1 (Forall_forall _ _) Hl e He) as Hle. simpl in Hle.
  apply (pread_opened _ _ _ _ _ _ _ _ Hg Ho) in R as [S R]; [|done|lia].
  destruct (Segment.usable base e got) eqn:U.
  - injection E as <- <- <-. split_and!; [done | done|].
    destruct R as [-> | (er & -> & _)]; [|done]. destruct Hh' as [(k & Hk & B) | [_ N]]; [|congruence].
    exists k. split_and!; [done | done |]. by eapply honest_upto.
  - rewrite truncate_from_lt in E by done. pose proof L as L'. apply last_Some in L' as [ix0 ->].
    rewrite removelast_last in E. apply IH in E.
    + destruct E as (S' & P & M). split_and!; [by eapply same_trans | | done].
      etrans; [exact P | by apply prefix_app_r].
    + apply S. + by eapply same_opened. + done. + by eapply sorted_prefix.
    + by apply Forall_app in Hl as [? _]. + by apply Forall_app in Hh as [? _]. + rewrite length_app in Hf. simpl in Hf. lia.
Qed.

Lemma read_index_spec path file_size ix (d : D) ix' d' :
  Disk.good d -> Disk.file_path path -> Segment.read_index path file_size ix d = (ix', d') ->
  Disk.same d d' /\ (ix' = ix \/ exists ib, Disk.files d !! path = Some ib /\ ix' = SparseIndex.decode ib file_size).
Proof.
  intros Hg Hp. unfold Segment.read_index.
  destruct (Disk.open path kRead d) as [[id|e] d1] eqn:O; pose proof (Disk.open_law _ _ _ _ _ Hg Hp O) as L.
  2:{ intros [= <- <-]. split; [done | by left]. }
  simpl in L. destruct L as (Hn & G1 & H1 & S1 & [[[ib Hib] F1] | (K & _)]); [|done].
  assert (Disk.opened d1 id path ib) as Ho by (split; [exists kRead; by rewrite H1, lookup_insert_eq | congruence]).
  assert (forall d2, Disk.same d1 d2 -> Disk.same d (Disk.close id d2)) as Cl.
  { intros d2 (G2 & F2 & H2 & S2). destruct (Disk.close_law d2 id G2) as (G3 & F3 & H3 & S3).
    split_and!; [done | congruence | | auto]. by rewrite H3, H2, H1, delete_insert_id. }
  destruct (Disk.size id d1) as [[n|e] d2] eqn:Sz; destruct (Disk.size_law _ _ _ _ _ _ G1 Ho Sz) as [S2 R].
  2:{ intros [= <- <-]. split; [by apply Cl | by left]. }
  rewrite (R n eq_refl). destruct (0 <? zlen ib) eqn:E0; [|intros [= <- <-]; split; [by apply Cl | by left]].
  pose proof (same_opened _ _ _ _ _ S2 Ho) as Ho2. assert (Disk.good d2) as G2 by apply S2.
  destruct (Disk.pread id (zlen ib) 0 d2) as [got d3] eqn:Rd.
  apply (pread_opened _ _ _ _ _ _ _ _ G2 Ho2) in Rd as [S3 [-> | (e & -> & _)]]; [| | apply zlen_nonneg | len];
    intros [= <- <-]; (split; [apply Cl; by eapply same_trans|]); [right | by left].
  exists ib. split; [done|]. by rewrite zsub_all.
Qed.

(** ** The invariant of an open segment that holds the batches [bs] *)

Record seg_inv (d : D) (s : Segment.t) (bs : list (list Z)) : Prop := {
  si_walk : walking d s bs (Segment.next_offset_ s);
  si_file : exists rest, Disk.opened d (Segment.log_file_ s) (Segment.log_path_ s) (cat bs ++ rest);
  si_max : Segment.size_bytes_ s <= Segment.max_bytes (Segment.options_ s) < 2 ^ 32;
  si_index : index_ok (Segment.base_offset_ s) bs (Segment.index_ s);
  si_paths : Disk.file_path (Segment.log_path_ s) /\ Disk.file_path (Segment.index_path_ s) /\
    Segment.log_path_ s <> Segment.index_path_ s }.

(** A segment object as [open] hands it to [recover]. *)
Record unrecovered (d : D) (s : Segment.t) (content : list Z) : Prop := {
  un_good : Disk.good d;
  un_opened : Disk.opened d (Segment.log_file_ s) (Segment.log_path_ s) content;
  un_index : Segment.index_ s = [];
  un_report : Segment.recovery_ s = Segment.mkReport 0 0 0 0 false false;
  un_max : Segment.max_bytes (Segment.options_ s) < 2 ^ 32;
  un_base : 0 <= Segment.base_offset_ s /\ Segment.base_offset_ s + 2 ^ 32 <= 2 ^ 64;
  un_paths : Disk.file_path (Segment.log_path_ s) /\ Disk.file_path (Segment.index_path_ s) /\
    Segment.log_path_ s <> Segment.index_path_ s }.

(** The sidecar, whatever it holds, is honest about the log file. *)
Definition sidecar_honest (d : D) (s : Segment.t) (content : list Z) : Prop :=
  forall ib, Disk.files d !! Segment.index_path_ s = Some ib ->
    honest (Segment.base_offset_ s) (valid_batches (Segment.base_offset_ s) content).1 content
      (SparseIndex.decode ib (zlen content)).

(** The outcome of a successful recovery. *)
Record recovered (d d' : D) (s s' : Segment.t) (content : list Z) (bs : list (list Z)) (next : Z) : Prop := {
  rc_inv : seg_inv d' s' bs;
  rc_next : Segment.next_offset_ s' = next;
  rc_same : Segment.base_offset_ s' = Segment.base_offset_ s /\ Segment.options_ s' = Segment.options_ s /\
    Segment.log_file_ s' = Segment.log_file_ s /\ Segment.log_path_ s' = Segment.log_path_ s /\
    Segment.index_path_ s' = Segment.index_path_ s;
  rc_only : Disk.only (Segment.log_path_ s) d d';
  rc_file : Disk.files d' !! Segment.log_path_ s = Some (cat bs);
  rc_settled : forall b, Disk.settled d (Segment.log_path_ s) b -> zlen b <= zlen (cat bs) ->
    Disk.settled d' (Segment.log_path_ s) b;
  rc_truncated : Segment.truncated (Segment.recovery_ s') = negb (zlen (cat bs) =? zlen content);
  rc_lost : Segment.bytes_truncated (Segment.recovery_ s') = zlen content - zlen (cat bs) }.

Lemma same_only p (d d' : D) : Disk.same d d' -> Disk.only p d d'.
Proof. intros (G & F & Hd & S). split_and!; auto. intros. by rewrite F. Qed.

Lemma only_same p (d1 d2 d3 : D) : Disk.same d1 d2 -> Disk.only p d2 d3 -> Disk.only p d1 d3.
Proof.
  intros (G & F & Hd & S) (G' & H' & F' & S'). split_and!; [done | congruence | |].
  - intros q Hq. rewrite F' by done. by rewrite F. - intros q bs Hq Hs. apply S'; auto.
Qed.

Lemma chain_take_bounds base bs k o rest :
  chain base (take k bs) o -> bytes_ok (cat bs ++ rest) -> zlen (cat bs ++ rest) < 2 ^ 32 ->
  0 <= base /\ base + 2 ^ 32 <= 2 ^ 64 -> base <= o < base + 2 ^ 32.
Proof.
  intros C Hb Hl Hbase. rewrite <- (take_drop k bs), concat_app, <- app_assoc in Hb, Hl.
  apply Forall_app in Hb as [Hb _]. rewrite zlen_app in Hl.
  pose proof (zlen_nonneg (cat (drop k bs) ++ rest)).
  destruct (chain_bounds _ _ _ C Hb) as [B _]; pow2; lia.
Qed.

(** Steps 1 and 2: the scan starts at a boundary of the longest chain. *)
Lemma recovery_start (d : D) s content ix1 d1 ix2 start d2 :
  unrecovered d s content -> sidecar_honest d s content -> zlen content < 2 ^ 32 ->
  Segment.read_index (Segment.index_path_ s) (zlen content) (Segment.index_ s) d = (ix1, d1) ->
  Segment.find_start (Segment.base_offset_ s) (Segment.log_file_ s) (length ix1) ix1 d1 = (ix2, start, d2) ->
  Disk.same d d2 /\
  let bs := (valid_batches (Segment.base_offset_ s) content).1 in
  exists k, (k <= length bs)%nat /\ scan_index s (zlen content) (take k bs) ix2 /\
    chain (Segment.base_offset_ s) (take k bs)
      (match start with Some e => u64 (Segment.base_offset_ s + rel_offset e) | None => Segment.base_offset_ s end) /\
    match start with Some e => file_pos e | None => 0 end = zlen (cat (take k bs)).
Proof.
  intros [U1 U2 U3 U4 U5 U6 (P1 & P2 & P3)] Hh Hsm R F.
  apply read_index_spec in R as [S1 R]; [|done|done].
  assert (SparseIndex.sorted ix1 /\ Forall (fun e => file_pos e < zlen content) ix1 /\
    honest (Segment.base_offset_ s) (valid_batches (Segment.base_offset_ s) content).1 content ix1) as (Hs & Hl & Hi).
  { destruct R as [-> | (ib & Hib & ->)].
    - rewrite U3. split_and!; constructor.
    - destruct (decode_loop_sound ib (zlen content) (Z.to_nat (zlen ib / kIndexEntryBytes)) 0 [])
        as (X & Y & _); [constructor | constructor |]. split_and!; [done | done |]. by apply Hh. }
  pose proof (valid_batches_spec (Segment.base_offset_ s) content) as V.
  pose proof U2 as [_ Hf]. apply Disk.file_bytes in Hf as [Hby Hsz]; [|done].
  destruct (valid_batches (Segment.base_offset_ s) content) as [bs next]. simpl in *.
  destruct V as [C (rest & Ec & N)].
  eapply find_start_spec in F as (S2 & Pre & M); [| apply S1 | by eapply same_opened | exact C | done | done | done | lia].
  split; [by eapply same_trans|].
  assert (Forall (fun e => file_pos e < zlen content) ix2) as Hl2.
  { destruct Pre as [more ->]. by apply Forall_app in Hl as [? _]. }
  destruct start as [e|].
  - destruct M as (k & Hk & (P & R0 & Ck) & Ile). exists k. split_and!; [done | by split | | done].
    rewrite wrap_small; [done|]. rewrite Ec in Hby, Hsm.
    pose proof (chain_take_bounds _ _ _ _ _ Ck Hby Hsm U6). lia.
  - subst ix2. exists 0%nat. split_and!; [lia | split; [apply index_le_nil | constructor] | done | done].
Qed.

(** The end of recovery, with or without a tail to cut. *)
Lemma recovery_finish (d d2 : D) s content bs next index report :
  unrecovered d s content -> valid_batches (Segment.base_offset_ s) content = (bs, next) ->
  zlen content <= Segment.max_bytes (Segment.options_ s) ->
  Disk.only (Segment.log_path_ s) d d2 -> Disk.files d2 !! Segment.log_path_ s = Some (cat bs) ->
  (forall b, Disk.settled d (Segment.log_path_ s) b -> zlen b <= zlen (cat bs) ->
     Disk.settled d2 (Segment.log_path_ s) b) ->
  index_ok (Segment.base_offset_ s) bs index ->
  Segment.truncated report = negb (zlen (cat bs) =? zlen content) ->
  Segment.bytes_truncated report = zlen content - zlen (cat bs) ->
  recovered d d2 s
    (Segment.mk (Segment.base_offset_ s) next (Segment.options_ s) (Segment.log_file_ s) (Segment.log_path_ s)
       (Segment.index_path_ s) (zlen (cat bs)) index report) content bs next.
Proof.
  intros [U1 [[m Hm] U2] U3 U4 U5 U6 U7] V Hmax Ho Hf Hs Hi T L.
  pose proof (valid_batches_spec (Segment.base_offset_ s) content) as Sp. rewrite V in Sp.
  destruct Sp as [C (rest & Ec & _)].
  assert (zlen (cat bs) <= zlen content) by (rewrite Ec, zlen_app; pose proof (zlen_nonneg rest); lia).
  assert (Disk.opened d2 (Segment.log_file_ s) (Segment.log_path_ s) (cat bs ++ [])) as Hop.
  { rewrite app_nil_r. split; [|done]. exists m. destruct Ho as (_ & -> & _). done. }
  split; simpl; auto. split; simpl; auto; [|eauto | lia].
  split; simpl; auto; [apply Ho | eauto | lia].
Qed.

(** The last lines of [recover], behind a scan that accepted the longest chain. *)
Lemma recovery_end (d d4 : D) s content bs next sc was_usable r s' d' :
  unrecovered d s content -> valid_batches (Segment.base_offset_ s) content = (bs, next) ->
  zlen content <= Segment.max_bytes (Segment.options_ s) -> Disk.same d d4 ->
  Segment.sc_pos sc = zlen (cat bs) -> Segment.sc_expect sc = next ->
  scan_index s (zlen content) bs (Segment.sc_index sc) ->
  (let pos := Segment.sc_pos sc in
   let finish index bytes_truncated truncated d :=
     (Ok tt,
      Segment.mk (Segment.base_offset_ s) (Segment.sc_expect sc) (Segment.options_ s) (Segment.log_file_ s)
        (Segment.log_path_ s) (Segment.index_path_ s) pos index
        (Segment.mkReport (Segment.sc_batches sc) bytes_truncated pos (Segment.sc_expect sc) was_usable truncated), d) in
   if pos <? zlen content then
     match Disk.truncate (Segment.log_file_ s) pos d4 with
     | (fail e, d) => (fail e, s <| Segment.index_ := Segment.sc_index sc |>, d)
     | (Ok _, d) => finish (SparseIndex.truncate_from (Segment.sc_index sc) pos) (zlen content - pos) true d
     end
   else finish (Segment.sc_index sc) (Segment.bytes_truncated (Segment.recovery_ s))
          (Segment.truncated (Segment.recovery_ s)) d4) = (r, s', d') ->
  match r with
  | Ok _ => recovered d d' s s' content bs next
  | fail e => Disk.same d d' /\ Segment.log_file_ s' = Segment.log_file_ s
  end.
Proof.
  intros U V Hmax S P X [Ile Ilt]. cbv zeta. rewrite P, X.
  pose proof (valid_batches_spec (Segment.base_offset_ s) content) as Sp. rewrite V in Sp.
  destruct Sp as [_ (rest & Ec & _)].
  pose proof (same_opened _ _ _ _ _ S (un_opened _ _ _ U)) as Ho.
  assert (zlen (cat bs) <= zlen content) by (rewrite Ec, zlen_app; pose proof (zlen_nonneg rest); lia).
  destruct (zlen (cat bs) <? zlen content) eqn:Ecut; bool_prop.
  - pose proof (inside_file _ _ _ _ _ (proj1 S) Ho (conj (zlen_nonneg (cat bs)) H1)) as Hin.
    destruct (Disk.truncate _ _ d4) as [[u|e] d5] eqn:Tr;
      pose proof (Disk.truncate_law _ _ _ _ _ _ _ (proj1 S) Ho Hin Tr) as L.
    2:{ intros [= <- <- <-]. split; [by eapply same_trans | done]. }
    destruct L as (On & F & St).
    intros [= <- <- <-]. apply recovery_finish; auto; simpl.
    + by eapply only_same.
    + rewrite F, resize_cut by lia. rewrite Ec at 1. by rewrite ztake_app.
    + intros b Hb Hlb. apply St; [|done]. by apply S.
    + rewrite <- (take_ge bs (length bs)) at 1 by lia. apply index_ok_cut; [lia | by rewrite take_ge | done].
    + by rewrite (proj2 (Z.eqb_neq _ _)) by lia.
  - assert (zlen (cat bs) = zlen content) as El by lia.
    assert (content = cat bs) as Eb.
    { rewrite Ec, zlen_app in El. assert (rest = []) as -> by (apply zlen_0; pose proof (zlen_nonneg rest); lia).
      by rewrite Ec, app_nil_r. }
    rewrite (un_report _ _ _ U). intros [= <- <- <-]. apply recovery_finish; auto; simpl.
    + by apply same_only.
    + rewrite <- Eb. apply Ho.
    + intros b Hb _. by apply S.
    + split; [done|]. by rewrite El.
    + by rewrite (proj2 (Z.eqb_eq _ _)).
    + lia.
Qed.

(** Recovery keeps exactly the longest chain, and changes nothing when it fails. *)
Lemma recover_spec (d : D) s content r s' d' :
  unrecovered d s content -> sidecar_honest d s content -> Segment.recover s d = (r, s', d') ->
  let '(bs, next) := valid_batches (Segment.base_offset_ s) content in
  match r with
  | Ok _ => recovered d d' s s' content bs next
  | fail e => Disk.same d d' /\ Segment.log_file_ s' = Segment.log_file_ s
  end.
Proof.
  intros U Hh. destruct (valid_batches _ content) as [bs next] eqn:V.
  pose proof (valid_batches_spec (Segment.base_offset_ s) content) as Sp. rewrite V in Sp.
  destruct Sp as [C (rest & Ec & N)].
  unfold Segment.recover. pose proof (un_good _ _ _ U) as Hg. pose proof (un_opened _ _ _ U) as Ho.
  destruct (Disk.size _ d) as [[n|e] d1] eqn:Sz; destruct (Disk.size_law _ _ _ _ _ _ Hg Ho Sz) as [S1 R1].
  2:{ by intros [= <- <- <-]. }
  rewrite (R1 n eq_refl). destruct (_ <? zlen content) eqn:Emax; bool_prop; [by intros [= <- <- <-]|].
  pose proof (un_max _ _ _ U) as Um. rewrite wrap_small by (pose proof (zlen_nonneg content); lia).
  assert (unrecovered d1 s content) as U1.
  { destruct U. split; auto; [apply S1 | by eapply same_opened]. }
  assert (sidecar_honest d1 s content) as Hh1.
  { intros ib Hib. apply Hh. by rewrite <- (proj1 (proj2 S1)). }
  destruct (Segment.read_index _ _ _ d1) as [ix1 d2] eqn:RI.
  destruct (Segment.find_start _ _ _ ix1 d2) as [[ix2 start] d3] eqn:FS.
  destruct (recovery_start _ _ _ _ _ _ _ _ U1 Hh1 ltac:(lia) RI FS) as (S3 & k & Hk & Hix & Hck & Hpos).
  rewrite V in Hk, Hix, Hck, Hpos. simpl in Hk, Hix, Hck, Hpos. rewrite Hpos.
  pose proof (same_trans _ _ _ S1 S3) as S13.
  set (mid := match start with Some e => _ | None => _ end) in *.
  assert (content = cat (take k bs) ++ (cat (drop k bs) ++ rest)) as Ec'.
  { by rewrite app_assoc, <- concat_app, take_drop. }
  assert (scanning d3 s (take k bs) mid (cat (drop k bs) ++ rest)) as W.
  { split; rewrite <- ?Ec'; [apply S3 | | done | lia | apply U]. exists (Segment.log_path_ s).
    by eapply same_opened. }
  assert (valid_batches mid (cat (drop k bs) ++ rest) = (drop k bs, next)) as V2.
  { apply (valid_batches_unique _ _ _ _ rest); [|done|done].
    rewrite <- (take_drop k bs) in C. apply chain_app in C as (mid' & C1 & C2).
    by rewrite (chain_fun _ _ _ _ Hck C1). }
  destruct (Segment.scan_tail _ _ _ _ d3) as [sr d4] eqn:ST.
  apply (scan_tail_spec s (zlen content) _ (take k bs) mid (cat (drop k bs) ++ rest) 0) in ST;
    [|done|by rewrite <- Ec'| |done|done|by rewrite (un_report _ _ _ U)|done].
  2:{ apply (f_equal zlen) in Ec'. rewrite zlen_app in Ec'. pose proof (zlen_nonneg (cat (take k bs))).
      unfold zlen in *. lia. }
  destruct ST as [S4 [(sc & -> & R) | (e & -> & F)]].
  2:{ intros [= <- <- <-]. split; [by eapply same_trans | done]. }
  unfold scan_result in R. rewrite V2, take_drop in R. destruct R as (P & X & Six & _).
  apply recovery_end; auto. by eapply same_trans.
Qed.

(** ** Appending *)

Lemma overwrite_behind (pre rest data : list Z) :
  overwrite (pre ++ rest) (zlen pre) data = pre ++ data ++ zdrop (zlen data) rest.
Proof.
  destruct data as [|x data]; [simpl; by rewrite zdrop_le|]. unfold overwrite, splice.
  set (n := zlen (x :: data)). assert (0 < n) by (unfold n; len).
  rewrite ztake_app_le, ztake_app by len. do 2 f_equal.
  rewrite <- app_assoc, zdrop_app_ge by lia. replace (zlen pre + n - zlen pre) with n by lia.
  destruct (Z_le_dec n (zlen rest)).
  - rewrite zdrop_app_le by done. unfold zrep. rewrite zlen_app.
    replace (Z.to_nat _) with O by lia. by rewrite app_nil_r.
  - rewrite (zdrop_ge n rest) by lia. rewrite zdrop_ge; [done|]. len.
Qed.

(** Bytes behind the chain are nobody's business. *)
Lemma seg_inv_file (d d' : D) s bs rest :
  seg_inv d s bs -> Disk.good d' -> Disk.handles d' = Disk.handles d ->
  Disk.files d' !! Segment.log_path_ s = Some (cat bs ++ rest) -> seg_inv d' s bs.
Proof.
  intros [[W1 W2 W3 W4 W5 W6] (rest0 & [[m Hm] _]) M I P] Hg Hd Hf.
  assert (Disk.opened d' (Segment.log_file_ s) (Segment.log_path_ s) (cat bs ++ rest)) as Ho.
  { split; [exists m; by rewrite Hd | done]. }
  split; auto; [split; eauto | eauto].
Qed.

Lemma seg_inv_same (d d' : D) s bs : Disk.same d d' -> seg_inv d s bs -> seg_inv d' s bs.
Proof.
  intros (G & F & Hd & _) I. destruct (si_file _ _ _ I) as (rest & [_ Hf]).
  eapply seg_inv_file; eauto. by rewrite F.
Qed.

Lemma seg_inv_only p (d d' : D) s bs :
  p <> Segment.log_path_ s -> Disk.only p d d' -> seg_inv d s bs -> seg_inv d' s bs.
Proof.
  intros Hp (G & Hd & F & _) I. destruct (si_file _ _ _ I) as (rest & [_ Hf]).
  eapply seg_inv_file; eauto. by rewrite F.
Qed.

Lemma append_spec (d : D) s bs framed h r s' d' :
  seg_inv d s bs -> bytes_ok framed -> is_batch framed h -> Segment.append framed h s d = (r, s', d') ->
  Disk.only (Segment.log_path_ s) d d' /\
  (forall b, Disk.settled d (Segment.log_path_ s) b -> zlen b <= zlen (cat bs) ->
     Disk.settled d' (Segment.log_path_ s) b) /\
  match r with
  | Ok _ => base_offset h = Segment.next_offset_ s /\ seg_inv d' s' (bs ++ [framed]) /\
      Segment.next_offset_ s' = next_offset h /\ Segment.base_offset_ s' = Segment.base_offset_ s /\
      Segment.log_path_ s' = Segment.log_path_ s /\ Segment.index_path_ s' = Segment.index_path_ s /\
      Segment.log_file_ s' = Segment.log_file_ s /\ Segment.options_ s' = Segment.options_ s
  | fail _ => s' = s /\ seg_inv d' s bs
  end.
Proof.
  intros I Hb B. unfold Segment.append.
  pose proof I as [[W1 W2 W3 W4 W5 W6] (rest & Ho) M Ix P].
  pose proof (is_batch_size _ _ B) as L. unfold kMaxBatchBytes in L.
  pose proof (same_refl d W1) as Rf.
  destruct (base_offset h =? Segment.next_offset_ s) eqn:E1; bool_prop; simpl.
  2:{ intros [= <- <- <-]. split_and!; auto. by apply same_only. }
  rewrite (wrap_small 32 (_ - _)) by (pose proof (zlen_nonneg (cat bs)); lia).
  destruct (_ <? zlen framed) eqn:E2; bool_prop.
  { intros [= <- <- <-]. split_and!; auto. by apply same_only. }
  destruct (Disk.pwrite _ _ _ d) as [w d1] eqn:Wr.
  assert (0 <= Segment.size_bytes_ s) by (rewrite W4; apply zlen_nonneg).
  eapply Disk.pwrite_law in Wr as [(e & -> & S) | (k & On & Hk & F & St & Rk)]; eauto; [| |pow2; lia..].
  { intros [= <- <- <-]. split_and!; [by apply same_only | | done | by eapply seg_inv_same].
    intros. by apply S. }
  rewrite W4, overwrite_behind in F.
  assert (forall b, Disk.settled d (Segment.log_path_ s) b -> zlen b <= zlen (cat bs) ->
    Disk.settled d1 (Segment.log_path_ s) b) as St' by (intros; apply St; [done | lia]).
  assert (seg_inv d1 s bs) as I1.
  { eapply seg_inv_file; [done | apply On | apply On | exact F]. }
  destruct w as [n|e]; [|intros [= <- <- <-]; by split_and!].
  specialize (Rk n eq_refl). subst k.
  destruct (n =? zlen framed) eqn:En; bool_prop; simpl; [|intros [= <- <- <-]; by split_and!].
  intros [= <- <- <-]. rewrite ztake_ge in F by lia.
  pose proof (walking_bytes _ _ _ _ (si_walk _ _ _ I)) as Hbs.
  destruct (chain_bounds _ _ _ W3 Hbs) as [Bd _]; try (pow2; lia).
  assert (zlen (cat (bs ++ [framed])) = zlen (cat bs) + zlen framed) as Lc by (rewrite concat_app; simpl; len).
  assert (Disk.opened d1 (Segment.log_file_ s) (Segment.log_path_ s)
    (cat (bs ++ [framed]) ++ zdrop (zlen framed) rest)) as Ho1.
  { rewrite concat_app. simpl. rewrite app_nil_r, <- app_assoc. split; [|done].
    destruct Ho as [[m Hm] _]. exists m. destruct On as (_ & -> & _). done. }
  assert (u32 (Segment.size_bytes_ s + u32 (zlen framed)) = zlen (cat bs) + zlen framed) as Es.
  { rewrite (wrap_small 32 (zlen framed)) by lia. rewrite wrap_small; lia. }
  split_and!; simpl; auto. split; simpl; auto.
  - split; simpl; auto; [apply On | eauto | | lia | lia].
    apply chain_app. exists (Segment.next_offset_ s). split; [done|]. exists h. by split_and!.
  - eauto.
  - rewrite Es. lia.
  - rewrite E1, wrap_small by (pow2; lia). eapply index_ok_add; [done | done | lia | by rewrite W4 | lia | apply Ix].
Qed.

(** ** Reading *)

(** [ws] is the longest run of whole batches in front of [ys] that fits in [n] bytes. *)
Definition fits (n : Z) (ys ws : list (list Z)) : Prop :=
  exists zs, ys = ws ++ zs /\ zlen (cat ws) <= n /\
    match zs with [] => True | z :: _ => n < zlen (cat ws) + zlen z end.

Lemma subslice_behind (xs rest : list Z) n :
  0 <= n -> subslice (ztake n (xs ++ rest)) (zlen xs) (zlen (ztake n (xs ++ rest)) - zlen xs) =
  ztake (n - zlen xs) rest.
Proof.
  intros. unfold subslice. rewrite Z.ltb_irrefl. unfold zsub.
  destruct (Z_le_dec n (zlen xs)).
  - rewrite zdrop_ge by len. rewrite (ztake_le (n - zlen xs)) by lia. unfold ztake. by rewrite take_nil.
  - rewrite ztake_app_ge by lia. rewrite zdrop_app by done. rewrite ztake_ge by len. done.
Qed.

Lemma whole_batches_spec n ys : forall xs from next fuel,
  0 <= n -> zlen (cat xs) <= n -> chain from ys next -> bytes_ok (cat ys) -> n - zlen (cat xs) < Z.of_nat fuel ->
  exists ws, fits (n - zlen (cat xs)) ys ws /\
    Segment.whole_batches (ztake n (cat xs ++ cat ys)) fuel (zlen (cat xs)) = Ok (zlen (cat xs) + zlen (cat ws)).
Proof.
  induction ys as [|y ys IH]; intros xs from next fuel Hn Hx C Hb Hf.
  { destruct fuel as [|fuel]; [lia|]. exists []. split; [exists []; split_and!; [done | simpl; len | done]|].
    simpl. rewrite app_nil_r, ztake_ge by lia. unfold kBatchHeaderBytes.
    rewrite (proj2 (Z.leb_gt _ _)) by lia. rewrite zlen_nil. f_equal. lia. }
  destruct fuel as [|fuel]; [lia|]. simpl in C. destruct C as (h & B & Eo & C).
  pose proof (is_batch_size _ _ B) as L. pose proof B as (Dh & V & T).
  simpl in Hb. apply Forall_app in Hb as [Hy Hb].
  assert (forall m, m = n - zlen (cat xs) -> m < zlen y -> fits m (y :: ys) []) as Nofit.
  { intros m -> Hlt. exists (y :: ys). split_and!; [done | simpl; len | simpl; rewrite zlen_nil; lia]. }
  cbn [Segment.whole_batches]. unfold kBatchHeaderBytes. simpl cat.
  set (m := n - zlen (cat xs)).
  assert (zlen (ztake n (cat xs ++ (y ++ cat ys))) = Z.min n (zlen (cat xs) + zlen y + zlen (cat ys))) as Lg by len.
  destruct (zlen (cat xs) + 52 <=? _) eqn:E1; bool_prop; rewrite Lg in E1.
  2:{ exists []. split; [apply Nofit; [done | unfold m; len]|]. simpl. rewrite zlen_nil. f_equal. lia. }
  rewrite subslice_behind by done. fold m.
  assert (decode_header (ztake m (y ++ cat ys)) = Ok h) as Dm.
  { rewrite decode_header_take by (unfold m; len). by rewrite decode_header_app by lia. }
  rewrite Dm, T. rewrite Lg. destruct (_ <? zlen (cat xs) + zlen y) eqn:E2; bool_prop.
  { exists []. split; [apply Nofit; [done | unfold m; len]|]. simpl. rewrite zlen_nil. f_equal. lia. }
  rewrite ztake_app_ge by (unfold m; len).
  rewrite validate_batch_app by done. simpl.
  destruct (IH (xs ++ [y]) (next_offset h) next fuel) as (ws & (zs & -> & Hw & Hz) & Ew);
    rewrite ?concat_app; simpl; rewrite ?app_nil_r, ?zlen_app; try done; try lia.
  rewrite concat_app in Ew, Hw, Hz. simpl in Ew, Hw, Hz. rewrite app_nil_r in Ew, Hw, Hz.
  rewrite zlen_app in Ew, Hw, Hz. rewrite <- app_assoc in Ew.
  exists (y :: ws). split.
  - exists zs. split_and!; [done | simpl; len |]. destruct zs; [done|]. simpl. rewrite zlen_app. lia.
  - rewrite concat_app in Ew. rewrite Ew. simpl. rewrite zlen_app. f_equal. lia.
Qed.

(** The batch of the chain that contains [want]. *)
Definition contains (want : Z) (b : list Z) : Prop :=
  exists h, is_batch b h /\ base_offset h <= want < next_offset h.

Lemma read_empty (d : D) s offset n r d' :
  seg_inv d s [] -> Segment.read s offset n d = (r, d') -> r = Ok [] /\ d' = d.
Proof.
  intros [[_ _ _ W4 _ _] _ _ [[_ F] Lt] _]. change (zlen (cat [])) with 0 in *.
  unfold Segment.read. destruct (_ <=? offset); [by intros [= <- <-]|].
  assert (Segment.index_ s = []) as ->.
  { destruct (Segment.index_ s) as [|e ix]; [done|]. exfalso.
    apply Forall_cons in F as [(k & _ & P & _) _]. apply Forall_cons in Lt as [L _].
    pose proof (zlen_nonneg (cat (take k []))). lia. }
  rewrite W4. simpl. rewrite W4. simpl. by intros [= <- <-].
Qed.

(** The bulk read behind the walk: the whole batches that fit. *)
Lemma read_bulk (d : D) s p xs v vs rest n from next r d' :
  Disk.good d -> Disk.opened d (Segment.log_file_ s) p (cat xs ++ cat (v :: vs) ++ rest) ->
  bytes_ok (cat (v :: vs)) -> chain from (v :: vs) next -> zlen v <= n ->
  (let avail := zlen (cat (v :: vs)) in
   let want_bytes := if avail <? n then avail else n in
   match Disk.pread (Segment.log_file_ s) want_bytes (zlen (cat xs)) d with
   | (fail e, d) => (fail e, d)
   | (Ok got, d) => (let? whole := Segment.whole_batches got (S (length got)) 0 in Ok (ztake whole got), d)
   end) = (r, d') ->
  Disk.same d d' /\
  ((exists ws, fits n (v :: vs) ws /\ r = Ok (cat ws)) \/ exists e, r = fail e /\ read_failed e).
Proof.
  intros Hg Hop Hbv Cv Hn. cbv zeta. set (wb := if _ <? n then _ else n).
  assert (zlen (cat (v :: vs)) = zlen v + zlen (cat vs)) as Lvs by (simpl; apply zlen_app).
  pose proof (zlen_nonneg (cat vs)). pose proof (zlen_nonneg v).
  assert (wb = Z.min n (zlen v + zlen (cat vs))) as Hwb.
  { unfold wb. destruct (_ <? n) eqn:E; bool_prop; lia. }
  destruct (Disk.pread _ wb _ d) as [got d2] eqn:Rd.
  apply (pread_opened _ _ _ _ _ _ _ _ Hg Hop) in Rd as [S2 R2]; [|lia|len].
  destruct R2 as [-> | (e & -> & F)]; intros E; apply pair_equal_spec in E as [<- <-]; (split; [done|]); [left | eauto].
  rewrite zsub_behind, ztake_app_le by lia.
  assert (zlen (ztake wb (cat (v :: vs))) = wb) as Lg by (rewrite zlen_ztake; lia).
  destruct (whole_batches_spec wb (v :: vs) [] from next
    (S (length (ztake wb (cat (v :: vs)))))) as (ws & Hfit & Ewb); [lia | change (zlen (cat [])) with 0; lia | done | done | |].
  { change (zlen (cat [])) with 0. unfold zlen in Lg. lia. }
  change (cat [] ++ cat (v :: vs)) with (cat (v :: vs)) in Ewb.
  destruct Hfit as (zs & Ezs & Hws & Hzs). change (zlen (cat [])) with 0 in *.
  rewrite Z.sub_0_r in *. rewrite Ewb, Z.add_0_l.
  exists ws. split.
  - exists zs. split_and!; [done | lia |]. destruct zs as [|z zs]; [done|].
    apply (f_equal cat), (f_equal zlen) in Ezs. rewrite Lvs, concat_app, zlen_app in Ezs. simpl in Ezs.
    rewrite zlen_app in Ezs. pose proof (zlen_nonneg (cat zs)). lia.
  - f_equal. rewrite ztake_ztake, Z.min_l by lia. rewrite Ezs, concat_app. by apply ztake_app.
Qed.

Lemma read_spec (d : D) s bs offset n r d' :
  seg_inv d s bs -> 0 <= offset -> 0 <= n -> Segment.read s offset n d = (r, d') ->
  Disk.same d d' /\
  (((Segment.next_offset_ s <= offset \/ bs = []) /\ r = Ok []) \/
   (offset < Segment.next_offset_ s /\
    exists us v vs, bs = us ++ v :: vs /\ contains (Z.max offset (Segment.base_offset_ s)) v /\
      if n <? zlen v then r = fail kMessageTooLarge
      else exists ws, fits n (v :: vs) ws /\ r = Ok (cat ws)) \/
   exists e, r = fail e /\ read_failed e).
Proof.
  intros I Ho Hn. destruct (decide (bs = [])) as [->|Hne].
  { intros E. apply read_empty in E as [-> ->]; [|done].
    split; [apply same_refl, (wk_good _ _ _ _ (si_walk _ _ _ I)) | auto]. }
  unfold Segment.read. pose proof I as [W _ M [Ix _] P]. pose proof W as [W1 W2 W3 W4 W5 W6].
  pose proof (walking_bytes _ _ _ _ W) as Hbs.
  destruct (_ <=? offset) eqn:E1; bool_prop; [intros [= <- <-]; split; [by apply same_refl | auto]|].
  set (want := if offset <? _ then _ else offset).
  assert (want = Z.max offset (Segment.base_offset_ s)) as Hw.
  { unfold want. destruct (_ <? _) eqn:E; bool_prop; lia. }
  destruct (chain_bounds _ _ _ W3 Hbs) as [Bd Bne]; try (pow2; lia).
  specialize (Bne Hne). assert (want < Segment.next_offset_ s) as Hlt by lia.
  rewrite wrap_small by (pow2; lia).
  destruct (index_ok_lookup _ _ _ (want - Segment.base_offset_ s) Ix) as (k & Hk & (Pk & Rk & Ck) & Hrel); [lia|].
  rewrite Pk. destruct (Segment.seek _ _ _ _ d) as [r1 d1] eqn:Sk.
  eapply (seek_spec s bs _ want (drop k bs)) in Sk; [|exact W|by rewrite take_drop|exact Ck|lia|].
  2:{ pose proof (chain_len _ _ _ W3). rewrite length_drop. rewrite W4. unfold zlen in *. lia. }
  destruct Sk as [S1 [(us & v & vs & h & Ed & B & Hr & ->) | (e & -> & F)]].
  2:{ intros [= <- <-]. eauto 6. }
  assert (bs = (take k bs ++ us) ++ v :: vs) as Eb by (rewrite <- app_assoc, <- Ed; by rewrite take_drop).
  pose proof (is_batch_size _ _ B) as Lv.
  assert (Segment.size_bytes_ s = zlen (cat (take k bs ++ us)) + (zlen v + zlen (cat vs))) as Ls.
  { rewrite W4, Eb at 1. rewrite concat_app, zlen_app. simpl. by rewrite zlen_app. }
  set (pos := zlen (cat (take k bs ++ us))) in *.
  rewrite (proj2 (Z.leb_gt _ _)) by (pose proof (zlen_nonneg (cat vs)); lia).
  destruct (n <? zlen v) eqn:E2; bool_prop.
  { intros [= <- <-]. split; [done|]. right. left. split; [done|]. exists (take k bs ++ us), v, vs.
    rewrite (proj2 (Z.ltb_lt _ _)) by done. rewrite <- Hw. split_and!; [done | by exists h | done]. }
  destruct W2 as (p & rest & Hop). pose proof (same_opened _ _ _ _ _ S1 Hop) as Hop1.
  assert (chain (base_offset h) (v :: vs) (Segment.next_offset_ s)) as Cv.
  { rewrite Eb in W3. apply chain_app in W3 as (mid & _ & (h' & B' & _ & C')). exists h.
    assert (h' = h) as -> by (destruct B as (X & _), B' as (Y & _); congruence). by split_and!. }
  replace (Segment.size_bytes_ s - pos) with (zlen (cat (v :: vs))) by (simpl; rewrite zlen_app; lia).
  intros E. eapply read_bulk in E; [| apply S1 | | | exact Cv | done].
  - destruct E as [S2 R2]. split; [by eapply same_trans|]. right. destruct R2 as [R2 | R2]; [left | by right].
    split; [done|]. exists (take k bs ++ us), v, vs. rewrite (proj2 (Z.ltb_ge _ _)) by done. rewrite <- Hw.
    split_and!; [done | by exists h | done].
  - rewrite Eb, concat_app, <- app_assoc in Hop1. exact Hop1.
  - rewrite Eb, concat_app in Hbs. by apply Forall_app in Hbs as [_ ?].
Qed.

(** ** Truncating *)

(** Where [truncate_to] cuts: at the boundary with that offset, if the chain has one. *)
Lemma cut_walk_spec (d : D) s bs offset found d1 :
  seg_inv d s bs -> Segment.base_offset_ s <= offset -> offset < Segment.next_offset_ s ->
  (let pos := if Segment.base_offset_ s <? offset
     then file_pos (SparseIndex.lookup (Segment.index_ s) (u32 (offset - Segment.base_offset_ s))) else 0 in
   if offset <=? Segment.base_offset_ s then (Ok pos, d)
   else Segment.find_cut s offset (S (Z.to_nat (Segment.size_bytes_ s))) pos d) = (found, d1) ->
  Disk.same d d1 /\
  ((exists xs ys, bs = xs ++ ys /\ chain (Segment.base_offset_ s) xs offset /\ found = Ok (zlen (cat xs))) \/
   (found = fail kInvalidArgument /\
     forall xs ys, bs = xs ++ ys -> ys <> [] -> ~ chain (Segment.base_offset_ s) xs offset) \/
   exists e, found = fail e /\ read_failed e).
Proof.
  intros [W _ _ [Ix _] _] Hbo Hlt E. pose proof W as [W1 W2 W3 W4 W5 W6].
  pose proof (walking_bytes _ _ _ _ W) as Hbs. destruct (chain_bounds _ _ _ W3 Hbs) as [Bd _]; try (pow2; lia).
  destruct (offset <=? _) eqn:E2; bool_prop.
  { rewrite (proj2 (Z.ltb_ge _ _)) in E by lia. injection E as <- <-. split; [by apply same_refl|].
    left. exists [], bs. simpl. split_and!; [done | lia | done]. }
  rewrite (proj2 (Z.ltb_lt _ _)) in E by lia. rewrite wrap_small in E by (pow2; lia).
  destruct (index_ok_lookup _ _ _ (offset - Segment.base_offset_ s) Ix) as (k & Hk & (Pk & Rk & Ck) & Hrel); [lia|].
  rewrite Pk in E. eapply (find_cut_spec s bs _ offset (drop k bs)) in E; [|exact W|by rewrite take_drop|exact Ck|].
  2:{ pose proof (chain_len _ _ _ W3). rewrite length_drop, W4. unfold zlen in *. lia. }
  destruct E as [S [(us & vs & Ed & C & ->) | [[-> No] | F]]]; (split; [done|]); [left | right; left | by right; right].
  - exists (take k bs ++ us), vs. split_and!; [|done|done]. rewrite <- app_assoc, <- Ed. by rewrite take_drop.
  - split; [done|]. intros xs ys Eb Hy C. assert (k <= length xs)%nat as Hkx.
    { apply Nat.nlt_ge. intros Hk'. rewrite Eb in W, Ck. rewrite take_app_ge in Ck by lia.
      rewrite <- (take_drop (k - length xs) ys) in W. pose proof (walking_mono _ _ _ _ _ _ _ _ W C Ck) as [_ Mono].
      assert (take (k - length xs) ys <> []) as Hne.
      { destruct ys as [|y ys]; [done|]. destruct (k - length xs)%nat eqn:?; [lia | done]. }
      specialize (Mono Hne). lia. }
    apply (No (drop k xs) ys); [|done|].
    + rewrite Eb, drop_app_le by lia. done.
    + rewrite Eb, take_app_le by lia. by rewrite take_drop.
Qed.

Lemma truncate_to_spec (d : D) s bs offset r s' d' :
  seg_inv d s bs -> Segment.base_offset_ s <= offset -> Segment.truncate_to offset s d = (r, s', d') ->
  Disk.only (Segment.log_path_ s) d d' /\
  match r with
  | Ok _ =>
      (Segment.next_offset_ s <= offset /\ s' = s /\ d' = d) \/
      exists xs ys, bs = xs ++ ys /\ chain (Segment.base_offset_ s) xs offset /\ seg_inv d' s' xs /\
        Segment.next_offset_ s' = offset /\ Segment.base_offset_ s' = Segment.base_offset_ s /\
        Segment.log_path_ s' = Segment.log_path_ s /\ Segment.index_path_ s' = Segment.index_path_ s /\
        Segment.log_file_ s' = Segment.log_file_ s /\ Segment.options_ s' = Segment.options_ s /\
        Disk.files d' !! Segment.log_path_ s = Some (cat xs) /\
        (forall b, Disk.settled d (Segment.log_path_ s) b -> zlen b <= zlen (cat xs) ->
           Disk.settled d' (Segment.log_path_ s) b)
  | fail e => s' = s /\ Disk.same d d' /\
      (e = kInvalidArgument /\ (forall xs ys, bs = xs ++ ys -> ys <> [] -> ~ chain (Segment.base_offset_ s) xs offset) \/
       read_failed e \/ exists f n d1 d2, Disk.truncate f n d1 = (fail e, d2))
  end.
Proof.
  intros I Hbo. unfold Segment.truncate_to.
  pose proof I as [W (rest & Hop) M [Ix Ilt] P]. pose proof W as [W1 W2 W3 W4 W5 W6].
  pose proof (same_refl d W1) as Rf.
  destruct (_ <=? offset) eqn:E1; bool_prop.
  { intros [= <- <- <-]. split; [by apply same_only | by left]. }
  pose proof (walking_bytes _ _ _ _ W) as Hbs. destruct (chain_bounds _ _ _ W3 Hbs) as [Bd _]; try (pow2; lia).
  destruct (if offset <=? _ then _ else _) as [found d1] eqn:Walk.
  apply (cut_walk_spec _ _ _ _ _ _ I) in Walk as [S R]; [|done|done].
  destruct R as [(xs & ys & Eb & C & ->) | [[-> No] | (e & -> & F)]].
  2:{ intros [= <- <- <-]. split; [by apply same_only | auto]. }
  2:{ intros [= <- <- <-]. split; [by apply same_only | auto]. }
  pose proof (same_opened _ _ _ _ _ S Hop) as Hop1.
  assert (cat bs = cat xs ++ cat ys) as Ecat by (by rewrite Eb, concat_app).
  assert (0 <= zlen (cat xs) < 2 ^ 64) as Hin.
  { apply (inside_file _ _ _ _ _ (proj1 S) Hop1). rewrite Ecat. len. }
  destruct (Disk.truncate _ _ d1) as [[u|e] d2] eqn:Tr;
    pose proof (Disk.truncate_law _ _ _ _ _ _ _ (proj1 S) Hop1 Hin Tr) as L.
  2:{ intros [= <- <- <-]. pose proof (same_trans _ _ _ S L). split; [by apply same_only|]. split_and!; eauto 8. }
  destruct L as (On & F & St).
  intros [= <- <- <-]. split; [by eapply only_same|]. right. exists xs, ys.
  assert (zlen (cat xs) <= zlen (cat bs)) by (rewrite Ecat; len).
  assert (Disk.files d2 !! Segment.log_path_ s = Some (cat xs)) as Hf.
  { rewrite F, resize_cut by len. rewrite Ecat, <- app_assoc. by rewrite ztake_app. }
  assert (Disk.opened d2 (Segment.log_file_ s) (Segment.log_path_ s) (cat xs ++ [])) as Hop2.
  { rewrite app_nil_r. split; [|done]. destruct Hop1 as [[m Hm] _]. exists m. destruct On as (_ & -> & _). done. }
  split_and!; simpl; auto.
  - split; simpl; auto; [|eauto|lia|].
    + split; simpl; auto; [apply On | eauto | lia].
    + replace xs with (take (length xs) bs) at 1 by (rewrite Eb; apply take_app_length).
      apply index_ok_cut; [rewrite Eb, length_app; lia | by rewrite Eb, take_app_length | done].
  - intros b Hb Hl. apply St; [by apply S | done].
Qed.

(** ** The sidecar *)

Lemma sorted_length ix lo hi :
  SparseIndex.sorted ix -> Forall (fun e => lo <= file_pos e < hi) ix -> lo <= hi -> zlen ix <= hi - lo.
Proof.
  intros Hs. revert lo. induction Hs as [|e ix _ IH He]; intros lo Hf Hl; [rewrite zlen_nil; lia|].
  apply Forall_cons in Hf as [H1 Hf]. rewrite zlen_cons.
  assert (zlen ix <= hi - (file_pos e + 1)); [|lia]. apply IH; [|lia].
  apply Forall_forall. intros x Hx. rewrite Forall_forall in Hf, He.
  specialize (Hf x Hx). destruct (He x Hx) as [_ ?]. lia.
Qed.

Lemma index_bytes_ok ix : bytes_ok (SparseIndex.index_bytes ix).
Proof.
  unfold SparseIndex.index_bytes. apply Forall_concat, Forall_fmap, Forall_forall. intros e _.
  unfold SparseIndex.encode_entry. apply Forall_app. split; auto with le.
Qed.

Lemma flush_bytes (d : D) s bs :
  seg_inv d s bs -> let out := SparseIndex.encode (Segment.index_ s) Buffer.empty_buffer in
  Buffer.slice out = SparseIndex.index_bytes (Segment.index_ s) /\ zlen (Buffer.slice out) < 2 ^ 64.
Proof.
  intros [W _ M [[Hs Hb] Hl] _] out. unfold out. destruct (encode_slice (Segment.index_ s) Buffer.empty_buffer) as [_ ->]; [done|].
  split; [done|]. change (Buffer.slice Buffer.empty_buffer) with (@nil Z). simpl. rewrite zlen_index_bytes.
  assert (zlen (Segment.index_ s) <= 2 ^ 32 - 0); [|pow2; lia]. apply sorted_length; [done | | lia].
  apply Forall_forall. intros e He. rewrite Forall_forall in Hb, Hl. specialize (Hl e He).
  destruct (Hb e He) as (k & _ & P & _). rewrite P in *. pose proof (wk_small _ _ _ _ W).
  pose proof (zlen_nonneg (cat (take k bs))). lia.
Qed.

Lemma only_trans p (d1 d2 d3 : D) : Disk.only p d1 d2 -> Disk.only p d2 d3 -> Disk.only p d1 d3.
Proof.
  intros (G & Hd & F & S) (G' & H' & F' & S'). split_and!; [done | congruence | |].
  - intros q Hq. rewrite F' by done. by apply F. - intros q bs Hq Hs. apply S'; auto.
Qed.

(** Opening a file and closing it again, with only that file touched in between. *)
Lemma open_close p m (d d1 d2 : D) f :
  Disk.good d -> Disk.file_path p -> Disk.open p m d = (Ok f, d1) -> Disk.only p d1 d2 ->
  Disk.only p d (Disk.close f d2) /\ Disk.files (Disk.close f d2) = Disk.files d2.
Proof.
  intros Hg Hp O (G2 & H2 & F2 & S2). pose proof (Disk.open_law _ _ _ _ _ Hg Hp O) as (N & G1 & H1 & S1 & F1).
  destruct (Disk.close_law d2 f G2) as (G3 & F3 & H3 & S3). split; [|done]. split_and!; [done | | |].
  - by rewrite H3, H2, H1, delete_insert_id.
  - intros q Hq. rewrite F3, F2 by done. destruct F1 as [[_ ->] | (_ & _ & -> & _)]; [done|]. by rewrite lookup_insert_ne.
  - intros q bs Hq Hs. auto.
Qed.

Lemma open_opened p m (d d1 : D) f :
  Disk.good d -> Disk.file_path p -> Disk.open p m d = (Ok f, d1) ->
  Disk.good d1 /\ exists b, Disk.opened d1 f p b /\ (Disk.files d !! p = Some b \/ Disk.files d !! p = None /\ b = []).
Proof.
  intros Hg Hp O. destruct (Disk.open_law _ _ _ _ _ Hg Hp O) as (N & G1 & H1 & S1 & F1). split; [done|].
  destruct F1 as [[[b Hb] F] | (_ & Hn & F & _)].
  - exists b. split; [|by left]. split; [exists m; by rewrite H1, lookup_insert_eq | by rewrite F].
  - exists []. split; [|by right]. split; [exists m; by rewrite H1, lookup_insert_eq | by rewrite F, lookup_insert_eq].
Qed.

(** [flush_index] touches the sidecar only, and leaves it as it was or holding leading bytes
    of the encoded index. *)
Lemma flush_index_spec (d : D) s bs r d' :
  seg_inv d s bs -> Segment.flush_index s d = (r, d') ->
  Disk.only (Segment.index_path_ s) d d' /\ seg_inv d' s bs /\
  (Disk.files d' !! Segment.index_path_ s = Disk.files d !! Segment.index_path_ s \/
   exists k, 0 <= k /\
     Disk.files d' !! Segment.index_path_ s = Some (ztake k (SparseIndex.index_bytes (Segment.index_ s)))).
Proof.
  intros I E. destruct (si_paths _ _ _ I) as (P1 & P2 & P3).
  assert (Disk.good d) as Hg by apply (si_walk _ _ _ I).
  destruct (flush_bytes _ _ _ I) as [Eo Lo]. unfold Segment.flush_index in E.
  set (out := SparseIndex.encode _ _) in *.
  assert (Disk.only (Segment.index_path_ s) d d' /\
   (Disk.files d' !! Segment.index_path_ s = Disk.files d !! Segment.index_path_ s \/
    exists k, 0 <= k /\
     Disk.files d' !! Segment.index_path_ s = Some (ztake k (SparseIndex.index_bytes (Segment.index_ s)))))
    as [On Fi].
  2:{ split_and!; [done | | done]. eapply seg_inv_only; [|done|done]. congruence. }
  destruct (Disk.open _ _ d) as [[f|e] d1] eqn:O.
  2:{ injection E as <- <-. pose proof (Disk.open_law _ _ _ _ _ Hg P2 O) as S. simpl in S.
      split; [by apply same_only | left]. by rewrite (proj1 (proj2 S)). }
  destruct (open_opened _ _ _ _ _ Hg P2 O) as (G1 & b & Hb & Hwas).
  destruct (Disk.truncate f 0 d1) as [st d2] eqn:Tr.
  pose proof (Disk.truncate_law _ _ _ _ _ _ _ G1 Hb ltac:(done) Tr) as L. destruct st as [u|e]; simpl in E.
  2:{ injection E as <- <-. destruct (open_close _ _ _ _ _ _ Hg P2 O (same_only _ _ _ L)) as [On ->].
      split; [done|]. rewrite (proj1 (proj2 L)). destruct Hb as [_ Hb]. rewrite Hb.
      destruct Hwas as [-> | [-> ->]]; [by left|]. right. exists 0. split; [lia|]. by rewrite ztake_le. }
  destruct L as (On2 & F2 & _).
  rewrite resize_cut, ztake_le in F2 by (apply zlen_nonneg || lia).
  assert (Disk.opened d2 f (Segment.index_path_ s) []) as Ho2'.
  { split; [|done]. destruct Hb as [[m Hm] _]. exists m. destruct On2 as (_ & -> & _). done. }
  destruct (negb (Buffer.empty out)).
  2:{ injection E as <- <-. destruct (open_close _ _ _ _ _ _ Hg P2 O On2) as [On ->]. split; [done|].
      right. exists 0. rewrite F2. split; [lia|]. by rewrite ztake_le. }
  destruct (Disk.pwrite f (Buffer.slice out) 0 d2) as [w d3] eqn:Wr. rewrite Eo in Wr, Lo.
  eapply Disk.pwrite_law in Wr; [|apply On2 | exact Ho2' | done | apply index_bytes_ok | done].
  destruct Wr as [(e & -> & S3) | (k & On3 & Hk & F3 & _ & _)].
  - injection E as <- <-.
    destruct (open_close _ _ _ _ _ _ Hg P2 O (only_trans _ _ _ _ On2 (same_only _ _ _ S3))) as [On ->].
    split; [done|]. right. exists 0. split; [lia|]. rewrite (proj1 (proj2 S3)), F2. by rewrite ztake_le.
  - destruct (open_close _ _ _ _ _ _ Hg P2 O (only_trans _ _ _ _ On2 On3)) as [On Ef].
    assert (d' = Disk.close f d3) as -> by (by destruct w; injection E as <- <-).
    split; [done|]. right. exists k. split; [lia|]. rewrite Ef, F3.
    pose proof (overwrite_behind [] [] (ztake k (SparseIndex.index_bytes (Segment.index_ s)))) as Ow.
    rewrite zlen_nil in Ow. simpl in Ow. rewrite Ow, zdrop_ge; [by rewrite app_nil_r|]. apply zlen_nonneg.
Qed.

End Walks.
