(* ===== verification/SegmentProps.v ===== *)
(** * Segments: names, opening, power cuts

    File names of segments parse back to the offsets they were made from; opening a segment
    recovers the longest chain its file starts with; what [flush_index] leaves in a sidecar
    is honest about the log; and the batches that were fsynced before a power cut are there
    after it.  The properties of the segment layer are stated here. *)
From S2P Require Import Prelude Base Crc32c RecordBatch SparseIndex Random Disk SimDisk Segment Chain SegmentFacts.
From Stdlib Require Import SpecFloat.

(** ** Names *)

(** The decimal digits of [v], [n] of them. *)
Fixpoint digits (n : nat) (v : Z) : chars :=
  match n with
  | O => []
  | S n' => digits n' (v / 10) ++ [digit (v mod 10)]
  end.

Lemma digits_zero n : digits n 0 = replicate n (digit 0).
Proof.
  induction n as [|n IH]; [done|]. simpl. change (0 / 10) with 0. rewrite IH.
  by rewrite <- replicate_S_end.
Qed.

Lemma length_digits n v : length (digits n v) = n.
Proof. revert v. induction n; intros v; simpl; [done|]. rewrite length_app, IHn. simpl. lia. Qed.

Lemma fill_digits_spec n : forall v tail,
  0 <= v -> fill_digits n v (replicate n (digit 0) ++ tail) = digits n v ++ tail.
Proof.
  induction n as [|n IH]; intros v tail Hv; [done|]. cbn [fill_digits digits].
  destruct (0 <? v) eqn:E; bool_prop.
  - rewrite replicate_S_end, <- app_assoc. simpl. rewrite insert_app_r_alt by (rewrite length_replicate; lia).
    rewrite length_replicate, Nat.sub_diag. simpl. rewrite IH by (apply Z.div_pos; lia). by rewrite <- app_assoc.
  - replace v with 0 by lia. change (digits n (0 / 10) ++ [digit (0 mod 10)]) with (digits (S n) 0).
    by rewrite digits_zero.
Qed.

Lemma offset_to_name_spec v suffix : 0 <= v -> offset_to_name v suffix = digits 20 v ++ suffix.
Proof.
  intros Hv. unfold offset_to_name, kOffsetDigits. rewrite <- (app_nil_r (replicate 20 _)).
  by rewrite fill_digits_spec, app_nil_r.
Qed.

Lemma digit_code v : 0 <= v < 10 -> Z.of_nat (nat_of_ascii (digit v)) = 48 + v.
Proof.
  intros. unfold digit. rewrite nat_ascii_embedding by lia. lia.
Qed.

Lemma parse_digits_app value a b :
  parse_digits value (a ++ b) = match parse_digits value a with Ok v => parse_digits v b | fail e => fail e end.
Proof.
  revert value. induction a as [|c a IH]; intros value; [done|]. simpl. destruct (_ || _); [done|]. apply IH.
Qed.

Lemma parse_digits_spec n : forall v, 0 <= v < 10 ^ Z.of_nat n -> v < 2 ^ 64 -> parse_digits 0 (digits n v) = Ok v.
Proof.
  induction n as [|n IH]; intros v Hv Hm.
  { simpl in Hv. simpl. f_equal. lia. }
  rewrite Nat2Z.inj_succ, Z.pow_succ_r in Hv by lia. simpl digits.
  assert (0 <= v / 10 < 10 ^ Z.of_nat n) by (split; [apply Z.div_pos | apply Z.div_lt_upper_bound]; lia).
  rewrite parse_digits_app, IH by (done || pow2; dmlia).
  cbn [parse_digits]. rewrite digit_code by (apply Z.mod_pos_bound; lia).
  replace (48 + v mod 10 - 48) with (v mod 10) by lia. pose proof (Z.mod_pos_bound v 10 ltac:(lia)).
  rewrite (proj2 (Z.ltb_ge _ _)), (proj2 (Z.ltb_ge _ _)) by lia. simpl.
  f_equal. rewrite wrap_small; [|pow2]; dmlia.
Qed.

Lemma parse_log_name_spec v : 0 <= v < 2 ^ 64 -> Segment.parse_log_name (Segment.log_name v) = Ok v.
Proof.
  intros Hv. unfold Segment.parse_log_name, Segment.log_name. rewrite offset_to_name_spec by lia.
  rewrite length_app, length_digits, drop_app_length', take_app_length' by (by rewrite length_digits).
  simpl negb. apply (parse_digits_spec 20); [|lia].
  change (10 ^ Z.of_nat 20) with 100000000000000000000. pow2. lia.
Qed.

Lemma join_last dir name : name <> [] -> last (join dir name) = last name.
Proof.
  intros Hn. assert (forall a : chars, last (a ++ name) = last name) as L.
  { intros a. rewrite last_app. destruct (last name) eqn:E; [done|]. by apply last_None in E. }
  unfold join. destruct (last dir); [|by apply L]. by case_bool_decide; apply L.
Qed.

Lemma join_inj dir a b : join dir a = join dir b -> a = b.
Proof. unfold join. destruct (last dir); [case_bool_decide|]; apply app_inv_head. Qed.

Definition log_path (dir : chars) (offset : Z) : chars := join dir (Segment.log_name offset).
Definition index_path (dir : chars) (offset : Z) : chars := join dir (Segment.index_name offset).

Lemma log_path_last dir v : last (log_path dir v) = Some "g"%char.
Proof.
  unfold log_path, Segment.log_name, offset_to_name.
  rewrite join_last; [by rewrite last_app|]. by destruct (fill_digits _ _ _).
Qed.

Lemma index_path_last dir v : last (index_path dir v) = Some "x"%char.
Proof.
  unfold index_path, Segment.index_name, offset_to_name.
  rewrite join_last; [by rewrite last_app|]. by destruct (fill_digits _ _ _).
Qed.

Lemma log_path_file dir v : Disk.file_path (log_path dir v).
Proof. unfold Disk.file_path. by rewrite log_path_last. Qed.

Lemma index_path_file dir v : Disk.file_path (index_path dir v).
Proof. unfold Disk.file_path. by rewrite index_path_last. Qed.

Lemma log_index_path dir u v : log_path dir u <> index_path dir v.
Proof. intros E. apply (f_equal last) in E. by rewrite log_path_last, index_path_last in E. Qed.

Lemma log_path_inj dir u v : 0 <= u < 2 ^ 64 -> 0 <= v < 2 ^ 64 -> log_path dir u = log_path dir v -> u = v.
Proof.
  intros Hu Hv E. apply join_inj in E. apply (f_equal Segment.parse_log_name) in E.
  rewrite !parse_log_name_spec in E by done. congruence.
Qed.

(** ** Opening *)

Section Opening.
#[local] Set Default Proof Using "Type*".
Context {D : Type} `{DL : Disk.laws D}.

(** The bytes a segment finds in its file; a file that is not there is created empty. *)
Definition found_bytes (d : D) (path : chars) : list Z := default [] (Disk.files d !! path).

(** The sidecar of the segment at [offset], if any, is honest about the log file. *)
Definition honest_at (d : D) (dir : chars) (offset : Z) : Prop :=
  forall ib, Disk.files d !! index_path dir offset = Some ib ->
    honest offset (valid_batches offset (found_bytes d (log_path dir offset))).1
      (found_bytes d (log_path dir offset)) (SparseIndex.decode ib (zlen (found_bytes d (log_path dir offset)))).

(** A segment of the directory, holding [bs], with nothing but [bs] in its file. *)
Record opened_segment (d d' : D) (dir : chars) (offset : Z) (options : Segment.Options) (s : Segment.t)
    (bs : list (list Z)) (next : Z) : Prop := {
  os_inv : seg_inv d' s bs;
  os_next : Segment.next_offset_ s = next;
  os_base : Segment.base_offset_ s = offset;
  os_options : Segment.options_ s = options;
  os_log : Segment.log_path_ s = log_path dir offset;
  os_index : Segment.index_path_ s = index_path dir offset;
  os_fresh : Disk.handles d !! Segment.log_file_ s = None;
  os_handles : Disk.handles d' = <[Segment.log_file_ s := (log_path dir offset, kCreate)]> (Disk.handles d);
  os_file : Disk.files d' !! log_path dir offset = Some (cat bs);
  os_others : forall q, q <> log_path dir offset -> Disk.files d' !! q = Disk.files d !! q;
  os_settled : forall q b, Disk.settled d q b -> q <> log_path dir offset \/ zlen b <= zlen (cat bs) ->
    Disk.settled d' q b;
  os_truncated : Segment.truncated (Segment.recovery_ s) =
    negb (zlen (cat bs) =? zlen (found_bytes d (log_path dir offset))) }.

Lemma open_spec (d : D) dir offset options r d' :
  Disk.good d -> Segment.max_bytes options < 2 ^ 32 -> 0 <= offset /\ offset + 2 ^ 32 <= 2 ^ 64 ->
  honest_at d dir offset -> Segment.open dir offset options d = (r, d') ->
  let '(bs, next) := valid_batches offset (found_bytes d (log_path dir offset)) in
  match r with
  | Ok s => opened_segment d d' dir offset options s bs next
  | fail _ => Disk.good d' /\ (forall q, q <> log_path dir offset -> Disk.files d' !! q = Disk.files d !! q) /\
      (forall q b, Disk.settled d q b -> Disk.settled d' q b) /\
      found_bytes d' (log_path dir offset) = found_bytes d (log_path dir offset) /\
      Disk.handles d ⊆ Disk.handles d'
  end.
Proof.
  intros Hg Hmax Hoff Hh. unfold Segment.open.
  destruct (valid_batches _ _) as [bs next] eqn:V.
  cbn [Segment.log_path_]. change (join dir (Segment.log_name offset)) with (log_path dir offset).
  change (join dir (Segment.index_name offset)) with (index_path dir offset).
  destruct (Disk.open (log_path dir offset) kCreate d) as [[f|e] d1] eqn:O;
    pose proof (Disk.open_law _ _ _ _ _ Hg (log_path_file dir offset) O) as L; simpl in L.
  2:{ unfold Segment.destroy. cbn [Segment.log_file_]. rewrite Z.eqb_refl.
      intros [= <- <-]. destruct L as (G & F & Hd & S). split_and!; [done | by intros; rewrite F | done | | by rewrite Hd].
      unfold found_bytes. by rewrite F. }
  pose proof (open_opened _ _ _ _ _ Hg (log_path_file dir offset) O) as (G1 & b & Hb & Hwas).
  assert (b = found_bytes d (log_path dir offset)) as Eb.
  { unfold found_bytes. by destruct Hwas as [-> | [-> ->]]. }
  destruct L as (N & _ & H1 & S1 & F1).
  assert (forall q, q <> log_path dir offset -> Disk.files d1 !! q = Disk.files d !! q) as Oth.
  { intros q Hq. destruct F1 as [[_ ->] | (_ & _ & -> & _)]; [done|]. by rewrite lookup_insert_ne. }
  set (seg := Segment.mk _ _ _ _ _ _ _ _ _). set (seg1 := seg <| Segment.log_file_ := f |>).
  assert (unrecovered d1 seg1 b) as U.
  { split; simpl; auto. split_and!; [apply log_path_file | apply index_path_file | apply log_index_path]. }
  assert (sidecar_honest d1 seg1 b) as Sh.
  { intros ib Hib. simpl in *. rewrite Eb. apply Hh. rewrite Oth in Hib; [done|].
    intros E. by apply (log_index_path dir offset offset). }
  destruct (Segment.recover seg1 d1) as [[st s'] d2] eqn:R.
  pose proof (recover_spec _ _ _ _ _ _ U Sh R) as Sp. simpl in Sp. rewrite Eb, V in Sp.
  destruct st as [u|e].
  - destruct Sp as [I X (B1 & B2 & B3 & B4 & B5) On F St T _]. simpl in *. intros [= <- <-].
    destruct On as (_ & H2 & F2 & S2). split; rewrite ?B3; auto.
    + congruence.
    + intros q Hq. rewrite F2 by done. by apply Oth.
    + intros q c Hc [Hq | Hl]; [apply S2; auto|]. destruct (decide (q = log_path dir offset)) as [->|]; auto.
  - destruct Sp as [(G2 & F2 & H2 & S2) Lf]. intros [= <- <-]. unfold Segment.destroy. rewrite Lf. simpl.
    assert (found_bytes d1 (log_path dir offset) = found_bytes d (log_path dir offset)) as Ef.
    { unfold found_bytes at 1. destruct Hb as [_ ->]. done. }
    destruct (f =? kInvalidFile).
    + split_and!; [done | intros; rewrite F2; auto | auto | | by rewrite H2, H1; apply insert_subseteq].
      rewrite <- Ef. unfold found_bytes. by rewrite F2.
    + destruct (Disk.close_law d2 f G2) as (G3 & F3 & H3 & S3).
      split_and!; [done | intros; rewrite F3, F2; auto | auto | | by rewrite H3, H2, H1, delete_insert_id].
      rewrite <- Ef. unfold found_bytes. by rewrite F3, F2.
Qed.

(** ** Sidecars written by [flush_index] are honest *)

Lemma flushed_honest (d : D) s bs more next content k :
  seg_inv d s bs -> 0 <= k -> valid_batches (Segment.base_offset_ s) content = (bs ++ more, next) ->
  honest (Segment.base_offset_ s) (bs ++ more) content
    (SparseIndex.decode (ztake k (SparseIndex.index_bytes (Segment.index_ s))) (zlen content)).
Proof.
  intros [W _ _ [[Hs Hb] Hl] _] Hk V. pose proof (walking_bytes _ _ _ _ W) as Hby. destruct W as [_ _ C _ Sm Bs].
  pose proof (valid_batches_spec (Segment.base_offset_ s) content) as Sp. rewrite V in Sp.
  destruct Sp as [_ (rest & Ec & _)]. set (ix := Segment.index_ s) in *.
  assert (zlen (cat bs) <= zlen content) as Hle by (rewrite Ec, concat_app; len).
  rewrite Forall_forall in Hb, Hl.
  assert (ztake k (SparseIndex.index_bytes ix) =
    ztake (Z.min k (zlen (SparseIndex.index_bytes ix))) (SparseIndex.index_bytes ix)) as ->.
  { destruct (Z_le_dec k (zlen (SparseIndex.index_bytes ix))); [by rewrite Z.min_l by lia|].
    rewrite Z.min_r by lia. by rewrite !ztake_ge by lia. }
  rewrite decode_prefix; [|done| | |pose proof (zlen_nonneg (SparseIndex.index_bytes ix)); lia].
  - apply Forall_take, Forall_forall. intros e He. left. by apply boundary_app, Hb.
  - apply Forall_forall. intros e He. specialize (Hl e He). destruct (Hb e He) as (j & _ & P & R & Cj).
    pose proof (zlen_nonneg (cat (take j bs))).
    assert (Segment.base_offset_ s <= Segment.base_offset_ s + rel_offset e < Segment.base_offset_ s + 2 ^ 32).
    { eapply (chain_take_bounds _ bs j _ []); rewrite ?app_nil_r; eauto. }
    split; lia.
  - apply Forall_forall. intros e He. specialize (Hl e He). lia.
Qed.

(** A sidecar that is not there claims nothing. *)
Lemma honest_absent (d : D) dir offset : Disk.files d !! index_path dir offset = None -> honest_at d dir offset.
Proof. intros E ib Hib. congruence. Qed.

(** ** Power cuts *)

(** Settled batches are recovered, whatever else the file holds. *)
Lemma settled_recovered (d d' : D) dir offset options s bs next cs mid :
  Disk.good d -> chain offset cs mid -> Disk.settled d (log_path dir offset) (cat cs) ->
  valid_batches offset (found_bytes d (log_path dir offset)) = (bs, next) ->
  opened_segment d d' dir offset options s bs next -> cs `prefix_of` bs.
Proof.
  intros Hg C St V Os. apply Disk.settled_prefix in St as (b & Hb & [more Eb]); [|done].
  pose proof (valid_batches_spec offset (found_bytes d (log_path dir offset))) as Sp. rewrite V in Sp.
  destruct Sp as [C' (rest & E & N)]. unfold found_bytes in E. rewrite Hb in E. simpl in E.
  eapply longest_chain; eauto. by rewrite <- E.
Qed.

(** Appending batches one by one: what is left, and the batches that were accepted. *)
Fixpoint appends (s : Segment.t) (d : D) (l : list (list Z)) : Segment.t * D * list (list Z) :=
  match l with
  | [] => (s, d, [])
  | b :: l' =>
      match decode_header b with
      | fail _ => appends s d l'
      | Ok h =>
          match Segment.append b h s d with
          | (Ok _, s, d) => let '(s, d, acc) := appends s d l' in (s, d, b :: acc)
          | (fail _, s, d) => appends s d l'
          end
      end
  end.

Definition batch_ok (b : list Z) : Prop := bytes_ok b /\ exists h, is_batch b h.

Lemma appends_spec l : forall s (d : D) bs s' d' acc,
  seg_inv d s bs -> Forall batch_ok l -> appends s d l = (s', d', acc) ->
  seg_inv d' s' (bs ++ acc) /\ Segment.log_path_ s' = Segment.log_path_ s /\
  Segment.base_offset_ s' = Segment.base_offset_ s /\
  (forall b, Disk.settled d (Segment.log_path_ s) b -> zlen b <= zlen (cat bs) ->
     Disk.settled d' (Segment.log_path_ s) b).
Proof.
  induction l as [|b l IH]; intros s d bs s' d' acc I Hl E; simpl in E.
  { injection E as <- <- <-. rewrite app_nil_r. by split_and!. }
  apply Forall_cons in Hl as [[Hb (h & B)] Hl]. pose proof B as (Dh & _). rewrite Dh in E.
  destruct (Segment.append b h s d) as [[[u|e] s1] d1] eqn:A;
    destruct (append_spec _ _ _ _ _ _ _ _ I Hb B A) as (On & St & R).
  - destruct R as (_ & I1 & _ & B1 & P1 & _). destruct (appends s1 d1 l) as [[s2 d2] acc2] eqn:E2.
    injection E as <- <- <-. apply (IH _ _ _ _ _ _ I1 Hl) in E2 as (I2 & P2 & B2 & S2).
    rewrite <- app_assoc in I2. split_and!; [done | congruence | congruence |]. intros c Hc Hlen.
    rewrite P1 in S2. apply S2; [by apply St|]. rewrite concat_app. len.
  - destruct R as [-> I1]. apply (IH _ _ _ _ _ _ I1 Hl) in E as (I2 & P2 & B2 & S2). split_and!; auto.
Qed.

Lemma fsync_same (d : D) s bs r d' : seg_inv d s bs -> Segment.fsync s d = (r, d') -> Disk.same d d'.
Proof.
  intros I E. destruct (si_file _ _ _ I) as (rest & Ho).
  by destruct (Disk.fsync_law _ _ _ _ _ _ (wk_good _ _ _ _ (si_walk _ _ _ I)) Ho E).
Qed.

Lemma fsync_spec (d : D) s bs d' :
  seg_inv d s bs -> Segment.fsync s d = (Ok tt, d') ->
  seg_inv d' s bs /\ Disk.settled d' (Segment.log_path_ s) (cat bs).
Proof.
  intros I E. destruct (si_file _ _ _ I) as (rest & Ho).
  destruct (Disk.fsync_law _ _ _ _ _ _ (wk_good _ _ _ _ (si_walk _ _ _ I)) Ho E) as [S St]. specialize (St eq_refl).
  split; [by eapply seg_inv_same|]. eapply Disk.settled_shorter; [|exact St]. by exists rest.
Qed.

End Opening.

(** ** Properties *)

(** C8: Recovery is exact.  Opening a segment on any disk that keeps its contract, over any
    bytes, with a sidecar that is missing, torn or stale but honest, either fails and leaves
    every file as it was, or leaves a file that holds precisely the longest run of valid,
    consecutive batches the old bytes started with, reports a truncation exactly when bytes
    were dropped, and continues at the offset behind that run. *)
Theorem segment_recovery_exact (D : Type) (DO : Disk.t D) (DV : Disk.view D) (d d' : D) (dir : chars)
    (offset : Z) (options : Segment.Options) (r : Result Segment.t) :
  Disk.laws D -> Disk.good d -> Segment.max_bytes options < 2 ^ 32 -> 0 <= offset /\ offset + 2 ^ 32 <= 2 ^ 64 ->
  honest_at d dir offset -> Segment.open dir offset options d = (r, d') ->
  let old := found_bytes d (log_path dir offset) in
  let '(bs, next) := valid_batches offset old in
  (forall q, q <> log_path dir offset -> Disk.files d' !! q = Disk.files d !! q) /\
  match r with
  | fail _ => found_bytes d' (log_path dir offset) = old
  | Ok s =>
      Disk.files d' !! log_path dir offset = Some (cat bs) /\ cat bs `prefix_of` old /\
      chain offset bs next /\ Segment.next_offset_ s = next /\ Segment.size_bytes_ s = zlen (cat bs) /\
      (Segment.truncated (Segment.recovery_ s) = true <-> cat bs <> old) /\
      forall cs mid, chain offset cs mid -> cat cs `prefix_of` old -> cs `prefix_of` bs
  end.
Proof.
  intros DL Hg Hmax Hoff Hh E. cbv zeta. pose proof (open_spec _ _ _ _ _ _ Hg Hmax Hoff Hh E) as Sp.
  pose proof (valid_batches_spec offset (found_bytes d (log_path dir offset))) as V.
  destruct (valid_batches _ _) as [bs next]. destruct V as [C (rest & Eo & N)].
  destruct r as [s|e]; [|destruct Sp as (_ & F & _ & B & _); by split].
  destruct Sp as [I X B1 B2 B3 B4 _ _ F O _ T]. split; [done|].
  split_and!; auto.
  - rewrite Eo. by exists rest.
  - apply (si_walk _ _ _ I).
  - rewrite T, Eo, zlen_app. pose proof (zlen_nonneg rest). rewrite negb_true_iff, Z.eqb_neq. split.
    + intros Hn Heq. apply (f_equal zlen) in Heq. rewrite zlen_app in Heq. lia.
    + intros Hn Hl. apply Hn. assert (rest = []) as -> by (apply zlen_0; lia). by rewrite app_nil_r.
  - intros cs mid C' [more Em]. eapply longest_chain; eauto. by rewrite <- Eo.
Qed.

(** What was fsynced survives.  Open a segment, append batches, fsync, append some more,
    with any of these appends failing or writing only part of its bytes, and cut the power:
    when the segment opens again, it holds the batches it first opened with and every batch
    accepted before the [fsync], in order and in front of whatever else survived. *)
Theorem fsynced_batches_survive (D : Type) (DO : Disk.t D) (DV : Disk.view D) (crashed : D -> D -> Prop)
    (d d1 d2 d3 d4 d5 d6 : D) (dir : chars) (offset : Z) (options : Segment.Options)
    (s s1 s2 s' : Segment.t) (l1 l2 acc1 acc2 : list (list Z)) :
  Disk.laws D -> Disk.crash_laws D crashed ->
  Disk.good d -> Segment.max_bytes options < 2 ^ 32 -> 0 <= offset /\ offset + 2 ^ 32 <= 2 ^ 64 ->
  honest_at d dir offset -> Segment.open dir offset options d = (Ok s, d1) ->
  Forall batch_ok l1 -> appends s d1 l1 = (s1, d2, acc1) ->
  Segment.fsync s1 d2 = (Ok tt, d3) ->
  Forall batch_ok l2 -> appends s1 d3 l2 = (s2, d4, acc2) ->
  crashed d4 d5 -> honest_at d5 dir offset -> Segment.open dir offset options d5 = (Ok s', d6) ->
  exists more, Disk.files d6 !! log_path dir offset =
    Some (cat ((valid_batches offset (found_bytes d (log_path dir offset))).1 ++ acc1 ++ more)) /\
    chain offset ((valid_batches offset (found_bytes d (log_path dir offset))).1 ++ acc1 ++ more)
      (Segment.next_offset_ s').
Proof.
  intros DL CL Hg Hmax Hoff Hh O1 Hl1 A1 Fs Hl2 A2 Cr Hh' O2.
  pose proof (open_spec _ _ _ _ _ _ Hg Hmax Hoff Hh O1) as Sp.
  destruct (valid_batches offset (found_bytes d _)) as [bs next]. simpl. destruct Sp as [I _ B1 _ P1 _ _ _ _ _ _ _].
  apply (appends_spec _ _ _ _ _ _ _ I Hl1) in A1 as (I1 & P2 & B2 & _).
  apply (fsync_spec _ _ _ _ I1) in Fs as [I2 St].
  apply (appends_spec _ _ _ _ _ _ _ I2 Hl2) in A2 as (I3 & _ & _ & St2).
  assert (Disk.settled d4 (log_path dir offset) (cat (bs ++ acc1))) as St4.
  { rewrite <- P1, <- P2. apply St2; [done | lia]. }
  destruct (Disk.crash_law _ _ (wk_good _ _ _ _ (si_walk _ _ _ I3)) Cr) as (G5 & _ & _ & S5).
  pose proof (open_spec _ _ _ _ _ _ G5 Hmax Hoff Hh' O2) as Sp.
  destruct (valid_batches offset (found_bytes d5 _)) as [bs' next'] eqn:V.
  assert (bs ++ acc1 `prefix_of` bs') as [more ->].
  { eapply settled_recovered; [done | | by apply S5 | done | done].
    rewrite <- B1, <- B2. apply (si_walk _ _ _ I2). }
  exists more. rewrite app_assoc. destruct Sp as [I' X B' _ _ _ _ _ F _ _ _]. split; [done|].
  rewrite <- B' at 1. apply (si_walk _ _ _ I').
Qed.

(** A quiet disk with one segment file, for concrete runs. *)
Definition quiet : SimDisk.DiskFaultConfig :=
  SimDisk.mkFaults (S754_zero false) (S754_zero false) (S754_zero false).

Definition sample_batch (offset : Z) (vs : list (list Z)) : list Z :=
  batch_bytes offset (mkBatchMeta 1 false 0 0 0 0) vs.

Definition sample_ops (content : list Z) : list SimDisk.Op :=
  [SimDisk.MakeDirectories (lit "d"); SimDisk.Open (log_path (lit "d") 5) kCreate;
   SimDisk.Write 0 content 0; SimDisk.Close 0].

Definition sample_disk (content : list Z) : SimDisk.t Z :=
  foldl SimDisk.perform (SimDisk.new 0 quiet) (sample_ops content).

Lemma run_good (ops : list SimDisk.Op) (d : SimDisk.t Z) :
  Disk.good d -> Forall SimDisk.op_ok ops -> Disk.good (foldl SimDisk.perform d ops).
Proof.
  intros Hg Ho. revert d Hg. induction Ho as [|o ops Ho _ IH]; intros d Hg; simpl; [done|].
  by apply IH, SimDisk.perform_good.
Qed.

Lemma sample_disk_good content : bytes_ok content -> zlen content < 2 ^ 64 -> Disk.good (sample_disk content).
Proof.
  intros. apply run_good; [apply SimDisk.new_good|]. by repeat constructor.
Qed.

Definition sample_options : Segment.Options := Segment.mkOptions 4096 64.

Definition sample_content : list Z :=
  sample_batch 5 [[7; 8]; [9]] ++ sample_batch 7 [[1]] ++ ztake 40 (sample_batch 8 [[2; 3]]).

Lemma segment_recovery_exact_witness :
  let d := sample_disk sample_content in
  let rd := Segment.open (lit "d") 5 sample_options d in
  let old := found_bytes d (log_path (lit "d") 5) in
  valid_batches 5 old = ([sample_batch 5 [[7; 8]; [9]]; sample_batch 7 [[1]]], 8) /\ ok rd.1 = true /\
  let '(bs, next) := valid_batches 5 old in
  (forall q, q <> log_path (lit "d") 5 -> Disk.files rd.2 !! q = Disk.files d !! q) /\
  match rd.1 with
  | fail _ => found_bytes rd.2 (log_path (lit "d") 5) = old
  | Ok s =>
      Disk.files rd.2 !! log_path (lit "d") 5 = Some (cat bs) /\ cat bs `prefix_of` old /\
      chain 5 bs next /\ Segment.next_offset_ s = next /\ Segment.size_bytes_ s = zlen (cat bs) /\
      (Segment.truncated (Segment.recovery_ s) = true <-> cat bs <> old) /\
      forall cs mid, chain 5 cs mid -> cat cs `prefix_of` old -> cs `prefix_of` bs
  end.
Proof.
  intros d rd old. split; [vm_compute; reflexivity|]. split; [vm_compute; reflexivity|].
  refine (segment_recovery_exact (SimDisk.t Z) SimDisk.sim_disk SimDisk.sim_view d rd.2 (lit "d") 5 sample_options
    rd.1 SimDisk.sim_laws _ _ _ _ _).
  - apply sample_disk_good; [apply bytes_ok_forallb|]; vm_compute; reflexivity.
  - done.
  - done.
  - apply honest_absent. vm_compute. reflexivity.
  - apply surjective_pairing.
Defined.

(** Open, append, fsync, append, lose power, open again. *)
Definition nowhere : Segment.t :=
  Segment.mk 0 0 sample_options 0 [] [] 0 [] (Segment.mkReport 0 0 0 0 false false).
Definition seg_of (r : Result Segment.t) : Segment.t := value_or r nowhere.

Definition run_open := Segment.open (lit "d") 5 sample_options (sample_disk sample_content).
Definition run_before := appends (seg_of run_open.1) run_open.2 [sample_batch 8 [[4]; [5]]; sample_batch 77 [[6]]].
Definition run_sync := Segment.fsync run_before.1.1 run_before.1.2.
Definition run_after := appends run_before.1.1 run_sync.2 [sample_batch 10 [[6]]].
Definition run_reboot := SimDisk.power_on (SimDisk.crash run_after.1.2).
Definition run_reopen := Segment.open (lit "d") 5 sample_options run_reboot.

Lemma forallb_bytes vs : forallb (forallb (fun b => (0 <=? b) && (b <? 256))) vs = true -> Forall bytes_ok vs.
Proof.
  rewrite forallb_forall. intros H. apply Forall_forall. intros v Hi. apply bytes_ok_forallb, H. by apply list_elem_of_In.
Qed.

Lemma sample_batch_ok offset vs :
  0 <= offset < 2 ^ 64 -> vs <> [] -> forallb (forallb (fun b => (0 <=? b) && (b <? 256))) vs = true ->
  52 + zlen (body_bytes vs) <= kMaxBatchBytes ->
  batch_ok (sample_batch offset vs).
Proof.
  intros Ho Hv Hb Hm. apply forallb_bytes in Hb.
  destruct (batch_bytes_is_batch offset (mkBatchMeta 1 false 0 0 0 0) vs) as [B (h & I & _)]; auto.
  { unfold meta_wf. simpl. lia. }
  split; [done | by exists h].
Qed.

Ltac sample_batches :=
  repeat apply Forall_cons_2; try apply Forall_nil_2;
  (apply sample_batch_ok; [done | done | reflexivity | vm_compute; discriminate]).

Lemma fsynced_batches_survive_witness :
  run_before.2 = [sample_batch 8 [[4]; [5]]] /\ run_after.2 = [sample_batch 10 [[6]]] /\
  exists more, Disk.files run_reopen.2 !! log_path (lit "d") 5 =
    Some (cat ((valid_batches 5 (found_bytes (sample_disk sample_content) (log_path (lit "d") 5))).1 ++
      run_before.2 ++ more)) /\
    chain 5 ((valid_batches 5 (found_bytes (sample_disk sample_content) (log_path (lit "d") 5))).1 ++
      run_before.2 ++ more) (Segment.next_offset_ (seg_of run_reopen.1)).
Proof.
  split; [vm_compute; reflexivity|]. split; [vm_compute; reflexivity|].
  refine (fsynced_batches_survive (SimDisk.t Z) SimDisk.sim_disk SimDisk.sim_view SimDisk.crashed
    (sample_disk sample_content) run_open.2 run_before.1.2 run_sync.2 run_after.1.2 run_reboot run_reopen.2
    (lit "d") 5 sample_options (seg_of run_open.1) run_before.1.1 run_after.1.1 (seg_of run_reopen.1)
    [sample_batch 8 [[4]; [5]]; sample_batch 77 [[6]]] [sample_batch 10 [[6]]] run_before.2 run_after.2
    SimDisk.sim_laws SimDisk.sim_crash_laws _ _ _ _ _ _ _ _ _ _ _ _ _).
  - apply sample_disk_good; [apply bytes_ok_forallb|]; vm_compute; reflexivity.
  - done.
  - done.
  - apply honest_absent. vm_compute. reflexivity.
  - vm_compute. reflexivity.
  - sample_batches.
  - vm_compute. reflexivity.
  - vm_compute. reflexivity.
  - sample_batches.
  - vm_compute. reflexivity.
  - reflexivity.
  - apply honest_absent. vm_compute. reflexivity.
  - vm_compute. reflexivity.
Defined.
