(* ===== verification/LogDump.v ===== *)
(** * log-dump

    Models [src/tools/log_dump.cpp]: the walk over the bytes of a segment file that prints
    batch headers, over any disk.  A line of output is a value of [Line], with what it prints;
    how the columns are set is left out, except for the bytes of a record, which are made
    printable.  Counts are not wrapped: they are below the size of the file.

    The theorems: the tool is read-only, whatever the disk does; nothing it prints of a record
    can control a terminal; and what it calls valid is at least what recovery keeps. *)
From S2P Require Import Prelude Base Random Crc32c RecordBatch SparseIndex Disk SimDisk Segment Chain SegmentFacts SegmentProps.

Module LogDump.

Definition backslash : Z := 92.
Definition dot : Z := 46.

(** [%02X] of a byte *)
Definition hex_digit (n : Z) : Z := if n <? 10 then 48 + n else 55 + n.
Definition escape (c : Z) : list Z := [backslash; 120; hex_digit (c / 16); hex_digit (c mod 16)].

(** The loop of [printable], over the bytes that are left. *)
Fixpoint printable_loop (value : list Z) (max_chars : Z) (out : list Z) : list Z :=
  match value with
  | [] => out
  | c :: rest =>
      if negb (zlen out <? max_chars) then out
      else printable_loop rest max_chars (out ++ (if (32 <=? c) && (c <? 127) then [c] else escape c))
  end.

Definition printable (value : list Z) (max_chars : Z) : list Z :=
  let out := printable_loop value max_chars [] in
  if max_chars <? zlen value then out ++ [dot; dot; dot] else out.

Inductive StopReason := ShortTail | UndecodableHeader | TornWrite | CheckFailed.

Record Summary := mkSummary {
  batches : Z;
  records : Z;
  control_batches : Z;
  first_offset : Z;
  next_offset : Z;
  valid_bytes : Z;
  trailing_bytes : Z;
  stop_reason : option StopReason }.

#[export] Instance Summary_eta : Settable Summary := fun s =>
  mkSummary (batches s) (records s) (control_batches s) (first_offset s) (next_offset s) (valid_bytes s)
    (trailing_bytes s) (stop_reason s).

Inductive Line :=
  | CannotOpen (path : chars) (e : ErrorCode)
  | CannotStat (path : chars)
  | CannotRead (path : chars)
  | FileLine (path : chars) (bytes : Z)
  | ColumnsLine
  | EpochLine (epoch offset : Z)
  | BatchLine (pos : Z) (h : BatchHeader) (valid : bool)
  | RecordLine (offset size : Z) (text : list Z)
  | BatchesLine (batches control : Z)
  | RecordsLine (records : Z)
  | OffsetsLine (first last next : Z)
  | ValidLine (valid size : Z)
  | TailLine (trailing : Z) (why : option StopReason)
  | UnknownOption (arg : chars)
  | Usage.

(** The loop over the records of a batch. *)
Fixpoint record_lines (offset : Z) (values : list (list Z)) : list Line :=
  match values with
  | [] => []
  | value :: rest => RecordLine offset (zlen value) (printable value 48) :: record_lines (u64 (offset + 1)) rest
  end.

Section Dump.
Context (bytes : list Z) (show_records quiet : bool).

(** The [while] of [dump], with the epoch line's memory in [epoch]. *)
Fixpoint walk (fuel : nat) (pos : Z) (epoch : option Z) (sum : Summary) : Summary * list Line :=
  match fuel with
  | O => (sum, [])
  | S fuel' =>
      if negb (pos <? zlen bytes) then (sum, [])
      else
        let framed := zdrop pos bytes in
        match decode_header framed with
        | fail _ =>
            (sum <| stop_reason := Some (if zlen bytes - pos <? kBatchHeaderBytes then ShortTail else UndecodableHeader) |>, [])
        | Ok h =>
            if zlen bytes - pos <? total_bytes h then (sum <| stop_reason := Some TornWrite |>, [])
            else
              let valid := ok (validate_batch framed) in
              let head :=
                (if negb quiet && negb (bool_decide (epoch = Some (leader_epoch h)))
                 then [EpochLine (leader_epoch h) (base_offset h)] else []) ++
                (if negb quiet then [BatchLine pos h valid] else []) in
              if negb valid then (sum <| stop_reason := Some CheckFailed |>, head)
              else
                let body := if show_records then record_lines (base_offset h) (RecordIterator.records framed) else [] in
                let sum :=
                  sum <| first_offset := if batches sum =? 0 then base_offset h else first_offset sum |>
                      <| batches := batches sum + 1 |>
                      <| records := records sum + record_count h |>
                      <| control_batches := control_batches sum + (if is_control h then 1 else 0) |>
                      <| next_offset := RecordBatch.next_offset h |>
                      <| valid_bytes := pos + total_bytes h |> in
                let '(sum, more) := walk fuel' (pos + total_bytes h) (Some (leader_epoch h)) sum in
                (sum, head ++ body ++ more)
        end
  end.

Definition no_summary : Summary := mkSummary 0 0 0 0 0 0 0 None.

(** What is found in the file, and what is printed while it is found. *)
Definition survey : Summary * list Line :=
  let '(sum, lines) := walk (length bytes) 0 None no_summary in
  (sum <| trailing_bytes := zlen bytes - valid_bytes sum |>, lines).

Definition summary_lines (sum : Summary) : list Line :=
  [BatchesLine (batches sum) (control_batches sum); RecordsLine (records sum)] ++
  (if 0 <? batches sum then [OffsetsLine (first_offset sum) (u64 (next_offset sum - 1)) (next_offset sum)] else []) ++
  [ValidLine (valid_bytes sum) (zlen bytes)] ++
  (if 0 <? trailing_bytes sum then [TailLine (trailing_bytes sum) (stop_reason sum)] else []).

End Dump.

Section Tool.
Context {D : Type} `{Disk.t D}.

Definition dump (path : chars) (show_records quiet : bool) (d : D) : Z * list Line * D :=
  match Disk.open path kRead d with
  | (fail e, d) => (1, [CannotOpen path e], d)
  | (Ok file, d) =>
      match Disk.size file d with
      | (fail _, d) => (1, [CannotStat path], d)
      | (Ok size, d) =>
          match Disk.pread file size 0 d with
          | (fail _, d) => (1, [CannotRead path], d)
          | (Ok bytes, d) =>
              let d := Disk.close file d in
              let '(sum, lines) := survey bytes show_records quiet in
              (0, [FileLine path (zlen bytes)] ++ (if negb quiet then [ColumnsLine] else []) ++ lines ++
                  summary_lines bytes sum, d)
          end
      end
  end.

(** [main]'s loop over its arguments: the path and the options, or an exit. *)
Fixpoint parse_args (args : list chars) (path : chars) (show_records quiet : bool) : (Z * list Line) + (chars * bool * bool) :=
  match args with
  | [] => inr (path, show_records, quiet)
  | arg :: rest =>
      if bool_decide (arg = lit "--records") then parse_args rest path true quiet
      else if bool_decide (arg = lit "--quiet") then parse_args rest path show_records true
      else if bool_decide (arg = lit "-h") || bool_decide (arg = lit "--help") then inl (0, [Usage])
      else if bool_decide (head arg = Some "-"%char) then inl (2, [UnknownOption arg; Usage])
      else parse_args rest arg show_records quiet
  end.

Definition main (args : list chars) (d : D) : Z * list Line * D :=
  match parse_args args [] false false with
  | inl (code, lines) => (code, lines, d)
  | inr ([], _, _) => (2, [Usage], d)
  | inr (path, show_records, quiet) => dump path show_records quiet d
  end.

End Tool.

End LogDump.

(** ** Validation looks at one batch *)

Section OneBatch.

Lemma walk_records_shrink framed more total count : zlen framed = total -> bytes_ok framed ->
  forall fuel fuel' i pos r, 0 <= pos <= total -> total - pos < Z.of_nat fuel' ->
  walk_records (framed ++ more) total count fuel i pos = Ok r ->
  walk_records framed total count fuel' i pos = Ok r.
Proof.
  intros Ht Hb. induction fuel as [|fuel IH]; intros [|fuel'] i pos r Hp Hf E; simpl in *; try done; try lia.
  destruct (i <? count); [|done]. unfold kRecordLengthBytes in *.
  destruct (total - pos <? 4) eqn:E1; [done|]. bool_prop. rewrite load_u32_app_l in E by lia.
  destruct (_ <? load_u32_le framed pos) eqn:E2; [done|]. bool_prop.
  pose proof (load_u32_range framed pos Hb). apply IH; [lia | lia | done].
Qed.

(** A valid batch is valid without what follows it. *)
Lemma validate_batch_take framed h : bytes_ok framed -> decode_header framed = Ok h -> validate_batch framed = Ok tt ->
  validate_batch (ztake (total_bytes h) framed) = Ok tt.
Proof.
  intros Hb D E. unfold validate_batch in *. rewrite D in E. pose proof (decode_header_inv _ _ D) as (H1 & H2 & _).
  destruct (zlen framed <? total_bytes h) eqn:E1; [done|]. bool_prop. rewrite decode_header_take, D by lia.
  assert (zlen (ztake (total_bytes h) framed) = total_bytes h) as L by len.
  replace (zlen (ztake (total_bytes h) framed) <? total_bytes h) with false by (symmetry; apply Z.ltb_ge; lia).
  pose proof (ztake_zdrop (total_bytes h) framed) as S. set (b := ztake _ framed) in *. set (more := zdrop _ framed) in *.
  assert (bytes_ok b) as Hbb by (rewrite <- S in Hb; by apply Forall_app in Hb as []). rewrite <- S in E.
  unfold compute_crc, kCrcCoveredFrom in *. rewrite subslice_app in E by lia. repeat (case_match; [done|]).
  destruct (walk_records (b ++ more) _ _ _ _ _) as [r|] eqn:W; [|done].
  erewrite walk_records_shrink; [exact E | exact L | exact Hbb | | | exact W].
  - unfold kBatchHeaderBytes. lia.
  - unfold kBatchHeaderBytes, zlen in *. lia.
Qed.

Lemma validity framed h : bytes_ok framed -> decode_header framed = Ok h ->
  ok (validate_batch (ztake (total_bytes h) framed)) = ok (validate_batch framed).
Proof.
  intros Hb D. destruct (validate_batch framed) as [[]|e] eqn:V; [by rewrite (validate_batch_take _ h)|].
  destruct (validate_batch (ztake _ framed)) as [[]|e'] eqn:V'; [|done].
  apply (validate_batch_app _ (zdrop (total_bytes h) framed)) in V'; [rewrite ztake_zdrop in V'; congruence|].
  rewrite <- (ztake_zdrop (total_bytes h) framed) in Hb. by apply Forall_app in Hb as [].
Qed.

End OneBatch.

(** ** What the walk finds *)

Section Walk.
Context (bytes : list Z) (show_records quiet : bool) (Hb : bytes_ok bytes).
Import LogDump.

Lemma walk_bounds fuel : forall pos epoch sum, valid_bytes sum = pos -> 0 <= pos <= zlen bytes ->
  pos <= valid_bytes (walk bytes show_records quiet fuel pos epoch sum).1 <= zlen bytes.
Proof.
  induction fuel as [|fuel IH]; intros pos epoch sum Hv Hp; cbn [walk fst]; [lia|].
  destruct (negb _); [cbn; lia|]. cbv zeta. destruct (decode_header _) as [h|e] eqn:D; [|cbn; lia].
  apply decode_header_inv in D as (D1 & D2 & _). destruct (_ <? total_bytes h) eqn:T; bool_prop; [cbn; lia|].
  destruct (negb _); [cbn; lia|]. match goal with |- context [walk _ _ _ fuel ?p ?e ?s] => specialize (IH p e s eq_refl); destruct (walk _ _ _ fuel p e s) end.
  cbn in *. lia.
Qed.

(** Where the two scans part, there is a batch that does not continue at the expected offset. *)
Lemma walk_spec fuel : forall pos from epoch sum, (length (zdrop pos bytes) <= fuel)%nat -> valid_bytes sum = pos -> 0 <= pos <= zlen bytes ->
  let v := valid_bytes (walk bytes show_records quiet fuel pos epoch sum).1 in
  let '(bs, next) := valid_loop fuel from (zdrop pos bytes) in
  pos + zlen (cat bs) <= v <= zlen bytes /\
  (v = pos + zlen (cat bs) \/ exists h, decode_header (zdrop (pos + zlen (cat bs)) bytes) = Ok h /\ base_offset h <> next).
Proof using Hb.
  induction fuel as [|fuel IH]; intros pos from epoch sum Hf Hv Hp; cbv zeta.
  { cbn. rewrite zlen_nil. split; [lia | left; lia]. }
  assert (bytes_ok (zdrop pos bytes)) as Hr by (rewrite <- (ztake_zdrop pos bytes) in Hb; by apply Forall_app in Hb as []).
  assert (zlen (zdrop pos bytes) = zlen bytes - pos) as Lr by len.
  pose proof (walk_bounds (S fuel) pos epoch sum Hv Hp) as Bd. cbn [valid_loop]. unfold first_batch.
  destruct (decode_header (zdrop pos bytes)) as [h|e] eqn:D.
  - pose proof (decode_header_inv _ _ D) as (D1 & D2 & _).
    destruct (base_offset h =? from) eqn:Eo; bool_prop.
    + rewrite andb_true_r. cbn [walk]. rewrite D. replace (pos <? zlen bytes) with true by (symmetry; apply Z.ltb_lt; lia). cbn [negb].
      rewrite (validity _ h Hr D). destruct (total_bytes h <=? zlen (zdrop pos bytes)) eqn:T; bool_prop; cbn [andb].
      * replace (zlen bytes - pos <? total_bytes h) with false by (symmetry; apply Z.ltb_ge; lia).
        destruct (ok _) eqn:V; cbn [negb]; [|cbn; rewrite zlen_nil; split; [lia | left; lia]].
        match goal with |- context [walk _ _ _ fuel ?p ?e ?s] => specialize (IH p (RecordBatch.next_offset h) e s) end.
        rewrite zdrop_zdrop by lia. destruct (walk _ _ _ fuel _ _ _) as [sum' more]. cbn [fst] in *. cbv zeta in IH.
        destruct (valid_loop fuel _ _) as [bs next]. destruct IH as [I1 I2]; [unfold zdrop in *; rewrite length_drop in *; lia | done | lia |].
        cbn [concat]. replace (zlen (ztake (total_bytes h) (zdrop pos bytes) ++ cat bs)) with (total_bytes h + zlen (cat bs)) by len. rewrite !Z.add_assoc. split; [lia|]. destruct I2 as [I2|I2]; [left; lia | right; exact I2].
      * replace (zlen bytes - pos <? total_bytes h) with true by (symmetry; apply Z.ltb_lt; lia). cbn. rewrite zlen_nil. split; [lia | left; lia].
    + rewrite andb_false_r. cbn [cat concat]. rewrite zlen_nil. split; [lia|]. right. exists h. by rewrite Z.add_0_r.
  - cbn [cat concat]. rewrite zlen_nil. split; [lia|]. left. cbn [walk]. rewrite D. destruct (negb _); cbn; lia.
Qed.

End Walk.

(** ** Properties *)

Section Printing.
Import LogDump.

Definition harmless (c : Z) : Prop := 32 <= c < 127.

Lemma hex_harmless n : 0 <= n < 16 -> harmless (hex_digit n).
Proof. intros. unfold harmless, hex_digit. destruct (n <? 10) eqn:?; bool_prop; lia. Qed.

Lemma printable_loop_spec max : forall value out, bytes_ok value -> Forall harmless out -> zlen out <= max + 3 ->
  Forall harmless (printable_loop value max out) /\ zlen (printable_loop value max out) <= max + 3.
Proof.
  induction value as [|c value IH]; intros out Hb Ho Hl; cbn [printable_loop]; [done|].
  destruct (negb (zlen out <? max)) eqn:E; bool_prop; [done|]. apply Forall_cons in Hb as [Hc Hb]. unfold byte_ok in Hc.
  pose proof (Z.mod_pos_bound c 16 ltac:(lia)). assert (0 <= c / 16 < 16) by (split; [apply Z.div_pos | apply Z.div_lt_upper_bound]; lia).
  apply IH; [done | apply Forall_app; split; [done|] | rewrite zlen_app]; destruct (_ && _) eqn:P; bool_prop.
  - constructor; [unfold harmless; lia | done].
  - repeat constructor; try (unfold harmless, backslash; lia); by apply hex_harmless.
  - change (zlen [c]) with 1. lia.
  - change (zlen (escape c)) with 4. lia.
Qed.

(** a record cannot reprogram the reader's terminal: whatever its bytes, what is printed
    of it is printable ASCII, and no longer than the limit with one escape and the dots. *)
Theorem printable_is_harmless (value : list Z) (max_chars : Z) :
  bytes_ok value -> 0 <= max_chars ->
  Forall harmless (printable value max_chars) /\ zlen (printable value max_chars) <= max_chars + 6.
Proof.
  intros Hb Hm. destruct (printable_loop_spec max_chars value [] Hb) as [F L]; [done | rewrite zlen_nil; lia|].
  unfold printable. cbv zeta. destruct (max_chars <? zlen value); [|split; [done | lia]]. split.
  - apply Forall_app. split; [done|]. repeat constructor; unfold harmless, dot; lia.
  - rewrite zlen_app. change (zlen [dot; dot; dot]) with 3. lia.
Qed.

Lemma printable_is_harmless_witness :
  printable [27; 91; 50; 74] 48 = [92; 120; 49; 66; 91; 50; 74] /\ Forall harmless (printable [27; 91; 50; 74] 48).
Proof.
  split; [vm_compute; reflexivity|].
  apply (printable_is_harmless [27; 91; 50; 74] 48); [apply bytes_ok_forallb; reflexivity | lia].
Defined.

End Printing.

Section Survey.
Import LogDump.

(** C37: what recovery keeps is what the tool calls valid: with the bytes of a segment whose
    first offset is [from], the valid bytes of the summary are those of the longest chain of
    batches, to which recovery cuts the file, unless behind that chain there is a batch that
    decodes and starts at another offset than the one that comes next.  Then they may be more. *)
Theorem dump_covers_recovery (bytes : list Z) (show_records quiet : bool) (from : Z) :
  bytes_ok bytes ->
  let sum := (survey bytes show_records quiet).1 in
  let '(bs, next) := valid_batches from bytes in
  zlen (cat bs) <= valid_bytes sum <= zlen bytes /\ trailing_bytes sum = zlen bytes - valid_bytes sum /\
  (valid_bytes sum = zlen (cat bs) \/ exists h, decode_header (zdrop (zlen (cat bs)) bytes) = Ok h /\ base_offset h <> next).
Proof.
  intros Hb. unfold survey, valid_batches. pose proof (zlen_nonneg bytes).
  pose proof (walk_spec bytes show_records quiet Hb (length bytes) 0 from None no_summary) as W. cbv zeta in W.
  change (zdrop 0 bytes) with bytes in W. destruct (walk _ _ _ _ _ _ _) as [sum lines].
  destruct (valid_loop _ from bytes) as [bs next]. cbn [fst] in *. destruct W as [W1 W2]; [done | done | lia |].
  split; [cbn; lia|]. split; [done|]. rewrite Z.add_0_l in W2. exact W2.
Qed.

Lemma dump_covers_recovery_witness :
  let sum := (survey sample_content false true).1 in
  let '(bs, next) := valid_batches 5 sample_content in
  zlen (cat bs) <= valid_bytes sum <= zlen sample_content /\ trailing_bytes sum = zlen sample_content - valid_bytes sum /\
  (valid_bytes sum = zlen (cat bs) \/ exists h, decode_header (zdrop (zlen (cat bs)) sample_content) = Ok h /\ base_offset h <> next).
Proof. apply (dump_covers_recovery sample_content false true 5). apply bytes_ok_forallb. vm_compute. reflexivity. Defined.

(** A batch is missing between two batches. *)
Definition gap_content : list Z := sample_batch 5 [[7; 8]; [9]] ++ sample_batch 20 [[1]].

(** the tool says that nothing would be thrown away, and recovery throws away a batch: it
    does not compare the offset of a batch with the one that comes next, as recovery does. *)
Theorem dump_misses_gap :
  let sum := (survey gap_content false true).1 in
  trailing_bytes sum = 0 /\ stop_reason sum = None /\ batches sum = 2 /\
  let r := Segment.open (lit "d") 5 sample_options (sample_disk gap_content) in
  match r.1 with
  | Ok s => Segment.truncated (Segment.recovery_ s) = true /\
      zlen (found_bytes r.2 (log_path (lit "d") 5)) < zlen gap_content
  | fail _ => False
  end.
Proof. vm_compute. done. Qed.

End Survey.

Section Tool.
Import LogDump.

(** the tool destroys no evidence: on any disk that keeps its contract, and however the
    calls fail, every file is afterwards what it was. *)
Theorem dump_is_read_only (D : Type) (DO : Disk.t D) (DV : Disk.view D) (DL : Disk.laws D) (d d' : D) (path : chars)
    (show_records quiet : bool) (code : Z) (out : list Line) :
  Disk.good d -> Disk.file_path path -> dump path show_records quiet d = (code, out, d') ->
  Disk.files d' = Disk.files d /\ forall p bs, Disk.settled d p bs -> Disk.settled d' p bs.
Proof.
  intros Hg Hp. unfold dump.
  destruct (Disk.open path kRead d) as [[file|e] d1] eqn:O; apply (Disk.open_law _ _ _ _ _ Hg Hp) in O;
    [|destruct O as (_ & F & _ & S); intros [= _ _ <-]; done].
  destruct O as (_ & G1 & Hh & S1 & [([b Hf] & F1)|(? & _)]); [|done].
  assert (Disk.opened d1 file path b) as Op by (split; [rewrite Hh, lookup_insert_eq; eauto | by rewrite F1]).
  destruct (Disk.size file d1) as [[n|e] d2] eqn:Sz; destruct (Disk.size_law _ _ _ _ _ _ G1 Op Sz) as [(G2 & F2 & H2 & S2) N];
    [|intros [= _ _ <-]; split; [congruence | auto]].
  rewrite (N n eq_refl) in *. assert (Disk.opened d2 file path b) as Op2 by (unfold Disk.opened; by rewrite H2, F2).
  destruct (Disk.pread file (zlen b) 0 d2) as [[bytes|e] d3] eqn:Rd;
    destruct (Disk.pread_law _ _ _ _ _ _ _ _ G2 Op2 (zlen_nonneg b) (conj (Z.le_refl 0) (eq_refl : 0 < 2 ^ 64)) Rd) as [(G3 & F3 & _ & S3) _];
    [|intros [= _ _ <-]; split; [congruence | auto]].
  destruct (survey bytes show_records quiet) as [sum lines]. intros [= _ _ <-].
  destruct (Disk.close_law d3 file G3) as (_ & F4 & _ & S4). split; [congruence | auto].
Qed.

Lemma dump_is_read_only_witness :
  let d := sample_disk sample_content in
  let r := dump (log_path (lit "d") 5) true false d in
  r.1.1 = 0 /\ Disk.files r.2 = Disk.files d.
Proof.
  intros d r. split; [vm_compute; reflexivity|].
  apply (dump_is_read_only (SimDisk.t Z) SimDisk.sim_disk SimDisk.sim_view SimDisk.sim_laws d r.2 (log_path (lit "d") 5) true false r.1.1 r.1.2).
  - apply sample_disk_good; [apply bytes_ok_forallb|]; vm_compute; reflexivity.
  - vm_compute. discriminate.
  - unfold r. by destruct (dump _ _ _ _) as [[??]?].
Defined.

End Tool.
