(* ===== verification/Log.v ===== *)
(** * The partition log

    Models [src/src/storage/log.h]/[log.cpp]: the ordered run of segments in one directory,
    with its recovery, the roll to a new segment, the two append paths, truncation, the scan
    for leader epochs and reads.

    [segments_] owns its segments: one that is popped, or whose log fails to open, runs its
    destructor. *)
From S2P Require Import Prelude Base RecordBatch SparseIndex Disk Segment.

(** One run of consecutive offsets written by a single leader. *)
Record EpochBoundary := mkBoundary { epoch : Z; boundary_start : Z }.

Module Log.

Record Options := mkOptions { segment_max_bytes : Z; index_interval_bytes : Z }.

Record RecoveryReport := mkReport {
  segments_opened : Z;
  segments_discarded : Z;
  batches_scanned : Z;
  bytes_truncated : Z;
  truncated : bool }.

Record t := mk {
  dir_ : chars;
  options_ : Options;
  segments_ : list Segment.t;
  start_offset_ : Z;
  next_offset_ : Z;
  recovery_ : RecoveryReport }.

#[global] Instance Log_eta : Settable t := fun l =>
  mk (dir_ l) (options_ l) (segments_ l) (start_offset_ l) (next_offset_ l) (recovery_ l).

Section Operations.
Context {D : Type} `{Disk.t D}.

(** [segments_.back()]; the vector is never empty once the log is open. *)
Definition no_segment : Segment.t :=
  Segment.mk 0 0 (Segment.mkOptions 0 0) kInvalidFile [] [] 0 [] (Segment.mkReport 0 0 0 0 false false).
Definition back (segs : list Segment.t) : Segment.t := default no_segment (last segs).
Definition front (segs : list Segment.t) : Segment.t := default no_segment (head segs).

(** [segments_.back() = s] in place. *)
Definition set_back (segs : list Segment.t) (s : Segment.t) : list Segment.t := removelast segs ++ [s].

Definition parsed (names : list chars) : list Z :=
  omap (fun name => match Segment.parse_log_name name with Ok v => Some v | fail _ => None end) names.

Definition existing_segment_offsets (l : t) (d : D) : Result (list Z) * D :=
  match Disk.list_directory (dir_ l) d with
  | (fail e, d) => (fail e, d)
  | (Ok names, d) => (Ok (merge_sort Z.le (parsed names)), d)
  end.

Definition add_segment (base : Z) (l : t) (d : D) : Status * t * D :=
  let seg_options := Segment.mkOptions (segment_max_bytes (options_ l)) (index_interval_bytes (options_ l)) in
  match Segment.open (dir_ l) base seg_options d with
  | (fail e, d) => (fail e, l, d)
  | (Ok seg, d) => (Ok tt, l <| segments_ := segments_ l ++ [seg] |>, d)
  end.

Definition remove_segment_files (dir : chars) (base : Z) (d : D) : D :=
  let '(_, d) := Disk.remove (join dir (Segment.log_name base)) d in
  let '(_, d) := Disk.remove (join dir (Segment.index_name base)) d in
  d.

(** The report, with one more segment in it. *)
Definition note_opened (r : Segment.RecoveryReport) (l : t) : t :=
  let rep := recovery_ l in
  l <| recovery_ := mkReport (u64 (segments_opened rep + 1)) (segments_discarded rep)
         (u64 (batches_scanned rep + Segment.batches_scanned r))
         (u64 (bytes_truncated rep + Segment.bytes_truncated r))
         (truncated rep || Segment.truncated r) |>.

(** The loop over the bases: what is left of them goes. *)
Fixpoint recover_loop (bases : list Z) (l : t) (d : D) : Result (list Z) * t * D :=
  match bases with
  | [] => (Ok [], l, d)
  | base :: bases' =>
      if match segments_ l with
         | [] => false
         | segs => negb (base =? Segment.next_offset_ (back segs))
         end
      then (Ok bases, l, d)
      else
        match add_segment base l d with
        | (fail e, l, d) => (fail e, l, d)
        | (Ok _, l, d) =>
            let r := Segment.recovery_ (back (segments_ l)) in
            let l := note_opened r l in
            if Segment.truncated r then (Ok bases', l, d)
            else recover_loop bases' l d
        end
  end.

Definition discard (base : Z) (ld : t * D) : t * D :=
  let '(l, d) := ld in
  let rep := recovery_ l in
  (l <| recovery_ := mkReport (segments_opened rep) (u64 (segments_discarded rep + 1)) (batches_scanned rep)
                       (bytes_truncated rep) (truncated rep) |>,
   remove_segment_files (dir_ l) base d).

Definition recover (l : t) (d : D) : Status * t * D :=
  match existing_segment_offsets l d with
  | (fail e, d) => (fail e, l, d)
  | (Ok bases, d) =>
      match recover_loop bases l d with
      | (fail e, l, d) => (fail e, l, d)
      | (Ok rest, l, d) =>
          let '(l, d) := foldl (fun ld base => discard base ld) (l, d) rest in
          let '(st, l, d) :=
            match segments_ l with
            | [] =>
                match add_segment 0 l d with
                | (fail e, l, d) => (fail e, l, d)
                | (Ok _, l, d) =>
                    let rep := recovery_ l in
                    (Ok tt, l <| recovery_ := mkReport (u64 (segments_opened rep + 1)) (segments_discarded rep)
                                   (batches_scanned rep) (bytes_truncated rep) (truncated rep) |>, d)
                end
            | _ => (Ok tt, l, d)
            end in
          match st with
          | fail e => (fail e, l, d)
          | Ok _ =>
              (Ok tt, l <| start_offset_ := Segment.base_offset_ (front (segments_ l)) |>
                        <| next_offset_ := Segment.next_offset_ (back (segments_ l)) |>, d)
          end
      end
  end.

(** Every segment's sidecar, even behind one that fails; the last failure is the result. *)
Definition flush_indexes (l : t) (d : D) : Status * D :=
  foldl (fun sd seg =>
      let '(result, d) := sd in
      match Segment.flush_index seg d with
      | (fail e, d) => (fail e, d)
      | (Ok _, d) => (result, d)
      end) (Ok tt, d) (segments_ l).

(** [~Log], and the segments behind it. *)
Definition destroy (l : t) (d : D) : D :=
  let '(_, d) := flush_indexes l d in
  foldl (fun d seg => Segment.destroy seg d) d (segments_ l).

Definition open (dir : chars) (options : Options) (d : D) : Result t * D :=
  match Disk.make_directories dir d with
  | (fail e, d) => (fail e, d)
  | (Ok _, d) =>
      match recover (mk dir options [] 0 0 (mkReport 0 0 0 0 false)) d with
      | (fail e, l, d) => (fail e, destroy l d)
      | (Ok _, l, d) => (Ok l, d)
      end
  end.

Definition roll (l : t) (d : D) : Status * t * D :=
  let active := back (segments_ l) in
  match Segment.fsync active d with
  | (fail e, d) => (fail e, l, d)
  | (Ok _, d) =>
      match Segment.flush_index active d with
      | (fail e, d) => (fail e, l, d)
      | (Ok _, d) => add_segment (next_offset_ l) l d
      end
  end.

(** The roll in front of a batch of [bytes] bytes, as both append paths have it. *)
Definition make_room (bytes : Z) (l : t) (d : D) : Status * t * D :=
  let active := back (segments_ l) in
  if negb (Segment.empty active) && (u32 (segment_max_bytes (options_ l) - Segment.size_bytes_ active) <? bytes)
  then roll l d
  else (Ok tt, l, d).

(** [active->append(...)] and the offset behind it, as both append paths have it. *)
Definition store (framed : list Z) (header : BatchHeader) (l : t) (d : D) : Status * t * D :=
  match Segment.append framed header (back (segments_ l)) d with
  | (fail e, active, d) => (fail e, l <| segments_ := set_back (segments_ l) active |>, d)
  | (Ok _, active, d) =>
      (Ok tt, l <| segments_ := set_back (segments_ l) active |> <| next_offset_ := next_offset header |>, d)
  end.

Definition append (builder : BatchBuilder.t) (meta : BatchMeta) (l : t) (d : D)
  : Result Z * BatchBuilder.t * t * D :=
  if BatchBuilder.empty builder then (fail kInvalidRequest, builder, l, d)
  else if segment_max_bytes (options_ l) <? BatchBuilder.framed_bytes builder
  then (fail kMessageTooLarge, builder, l, d)
  else
    match make_room (BatchBuilder.framed_bytes builder) l d with
    | (fail e, l, d) => (fail e, builder, l, d)
    | (Ok _, l, d) =>
        let base := next_offset_ l in
        let '(framed, builder) := BatchBuilder.finish builder base meta in
        match decode_header framed with
        | fail e => (fail e, builder, l, d)
        | Ok header =>
            match store framed header l d with
            | (fail e, l, d) => (fail e, builder, l, d)
            | (Ok _, l, d) => (Ok base, builder, l, d)
            end
        end
    end.

Definition append_replicated (framed : list Z) (l : t) (d : D) : Status * t * D :=
  match decode_header framed with
  | fail e => (fail e, l, d)
  | Ok header =>
      if negb (zlen framed =? total_bytes header) then (fail kInvalidRequest, l, d)
      else if negb (base_offset header =? next_offset_ l) then (fail kInvalidArgument, l, d)
      else if negb (ok (validate_batch framed)) then (fail kCorruptRecord, l, d)
      else if segment_max_bytes (options_ l) <? zlen framed then (fail kMessageTooLarge, l, d)
      else
        match make_room (zlen framed) l d with
        | (fail e, l, d) => (fail e, l, d)
        | (Ok _, l, d) => store framed header l d
        end
  end.

(** The segments that begin at or behind the cut, newest first; the first one stays. *)
Fixpoint drop_segments (fuel : nat) (offset : Z) (l : t) (d : D) : t * D :=
  match fuel with
  | O => (l, d)
  | S fuel' =>
      if (1 <? zlen (segments_ l)) && (offset <=? Segment.base_offset_ (back (segments_ l))) then
        let base := Segment.base_offset_ (back (segments_ l)) in
        let d := Segment.destroy (back (segments_ l)) d in
        drop_segments fuel' offset (l <| segments_ := removelast (segments_ l) |>)
          (remove_segment_files (dir_ l) base d)
      else (l, d)
  end.

Definition truncate_to (offset : Z) (l : t) (d : D) : Status * t * D :=
  if next_offset_ l <? offset then (fail kInvalidArgument, l, d)
  else if offset <? start_offset_ l then (fail kInvalidArgument, l, d)
  else if offset =? next_offset_ l then (Ok tt, l, d)
  else
    let '(l, d) := drop_segments (length (segments_ l)) offset l d in
    match Segment.truncate_to offset (back (segments_ l)) d with
    | (fail e, active, d) => (fail e, l <| segments_ := set_back (segments_ l) active |>, d)
    | (Ok _, active, d) =>
        (Ok tt, l <| segments_ := set_back (segments_ l) active |>
                  <| next_offset_ := Segment.next_offset_ active |>, d)
    end.

(** The visitor of [scan_epochs]. *)
Definition note_epoch (epochs : list EpochBoundary) (header : BatchHeader) : bool * list EpochBoundary :=
  (true,
   if match last epochs with None => true | Some b => negb (epoch b =? leader_epoch header) end
   then epochs ++ [mkBoundary (leader_epoch header) (base_offset header)] else epochs).

Fixpoint scan_segments (segs : list Segment.t) (epochs : list EpochBoundary) (d : D)
  : Result (list EpochBoundary) * D :=
  match segs with
  | [] => (Ok epochs, d)
  | seg :: segs' =>
      match Segment.scan_headers note_epoch seg epochs d with
      | (fail e, d) => (fail e, d)
      | (Ok epochs, d) => scan_segments segs' epochs d
      end
  end.

Definition scan_epochs (l : t) (d : D) : Result (list EpochBoundary) * D := scan_segments (segments_ l) [] d.

Definition fsync (l : t) (d : D) : Status * D := Segment.fsync (back (segments_ l)) d.

(** The loop of [read]: the first segment that has anything. *)
Fixpoint read_from (segs : list Segment.t) (offset out_size : Z) (d : D) : Result (list Z) * D :=
  match segs with
  | [] => (Ok [], d)
  | seg :: segs' =>
      match Segment.read seg offset out_size d with
      | (fail e, d) => (fail e, d)
      | (Ok got, d) => if 0 <? zlen got then (Ok got, d) else read_from segs' offset out_size d
      end
  end.

Definition read (l : t) (offset out_size : Z) (d : D) : Result (list Z) * D :=
  if next_offset_ l <=? offset then (Ok [], d)
  else if offset <? start_offset_ l then (fail kOffsetOutOfRange, d)
  else
    let i := partition_point (fun s => negb (offset <? Segment.base_offset_ s)) (segments_ l) in
    read_from (drop (pred i) (segments_ l)) offset out_size d.

End Operations.
End Log.
