(* ===== verification/LogFacts.v ===== *)
(** * Facts about the partition log

    The invariant of an open log, over any disk that keeps the contract of [Disk]: its
    segments hold one chain of batches between them, only the last may be empty, and each
    sits in the file its first offset names.  Every operation of [Log] is specified against
    the list of batches the log holds. *)
From S2P Require Import Prelude Base RecordBatch SparseIndex Disk Segment Chain SegmentFacts SegmentProps Log.

Section Facts.
#[local] Set Default Proof Using "Type*".
Context {D : Type} `{DL : Disk.laws D}.

(** ** Frames *)

(** Nothing happened to the files that satisfy [P], nor to the handles open on them. *)
Record kept (P : chars -> Prop) (d d' : D) : Prop := {
  kp_good : Disk.good d';
  kp_files : forall p, P p -> Disk.files d' !! p = Disk.files d !! p;
  kp_handles : forall f p m, P p -> Disk.handles d !! f = Some (p, m) -> Disk.handles d' !! f = Some (p, m);
  kp_settled : forall p b, P p -> Disk.settled d p b -> Disk.settled d' p b }.

Lemma kept_refl P (d : D) : Disk.good d -> kept P d d.
Proof. by split. Qed.

Lemma kept_trans (P Q R : chars -> Prop) (d1 d2 d3 : D) :
  (forall p, R p -> P p /\ Q p) -> kept P d1 d2 -> kept Q d2 d3 -> kept R d1 d3.
Proof.
  intros HR [A1 A2 A3 A4] [B1 B2 B3 B4]. split; [done | | |]; intros *; intros [HP HQ]%HR; auto.
  by rewrite B2, A2.
Qed.

Lemma kept_weaken (P Q : chars -> Prop) (d d' : D) : (forall p, Q p -> P p) -> kept P d d' -> kept Q d d'.
Proof. intros HQ [A1 A2 A3 A4]. split; [done | | |]; intros *; intros HP%HQ; auto. Qed.

Lemma same_kept P (d d' : D) : Disk.same d d' -> kept P d d'.
Proof. intros (G & F & Hd & S). split; auto; intros; by rewrite ?F, ?Hd. Qed.

Lemma only_kept p (d d' : D) : Disk.only p d d' -> kept (fun q => q <> p) d d'.
Proof. intros (G & Hd & F & S). split; auto. intros. by rewrite Hd. Qed.

Lemma without_kept p (d d' : D) : Disk.without p d d' -> kept (fun q => q <> p) d d'.
Proof. intros (G & Hd & F & S). split; auto. Qed.

Lemma kept_found P p (d d' : D) : kept P d d' -> P p -> found_bytes d' p = found_bytes d p.
Proof. intros [_ F _ _] Hp. unfold found_bytes. by rewrite F. Qed.

(** ** Segments of a directory *)

Record seg_at (d : D) (dir : chars) (o : Segment.Options) (s : Segment.t) (bs : list (list Z)) (from next : Z)
    : Prop := {
  sa_inv : seg_inv d s bs;
  sa_base : Segment.base_offset_ s = from;
  sa_next : Segment.next_offset_ s = next;
  sa_log : Segment.log_path_ s = log_path dir from;
  sa_index : Segment.index_path_ s = index_path dir from;
  sa_options : Segment.options_ s = o }.

Lemma seg_at_bounds (d : D) dir o s bs from next :
  seg_at d dir o s bs from next ->
  0 <= from /\ from + 2 ^ 32 <= 2 ^ 64 /\ from <= next < from + 2 ^ 32 /\ (bs <> [] -> from < next) /\
  chain from bs next /\ bytes_ok (cat bs).
Proof.
  intros [[W _ _ _ _] <- <- _ _ _]. pose proof (walking_bytes _ _ _ _ W) as Hb.
  destruct W as [_ _ C _ Sm Bs]. destruct (chain_bounds _ _ _ C Hb) as [B1 B2]; [lia | lia|].
  split_and!; auto; lia.
Qed.

Lemma seg_at_kept P (d d' : D) dir o s bs from next :
  P (log_path dir from) -> kept P d d' -> seg_at d dir o s bs from next -> seg_at d' dir o s bs from next.
Proof.
  intros HP [K1 K2 K3 K4] [I B X L Ix O]. split; auto.
  destruct I as [[W1 W2 W3 W4 W5 W6] (rest & [[m Hm] Hf]) M Ixo Pa].
  assert (Disk.opened d' (Segment.log_file_ s) (Segment.log_path_ s) (cat bs ++ rest)) as Ho.
  { rewrite L in *. split; [exists m; by apply K3 | by rewrite K2]. }
  split; eauto. split; eauto.
Qed.

(** The segments in front of the last one. *)
Fixpoint closed (d : D) (dir : chars) (o : Segment.Options) (segs : list Segment.t) (bss : list (list (list Z)))
    (from next : Z) : Prop :=
  match segs, bss with
  | [], [] => from = next
  | s :: segs', bs :: bss' => exists mid, seg_at d dir o s bs from mid /\ bs <> [] /\ closed d dir o segs' bss' mid next
  | _, _ => False
  end.

Lemma closed_app (d : D) dir o s1 s2 bss from next :
  closed d dir o (s1 ++ s2) bss from next <->
  exists b1 b2 mid, bss = b1 ++ b2 /\ closed d dir o s1 b1 from mid /\ closed d dir o s2 b2 mid next.
Proof.
  revert bss from. induction s1 as [|s s1 IH]; intros bss from; simpl.
  - split; [intros C; by exists [], bss, from|]. intros ([|b b1] & b2 & mid & -> & C1 & C2); [|done].
    simpl in C1. by subst.
  - destruct bss as [|bs bss].
    { split; [done|]. intros ([|b b1] & b2 & mid & E & C1 & _); done. }
    split.
    + intros (mid & S & N & C). apply IH in C as (b1 & b2 & mid' & -> & C1 & C2).
      exists (bs :: b1), b2, mid'. simpl. eauto 8.
    + intros ([|b b1] & b2 & mid & E & C1 & C2); [done|]. injection E as -> ->.
      destruct C1 as (mid' & S & N & C1). exists mid'. split_and!; auto. apply IH. eauto 8.
Qed.

Lemma closed_snoc (d : D) dir o segs s bss bs from mid next :
  closed d dir o segs bss from mid -> seg_at d dir o s bs mid next -> bs <> [] ->
  closed d dir o (segs ++ [s]) (bss ++ [bs]) from next.
Proof. intros C S N. apply closed_app. exists bss, [bs], mid. simpl. eauto 8. Qed.

Lemma closed_le (d : D) dir o segs : forall bss from next,
  closed d dir o segs bss from next -> from <= next /\ (segs <> [] -> 0 <= from < next).
Proof.
  induction segs as [|s segs IH]; intros [|bs bss] from next C; simpl in C; try done; [subst; split; [lia | done]|].
  destruct C as (mid & S & N & C). apply seg_at_bounds in S as (? & ? & ? & Lt & _). specialize (Lt N).
  apply IH in C as [? _]. split; [lia | intros _; lia].
Qed.

Lemma closed_kept P (d d' : D) dir o segs : forall bss from next,
  (forall v, from <= v < next -> P (log_path dir v)) -> kept P d d' ->
  closed d dir o segs bss from next -> closed d' dir o segs bss from next.
Proof.
  induction segs as [|s segs IH]; intros [|bs bss] from next HP K C; simpl in *; try done.
  destruct C as (mid & S & N & C). pose proof (closed_le _ _ _ _ _ _ _ C) as [? _].
  pose proof (seg_at_bounds _ _ _ _ _ _ _ S) as (? & ? & ? & Lt & _). specialize (Lt N).
  exists mid. split_and!; [eapply seg_at_kept; [|done|done]; apply HP; lia | done |].
  apply IH; [|done|done]. intros v Hv. apply HP. lia.
Qed.

Lemma closed_chain (d : D) dir o segs : forall bss from next,
  closed d dir o segs bss from next -> chain from (concat bss) next.
Proof.
  induction segs as [|s segs IH]; intros [|bs bss] from next C; simpl in *; try done.
  destruct C as (mid & S & N & C). apply chain_app. exists mid. split; [|by apply IH].
  by apply seg_at_bounds in S as (_ & _ & _ & _ & ? & _).
Qed.

(** ** The invariant *)

Definition seg_options (l : Log.t) : Segment.Options :=
  Segment.mkOptions (Log.segment_max_bytes (Log.options_ l)) (Log.index_interval_bytes (Log.options_ l)).

(** The closed segments hold [bss], the active one, which begins at [base], holds [bs]. *)
Record log_inv (d : D) (l : Log.t) (bss : list (list (list Z))) (bs : list (list Z)) (base : Z) : Prop := {
  li_good : Disk.good d;
  li_segs : exists segs active, Log.segments_ l = segs ++ [active] /\
    closed d (Log.dir_ l) (seg_options l) segs bss (Log.start_offset_ l) base /\
    seg_at d (Log.dir_ l) (seg_options l) active bs base (Log.next_offset_ l);
  li_max : Log.segment_max_bytes (Log.options_ l) < 2 ^ 32 }.

Definition bases (l : Log.t) : list Z := Segment.base_offset_ <$> Log.segments_ l.

(** A segment file that is not the log's holds nothing. *)
Definition clear (d : D) (l : Log.t) : Prop :=
  forall v, 0 <= v < 2 ^ 64 -> v ∉ bases l -> found_bytes d (log_path (Log.dir_ l) v) = [].

(** The open segments of the log hold the batches [all]. *)
Definition carries (d : D) (l : Log.t) (all : list (list Z)) : Prop :=
  exists bss bs base, all = concat bss ++ bs /\ log_inv d l bss bs base.

(** The log holds the batches [all], and there is nothing in its way. *)
Definition holds (d : D) (l : Log.t) (all : list (list Z)) : Prop :=
  exists bss bs base, all = concat bss ++ bs /\ log_inv d l bss bs base /\ clear d l.

Lemma holds_chain (d : D) l all :
  holds d l all -> chain (Log.start_offset_ l) all (Log.next_offset_ l).
Proof.
  intros (bss & bs & base & -> & [_ (segs & active & _ & C & S) _] & _). apply chain_app. exists base.
  split; [by eapply closed_chain|]. by apply seg_at_bounds in S as (_ & _ & _ & _ & ? & _).
Qed.

Lemma back_snoc segs s : Log.back (segs ++ [s]) = s.
Proof. unfold Log.back. by rewrite last_snoc. Qed.

Lemma set_back_snoc segs s s' : Log.set_back (segs ++ [s]) s' = segs ++ [s'].
Proof. unfold Log.set_back. by rewrite removelast_last. Qed.

(** Only the active segment's file changed. *)
Lemma closed_only (d d' : D) dir o segs bss from base :
  closed d dir o segs bss from base -> base < 2 ^ 64 ->
  kept (fun p => p <> log_path dir base) d d' -> closed d' dir o segs bss from base.
Proof.
  intros C Hb K. eapply closed_kept; [|done|done]. intros v Hv E.
  destruct segs as [|s segs]; [destruct bss; simpl in C; [lia | done]|].
  apply closed_le in C as [_ C]. specialize (C ltac:(done)). apply log_path_inj in E; lia.
Qed.

Lemma clear_only (d d' : D) l l' base :
  clear d l -> Log.dir_ l' = Log.dir_ l -> bases l' = bases l -> base ∈ bases l -> 0 <= base < 2 ^ 64 ->
  kept (fun p => p <> log_path (Log.dir_ l) base) d d' -> clear d' l'.
Proof.
  intros A Ed Eb Hin Hb K v Hv Hn. rewrite Ed, (kept_found _ _ _ _ K); [apply A; congruence|]. intros E.
  apply log_path_inj in E; [|lia|lia]. subst. congruence.
Qed.

Lemma bases_lt (d : D) dir o segs : forall bss from base v,
  closed d dir o segs bss from base -> v ∈ Segment.base_offset_ <$> segs -> from <= v < base.
Proof.
  induction segs as [|s segs IH]; intros [|bs bss] from base v C Hv; simpl in *; try done.
  { by apply elem_of_nil in Hv. }
  destruct C as (mid & S & N & C). pose proof (closed_le _ _ _ _ _ _ _ C) as [? _].
  pose proof (sa_base _ _ _ _ _ _ _ S). apply seg_at_bounds in S as (? & ? & ? & Lt & _). specialize (Lt N).
  apply elem_of_cons in Hv as [-> | Hv]; [lia|]. specialize (IH _ _ _ _ C Hv). lia.
Qed.

(** The offset a roll names its new segment after is nobody's base. *)
Lemma next_fresh (d : D) l bss bs base :
  log_inv d l bss bs base -> bs <> [] -> Log.next_offset_ l ∉ bases l.
Proof.
  intros [_ (segs & active & E & C & S) _] N Hin. unfold bases in Hin. rewrite E, fmap_app in Hin.
  pose proof (sa_base _ _ _ _ _ _ _ S) as Eb. apply seg_at_bounds in S as (? & ? & ? & Lt & _). specialize (Lt N).
  apply elem_of_app in Hin as [Hin | Hin]; [eapply bases_lt in Hin; [|done]; lia|].
  simpl in Hin. apply list_elem_of_singleton in Hin. lia.
Qed.

Lemma log_inv_kept (d d' : D) l bss bs base :
  log_inv d l bss bs base -> kept (fun p => exists v, 0 <= v < 2 ^ 64 /\ p = log_path (Log.dir_ l) v) d d' ->
  log_inv d' l bss bs base.
Proof.
  intros [G (segs & active & E & C & S) M] K. split; [apply K | | done].
  pose proof (seg_at_bounds _ _ _ _ _ _ _ S) as (? & ? & ? & _).
  exists segs, active. split_and!; [done | | eapply seg_at_kept; [|done|done]; exists base; split; [lia | done]].
  eapply closed_kept; [|done|done]. intros v Hv. exists v. split; [|done].
  destruct segs as [|s segs]; [destruct bss; simpl in C; [lia | done]|].
  apply closed_le in C as [_ C]. specialize (C ltac:(done)). lia.
Qed.

(** ** A new segment *)

(** Whatever its sidecar says, an empty file has no entries to trust. *)
Lemma honest_empty (d : D) dir v : Disk.good d -> found_bytes d (log_path dir v) = [] -> honest_at d dir v.
Proof.
  intros G E ib Hi. apply Disk.file_bytes in Hi as [Hi _]; [|done]. rewrite E. unfold SparseIndex.decode.
  destruct (Z.to_nat _) as [|n]; simpl; [constructor|].
  rewrite (proj2 (Z.leb_le _ _)); [constructor|]. by apply load_u32_range.
Qed.

Lemma seg_open_kept (d d' : D) dir v o r :
  Disk.good d -> Segment.max_bytes o < 2 ^ 32 -> 0 <= v /\ v + 2 ^ 32 <= 2 ^ 64 -> honest_at d dir v ->
  Segment.open dir v o d = (r, d') ->
  kept (fun p => p <> log_path dir v) d d' /\
  match r with
  | Ok s => seg_at d' dir o s (valid_batches v (found_bytes d (log_path dir v))).1 v
              (valid_batches v (found_bytes d (log_path dir v))).2 /\
      Segment.truncated (Segment.recovery_ s) =
        negb (zlen (cat (valid_batches v (found_bytes d (log_path dir v))).1) =? zlen (found_bytes d (log_path dir v))) /\
      Disk.files d' !! log_path dir v = Some (cat (valid_batches v (found_bytes d (log_path dir v))).1) /\
      (forall b, Disk.settled d (log_path dir v) b ->
         zlen b <= zlen (cat (valid_batches v (found_bytes d (log_path dir v))).1) -> Disk.settled d' (log_path dir v) b)
  | fail _ => found_bytes d' (log_path dir v) = found_bytes d (log_path dir v)
  end.
Proof.
  intros G M V Ho E. pose proof (open_spec _ _ _ _ _ _ G M V Ho E) as Sp.
  destruct (valid_batches _ _) as [bs next]. destruct r as [s|e].
  - destruct Sp as [I X B O L Ix Fr Hd F Ot St T]. split.
    + split; [apply (si_walk _ _ _ I) | auto | | auto].
      intros f p m Hp Hf. rewrite Hd, lookup_insert_ne; [done|]. congruence.
    + split; [by split|]. split_and!; auto.
  - destruct Sp as (G' & F & S & B & Hs). split; [|done]. split; auto.
    intros f p m _ Hf. by eapply lookup_weaken.
Qed.

Lemma add_segment_spec (d : D) l v r l' d' :
  Disk.good d -> Log.segment_max_bytes (Log.options_ l) < 2 ^ 32 -> 0 <= v /\ v + 2 ^ 32 <= 2 ^ 64 ->
  honest_at d (Log.dir_ l) v -> Log.add_segment v l d = (r, l', d') ->
  kept (fun p => p <> log_path (Log.dir_ l) v) d d' /\
  let '(bs, next) := valid_batches v (found_bytes d (log_path (Log.dir_ l) v)) in
  match r with
  | Ok _ => exists s, l' = l <| Log.segments_ := Log.segments_ l ++ [s] |> /\
      seg_at d' (Log.dir_ l) (seg_options l) s bs v next /\
      Segment.truncated (Segment.recovery_ s) =
        negb (zlen (cat bs) =? zlen (found_bytes d (log_path (Log.dir_ l) v))) /\
      Disk.files d' !! log_path (Log.dir_ l) v = Some (cat bs) /\
      (forall b, Disk.settled d (log_path (Log.dir_ l) v) b -> zlen b <= zlen (cat bs) ->
         Disk.settled d' (log_path (Log.dir_ l) v) b)
  | fail _ => l' = l /\ found_bytes d' (log_path (Log.dir_ l) v) = found_bytes d (log_path (Log.dir_ l) v)
  end.
Proof.
  intros G M V Ho. unfold Log.add_segment. fold (seg_options l).
  destruct (Segment.open _ _ _ d) as [o d1] eqn:O.
  apply seg_open_kept in O as [K R]; [|done|done|done|done].
  destruct (valid_batches _ _) as [bs next]. simpl in R.
  destruct o as [s|e]; intros [= <- <- <-]; (split; [done|]); [|done]. exists s. split; [done|]. exact R.
Qed.

(** ** Appending *)

(** Files that are not the log's. *)
Definition log_file_of (dir p : chars) : Prop := exists v, 0 <= v < 2 ^ 64 /\ p = log_path dir v.

Lemma log_files_kept (d d' : D) l bss bs base :
  log_inv d l bss bs base -> clear d l -> kept (log_file_of (Log.dir_ l)) d d' ->
  log_inv d' l bss bs base /\ clear d' l.
Proof.
  intros I A K. split; [by eapply log_inv_kept|]. intros v Hv Hn.
  rewrite (kept_found _ _ _ _ K); [by apply A|]. by exists v.
Qed.

(** The fsync and the sidecar in front of a roll. *)
Lemma seal_spec (d : D) l bss bs base st d1 r d2 :
  log_inv d l bss bs base ->
  Segment.fsync (Log.back (Log.segments_ l)) d = (st, d1) ->
  (st = Ok tt -> Segment.flush_index (Log.back (Log.segments_ l)) d1 = (r, d2)) ->
  Disk.same d d1 /\
  (st = Ok tt -> kept (fun p => p <> index_path (Log.dir_ l) base) d d2 /\
     Disk.settled d2 (log_path (Log.dir_ l) base) (cat bs)).
Proof.
  intros [G (segs & active & E & C & S) M] F1 F2. rewrite E, back_snoc in *.
  pose proof (fsync_same _ _ _ _ _ (sa_inv _ _ _ _ _ _ _ S) F1) as Sy.
  split; [done|]. intros ->. specialize (F2 eq_refl).
  apply (fsync_spec _ _ _ _ (sa_inv _ _ _ _ _ _ _ S)) in F1 as [I1 St].
  apply (flush_index_spec _ _ _ _ _ I1) in F2 as (On & _). rewrite (sa_index _ _ _ _ _ _ _ S) in On.
  rewrite (sa_log _ _ _ _ _ _ _ S) in St. split.
  - eapply kept_trans; [|exact (same_kept (fun _ => True) _ _ Sy)|exact (only_kept _ _ _ On)]. done.
  - apply On; [apply log_index_path | done].
Qed.

(** A new segment behind an active one that is not empty. *)
Lemma extend_spec (d : D) l bss bs base r l' d' :
  log_inv d l bss bs base -> clear d l -> bs <> [] -> Log.next_offset_ l + 2 ^ 32 <= 2 ^ 64 ->
  Log.add_segment (Log.next_offset_ l) l d = (r, l', d') ->
  kept (fun p => p <> log_path (Log.dir_ l) (Log.next_offset_ l)) d d' /\
  match r with
  | Ok _ => (exists s, l' = l <| Log.segments_ := Log.segments_ l ++ [s] |>) /\
      log_inv d' l' (bss ++ [bs]) [] (Log.next_offset_ l) /\ clear d' l' /\
      Disk.files d' !! log_path (Log.dir_ l) (Log.next_offset_ l) = Some []
  | fail _ => l' = l /\ log_inv d' l bss bs base /\ clear d' l
  end.
Proof.
  intros I A N Hn Ad. pose proof (next_fresh _ _ _ _ _ I N) as Fr. destruct I as [G (segs & active & E & C & S) M].
  pose proof (seg_at_bounds _ _ _ _ _ _ _ S) as (B1 & B2 & B3 & B4 & _). specialize (B4 N).
  assert (found_bytes d (log_path (Log.dir_ l) (Log.next_offset_ l)) = []) as Em by (apply A; [lia | done]).
  apply add_segment_spec in Ad as [K R]; [|done|done|lia|by apply honest_empty].
  rewrite Em in R. change (valid_batches (Log.next_offset_ l) []) with (@nil (list Z), Log.next_offset_ l) in R.
  assert (closed d' (Log.dir_ l) (seg_options l) segs bss (Log.start_offset_ l) base /\
    seg_at d' (Log.dir_ l) (seg_options l) active bs base (Log.next_offset_ l)) as [C' S'].
  { split; [|eapply seg_at_kept; [|exact K|done]; intros Ep; apply log_path_inj in Ep; lia].
    eapply closed_kept; [|exact K|done]. intros v Hv Ep.
    destruct segs as [|s0 segs]; [destruct bss; simpl in C; [lia | done]|].
    apply closed_le in C as [_ C]. specialize (C ltac:(done)). apply log_path_inj in Ep; lia. }
  split; [done|]. destruct r as [u3|e].
  - destruct R as (s & -> & Sa & _ & Fi & _). split_and!; [by exists s | |intros v Hv Hv'|done].
    + split; [apply K | | done]. exists (segs ++ [active]), s. simpl. rewrite E.
      split_and!; [done | by eapply closed_snoc | done].
    + cbn [Log.dir_ set]. unfold bases in Hv'. simpl in Hv'. rewrite fmap_app, not_elem_of_app in Hv'.
      destruct Hv' as [V1 V2]. rewrite (kept_found _ _ _ _ K); [by apply A|].
      intros Ep. apply log_path_inj in Ep; [|lia|lia]. apply V2. simpl.
      rewrite (sa_base _ _ _ _ _ _ _ Sa). by apply list_elem_of_singleton.
  - destruct R as [-> Fo]. split_and!; [done | split; [apply K | eauto | done] |].
    intros v Hv Hv'. destruct (decide (v = Log.next_offset_ l)) as [->|Hne]; [by rewrite Fo|].
    rewrite (kept_found _ _ _ _ K); [by apply A|]. intros Ep. apply log_path_inj in Ep; lia.
Qed.

Lemma roll_spec (d : D) l bss bs base r l' d' :
  log_inv d l bss bs base -> clear d l -> bs <> [] -> Log.next_offset_ l + 2 ^ 32 <= 2 ^ 64 ->
  Log.roll l d = (r, l', d') ->
  kept (fun p => p <> log_path (Log.dir_ l) (Log.next_offset_ l) /\ p <> index_path (Log.dir_ l) base) d d' /\
  match r with
  | Ok _ => (exists s, l' = l <| Log.segments_ := Log.segments_ l ++ [s] |>) /\
      log_inv d' l' (bss ++ [bs]) [] (Log.next_offset_ l) /\ clear d' l' /\
      Disk.files d' !! log_path (Log.dir_ l) (Log.next_offset_ l) = Some [] /\
      Disk.settled d' (log_path (Log.dir_ l) base) (cat bs)
  | fail _ => l' = l /\ log_inv d' l bss bs base /\ clear d' l
  end.
Proof.
  intros I A N Hn. unfold Log.roll.
  destruct (Segment.fsync _ d) as [st d1] eqn:F1. destruct (Segment.flush_index _ d1) as [r2 d2] eqn:F2.
  destruct (seal_spec _ _ _ _ _ _ _ _ _ I F1 (fun _ => F2)) as [Sy K].
  destruct st as [[]|e].
  2:{ intros [= <- <- <-]. split; [by apply same_kept|]. split; [done|]. eapply log_files_kept; [done|done|].
      by apply same_kept. }
  destruct (K eq_refl) as [K2 St].
  destruct (log_files_kept _ d2 _ _ _ _ I A) as [I2 A2].
  { eapply kept_weaken; [|exact K2]. intros p (v & _ & ->). apply log_index_path. }
  destruct r2 as [[]|e]; [|intros [= <- <- <-]; split; [eapply kept_weaken; [|exact K2]; by intros p []|done]].
  intros Ad. destruct (extend_spec _ _ _ _ _ _ _ _ I2 A2 N Hn Ad) as [K3 R].
  split; [eapply kept_trans; [|exact K2|exact K3]; tauto|].
  destruct r as [u|e]; [|done]. destruct R as (Es & I3 & A3 & F3). split_and!; auto.
  apply K3; [|done]. intros Ep.
  destruct I as [_ (segs & active & _ & _ & S) _]. apply seg_at_bounds in S as (? & ? & ? & Lt & _).
  specialize (Lt N). apply log_path_inj in Ep; lia.
Qed.

(** What the settings of a log are: nothing changes them once it is open. *)
Definition same_settings (l l' : Log.t) : Prop :=
  Log.dir_ l' = Log.dir_ l /\ Log.options_ l' = Log.options_ l /\ Log.start_offset_ l' = Log.start_offset_ l.

Lemma make_room_spec (d : D) l bss bs base bytes r l' d' :
  log_inv d l bss bs base -> clear d l -> Log.next_offset_ l + 2 ^ 32 <= 2 ^ 64 ->
  Log.make_room bytes l d = (r, l', d') ->
  (l' = l /\ d' = d /\ r = Ok tt \/ Log.roll l d = (r, l', d') /\ bs <> []).
Proof.
  intros [G (segs & active & E & C & S) M] A Hn. unfold Log.make_room. rewrite E, back_snoc.
  destruct (_ && _) eqn:B; [|intros [= <- <- <-]; by left].
  intros R. right. split; [done|]. intros ->. apply andb_prop in B as [B _]. unfold Segment.empty in B.
  apply negb_true_iff, Z.eqb_neq in B. apply B. destruct (sa_inv _ _ _ _ _ _ _ S) as [[_ _ _ W _ _] _ _ _ _]. done.
Qed.

Lemma room_holds (d : D) l all bytes r l' d' :
  holds d l all -> Log.next_offset_ l + 2 ^ 32 <= 2 ^ 64 -> Log.make_room bytes l d = (r, l', d') ->
  holds d' l' all /\ same_settings l l' /\ Log.next_offset_ l' = Log.next_offset_ l.
Proof.
  intros (bss & bs & base & -> & I & A) Hn R.
  apply (make_room_spec _ _ _ _ _ _ _ _ _ I A Hn) in R as [(-> & -> & _) | [R N]].
  { split; [|done]. by exists bss, bs, base. }
  apply (roll_spec _ _ _ _ _ _ _ _ I A N Hn) in R as [_ R]. destruct r as [u|e].
  - destruct R as ((s & ->) & I' & A' & _). split; [|done]. exists (bss ++ [bs]), [], (Log.next_offset_ l).
    split; [|done]. rewrite concat_app. simpl. by rewrite !app_nil_r.
  - destruct R as (-> & I' & A'). split; [|done]. by exists bss, bs, base.
Qed.

Lemma store_spec (d : D) l bss bs base framed h r l' d' :
  log_inv d l bss bs base -> clear d l -> bytes_ok framed -> is_batch framed h ->
  Log.store framed h l d = (r, l', d') ->
  kept (fun p => p <> log_path (Log.dir_ l) base) d d' /\
  (forall b, Disk.settled d (log_path (Log.dir_ l) base) b -> zlen b <= zlen (cat bs) ->
     Disk.settled d' (log_path (Log.dir_ l) base) b) /\
  same_settings l l' /\ clear d' l' /\
  match r with
  | Ok _ => base_offset h = Log.next_offset_ l /\ Log.next_offset_ l' = next_offset h /\
      log_inv d' l' bss (bs ++ [framed]) base
  | fail _ => l' = l /\ log_inv d' l bss bs base
  end.
Proof.
  intros [G (segs & active & E & C & S) M] A Hb B. unfold Log.store. rewrite E, back_snoc.
  pose proof (seg_at_bounds _ _ _ _ _ _ _ S) as (B1 & B2 & B3 & _).
  destruct S as [I Eb En El Ei Eo].
  destruct (Segment.append framed h active d) as [[st active'] d1] eqn:Ap.
  apply (append_spec _ _ _ _ _ _ _ _ I Hb B) in Ap as (On & St & R). rewrite El in On, St.
  pose proof (only_kept _ _ _ On) as K.
  pose proof (closed_only _ _ _ _ _ _ _ _ C ltac:(lia) K) as C'.
  assert (base ∈ bases l) as Hin.
  { unfold bases. rewrite E, fmap_app. apply elem_of_app. right. apply list_elem_of_singleton. done. }
  assert (forall l', Log.dir_ l' = Log.dir_ l -> bases l' = bases l -> clear d1 l') as A'.
  { intros l1 E1 E2. eapply clear_only; eauto. lia. }
  destruct st as [u|e].
  - destruct R as (Hx & I' & R1 & R2 & R3 & R4 & R5 & R6). intros [= <- <- <-].
    split_and!; try done; [apply A'; [done|] | congruence | split; [apply K | | done]].
    { unfold bases. rewrite E, set_back_snoc. simpl. rewrite !fmap_app. simpl. by rewrite R2. }
    exists segs, active'. rewrite set_back_snoc. simpl. split_and!; [done | done |].
    split; [done | congruence | done | congruence | congruence | exact (eq_trans R6 Eo)].
  - destruct R as [-> I']. rewrite set_back_snoc.
    replace (l <| Log.segments_ := segs ++ [active] |>) with l by (destruct l; simpl in *; by rewrite E).
    intros [= <- <- <-].
    split_and!; try done; [by apply A'|]. split; [apply K | | done]. exists segs, active. split_and!; [done | done |]. by split.
Qed.

Lemma store_holds (d : D) l all framed h r l' d' :
  holds d l all -> bytes_ok framed -> is_batch framed h -> Log.store framed h l d = (r, l', d') ->
  same_settings l l' /\
  match r with
  | Ok _ => base_offset h = Log.next_offset_ l /\ Log.next_offset_ l' = next_offset h /\ holds d' l' (all ++ [framed])
  | fail _ => l' = l /\ holds d' l all
  end.
Proof.
  intros (bss & bs & base & -> & I & A) Hb B R.
  apply (store_spec _ _ _ _ _ _ _ _ _ _ I A Hb B) in R as (_ & _ & S & A' & R). split; [done|].
  destruct r as [u|e].
  - destruct R as (E1 & E2 & I'). split_and!; [done | done |]. exists bss, (bs ++ [framed]), base.
    by rewrite app_assoc.
  - destruct R as [-> I']. split; [done|]. by exists bss, bs, base.
Qed.

Lemma add_records_fit vs : forall b us b',
  builder_holds b us -> 52 + zlen (body_bytes us) <= kMaxBatchBytes -> add_records b vs = (Ok tt, b') ->
  builder_holds b' (us ++ vs) /\ 52 + zlen (body_bytes (us ++ vs)) <= kMaxBatchBytes.
Proof.
  induction vs as [|v vs IH]; intros b us b' Hb Hm E; simpl in E.
  { injection E as <-. by rewrite app_nil_r. }
  destruct (BatchBuilder.add_record b v) as [[u|e] b1] eqn:A; [|done].
  assert (52 + zlen (body_bytes us) + 4 + zlen v <= kMaxBatchBytes) as Hm'.
  { unfold BatchBuilder.add_record in A. rewrite (holds_size _ _ Hb) in A. unfold kRecordLengthBytes in A.
    destruct (_ <? _) eqn:X in A; [done|]. bool_prop. lia. }
  destruct (add_record_holds _ _ _ Hb Hm') as (b2 & A2 & Hb2). rewrite A in A2. injection A2 as _ ->.
  apply (IH _ (us ++ [v])) in E; [by rewrite <- app_assoc in E | done |].
  rewrite body_bytes_app, body_bytes_cons. change (body_bytes []) with (@nil Z). len.
Qed.

(** The calls behind [append]: a refusal, or the roll and the write of the batch the builder
    frames at the next offset. *)
Lemma append_steps (d : D) l b vs meta r b' l' d' :
  add_records BatchBuilder.new vs = (Ok tt, b) -> vs <> [] -> Forall bytes_ok vs -> meta_wf meta ->
  0 <= Log.next_offset_ l < 2 ^ 64 ->
  (forall bytes st l1 d1, Log.make_room bytes l d = (st, l1, d1) -> Log.next_offset_ l1 = Log.next_offset_ l) ->
  Log.append b meta l d = (r, b', l', d') ->
  (exists e, r = fail e /\ l' = l /\ d' = d) \/
  exists bytes st l1 d1, Log.make_room bytes l d = (st, l1, d1) /\
    match st with
    | fail e => r = fail e /\ l' = l1 /\ d' = d1
    | Ok _ => exists h st2, let framed := batch_bytes (Log.next_offset_ l) meta vs in
        bytes_ok framed /\ is_batch framed h /\ base_offset h = Log.next_offset_ l /\
        next_offset h = u64 (Log.next_offset_ l + zlen vs) /\
        Log.store framed h l1 d1 = (st2, l', d') /\
        r = match st2 with Ok _ => Ok (Log.next_offset_ l) | fail e => fail e end
    end.
Proof.
  intros Ab Hv Hvs Hm Ho Nx. unfold Log.append.
  destruct (add_records_fit vs _ [] _ (clear_holds _) ltac:(by vm_compute) Ab) as [Hb Hmax]. simpl in Hb, Hmax.
  assert (0 < zlen vs) as Hn by (destruct vs; [done | len]).
  destruct (BatchBuilder.empty b); [intros [= <- <- <- <-]; eauto|].
  destruct (_ <? _); [intros [= <- <- <- <-]; eauto|].
  destruct (Log.make_room _ l d) as [[st l1] d1] eqn:Mr. intros E. right. eexists _, st, l1, d1. split; [exact Mr|].
  specialize (Nx _ _ _ _ Mr). destruct st as [u|e]; [|injection E as <- <- <- <-; done]. rewrite Nx in E.
  destruct (finish_holds b vs (Log.next_offset_ l) meta Hb Hn Hmax) as (b2 & F & _). rewrite F in E.
  destruct (batch_bytes_is_batch (Log.next_offset_ l) meta vs Ho Hm Hv Hvs Hmax) as [Bo (h & B & E1 & _ & E2)].
  rewrite (proj1 B) in E. destruct (Log.store _ _ l1 d1) as [[st2 l2] d2] eqn:St.
  exists h, st2. cbv zeta. destruct st2; injection E as <- <- <- <-; by split_and!.
Qed.

(** The calls behind [append_replicated]. *)
Lemma replicate_steps (d : D) l framed r l' d' :
  Log.append_replicated framed l d = (r, l', d') ->
  (exists e, r = fail e /\ l' = l /\ d' = d) \/
  exists h st l1 d1, is_batch framed h /\ base_offset h = Log.next_offset_ l /\
    Log.make_room (zlen framed) l d = (st, l1, d1) /\
    match st with
    | fail e => r = fail e /\ l' = l1 /\ d' = d1
    | Ok _ => Log.store framed h l1 d1 = (r, l', d')
    end.
Proof.
  unfold Log.append_replicated.
  destruct (decode_header framed) as [h|e] eqn:Dh; [|intros [= <- <- <-]; eauto].
  destruct (zlen framed =? total_bytes h) eqn:E1; simpl; [|intros [= <- <- <-]; eauto].
  destruct (base_offset h =? Log.next_offset_ l) eqn:E2; simpl; [|intros [= <- <- <-]; eauto].
  destruct (validate_batch framed) as [[]|e] eqn:V; simpl; [|intros [= <- <- <-]; eauto].
  destruct (_ <? zlen framed); [intros [= <- <- <-]; eauto|]. bool_prop.
  destruct (Log.make_room _ l d) as [[st l1] d1] eqn:Mr. intros E. right. exists h, st, l1, d1.
  split; [by split_and!|]. split; [done|]. split; [done|]. destruct st; [done|]. by injection E as <- <- <-.
Qed.

(** ** Reading *)

(** A batch with which one of the segments [segs] begins. *)
Definition begins (segs : list Segment.t) (w : list Z) : Prop :=
  exists h, is_batch w h /\ base_offset h ∈ Segment.base_offset_ <$> segs.

(** A read into [n] bytes that stops behind [got] and in front of [rest]: the next batch does
    not fit any more, or it begins a segment. *)
Definition stops (l : Log.t) (n : Z) (got rest : list (list Z)) : Prop :=
  match rest with
  | [] => True
  | w :: _ => n < zlen (cat got) + zlen w \/ begins (Log.segments_ l) w
  end.

Lemma run_begins (d : D) dir o segs bss from base active bs next :
  closed d dir o segs bss from base -> seg_at d dir o active bs base next ->
  match concat bss ++ bs with [] => True | w :: _ => begins (segs ++ [active]) w end.
Proof.
  assert (forall s cs lo hi ss w ws, seg_at d dir o s cs lo hi -> cs = w :: ws -> begins (s :: ss) w) as Hd.
  { intros s cs lo hi ss w ws S ->. pose proof (sa_base _ _ _ _ _ _ _ S) as E.
    apply seg_at_bounds in S as (_ & _ & _ & _ & (h & B & Eb & _) & _). exists h. split; [done|].
    rewrite fmap_cons, E, Eb. by left. }
  intros C S. destruct segs as [|s segs], bss as [|cs bss]; simpl in C; try done.
  - simpl. destruct bs as [|w ws] eqn:E; [done|]. rewrite <- E in *. by eapply Hd.
  - destruct C as (mid & S1 & N & _). destruct cs as [|w ws] eqn:E; [done|]. simpl. rewrite <- E in *. by eapply Hd.
Qed.

Lemma begins_more segs xs w : begins segs w -> begins (xs ++ segs) w.
Proof using Type. intros (h & B & Hin). exists h. split; [done|]. rewrite fmap_app. apply elem_of_app. by right. Qed.

(** The segment that owns an offset, and its place in the list. *)
Lemma owner (d : D) dir o segs : forall bss from base active bs next offset,
  closed d dir o segs bss from base -> seg_at d dir o active bs base next -> from <= offset < next ->
  exists xs s ys us cs vs lo hi,
    segs ++ [active] = xs ++ s :: ys /\ concat bss ++ bs = us ++ cs ++ vs /\ seg_at d dir o s cs lo hi /\
    lo <= offset < hi /\ Forall (fun s => Segment.base_offset_ s <= offset) xs /\
    Forall (fun s => offset < Segment.base_offset_ s) ys /\
    match vs with [] => True | w :: _ => begins ys w end.
Proof.
  induction segs as [|s segs IH]; intros [|cs bss] from base active bs next offset C S R; simpl in C; try done.
  { subst. exists [], active, [], [], bs, [], base, next. rewrite app_nil_r. split_and!; auto; lia. }
  destruct C as (mid & S1 & N & C). destruct (Z_lt_dec offset mid) as [Hlt|Hge].
  - exists [], s, (segs ++ [active]), [], cs, (concat bss ++ bs), from, mid. simpl. rewrite <- app_assoc.
    pose proof (run_begins _ _ _ _ _ _ _ _ _ _ C S) as Bg.
    split_and!; try done; try lia. clear IH R S1 Bg. revert bss mid C Hlt.
    induction segs as [|s1 segs IH]; intros [|c1 bss] mid C Hlt; simpl in C; try done.
    + subst. constructor; [|constructor]. by rewrite (sa_base _ _ _ _ _ _ _ S).
    + destruct C as (m2 & S2 & N2 & C). simpl. constructor; [by rewrite (sa_base _ _ _ _ _ _ _ S2)|].
      eapply IH; [done|]. apply seg_at_bounds in S2 as (_ & _ & _ & Lt & _). specialize (Lt N2). lia.
  - destruct (IH _ _ _ _ _ _ offset C S ltac:(lia))
      as (xs & s' & ys & us & cs' & vs & lo & hi & E1 & E2 & S' & R' & F1 & F2 & Bg).
    exists (s :: xs), s', ys, (cs ++ us), cs', vs, lo, hi. simpl. rewrite E1, <- app_assoc, E2, <- app_assoc.
    split_and!; try done; try lia. constructor; [|done]. rewrite (sa_base _ _ _ _ _ _ _ S1).
    apply seg_at_bounds in S1 as (_ & _ & ? & _). lia.
Qed.

Lemma fits_nonempty n v vs ws : zlen v <= n -> 0 < zlen v -> fits n (v :: vs) ws ->
  exists ws', ws = v :: ws' /\ 0 < zlen (cat ws).
Proof.
  intros Hn Hv (zs & E & L & M). destruct ws as [|w ws]; simpl in E.
  - subst zs. change (zlen (cat [])) with 0 in M. lia.
  - injection E as -> ->. exists ws. split; [done|]. simpl. pose proof (zlen_nonneg (cat ws)). len.
Qed.

(** Where the log holds the offset, the segment that owns it answers. *)
Lemma log_read_inside (d : D) l all offset n r d' :
  holds d l all -> 0 <= n -> Log.start_offset_ l <= offset < Log.next_offset_ l ->
  Log.read l offset n d = (r, d') ->
  Disk.same d d' /\
  ((exists us v ws rest, all = us ++ (v :: ws) ++ rest /\ contains offset v /\
     if n <? zlen v then r = fail kMessageTooLarge
     else r = Ok (cat (v :: ws)) /\ zlen (cat (v :: ws)) <= n /\ stops l n (v :: ws) rest) \/
   exists e, r = fail e /\ read_failed e).
Proof.
  intros (bss & bs & base & -> & [G (segs & active & E & C & S) M] & _) Hn R. unfold Log.read.
  rewrite (proj2 (Z.leb_gt _ _)), (proj2 (Z.ltb_ge _ _)) by lia.
  destruct (owner _ _ _ _ _ _ _ _ _ _ _ C S R)
    as (xs & s & ys & us & cs & vs & lo & hi & E1 & E2 & S' & R' & F1 & F2 & Bg).
  unfold stops. rewrite E, E1. replace (xs ++ s :: ys) with ((xs ++ [s]) ++ ys) by (by rewrite <- app_assoc).
  rewrite partition_point_app.
  2:{ apply Forall_app. split; [|apply Forall_singleton; rewrite (sa_base _ _ _ _ _ _ _ S'); destruct (_ <? _) eqn:X; bool_prop; [lia | done]].
      eapply Forall_impl; [exact F1|]. intros s0 Hs0. simpl in *. destruct (_ <? _) eqn:X; bool_prop; [lia | done]. }
  2:{ eapply Forall_impl; [exact F2|]. intros s0 Hs0. simpl in *. destruct (_ <? _) eqn:X; bool_prop; [done | lia]. }
  rewrite length_app, Nat.add_1_r, <- app_assoc. simpl pred. rewrite drop_app_length. simpl.
  destruct (Segment.read s offset n d) as [r1 d1] eqn:Rd.
  pose proof (seg_at_bounds _ _ _ _ _ _ _ S') as (B1 & _).
  assert (0 <= offset) as Ho by lia.
  destruct (read_spec _ _ _ _ _ _ _ (sa_inv _ _ _ _ _ _ _ S') Ho Hn Rd) as [Sm Out].
  rewrite (sa_next _ _ _ _ _ _ _ S'), (sa_base _ _ _ _ _ _ _ S'), Z.max_l in Out by lia.
  destruct Out as [[[Hx | ->] ->] | [(Hlt & xs' & v & vs' & Ec & Cn & Out) | (e & -> & Fl)]].
  - lia.
  - apply seg_at_bounds in S' as (_ & _ & _ & _ & Ch & _). simpl in Ch. lia.
  - rewrite E2, Ec. destruct (n <? zlen v) eqn:X.
    + subst r1. intros [= <- <-]. split; [done|]. left. exists (us ++ xs'), v, [], (vs' ++ vs). rewrite X.
      split; [|done]. simpl. by rewrite <- !app_assoc.
    + destruct Out as (ws & Ft & ->). bool_prop. pose proof Cn as (h & B & _). apply is_batch_size in B.
      destruct (fits_nonempty _ _ _ _ X ltac:(lia) Ft) as (ws' & -> & Pos).
      rewrite (proj2 (Z.ltb_lt _ _)) by done. intros [= <- <-]. split; [done|]. left.
      destruct Ft as (zs & Ez & L & Mx). injection Ez as ->.
      exists (us ++ xs'), v, ws', (zs ++ vs). rewrite (proj2 (Z.ltb_ge _ _)) by done.
      split_and!; [simpl; rewrite <- !app_assoc; simpl; by rewrite <- !app_assoc | done | done | done |].
      destruct zs as [|z zs]; simpl; [|by left]. destruct vs as [|w vs]; [done|]. right.
      by apply begins_more, (begins_more ys [s]).
  - intros [= <- <-]. split; [done|]. right. eauto.
Qed.

(** ** Truncating *)

(** The files of the segment at [v]. *)
Definition segment_file (dir : chars) (v : Z) (p : chars) : Prop := p = log_path dir v \/ p = index_path dir v.

Lemma destroy_kept (d : D) s bs f :
  Disk.good d -> seg_inv d s bs -> f = Segment.log_path_ s -> kept (fun p => p <> f) d (Segment.destroy s d).
Proof.
  intros G I ->. unfold Segment.destroy. destruct (_ =? _); [by apply kept_refl|].
  destruct (Disk.close_law d (Segment.log_file_ s) G) as (G' & F & Hd & S).
  split; [done | by intros; rewrite F | | auto]. intros f p m Hp Hf. rewrite Hd, lookup_delete_ne; [done|].
  intros <-. destruct (si_file _ _ _ I) as (rest & [[m' Hm] _]). congruence.
Qed.

Lemma remove_kept p (d : D) r d' :
  Disk.good d -> Disk.file_path p -> Disk.remove p d = (r, d') -> kept (fun q => q <> p) d d'.
Proof.
  intros G Hp E. pose proof (Disk.remove_law _ _ _ _ G Hp E) as L. destruct r as [u|e].
  - apply without_kept, L. - by apply same_kept.
Qed.

Lemma remove_segment_spec (d : D) dir v :
  Disk.good d -> kept (fun p => ~ segment_file dir v p) d (Log.remove_segment_files dir v d) /\
  (Disk.removes D -> Disk.files (Log.remove_segment_files dir v d) !! log_path dir v = None).
Proof.
  intros G. unfold Log.remove_segment_files.
  change (join dir (Segment.log_name v)) with (log_path dir v).
  change (join dir (Segment.index_name v)) with (index_path dir v).
  destruct (Disk.remove (log_path dir v) d) as [r1 d1] eqn:E1.
  destruct (Disk.remove (index_path dir v) d1) as [r2 d2] eqn:E2.
  pose proof (remove_kept _ _ _ _ G (log_path_file _ _) E1) as K1.
  pose proof (remove_kept _ _ _ _ (kp_good _ _ _ K1) (index_path_file _ _) E2) as K2. split.
  - eapply kept_trans; [|exact K1|exact K2]. unfold segment_file. tauto.
  - intros Sd. rewrite (kp_files _ _ _ K2) by apply log_index_path.
    pose proof (Disk.remove_law _ _ _ _ G (log_path_file _ _) E1) as L.
    destruct (Disk.files d !! log_path dir v) as [b|] eqn:F.
    + pose proof (Disk.remove_there d _ G (log_path_file dir v) ltac:(eauto)) as R. rewrite E1 in R.
      simpl in R. subst r1. apply L.
    + destruct r1 as [u|e]; [apply L|]. by rewrite (proj1 (proj2 L)).
Qed.

(** Everything but files of segments that begin behind [lo] is kept. *)
Definition up_to (dir : chars) (lo hi : Z) (p : chars) : Prop :=
  forall v, lo < v <= hi -> ~ segment_file dir v p.

Lemma up_to_log dir lo hi v : 0 <= v <= lo -> hi < 2 ^ 64 -> up_to dir lo hi (log_path dir v).
Proof.
  intros Hv Hh w Hw [E | E]; [apply log_path_inj in E; lia | by apply log_index_path in E].
Qed.

(** One segment popped and its files removed. *)
Lemma drop_one (d : D) l0 segs b1 s cs active bs mid base next :
  let d' := Log.remove_segment_files (Log.dir_ l0) base (Segment.destroy active d) in
  closed d (Log.dir_ l0) (seg_options l0) segs b1 (Log.start_offset_ l0) mid ->
  seg_at d (Log.dir_ l0) (seg_options l0) s cs mid base -> cs <> [] ->
  seg_at d (Log.dir_ l0) (seg_options l0) active bs base next ->
  kept (fun p => ~ segment_file (Log.dir_ l0) base p) d d' /\
  closed d' (Log.dir_ l0) (seg_options l0) segs b1 (Log.start_offset_ l0) mid /\
  seg_at d' (Log.dir_ l0) (seg_options l0) s cs mid base /\
  (Disk.removes D -> clear d (l0 <| Log.segments_ := (segs ++ [s]) ++ [active] |>) ->
   clear d' (l0 <| Log.segments_ := segs ++ [s] |>)).
Proof.
  intros d' C S2 N S. pose proof (wk_good _ _ _ _ (si_walk _ _ _ (sa_inv _ _ _ _ _ _ _ S))) as G.
  pose proof (seg_at_bounds _ _ _ _ _ _ _ S) as (B1 & B2 & B3 & _).
  pose proof (seg_at_bounds _ _ _ _ _ _ _ S2) as (A1 & A2 & A3 & A4 & _). specialize (A4 N).
  pose proof (destroy_kept d active bs _ G (sa_inv _ _ _ _ _ _ _ S) (eq_sym (sa_log _ _ _ _ _ _ _ S))) as K1.
  destruct (remove_segment_spec _ (Log.dir_ l0) base (kp_good _ _ _ K1)) as [K2 Rm].
  assert (kept (fun p => ~ segment_file (Log.dir_ l0) base p) d d') as K.
  { eapply kept_trans; [|exact K1|exact K2]. intros p Hp. split; [|done]. intros ->. apply Hp. by left. }
  assert (forall v, 0 <= v < 2 ^ 64 -> v <> base -> ~ segment_file (Log.dir_ l0) base (log_path (Log.dir_ l0) v)) as Ne.
  { intros v Hv Hne [Ep | Ep]; [apply log_path_inj in Ep; lia | by apply log_index_path in Ep]. }
  split_and!; [done | | |].
  - eapply closed_kept; [|exact K|exact C]. intros v Hv.
    destruct segs as [|s0 segs]; [destruct b1; simpl in C; [lia | done]|].
    apply closed_le in C as [_ C]. specialize (C ltac:(done)). apply Ne; lia.
  - eapply seg_at_kept; [|exact K|exact S2]. apply Ne; lia.
  - intros Sd Cl v Hv Hn. cbn [Log.dir_ set]. destruct (decide (v = base)) as [->|Hne].
    { unfold found_bytes, d'. by rewrite Rm. }
    rewrite (kept_found _ _ _ _ K) by (by apply Ne). apply (Cl v Hv). unfold bases in *. cbn [Log.segments_ set] in *.
    rewrite fmap_app, not_elem_of_app. split; [done|]. simpl. rewrite (sa_base _ _ _ _ _ _ _ S).
    by intros ?%list_elem_of_singleton.
Qed.

(** What is left when the segments at or behind [offset] are gone. *)
Lemma drop_spec offset l0 : forall segs fuel l (d : D) bss active bs base next l' d',
  l = l0 <| Log.segments_ := segs ++ [active] |> ->
  closed d (Log.dir_ l0) (seg_options l0) segs bss (Log.start_offset_ l0) base ->
  seg_at d (Log.dir_ l0) (seg_options l0) active bs base next -> (length segs < fuel)%nat ->
  Log.drop_segments fuel offset l d = (l', d') ->
  exists segs' active' bss' bs' lo hi rest,
    l' = l0 <| Log.segments_ := segs' ++ [active'] |> /\
    closed d' (Log.dir_ l0) (seg_options l0) segs' bss' (Log.start_offset_ l0) lo /\
    seg_at d' (Log.dir_ l0) (seg_options l0) active' bs' lo hi /\
    concat bss ++ bs = (concat bss' ++ bs') ++ rest /\
    (rest = [] /\ hi = next \/ offset <= hi) /\ (segs' <> [] -> lo < offset) /\ lo <= base /\
    kept (up_to (Log.dir_ l0) lo base) d d' /\ (Disk.removes D -> clear d l -> clear d' l').
Proof.
  induction segs as [|s segs IH] using rev_ind; intros fuel l d bss active bs base next l' d' -> C S Hf;
    (destruct fuel as [|fuel]; [lia|]); simpl;
    pose proof (wk_good _ _ _ _ (si_walk _ _ _ (sa_inv _ _ _ _ _ _ _ S))) as G.
  - intros [= <- <-]. exists [], active, bss, bs, base, next, [].
    split_and!; auto using kept_refl; try done; by rewrite app_nil_r.
  - rewrite back_snoc, (sa_base _ _ _ _ _ _ _ S). destruct (_ && _) eqn:X.
    2:{ intros [= <- <-]. exists (segs ++ [s]), active, bss, bs, base, next, [].
        split_and!; auto using kept_refl; try done; [by rewrite app_nil_r|].
        intros _. rewrite !zlen_app in X. apply andb_false_iff in X as [X | X]; bool_prop; [|done].
        unfold zlen in X. simpl in X. lia. }
    apply closed_app in C as (b1 & b2 & mid & -> & C1 & C2). destruct b2 as [|cs [|]]; simpl in C2; try done;
      [|by destruct C2 as (? & _ & _ & ?)]. destruct C2 as (m2 & S2 & N2 & ->).
    rewrite removelast_last. intros Dr. bool_prop.
    destruct (drop_one _ _ _ _ _ _ _ _ _ _ _ C1 S2 N2 S) as (K & C1' & S2' & Cl).
    eapply IH in Dr as (segs' & active' & bss' & bs' & lo & hi & rest & -> & C' & S' & E' & Hi & Hlo & Hle & K' & Cl');
      [| reflexivity | exact C1' | exact S2' | rewrite length_app in Hf; simpl in Hf; lia].
    pose proof (seg_at_bounds _ _ _ _ _ _ _ S2) as (_ & _ & _ & Lt & _). specialize (Lt N2).
    exists segs', active', bss', bs', lo, hi, (rest ++ bs). split_and!; try done; [| | lia | |].
    + rewrite concat_app. simpl. rewrite app_nil_r, E'. by rewrite <- !app_assoc.
    + right. destruct Hi as [[_ ->] | Hi]; lia.
    + eapply kept_trans; [|exact K|exact K']. intros p Hp. split; [apply Hp; lia|]. intros v Hv. apply Hp. lia.
    + intros Sd Hc. apply Cl'; [done|]. by apply Cl.
Qed.

(** The active segment of [l] replaced by [s], which now ends at [next]. *)
Lemma log_inv_back (d d' : D) l segs bss active bs lo next :
  Log.segments_ l = segs ++ [active] -> Log.segment_max_bytes (Log.options_ l) < 2 ^ 32 -> lo < 2 ^ 64 ->
  closed d (Log.dir_ l) (seg_options l) segs bss (Log.start_offset_ l) lo ->
  kept (fun p => p <> log_path (Log.dir_ l) lo) d d' ->
  seg_at d' (Log.dir_ l) (seg_options l) active bs lo next ->
  log_inv d' (l <| Log.next_offset_ := next |>) bss bs lo.
Proof.
  intros E M Hl C K S. split; [apply K | | done]. exists segs, active. split_and!; [done | | done].
  by eapply closed_only.
Qed.

Lemma log_truncate_inv (d : D) l bss bs base offset r l' d' :
  log_inv d l bss bs base -> Log.start_offset_ l <= offset < Log.next_offset_ l ->
  Log.truncate_to offset l d = (r, l', d') ->
  same_settings l l' /\ (Disk.removes D -> clear d l -> clear d' l') /\
  match r with
  | Ok _ => Log.next_offset_ l' = offset /\
      exists bss' bs' lo rest, log_inv d' l' bss' bs' lo /\ concat bss ++ bs = (concat bss' ++ bs') ++ rest
  | fail e => Log.next_offset_ l' = Log.next_offset_ l /\
      (e = kInvalidArgument \/ read_failed e \/ exists f n d1 d2, Disk.truncate f n d1 = (fail e, d2)) /\
      exists bss' bs' lo hi rest, log_inv d' (l' <| Log.next_offset_ := hi |>) bss' bs' lo /\
        concat bss ++ bs = (concat bss' ++ bs') ++ rest
  end.
Proof.
  intros [G (segs & active & E & C & S) M] R. unfold Log.truncate_to.
  rewrite (proj2 (Z.ltb_ge _ _)), (proj2 (Z.ltb_ge _ _)), (proj2 (Z.eqb_neq _ _)) by lia.
  assert (l = l <| Log.segments_ := segs ++ [active] |>) as El by (destruct l; simpl in *; by rewrite E).
  destruct (Log.drop_segments _ _ _ _) as [l1 d1] eqn:Dr.
  eapply (drop_spec offset l) in Dr as (segs' & active' & bss' & bs' & lo & hi & rest & -> & C' & S' & Er & Hi & Hlo & Hle & K' & Cl);
    [|exact El|exact C|exact S|rewrite E, length_app; simpl; lia].
  cbn [Log.segments_ Log.dir_ set]. rewrite back_snoc.
  pose proof (seg_at_bounds _ _ _ _ _ _ _ S') as (B1 & B2 & B3 & _).
  assert (lo <= offset) as Hlo'.
  { destruct segs' as [|s0 segs']; [destruct bss'; simpl in C'; [lia | done]|]. specialize (Hlo ltac:(done)). lia. }
  destruct (Segment.truncate_to offset active' d1) as [[st active2] d2] eqn:T.
  pose proof (sa_base _ _ _ _ _ _ _ S') as Eb. pose proof (sa_log _ _ _ _ _ _ _ S') as Elo.
  apply (truncate_to_spec _ _ _ _ _ _ _ (sa_inv _ _ _ _ _ _ _ S')) in T as [On T]; [|lia]. rewrite Elo in On, T.
  rewrite Eb in T. pose proof (only_kept _ _ _ On) as K2.
  assert (forall l2, Log.dir_ l2 = Log.dir_ l -> bases l2 = bases (l <| Log.segments_ := segs' ++ [active'] |>) ->
    Disk.removes D -> clear d l -> clear d2 l2) as Cl2.
  { intros l2 E1 E2 Sd Hc. eapply (clear_only d1 d2 (l <| Log.segments_ := segs' ++ [active'] |>) l2 lo); auto; [|lia].
    unfold bases. simpl. rewrite fmap_app. apply elem_of_app. right. simpl. rewrite Eb. by apply list_elem_of_singleton. }
  rewrite !set_back_snoc. destruct st as [u|e]; intros [= <- <- <-]; (split; [done|]).
  - assert (exists xs ys, bs' = xs ++ ys /\ seg_at d2 (Log.dir_ l) (seg_options l) active2 xs lo offset /\
      Segment.base_offset_ active2 = Segment.base_offset_ active') as (xs & ys & -> & Sx & Ex).
    { destruct T as [(Hx & -> & ->) | (xs & ys & -> & _ & I2 & T1 & T2 & T3 & T4 & _ & T6 & _)].
      - exists bs', []. rewrite app_nil_r. split_and!; [done | | done].
        rewrite (sa_next _ _ _ _ _ _ _ S') in Hx. assert (hi = offset) as E1 by lia. rewrite <- E1. exact S'.
      - exists xs, ys. split_and!; [done | | congruence]. pose proof (sa_index _ _ _ _ _ _ _ S').
        pose proof (sa_options _ _ _ _ _ _ _ S'). split; [done | congruence..]. }
    split; [apply Cl2; [done|]; unfold bases; simpl; rewrite !fmap_app; simpl; by rewrite Ex|].
    pose proof (sa_next _ _ _ _ _ _ _ Sx) as En. split; [done|]. exists bss', xs, lo, (ys ++ rest).
    split; [|rewrite Er, <- !app_assoc; done]. rewrite En.
    refine (log_inv_back d1 d2 (l <| Log.segments_ := segs' ++ [active2] |>) segs' bss' active2 xs lo offset _ _ _ _ _ _);
      try done. lia.
  - destruct T as (-> & Sm & T). split; [by apply Cl2|]. split; [done|]. split; [tauto|].
    exists bss', bs', lo, hi, rest. split; [|done].
    refine (log_inv_back d1 d2 (l <| Log.segments_ := segs' ++ [active'] |>) segs' bss' active' bs' lo hi _ _ _ _ _ _);
      try done; [lia|].
    eapply (seg_at_kept (fun _ => True)); [done | by apply same_kept | done].
Qed.

(** ** Leader epochs *)

(** Headers whose offsets follow each other and move forward. *)
Fixpoint linked (from : Z) (hs : list BatchHeader) (next : Z) : Prop :=
  match hs with
  | [] => next = from
  | h :: hs' => base_offset h = from /\ from < next_offset h /\ linked (next_offset h) hs' next
  end.

Lemma linked_app from hs ks next :
  linked from (hs ++ ks) next <-> exists mid, linked from hs mid /\ linked mid ks next.
Proof.
  revert from. induction hs as [|h hs IH]; intros from; simpl; [split; [eauto | by intros (mid & -> & ?)]|].
  rewrite IH. split; [intros (E1 & E2 & mid & L1 & L2); eauto 8 | intros (mid & (E1 & E2 & L1) & L2); eauto 8].
Qed.

Lemma linked_le from hs next : linked from hs next -> from <= next.
Proof.
  revert from. induction hs as [|h hs IH]; intros from; simpl; [lia|]. intros (_ & ? & L). apply IH in L. lia.
Qed.

Definition headers_of (bs : list (list Z)) (hs : list BatchHeader) : Prop :=
  Forall2 (fun b h => decode_header b = Ok h) bs hs.

Lemma chain_linked from bs next :
  chain from bs next -> bytes_ok (cat bs) -> 0 <= from -> from + zlen (cat bs) < 2 ^ 64 ->
  exists hs, headers_of bs hs /\ linked from hs next.
Proof.
  revert from. induction bs as [|b bs IH]; intros from; simpl.
  { intros -> _ _ _. exists []. split; [constructor | done]. }
  intros (h & B & E & C) Hb H0' Hmax. apply Forall_app in Hb as [Hb Hbs].
  destruct (is_batch_records b h Hb B) as (_ & Hr & Hn). rewrite zlen_app in *.
  pose proof (zlen_nonneg (cat bs)). rewrite wrap_small in Hn by lia.
  destruct (IH _ C Hbs) as (hs & F & L); [lia | lia |]. exists (h :: hs). split; [|split_and!; [done | lia | done]].
  constructor; [apply B | done].
Qed.

Lemma seg_linked (d : D) dir o s bs from next :
  seg_at d dir o s bs from next -> exists hs, headers_of bs hs /\ linked from hs next.
Proof.
  intros S. pose proof (seg_at_bounds _ _ _ _ _ _ _ S) as (? & ? & ? & _ & C & B).
  eapply chain_linked; [done | done | done |]. destruct S as [[W _ _ _ _] _ _ _ _ _]. destruct W. lia.
Qed.

Definition epochs_of (hs : list BatchHeader) (epochs : list EpochBoundary) : list EpochBoundary :=
  visit_all Log.note_epoch hs epochs.

Lemma epochs_of_app hs ks es : epochs_of (hs ++ ks) es = epochs_of ks (epochs_of hs es).
Proof. revert es. unfold epochs_of. induction hs as [|h hs IH]; intros es; simpl; [done | apply IH]. Qed.

Lemma scan_segment (d : D) dir o s bs from next hs epochs r d' :
  seg_at d dir o s bs from next -> headers_of bs hs -> Segment.scan_headers Log.note_epoch s epochs d = (r, d') ->
  Disk.same d d' /\ (r = Ok (epochs_of hs epochs) \/ exists e, r = fail e /\ read_failed e).
Proof.
  intros S Hh E. pose proof (si_walk _ _ _ (sa_inv _ _ _ _ _ _ _ S)) as W.
  eapply (scan_loop_spec Log.note_epoch s bs _ bs hs [] (Segment.base_offset_ s)) in E; eauto; [done|].
  destruct W as [_ _ C Sz _ _]. pose proof (chain_len _ _ _ C). rewrite Sz. unfold zlen in *. lia.
Qed.

Lemma scan_segments_spec dir o segs : forall bss from base active bs next hs epochs (d : D) r d',
  closed d dir o segs bss from base -> seg_at d dir o active bs base next -> headers_of (concat bss ++ bs) hs ->
  Log.scan_segments (segs ++ [active]) epochs d = (r, d') ->
  Disk.same d d' /\ (r = Ok (epochs_of hs epochs) \/ exists e, r = fail e /\ read_failed e).
Proof.
  induction segs as [|s segs IH]; intros [|cs bss] from base active bs next hs epochs d r d' C S Hh E; simpl in C; try done.
  - simpl in *. destruct (Segment.scan_headers _ _ _ d) as [r1 d1] eqn:Sc.
    eapply scan_segment in Sc as [Sm R]; [|done|done]. destruct R as [-> | (e & -> & Hf)]; injection E as <- <-; eauto.
  - destruct C as (mid & S1 & N & C). simpl in E, Hh. rewrite <- app_assoc in Hh.
    apply Forall2_app_inv_l in Hh as (h1 & h2 & F1 & F2 & ->).
    destruct (Segment.scan_headers _ _ _ d) as [r1 d1] eqn:Sc.
    eapply scan_segment in Sc as [Sm R]; [|done|done]. destruct R as [-> | (e & -> & Hf)]; [|injection E as <- <-; eauto].
    rewrite epochs_of_app. eapply IH in E as [S2 R].
    + split; [by eapply same_trans | exact R].
    + eapply (closed_kept (fun _ => True)); [done | by apply same_kept | exact C].
    + eapply (seg_at_kept (fun _ => True)); [done | by apply same_kept | exact S].
    + done.
Qed.

Lemma holds_linked (d : D) l all :
  holds d l all -> exists hs, headers_of all hs /\ linked (Log.start_offset_ l) hs (Log.next_offset_ l).
Proof.
  intros (bss & bs & base & -> & [_ (segs & active & _ & C & S) _] & _).
  destruct (seg_linked _ _ _ _ _ _ _ S) as (hs & F & L).
  assert (exists hs', headers_of (concat bss) hs' /\ linked (Log.start_offset_ l) hs' base) as (hs' & F' & L').
  { clear S L F. revert bss C. generalize (Log.start_offset_ l). induction segs as [|s segs IH]; intros from [|cs bss] C; simpl in C; try done.
    - subst. exists []. split; [constructor | done].
    - destruct C as (mid & S1 & _ & C). destruct (IH _ _ C) as (hs2 & F2 & L2).
      destruct (seg_linked _ _ _ _ _ _ _ S1) as (hs1 & F1 & L1). exists (hs1 ++ hs2).
      split; [by apply Forall2_app | apply linked_app; eauto]. }
  exists (hs' ++ hs). split; [by apply Forall2_app | apply linked_app; eauto].
Qed.

Lemma linked_lookup from hs next : forall i h, linked from hs next -> hs !! i = Some h ->
  from <= base_offset h < next_offset h /\ next_offset h <= next.
Proof.
  revert from. induction hs as [|k hs IH]; intros from i h; [done|]. intros (E1 & E2 & L) Hi.
  destruct i as [|i]; cbn in Hi; [injection Hi as <-; apply linked_le in L; lia|]. specialize (IH _ _ _ L Hi). lia.
Qed.

(** An offset is in one batch only. *)
Lemma linked_unique from hs next o : linked from hs next -> forall i j h k, hs !! i = Some h -> hs !! j = Some k ->
  base_offset h <= o < next_offset h -> base_offset k <= o < next_offset k -> i = j.
Proof.
  revert from. induction hs as [|x hs IH]; intros from; [done|]. intros (E1 & E2 & L) [|i] [|j] h k; cbn; intros Hh Hk Oh Ok.
  - done.
  - injection Hh as <-. pose proof (linked_lookup _ _ _ _ _ L Hk). lia.
  - injection Hk as <-. pose proof (linked_lookup _ _ _ _ _ L Hh). lia.
  - f_equal. by eapply IH.
Qed.

Lemma holds_bytes (d : D) l all : holds d l all -> Forall bytes_ok all.
Proof.
  intros (bss & bs & base & -> & [_ (segs & active & _ & C & S) _] & _).
  assert (forall cs, bytes_ok (cat cs) -> Forall bytes_ok cs) as F.
  { induction cs as [|c cs IH]; intros Hc; [constructor|]. apply Forall_app in Hc as [? ?]. constructor; auto. }
  apply Forall_app. split; [|by apply F; eapply seg_at_bounds].
  clear S. revert bss C. generalize (Log.start_offset_ l). induction segs as [|s segs IH]; intros from [|cs bss] C; simpl in C; try done.
  destruct C as (mid & S & _ & C). cbn [concat]. apply Forall_app. split; [by apply F; eapply seg_at_bounds | by eapply IH].
Qed.

(** What the cache says about an offset: the epoch of the last boundary at or below it. *)
Definition epoch_before (epochs : list EpochBoundary) (offset : Z) : option Z :=
  epoch <$> last (filter (fun b => boundary_start b <= offset) epochs).

Lemma filter_all {A} (P : A -> Prop) `{forall x, Decision (P x)} l : Forall P l -> filter P l = l.
Proof. induction 1; [done|]. rewrite filter_cons_True by done. by f_equal. Qed.

Lemma epochs_snoc hs h : forall es,
  epochs_of (hs ++ [h]) es =
  if match last (epochs_of hs es) with None => true | Some b => negb (epoch b =? leader_epoch h) end
  then epochs_of hs es ++ [mkBoundary (leader_epoch h) (base_offset h)] else epochs_of hs es.
Proof. intros es. rewrite epochs_of_app. unfold epochs_of at 1. simpl. done. Qed.

Lemma epochs_faithful hs : forall from next,
  linked from hs next ->
  Forall (fun b => boundary_start b < next) (epochs_of hs []) /\
  (forall us h, hs = us ++ [h] -> epoch <$> last (epochs_of hs []) = Some (leader_epoch h)) /\
  forall us h vs offset, hs = us ++ h :: vs -> base_offset h <= offset < next_offset h ->
    epoch_before (epochs_of hs []) offset = Some (leader_epoch h).
Proof.
  induction hs as [|h hs IH] using rev_ind; intros from next L.
  { split_and!; [constructor | by intros [] | by intros []]. }
  apply linked_app in L as (mid & L1 & (Eb & Lt & En)). simpl in En. subst next.
  destruct (IH _ _ L1) as (I1 & I2 & I3). rewrite epochs_snoc.
  set (es := epochs_of hs []) in *.
  set (fresh := match last es with None => true | Some b => negb (epoch b =? leader_epoch h) end).
  set (es' := if fresh then _ else _).
  assert (Forall (fun b => boundary_start b <= base_offset h) es') as Hle.
  { assert (Forall (fun b => boundary_start b <= base_offset h) es) as X.
    { eapply Forall_impl; [exact I1|]. intros b Hb. simpl in *. lia. }
    unfold es'. destruct fresh; [|done].
    apply Forall_app. split; [done|]. apply Forall_singleton. simpl. lia. }
  assert (epoch <$> last es' = Some (leader_epoch h)) as Hlast.
  { unfold es', fresh. destruct (last es) as [b|] eqn:El.
    - destruct (epoch b =? leader_epoch h) eqn:X; simpl; [rewrite El; simpl; apply Z.eqb_eq in X; by rewrite X|].
      by rewrite last_snoc.
    - by rewrite last_snoc. }
  split_and!.
  - eapply Forall_impl; [exact Hle|]. intros b Hb. simpl in *. lia.
  - intros us k E. apply app_inj_2 in E as [_ [= <-]]; [done | done].
  - intros us k vs offset E Ho. destruct vs as [|v vs _] using rev_ind.
    + apply app_inj_2 in E as [-> [= ->]]; [|done]. unfold epoch_before. rewrite filter_all; [done|].
      eapply Forall_impl; [exact Hle|]. intros b Hb. simpl in *. lia.
    + rewrite app_comm_cons, app_assoc in E. apply app_inj_2 in E as [-> [= <-]]; [|done].
      rewrite <- (I3 us k vs offset eq_refl Ho).
      apply linked_app in L1 as (m & _ & (Ek & _ & L2)). apply linked_le in L2.
      unfold es', epoch_before. destruct fresh; [|done].
      rewrite filter_app, filter_cons_False, filter_nil, app_nil_r; [done|]. simpl. lia.
Qed.

End Facts.
