(* ===== verification/LogRecovery.v ===== *)
(** * Opening a partition log

    What [Log::open] recovers, against a reference computed from the files alone: the
    segments in order of their first offset, up to the first that does not continue the one
    before it or that lost its tail. *)
From S2P Require Import Prelude Base RecordBatch SparseIndex Disk Segment Chain SegmentFacts SegmentProps Log LogFacts.

Section Recovery.
#[local] Set Default Proof Using "Type*".
Context {D : Type} `{DL : Disk.laws D}.

(** The valid batches in the file of the segment at [v], and the offset behind them. *)
Definition batches_at (d : D) (dir : chars) (v : Z) : list (list Z) * Z :=
  valid_batches v (found_bytes d (log_path dir v)).

Definition torn_at (d : D) (dir : chars) (v : Z) : bool :=
  negb (zlen (cat (batches_at d dir v).1) =? zlen (found_bytes d (log_path dir v))).

(** The segments that survive, with their batches. *)
Fixpoint surviving (d : D) (dir : chars) (bases : list Z) : list (Z * list (list Z)) :=
  match bases with
  | [] => []
  | v :: vs =>
      (v, (batches_at d dir v).1) ::
      (if torn_at d dir v then []
       else match vs with
            | w :: _ => if w =? (batches_at d dir v).2 then surviving d dir vs else []
            | [] => []
            end)
  end.

Definition bounded (v : Z) : Prop := 0 <= v /\ v + 2 ^ 32 <= 2 ^ 64.

Lemma batches_at_kept P (d d' : D) dir v :
  kept P d d' -> P (log_path dir v) -> batches_at d' dir v = batches_at d dir v.
Proof. intros K HP. unfold batches_at. by rewrite (kept_found _ _ _ _ K HP). Qed.

Lemma torn_at_kept P (d d' : D) dir v :
  kept P d d' -> P (log_path dir v) -> torn_at d' dir v = torn_at d dir v.
Proof. intros K HP. unfold torn_at. by rewrite (batches_at_kept _ _ _ _ _ K HP), (kept_found _ _ _ _ K HP). Qed.

Lemma surviving_kept P (d d' : D) dir bases :
  kept P d d' -> Forall (fun v => P (log_path dir v)) bases -> surviving d' dir bases = surviving d dir bases.
Proof.
  intros K. induction bases as [|v vs IH]; intros HP; simpl; [done|]. apply Forall_cons in HP as [Hv HP].
  rewrite (batches_at_kept _ _ _ _ _ K Hv), (torn_at_kept _ _ _ _ _ K Hv), (IH HP). done.
Qed.

Lemma honest_kept P (d d' : D) dir v :
  kept P d d' -> P (log_path dir v) -> P (index_path dir v) -> honest_at d dir v -> honest_at d' dir v.
Proof.
  intros K HP HI Ho ib Hi. rewrite (kept_found _ _ _ _ K HP). apply Ho. by rewrite <- (kp_files _ _ _ K _ HI).
Qed.

(** An open segment for every survivor. *)
Definition opened_run (d d' : D) (l : Log.t) (segs : list Segment.t) (sv : list (Z * list (list Z))) : Prop :=
  Forall2 (fun s vb => seg_at d' (Log.dir_ l) (seg_options l) s vb.2 vb.1 (batches_at d (Log.dir_ l) vb.1).2 /\
    Disk.files d' !! log_path (Log.dir_ l) vb.1 = Some (cat vb.2) /\
    forall b, Disk.settled d (log_path (Log.dir_ l) vb.1) b -> zlen b <= zlen (cat vb.2) ->
      Disk.settled d' (log_path (Log.dir_ l) vb.1) b) segs sv.

Definition continues (l : Log.t) (bases : list Z) : bool :=
  match Log.segments_ l, bases with
  | [], _ | _, [] => true
  | segs, v :: _ => v =? Segment.next_offset_ (Log.back segs)
  end.

Definition not_log_of (dir : chars) (vs : list Z) (p : chars) : Prop := forall v, v ∈ vs -> p <> log_path dir v.

Lemma not_log_cons dir v vs p : not_log_of dir (v :: vs) p <-> p <> log_path dir v /\ not_log_of dir vs p.
Proof.
  unfold not_log_of. split.
  - intros Hp. split; [apply Hp, elem_of_cons; by left | intros w Hw; apply Hp, elem_of_cons; by right].
  - intros [Hv Hp] w [-> | Hw]%elem_of_cons; auto.
Qed.

Lemma log_path_out dir v vs : bounded v -> Forall bounded vs -> v ∉ vs -> not_log_of dir vs (log_path dir v).
Proof.
  unfold bounded. intros Hv Hb Hn w Hw E. rewrite Forall_forall in Hb. specialize (Hb w Hw). simpl in Hb.
  apply log_path_inj in E; [by subst | lia | lia].
Qed.

Lemma opened_run_kept P (d d1 d2 : D) l segs sv :
  opened_run d d1 l segs sv -> kept P d1 d2 -> Forall (fun v => P (log_path (Log.dir_ l) v)) sv.*1 ->
  opened_run d d2 l segs sv.
Proof.
  intros R K. induction R as [|s [v bs] segs sv (S & F & St) R IH]; intros HP; [constructor|].
  apply Forall_cons in HP as [Hv HP]. constructor; [|by apply IH]. simpl in *. split_and!.
  - by eapply seg_at_kept.
  - by rewrite (kp_files _ _ _ K).
  - intros b Hb Hl. apply (kp_settled _ _ _ K); auto.
Qed.

Lemma opened_run_from P (d0 d d' : D) l l' segs sv :
  opened_run d d' l' segs sv -> same_settings l l' -> kept P d0 d ->
  Forall (fun v => P (log_path (Log.dir_ l) v)) sv.*1 -> opened_run d0 d' l segs sv.
Proof.
  intros R (E1 & E2 & _) K. unfold opened_run, seg_options in *. rewrite E1, E2 in R.
  induction R as [|s [v bs] segs sv (S & F & St) R IH]; intros HP; [constructor|].
  apply Forall_cons in HP as [Hv HP]. constructor; [|by apply IH]. simpl in *.
  rewrite <- (batches_at_kept _ _ _ _ _ K Hv). split_and!; [done | done |].
  intros b Hb. apply St. by apply (kp_settled _ _ _ K).
Qed.

(** One turn of the loop. *)
Lemma recover_turn v (d : D) l st l1 d1 :
  Disk.good d -> Log.segment_max_bytes (Log.options_ l) < 2 ^ 32 -> bounded v -> honest_at d (Log.dir_ l) v ->
  Log.add_segment v l d = (st, l1, d1) ->
  kept (not_log_of (Log.dir_ l) [v]) d d1 /\
  match st with
  | fail _ => l1 = l
  | Ok _ => exists s, l1 = l <| Log.segments_ := Log.segments_ l ++ [s] |> /\
      opened_run d d1 l [s] [(v, (batches_at d (Log.dir_ l) v).1)] /\
      torn_at d (Log.dir_ l) v = Segment.truncated (Segment.recovery_ s) /\
      Segment.next_offset_ s = (batches_at d (Log.dir_ l) v).2
  end.
Proof.
  intros G M Bv Hv Ad. apply add_segment_spec in Ad as [K R]; [|done|done|done|done].
  split; [eapply kept_weaken; [|exact K]; intros p Hp; apply Hp; by apply list_elem_of_singleton|].
  fold (batches_at d (Log.dir_ l) v) in R. destruct (batches_at d (Log.dir_ l) v) as [bs next] eqn:Bt.
  destruct st as [u|e]; [|by destruct R]. destruct R as (s & -> & Sa & Tr & Fi & St). exists s.
  split_and!; [done | | unfold torn_at; by rewrite Bt | apply Sa].
  constructor; [|constructor]. simpl. rewrite Bt. by split_and!.
Qed.

Definition follows (next : Z) (vs : list Z) : bool := match vs with w :: _ => w =? next | [] => true end.

Lemma surviving_cons (d : D) dir v vs :
  surviving d dir (v :: vs) = (v, (batches_at d dir v).1) ::
    (if torn_at d dir v then [] else if follows (batches_at d dir v).2 vs then surviving d dir vs else []).
Proof. simpl. by destruct vs. Qed.

Lemma recover_loop_cons v vs l (d : D) :
  Log.recover_loop (v :: vs) l d =
  if negb (continues l (v :: vs)) then (Ok (v :: vs), l, d)
  else match Log.add_segment v l d with
       | (fail e, l, d) => (fail e, l, d)
       | (Ok _, l, d) =>
           let r := Segment.recovery_ (Log.back (Log.segments_ l)) in
           if Segment.truncated r then (Ok vs, Log.note_opened r l, d)
           else Log.recover_loop vs (Log.note_opened r l) d
       end.
Proof. unfold continues. simpl. by destruct (Log.segments_ l). Qed.

Lemma recover_loop_spec vs : forall l (d : D) r l' d',
  Disk.good d -> Log.segment_max_bytes (Log.options_ l) < 2 ^ 32 -> StronglySorted Z.lt vs -> Forall bounded vs ->
  Forall (honest_at d (Log.dir_ l)) vs -> Log.recover_loop vs l d = (r, l', d') ->
  same_settings l l' /\
  match r with
  | fail _ => kept (not_log_of (Log.dir_ l) vs) d d'
  | Ok rest =>
      let sv := if continues l vs then surviving d (Log.dir_ l) vs else [] in
      kept (not_log_of (Log.dir_ l) sv.*1) d d' /\ sv.*1 ++ rest = vs /\
      exists segs, Log.segments_ l' = Log.segments_ l ++ segs /\ opened_run d d' l segs sv
  end.
Proof.
  assert (forall (l : Log.t) (d : D) (ws : list Z), Disk.good d -> kept (not_log_of (Log.dir_ l) []) d d /\ [] ++ ws = ws /\
    exists segs, Log.segments_ l = Log.segments_ l ++ segs /\ opened_run d d l segs []) as Stop.
  { intros l d ws G. split_and!; [by apply kept_refl | done |]. exists []. rewrite app_nil_r. split; [done | constructor]. }
  induction vs as [|v vs IH]; intros l d r l' d' G M Hs Hb Hh.
  { intros [= <- <- <-]. split; [done|]. replace (continues l []) with true by (unfold continues; by destruct (Log.segments_ l)).
    by apply Stop. }
  rewrite recover_loop_cons, surviving_cons. destruct (continues l (v :: vs)) eqn:Ct; simpl negb; cbv iota.
  2:{ intros [= <- <- <-]. split; [done|]. by apply Stop. }
  apply Forall_cons in Hb as [Bv Hb]. apply Forall_cons in Hh as [Hv Hh]. apply StronglySorted_inv in Hs as [Hs Hlt].
  assert (v ∉ vs) as Hnin by (intros Hin; rewrite Forall_forall in Hlt; specialize (Hlt v Hin); lia).
  destruct (Log.add_segment v l d) as [[st l1] d1] eqn:Ad.
  apply recover_turn in Ad as [K R]; [|done|done|done|done]. destruct st as [u|e].
  2:{ subst l1. intros [= <- <- <-]. split; [done|]. eapply kept_weaken; [|exact K]. intros p Hp w Hw.
      apply Hp. apply list_elem_of_singleton in Hw as ->. by left. }
  destruct R as (s & -> & Run & -> & Nx). cbn [Log.segments_ set]. rewrite back_snoc. cbv zeta.
  destruct (Segment.truncated _).
  { intros [= <- <- <-]. split; [done|]. split_and!; [done | done |]. exists [s]. by split. }
  set (l2 := Log.note_opened _ _). assert (same_settings l l2) as Ss by done.
  assert (Forall (fun w => not_log_of (Log.dir_ l) [v] (log_path (Log.dir_ l) w)) vs) as Out.
  { apply Forall_forall. intros w Hw. rewrite Forall_forall in Hb. apply log_path_out; [by apply Hb | by constructor|].
    intros ->%list_elem_of_singleton. done. }
  intros Lp. apply IH in Lp as [Ss2 R]; [| apply K | done | done | done |].
  2:{ rewrite Forall_forall in Hh |- *. intros w Hw. eapply honest_kept; [exact K | | |by apply Hh].
      - rewrite Forall_forall in Out. by apply Out.
      - intros x _ E. by apply (log_index_path (Log.dir_ l) x w). }
  split; [done|]. change (Log.dir_ l2) with (Log.dir_ l) in *. destruct r as [rest|e].
  2:{ eapply kept_trans; [|exact K|exact R]. intros p Hp. apply not_log_cons in Hp as [? ?].
      split; [|done]. by intros w ->%list_elem_of_singleton. }
  rewrite (surviving_kept _ _ _ _ _ K Out) in R.
  replace (continues l2 vs) with (follows (batches_at d (Log.dir_ l) v).2 vs) in R.
  2:{ unfold continues, l2. simpl. destruct (Log.segments_ l ++ [s]) eqn:X; [by destruct (Log.segments_ l)|].
      rewrite <- X, back_snoc, Nx. by destruct vs. }
  set (sv := if follows _ _ then _ else _) in *. destruct R as (K2 & Ev & segs & Es & Run2).
  assert (Forall bounded sv.*1 /\ (forall w, w ∈ sv.*1 -> w ∈ vs)) as [Bs Vn].
  { rewrite <- Ev in Hb |- *. split; [by apply Forall_app in Hb as [? _]|]. intros w Hw. apply elem_of_app. by left. }
  split_and!.
  - eapply kept_trans; [|exact K|exact K2]. intros p Hp. apply not_log_cons in Hp as [? ?].
    split; [|done]. by intros w ->%list_elem_of_singleton.
  - exact (f_equal (cons v) Ev).
  - exists (s :: segs). split; [rewrite Es; simpl; by rewrite <- app_assoc|].
    change (s :: segs) with ([s] ++ segs). change (_ :: sv) with ([(v, (batches_at d (Log.dir_ l) v).1)] ++ sv). apply Forall2_app.
    + eapply opened_run_kept; [exact Run | exact K2 |]. apply Forall_singleton.
      apply log_path_out; [done | done |]. intros Hin. by apply Hnin, Vn.
    + eapply opened_run_from; [exact Run2 | done | exact K |].
      rewrite Forall_forall in Out |- *. intros w Hw. by apply Out, Vn.
Qed.

(** ** The listing *)

(** The segment files of the directory are those at [vs], and nothing else in the listing
    looks like one. *)
Record segment_files (d : D) (dir : chars) (vs : list Z) : Prop := {
  sf_sorted : StronglySorted Z.lt vs;
  sf_bounded : Forall bounded vs;
  sf_files : forall v, 0 <= v < 2 ^ 64 -> is_Some (Disk.files d !! log_path dir v) <-> v ∈ vs;
  sf_listing : forall names d' name v, Disk.list_directory dir d = (Ok names, d') -> name ∈ names ->
    Segment.parse_log_name name = Ok v -> name = Segment.log_name v /\ v ∈ vs }.

Lemma parsed_elem names v : v ∈ Log.parsed names <-> exists name, name ∈ names /\ Segment.parse_log_name name = Ok v.
Proof.
  unfold Log.parsed. rewrite list_elem_of_omap. split; intros (name & Hn & E); exists name; split; try done.
  - destruct (Segment.parse_log_name name); congruence.
  - by rewrite E.
Qed.

Lemma parsed_NoDup names :
  NoDup names -> (forall name v, name ∈ names -> Segment.parse_log_name name = Ok v -> name = Segment.log_name v) ->
  NoDup (Log.parsed names).
Proof.
  induction 1 as [|n names Hn Hd IH]; intros Hp; [constructor|]. unfold Log.parsed. simpl.
  assert (NoDup (Log.parsed names)) as Nd.
  { apply IH. intros m v Hm. apply Hp, elem_of_cons. by right. }
  destruct (Segment.parse_log_name n) as [v|e] eqn:E; [|done]. apply NoDup_cons. split; [|done].
  intros Hin. change (v ∈ Log.parsed names) in Hin. apply parsed_elem in Hin as (m & Hm & Em).
  apply Hp in E; [|apply elem_of_cons; by left]. apply Hp in Em; [|apply elem_of_cons; by right]. congruence.
Qed.

Lemma digits_slash n : forall v, slash ∉ digits n v.
Proof.
  induction n as [|n IH]; intros v; simpl; [apply not_elem_of_nil|]. apply not_elem_of_app. split; [apply IH|].
  intros E%list_elem_of_singleton. apply (f_equal (fun c => Z.of_nat (nat_of_ascii c))) in E.
  rewrite digit_code in E by (apply Z.mod_pos_bound; lia).
  change (Z.of_nat (nat_of_ascii slash)) with 47 in E. pose proof (Z.mod_pos_bound v 10 ltac:(lia)). lia.
Qed.

Lemma log_name_slash v : 0 <= v -> (slash ∉ Segment.log_name v) /\ Segment.log_name v <> [].
Proof.
  intros Hv. unfold Segment.log_name. rewrite offset_to_name_spec by done. split.
  - apply not_elem_of_app. split; [apply digits_slash|]. vm_compute.
    intros E. repeat (apply elem_of_cons in E as [E | E]; [discriminate|]). by apply elem_of_nil in E.
  - intros E. apply (f_equal length) in E. rewrite length_app, length_digits in E. simpl in E. lia.
Qed.

Lemma existing_spec (d : D) l vs r d' :
  Disk.good d -> Disk.dir_path (Log.dir_ l) -> segment_files d (Log.dir_ l) vs ->
  Log.existing_segment_offsets l d = (r, d') -> Disk.same d d' /\ forall bases, r = Ok bases -> bases = vs.
Proof.
  intros G Hd [Ss Sb Sf Sl]. unfold Log.existing_segment_offsets.
  destruct (Disk.list_directory _ d) as [[names|e] d1] eqn:Ld;
    pose proof (Disk.list_directory_law _ _ _ _ G Hd Ld) as [Sm Nl]; intros [= <- <-]; (split; [done|]);
    intros bases [= <-].
  destruct (Nl names eq_refl) as [Nd Lst].
  assert (StronglySorted Z.le vs) as Sle.
  { clear -Ss. induction Ss as [|v vs _ IH Hv]; constructor; [done|]. eapply Forall_impl; [exact Hv|]. simpl. lia. }
  assert (NoDup vs) as Nv.
  { clear -Ss. induction Ss as [|v vs _ IH Hv]; constructor; [|done]. intros Hin.
    rewrite Forall_forall in Hv. specialize (Hv v Hin). lia. }
  eapply (StronglySorted_unique Z.le); [apply StronglySorted_merge_sort; apply _ | done |].
  rewrite merge_sort_Permutation. apply NoDup_Permutation; [| done |].
  - apply parsed_NoDup; [done|]. intros name v Hn Hp. by eapply Sl.
  - intros v. rewrite parsed_elem. split; [intros (name & Hn & Hp); by eapply Sl|].
    intros Hv. rewrite Forall_forall in Sb. destruct (Sb v Hv). exists (Segment.log_name v).
    rewrite parse_log_name_spec by lia. split; [|done].
    destruct (log_name_slash v ltac:(lia)). apply Lst; [done | done |]. apply (Sf v); [lia | done].
Qed.

(** ** What is discarded *)

Lemma discard_spec rest : forall l (d : D) l' d',
  Disk.good d -> Forall bounded rest -> foldl (fun ld base => Log.discard base ld) (l, d) rest = (l', d') ->
  same_settings l l' /\ Log.segments_ l' = Log.segments_ l /\
  kept (fun p => forall v, v ∈ rest -> ~ segment_file (Log.dir_ l) v p) d d' /\
  (Disk.removes D -> forall v, v ∈ rest -> Disk.files d' !! log_path (Log.dir_ l) v = None).
Proof.
  induction rest as [|w rest IH]; intros l d l' d' G Hb; simpl.
  { intros [= <- <-]. split_and!; [done | done | by apply kept_refl | by intros _ v ?%elem_of_nil]. }
  apply Forall_cons in Hb as [Hw Hb]. destruct (remove_segment_spec d (Log.dir_ l) w G) as [K1 R1].
  intros E. apply IH in E as (Ss & Es & K2 & R2); [|apply K1|done]. cbn [Log.dir_ Log.segments_ set] in *.
  split_and!; [done | done | |].
  - eapply kept_trans; [|exact K1|exact K2]. intros p Hp.
    split; [apply Hp, elem_of_cons; by left | intros v Hv; apply Hp, elem_of_cons; by right].
  - intros Sd v Hv. destruct (decide (v ∈ rest)) as [|Hn]; [by apply R2|].
    apply elem_of_cons in Hv as [-> | Hv]; [|done]. rewrite <- (R1 Sd). apply (kp_files _ _ _ K2).
    intros x Hx [E | E]; [|by apply log_index_path in E].
    rewrite Forall_forall in Hb. specialize (Hb x Hx). unfold bounded in *.
    apply log_path_inj in E; [by subst | lia | lia].
Qed.

(** ** The open log *)

(** The survivors make a log: each continues the one before it, and only the last is empty. *)
Lemma surviving_closed (d d' : D) l vs : forall segs,
  StronglySorted Z.lt vs -> vs <> [] -> opened_run d d' l segs (surviving d (Log.dir_ l) vs) ->
  exists init active bss bs base next, segs = init ++ [active] /\ (surviving d (Log.dir_ l) vs).*2 = bss ++ [bs] /\
    closed d' (Log.dir_ l) (seg_options l) init bss (hd 0 vs) base /\
    seg_at d' (Log.dir_ l) (seg_options l) active bs base next.
Proof.
  induction vs as [|v vs IH]; intros segs Hs Hne R; [done|]. apply StronglySorted_inv in Hs as [Hs Hlt].
  rewrite surviving_cons in *. apply Forall2_cons_inv_r in R as (s & segs' & (S & _) & R & ->).
  cbn [fst snd] in S. set (bs := (batches_at d (Log.dir_ l) v).1) in *. set (next := (batches_at d (Log.dir_ l) v).2) in *.
  assert (forall tl : list (Z * list (list Z)), tl = [] -> opened_run d d' l segs' tl ->
    exists init active bss cs base nx, s :: segs' = init ++ [active] /\ ((v, bs) :: tl).*2 = bss ++ [cs] /\
    closed d' (Log.dir_ l) (seg_options l) init bss (hd 0 (v :: vs)) base /\
    seg_at d' (Log.dir_ l) (seg_options l) active cs base nx) as Only.
  { intros tl -> R'. apply Forall2_nil_inv_r in R' as ->. exists [], s, [], bs, v, next. by split_and!. }
  destruct (torn_at _ _ v); [by apply Only|]. destruct (follows next vs) eqn:Fo; [|by apply Only].
  destruct vs as [|w vs]; [by apply Only|]. simpl in Fo. apply Z.eqb_eq in Fo.
  destruct (IH segs' Hs ltac:(done) R) as (init & active & bss & cs & base & nx & -> & E & C & Sa).
  exists (s :: init), active, (bs :: bss), cs, base, nx. split_and!; [done | cbn [fmap list_fmap snd]; by rewrite E | | done].
  simpl in C |- *. exists w. split_and!; [by rewrite Fo | | done]. intros Eb.
  apply seg_at_bounds in S as (_ & _ & _ & _ & Ch & _). rewrite Eb in Ch. simpl in Ch.
  apply Forall_cons in Hlt as [Hw _]. lia.
Qed.

Lemma opened_run_bases (d d' : D) l segs sv : opened_run d d' l segs sv -> Segment.base_offset_ <$> segs = sv.*1.
Proof.
  induction 1 as [|s [v bs] segs sv (S & _) _ IH]; [done|]. rewrite !fmap_cons, IH. simpl in *.
  by rewrite (sa_base _ _ _ _ _ _ _ S).
Qed.

(** No segment file but the log's own. *)
Definition sole (d : D) (l : Log.t) : Prop :=
  forall v, 0 <= v < 2 ^ 64 -> is_Some (Disk.files d !! log_path (Log.dir_ l) v) -> v ∈ bases l.

Lemma sole_clear (d : D) l : sole d l -> clear d l.
Proof.
  intros So v Hv Hn. unfold found_bytes. destruct (Disk.files d !! log_path (Log.dir_ l) v) eqn:E; [|done].
  destruct Hn. apply So; [done | eauto].
Qed.

(** Which files an open log stands on. *)
Record grounded (d0 d : D) (l : Log.t) (sv : list (Z * list (list Z))) (bss : list (list (list Z))) (bs : list (list Z))
    (base : Z) : Prop := {
  gr_inv : log_inv d l bss bs base;
  gr_content : concat bss ++ bs = concat sv.*2;
  gr_run : sv = [] /\ bss = [] /\ bs = [] /\ base = 0 /\ Disk.files d !! log_path (Log.dir_ l) 0 = Some [] \/
    opened_run d0 d l (Log.segments_ l) sv /\ sv.*2 = bss ++ [bs];
  gr_sole : Disk.removes D -> sole d l }.

Lemma log_path_other dir v rest :
  0 <= v < 2 ^ 64 -> Forall bounded rest -> v ∉ rest ->
  forall w, w ∈ rest -> ~ segment_file dir w (log_path dir v).
Proof.
  intros Hv Hb Hn w Hw [E | E]; [|by apply log_index_path in E].
  rewrite Forall_forall in Hb. specialize (Hb w Hw). unfold bounded in Hb.
  apply log_path_inj in E; [by subst | lia | lia].
Qed.

Lemma sorted_disjoint xs ys v : StronglySorted Z.lt (xs ++ ys) -> v ∈ xs -> v ∉ ys.
Proof.
  induction xs as [|x xs IH]; intros Sx Hx Hy; [by apply elem_of_nil in Hx|].
  apply StronglySorted_inv in Sx as [Sx Hl]. apply elem_of_cons in Hx as [-> | Hx]; [|by apply IH].
  rewrite Forall_forall in Hl. assert (x < x); [|lia]. apply Hl, elem_of_app. by right.
Qed.

(** The segments are open, the discarded ones removed: the fields that are left. *)
Lemma recover_fields (d d2 d3 : D) l l2 l3 vs rest segs :
  Disk.good d -> Log.segment_max_bytes (Log.options_ l) < 2 ^ 32 -> segment_files d (Log.dir_ l) vs -> vs <> [] ->
  let sv := surviving d (Log.dir_ l) vs in
  kept (not_log_of (Log.dir_ l) sv.*1) d d2 -> sv.*1 ++ rest = vs -> opened_run d d2 l segs sv ->
  same_settings l l2 -> Log.segments_ l2 = segs ->
  foldl (fun ld base => Log.discard base ld) (l2, d2) rest = (l3, d3) ->
  Log.dir_ l3 = Log.dir_ l /\ Log.options_ l3 = Log.options_ l /\ Log.segments_ l3 = segs /\ segs <> [] /\
  exists bss bs base, grounded d d3
    (l3 <| Log.start_offset_ := Segment.base_offset_ (Log.front (Log.segments_ l3)) |>
        <| Log.next_offset_ := Segment.next_offset_ (Log.back (Log.segments_ l3)) |>) sv bss bs base.
Proof.
  intros G M [Ss Sb Sf _] Hne sv K Ev Run St Es Di. destruct St as (T1 & T2 & _).
  rewrite <- Ev in Sb. apply Forall_app in Sb as [Sb Rb].
  apply discard_spec in Di as ((U1 & U2 & _) & Es3 & K3 & Rm); [|apply K|done]. rewrite T1 in *.
  assert (forall v, v ∈ sv.*1 -> v ∉ rest) as Dj.
  { intros v. rewrite <- Ev in Ss. by apply (sorted_disjoint _ _ v). }
  assert (opened_run d d3 l segs sv) as Run3.
  { eapply opened_run_kept; [exact Run | exact K3 |]. apply Forall_forall. intros v Hv.
    apply log_path_other; [|done|by apply Dj]. rewrite Forall_forall in Sb. specialize (Sb v Hv). unfold bounded in Sb. lia. }
  destruct (surviving_closed _ _ _ _ _ Ss Hne Run3) as (init & active & bss & bs & base & next & -> & E2 & C & Sa).
  pose proof (opened_run_bases _ _ _ _ _ Run3) as Bs.
  set (l' := _ <| Log.next_offset_ := _ |>). assert (Log.segments_ l' = init ++ [active]) as El by (unfold l'; simpl; congruence).
  assert (Log.dir_ l' = Log.dir_ l /\ seg_options l' = seg_options l /\ Log.options_ l' = Log.options_ l) as (Ed & Eo & Eo').
  { unfold l', seg_options. simpl. rewrite U1, U2, T2. done. }
  assert (Log.start_offset_ l' = hd 0 vs) as Est.
  { unfold l'. simpl. rewrite Es3, Es. destruct vs as [|v vs]; [done|].
    unfold sv in Bs. rewrite surviving_cons in Bs. unfold Log.front.
    destruct (init ++ [active]) as [|s0 ?]; [done|]. simpl in *. congruence. }
  split_and!; [congruence | congruence | congruence | by destruct init |]. exists bss, bs, base. split.
  - split; [apply K3 | | by rewrite Eo']. exists init, active. rewrite Ed, Eo, Est. split_and!; [done | done |].
    replace (Log.next_offset_ l') with next; [done|].
    unfold l'. simpl. rewrite Es3, Es, back_snoc. symmetry. apply Sa.
  - unfold sv. rewrite E2, concat_app. simpl. by rewrite app_nil_r.
  - right. split; [|done]. rewrite El. unfold opened_run in *. by rewrite Ed, Eo.
  - intros Sd v Hv [b Hb]. unfold bases. rewrite El, Bs. rewrite Ed in Hb.
    destruct (decide (v ∈ sv.*1)) as [|Hn]; [done|]. exfalso.
    destruct (decide (v ∈ rest)) as [Hr|Hr]; [by rewrite (Rm Sd v Hr) in Hb|].
    rewrite (kp_files _ _ _ K3) in Hb by (by apply log_path_other).
    rewrite (kp_files _ _ _ K) in Hb.
    + assert (v ∈ vs) as Hin by (apply Sf; [done | eauto]). rewrite <- Ev in Hin. by apply elem_of_app in Hin as [|].
    + intros w Hw E. rewrite Forall_forall in Sb. specialize (Sb w Hw). unfold bounded in Sb.
      apply log_path_inj in E; [by rewrite E in Hn | lia | lia].
Qed.

(** What [open] makes of a directory without segments. *)
Lemma recover_fresh (d d2 d3 : D) l l2 l3 u :
  segment_files d (Log.dir_ l) [] -> Log.segment_max_bytes (Log.options_ l) < 2 ^ 32 ->
  kept (not_log_of (Log.dir_ l) []) d d2 -> same_settings l l2 -> Log.segments_ l2 = [] ->
  Log.add_segment 0 l2 d2 = (Ok u, l3, d3) ->
  Log.dir_ l3 = Log.dir_ l /\ Log.options_ l3 = Log.options_ l /\
  exists s, Log.segments_ l3 = [s] /\ Segment.base_offset_ s = 0 /\ Segment.next_offset_ s = 0 /\
  forall l', Log.segments_ l' = [s] -> Log.dir_ l' = Log.dir_ l -> Log.options_ l' = Log.options_ l ->
    Log.start_offset_ l' = 0 -> Log.next_offset_ l' = 0 -> grounded d d3 l' [] [] [] 0.
Proof.
  intros Sf M K (T1 & T2 & _) Es Ad.
  assert (forall v, 0 <= v < 2 ^ 64 -> Disk.files d2 !! log_path (Log.dir_ l) v = None) as Fn.
  { intros v Hv. rewrite (kp_files _ _ _ K) by (by intros w ?%elem_of_nil).
    destruct (Disk.files d !! _) eqn:X; [|done]. assert (v ∈ @nil Z) as Hin; [|by apply elem_of_nil in Hin].
    apply (sf_files _ _ _ Sf); [lia | eauto]. }
  assert (found_bytes d2 (log_path (Log.dir_ l) 0) = []) as Em by (unfold found_bytes; by rewrite Fn).
  unfold bases, seg_options in *. rewrite <- T1 in *.
  apply add_segment_spec in Ad as [K3 R]; [|apply K|by rewrite T2|done|by apply honest_empty; [apply K|]].
  rewrite Em in R. change (valid_batches 0 []) with (@nil (list Z), 0) in R.
  destruct R as (s & -> & Sa & _ & Fi & _). simpl. split_and!; [done | done |].
  exists s. rewrite Es. split_and!; [done | apply Sa | apply Sa |]. intros l' E1 E2 E3 E4 E5.
  assert (seg_options l' = seg_options l2) as Eo by (unfold seg_options; congruence).
  split; [split; [apply K3 | | by rewrite E3] | done | left; by rewrite E2 |].
  - exists [], s. rewrite E1, E2, E4, E5, Eo. by split_and!.
  - intros Sd v Hv [b Hb]. unfold bases. rewrite E1. simpl. rewrite (sa_base _ _ _ _ _ _ _ Sa).
    apply list_elem_of_singleton. destruct (decide (v = 0)) as [|Hv0]; [done|]. exfalso. rewrite E2 in Hb.
    rewrite (kp_files _ _ _ K3), Fn in Hb; [done | done |]. intros X. apply log_path_inj in X; lia.
Qed.

Lemma log_recover_spec (d : D) l vs r l' d' :
  Disk.good d -> Disk.dir_path (Log.dir_ l) -> Log.segment_max_bytes (Log.options_ l) < 2 ^ 32 ->
  Log.segments_ l = [] -> segment_files d (Log.dir_ l) vs ->
  Forall (honest_at d (Log.dir_ l)) vs -> Log.recover l d = (r, l', d') -> r = Ok tt ->
  Log.dir_ l' = Log.dir_ l /\ Log.options_ l' = Log.options_ l /\
  exists bss bs base, grounded d d' l' (surviving d (Log.dir_ l) vs) bss bs base.
Proof.
  intros G Hd M E Sf Hh. unfold Log.recover.
  destruct (Log.existing_segment_offsets l d) as [rb d1] eqn:Ex.
  apply (existing_spec _ _ vs) in Ex as [S1 Eb]; [|done|done|done].
  destruct rb as [bs0|e]; [|by intros [= <- <- <-]]. rewrite (Eb bs0 eq_refl). clear Eb bs0.
  pose proof (same_kept (fun _ => True) _ _ S1) as K1.
  destruct (Log.recover_loop vs l d1) as [[rl l2] d2] eqn:Lp.
  apply recover_loop_spec in Lp as [Ss R]; [|apply S1|done|apply Sf|apply Sf|].
  2:{ eapply Forall_impl; [exact Hh|]. intros v Hv. by eapply honest_kept. }
  destruct rl as [rest|e]; [|by intros [= <- <- <-]].
  replace (continues l vs) with true in R by (unfold continues; by rewrite E).
  rewrite (surviving_kept _ _ _ _ _ K1) in R by (by apply Forall_true). destruct R as (K2 & Ev & segs & Es & Run).
  rewrite E in Es. simpl in Es.
  apply (opened_run_from (fun _ => True) d _ _ l) in Run; [|done|done|by apply Forall_true].
  assert (kept (not_log_of (Log.dir_ l) (surviving d (Log.dir_ l) vs).*1) d d2) as K02.
  { eapply kept_trans; [|exact K1|exact K2]. done. }
  destruct (foldl _ (l2, d2) rest) as [l3 d3] eqn:Di.
  destruct (decide (vs = [])) as [->|Hne].
  - simpl in *. subst rest. apply Forall2_nil_inv_r in Run as ->. injection Di as <- <-. rewrite Es.
    destruct (Log.add_segment 0 l2 d2) as [[[u|e] l4] d4] eqn:Ad; [|by intros [= <- <- <-]].
    destruct (recover_fresh _ _ _ _ _ _ _ Sf M K02 Ss Es Ad) as (D4 & O4 & s & Es4 & Eb & En & Gr).
    intros [= <- <- <-] _. split_and!; [done | done |]. exists [], [], 0.
    apply Gr; simpl; rewrite ?Es4; (done || congruence).
  - destruct (recover_fields _ _ _ _ _ _ _ _ _ G M Sf Hne K02 Ev Run Ss Es Di)
      as (D3 & O3 & Es3 & Hs & bss & bs & base & Gr).
    destruct (Log.segments_ l3) as [|s ss] eqn:X; [congruence|].
    intros [= <- <- <-] _. split_and!; [done | done |]. exists bss, bs, base. rewrite <- X in Gr. exact Gr.
Qed.

Lemma open_grounded (d : D) dir options vs l d' :
  Disk.good d -> Disk.dir_path dir -> Log.segment_max_bytes options < 2 ^ 32 ->
  segment_files (Disk.make_directories dir d).2 dir vs -> Forall (honest_at d dir) vs ->
  Log.open dir options d = (Ok l, d') ->
  Log.dir_ l = dir /\ Log.options_ l = options /\
  exists bss bs base, grounded d d' l (surviving d dir vs) bss bs base.
Proof.
  intros G Hd M Sf Hh. unfold Log.open.
  destruct (Disk.make_directories dir d) as [[u|e] d1] eqn:Mk; [|done]. simpl in Sf.
  pose proof (same_kept (fun _ => True) _ _ (Disk.make_directories_law _ _ _ _ G Mk)) as K.
  destruct (Log.recover _ d1) as [[[[]|e] l1] d2] eqn:R; [|done]. intros [= <- <-].
  apply (log_recover_spec _ _ vs) in R as (E1 & E2 & bss & bs & base & [I Ct Rn So]); try done; [|apply K|].
  2:{ eapply Forall_impl; [exact Hh|]. intros v Hv. by eapply honest_kept. }
  simpl in *. rewrite (surviving_kept _ _ _ _ _ K) in * by (by apply Forall_true).
  split_and!; [done | done |]. exists bss, bs, base. split; [done | done | | done].
  destruct Rn as [Rn | [Rn E3]]; [by left | right]. split; [|done]. eapply opened_run_from; [exact Rn | done | exact K | by apply Forall_true].
Qed.

End Recovery.
