(* ===== verification/LogDurable.v ===== *)
(** * Durability of the partition log

    On a disk with whole writes, the log's files hold its batches and nothing else, every
    closed segment is on the platter, and what an [fsync] confirmed stays a prefix of what
    any later [open] recovers. *)
From S2P Require Import Prelude Base RecordBatch SparseIndex Disk Segment.
From S2P Require Import Chain SegmentFacts SegmentProps Log LogFacts LogRecovery.

Section Durable.
#[local] Set Default Proof Using "Type*".
Context {D : Type} `{DL : Disk.laws D} `{SD : !Disk.steady D}.

(** ** Segments on a steady disk *)

Lemma decode_at_zero ib : bytes_ok ib -> SparseIndex.decode ib 0 = [].
Proof.
  intros Hi. unfold SparseIndex.decode. destruct (Z.to_nat _) as [|n]; simpl; [done|].
  by rewrite (proj2 (Z.leb_le _ _)) by (by apply load_u32_range).
Qed.

(** A segment that fails to open leaves no file behind where there was none. *)
Lemma seg_open_absent (d d' : D) dir v o e :
  Disk.good d -> 0 <= Segment.max_bytes o -> Disk.files d !! log_path dir v = None ->
  Segment.open dir v o d = (fail e, d') -> Disk.files d' !! log_path dir v = None.
Proof.
  intros G M F. unfold Segment.open. cbn [Segment.log_path_].
  change (join dir (Segment.log_name v)) with (log_path dir v).
  change (join dir (Segment.index_name v)) with (index_path dir v).
  destruct (Disk.open _ _ d) as [[f|e1] d1] eqn:O;
    pose proof (Disk.open_law _ _ _ _ _ G (log_path_file dir v) O) as L.
  2:{ unfold Segment.destroy. cbn [Segment.log_file_]. rewrite Z.eqb_refl. intros [= <- <-].
      by rewrite (proj1 (proj2 L)). }
  destruct (open_opened _ _ _ _ _ G (log_path_file dir v) O) as (G1 & b & Hb & [Hw | [_ ->]]); [congruence|].
  pose proof (Disk.steady_size d1 f _ _ G1 Hb) as Sz.
  set (seg := Segment.mk _ _ _ _ _ _ _ _ _). destruct (Segment.recover _ d1) as [[[u|e2] s2] d2] eqn:R; [done|].
  exfalso. unfold Segment.recover in R. cbn [Segment.log_file_ Segment.options_ Segment.index_path_ Segment.index_ set] in R.
  destruct (Disk.size f d1) as [r3 d3] eqn:Es. simpl in Sz. subst r3. change (zlen []) with 0 in R.
  destruct (Disk.size_law _ _ _ _ _ _ G1 Hb Es) as [S3 _].
  rewrite (proj2 (Z.ltb_ge _ _)) in R by done. change (u32 0) with 0 in R.
  destruct (Segment.read_index _ 0 _ d3) as [ix d4] eqn:Ri.
  apply read_index_spec in Ri as [S4 Ei]; [|apply S3|apply index_path_file].
  assert (ix = []) as ->.
  { destruct Ei as [-> | (ib & Hib & ->)]; [done|]. apply decode_at_zero.
    by eapply Disk.file_bytes; [apply S3|]. }
  simpl in R. done.
Qed.

Lemma seg_append_exact (d d' : D) s bs framed h r s' :
  seg_inv d s bs -> bytes_ok framed -> is_batch framed h ->
  Disk.files d !! Segment.log_path_ s = Some (cat bs) -> Segment.append framed h s d = (r, s', d') ->
  Disk.files d' !! Segment.log_path_ s = Some (cat (match r with Ok _ => bs ++ [framed] | fail _ => bs end)).
Proof.
  intros [[W1 W2 W3 W4 W5 W6] (rest & Ho) _ _ _] Hb B F. unfold Segment.append.
  pose proof (is_batch_size _ _ B) as L. unfold kMaxBatchBytes in L.
  destruct (negb _); [intros [= <- <- <-]; done|]. destruct (_ <? zlen framed); [intros [= <- <- <-]; done|].
  assert (rest = []) as ->.
  { destruct Ho as [_ Ho]. rewrite F in Ho. injection Ho as Ho. by apply (app_inv_head (cat bs)); rewrite app_nil_r. }
  rewrite app_nil_r in Ho. assert (0 <= Segment.size_bytes_ s < 2 ^ 64) as Hs.
  { rewrite W4. split; [apply zlen_nonneg | by apply (Disk.file_bytes d _ _ W1 F)]. }
  destruct (Disk.pwrite _ _ _ d) as [w d1] eqn:Wr.
  pose proof (Disk.steady_pwrite _ _ _ _ _ _ _ _ W1 Ho Hs Hb ltac:(lia) Wr) as Sp.
  destruct w as [n|e]; [|intros [= <- <- <-]; by rewrite (proj1 (proj2 Sp))]. subst n. rewrite Z.eqb_refl.
  eapply Disk.pwrite_law in Wr as [(e & [=] & _) | (k & _ & _ & F' & _ & Rk)]; eauto; [|pow2; lia..].
  specialize (Rk _ eq_refl). subst k.
  rewrite W4, ztake_ge in F' by lia. pose proof (overwrite_behind (cat bs) [] framed) as Ow.
  unfold zdrop in Ow. rewrite drop_nil, !app_nil_r in Ow. rewrite Ow in F'.
  intros [= <- <- <-]. rewrite F', concat_app. simpl. by rewrite app_nil_r.
Qed.

(** ** Logs on a steady disk *)

(** The file of the segment at [v] holds [cs], to its end and on the platter. *)
Definition sealed (d : D) (dir : chars) (v : Z) (cs : list (list Z)) : Prop :=
  Disk.files d !! log_path dir v = Some (cat cs) /\ Disk.settled d (log_path dir v) (cat cs).

Record sound (d : D) (l : Log.t) (bss : list (list (list Z))) (bs : list (list Z)) (base : Z) : Prop := {
  so_inv : log_inv d l bss bs base;
  so_sealed : exists vs, bases l = vs ++ [base] /\ Forall2 (sealed d (Log.dir_ l)) vs bss;
  so_active : Disk.files d !! log_path (Log.dir_ l) base = Some (cat bs);
  so_sole : sole d l }.

(** The log holds [all], and [synced] of it is on the platter. *)
Definition standing (d : D) (l : Log.t) (all synced : list (list Z)) : Prop :=
  exists bss bs base sbs, all = concat bss ++ bs /\ sound d l bss bs base /\ sbs `prefix_of` bs /\
    (sbs = [] \/ Disk.settled d (log_path (Log.dir_ l) base) (cat sbs)) /\ synced `prefix_of` concat bss ++ sbs.

Lemma standing_holds (d : D) l all xs : standing d l all xs -> holds d l all.
Proof.
  intros (bss & bs & base & sbs & E & [I _ _ So] & _). exists bss, bs, base. split_and!; [done | done |].
  by apply sole_clear.
Qed.

Lemma base_bounds (d : D) l bss bs base :
  log_inv d l bss bs base -> 0 <= base < 2 ^ 64 /\ base <= Log.next_offset_ l < 2 ^ 64 /\ (bs <> [] -> base < Log.next_offset_ l).
Proof.
  intros [_ (segs & active & _ & _ & S) _]. apply seg_at_bounds in S as (? & ? & ? & ? & _). split_and!; (done || lia).
Qed.

Lemma bases_below (d : D) l bss bs base vs :
  log_inv d l bss bs base -> bases l = vs ++ [base] -> Forall (fun v => 0 <= v < base) vs.
Proof.
  intros [_ (segs & active & E & C & S) _] Eb. unfold bases in Eb. rewrite E, fmap_app in Eb.
  apply app_inj_2 in Eb as [<- _]; [|done]. apply Forall_forall. intros v Hv.
  pose proof (bases_lt _ _ _ _ _ _ _ _ C Hv) as Hb. destruct segs as [|s segs]; [by apply elem_of_nil in Hv|].
  apply closed_le in C as [_ C]. specialize (C ltac:(done)). lia.
Qed.

Lemma sealed_kept P (d d' : D) dir vs bss :
  Forall2 (sealed d dir) vs bss -> kept P d d' -> Forall (fun v => P (log_path dir v)) vs -> Forall2 (sealed d' dir) vs bss.
Proof.
  intros Hs K. induction Hs as [|v cs vs bss [F S] _ IH]; intros HP; constructor; apply Forall_cons in HP as [Hv HP]; auto.
  split; [by rewrite (kp_files _ _ _ K) | by apply (kp_settled _ _ _ K)].
Qed.

Lemma sound_kept (d d' : D) l bss bs base :
  sound d l bss bs base -> kept (log_file_of (Log.dir_ l)) d d' -> sound d' l bss bs base.
Proof.
  intros [I (vs & Eb & Se) Ac So] K. pose proof (base_bounds _ _ _ _ _ I) as (Hb & _).
  assert (forall v, 0 <= v < 2 ^ 64 -> log_file_of (Log.dir_ l) (log_path (Log.dir_ l) v)) as Lf by (by intros v; exists v).
  split; [by eapply log_inv_kept | | |].
  - exists vs. split; [done|]. eapply sealed_kept; [done | done |].
    eapply Forall_impl; [by eapply bases_below|]. intros v Hv. apply Lf. simpl in Hv. lia.
  - by rewrite (kp_files _ _ _ K) by auto.
  - intros v Hv Hf. apply So; [done|]. by rewrite <- (kp_files _ _ _ K) by auto.
Qed.

Lemma standing_kept (d d' : D) l all xs :
  standing d l all xs -> kept (log_file_of (Log.dir_ l)) d d' -> standing d' l all xs.
Proof.
  intros (bss & bs & base & sbs & E & So & Pf & St & Hx) K. exists bss, bs, base, sbs.
  split_and!; [done | by eapply sound_kept | done | | done].
  destruct St as [St | St]; [by left | right]. apply (kp_settled _ _ _ K); [|done].
  exists base. split; [by eapply base_bounds, So | done].
Qed.

(** A roll that fails creates nothing. *)
Lemma roll_absent (d : D) l bss bs base e l' d' :
  sound d l bss bs base -> bs <> [] -> Log.roll l d = (fail e, l', d') ->
  Disk.files d' !! log_path (Log.dir_ l) (Log.next_offset_ l) = None.
Proof.
  intros [I _ _ So] N. pose proof (base_bounds _ _ _ _ _ I) as (B1 & B2 & B3). specialize (B3 N).
  assert (Disk.files d !! log_path (Log.dir_ l) (Log.next_offset_ l) = None) as Fn.
  { destruct (Disk.files d !! _) eqn:X; [|done]. destruct (next_fresh _ _ _ _ _ I N). apply So; [lia | eauto]. }
  unfold Log.roll.
  destruct (Segment.fsync _ d) as [st d1] eqn:F1. destruct (Segment.flush_index _ d1) as [r2 d2] eqn:F2.
  destruct (seal_spec _ _ _ _ _ _ _ _ _ I F1 (fun _ => F2)) as [Sy K]. destruct st as [[]|e1].
  2:{ intros [= <- <- <-]. by rewrite (proj1 (proj2 Sy)). }
  destruct (K eq_refl) as [K2 _]. rewrite <- (kp_files _ _ _ K2) in Fn by apply log_index_path.
  destruct r2 as [[]|e2]; [|intros [= <- <- <-]; done].
  unfold Log.add_segment. fold (seg_options l). destruct (Segment.open _ _ _ d2) as [[s|e3] d3] eqn:O; [done|].
  intros [= <- <- <-]. eapply seg_open_absent; [apply K2 | | done | done].
  destruct I as [_ (segs & active & _ & _ & S) _]. destruct S as [[[_ _ _ W _ _] _ Mx _ _] _ _ _ _ Eo].
  rewrite Eo in Mx. pose proof (zlen_nonneg (cat bs)). lia.
Qed.

Lemma sound_roll (d : D) l bss bs base r l' d' :
  sound d l bss bs base -> bs <> [] -> Log.next_offset_ l + 2 ^ 32 <= 2 ^ 64 -> Log.roll l d = (r, l', d') ->
  match r with
  | Ok _ => same_settings l l' /\ Log.next_offset_ l' = Log.next_offset_ l /\ sound d' l' (bss ++ [bs]) [] (Log.next_offset_ l)
  | fail _ => l' = l /\ sound d' l bss bs base /\
      forall b, Disk.settled d (log_path (Log.dir_ l) base) b -> Disk.settled d' (log_path (Log.dir_ l) base) b
  end.
Proof.
  intros Sd N Hn R. pose proof Sd as [I (vs & Eb & Se) Ac So]. pose proof (base_bounds _ _ _ _ _ I) as (B1 & B2 & B3).
  specialize (B3 N). pose proof (bases_below _ _ _ _ _ _ I Eb) as Bl.
  pose proof (roll_spec _ _ _ _ _ _ _ _ I (sole_clear _ _ So) N Hn R) as [K Out].
  set (P := fun p => _) in K.
  assert (forall v, 0 <= v < 2 ^ 64 -> v <> Log.next_offset_ l -> P (log_path (Log.dir_ l) v)) as HP.
  { intros v Hv Hne. split; [|apply log_index_path]. intros E. apply log_path_inj in E; lia. }
  assert (Forall2 (sealed d' (Log.dir_ l)) vs bss) as Se'.
  { eapply sealed_kept; [done | exact K|]. eapply Forall_impl; [exact Bl|]. intros v Hv. simpl in Hv. apply HP; lia. }
  destruct r as [u|e].
  - destruct Out as ((s & ->) & I' & _ & Fi & St). split_and!; [done | done |]. split; [done | | done |].
    + exists (vs ++ [base]). unfold bases in *. simpl. rewrite fmap_app, Eb. split.
      * destruct I' as [_ (segs & active & E & _ & S) _]. simpl in E. apply app_inj_2 in E as [_ [= ->]]; [|done].
        simpl. by rewrite (sa_base _ _ _ _ _ _ _ S).
      * apply Forall2_app; [done|]. constructor; [|constructor]. split; [|done].
        rewrite (kp_files _ _ _ K); [done|]. apply HP; lia.
    + intros v Hv Hf. unfold bases in *. simpl in *. rewrite fmap_app. apply elem_of_app.
      destruct (decide (v = Log.next_offset_ l)) as [->|Hne].
      * right. destruct I' as [_ (segs & active & E & _ & S) _]. simpl in E. apply app_inj_2 in E as [_ [= ->]]; [|done].
        simpl. rewrite (sa_base _ _ _ _ _ _ _ S). by apply list_elem_of_singleton.
      * left. apply So; [done|]. by rewrite <- (kp_files _ _ _ K) by auto.
  - pose proof (roll_absent _ _ _ _ _ _ _ _ Sd N R) as Fn. destruct Out as (-> & I' & _). split; [done|]. split.
    + split; [done | by exists vs | by rewrite (kp_files _ _ _ K) by (apply HP; lia) |].
      intros v Hv Hf. apply So; [done|]. destruct (decide (v = Log.next_offset_ l)) as [->|Hne].
      * rewrite Fn in Hf. by destruct Hf.
      * by rewrite <- (kp_files _ _ _ K) by auto.
    + intros b. apply (kp_settled _ _ _ K). apply HP; lia.
Qed.

Lemma standing_room (d : D) l all xs bytes r l' d' :
  standing d l all xs -> Log.next_offset_ l + 2 ^ 32 <= 2 ^ 64 -> Log.make_room bytes l d = (r, l', d') ->
  standing d' l' all xs /\ Log.next_offset_ l' = Log.next_offset_ l.
Proof.
  intros (bss & bs & base & sbs & -> & Sd & Pf & St & Hx) Hn R.
  pose proof (make_room_spec _ _ _ _ _ _ _ _ _ (so_inv _ _ _ _ _ Sd) (sole_clear _ _ (so_sole _ _ _ _ _ Sd)) Hn R) as X.
  destruct X as [(-> & -> & _) | [Ro N]].
  { split; [|done]. exists bss, bs, base, sbs. by split_and!. }
  pose proof (sound_roll _ _ _ _ _ _ _ _ Sd N Hn Ro) as Out. destruct r as [u|e].
  - destruct Out as (_ & En & Sd'). split; [|done]. exists (bss ++ [bs]), [], (Log.next_offset_ l), [].
    rewrite concat_app. simpl. rewrite !app_nil_r. split_and!; [done | done | done | by left |].
    etrans; [exact Hx|]. destruct Pf as [more ->]. exists more. by rewrite <- app_assoc.
  - destruct Out as (-> & Sd' & Ks). split; [|done]. exists bss, bs, base, sbs. split_and!; try done.
    destruct St as [St | St]; [by left | right; by apply Ks].
Qed.

Lemma standing_store (d : D) l all xs framed h r l' d' :
  standing d l all xs -> bytes_ok framed -> is_batch framed h -> Log.store framed h l d = (r, l', d') ->
  match r with
  | Ok _ => standing d' l' (all ++ [framed]) xs /\ Log.next_offset_ l' = next_offset h /\ base_offset h = Log.next_offset_ l
  | fail _ => l' = l /\ standing d' l all xs
  end.
Proof.
  intros (bss & bs & base & sbs & -> & [I (vs & Eb & Se) Ac So] & Pf & St & Hx) Hb B R.
  pose proof (base_bounds _ _ _ _ _ I) as (B1 & _). pose proof (bases_below _ _ _ _ _ _ I Eb) as Bl.
  assert (Disk.files d' !! log_path (Log.dir_ l) base =
    Some (cat (match r with Ok _ => bs ++ [framed] | fail _ => bs end)) /\ bases l' = bases l) as [Ex Eb'].
  { unfold Log.store in R. destruct I as [_ (segs & active & E & _ & S) _]. unfold bases. rewrite E, back_snoc in *.
    destruct (Segment.append framed h active d) as [[st a'] d1] eqn:Ap.
    pose proof (append_spec _ _ _ _ _ _ _ _ (sa_inv _ _ _ _ _ _ _ S) Hb B Ap) as (_ & _ & Out).
    rewrite <- (sa_log _ _ _ _ _ _ _ S) in *. apply seg_append_exact with (bs := bs) in Ap; [|apply S|done|done|done].
    destruct st as [u|e]; injection R as <- <- <-; (split; [done|]); simpl; rewrite set_back_snoc, !fmap_app; simpl.
    - destruct Out as (_ & _ & _ & -> & _). done.
    - destruct Out as [-> _]. done. }
  apply (store_spec _ _ _ _ _ _ _ _ _ _ I (sole_clear _ _ So) Hb B) in R as (K & Ks & (T1 & _) & _ & Out).
  assert (Forall2 (sealed d' (Log.dir_ l)) vs bss) as Se'.
  { eapply sealed_kept; [done | exact K|]. eapply Forall_impl; [exact Bl|]. intros v Hv E. simpl in Hv.
    apply log_path_inj in E; lia. }
  assert (forall v, 0 <= v < 2 ^ 64 -> is_Some (Disk.files d' !! log_path (Log.dir_ l) v) -> v ∈ bases l) as So'.
  { intros v Hv Hf. destruct (decide (v = base)) as [->|Hne].
    - rewrite Eb. apply elem_of_app. right. by apply list_elem_of_singleton.
    - apply So; [done|]. rewrite <- (kp_files _ _ _ K); [done|]. intros E. apply log_path_inj in E; lia. }
  assert (sbs = [] \/ Disk.settled d' (log_path (Log.dir_ l) base) (cat sbs)) as St'.
  { destruct St as [St | St]; [by left | right]. apply Ks; [done|]. destruct Pf as [more ->].
    rewrite concat_app, zlen_app. pose proof (zlen_nonneg (cat more)). lia. }
  destruct r as [u|e].
  - destruct Out as (E1 & E2 & I'). split_and!; [|done|done]. exists bss, (bs ++ [framed]), base, sbs.
    rewrite T1, app_assoc. split_and!; try done; [|etrans; [exact Pf|]; by exists [framed]].
    split; [done | rewrite T1, Eb'; by exists vs | by rewrite T1 |]. intros v. rewrite T1, Eb'. apply So'.
  - destruct Out as [-> I']. split; [done|]. exists bss, bs, base, sbs. split_and!; try done.
    split; [done | by exists vs | done | done].
Qed.

Lemma standing_fsync (d : D) l all xs r d' :
  standing d l all xs -> Log.fsync l d = (r, d') ->
  standing d' l all xs /\ (r = Ok tt -> standing d' l all all).
Proof.
  intros Sd F. assert (Disk.same d d') as Sm.
  { destruct Sd as (bss & bs & base & sbs & _ & [[_ (segs & active & E & _ & S) _] _ _ _] & _).
    unfold Log.fsync in F. rewrite E, back_snoc in F. by eapply fsync_same; [apply S|]. }
  pose proof (standing_kept _ _ _ _ _ Sd (same_kept _ _ _ Sm)) as Sd'. split; [done|]. intros ->.
  destruct Sd as (bss & bs & base & sbs & -> & So & _). exists bss, bs, base, bs.
  split_and!; try done; [by eapply sound_kept; [|apply same_kept] | right].
  destruct So as [[_ (segs & active & E & _ & S) _] _ _ _]. unfold Log.fsync in F. rewrite E, back_snoc in F.
  rewrite <- (sa_log _ _ _ _ _ _ _ S). by eapply fsync_spec; [apply S|].
Qed.

(** ** Runs *)

Definition offsets_left (l : Log.t) : Prop := Log.next_offset_ l + 2 ^ 32 <= 2 ^ 64.

(** Calls on an open log, and the batches it accepted. *)
Inductive logged : Log.t -> D -> list (list Z) -> Log.t -> D -> Prop :=
  | logged_nothing l d : logged l d [] l d
  | logged_append l d vs meta b r b' l1 d1 acc l' d' :
      offsets_left l -> meta_wf meta -> vs <> [] -> Forall bytes_ok vs ->
      add_records BatchBuilder.new vs = (Ok tt, b) -> Log.append b meta l d = (r, b', l1, d1) ->
      logged l1 d1 acc l' d' ->
      logged l d (match r with Ok o => batch_bytes o meta vs :: acc | fail _ => acc end) l' d'
  | logged_replicated l d framed r l1 d1 acc l' d' :
      offsets_left l -> bytes_ok framed -> Log.append_replicated framed l d = (r, l1, d1) ->
      logged l1 d1 acc l' d' -> logged l d (match r with Ok _ => framed :: acc | fail _ => acc end) l' d'
  | logged_read l d offset n r d1 acc l' d' :
      0 <= n -> Log.read l offset n d = (r, d1) -> logged l d1 acc l' d' -> logged l d acc l' d'
  | logged_fsync l d r d1 acc l' d' :
      Log.fsync l d = (r, d1) -> logged l d1 acc l' d' -> logged l d acc l' d'
  | logged_flush l d r d1 acc l' d' :
      Log.flush_indexes l d = (r, d1) -> logged l d1 acc l' d' -> logged l d acc l' d'.

Lemma room_dir (d : D) l bytes st l' d' : Log.make_room bytes l d = (st, l', d') -> Log.dir_ l' = Log.dir_ l.
Proof.
  unfold Log.make_room, Log.roll, Log.add_segment. intros E. repeat case_match; by simplify_eq.
Qed.

Lemma store_dir (d : D) l framed h st l' d' : Log.store framed h l d = (st, l', d') -> Log.dir_ l' = Log.dir_ l.
Proof. unfold Log.store. intros E. repeat case_match; by simplify_eq. Qed.

Lemma logged_dir l (d : D) acc l' d' : logged l d acc l' d' -> Log.dir_ l' = Log.dir_ l.
Proof.
  induction 1 as [|l d vs meta b r b' l1 d1 acc l' d' Ho Hm Hv Hvs Ab E R IH|l d framed r l1 d1 acc l' d' Ho Hb E R IH| | |];
    try done; rewrite IH; clear IH.
  - unfold Log.append in E. destruct (BatchBuilder.empty b); [by simplify_eq|]. destruct (_ <? _); [by simplify_eq|].
    destruct (Log.make_room _ l d) as [[st l2] d2] eqn:Mr. apply room_dir in Mr. destruct st; [|by simplify_eq].
    destruct (BatchBuilder.finish _ _ _) as [framed b2]. destruct (decode_header framed); [|by simplify_eq].
    destruct (Log.store _ _ l2 d2) as [[st2 l3] d3] eqn:St. apply store_dir in St. destruct st2; simplify_eq; congruence.
  - apply replicate_steps in E as [(e & -> & -> & ->) | (h & st & l2 & d2 & _ & _ & Mr & Out)]; [done|].
    apply room_dir in Mr. destruct st; [apply store_dir in Out; congruence|]. by destruct Out as (_ & -> & _).
Qed.

Lemma standing_next (d : D) l all xs : standing d l all xs -> 0 <= Log.next_offset_ l < 2 ^ 64.
Proof.
  intros (bss & bs & base & sbs & _ & [I _ _ _] & _). apply base_bounds in I as (? & ? & _). lia.
Qed.

Lemma standing_append (d : D) l all xs vs meta b r b' l' d' :
  standing d l all xs -> offsets_left l -> meta_wf meta -> vs <> [] -> Forall bytes_ok vs ->
  add_records BatchBuilder.new vs = (Ok tt, b) -> Log.append b meta l d = (r, b', l', d') ->
  standing d' l' (all ++ match r with Ok o => [batch_bytes o meta vs] | fail _ => [] end) xs.
Proof.
  intros Sd Ho Hm Hv Hvs Ab E. pose proof (standing_next _ _ _ _ Sd) as Hn.
  eapply append_steps in E as [(e & -> & -> & ->) | (bytes & st & l1 & d1 & Mr & Out)]; eauto; [by rewrite app_nil_r| |].
  - apply (standing_room _ _ _ _ _ _ _ _ Sd Ho) in Mr as [Sd1 _]. destruct st as [u|e].
    + destruct Out as (h & st2 & Hb & B & _ & _ & St & ->).
      pose proof (standing_store _ _ _ _ _ _ _ _ _ Sd1 Hb B St) as Out.
      destruct st2; [apply Out|]. rewrite app_nil_r. destruct Out as [-> ?]. done.
    + destruct Out as (-> & -> & ->). by rewrite app_nil_r.
  - intros bs st l1 d1 Mr. by eapply standing_room.
Qed.

Lemma standing_replicated (d : D) l all xs framed r l' d' :
  standing d l all xs -> offsets_left l -> bytes_ok framed -> Log.append_replicated framed l d = (r, l', d') ->
  standing d' l' (all ++ match r with Ok _ => [framed] | fail _ => [] end) xs.
Proof.
  intros Sd Ho Hb E.
  apply replicate_steps in E as [(e & -> & -> & ->) | (h & st & l1 & d1 & B & Eb & Mr & Out)]; [by rewrite app_nil_r|].
  apply (standing_room _ _ _ _ _ _ _ _ Sd Ho) in Mr as [Sd1 _]. destruct st as [u|e].
  - pose proof (standing_store _ _ _ _ _ _ _ _ _ Sd1 Hb B Out) as R.
    destruct r; [apply R|]. rewrite app_nil_r. destruct R as [-> ?]. done.
  - destruct Out as (-> & -> & ->). by rewrite app_nil_r.
Qed.

Lemma all_segs (d : D) dir o segs : forall bss from base,
  closed d dir o segs bss from base ->
  Forall (fun s => exists bs from next, seg_at d dir o s bs from next) segs.
Proof.
  induction segs as [|s segs IH]; intros [|cs bss] from base C; simpl in C; try done.
  destruct C as (mid & S & _ & C). constructor; eauto.
Qed.

Lemma flush_kept dir o segs : forall (d : D) (st r : Status) d',
  Disk.good d -> Forall (fun s => exists bs from next, seg_at d dir o s bs from next) segs ->
  foldl (fun sd seg =>
      let '(result, d) := sd in
      match Segment.flush_index seg d with
      | (fail e, d) => (fail e, d)
      | (Ok _, d) => (result, d)
      end) (st, d) segs = (r, d') -> kept (log_file_of dir) d d'.
Proof.
  induction segs as [|s segs IH]; intros d st r d' G Hs; simpl; [intros [= <- <-]; by apply kept_refl|].
  apply Forall_cons in Hs as [(bs & from & next & S) Hs].
  destruct (Segment.flush_index s d) as [r1 d1] eqn:F.
  pose proof (flush_index_spec _ _ _ _ _ (sa_inv _ _ _ _ _ _ _ S) F) as (On & _).
  rewrite (sa_index _ _ _ _ _ _ _ S) in On.
  assert (kept (log_file_of dir) d d1) as K.
  { eapply kept_weaken; [|by apply only_kept]. intros p (v & _ & ->). apply log_index_path. }
  assert (Forall (fun s => exists bs from next, seg_at d1 dir o s bs from next) segs) as Hs1.
  { eapply Forall_impl; [exact Hs|]. intros s2 (bs2 & f2 & n2 & S2). exists bs2, f2, n2.
    eapply seg_at_kept; [|exact K|exact S2]. exists f2. split; [|done]. apply seg_at_bounds in S2. lia. }
  intros E. eapply kept_trans; [|exact K|]; [by intros p Hp|].
  destruct r1 as [u|e]; by eapply IH; [apply K | exact Hs1 | exact E].
Qed.

Lemma standing_flush (d : D) l all xs r d' :
  standing d l all xs -> Log.flush_indexes l d = (r, d') -> standing d' l all xs.
Proof.
  intros Sd E. eapply standing_kept; [exact Sd|]. destruct Sd as (bss & bs & base & sbs & _ & [I _ _ _] & _).
  destruct I as [G (segs & active & Es & C & S) _]. eapply flush_kept; [done | | exact E].
  rewrite Es. apply Forall_app. split; [by eapply all_segs|]. apply Forall_singleton. eauto.
Qed.

Lemma log_read_same (d : D) l all offset n r d' :
  holds d l all -> 0 <= n -> Log.read l offset n d = (r, d') -> Disk.same d d'.
Proof.
  intros Hh Hn E. assert (Disk.good d) as Gd by (destruct Hh as (? & ? & ? & _ & I & _); apply I).
  destruct (Z_le_dec (Log.next_offset_ l) offset) as [Hx|Hx].
  { unfold Log.read in E. rewrite (proj2 (Z.leb_le _ _)) in E by done. injection E as <- <-. by apply same_refl. }
  destruct (Z_lt_dec offset (Log.start_offset_ l)) as [Hy|Hy].
  { unfold Log.read in E. rewrite (proj2 (Z.leb_gt _ _)), (proj2 (Z.ltb_lt _ _)) in E by lia. injection E as <- <-. by apply same_refl. }
  eapply log_read_inside in E as [Sm _]; [done | done | done | lia].
Qed.

Lemma standing_read (d : D) l all xs offset n r d' :
  standing d l all xs -> 0 <= n -> Log.read l offset n d = (r, d') -> standing d' l all xs.
Proof.
  intros Sd Hn E. eapply standing_kept; [exact Sd|]. apply same_kept.
  eapply log_read_same; [by eapply standing_holds | done | exact E].
Qed.

Lemma standing_logged l (d : D) acc l' d' all xs :
  logged l d acc l' d' -> standing d l all xs -> standing d' l' (all ++ acc) xs.
Proof.
  intros R. revert all. induction R as
    [l d|l d vs meta b r b' l1 d1 acc l' d' Ho Hm Hv Hvs Ab E R IH|l d framed r l1 d1 acc l' d' Ho Hb E R IH
    |l d offset n r d1 acc l' d' Hn E R IH|l d r d1 acc l' d' E R IH|l d r d1 acc l' d' E R IH]; intros all Sd.
  - by rewrite app_nil_r.
  - apply (standing_append _ _ _ _ _ _ _ _ _ _ _ Sd Ho Hm Hv Hvs Ab) in E. apply IH in E.
    rewrite <- app_assoc in E. by destruct r.
  - apply (standing_replicated _ _ _ _ _ _ _ _ Sd Ho Hb) in E. apply IH in E. rewrite <- app_assoc in E. by destruct r.
  - by eapply IH, standing_read.
  - by eapply IH, standing_fsync.
  - by eapply IH, standing_flush.
Qed.

(** ** Opening on a settled directory *)

(** Every segment file is on the platter to its end: so after a power cut, and in a directory
    without segments. *)
Definition all_settled (d : D) (dir : chars) (vs : list Z) : Prop :=
  forall v, v ∈ vs -> Disk.settled d (log_path dir v) (found_bytes d (log_path dir v)).

Lemma opened_sealed (d d' : D) l segs sv :
  opened_run d d' l segs sv -> all_settled d (Log.dir_ l) sv.*1 ->
  Forall (fun vb => vb.2 = (batches_at d (Log.dir_ l) vb.1).1) sv ->
  Forall2 (sealed d' (Log.dir_ l)) sv.*1 sv.*2.
Proof.
  induction 1 as [|s [v bs] segs sv (S & F & St) R IH]; intros Hs Hb; [constructor|]. simpl in *.
  apply Forall_cons in Hb as [Eb Hb]. simpl in Eb.
  constructor; [|apply IH; [intros w Hw; apply Hs, elem_of_cons; by right | done]]. split; [done|]. apply St; [|done].
  eapply Disk.settled_shorter; [|apply Hs, elem_of_cons; by left]. rewrite Eb. unfold batches_at.
  pose proof (valid_batches_spec v (found_bytes d (log_path (Log.dir_ l) v))) as V.
  destruct (valid_batches _ _) as [cs nx]. destruct V as (_ & rest & -> & _). by exists rest.
Qed.

Lemma surviving_batches (d : D) dir vs : Forall (fun vb => vb.2 = (batches_at d dir vb.1).1) (surviving d dir vs).
Proof.
  induction vs as [|v vs IH]; [constructor|]. rewrite surviving_cons. constructor; [done|].
  destruct (torn_at _ _ _); [constructor|]. destruct (follows _ _); [done | constructor].
Qed.

Lemma surviving_subset (d : D) dir vs v : v ∈ (surviving d dir vs).*1 -> v ∈ vs.
Proof.
  induction vs as [|w vs IH]; [done|]. rewrite surviving_cons, fmap_cons. intros [-> | Hv]%elem_of_cons; apply elem_of_cons.
  - by left.
  - right. destruct (torn_at _ _ _); [by apply elem_of_nil in Hv|].
    destruct (follows _ _); [auto | by apply elem_of_nil in Hv].
Qed.

Lemma open_standing (d : D) dir options vs l d' :
  Disk.good d -> Disk.dir_path dir -> Log.segment_max_bytes options < 2 ^ 32 ->
  segment_files (Disk.make_directories dir d).2 dir vs -> Forall (honest_at d dir) vs -> all_settled d dir vs ->
  Log.open dir options d = (Ok l, d') -> 
  standing d' l (concat (surviving d dir vs).*2) (concat (surviving d dir vs).*2).
Proof.
  intros G Hd M Sf Hh Hs O. destruct (open_grounded _ _ _ _ _ _ G Hd M Sf Hh O) as (Ed & _ & bss & bs & base & [I Ct Rn So]).
  exists bss, bs, base, bs. rewrite <- Ct.
  destruct Rn as [(Sv & -> & -> & -> & F) | [Run E2]].
  - split_and!; try done; [|by left]. split; [done | | done | apply So, _]. exists []. split; [|constructor].
    destruct I as [_ (segs & active & Es & C & S) _]. unfold bases. rewrite Es.
    destruct segs; [|done]. simpl. by rewrite (sa_base _ _ _ _ _ _ _ S).
  - assert (Forall2 (sealed d' (Log.dir_ l)) (bases l) (bss ++ [bs])) as Se.
    { rewrite <- E2. unfold bases. rewrite (opened_run_bases _ _ _ _ _ Run). rewrite <- Ed in *.
      eapply opened_sealed; [exact Run | | apply surviving_batches]. intros v Hv. apply Hs. by eapply surviving_subset. }
    apply Forall2_app_inv_r in Se as (vs1 & vs2 & Se1 & Se2 & Eb).
    apply Forall2_cons_inv_r in Se2 as (v & vs3 & [Fa Sa] & Se3 & ->). apply Forall2_nil_inv_r in Se3 as ->.
    assert (v = base) as ->.
    { destruct I as [_ (segs & active & Es & _ & S) _]. unfold bases in Eb. rewrite Es, fmap_app in Eb.
      apply app_inj_2 in Eb as [_ [= <-]]; [|done]. apply (sa_base _ _ _ _ _ _ _ S). }
    split_and!; try done; [|by right]. split; [done | by exists vs1 | done | apply So, _].
Qed.

(** ** Power cuts *)

Lemma bases_sorted (d : D) l bss bs base : log_inv d l bss bs base -> StronglySorted Z.lt (bases l).
Proof.
  intros [_ (segs & active & E & C & S) _]. unfold bases. rewrite E. clear E.
  revert bss C. generalize (Log.start_offset_ l) as from. induction segs as [|s segs IH]; intros from [|cs bss] C; simpl in C; try done.
  - simpl. repeat constructor.
  - destruct C as (mid & S1 & N & C). simpl. constructor; [by eapply IH|]. rewrite (sa_base _ _ _ _ _ _ _ S1).
    apply seg_at_bounds in S1 as (_ & _ & _ & Lt & _). specialize (Lt N). pose proof (closed_le _ _ _ _ _ _ _ C) as [Hle _].
    apply Forall_forall. intros v Hv. change (v ∈ Segment.base_offset_ <$> segs ++ [active]) in Hv.
    rewrite fmap_app in Hv. apply elem_of_app in Hv as [Hv | Hv].
    + eapply bases_lt in Hv; [|exact C]. lia.
    + simpl in Hv. apply list_elem_of_singleton in Hv as ->. rewrite (sa_base _ _ _ _ _ _ _ S). lia.
Qed.

Lemma sorted_ext vs ws : StronglySorted Z.lt vs -> StronglySorted Z.lt ws -> (forall v, v ∈ vs <-> v ∈ ws) -> vs = ws.
Proof.
  assert (forall us, StronglySorted Z.lt us -> StronglySorted Z.le us /\ NoDup us) as Aux.
  { intros us. induction 1 as [|v us _ [IH1 IH2] Hv]; [split; constructor|]. split; constructor; auto.
    - eapply Forall_impl; [exact Hv|]. simpl. lia.
    - intros Hin. rewrite Forall_forall in Hv. specialize (Hv v Hin). lia. }
  intros Hv Hw E. destruct (Aux _ Hv), (Aux _ Hw).
  eapply (StronglySorted_unique Z.le); [done | done |]. by apply NoDup_Permutation.
Qed.

(** A file that holds a chain and nothing else is read back whole. *)
Lemma batches_exact (d : D) dir v cs next :
  chain v cs next -> found_bytes d (log_path dir v) = cat cs ->
  batches_at d dir v = (cs, next) /\ torn_at d dir v = false.
Proof.
  intros C F. assert (batches_at d dir v = (cs, next)) as E.
  { unfold batches_at. rewrite F. apply (valid_batches_unique v (cat cs) cs next []); [done | by rewrite app_nil_r | done]. }
  split; [done|]. unfold torn_at. rewrite E, F. simpl. by rewrite Z.eqb_refl.
Qed.

(** What survives of a log whose closed files are as they were, and whose active one still
    begins with [sbs]. *)
Lemma surviving_run (d d5 : D) dir o segs : forall bss from active bs base next sbs rest,
  closed d dir o segs bss from base -> seg_at d dir o active bs base next ->
  Forall2 (fun s cs => Disk.files d5 !! log_path dir (Segment.base_offset_ s) = Some (cat cs)) segs bss ->
  sbs `prefix_of` bs -> found_bytes d5 (log_path dir base) = cat sbs ++ rest ->
  exists more, (surviving d5 dir (Segment.base_offset_ <$> segs ++ [active])).*2 = bss ++ [sbs ++ more].
Proof.
  induction segs as [|s segs IH]; intros bss from active bs base next sbs rest C S Fs Pf Fa.
  - destruct bss; [|done]. change (Segment.base_offset_ <$> [] ++ [active]) with [Segment.base_offset_ active].
    rewrite surviving_cons, (sa_base _ _ _ _ _ _ _ S). unfold batches_at. rewrite Fa.
    apply seg_at_bounds in S as (_ & _ & _ & _ & Ch & _). destruct Pf as [tl ->].
    apply chain_app in Ch as (mid & Ch & _). rewrite (valid_batches_app _ _ _ _ Ch). simpl.
    exists (valid_batches mid rest).1. by destruct (torn_at _ _ _).
  - apply Forall2_cons_inv_l in Fs as (cs & bss' & F1 & Fs & ->). simpl in C. destruct C as (mid & S1 & N & C).
    destruct (IH _ _ _ _ _ _ _ _ C S Fs Pf Fa) as (more & E). exists more.
    change (Segment.base_offset_ <$> (s :: segs) ++ [active])
      with (Segment.base_offset_ s :: (Segment.base_offset_ <$> segs ++ [active])).
    rewrite surviving_cons, (sa_base _ _ _ _ _ _ _ S1) in *.
    pose proof (seg_at_bounds _ _ _ _ _ _ _ S1) as (_ & _ & _ & _ & Ch & _).
    destruct (batches_exact d5 dir from cs mid Ch) as [-> ->]; [unfold found_bytes; by rewrite F1|].
    assert (follows mid (Segment.base_offset_ <$> segs ++ [active]) = true) as Fo.
    { destruct segs as [|s2 segs]; simpl.
      - destruct bss'; [|done]. simpl in C. subst. rewrite (sa_base _ _ _ _ _ _ _ S). apply Z.eqb_refl.
      - destruct bss' as [|c2 bss']; [done|]. destruct C as (m2 & S2 & _). rewrite (sa_base _ _ _ _ _ _ _ S2). apply Z.eqb_refl. }
    cbn [fst snd]. rewrite Fo, fmap_cons, E. done.
Qed.

Lemma crash_survives (crashed : D -> D -> Prop) `{!Disk.crash_laws D crashed} (d d5 : D) l all xs vs :
  standing d l all xs -> crashed d d5 -> segment_files (Disk.make_directories (Log.dir_ l) d5).2 (Log.dir_ l) vs ->
  exists more, concat (surviving d5 (Log.dir_ l) vs).*2 = xs ++ more.
Proof.
  intros (bss & bs & base & sbs & _ & [I (ws & Eb & Se) Ac So] & Pf & St & [tl Hx]) Cr Sf.
  assert (Disk.good d) as G by apply I.
  destruct (Disk.crash_law _ _ G Cr) as (G5 & _ & Dm & Ss & Wh).
  assert (Disk.files (Disk.make_directories (Log.dir_ l) d5).2 = Disk.files d5) as Em.
  { destruct (Disk.make_directories _ d5) as [r1 d6] eqn:Mk. apply Disk.make_directories_law in Mk; [|done].
    apply Mk. }
  pose proof (bases_below _ _ _ _ _ _ I Eb) as Bl. pose proof (base_bounds _ _ _ _ _ I) as (Bb & _).
  assert (vs = bases l) as ->.
  { apply sorted_ext; [apply Sf | by eapply bases_sorted |]. intros v. split.
    - intros Hv. pose proof (sf_bounded _ _ _ Sf) as Hb. rewrite Forall_forall in Hb. specialize (Hb v Hv). unfold bounded in Hb.
      apply So; [lia|]. apply elem_of_dom. rewrite <- Dm. apply elem_of_dom. rewrite <- Em. apply (sf_files _ _ _ Sf); [lia | done].
    - intros Hv. assert (0 <= v < 2 ^ 64 /\ is_Some (Disk.files d !! log_path (Log.dir_ l) v)) as [Hv' Hf].
      { rewrite Eb in Hv. apply elem_of_app in Hv as [Hv | Hv].
        - rewrite Forall_forall in Bl. specialize (Bl v Hv). simpl in Bl. split; [lia|].
          apply list_elem_of_lookup in Hv as [i Hi]. destruct (Forall2_lookup_l _ _ _ _ _ Se Hi) as (cs & _ & [F _]). eauto.
        - apply list_elem_of_singleton in Hv as ->. eauto. }
      apply (sf_files _ _ _ Sf); [done|]. rewrite Em. apply elem_of_dom. rewrite Dm. by apply elem_of_dom. }
  assert (exists rest, found_bytes d5 (log_path (Log.dir_ l) base) = cat sbs ++ rest) as [rest Fa].
  { destruct St as [-> | St]; [by eexists|]. apply Ss in St. apply Disk.settled_prefix in St as (b & Hb & [rest ->]); [|done].
    exists rest. unfold found_bytes. by rewrite Hb. }
  destruct I as [_ (segs & active & Es & C & S) _]. unfold bases in *. rewrite Es in *.
  rewrite fmap_app in Eb. apply app_inj_2 in Eb as [<- _]; [|done].
  destruct (surviving_run d d5 _ _ _ _ _ _ _ _ _ sbs rest C S) as (more & ->); try done.
  { rewrite Forall2_fmap_l in Se. eapply Forall2_impl; [exact Se|]. intros s cs [F Sv]. by apply Wh. }
  exists (tl ++ more). rewrite concat_app. simpl. rewrite app_nil_r, (app_assoc (concat bss)), Hx. by rewrite <- app_assoc.
Qed.

(** The log that opens after a power cut. *)
Lemma crash_reopens (crashed : D -> D -> Prop) `{!Disk.crash_laws D crashed} (d d5 d6 : D) l all xs dir options vs l' :
  standing d l all xs -> crashed d d5 -> Log.dir_ l = dir -> Disk.dir_path dir -> Log.segment_max_bytes options < 2 ^ 32 ->
  segment_files (Disk.make_directories dir d5).2 dir vs -> Forall (honest_at d5 dir) vs ->
  Log.open dir options d5 = (Ok l', d6) -> exists more, holds d6 l' (xs ++ more).
Proof.
  intros St Cr <- Hd M Sf Hh O. destruct (crash_survives crashed _ d5 l _ _ vs St Cr Sf) as (more & Em).
  exists more. rewrite <- Em. assert (Disk.good d5) as G5.
  { destruct St as (? & ? & ? & ? & _ & [I _ _ _] & _). by eapply Disk.crash_law; [apply I|]. }
  destruct (open_grounded _ _ _ _ _ _ G5 Hd M Sf Hh O) as (_ & _ & bss & bs & base & [I Ct _ So]).
  exists bss, bs, base. split_and!; [done | done | by apply sole_clear, So, _].
Qed.

End Durable.
