(* ===== verification/LogCut.v ===== *)
(** * A truncated log on the platter

    [LogDurable.v] follows a log that grows; here it is cut.  On a steady disk a truncation
    that succeeds leaves a log whose closed segments are on the platter to their ends and
    whose directory holds no other segment file, so that appends and an [fsync] behind it are
    worth what they are worth on a log that was never cut. *)
From S2P Require Import Prelude Base RecordBatch SparseIndex Disk Segment.
From S2P Require Import Chain SegmentFacts SegmentProps Log LogFacts LogRecovery LogDurable.

Section Cut.
Context {D : Type} `{DL : Disk.laws D} `{SD : !Disk.steady D}.
#[local] Set Default Proof Using "Type*".
Implicit Types (d : D) (l : Log.t).

(** Other files than those of the segments of [dir]. *)
Definition foreign (dir p : chars) : Prop := forall v, ~ segment_file dir v p.

(** The newest segment popped and its files removed. *)
Lemma sound_pop d l l' segs s active bss bs base :
  sound d l bss bs base -> Log.segments_ l = (segs ++ [s]) ++ [active] ->
  same_settings l l' -> Log.segments_ l' = segs ++ [s] -> Log.next_offset_ l' = base ->
  let d' := Log.remove_segment_files (Log.dir_ l) (Segment.base_offset_ active) (Segment.destroy active d) in
  exists bss' cs mid, bss = bss' ++ [cs] /\ sound d' l' bss' cs mid /\
    kept (fun p => ~ segment_file (Log.dir_ l) base p) d d'.
Proof.
  intros [[Gd (segs' & a' & E & C & S) M] (vs & Eb & Se) Fa So] El (T1 & T2 & T3) El' En. cbv zeta.
  rewrite El in E. apply app_inj_2 in E as [<- [= <-]]; [|done].
  apply closed_app in C as (b1 & b2 & mid & -> & C1 & C2). destruct b2 as [|cs [|]]; simpl in C2; try done;
    [|by destruct C2 as (? & _ & _ & ?)]. destruct C2 as (m2 & S2 & N2 & ->).
  pose proof (sa_base _ _ _ _ _ _ _ S) as EB. rewrite EB.
  destruct (drop_one _ _ _ _ _ _ _ _ _ _ _ C1 S2 N2 S) as (K & C1' & S2' & _).
  assert (Disk.files (Log.remove_segment_files (Log.dir_ l) base (Segment.destroy active d)) !! log_path (Log.dir_ l) base = None) as Gone.
  { apply remove_segment_spec; [|apply _].
    apply (destroy_kept d active bs _ Gd (sa_inv _ _ _ _ _ _ _ S) eq_refl). }
  set (d1 := Log.remove_segment_files _ _ _) in *. clearbody d1.
  pose proof (seg_at_bounds _ _ _ _ _ _ _ S) as (B1 & B2 & B3 & _).
  pose proof (seg_at_bounds _ _ _ _ _ _ _ S2) as (A1 & A2 & A3 & A4 & _). specialize (A4 N2).
  pose proof (sa_base _ _ _ _ _ _ _ S2) as EM.
  exists b1, cs, mid. split; [done|]. split; [|done].
  assert (bases l = bases l' ++ [base]) as Ebl by (unfold bases; rewrite El, El', fmap_app; simpl; by rewrite EB).
  assert (bases l' = (Segment.base_offset_ <$> segs) ++ [mid]) as Eb' by (unfold bases; rewrite El', fmap_app; simpl; by rewrite EM).
  rewrite Ebl in Eb. apply app_inj_2 in Eb as [<- _]; [|done]. rewrite Eb' in Se.
  apply Forall2_app_inv in Se as [Se1 Se2]; [|by apply Forall2_length in Se; rewrite !length_app in Se; simpl in Se; lia].
  apply Forall2_cons in Se2 as [[F2 St2] _].
  assert (forall v, 0 <= v < 2 ^ 64 -> v <> base -> ~ segment_file (Log.dir_ l) base (log_path (Log.dir_ l) v)) as Ne.
  { intros v Hv Hne [Ep | Ep]; [apply log_path_inj in Ep; lia | by apply log_index_path in Ep]. }
  assert (log_inv d1 l' b1 cs mid) as I'.
  { split; [apply K | | by rewrite T2]. exists segs, s. unfold seg_options in *. rewrite T1, T2, T3, En. by split_and!. }
  split; [done | | |]; rewrite ?T1.
  - exists (Segment.base_offset_ <$> segs). split; [done|]. eapply sealed_kept; [exact Se1 | exact K|].
    eapply Forall_impl; [by eapply bases_below|]. cbn. intros v Hv. apply Ne; lia.
  - rewrite (kp_files _ _ _ K); [done | apply Ne; lia].
  - intros v Hv Hf. rewrite T1 in Hf. destruct (decide (v = base)) as [->|Hne]; [by rewrite Gone in Hf; destruct Hf|].
    rewrite (kp_files _ _ _ K) in Hf by (by apply Ne). specialize (So v Hv Hf). rewrite Ebl in So.
    apply elem_of_app in So as [?|Hx]; [done|]. by apply list_elem_of_singleton in Hx.
Qed.

(** Where the popping stops. *)
Lemma stop_base d l lv bss bs base offset :
  sound d lv bss bs base -> same_settings lv l -> Log.segments_ lv = Log.segments_ l -> Log.start_offset_ l <= offset ->
  (1 <? zlen (Log.segments_ l)) && (offset <=? Segment.base_offset_ (Log.back (Log.segments_ l))) = false -> base <= offset.
Proof.
  intros [[_ (segs & active & E & C & S) _] _ _ _] (_ & _ & Ts) Es Ho X. rewrite <- Es, E, back_snoc in X.
  apply andb_false_iff in X as [X | X]; bool_prop; [|rewrite (sa_base _ _ _ _ _ _ _ S) in X; lia].
  rewrite zlen_app in X. destruct segs as [|s segs]; [destruct bss; simpl in C; [lia | done]|].
  unfold zlen in X. simpl in X. lia.
Qed.

(** The segments at or behind [offset] gone.  What the log says its end is does not matter
    to [drop_segments]: [lv] is the log with the right one. *)
Lemma sound_drop offset fuel : forall d l lv bss bs base l' d',
  sound d lv bss bs base -> same_settings lv l -> Log.segments_ lv = Log.segments_ l ->
  Log.start_offset_ l <= offset -> (length (Log.segments_ l) <= fuel)%nat -> Log.drop_segments fuel offset l d = (l', d') ->
  exists lv' bss' bs' base' rest, sound d' lv' bss' bs' base' /\ same_settings l l' /\ same_settings lv' l' /\
    Log.segments_ lv' = Log.segments_ l' /\ concat bss ++ bs = (concat bss' ++ bs') ++ rest /\
    kept (foreign (Log.dir_ l)) d d' /\ base' <= offset.
Proof.
  induction fuel as [|fuel IH]; intros d l lv bss bs base l' d' So Ts Es Ho Hf; cbn [Log.drop_segments];
    (assert (Disk.good d) as Gd by apply So).
  { destruct So as [[_ (segs & active & E & _) _] _ _ _]. rewrite <- Es, E, length_app in Hf. simpl in Hf. lia. }
  destruct (_ && _) eqn:X.
  2:{ intros [= <- <-]. exists lv, bss, bs, base, []. rewrite app_nil_r. split_and!; try done. by eapply stop_base. }
  apply andb_prop in X as [X _]. bool_prop. intros Dr.
  destruct (Log.segments_ l) as [|active segs _] eqn:El using rev_ind; [done|].
  destruct segs as [|s segs _] using rev_ind; [done|]. rewrite back_snoc, removelast_last in Dr.
  set (lp := l <| Log.segments_ := segs ++ [s] |>) in Dr.
  destruct (sound_pop d lv (lp <| Log.next_offset_ := base |>) segs s active bss bs base So Es)
    as (bss1 & cs & mid & -> & So1 & K); [by destruct Ts as (? & ? & ?) | done | done |].
  destruct Ts as (T1 & T2 & T3). rewrite T1 in Dr.
  eapply (IH _ lp) in Dr as (lv' & bss' & bs' & base' & rest & S' & A1 & A2 & A3 & A4 & A5 & A6); [|exact So1|done|done|done|rewrite !length_app in Hf; simpl in Hf; cbn; rewrite length_app; simpl; lia].
  exists lv', bss', bs', base', (rest ++ bs). split_and!; try done.
  - rewrite concat_app. simpl. rewrite app_nil_r, A4. by rewrite <- !app_assoc.
  - eapply kept_trans; [|exact K|exact A5]. intros p Hp. split; [|done]. rewrite <- T1. apply Hp.
Qed.

(** The active segment replaced by what a cut left of it. *)
Lemma sound_back d d' l l' segs active active' bss bs xs base next :
  sound d l bss bs base -> Log.segments_ l = segs ++ [active] ->
  kept (fun p => p <> log_path (Log.dir_ l) base) d d' ->
  seg_at d' (Log.dir_ l) (seg_options l) active' xs base next ->
  Disk.files d' !! log_path (Log.dir_ l) base = Some (cat xs) ->
  same_settings l l' -> Log.segments_ l' = segs ++ [active'] -> Log.next_offset_ l' = next ->
  sound d' l' bss xs base.
Proof.
  intros [I (vs & Eb & Se) Fa So] El K S F (T1 & T2 & T3) El' En.
  pose proof (bases_below _ _ _ _ _ _ I Eb) as Bl. destruct I as [Gd (segs0 & a0 & E & C & S0) M].
  rewrite El in E. apply app_inj_2 in E as [<- [= <-]]; [|done].
  pose proof (seg_at_bounds _ _ _ _ _ _ _ S) as (B1 & B2 & _).
  assert (bases l' = bases l) as Eb'.
  { unfold bases. rewrite El, El', !fmap_app. simpl. by rewrite (sa_base _ _ _ _ _ _ _ S), (sa_base _ _ _ _ _ _ _ S0). }
  split; rewrite ?T1; [|exists vs; split; [by rewrite Eb'|] | done |].
  - split; [apply K | | by rewrite T2]. exists segs, active'. unfold seg_options in *. rewrite T1, T2, T3, En.
    split_and!; [done | | done]. eapply closed_only; [exact C | lia | exact K].
  - eapply sealed_kept; [exact Se | exact K|]. eapply Forall_impl; [exact Bl|]. cbn. intros v Hv Ep.
    apply log_path_inj in Ep; lia.
  - intros v Hv Hf. rewrite T1 in Hf. rewrite Eb'. destruct (decide (v = base)) as [->|Hne].
    { rewrite Eb. apply elem_of_app. right. by apply list_elem_of_singleton. }
    apply So; [done|]. rewrite <- (kp_files _ _ _ K); [done|]. intros Ep. apply log_path_inj in Ep; lia.
Qed.

Lemma standing_unsynced d l all xs : standing d l all xs -> standing d l all [].
Proof.
  intros (bss & bs & base & sbs & -> & So & _). exists bss, bs, base, [].
  split_and!; try done; [apply prefix_nil | by left | apply prefix_nil].
Qed.

Lemma standing_truncate d l all xs offset l' d' :
  standing d l all xs -> Log.truncate_to offset l d = (Ok tt, l', d') ->
  exists all' rest, all = all' ++ rest /\ standing d' l' all' [] /\ same_settings l l' /\
    Log.next_offset_ l' = offset /\ offset <= Log.next_offset_ l /\ kept (foreign (Log.dir_ l)) d d'.
Proof.
  intros St E. pose proof St as (bss & bs & base & sbs & -> & So & _). pose proof E as E0.
  assert (Disk.good d) as Gd by apply So. unfold Log.truncate_to in E.
  destruct (_ <? offset) eqn:E1; [done|]. destruct (offset <? _) eqn:E2; [done|]. bool_prop.
  destruct (offset =? _) eqn:E3; bool_prop.
  { injection E as <- <-. exists (concat bss ++ bs), []. rewrite app_nil_r. split_and!; try done.
    by eapply standing_unsynced. }
  apply (log_truncate_inv _ _ _ _ _ _ _ _ _ (so_inv _ _ _ _ _ So)) in E0 as (Ts & _ & En & _); [|lia].
  destruct (Log.drop_segments _ _ _ _) as [l1 d1] eqn:Dr.
  eapply sound_drop in Dr as (lv & bss' & bs' & lo & rest & So' & A1 & A2 & A3 & A4 & K & Hlo); [|exact So | done..].
  pose proof So' as [[_ (segs & active & Es & C & S) _] _ Fa _]. rewrite <- A3, Es, back_snoc in E.
  destruct (Segment.truncate_to offset active d1) as [[st active2] d2] eqn:T.
  pose proof (sa_base _ _ _ _ _ _ _ S) as Eb. pose proof (sa_log _ _ _ _ _ _ _ S) as Elo.
  apply (truncate_to_spec _ _ _ _ _ _ _ (sa_inv _ _ _ _ _ _ _ S)) in T as [On T]; [|lia]. rewrite Elo in On, T.
  destruct st as [[]|e]; [|done]. injection E as <- <-. rewrite set_back_snoc.
  assert (exists ys zs, bs' = ys ++ zs /\ seg_at d2 (Log.dir_ lv) (seg_options lv) active2 ys lo (Segment.next_offset_ active2) /\
    Disk.files d2 !! log_path (Log.dir_ lv) lo = Some (cat ys)) as (ys & zs & -> & S2 & F2).
  { destruct T as [(_ & -> & ->) | (xs' & zs & -> & _ & I2 & T1 & T2 & T3 & T4 & _ & T6 & T7 & _)].
    - exists bs', []. rewrite app_nil_r, (sa_next _ _ _ _ _ _ _ S). by split_and!.
    - exists xs', zs. split_and!; [done | | done]. pose proof (sa_index _ _ _ _ _ _ _ S).
      pose proof (sa_options _ _ _ _ _ _ _ S). by split; [done | congruence..]. }
  exists (concat bss' ++ ys), (zs ++ rest). rewrite A4, <- !app_assoc. split_and!; try done.
  - eexists bss', ys, lo, []. split_and!; [done | | apply prefix_nil | by left | apply prefix_nil].
    eapply (sound_back d1 d2 lv _ segs active active2); [exact So' | exact Es | by apply only_kept | exact S2 | exact F2 | done..].
  - eapply kept_trans; [|exact K | by apply only_kept]. intros p Hp. split; [done|]. intros ->.
    destruct A1 as (A1 & _), A2 as (A2 & _). apply (Hp lo). left. congruence.
Qed.

(** A cut touches segment files only, whether it succeeds or not. *)
Lemma truncate_foreign d l all offset r l' d' :
  holds d l all -> Log.truncate_to offset l d = (r, l', d') -> kept (foreign (Log.dir_ l)) d d'.
Proof.
  intros (bss & bs & base & _ & [G (segs & active & E & C & S) M] & _). unfold Log.truncate_to.
  destruct (_ <? offset) eqn:E1; [intros [= <- <- <-]; by apply kept_refl|].
  destruct (offset <? _) eqn:E2; [intros [= <- <- <-]; by apply kept_refl|].
  destruct (offset =? _) eqn:E3; [intros [= <- <- <-]; by apply kept_refl|]. bool_prop.
  destruct (Log.drop_segments _ _ _ _) as [l1 d1] eqn:Dr.
  assert (l = l <| Log.segments_ := segs ++ [active] |>) as El by (destruct l; simpl in *; by rewrite E).
  eapply (drop_spec offset l) in Dr as (segs' & active' & bss' & bs' & lo & hi & rest & -> & C' & S' & _ & _ & Hlo & _ & K & _);
    [|exact El|exact C|exact S|rewrite E, length_app; simpl; lia].
  cbn [Log.segments_ set]. rewrite back_snoc. destruct (Segment.truncate_to offset active' d1) as [[st active2] d2] eqn:T.
  assert (lo <= offset) as Hlo'.
  { destruct segs' as [|s0 segs']; [destruct bss'; simpl in C'; [lia | done]|]. specialize (Hlo ltac:(done)). lia. }
  pose proof (sa_base _ _ _ _ _ _ _ S') as Eb.
  apply (truncate_to_spec _ _ _ _ _ _ _ (sa_inv _ _ _ _ _ _ _ S')) in T as [On _]; [|lia]. rewrite (sa_log _ _ _ _ _ _ _ S') in On.
  assert (kept (foreign (Log.dir_ l)) d d2) as Kd.
  { eapply kept_trans; [|exact K | by apply only_kept]. intros p Hp. split; [intros v _; apply Hp|]. intros ->. eapply Hp. by left. }
  destruct st; by intros [= <- <- <-].
Qed.

(** Replication touches segment files only. *)
Lemma room_foreign d l bss bs base n r l' d' :
  log_inv d l bss bs base -> clear d l -> offsets_left l -> Log.make_room n l d = (r, l', d') ->
  kept (foreign (Log.dir_ l)) d d' /\ Log.dir_ l' = Log.dir_ l /\
  exists bss' bs' base', log_inv d' l' bss' bs' base' /\ clear d' l'.
Proof.
  intros I Cl Ho R. pose proof (room_dir _ _ _ _ _ _ R) as Ed.
  apply (make_room_spec _ _ _ _ _ _ _ _ _ I Cl Ho) in R as [(-> & -> & _) | [R Nb]].
  { split_and!; [apply kept_refl, I | done | eauto]. }
  apply (roll_spec _ _ _ _ _ _ _ _ I Cl Nb Ho) in R as [K R]. split_and!; [|done|].
  - eapply kept_weaken; [|exact K]. intros p Hp. split; intros ->; [eapply Hp; by left | eapply Hp; by right].
  - destruct r as [u|e]; [destruct R as (_ & ? & ? & _) | destruct R as (-> & ? & ?)]; eauto.
Qed.

Lemma replicated_foreign d l all framed r l' d' :
  holds d l all -> offsets_left l -> bytes_ok framed -> Log.append_replicated framed l d = (r, l', d') ->
  kept (foreign (Log.dir_ l)) d d' /\ Log.dir_ l' = Log.dir_ l.
Proof.
  intros (bss & bs & base & _ & I & Cl) Ho Hb E. assert (Disk.good d) as Gd by apply I.
  apply replicate_steps in E as [(e & _ & -> & ->) | (h & st & l1 & d1 & B & _ & Mr & Out)]; [by split; [apply kept_refl|]|].
  destruct (room_foreign _ _ _ _ _ _ _ _ _ I Cl Ho Mr) as (K & Ed & bss' & bs' & base' & I' & Cl').
  destruct st as [u|e]; [|destruct Out as (_ & -> & ->); done].
  pose proof (store_dir _ _ _ _ _ _ _ Out) as Ed'.
  apply (store_spec _ _ _ _ _ _ _ _ _ _ I' Cl' Hb B) in Out as [K' _]. split; [|congruence].
  eapply kept_trans; [|exact K|exact K']. intros p Hp. split; [done|]. intros ->. apply (Hp base'). left. congruence.
Qed.

(** The same of an append of one's own, with the offset and the size it was accepted at. *)
Lemma append_foreign d l all vs meta b r b' l' d' :
  holds d l all -> offsets_left l -> meta_wf meta -> vs <> [] -> Forall bytes_ok vs ->
  add_records BatchBuilder.new vs = (Ok tt, b) -> Log.append b meta l d = (r, b', l', d') ->
  kept (foreign (Log.dir_ l)) d d' /\ same_settings l l' /\
  match r with
  | Ok o => o = Log.next_offset_ l /\ Log.next_offset_ l' = u64 (o + zlen vs) /\
      zlen (batch_bytes o meta vs) <= Log.segment_max_bytes (Log.options_ l)
  | fail _ => Log.next_offset_ l' = Log.next_offset_ l
  end.
Proof.
  intros Hh Ho Hm Hv Hvs Ab E. pose proof Hh as (bss & bs & base & _ & I & Cl). assert (Disk.good d) as Gd by apply I.
  assert (forall o, r = Ok o -> 52 + zlen (body_bytes vs) <= Log.segment_max_bytes (Log.options_ l)) as Sz.
  { intros o ->. destruct (add_records_fit vs _ [] _ (clear_holds _) ltac:(by vm_compute) Ab) as [Hb _].
    unfold Log.append in E. destruct (BatchBuilder.empty b); [done|]. destruct (_ <? _) eqn:X; [done|]. bool_prop.
    unfold BatchBuilder.framed_bytes in X. by rewrite (holds_size _ _ Hb) in X. }
  assert (0 <= Log.next_offset_ l < 2 ^ 64) as Hn.
  { destruct I as [_ (segs & active & _ & _ & S) _]. apply seg_at_bounds in S as (? & ? & ? & _). lia. }
  apply append_steps with (vs := vs) in E as [(e & -> & -> & ->) | (bytes & st & l1 & d1 & Mr & Out)];
    [by split; [apply kept_refl|] | |done..|intros ? ? ? ? Mr; by eapply room_holds].
  destruct (room_foreign _ _ _ _ _ _ _ _ _ I Cl Ho Mr) as (K & Ed & bss' & bs' & base' & I' & Cl').
  destruct (room_holds _ _ _ _ _ _ _ Hh Ho Mr) as (_ & Ss & En).
  destruct st as [u|e]; [|destruct Out as (-> & -> & ->); done].
  destruct Out as (h & st2 & Hb & B & E1 & E2 & St & ->).
  apply (store_spec _ _ _ _ _ _ _ _ _ _ I' Cl' Hb B) in St as (K' & _ & Ss' & _ & R).
  split; [|split].
  - eapply kept_trans; [|exact K|exact K']. intros p Hp. split; [done|]. intros ->. apply (Hp base'). left. congruence.
  - destruct Ss as (A1 & A2 & A3), Ss' as (B1 & B2 & B3). split_and!; congruence.
  - destruct st2 as [u2|e]; [|destruct R as [-> _]; done]. destruct R as (_ & R2 & _). rewrite zlen_batch_bytes.
    split_and!; [done | congruence | by apply Sz with (Log.next_offset_ l)].
Qed.

End Cut.
