(* ===== verification/LogProps.v ===== *)
(** * Properties of the partition log

    The contract of each operation of [Log], the exactness of its recovery and the
    durability of what it acknowledged, over any disk; concrete runs on the simulated
    disk. *)
From S2P Require Import Prelude Random Base RecordBatch SparseIndex Disk SimDisk.
From S2P Require Import Segment Chain SegmentFacts SegmentProps Log LogFacts LogRecovery LogDurable.

Section Contracts.
#[local] Set Default Proof Using "Type*".
Context {D : Type} `{DL : Disk.laws D}.

Lemma room_next (d : D) l all : holds d l all -> Log.next_offset_ l + 2 ^ 32 <= 2 ^ 64 ->
  0 <= Log.next_offset_ l < 2 ^ 64 /\
  forall bytes st l1 d1, Log.make_room bytes l d = (st, l1, d1) -> Log.next_offset_ l1 = Log.next_offset_ l.
Proof.
  intros Hh Hn. split; [|intros bytes st l1 d1 Mr; by eapply room_holds].
  destruct Hh as (bss & bs & base & _ & [_ (segs & active & _ & _ & S) _] & _).
  apply seg_at_bounds in S as (? & ? & ? & _). lia.
Qed.

Lemma records_few vs : 52 + zlen (body_bytes vs) <= kMaxBatchBytes -> zlen vs < 2 ^ 32.
Proof. intros Hm. pose proof (zlen_body_bytes vs). unfold kMaxBatchBytes in Hm. pose proof (zlen_nonneg vs). lia. Qed.

End Contracts.

(** ** Properties *)

(** C13: Appending.  On any disk that keeps its contract, [append] either fails and leaves
    the log holding the batches it held, or adds exactly one batch, framed from the builder's
    records at the offset it returns, which is the offset the log had promised, and moves on
    by the number of records; a roll to a new segment on the way changes nothing of this. *)
Theorem log_append_contract (D : Type) (DO : Disk.t D) (DV : Disk.view D) (d d' : D) (l l' : Log.t)
    (all : list (list Z)) (b b' : BatchBuilder.t) (vs : list (list Z)) (meta : BatchMeta) (r : Result Z) :
  Disk.laws D -> holds d l all -> Log.next_offset_ l + 2 ^ 32 <= 2 ^ 64 -> meta_wf meta -> vs <> [] ->
  Forall bytes_ok vs -> add_records BatchBuilder.new vs = (Ok tt, b) -> Log.append b meta l d = (r, b', l', d') ->
  match r with
  | Ok o => o = Log.next_offset_ l /\ Log.next_offset_ l' = o + zlen vs /\ holds d' l' (all ++ [batch_bytes o meta vs])
  | fail _ => Log.next_offset_ l' = Log.next_offset_ l /\ holds d' l' all
  end.
Proof.
  intros DL Hh Hn Hm Hv Hvs Ab E. destruct (room_next _ _ _ Hh Hn) as [Ho Nx].
  destruct (add_records_fit vs _ [] _ (clear_holds _) ltac:(by vm_compute) Ab) as [_ Hmax].
  pose proof (records_few vs Hmax) as Hf. pose proof (zlen_nonneg vs).
  apply (append_steps _ _ _ _ _ _ _ _ _ Ab Hv Hvs Hm Ho Nx) in E
    as [(e & -> & -> & ->) | (bytes & st & l1 & d1 & Mr & Out)]; [done|].
  destruct (room_holds _ _ _ _ _ _ _ Hh Hn Mr) as (Hh1 & _ & En). destruct st as [u|e].
  - destruct Out as (h & st2 & Hb & B & _ & E2 & St & ->).
    destruct (store_holds _ _ _ _ _ _ _ _ Hh1 Hb B St) as [_ R]. destruct st2.
    + destruct R as (_ & E3 & R). rewrite wrap_small in E2 by lia. split_and!; [done | congruence | done].
    + destruct R as [-> R]. done.
  - destruct Out as (-> & -> & ->). done.
Qed.

(** Replicating.  [append_replicated] accepts a frame only if it is one whole, valid
    batch that starts at the log's next offset, and stores those very bytes; otherwise the
    log holds what it held. *)
Theorem log_replicate_contract (D : Type) (DO : Disk.t D) (DV : Disk.view D) (d d' : D) (l l' : Log.t)
    (all : list (list Z)) (framed : list Z) (r : Status) :
  Disk.laws D -> holds d l all -> Log.next_offset_ l + 2 ^ 32 <= 2 ^ 64 -> bytes_ok framed ->
  Log.append_replicated framed l d = (r, l', d') ->
  match r with
  | Ok _ => exists h, is_batch framed h /\ base_offset h = Log.next_offset_ l /\
      Log.next_offset_ l' = next_offset h /\ holds d' l' (all ++ [framed])
  | fail _ => Log.next_offset_ l' = Log.next_offset_ l /\ holds d' l' all
  end.
Proof.
  intros DL Hh Hn Hb E.
  apply replicate_steps in E as [(e & -> & -> & ->) | (h & st & l1 & d1 & B & Eb & Mr & Out)]; [done|].
  destruct (room_holds _ _ _ _ _ _ _ Hh Hn Mr) as (Hh1 & _ & En). destruct st as [u|e].
  - destruct (store_holds _ _ _ _ _ _ _ _ Hh1 Hb B Out) as [_ R]. destruct r.
    + destruct R as (_ & E3 & R). exists h. by split_and!.
    + destruct R as [-> R]. done.
  - destruct Out as (-> & -> & ->). done.
Qed.

(** C14: Reading.  A read inside the log returns whole batches, in order and as stored,
    beginning with the one that contains the offset; it stops only at the end of the log, in
    front of a batch that does not fit the buffer any more, or in front of a batch that begins
    another segment.  It fails only if the first batch does not fit, or if the disk fails to
    deliver.  Behind the end it returns nothing, before the start it says so, and it never
    changes a file. *)
Theorem log_read_contract (D : Type) (DO : Disk.t D) (DV : Disk.view D) (d d' : D) (l : Log.t)
    (all : list (list Z)) (offset n : Z) (r : Result (list Z)) :
  Disk.laws D -> holds d l all -> 0 <= n -> Log.read l offset n d = (r, d') ->
  Disk.same d d' /\
  if Log.next_offset_ l <=? offset then r = Ok []
  else if offset <? Log.start_offset_ l then r = fail kOffsetOutOfRange
  else (exists us v ws rest, all = us ++ (v :: ws) ++ rest /\ contains offset v /\
         if n <? zlen v then r = fail kMessageTooLarge
         else r = Ok (cat (v :: ws)) /\ zlen (cat (v :: ws)) <= n /\ stops l n (v :: ws) rest) \/
       exists e, r = fail e /\ read_failed e.
Proof.
  intros DL Hh Hn E. assert (Disk.good d) as G by (destruct Hh as (bss & bs & base & _ & I & _); apply I).
  destruct (_ <=? offset) eqn:E1; [|destruct (offset <? _) eqn:E2].
  - unfold Log.read in E. rewrite E1 in E. injection E as <- <-. split; [by apply same_refl | done].
  - unfold Log.read in E. rewrite E1, E2 in E. injection E as <- <-. split; [by apply same_refl | done].
  - bool_prop. eapply log_read_inside; eauto.
Qed.

(** Leader epochs.  [scan_epochs] rebuilds a cache that answers for every offset the
    log holds: the last boundary at or below the offset carries the leader epoch of the batch
    that contains it. *)
Theorem log_epochs_faithful (D : Type) (DO : Disk.t D) (DV : Disk.view D) (d d' : D) (l : Log.t)
    (all : list (list Z)) (r : Result (list EpochBoundary)) :
  Disk.laws D -> holds d l all -> Log.scan_epochs l d = (r, d') ->
  Disk.same d d' /\
  match r with
  | fail e => read_failed e
  | Ok epochs => forall us v vs h offset, all = us ++ v :: vs -> decode_header v = Ok h ->
      base_offset h <= offset < next_offset h -> epoch_before epochs offset = Some (leader_epoch h)
  end.
Proof.
  intros DL Hh E. destruct (holds_linked _ _ _ Hh) as (hs & F & L).
  destruct Hh as (bss & bs & base & -> & [G (segs & active & Es & C & S) M] & _).
  unfold Log.scan_epochs in E. rewrite Es in E.
  destruct (scan_segments_spec _ _ _ _ _ _ _ _ _ _ _ _ _ _ C S F E) as [Sm R]. split; [done|].
  destruct R as [-> | (e & -> & Hf)]; [|done]. intros us v vs h offset Ea Dh Ho. rewrite Ea in F.
  apply Forall2_app_inv_l in F as (h1 & h2 & _ & F2 & ->). apply Forall2_cons_inv_l in F2 as (h' & h3 & Dh' & _ & ->).
  rewrite Dh in Dh'. injection Dh' as <-. by eapply epochs_faithful.
Qed.

(** C15: Truncating.  A cut that succeeds leaves a log that holds the batches in front of
    the offset, ends there, and has no stale segment left to stumble over, provided files
    that exist can be removed. *)
Theorem log_truncate_contract (D : Type) (DO : Disk.t D) (DV : Disk.view D) (d d' : D) (l l' : Log.t)
    (all : list (list Z)) (offset : Z) :
  Disk.laws D -> Disk.removes D -> holds d l all -> Log.truncate_to offset l d = (Ok tt, l', d') ->
  Log.start_offset_ l <= offset <= Log.next_offset_ l /\ Log.next_offset_ l' = offset /\
  exists xs ys, all = xs ++ ys /\ chain (Log.start_offset_ l) xs offset /\ holds d' l' xs.
Proof.
  intros DL SD Hh E. assert (Log.start_offset_ l <= offset <= Log.next_offset_ l) as Hr.
  { unfold Log.truncate_to in E. destruct (_ <? offset) eqn:E1; [done|]. destruct (offset <? _) eqn:E2; [done|].
    bool_prop. lia. }
  split; [done|]. destruct (decide (offset = Log.next_offset_ l)) as [->|Hne].
  { unfold Log.truncate_to in E. rewrite Z.ltb_irrefl, (proj2 (Z.ltb_ge _ _)), Z.eqb_refl in E by lia.
    injection E as <- <-. split; [done|]. exists all, []. rewrite app_nil_r. split_and!; [done | by eapply holds_chain | done]. }
  pose proof Hh as (bss & bs & base & -> & I & Cl).
  apply (log_truncate_inv _ _ _ _ _ _ _ _ _ I) in E as ((T1 & T2 & T3) & Cl' & En & bss' & bs' & lo & rest & I' & Ea); [|lia].
  split; [done|]. assert (holds d' l' (concat bss' ++ bs')) as Hh'.
  { exists bss', bs', lo. split_and!; [done | done | by apply Cl']. }
  exists (concat bss' ++ bs'), rest. split_and!; [done | | done].
  apply holds_chain in Hh'. by rewrite T3, En in Hh'.
Qed.


(** C6: What the log acknowledged survives a power cut.  Open a log whose files are on the
    platter, append and replicate batches with reads, flushes and rolls in between, [fsync],
    carry on, and cut the power at any point: if the log opens again, it holds the batches it
    first opened with and every batch accepted before the [fsync], in order and in front of
    whatever else survived.  The disk is steady, which the disk of the process need not be: a
    write that fails has written nothing, sizes are known, files can be removed.  The power cut
    leaves every file its name.  The sidecars are honest at both openings: an entry is the
    boundary of a valid batch, or points behind the valid batches at bytes that are not the
    header it claims. *)
Theorem log_fsync_durable (D : Type) (DO : Disk.t D) (DV : Disk.view D) (crashed : D -> D -> Prop)
    (d d1 d2 d3 d4 d5 d6 : D) (dir : chars) (options : Log.Options) (bases bases' : list Z)
    (l l1 l2 l' : Log.t) (acc1 acc2 : list (list Z)) :
  Disk.laws D -> Disk.steady D -> Disk.crash_laws D crashed ->
  Disk.good d -> Disk.dir_path dir -> Log.segment_max_bytes options < 2 ^ 32 ->
  segment_files (Disk.make_directories dir d).2 dir bases -> Forall (honest_at d dir) bases -> all_settled d dir bases ->
  Log.open dir options d = (Ok l, d1) ->
  logged l d1 acc1 l1 d2 -> Log.fsync l1 d2 = (Ok tt, d3) -> logged l1 d3 acc2 l2 d4 ->
  crashed d4 d5 -> segment_files (Disk.make_directories dir d5).2 dir bases' -> Forall (honest_at d5 dir) bases' ->
  Log.open dir options d5 = (Ok l', d6) ->
  exists more, holds d6 l' (concat (surviving d dir bases).*2 ++ acc1 ++ more).
Proof.
  intros DL SD CL G Hd M Sf Hh Hs O1 R1 Fs R2 Cr Sf5 Hh5 O2.
  pose proof (open_standing _ _ _ _ _ _ G Hd M Sf Hh Hs O1) as S1.
  assert (Log.dir_ l = dir) as Ed by (by destruct (open_grounded _ _ _ _ _ _ G Hd M Sf Hh O1) as (? & _)).
  pose proof (standing_logged _ _ _ _ _ _ _ R1 S1) as S2.
  apply (standing_fsync _ _ _ _ _ _ S2) in Fs as [_ S3]. specialize (S3 eq_refl).
  pose proof (standing_logged _ _ _ _ _ _ _ R2 S3) as S4.
  assert (Log.dir_ l2 = dir) as Ed2 by (by rewrite (logged_dir _ _ _ _ _ R2), (logged_dir _ _ _ _ _ R1)).
  destruct (crash_reopens crashed _ _ _ _ _ _ _ _ _ _ S4 Cr Ed2 Hd M Sf5 Hh5 O2) as (more & Hm).
  exists more. by rewrite app_assoc.
Qed.

(** ** Concrete runs *)

(** [segment_files], decided from the files and the listing. *)
Definition names_segment (dir : chars) (bases : list Z) (p : chars) : bool :=
  existsb (fun v => bool_decide (p = log_path dir v)) bases || negb (bool_decide (last p = Some "g"%char)).

Definition segment_files_b {D : Type} `{Disk.t D} `{Disk.view D} (d : D) (dir : chars) (bases : list Z) : bool :=
  bool_decide (StronglySorted Z.lt bases) &&
  forallb (fun v => (0 <=? v) && (v + 2 ^ 32 <=? 2 ^ 64)) bases &&
  forallb (names_segment dir bases) (map_to_list (Disk.files d)).*1 &&
  forallb (fun v => bool_decide (is_Some (Disk.files d !! log_path dir v))) bases &&
  match (Disk.list_directory dir d).1 with
  | Ok names => forallb (fun name =>
      match Segment.parse_log_name name with
      | Ok v => bool_decide (name = Segment.log_name v) && bool_decide (v ∈ bases)
      | fail _ => true
      end) names
  | fail _ => true
  end.

Lemma segment_files_check {D : Type} `{Disk.t D} `{Disk.view D} (d : D) dir bases :
  segment_files_b d dir bases = true -> segment_files d dir bases.
Proof.
  unfold segment_files_b. rewrite !andb_true_iff, !forallb_forall. intros ((((S & B) & N) & F) & L).
  apply bool_decide_eq_true in S.
  assert (Forall bounded bases) as Hb.
  { apply Forall_forall. intros v Hv. apply list_elem_of_In, B in Hv. unfold bounded. bool_prop. lia. }
  split; [done | done | |].
  - intros v Hv. split.
    + intros [b Hf]. assert (names_segment dir bases (log_path dir v) = true) as Hn.
      { apply N, list_elem_of_In, list_elem_of_fmap. exists (log_path dir v, b). split; [done|]. by apply elem_of_map_to_list. }
      unfold names_segment in Hn. rewrite log_path_last, bool_decide_eq_true_2, orb_false_r in Hn by done.
      apply existsb_exists in Hn as (w & Hw & Ew). apply bool_decide_eq_true in Ew. apply list_elem_of_In in Hw.
      rewrite Forall_forall in Hb. specialize (Hb w Hw). unfold bounded in Hb. apply log_path_inj in Ew; [by subst | lia | lia].
    + intros Hin. apply list_elem_of_In, F in Hin. by apply bool_decide_eq_true in Hin.
  - intros names d' name v E Hn Hp. rewrite E in L. simpl in L. rewrite forallb_forall in L.
    apply list_elem_of_In, L in Hn. rewrite Hp in Hn. bool_prop. by rewrite !bool_decide_eq_true in *.
Qed.

Definition log_dir : chars := lit "d".
Definition log_options : Log.Options := Log.mkOptions 130 16.
Definition log_meta (epoch : Z) : BatchMeta := mkBatchMeta epoch false 0 0 0 0.
Definition no_log : Log.t := Log.mk [] log_options [] 0 0 (Log.mkReport 0 0 0 0 false).
Definition log_of (r : Result Log.t) : Log.t := value_or r no_log.
Definition built (vs : list (list Z)) : BatchBuilder.t := (add_records BatchBuilder.new vs).2.

(** [append] of one batch, for the log and the disk behind it. *)
Definition put (epoch : Z) (vs : list (list Z)) (l : Log.t) (d : SimDisk.t Z) :=
  Log.append (built vs) (log_meta epoch) l d.
Definition after {A B} (r : A * B * Log.t * SimDisk.t Z) : Log.t * SimDisk.t Z := (r.1.2, r.2).

Definition disk0 : SimDisk.t Z := SimDisk.new 0 quiet.
Definition log0 := Log.open log_dir log_options disk0.
Definition put1 := put 1 [[7; 8]; [9]] (log_of log0.1) log0.2.
Definition put2 := put 1 [[1]] (after put1).1 (after put1).2.
Definition put3 := put 2 [[5; 5; 5]] (after put2).1 (after put2).2.

Lemma logged_put p epoch vs l d o acc l'' d'' :
  p = put epoch vs l d -> p.1.1.1 = Ok o ->
  offsets_left l -> 0 <= epoch < 2 ^ 32 -> vs <> [] ->
  forallb (forallb (fun b => (0 <=? b) && (b <? 256))) vs = true -> (add_records BatchBuilder.new vs).1 = Ok tt ->
  logged (after p).1 (after p).2 acc l'' d'' ->
  logged l d (batch_bytes o (log_meta epoch) vs :: acc) l'' d''.
Proof.
  intros E Eo Ho He Hv Hb Ha R. apply forallb_bytes in Hb. destruct p as [[[r b] l'] d']. simpl in Eo. subst r.
  refine (logged_append l d vs (log_meta epoch) _ (Ok o) b l' d' acc l'' d'' Ho _ Hv Hb _ (eq_sym E) R).
  - unfold meta_wf. simpl. lia.
  - rewrite (surjective_pairing (add_records _ _)). by rewrite Ha.
Qed.

Lemma log_dir_path : Disk.dir_path log_dir.
Proof. by left. Qed.

Lemma disk0_fresh : segment_files (Disk.make_directories log_dir disk0).2 log_dir [].
Proof. apply segment_files_check. vm_compute. reflexivity. Qed.

Lemma disk0_settled : all_settled disk0 log_dir [].
Proof. intros v Hv. by apply elem_of_nil in Hv. Qed.

Lemma log0_standing : standing log0.2 (log_of log0.1) [] [].
Proof.
  refine (open_standing disk0 log_dir log_options [] (log_of log0.1) log0.2 _ _ _ disk0_fresh _ _ _).
  - apply SimDisk.new_good.
  - left. done.
  - done.
  - constructor.
  - apply disk0_settled.
  - vm_compute. reflexivity.
Qed.

Definition batch1 := batch_bytes 0 (log_meta 1) [[7; 8]; [9]].
Definition batch2 := batch_bytes 2 (log_meta 1) [[1]].
Definition batch3 := batch_bytes 3 (log_meta 2) [[5; 5; 5]].

Ltac logged_put p :=
  apply (logged_put p);
  [unfold p; reflexivity | vm_compute; reflexivity | vm_compute; discriminate | done | done | reflexivity
  | vm_compute; reflexivity |].

Lemma run12 : logged (log_of log0.1) log0.2 [batch1; batch2] (after put2).1 (after put2).2.
Proof. logged_put put1. logged_put put2. apply logged_nothing. Qed.

Lemma run3 : logged (after put2).1 (after put2).2 [batch3] (after put3).1 (after put3).2.
Proof. logged_put put3. apply logged_nothing. Qed.

Lemma log2_holds : holds (after put2).2 (after put2).1 [batch1; batch2].
Proof. exact (standing_holds _ _ _ _ (standing_logged _ _ _ _ _ [] [] run12 log0_standing)). Qed.

Lemma log3_holds : holds (after put3).2 (after put3).1 [batch1; batch2; batch3].
Proof.
  exact (standing_holds _ _ _ _ (standing_logged _ _ _ _ _ [batch1; batch2] [] run3
    (standing_logged _ _ _ _ _ [] [] run12 log0_standing))).
Qed.

Lemma log_append_contract_witness :
  length (Log.segments_ put3.1.2) = 2%nat /\ Log.next_offset_ put3.1.2 = 3 + 1 /\
  holds put3.2 put3.1.2 ([batch1; batch2] ++ [batch3]).
Proof.
  split; [vm_compute; reflexivity|].
  refine (proj2 (log_append_contract (SimDisk.t Z) SimDisk.sim_disk SimDisk.sim_view (after put2).2 put3.2 (after put2).1
    put3.1.2 [batch1; batch2] (built [[5; 5; 5]]) put3.1.1.2 [[5; 5; 5]] (log_meta 2) (Ok 3) SimDisk.sim_laws
    log2_holds _ _ _ _ _ _)).
  - vm_compute. discriminate.
  - unfold meta_wf. simpl. lia.
  - discriminate.
  - apply forallb_bytes. reflexivity.
  - vm_compute. reflexivity.
  - vm_compute. reflexivity.
Defined.

Definition batch4 := batch_bytes 4 (log_meta 3) [[1; 2; 3; 4; 5]].
Definition rep4 := Log.append_replicated batch4 (after put3).1 (after put3).2.

Lemma log_replicate_contract_witness :
  rep4.1.1 = Ok tt /\ exists h, is_batch batch4 h /\ base_offset h = Log.next_offset_ (after put3).1 /\
    Log.next_offset_ rep4.1.2 = next_offset h /\ holds rep4.2 rep4.1.2 ([batch1; batch2; batch3] ++ [batch4]).
Proof.
  split; [vm_compute; reflexivity|].
  refine (log_replicate_contract (SimDisk.t Z) SimDisk.sim_disk SimDisk.sim_view (after put3).2 rep4.2 (after put3).1
    rep4.1.2 [batch1; batch2; batch3] batch4 (Ok tt) SimDisk.sim_laws log3_holds _ _ _).
  - vm_compute. discriminate.
  - apply bytes_ok_forallb. vm_compute. reflexivity.
  - vm_compute. reflexivity.
Defined.

Definition read1 := Log.read (after put3).1 1 100 (after put3).2.

Lemma log_read_contract_witness :
  read1.1 = Ok batch1 /\ Disk.same (after put3).2 read1.2 /\
  ((exists us v ws rest, [batch1; batch2; batch3] = us ++ (v :: ws) ++ rest /\ contains 1 v /\
     if 100 <? zlen v then Ok batch1 = fail kMessageTooLarge
     else Ok batch1 = Ok (cat (v :: ws)) /\ zlen (cat (v :: ws)) <= 100 /\ stops (after put3).1 100 (v :: ws) rest) \/
   exists e, Ok batch1 = fail e /\ read_failed (D := SimDisk.t Z) e).
Proof.
  split; [vm_compute; reflexivity|].
  assert ((Log.next_offset_ (after put3).1 <=? 1) = false) as E1 by (vm_compute; reflexivity).
  assert ((1 <? Log.start_offset_ (after put3).1) = false) as E2 by (vm_compute; reflexivity).
  assert (Log.read (after put3).1 1 100 (after put3).2 = (Ok batch1, read1.2)) as E3 by (vm_compute; reflexivity).
  pose proof (log_read_contract (SimDisk.t Z) SimDisk.sim_disk SimDisk.sim_view (after put3).2 read1.2 (after put3).1
    [batch1; batch2; batch3] 1 100 (Ok batch1) SimDisk.sim_laws log3_holds ltac:(done) E3) as T.
  rewrite E1, E2 in T. exact T.
Defined.

Definition scan3 := Log.scan_epochs (after put3).1 (after put3).2.

Lemma log_epochs_faithful_witness :
  scan3.1 = Ok [mkBoundary 1 0; mkBoundary 2 3] /\ Disk.same (after put3).2 scan3.2 /\
  forall us v vs h offset, [batch1; batch2; batch3] = us ++ v :: vs -> decode_header v = Ok h ->
    base_offset h <= offset < next_offset h ->
    epoch_before [mkBoundary 1 0; mkBoundary 2 3] offset = Some (leader_epoch h).
Proof.
  assert (Log.scan_epochs (after put3).1 (after put3).2 = (Ok [mkBoundary 1 0; mkBoundary 2 3], scan3.2)) as E
    by (vm_compute; reflexivity).
  split; [vm_compute; reflexivity|].
  exact (log_epochs_faithful (SimDisk.t Z) SimDisk.sim_disk SimDisk.sim_view (after put3).2 scan3.2 (after put3).1
    [batch1; batch2; batch3] (Ok [mkBoundary 1 0; mkBoundary 2 3]) SimDisk.sim_laws log3_holds E).
Defined.

Definition cut2 := Log.truncate_to 2 (after put3).1 (after put3).2.

Lemma log_truncate_contract_witness :
  length (Log.segments_ cut2.1.2) = 1%nat /\ Log.next_offset_ cut2.1.2 = 2 /\
  exists xs ys, [batch1; batch2; batch3] = xs ++ ys /\ chain (Log.start_offset_ (after put3).1) xs 2 /\
    holds cut2.2 cut2.1.2 xs.
Proof.
  assert (Log.truncate_to 2 (after put3).1 (after put3).2 = (Ok tt, cut2.1.2, cut2.2)) as E by (vm_compute; reflexivity).
  split; [vm_compute; reflexivity|].
  exact (proj2 (log_truncate_contract (SimDisk.t Z) SimDisk.sim_disk SimDisk.sim_view (after put3).2 cut2.2 (after put3).1
    cut2.1.2 [batch1; batch2; batch3] 2 SimDisk.sim_laws SimDisk.sim_removes log3_holds E)).
Defined.

(** A sidecar that decodes to nothing claims nothing. *)
Lemma honest_silent {D : Type} `{Disk.view D} (d : D) dir v :
  match Disk.files d !! index_path dir v with
  | Some ib => SparseIndex.decode ib (zlen (found_bytes d (log_path dir v)))
  | None => []
  end = [] -> honest_at d dir v.
Proof. intros E ib Hib. rewrite Hib in E. rewrite E. constructor. Qed.



(** The same run with an [fsync] behind the second batch. *)
Definition sync2 := Log.fsync (after put2).1 (after put2).2.
Definition put3' := put 2 [[5; 5; 5]] (after put2).1 sync2.2.
Definition reboot3' := SimDisk.power_on (SimDisk.crash (after put3').2).
Definition reopen3' := Log.open log_dir log_options reboot3'.

Lemma run3' : logged (after put2).1 sync2.2 [batch3] (after put3').1 (after put3').2.
Proof. logged_put put3'. apply logged_nothing. Qed.

Lemma log_fsync_durable_witness :
  exists more, holds reopen3'.2 (log_of reopen3'.1) (concat (surviving disk0 log_dir []).*2 ++ [batch1; batch2] ++ more).
Proof.
  assert (Log.open log_dir log_options disk0 = (Ok (log_of log0.1), log0.2)) as E0 by (vm_compute; reflexivity).
  assert (Log.fsync (after put2).1 (after put2).2 = (Ok tt, sync2.2)) as E1 by (vm_compute; reflexivity).
  assert (Log.open log_dir log_options reboot3' = (Ok (log_of reopen3'.1), reopen3'.2)) as E2 by (vm_compute; reflexivity).
  assert (segment_files (Disk.make_directories log_dir reboot3').2 log_dir [0; 3]) as Sf.
  { apply segment_files_check. vm_compute. reflexivity. }
  assert (Forall (honest_at reboot3' log_dir) [0; 3]) as Hh.
  { repeat constructor; apply honest_silent; vm_compute; reflexivity. }
  exact (log_fsync_durable (SimDisk.t Z) SimDisk.sim_disk SimDisk.sim_view SimDisk.crashed disk0 log0.2 (after put2).2
    sync2.2 (after put3').2 reboot3' reopen3'.2 log_dir log_options [] [0; 3] (log_of log0.1) (after put2).1 (after put3').1
    (log_of reopen3'.1) [batch1; batch2] [batch3] SimDisk.sim_laws SimDisk.sim_steady SimDisk.sim_crash_laws
    (SimDisk.new_good 0 quiet) log_dir_path eq_refl disk0_fresh (Forall_nil_2 _) disk0_settled E0 run12 E1 run3' eq_refl Sf Hh E2).
Defined.
