(* ===== verification/LogFindings.v ===== *)
(** * Runs in which the partition log misbehaves

    Concrete runs of [Log] on the simulated disk, without any injected fault: a sidecar that
    outlived a truncation, a foreign file name that parses, and a truncation that fails
    half-way. *)
From S2P Require Import Prelude Random Base RecordBatch SparseIndex Disk SimDisk Segment.
From S2P Require Import Chain SegmentFacts SegmentProps Log LogFacts LogRecovery LogDurable LogProps.

Definition big_options : Log.Options := Log.mkOptions 4096 16.

(** Four batches, a clean shutdown that writes the sidecar, a restart, a cut back to offset 1
    and three other batches of the same total size; then the process dies without writing
    the sidecar again. *)
Definition stale0 := Log.open log_dir big_options disk0.
Definition stale1 := put 1 [[1]] (log_of stale0.1) stale0.2.
Definition stale2 := put 1 [[1]] (after stale1).1 (after stale1).2.
Definition stale3 := put 1 [[1; 1]] (after stale2).1 (after stale2).2.
Definition stale4 := put 1 [[1]] (after stale3).1 (after stale3).2.
Definition stale5 := Log.open log_dir big_options (Log.destroy (after stale4).1 (after stale4).2).
Definition stale6 := Log.truncate_to 1 (log_of stale5.1) stale5.2.
Definition stale7 := put 2 [[2; 2]] stale6.1.2 stale6.2.
Definition stale8 := put 2 [[2]] (after stale7).1 (after stale7).2.
Definition stale9 := put 2 [[2]] (after stale8).1 (after stale8).2.
Definition stale10 := Log.fsync (after stale9).1 (after stale9).2.
Definition stale11 := Log.open log_dir big_options stale10.2.

Definition fresh_batches : list (list Z) :=
  [batch_bytes 0 (log_meta 1) [[1]]; batch_bytes 1 (log_meta 2) [[2; 2]];
   batch_bytes 2 (log_meta 2) [[2]]; batch_bytes 3 (log_meta 2) [[2]]].

(** C18: A sidecar that outlived a truncation hides intact data.  The log file holds four
    valid batches, all fsynced, and the log opens and knows its end; yet a read of offset 2
    returns nothing, as if the reader were caught up, or calls the batch too large for a
    buffer that holds the whole log, because recovery verifies only the last entry of the sidecar and keeps
    the others, one of which points into the middle of a batch. *)
Theorem stale_sidecar_hides_data :
  (valid_batches 0 (found_bytes stale10.2 (log_path log_dir 0))).1 = fresh_batches /\ stale10.1 = Ok tt /\
  ok stale11.1 = true /\ Log.next_offset_ (log_of stale11.1) = 4 /\
  (Log.read (log_of stale11.1) 2 1048576 stale11.2).1 = Ok [] /\
  (Log.read (log_of stale11.1) 2 4096 stale11.2).1 = fail kMessageTooLarge.
Proof. vm_compute. by split_and!. Qed.

(** A directory with a log of three records, and an empty file whose name is 2^64 in twenty
    digits. *)
Definition stray_name : chars := lit "18446744073709551616.log".
Definition stray0 := put 1 [[1]; [2]; [3]] (log_of log0.1) log0.2.
Definition stray1 := Log.fsync (after stray0).1 (after stray0).2.
Definition stray2 := Disk.open (join log_dir stray_name) kCreate stray1.2.
Definition stray3 := Log.open log_dir log_options stray2.2.

(** A foreign file can delete the log.  The name of a twenty-digit number that does not
    fit 64 bits wraps to offset 0 when it is parsed; opening the log then takes it for a
    second segment at 0, finds that it does not continue the first, and removes the files
    named after offset 0: the fsynced log itself. *)
Theorem stray_name_deletes_log :
  Segment.parse_log_name stray_name = Ok 0 /\
  Disk.files stray2.2 !! log_path log_dir 0 = Some (batch_bytes 0 (log_meta 1) [[1]; [2]; [3]]) /\
  ok stray3.1 = true /\ Disk.files stray3.2 !! log_path log_dir 0 = None.
Proof. vm_compute. by split_and!. Qed.

Definition halfway := Log.truncate_to 1 (after put3).1 (after put3).2.
Definition halfway4 := put 3 [[1]] halfway.1.2 halfway.2.
Definition halfway5 := Log.fsync (after halfway4).1 (after halfway4).2.
Definition halfway6 := Log.open log_dir log_options halfway5.2.

(** C19: A cut that fails has already deleted segments.  Truncating a log of two segments to
    an offset inside its first batch is refused as an invalid argument, but by then the second
    segment is gone with its files, while the log still claims its old end.  It then accepts
    and fsyncs a batch at that end, behind the hole, and the next open discards that batch. *)
Theorem failed_truncate_loses_segments :
  bases (after put3).1 = [0; 3] /\ ok (put3.1.1.1) = true /\
  halfway.1.1 = fail kInvalidArgument /\ bases halfway.1.2 = [0] /\ Log.next_offset_ halfway.1.2 = 4 /\
  Disk.files halfway.2 !! log_path log_dir 3 = None /\
  halfway4.1.1.1 = Ok 4 /\ halfway5.1 = Ok tt /\
  ok halfway6.1 = true /\ Log.next_offset_ (log_of halfway6.1) = 3 /\ Disk.files halfway6.2 !! log_path log_dir 4 = None.
Proof. vm_compute. by split_and!. Qed.
