(* ===== verification/Posix.v ===== *)
(** * The kernel under the process

    Nothing here is code of the repository: the system calls that
    [src/src/io/real/real_disk.cpp] makes are the operations of the class [Posix], over a
    machine state [K], and what POSIX documents of them is [PosixLaws].  A call gives its
    value or sets [errno].

    The laws speak of inodes: a path names one, a descriptor holds on to one, and unlinking
    a path takes the name and not the bytes.  They are about the paths the process uses,
    of which they assume that they name regular files and that no two of them name the same
    file.  [pending_signals] bounds the calls that signals will still interrupt, without
    which nobody could promise that a loop that retries on [EINTR] ends. *)
From S2P Require Import Prelude Base Disk.

Inductive Errno := ENOENT | EINVAL | EINTR | EAGAIN | EPIPE | ECONNRESET | ENOTCONN | Eother (n : Z).

#[export] Instance Errno_eq_dec : EqDecision Errno.
Proof. solve_decision. Defined.

(** The result of a call. *)
Inductive Sys (A : Type) :=
| Done (a : A)
| Errno_is (e : Errno).
Arguments Done {A} a.
Arguments Errno_is {A} e.

(** The flags of [open]: the access mode, and [O_CREAT]. *)
Inductive Access := O_RDONLY | O_RDWR.
Record Flags := mkFlags { access : Access; o_creat : bool }.

#[export] Instance Access_eq_dec : EqDecision Access.
Proof. solve_decision. Defined.
#[export] Instance Flags_eq_dec : EqDecision Flags.
Proof. solve_decision. Defined.

(** [std::filesystem]'s error codes, as far as the code tells them apart. *)
Inductive DirError := no_such_file_or_directory | other_error.

Class Posix (K : Type) := {
  sys_open : chars -> Flags -> K -> Sys Z * K;
  sys_close : Z -> K -> K;
  sys_pwrite : Z -> list Z -> Z -> K -> Sys Z * K;
  sys_pread : Z -> Z -> Z -> K -> Sys (list Z) * K;
  sys_fsync : Z -> K -> Sys unit * K;
  sys_ftruncate : Z -> Z -> K -> Sys unit * K;
  sys_fstat : Z -> K -> Sys Z * K;
  sys_unlink : chars -> K -> Sys unit * K;
  create_directories : chars -> K -> bool * K;
  directory_iterator : chars -> K -> (DirError + list chars) * K;
  pending_signals : K -> nat }.

(** An open file description. *)
Record Description := mkDescription { via : chars; flags : Flags; ino : Z }.

Class PosixView (K : Type) := {
  sane : K -> Prop;
  names : K -> gmap chars Z;                (* the inode a path names *)
  inodes : K -> gmap Z (list Z);            (* the bytes of an inode *)
  descriptors : K -> gmap Z Description;
  synced : K -> Z -> list Z -> Prop }.      (* leading bytes of an inode that are on the platter *)

Section Frames.
Context {K : Type} `{Posix K} `{PosixView K}.

(** A call without effect. *)
Record idle (k k' : K) : Prop := {
  idle_sane : sane k';
  idle_names : names k' = names k;
  idle_inodes : inodes k' = inodes k;
  idle_descriptors : descriptors k' = descriptors k;
  idle_synced : forall i bs, synced k i bs -> synced k' i bs;
  idle_signals : (pending_signals k' <= pending_signals k)%nat }.

(** A call that gives the inode [i] the bytes [b], of which the first [n] were not touched. *)
Record writes (i : Z) (b : list Z) (n : Z) (k k' : K) : Prop := {
  writes_sane : sane k';
  writes_names : names k' = names k;
  writes_inodes : inodes k' = <[i := b]> (inodes k);
  writes_descriptors : descriptors k' = descriptors k;
  writes_others : forall j bs, j <> i -> synced k j bs -> synced k' j bs;
  writes_synced : forall bs, zlen bs <= n -> synced k i bs -> synced k' i bs;
  writes_signals : (pending_signals k' <= pending_signals k)%nat }.

(** The descriptor [fd] holds the inode [i], whose bytes are [b]. *)
Definition holds (k : K) (fd i : Z) (b : list Z) : Prop :=
  (exists ds, descriptors k !! fd = Some ds /\ ino ds = i) /\ inodes k !! i = Some b.

End Frames.

Class PosixLaws (K : Type) `{Posix K} `{PosixView K} : Prop := {
  inode_bytes k i b : sane k -> inodes k !! i = Some b -> bytes_ok b /\ zlen b < 2 ^ 63;
  name_inode k p i : sane k -> names k !! p = Some i -> is_Some (inodes k !! i);
  descriptor_inode k fd ds : sane k -> descriptors k !! fd = Some ds -> 0 <= fd /\ is_Some (inodes k !! ino ds);
  names_distinct k p q i : sane k -> names k !! p = Some i -> names k !! q = Some i -> p = q;
  synced_prefix k i bs b : sane k -> synced k i bs -> inodes k !! i = Some b -> bs `prefix_of` b;
  synced_shorter k i bs cs : cs `prefix_of` bs -> synced k i bs -> synced k i cs;
  synced_nil k i : synced k i [];

  open_law k p fl r k' : sane k -> sys_open p fl k = (r, k') ->
    match r with
    | Errno_is _ => idle k k'
    | Done fd => exists i,
        0 <= fd /\ descriptors k !! fd = None /\ sane k' /\
        descriptors k' = <[fd := mkDescription p fl i]> (descriptors k) /\
        (forall j bs, synced k j bs -> synced k' j bs) /\
        (names k !! p = Some i /\ names k' = names k /\ inodes k' = inodes k \/
         o_creat fl = true /\ names k !! p = None /\ inodes k !! i = None /\
         names k' = <[p := i]> (names k) /\ inodes k' = <[i := []]> (inodes k))
    end;

  close_law k fd : sane k ->
    sane (sys_close fd k) /\ names (sys_close fd k) = names k /\
    descriptors (sys_close fd k) = delete fd (descriptors k) /\
    (forall p i, names k !! p = Some i -> inodes (sys_close fd k) !! i = inodes k !! i) /\
    forall i bs, synced k i bs -> synced (sys_close fd k) i bs;

  (* a prefix of the data is written; negative offsets are refused *)
  pwrite_law k fd i b data off r k' : sane k -> holds k fd i b -> bytes_ok data -> sys_pwrite fd data off k = (r, k') ->
    match r with
    | Errno_is e => idle k k' /\ (e = EINTR -> (pending_signals k' < pending_signals k)%nat)
    | Done n => 0 <= off /\ 0 <= n <= zlen data /\ writes i (overwrite b off (ztake n data)) off k k'
    end;

  (* some bytes, and none at the end of the file only *)
  pread_law k fd i b n off r k' : sane k -> holds k fd i b -> sys_pread fd n off k = (r, k') ->
    idle k k' /\
    match r with
    | Errno_is e => e = EINTR -> (pending_signals k' < pending_signals k)%nat
    | Done bs => 0 <= off /\ bs `prefix_of` zsub off n b /\ (bs = [] -> zsub off n b = [])
    end;

  fsync_law k fd i b r k' : sane k -> holds k fd i b -> sys_fsync fd k = (r, k') ->
    idle k k' /\ (r = Done tt -> synced k' i b);

  ftruncate_law k fd i b n r k' : sane k -> holds k fd i b -> sys_ftruncate fd n k = (r, k') ->
    match r with
    | Errno_is _ => idle k k'
    | Done _ => 0 <= n /\ writes i (resize b n) n k k'
    end;

  fstat_law k fd i b r k' : sane k -> holds k fd i b -> sys_fstat fd k = (r, k') ->
    idle k k' /\ forall n, r = Done n -> n = zlen b;

  unlink_law k p r k' : sane k -> sys_unlink p k = (r, k') ->
    match r with
    | Errno_is _ => idle k k'
    | Done _ =>
        sane k' /\ names k' = delete p (names k) /\ descriptors k' = descriptors k /\
        (forall q i, q <> p -> names k !! q = Some i -> inodes k' !! i = inodes k !! i) /\
        (forall i bs, synced k i bs -> synced k' i bs)
    end;

  create_directories_law k p r k' : sane k -> create_directories p k = (r, k') -> idle k k';

  directory_law k dir r k' : sane k -> Disk.dir_path dir -> directory_iterator dir k = (r, k') ->
    idle k k' /\
    forall entries, r = inr entries -> NoDup entries /\
      forall name, name <> [] -> slash ∉ name -> is_Some (names k !! join dir name) -> name ∈ entries }.

(** A power cut: no process has a descriptor any more, and what was synced is still there.
    POSIX promises the bytes of a file and not its name: [fsync] of a file need not reach the
    directory that lists it. *)
Class PosixCrash (K : Type) `{PosixView K} (cut : K -> K -> Prop) : Prop := {
  cut_law k k' : sane k -> cut k k' ->
    sane k' /\ descriptors k' = ∅ /\ forall i bs, synced k i bs -> synced k' i bs }.

(** What a kernel may promise on top, and POSIX does not: a write takes all it is given or is
    refused, the size of an open file is known, a name that is there can be unlinked. *)
Class PosixWhole (K : Type) `{Posix K} `{PosixView K} : Prop := {
  whole_pwrite k fd i b data off n k' :
    sane k -> holds k fd i b -> bytes_ok data -> sys_pwrite fd data off k = (Done n, k') -> n = zlen data;
  whole_fstat k fd i b : sane k -> holds k fd i b -> (sys_fstat fd k).1 = Done (zlen b);
  whole_unlink k p : sane k -> is_Some (names k !! p) -> (sys_unlink p k).1 = Done tt }.

(** And a power cut that keeps the names and the sizes, as a journal does. *)
Class PosixJournal (K : Type) `{PosixView K} (cut : K -> K -> Prop) : Prop := {
  journal_law k k' : sane k -> cut k k' ->
    names k' = names k /\ forall i b, synced k i b -> inodes k !! i = Some b -> inodes k' !! i = Some b }.

(** ** A kernel as long as [Q] holds *)

Section Restricted.
Context {K : Type} `{PL : PosixLaws K} (Q : K -> Prop).

Definition restricted_view : PosixView K := {|
  sane k := sane k /\ Q k; names := names; inodes := inodes; descriptors := descriptors; synced := synced |}.

Record keeps_calls : Prop := {
  kc_open p fl k : Q k -> Q (sys_open p fl k).2;
  kc_close fd k : Q k -> Q (sys_close fd k);
  kc_pwrite fd data off k : Q k -> Q (sys_pwrite fd data off k).2;
  kc_pread fd n off k : Q k -> Q (sys_pread fd n off k).2;
  kc_fsync fd k : Q k -> Q (sys_fsync fd k).2;
  kc_ftruncate fd n k : Q k -> Q (sys_ftruncate fd n k).2;
  kc_fstat fd k : Q k -> Q (sys_fstat fd k).2;
  kc_unlink p k : Q k -> Q (sys_unlink p k).2;
  kc_directories p k : Q k -> Q (create_directories p k).2;
  kc_iterator p k : Q k -> Q (directory_iterator p k).2 }.

Lemma restricted_idle (k k' : K) : Q k' -> idle k k' -> idle (H0 := restricted_view) k k'.
Proof. intros Hq [I1 I2 I3 I4 I5 I6]. by split. Qed.

Lemma restricted_writes i b n (k k' : K) : Q k' -> writes i b n k k' -> writes (H0 := restricted_view) i b n k k'.
Proof. intros Hq [W1 W2 W3 W4 W5 W6 W7]. by split. Qed.

Lemma restricted_laws : keeps_calls -> PosixLaws K (H0 := restricted_view).
Proof using PL.
  intros [Q1 Q2 Q3 Q4 Q5 Q6 Q7 Q8 Q9 Q10]. split; cbn.
  - intros k i b [S _]. by apply inode_bytes.
  - intros k p i [S _]. by apply name_inode.
  - intros k fd ds [S _]. by apply descriptor_inode.
  - intros k p q i [S _]. by apply names_distinct.
  - intros k i bs b [S _]. by apply synced_prefix.
  - intros k i bs cs. apply synced_shorter.
  - intros k i. apply synced_nil.
  - intros k p fl r k' [S Hq] E. pose proof (Q1 p fl k Hq) as Hq'. rewrite E in Hq'. apply (open_law _ _ _ _ _ S) in E.
    destruct r as [fd|e]; [|by apply restricted_idle]. destruct E as (i & A & B & C & F1 & F2 & F3). exists i. split_and!; auto.
  - intros k fd [S Hq]. destruct (close_law _ fd S) as (A & B). split; [split; auto | done].
  - intros k fd i b data off r k' [S Hq] Ho Hb E. pose proof (Q3 fd data off k Hq) as Hq'. rewrite E in Hq'.
    apply (pwrite_law _ _ _ _ _ _ _ _ S Ho Hb) in E. destruct r as [n|e].
    + destruct E as (A & B & C). split_and!; try done; try apply B. by apply restricted_writes.
    + destruct E as [A B]. split; [by apply restricted_idle | done].
  - intros k fd i b n off r k' [S Hq] Ho E. pose proof (Q4 fd n off k Hq) as Hq'. rewrite E in Hq'.
    apply (pread_law _ _ _ _ _ _ _ _ S Ho) in E as [A B]. split; [by apply restricted_idle | done].
  - intros k fd i b r k' [S Hq] Ho E. pose proof (Q5 fd k Hq) as Hq'. rewrite E in Hq'.
    apply (fsync_law _ _ _ _ _ _ S Ho) in E as [A B]. split; [by apply restricted_idle | done].
  - intros k fd i b n r k' [S Hq] Ho E. pose proof (Q6 fd n k Hq) as Hq'. rewrite E in Hq'.
    apply (ftruncate_law _ _ _ _ _ _ _ S Ho) in E. destruct r as [u|e]; [|by apply restricted_idle].
    destruct E as [A B]. split; [done | by apply restricted_writes].
  - intros k fd i b r k' [S Hq] Ho E. pose proof (Q7 fd k Hq) as Hq'. rewrite E in Hq'.
    apply (fstat_law _ _ _ _ _ _ S Ho) in E as [A B]. split; [by apply restricted_idle | done].
  - intros k p r k' [S Hq] E. pose proof (Q8 p k Hq) as Hq'. rewrite E in Hq'. apply (unlink_law _ _ _ _ S) in E.
    destruct r as [u|e]; [|by apply restricted_idle]. destruct E as [A B]. by split.
  - intros k p r k' [S Hq] E. pose proof (Q9 p k Hq) as Hq'. rewrite E in Hq'.
    apply (create_directories_law _ _ _ _ S) in E. by apply restricted_idle.
  - intros k dir r k' [S Hq] Hd E. pose proof (Q10 dir k Hq) as Hq'. rewrite E in Hq'.
    apply (directory_law _ _ _ _ S Hd) in E as [A B]. split; [by apply restricted_idle | done].
Qed.

End Restricted.
