(* ===== verification/RealDisk.v ===== *)
(** * The disk of the process

    Models [src/src/io/real/real_disk.h]/[real_disk.cpp] over the kernel of [Posix.v]: the
    table of descriptors behind the file ids, the loops that finish short reads and writes
    and retry interrupted ones, and the translation of [errno].  File ids are positions of
    the table and not wrapped.  The loops run on fuel for every byte asked for and every
    signal still to come; [None] would be running out of it.  The [F_FULLFSYNC] of macOS is
    left out.

    The theorems: on a kernel that keeps to POSIX the loops come back, and the disk keeps
    the contract of the disk interface, so what is proved of segments and logs from that
    contract holds of a log on a real disk.  The disk is steady where the kernel's writes take
    everything or are refused, and keeps the contract of a power cut where the kernel keeps
    names; POSIX promises neither, and the program never syncs a directory. *)
From S2P Require Import Prelude Base Disk Posix.

Module RealDisk.

Definition errno_to_code (e : Errno) : ErrorCode :=
  match e with
  | ENOENT => kNotFound
  | EINVAL => kInvalidArgument
  | _ => kIoError
  end.

(** [static_cast<off_t>] of a 64-bit sum *)
Definition off_t (x : Z) : Z := i64 x.

Definition open_flags (mode : OpenMode) : Flags :=
  match mode with
  | kRead => mkFlags O_RDONLY false
  | kReadWrite => mkFlags O_RDWR false
  | kCreate => mkFlags O_RDWR true
  end.

Section Real.
Context {K : Type} `{Posix K}.

(** The object, and the machine it runs on. *)
Record t := mk { fds_ : list Z; kernel : K }.

#[global] Instance RealDisk_eta : Settable t := fun d => mk (fds_ d) (kernel d).

Definition new (k : K) : t := mk [] k.

(** [~RealDisk] *)
Definition destroy (d : t) : K := foldl (fun k fd => if 0 <=? fd then sys_close fd k else k) (kernel d) (fds_ d).

(** A file id is unsigned. *)
Definition fd_for (file : Z) (d : t) : Z :=
  if (file <? 0) || (zlen (fds_ d) <=? file) then -1 else at_ (fds_ d) file.

Definition open (path : chars) (mode : OpenMode) (d : t) : Result Z * t :=
  match sys_open path (open_flags mode) (kernel d) with
  | (Errno_is e, k) => (fail (errno_to_code e), d <| kernel := k |>)
  | (Done fd, k) => (Ok (zlen (fds_ d)), mk (fds_ d ++ [fd]) k)
  end.

Definition close (file : Z) (d : t) : t :=
  let fd := fd_for file d in
  if fd <? 0 then d
  else mk (splice (fds_ d) file [-1]) (sys_close fd (kernel d)).

Fixpoint pwrite_loop (fuel : nat) (fd : Z) (data : list Z) (offset written : Z) (k : K)
    : option (Result Z * K) :=
  match fuel with
  | O => None
  | S fuel' =>
      if negb (written <? zlen data) then Some (Ok written, k)
      else
        match sys_pwrite fd (zdrop written data) (off_t (offset + written)) k with
        | (Errno_is e, k) =>
            if bool_decide (e = EINTR) then pwrite_loop fuel' fd data offset written k
            else Some (fail (errno_to_code e), k)
        | (Done n, k) =>
            if n =? 0 then Some (Ok written, k)
            else pwrite_loop fuel' fd data offset (written + n) k
        end
  end.

Definition pwrite_fuel (data : list Z) (k : K) : nat := S (length data + pending_signals k).

Definition pwrite (file : Z) (data : list Z) (offset : Z) (d : t) : Result Z * t :=
  let fd := fd_for file d in
  if fd <? 0 then (fail kNotFound, d)
  else
    match pwrite_loop (pwrite_fuel data (kernel d)) fd data offset 0 (kernel d) with
    | Some (r, k) => (r, d <| kernel := k |>)
    | None => (fail kIoError, d)
    end.

(** The bytes that are in [out] so far. *)
Fixpoint pread_loop (fuel : nat) (fd size offset : Z) (out : list Z) (k : K) : option (Result (list Z) * K) :=
  match fuel with
  | O => None
  | S fuel' =>
      if negb (zlen out <? size) then Some (Ok out, k)
      else
        match sys_pread fd (size - zlen out) (off_t (offset + zlen out)) k with
        | (Errno_is e, k) =>
            if bool_decide (e = EINTR) then pread_loop fuel' fd size offset out k
            else Some (fail (errno_to_code e), k)
        | (Done bs, k) =>
            if zlen bs =? 0 then Some (Ok out, k)
            else pread_loop fuel' fd size offset (out ++ bs) k
        end
  end.

Definition pread_fuel (size : Z) (k : K) : nat := S (Z.to_nat size + pending_signals k).

Definition pread (file size offset : Z) (d : t) : Result (list Z) * t :=
  let fd := fd_for file d in
  if fd <? 0 then (fail kNotFound, d)
  else
    match pread_loop (pread_fuel size (kernel d)) fd size offset [] (kernel d) with
    | Some (r, k) => (r, d <| kernel := k |>)
    | None => (fail kIoError, d)
    end.

(** [if (call != 0) return fail(errno_to_code()); return value;] *)
Definition checked {A} (r : Sys A) : Result A :=
  match r with Done a => Ok a | Errno_is e => fail (errno_to_code e) end.

Definition fsync (file : Z) (d : t) : Status * t :=
  let fd := fd_for file d in
  if fd <? 0 then (fail kNotFound, d)
  else let '(r, k) := sys_fsync fd (kernel d) in (checked r, d <| kernel := k |>).

Definition truncate (file n : Z) (d : t) : Status * t :=
  let fd := fd_for file d in
  if fd <? 0 then (fail kNotFound, d)
  else let '(r, k) := sys_ftruncate fd (off_t n) (kernel d) in (checked r, d <| kernel := k |>).

Definition size (file : Z) (d : t) : Result Z * t :=
  let fd := fd_for file d in
  if fd <? 0 then (fail kNotFound, d)
  else let '(r, k) := sys_fstat fd (kernel d) in (checked r, d <| kernel := k |>).

Definition remove (path : chars) (d : t) : Status * t :=
  let '(r, k) := sys_unlink path (kernel d) in (checked r, d <| kernel := k |>).

Definition make_directories (path : chars) (d : t) : Status * t :=
  let '(ec, k) := create_directories path (kernel d) in
  (if ec : bool then fail kIoError else Ok tt, d <| kernel := k |>).

Definition list_directory (path : chars) (d : t) : Result (list chars) * t :=
  match directory_iterator path (kernel d) with
  | (inl no_such_file_or_directory, k) => (fail kNotFound, d <| kernel := k |>)
  | (inl other_error, k) => (fail kIoError, d <| kernel := k |>)
  | (inr entries, k) => (Ok (merge_sort chars_le entries), d <| kernel := k |>)
  end.

#[global] Instance real_disk : Disk.t t := {
  Disk.open := open; Disk.close := close; Disk.pwrite := pwrite; Disk.pread := pread;
  Disk.fsync := fsync; Disk.truncate := truncate; Disk.size := size; Disk.remove := remove;
  Disk.make_directories := make_directories; Disk.list_directory := list_directory }.

End Real.

#[global] Arguments t : clear implicits.

(** ** The loops come back *)

Section Loops.
#[local] Set Default Proof Using "Type*".
Context {K : Type} `{PL : PosixLaws K}.

Lemma overwrite_app b off xs ys :
  0 <= off -> overwrite (overwrite b off xs) (off + zlen xs) ys = overwrite b off (xs ++ ys).
Proof.
  intros Ho. pose proof (zlen_nonneg xs). pose proof (zlen_nonneg ys). pose proof (zlen_nonneg b).
  apply list_ext_at.
  - rewrite !zlen_overwrite, zlen_app by lia. cases_if; lia.
  - intros i Hi. rewrite !at_overwrite, zlen_app by lia.
    destruct (off + zlen xs <=? i) eqn:E1, (i <? off + zlen xs + zlen ys) eqn:E2, (off <=? i) eqn:E3,
      (i <? off + zlen xs) eqn:E4, (i <? off + (zlen xs + zlen ys)) eqn:E5; simpl; bool_prop; try lia; try done;
      first [by rewrite at_app_r by lia; f_equal; lia | by rewrite at_app_l by lia].
Qed.

Lemma ztake_more (l : list Z) n m : 0 <= n -> 0 <= m -> ztake (n + m) l = ztake n l ++ ztake m (zdrop n l).
Proof. intros. unfold ztake, zdrop. rewrite Z2Nat.inj_add by lia. by rewrite take_take_drop. Qed.

Lemma off_t_small x : 0 <= x < 2 ^ 63 -> off_t x = x.
Proof. intros. unfold off_t, i64. rewrite wrap_small by (pow2; lia). by rewrite (proj2 (Z.ltb_lt _ _)) by lia. Qed.

(** An offset that is not negative is what it says. *)
Lemma off_t_reached off n :
  0 <= off < 2 ^ 64 -> 0 <= n -> n = 0 \/ off + n < 2 ^ 63 -> 0 <= off_t (off + n) ->
  off_t (off + n) = off + n /\ off + n < 2 ^ 63.
Proof.
  intros Ho Hn [-> | Hs] Hpos; [|split; [apply off_t_small; lia | done]]. rewrite Z.add_0_r in *.
  unfold off_t, i64 in *. rewrite wrap_small in * by done. destruct (_ <? _) eqn:X; bool_prop; pow2; lia.
Qed.

Lemma idle_writes (k k' : K) i b n : inodes k !! i = Some b -> idle k k' -> writes i b n k k'.
Proof. intros Hb [I1 I2 I3 I4 I5 I6]. split; auto. by rewrite insert_id. Qed.

Lemma idle_refl (k : K) : sane k -> idle k k.
Proof. by split. Qed.

Lemma idle_trans (k k1 k2 : K) : idle k k1 -> idle k1 k2 -> idle k k2.
Proof. intros [A1 A2 A3 A4 A5 A6] [B1 B2 B3 B4 B5 B6]. split; [done | congruence.. | auto | lia]. Qed.

Lemma writes_idle (k k1 k2 : K) i b n : writes i b n k k1 -> idle k1 k2 -> writes i b n k k2.
Proof.
  intros [W1 W2 W3 W4 W5 W6 W7] [I1 I2 I3 I4 I5 I6].
  split; [done | congruence | congruence | congruence | auto | auto | lia].
Qed.

Lemma writes_writes (k k1 k2 : K) i b c n m :
  n <= m -> writes i b n k k1 -> writes i c m k1 k2 -> writes i c n k k2.
Proof.
  intros Hm [W1 W2 W3 W4 W5 W6 W7] [V1 V2 V3 V4 V5 V6 V7].
  split; [done | congruence | | congruence | auto | | lia].
  - rewrite V3, W3. apply insert_insert_eq.
  - intros bs Hbs Hs. apply V6; [lia|]. auto.
Qed.

(** Interrupted and short writes are continued where they stopped. *)
Lemma pwrite_loop_spec fd i b data off k0 : forall fuel written k,
  holds k0 fd i b -> 0 <= off < 2 ^ 64 -> bytes_ok data -> 0 <= written <= zlen data ->
  (written = 0 \/ off + written < 2 ^ 63) -> sane k ->
  writes i (overwrite b off (ztake written data)) off k0 k ->
  (Z.to_nat (zlen data - written) + pending_signals k < fuel)%nat ->
  exists r k' m, pwrite_loop fuel fd data off written k = Some (r, k') /\
    written <= m <= zlen data /\ writes i (overwrite b off (ztake m data)) off k0 k' /\
    match r with Ok n => n = m | fail e => e <> kNone end.
Proof.
  induction fuel as [|fuel IH]; intros written k Ho Hoff Hb Hw Hs Sk W Hf; [lia|]. cbn [pwrite_loop].
  destruct (written <? zlen data) eqn:E; bool_prop; cbn [negb].
  2:{ exists (Ok written), k, written. split_and!; auto; lia. }
  destruct (sys_pwrite _ _ _ k) as [r k1] eqn:Wr.
  assert (holds k fd i (overwrite b off (ztake written data))) as Ho1.
  { destruct Ho as [(ds & Hds & Hi) _]. split; [exists ds; by rewrite (writes_descriptors _ _ _ _ _ W)|].
    by rewrite (writes_inodes _ _ _ _ _ W), lookup_insert_eq. }
  assert (bytes_ok (zdrop written data)) as Hd by (by apply Forall_drop).
  pose proof (pwrite_law _ _ _ _ _ _ _ _ Sk Ho1 Hd Wr) as L. destruct r as [n|e].
  - destruct L as (Hpos & Hn & W1).
    destruct (off_t_reached _ _ Hoff (proj1 Hw) Hs Hpos) as [Eo Hlt].
    rewrite Eo in W1. rewrite zlen_zdrop in Hn.
    assert (zlen (ztake written data) = written) as Lt by len.
    assert (overwrite (overwrite b off (ztake written data)) (off + written) (ztake n (zdrop written data)) =
      overwrite b off (ztake (written + n) data)) as Eq.
    { rewrite ztake_more, <- overwrite_app, Lt by lia. done. }
    assert (off <= off + written) as Hle by lia.
    rewrite Eq in W1. pose proof (writes_writes _ _ _ _ _ _ _ _ Hle W W1) as W2.
    destruct (n =? 0) eqn:En; bool_prop.
    { subst n. rewrite Z.add_0_r in W2. exists (Ok written), k1, written. split_and!; auto; lia. }
    destruct (IH (written + n) k1) as (r & k' & m & Er & Hm & W3 & Hr); auto; [lia | | apply W1 | |].
    + right. assert (inodes k1 !! i = Some (overwrite b off (ztake (written + n) data))) as Hl.
      { by rewrite (writes_inodes _ _ _ _ _ W2), lookup_insert_eq. }
      apply inode_bytes in Hl as [_ Hl]; [|apply W1]. rewrite zlen_overwrite, zlen_ztake in Hl by lia.
      destruct (_ =? 0) eqn:X in Hl; bool_prop; lia.
    + pose proof (writes_signals _ _ _ _ _ W1). lia.
    + exists r, k', m. split_and!; auto; lia.
  - destruct L as [I Hi]. pose proof (writes_idle _ _ _ _ _ _ W I) as W1.
    destruct (bool_decide (e = EINTR)) eqn:Ee.
    + apply bool_decide_eq_true_1 in Ee. specialize (Hi Ee). apply IH; auto; [apply I | lia].
    + exists (fail (errno_to_code e)), k1, written. split_and!; auto; [lia..|]. by destruct e.
Qed.

Lemma zsub_more (b : list Z) off n m :
  0 <= off -> 0 <= m <= n -> zsub off n b = zsub off m b ++ zsub (off + m) (n - m) b.
Proof.
  intros Ho Hm. unfold zsub. rewrite <- (zdrop_zdrop m off), <- ztake_more by lia. f_equal. lia.
Qed.

Lemma pread_loop_error fuel fd n off : forall out k k', pread_loop fuel fd n off out k <> Some (fail kNone, k').
Proof.
  induction fuel as [|fuel IH]; intros out k k'; cbn [pread_loop]; [done|]. destruct (negb _); [done|].
  destruct (sys_pread _ _ _ k) as [[bs|e] k1]; [by destruct (_ =? 0)|].
  destruct (bool_decide _); [done|]. by destruct e.
Qed.

(** Interrupted and short reads are continued where they stopped. *)
Lemma pread_loop_spec fd i b n off k0 : forall fuel out k,
  holds k0 fd i b -> 0 <= off < 2 ^ 64 -> sane k0 -> idle k0 k -> zlen out <= n -> out = zsub off (zlen out) b ->
  (zlen out = 0 \/ off + zlen out < 2 ^ 63) ->
  (Z.to_nat (n - zlen out) + pending_signals k < fuel)%nat ->
  exists r k', pread_loop fuel fd n off out k = Some (r, k') /\ idle k0 k' /\
    match r with Ok bs => bs = zsub off n b | fail e => e <> kNone end.
Proof.
  induction fuel as [|fuel IH]; intros out k Ho Hoff Sk I Hn Hout Hs Hf; [lia|]. cbn [pread_loop].
  pose proof (zlen_nonneg out) as Hpos.
  destruct (zlen out <? n) eqn:E; bool_prop; cbn [negb].
  2:{ exists (Ok out), k. split_and!; auto. by replace n with (zlen out) by lia. }
  destruct (sys_pread _ _ _ k) as [r k1] eqn:Rd.
  assert (holds k fd i b) as Ho1.
  { destruct Ho as [(ds & Hds & Hi) Hb]. split; [exists ds; by rewrite (idle_descriptors _ _ I)|].
    by rewrite (idle_inodes _ _ I). }
  destruct (pread_law _ _ _ _ _ _ _ _ (idle_sane _ _ I) Ho1 Rd) as [I1 L].
  pose proof (idle_trans _ _ _ I I1) as I2. destruct r as [bs|e].
  - destruct L as (Hp & Pre & Emp). destruct (off_t_reached _ _ Hoff Hpos Hs Hp) as [Eo Hlt]. rewrite Eo in *.
    pose proof (zsub_more b off n (zlen out) (proj1 Hoff) ltac:(lia)) as Eq. rewrite <- Hout in Eq.
    destruct (zlen bs =? 0) eqn:Eb; bool_prop.
    { apply zlen_0 in Eb. exists (Ok out), k1. split_and!; auto. by rewrite Eq, (Emp Eb), app_nil_r. }
    pose proof (prefix_length _ _ Pre) as Pl. pose proof (zlen_zsub (off + zlen out) (n - zlen out) b) as Pl'.
    assert (zlen bs <= zlen (zsub (off + zlen out) (n - zlen out) b)) as Pl2
      by exact (proj1 (Nat2Z.inj_le _ _) Pl).
    destruct (inode_bytes _ _ _ Sk (proj2 Ho)) as [_ Hlen]. pose proof (zlen_nonneg bs).
    rewrite Pl' in Pl2. apply IH; auto; rewrite ?zlen_app; [lia | | right; lia | pose proof (idle_signals _ _ I1); lia].
    rewrite (zsub_more b off (zlen out + zlen bs) (zlen out)), <- Hout by lia. f_equal.
    replace (zlen out + zlen bs - zlen out) with (zlen bs) by lia.
    destruct Pre as [rest Er]. unfold zsub in Er |- *. apply (f_equal (ztake (zlen bs))) in Er.
    rewrite ztake_app, ztake_ztake, Z.min_l in Er by lia. done.
  - destruct (bool_decide (e = EINTR)) eqn:Ee.
    + apply bool_decide_eq_true_1 in Ee. specialize (L Ee). apply IH; auto. lia.
    + exists (fail (errno_to_code e)), k1. split_and!; auto. by destruct e.
Qed.

End Loops.

(** ** The file system behind the object *)

Definition mode_of (fl : Flags) : OpenMode :=
  match access fl, o_creat fl with
  | O_RDONLY, _ => kRead
  | O_RDWR, false => kReadWrite
  | O_RDWR, true => kCreate
  end.

Section View.
Context {K : Type} `{Posix K} `{PosixView K}.

(** What a descriptor is open on, as long as the path still names its inode. *)
Definition entry (k : K) (fd : Z) : option (chars * OpenMode) :=
  match descriptors k !! fd with
  | None => None
  | Some ds => if bool_decide (names k !! via ds = Some (ino ds)) then Some (via ds, mode_of (flags ds)) else None
  end.

(** The open ids hold descriptors of their own. *)
Record ids_ok (fds : list Z) (k : K) : Prop := {
  ids_sane : sane k;
  ids_open : forall f fd, fds !! f = Some fd -> 0 <= fd -> is_Some (descriptors k !! fd);
  ids_own : forall f g fd, fds !! f = Some fd -> fds !! g = Some fd -> 0 <= fd -> f = g }.

#[global] Instance real_view : Disk.view (t K) := {
  Disk.good d := ids_ok (fds_ d) (kernel d);
  Disk.files d := omap (fun i => inodes (kernel d) !! i) (names (kernel d));
  Disk.handles d := omap (entry (kernel d)) (map_seqZ 0 (fds_ d));
  Disk.settled d p bs := exists i, names (kernel d) !! p = Some i /\ synced (kernel d) i bs }.

End View.

Section Laws.
#[local] Set Default Proof Using "Type*".
Context {K : Type} `{PL : PosixLaws K}.
Implicit Type d : t K.

Lemma entry_negative (k : K) fd : sane k -> fd < 0 -> entry k fd = None.
Proof.
  intros Sk Hfd. unfold entry. destruct (descriptors k !! fd) as [ds|] eqn:E; [|done].
  apply descriptor_inode in E as [? _]; [lia | done].
Qed.

Lemma fd_for_lookup f d : 0 <= fd_for f d -> 0 <= f /\ fds_ d !! Z.to_nat f = Some (fd_for f d).
Proof.
  unfold fd_for. destruct (_ || _) eqn:E; bool_prop; [lia|]. intros _. split; [lia|].
  unfold at_, zlen in *.
  destruct (fds_ d !! Z.to_nat f) eqn:X; [by rewrite (nth_lookup_Some _ _ 0 _ X)|]. apply lookup_ge_None in X. lia.
Qed.

Lemma handles_lookup d f : Disk.good d -> Disk.handles d !! f = entry (kernel d) (fd_for f d).
Proof.
  intros [Sk _ _]. cbn [Disk.handles real_view]. rewrite lookup_omap.
  unfold fd_for. destruct (_ || _) eqn:E.
  - rewrite entry_negative by (done || lia).
    assert ((map_seqZ 0 (fds_ d) : gmap Z Z) !! f = None) as ->; [|done].
    apply lookup_map_seqZ_None. apply orb_prop in E as [E | E]; bool_prop; unfold zlen in *; lia.
  - bool_prop. rewrite lookup_map_seqZ_0 by lia. unfold at_, zlen in *.
    destruct (fds_ d !! Z.to_nat f) as [fd|] eqn:X; [by rewrite (nth_lookup_Some _ _ 0 _ X)|].
    apply lookup_ge_None in X. lia.
Qed.

Lemma files_lookup d p b :
  Disk.files d !! p = Some b <-> exists i, names (kernel d) !! p = Some i /\ inodes (kernel d) !! i = Some b.
Proof. cbn [Disk.files real_view]. rewrite lookup_omap. apply bind_Some. Qed.

(** An open id holds the inode of its file. *)
Lemma opened_holds d f p b : Disk.good d -> Disk.opened d f p b ->
  exists i, (fd_for f d <? 0) = false /\ names (kernel d) !! p = Some i /\ holds (kernel d) (fd_for f d) i b.
Proof.
  intros Hg [[m Hm] Hb]. rewrite handles_lookup in Hm by done. apply files_lookup in Hb as (i & Hi & Hb).
  unfold entry in Hm. destruct (descriptors _ !! _) as [ds|] eqn:E; [|done].
  destruct (bool_decide _) eqn:Eb; [|done]. injection Hm as <- <-. apply bool_decide_eq_true_1 in Eb.
  rewrite Hi in Eb. injection Eb as Eb. exists i. split_and!; [|done|by split; [exists ds|]].
  apply Z.ltb_ge. by apply (descriptor_inode _ _ _ (ids_sane _ _ Hg)) in E as [? _].
Qed.

Lemma idle_same d k' : Disk.good d -> idle (kernel d) k' -> Disk.same d (d <| kernel := k' |>).
Proof.
  intros [G1 G2 G3] [I1 I2 I3 I4 I5 I6]. unfold Disk.same. cbn. unfold entry. rewrite I2, I3, I4.
  split_and!; [|done | done |].
  - split; [done | | done]. intros f fd Hf Hp. rewrite I4. eauto.
  - intros p bs (i & Hi & Hs). exists i. auto.
Qed.

Lemma writes_only d k' p i b n :
  Disk.good d -> names (kernel d) !! p = Some i -> writes i b n (kernel d) k' ->
  let d' := d <| kernel := k' |> in
  Disk.only p d d' /\ Disk.files d' !! p = Some b /\
  forall bs, Disk.settled d p bs -> zlen bs <= n -> Disk.settled d' p bs.
Proof.
  intros [G1 G2 G3] Hi [W1 W2 W3 W4 W5 W6 W7] d'. unfold Disk.only. cbn. unfold entry. rewrite W2, W3, W4.
  split_and!; [| done | | | |].
  - split; [done | | done]. intros f fd Hf Hp. rewrite W4. eauto.
  - intros q Hq. rewrite !lookup_omap. destruct (names (kernel d) !! q) as [j|] eqn:Ej; [|done]. cbn.
    rewrite lookup_insert_ne; [done|]. intros <-. apply Hq. eauto using names_distinct.
  - intros q bs Hq (j & Hj & Hs). exists j. split; [done|]. apply W5; [|done]. intros ->. apply Hq.
    eauto using names_distinct.
  - rewrite lookup_omap, Hi. cbn. apply lookup_insert_eq.
  - intros bs (j & Hj & Hs) Hn. exists j. split; [done|]. rewrite Hi in Hj. injection Hj as <-. auto.
Qed.

Lemma mode_of_flags m : mode_of (open_flags m) = m.
Proof. by destruct m. Qed.

(** Opening a path does not change what other descriptors are open on. *)
Lemma entry_open (k k' : K) p fl i fd0 fd :
  sane k -> fd <> fd0 -> descriptors k' = <[fd0 := mkDescription p fl i]> (descriptors k) ->
  names k !! p = Some i /\ names k' = names k \/
  names k !! p = None /\ inodes k !! i = None /\ names k' = <[p := i]> (names k) ->
  entry k' fd = entry k fd.
Proof.
  intros Sk Hne Hd Hw. unfold entry. rewrite Hd, lookup_insert_ne by done.
  destruct (descriptors k !! fd) as [ds|] eqn:E; [|done].
  destruct Hw as [(_ & ->) | (Hn & Hi & ->)]; [done|].
  destruct (decide (via ds = p)) as [->|]; [|by rewrite lookup_insert_ne].
  rewrite lookup_insert_eq, Hn, !bool_decide_false; [done | done |].
  intros [= ->]. apply descriptor_inode in E as [_ [b Hb]]; [congruence | done].
Qed.

Lemma fd_for_snoc fds fd (k k' : K) f :
  fd_for f (mk (fds ++ [fd]) k') = if f =? zlen fds then fd else fd_for f (mk fds k).
Proof.
  pose proof (zlen_nonneg fds). unfold fd_for, at_. cbn. rewrite zlen_app. change (zlen [fd]) with 1.
  destruct (f =? zlen fds) eqn:E; bool_prop.
  - subst f. rewrite (proj2 (Z.ltb_ge _ _)), (proj2 (Z.leb_gt _ _)) by lia. cbn.
    unfold zlen. rewrite Nat2Z.id, app_nth2, Nat.sub_diag by lia. done.
  - destruct (f <? 0) eqn:E1; [done|]. bool_prop. cbn.
    destruct (zlen fds <=? f) eqn:E2; bool_prop.
    + by rewrite (proj2 (Z.leb_le _ _)) by lia.
    + rewrite (proj2 (Z.leb_gt _ _)) by lia. unfold zlen in *. by rewrite app_nth1 by lia.
Qed.

(** A descriptor that nobody holds goes to a new id. *)
Lemma ids_snoc fds (k k' : K) fd ds :
  ids_ok fds k -> sane k' -> 0 <= fd -> descriptors k !! fd = None ->
  descriptors k' = <[fd := ds]> (descriptors k) -> ids_ok (fds ++ [fd]) k'.
Proof.
  intros [G1 G2 G3] Sk Hfd Hn Hd.
  assert (forall f, fds !! f <> Some fd) as Hne.
  { intros f Hf. destruct (G2 f fd Hf Hfd). congruence. }
  split; [done | |].
  - intros f x Hf Hx. rewrite Hd. destruct (decide (x = fd)) as [->|]; [rewrite lookup_insert_eq; eauto|].
    rewrite lookup_insert_ne by done. apply lookup_app_Some in Hf as [Hf | [_ Hf]]; [eauto|].
    apply list_lookup_singleton_Some in Hf as [_ ->]. done.
  - intros f g x Hf Hg Hx.
    apply lookup_app_Some in Hf as [Hf | [Lf Hf]]; apply lookup_app_Some in Hg as [Hg | [Lg Hg]];
      rewrite ?list_lookup_singleton_Some in *.
    + eauto.
    + destruct Hg as [_ <-]. by destruct (Hne f).
    + destruct Hf as [_ <-]. by destruct (Hne g).
    + lia.
Qed.

Lemma open_real d p m r d' :
  Disk.good d -> open p m d = (r, d') ->
  match r with
  | fail _ => Disk.same d d'
  | Ok f =>
      Disk.handles d !! f = None /\ Disk.good d' /\ Disk.handles d' = <[f := (p, m)]> (Disk.handles d) /\
      (forall q bs, Disk.settled d q bs -> Disk.settled d' q bs) /\
      (is_Some (Disk.files d !! p) /\ Disk.files d' = Disk.files d \/
       m = kCreate /\ Disk.files d !! p = None /\ Disk.files d' = <[p := []]> (Disk.files d) /\
       Disk.settled d' p [])
  end.
Proof.
  intros Hg. unfold open. destruct (sys_open p _ (kernel d)) as [[fd|e] k'] eqn:O.
  2:{ intros [= <- <-]. apply idle_same; [done|]. by apply open_law in O; [|apply Hg]. }
  apply open_law in O as (i & Hfd & Hn & Sk & Hd & Hs & Hw); [|apply Hg]. intros [= <- <-].
  assert (Disk.good (mk (fds_ d ++ [fd]) k')) as Hg' by exact (ids_snoc _ _ _ _ _ Hg Sk Hfd Hn Hd).
  split_and!; [| done | | |].
  - rewrite handles_lookup by done. unfold fd_for. rewrite Z.leb_refl, orb_true_r.
    apply entry_negative; [apply Hg | lia].
  - apply map_eq. intros f. rewrite handles_lookup by done. destruct d as [fds k]. cbn [fds_ kernel] in *.
    rewrite (fd_for_snoc fds fd k k' f).
    destruct (f =? zlen fds) eqn:E; bool_prop.
    + subst f. rewrite lookup_insert_eq. unfold entry. rewrite Hd, lookup_insert_eq. cbn.
      rewrite mode_of_flags, bool_decide_true; [done|].
      destruct Hw as [(Hp & -> & _) | (_ & _ & _ & -> & _)]; [done | apply lookup_insert_eq].
    + rewrite lookup_insert_ne, handles_lookup by done. apply entry_open with (fd0 := fd) (p := p) (i := i) (fl := open_flags m); auto; [apply Hg | |].
      * intros Ef. assert (0 <= fd_for f (mk fds k)) as Hp by lia. apply fd_for_lookup in Hp as [_ Hp].
        destruct (ids_open _ _ Hg _ _ Hp) as [ds Hds]; [by rewrite Ef|]. cbn in Hds. congruence.
      * destruct Hw as [(? & ? & _) | (_ & ? & ? & ? & _)]; auto.
  - intros q bs (j & Hj & Hq). exists j. split; [|by apply Hs]. cbn.
    destruct Hw as [(_ & -> & _) | (_ & Hnone & _ & -> & _)]; [done|]. rewrite lookup_insert_ne; [done|]. congruence.
  - cbn. destruct Hw as [(Hp & -> & ->) | (Hc & Hnone & Hi & -> & ->)]; [left | right].
    + split; [|done]. rewrite lookup_omap, Hp. cbn. by eapply name_inode; [apply Hg|].
    + split_and!.
      * by destruct m.
      * by rewrite lookup_omap, Hnone.
      * rewrite omap_insert, lookup_insert_eq. f_equal. apply map_eq. intros q. rewrite !lookup_omap.
        destruct (names (kernel d) !! q) as [j|] eqn:Ej; [|done]. cbn. rewrite lookup_insert_ne; [done|].
        intros <-. apply name_inode in Ej as [b Hb]; [congruence | apply Hg].
      * exists i. rewrite lookup_insert_eq. split; [done | apply synced_nil].
Qed.

Lemma splice_one (l : list Z) f x : 0 <= f < zlen l -> splice l f [x] = <[Z.to_nat f := x]> l.
Proof.
  intros Hf. unfold splice, ztake, zdrop, zlen in *. rewrite insert_take_drop by lia. cbn [length].
  by replace (Z.to_nat (f + Z.of_nat 1)) with (S (Z.to_nat f)) by lia.
Qed.

Lemma fd_for_inside f d : 0 <= fd_for f d -> 0 <= f < zlen (fds_ d).
Proof. unfold fd_for. destruct (_ || _) eqn:E; bool_prop; lia. Qed.

Lemma fd_for_closed fds (k k' : K) f g : 0 <= f < zlen fds ->
  fd_for g (mk (splice fds f [-1]) k') = if g =? f then -1 else fd_for g (mk fds k).
Proof.
  intros Hf. unfold fd_for. cbn [fds_]. rewrite zlen_splice by (change (zlen [-1]) with 1; lia).
  destruct (g =? f) eqn:E; bool_prop.
  - subst g. rewrite (proj2 (Z.ltb_ge _ _)), (proj2 (Z.leb_gt _ _)) by lia. cbn [orb].
    rewrite at_splice, (proj2 (Z.leb_le _ _)), (proj2 (Z.ltb_lt _ _)) by (change (zlen [-1]) with 1; lia).
    cbn [andb]. by rewrite Z.sub_diag.
  - destruct (g <? 0) eqn:E1; [done|]. destruct (zlen fds <=? g) eqn:E2; [done|]. bool_prop. cbn [orb].
    rewrite at_splice by lia. change (zlen [-1]) with 1.
    destruct (f <=? g) eqn:E3, (g <? f + 1) eqn:E4; bool_prop; cbn [andb]; try done. lia.
Qed.

Lemma close_real d f : Disk.good d ->
  Disk.good (close f d) /\ Disk.files (close f d) = Disk.files d /\
  Disk.handles (close f d) = delete f (Disk.handles d) /\
  forall p bs, Disk.settled d p bs -> Disk.settled (close f d) p bs.
Proof.
  intros Hg. unfold close. destruct (fd_for f d <? 0) eqn:E; bool_prop.
  { split_and!; auto. rewrite delete_id; [done|]. rewrite handles_lookup by done.
    by apply entry_negative; [apply Hg|]. }
  destruct (fd_for_lookup _ _ E) as [Hf Hl]. pose proof (fd_for_inside _ _ E) as Hin.
  destruct (close_law _ (fd_for f d) (ids_sane _ _ Hg)) as (Sk & Nk & Dk & Ik & Yk).
  set (k' := sys_close _ _) in *.
  assert (Disk.good (mk (splice (fds_ d) f [-1]) k')) as Hg'.
  { rewrite splice_one by done. destruct Hg as [G1 G2 G3]. cbn. split; [done | |].
    - intros g fd [[_ [<- _]] | [Hne Hgl]]%list_lookup_insert_Some Hp; [lia|].
      rewrite Dk, lookup_delete_ne; [by eapply G2|]. intros <-. apply Hne. by eapply G3.
    - intros g h fd Hgl Hhl Hp. apply list_lookup_insert_Some in Hgl as [(_ & ? & _) | [_ Hgl]]; [lia|].
      apply list_lookup_insert_Some in Hhl as [(_ & ? & _) | [_ Hhl]]; [lia|]. by eapply G3. }
  split_and!; [done | | |].
  - cbn. rewrite Nk. apply map_eq. intros p. rewrite !lookup_omap.
    destruct (names (kernel d) !! p) as [i|] eqn:Ei; [|done]. cbn. by eapply Ik.
  - apply map_eq. intros g. rewrite handles_lookup by done. destruct d as [fds k]. cbn [fds_ kernel] in *.
    rewrite (fd_for_closed fds k k' f g) by done. destruct (g =? f) eqn:Eg; bool_prop.
    { subst g. rewrite lookup_delete_eq. by apply entry_negative. }
    rewrite lookup_delete_ne, handles_lookup by done. unfold entry. rewrite Nk, Dk, lookup_delete_ne; [done|].
    intros Ef. apply Eg. rewrite Ef in Hl. destruct (fd_for_lookup g (mk fds k)) as [Hg0 Hgl]; [lia|].
    cbn in Hgl. pose proof (ids_own _ _ Hg _ _ _ Hgl Hl ltac:(lia)). lia.
  - intros p bs (i & Hi & Hs). exists i. cbn. rewrite Nk. auto.
Qed.

Lemma remove_real d p r d' : Disk.good d -> remove p d = (r, d') ->
  match r with
  | fail _ => Disk.same d d'
  | Ok _ => Disk.without p d d' /\ Disk.files d' !! p = None
  end.
Proof.
  intros Hg. unfold remove. destruct (sys_unlink p (kernel d)) as [[u|e] k'] eqn:U; cbn [checked]; intros [= <- <-].
  2:{ apply idle_same; [done|]. by apply unlink_law in U; [|apply Hg]. }
  apply unlink_law in U as (Sk & Nk & Dk & Ik & Yk); [|apply Hg].
  assert (Disk.good (d <| kernel := k' |>)) as Hg'.
  { destruct Hg as [G1 G2 G3]. split; [done | | done]. cbn. rewrite Dk. done. }
  split; [split_and!; [done | | |] | cbn; by rewrite lookup_omap, Nk, lookup_delete_eq].
  - intros f q m Hq. rewrite !handles_lookup by done. change (fd_for f (d <| kernel := k' |>)) with (fd_for f d).
    cbn [kernel set]. unfold entry. rewrite Dk, Nk. destruct (descriptors _ !! _) as [ds|]; [|done].
    destruct (bool_decide _) eqn:E; [|done]. intros [= <- <-]. by rewrite lookup_delete_ne, E.
  - intros q Hq. cbn. rewrite !lookup_omap, Nk, lookup_delete_ne by done.
    destruct (names (kernel d) !! q) as [i|] eqn:Ei; [|done]. cbn. by eapply Ik.
  - intros q bs Hq (i & Hi & Hs). exists i. cbn. rewrite Nk, lookup_delete_ne by done. auto.
Qed.

(** The fuel is enough. *)
Lemma pwrite_returns d f p b data off :
  Disk.good d -> Disk.opened d f p b -> 0 <= off < 2 ^ 64 -> bytes_ok data ->
  exists r k' i m, pwrite_loop (pwrite_fuel data (kernel d)) (fd_for f d) data off 0 (kernel d) = Some (r, k') /\
    names (kernel d) !! p = Some i /\ 0 <= m <= zlen data /\
    writes i (overwrite b off (ztake m data)) off (kernel d) k' /\
    match r with Ok n => n = m | fail e => e <> kNone end.
Proof.
  intros Hg Ho Hoff Hb. destruct (opened_holds _ _ _ _ Hg Ho) as (i & Ef & Hi & Hh).
  destruct (pwrite_loop_spec (fd_for f d) i b data off (kernel d) (pwrite_fuel data (kernel d)) 0 (kernel d))
    as (r' & k' & m & E & Hm & W & Hr); auto; [pose proof (zlen_nonneg data); lia | apply Hg | | |].
  - rewrite ztake_le by lia. cbn. apply idle_writes; [apply Hh|]. apply idle_refl, Hg.
  - unfold pwrite_fuel, zlen. lia.
  - by exists r', k', i, m.
Qed.

Lemma pwrite_real d f p b data off r d' :
  Disk.good d -> Disk.opened d f p b -> 0 <= off < 2 ^ 64 -> bytes_ok data -> pwrite f data off d = (r, d') ->
  exists k, Disk.only p d d' /\ 0 <= k <= zlen data /\
    Disk.files d' !! p = Some (overwrite b off (ztake k data)) /\
    (forall bs, Disk.settled d p bs -> zlen bs <= off -> Disk.settled d' p bs) /\
    match r with Ok n => n = k | fail e => e <> kNone end.
Proof.
  intros Hg Ho Hoff Hb. destruct (opened_holds _ _ _ _ Hg Ho) as (_ & Ef & _).
  destruct (pwrite_returns _ _ _ _ _ _ Hg Ho Hoff Hb) as (r' & k' & i & m & E & Hi & Hm & W & Hr).
  unfold pwrite. rewrite Ef, E. intros [= <- <-].
  destruct (writes_only _ _ _ _ _ _ Hg Hi W) as (On & F & S). exists m.
  split_and!; [done | apply Hm | apply Hm | done..].
Qed.

Lemma pread_real d f p b n off r d' :
  Disk.good d -> Disk.opened d f p b -> 0 <= n -> 0 <= off < 2 ^ 64 -> pread f n off d = (r, d') ->
  Disk.same d d' /\ forall bs, r = Ok bs -> bs = zsub off n b.
Proof.
  intros Hg Ho Hn Hoff. destruct (opened_holds _ _ _ _ Hg Ho) as (i & Ef & Hi & Hh). unfold pread. rewrite Ef.
  destruct (pread_loop_spec (fd_for f d) i b n off (kernel d) (pread_fuel n (kernel d)) [] (kernel d))
    as (r' & k' & -> & I & Hr); auto; [apply Hg | apply idle_refl, Hg | unfold pread_fuel, zlen; simpl; lia |].
  intros [= <- <-]. split; [by apply idle_same|]. by intros bs ->.
Qed.

Lemma fsync_real d f p b r d' : Disk.good d -> Disk.opened d f p b -> fsync f d = (r, d') ->
  Disk.same d d' /\ (r = Ok tt -> Disk.settled d' p b).
Proof.
  intros Hg Ho. destruct (opened_holds _ _ _ _ Hg Ho) as (i & Ef & Hi & Hh). unfold fsync. rewrite Ef.
  destruct (sys_fsync _ _) as [s k'] eqn:E. apply (fsync_law _ _ _ _ _ _ (ids_sane _ _ Hg) Hh) in E as [I R].
  intros [= <- <-]. split; [by apply idle_same|]. destruct s as [[]|]; [|done]. intros _. exists i. cbn.
  rewrite (idle_names _ _ I). auto.
Qed.

#[global] Instance real_laws : Disk.laws (t K).
Proof.
  split.
  - intros d p b Hg (i & Hi & Hb)%files_lookup. apply inode_bytes in Hb as [? ?]; [|apply Hg].
    split; [done|]. pow2. lia.
  - intros d p bs Hg (i & Hi & Hs). destruct (name_inode _ _ _ (ids_sane _ _ Hg) Hi) as [b Hb]. exists b. split.
    + apply files_lookup. eauto.
    + eapply synced_prefix; [apply Hg | done..].
  - intros d p bs cs Hp (i & Hi & Hs). exists i. split; [done|]. by eapply synced_shorter.
  - intros d p m r d' Hg _. exact (open_real _ _ _ _ _ Hg).
  - intros d f Hg. by apply close_real.
  - intros d f p b data off r d' Hg Ho Hoff Hb _ E. right.
    destruct (pwrite_real _ _ _ _ _ _ _ _ Hg Ho Hoff Hb E) as (k & On & Hk & F & S & R). exists k.
    split_and!; [done | apply Hk | apply Hk | done | done |]. by intros n ->.
  - intros d f p b n off r d' Hg Ho Hn Hoff. exact (pread_real _ _ _ _ _ _ _ _ Hg Ho Hn Hoff).
  - intros d f n off d'. cbn. unfold pread. destruct (_ <? 0); [done|].
    destruct (pread_loop _ _ _ _ _ _) as [[r k']|] eqn:E; [|done]. intros [= -> _].
    by apply pread_loop_error in E.
  - intros d f p b r d' Hg Ho. exact (fsync_real _ _ _ _ _ _ Hg Ho).
  - intros d f p b n r d' Hg Ho Hn. destruct (opened_holds _ _ _ _ Hg Ho) as (i & Ef & Hi & Hh). cbn. unfold truncate.
    rewrite Ef. destruct (sys_ftruncate _ _ _) as [[u|e] k'] eqn:E;
      apply (ftruncate_law _ _ _ _ _ _ _ (ids_sane _ _ Hg) Hh) in E; cbn [checked]; intros [= <- <-].
    2:{ by apply idle_same. }
    destruct E as [Hpos W]. rewrite <- (Z.add_0_r n) in Hpos.
    apply off_t_reached in Hpos as [Eo _]; [|done|done|by left]. rewrite Z.add_0_r in Eo. rewrite Eo in W.
    exact (writes_only _ _ _ _ _ _ Hg Hi W).
  - intros d f p b r d' Hg Ho. destruct (opened_holds _ _ _ _ Hg Ho) as (i & Ef & Hi & Hh). cbn. unfold size. rewrite Ef.
    destruct (sys_fstat _ _) as [s k'] eqn:E. apply (fstat_law _ _ _ _ _ _ (ids_sane _ _ Hg) Hh) in E as [I R].
    intros [= <- <-]. split; [by apply idle_same|]. destruct s; [|done]. intros n [= <-]. by apply R.
  - intros d p r d' Hg _. exact (remove_real _ _ _ _ Hg).
  - intros d p r d' Hg. cbn. unfold make_directories. destruct (create_directories p (kernel d)) as [ec k'] eqn:E.
    apply create_directories_law in E; [|apply Hg]. intros [= _ <-]. by apply idle_same.
  - intros d dir r d' Hg Hd. cbn. unfold list_directory. destruct (directory_iterator dir (kernel d)) as [es k'] eqn:E.
    apply directory_law in E as [I R]; [|apply Hg|done]. pose proof (idle_same _ _ Hg I) as S.
    destruct es as [[]|es]; intros [= <- <-]; (split; [done|]); [done..|]. intros names [= <-].
    destruct (R es eq_refl) as [Nd In]. split; [by rewrite merge_sort_Permutation|].
    intros name Hne Hs [b Hb]. rewrite merge_sort_Permutation. apply In; auto.
    rewrite lookup_omap in Hb. apply bind_Some in Hb as (i & -> & _). eauto.
Qed.

(** ** On a kernel that promises more *)

(** Nothing is written before the kernel takes all of it. *)
Lemma pwrite_loop_whole `{!PosixWhole K} fd i b data off k0 : holds k0 fd i b -> bytes_ok data -> forall fuel k r k',
  idle k0 k -> sane k -> pwrite_loop fuel fd data off 0 k = Some (r, k') ->
  match r with Ok n => n = zlen data | fail _ => idle k0 k' end.
Proof.
  intros Ho Hb. pose proof (zlen_nonneg data) as Hn. induction fuel as [|fuel IH]; intros k r k' I Sk; [done|]. cbn [pwrite_loop].
  destruct (0 <? zlen data) eqn:E; bool_prop; cbn [negb]; [|intros [= <- <-]; lia].
  change (zdrop 0 data) with data. assert (holds k fd i b) as Ho1.
  { destruct Ho as [(ds & Hds & Hi) Hib]. split; [exists ds; by rewrite (idle_descriptors _ _ I) | by rewrite (idle_inodes _ _ I)]. }
  destruct (sys_pwrite _ _ _ k) as [[n|e] k1] eqn:Wr.
  - pose proof (whole_pwrite _ _ _ _ _ _ _ _ Sk Ho1 Hb Wr) as ->. rewrite (proj2 (Z.eqb_neq _ _)) by lia.
    destruct fuel as [|fuel']; cbn [pwrite_loop]; [done|]. rewrite (proj2 (Z.ltb_ge _ _)) by lia. by intros [= <- <-].
  - apply (pwrite_law _ _ _ _ _ _ _ _ Sk Ho1 Hb) in Wr as [I1 _]. pose proof (idle_trans _ _ _ I I1) as I2.
    destruct (bool_decide _); [apply IH; [done | apply I1] | by intros [= <- <-]].
Qed.

#[global] Instance real_steady `{!PosixWhole K} : Disk.steady (t K).
Proof.
  split; [split| |].
  - intros d p Hg _ [b (i & Hi & _)%files_lookup]. cbn. unfold remove.
    pose proof (whole_unlink (kernel d) p (ids_sane _ _ Hg) ltac:(eauto)) as U. destruct (sys_unlink _ _) as [r k']. cbn in *. by subst r.
  - intros d f p b data off r d' Hg Ho Hoff Hb _ E. destruct (opened_holds _ _ _ _ Hg Ho) as (i & Ef & Hi & Hh).
    cbn in E. unfold pwrite in E. rewrite Ef in E.
    destruct (pwrite_returns _ _ _ _ _ _ Hg Ho Hoff Hb) as (r' & k' & _ & _ & L & _). rewrite L in E. injection E as -> <-.
    apply (pwrite_loop_whole _ _ _ _ _ _ Hh Hb _ _ _ _ (idle_refl _ (ids_sane _ _ Hg)) (ids_sane _ _ Hg)) in L.
    destruct r; [done|]. by apply idle_same.
  - intros d f p b Hg Ho. destruct (opened_holds _ _ _ _ Hg Ho) as (i & Ef & Hi & Hh). cbn. unfold size. rewrite Ef.
    pose proof (whole_fstat _ _ _ _ (ids_sane _ _ Hg) Hh) as S. destruct (sys_fstat _ _) as [r k']. cbn in *. by subst.
Qed.

(** The power goes and a new process starts. *)
Definition power_cut (cut : K -> K -> Prop) (d d' : t K) : Prop := exists k', cut (kernel d) k' /\ d' = new k'.

#[global] Instance real_crash_laws cut `{!PosixCrash K cut} `{!PosixJournal K cut} : Disk.crash_laws (t K) (power_cut cut).
Proof.
  split. intros d d' Hg (k' & Hc & ->). destruct (cut_law _ _ (ids_sane _ _ Hg) Hc) as (Sk & Dk & Yk).
  destruct (journal_law _ _ (ids_sane _ _ Hg) Hc) as [Nk Wk]. split_and!.
  - by split.
  - apply map_eq. intros f. cbn. rewrite lookup_omap. done.
  - apply set_eq. intros p. rewrite !elem_of_dom. split; intros [b (i & Hi & Hb)%files_lookup]; cbn in Hi.
    + rewrite Nk in Hi. destruct (name_inode _ _ _ (ids_sane _ _ Hg) Hi) as [c Hc']. exists c. apply files_lookup. eauto.
    + rewrite <- Nk in Hi. destruct (name_inode _ _ _ Sk Hi) as [c Hc']. exists c. apply files_lookup. eauto.
  - intros p bs (i & Hi & Hs). exists i. cbn. rewrite Nk. auto.
  - intros p b (i & Hi & Hs) (j & Hj & Hb)%files_lookup. rewrite Hi in Hj. injection Hj as <-.
    apply files_lookup. exists i. cbn. rewrite Nk. auto.
Qed.

Lemma new_real_good (k : K) : sane k -> Disk.good (new k).
Proof. intros Sk. by split. Qed.

(** After a power cut that left the name of a file, a new process finds the synced bytes. *)
Lemma settled_survives cut d k' p bs :
  PosixCrash K cut -> Disk.good d -> Disk.settled d p bs -> cut (kernel d) k' ->
  names k' !! p = names (kernel d) !! p -> Disk.settled (new k') p bs.
Proof.
  intros CL Hg (i & Hi & Hs) Hc Hn. exists i. cbn. rewrite Hn. split; [done|].
  by apply (cut_law _ _ (ids_sane _ _ Hg) Hc).
Qed.

End Laws.

End RealDisk.
