(* ===== verification/Machine.v ===== *)
(** * A machine under [RealDisk]

    A kernel that is allowed by [PosixLaws], to run the disk of the process on: inodes with
    the bytes that are visible and the bytes that are on the platter, names with those that
    are on the platter, and a script of what the next reads and writes do instead of
    succeeding in full.  A directory that can be opened is a name as well, and [fsync] of its
    descriptor puts the names in it on the platter, those that are gone included.  [crash] is
    the power cut POSIX allows: what was not synced is gone, file by file and name by name.
    Nothing here models code of the repository. *)
From S2P Require Import Prelude Base Disk SimDisk Posix.

Module Machine.

Inductive Outcome := Interrupted | Short (n : Z) | Refused (n : Z).

#[global] Instance Outcome_eq_dec : EqDecision Outcome.
Proof. solve_decision. Defined.

Record t := mk {
  tree : gmap chars Z;
  tree_synced : gmap chars Z;
  bytes : gmap Z (list Z);
  bytes_synced : gmap Z (list Z);
  files : gmap Z Description;
  next_ino : Z;
  next_fd : Z;
  script : list Outcome }.

#[global] Instance Machine_eta : Settable t := fun k =>
  mk (tree k) (tree_synced k) (bytes k) (bytes_synced k) (files k) (next_ino k) (next_fd k) (script k).

Definition boot : t := mk ∅ ∅ ∅ ∅ ∅ 1 3 [].

(** A machine on whose platter there is one empty directory, or one empty file. *)
Definition with_name (p : chars) : t := mk {[ p := 1 ]} {[ p := 1 ]} {[ 1 := [] ]} {[ 1 := [] ]} ∅ 2 3 [].

(** [EBADF], [EFBIG] *)
Definition EBADF : Errno := Eother 9.
Definition EFBIG : Errno := Eother 27.

Definition kMaxBytes : Z := 2 ^ 40.

Definition open (p : chars) (fl : Flags) (k : t) : Sys Z * t :=
  let grant i k :=
    (Done (next_fd k), k <| files := <[next_fd k := mkDescription p fl i]> (files k) |>
                         <| next_fd := next_fd k + 1 |>) in
  match tree k !! p with
  | Some i => grant i k
  | None =>
      if o_creat fl
      then grant (next_ino k) (k <| tree := <[p := next_ino k]> (tree k) |>
                                 <| bytes := <[next_ino k := []]> (bytes k) |>
                                 <| next_ino := next_ino k + 1 |>)
      else (Errno_is ENOENT, k)
  end.

Definition close (fd : Z) (k : t) : t := k <| files := delete fd (files k) |>.

(** The inode behind a descriptor. *)
Definition find (fd : Z) (k : t) : option (Z * list Z) :=
  ds ← files k !! fd; b ← bytes k !! ino ds; Some (ino ds, b).

(** What happens to a transfer of [n] bytes. *)
Definition transfer (n : Z) (k : t) : Sys Z * t :=
  match script k with
  | [] => (Done n, k)
  | Interrupted :: s => (Errno_is EINTR, k <| script := s |>)
  | Short m :: s => (Done (Z.max 1 (Z.min n m)), k <| script := s |>)
  | Refused e :: s => (Errno_is (Eother e), k <| script := s |>)
  end.

Definition pwrite (fd : Z) (data : list Z) (off : Z) (k : t) : Sys Z * t :=
  match find fd k with
  | None => (Errno_is EBADF, k)
  | Some (i, b) =>
      if off <? 0 then (Errno_is EINVAL, k)
      else if kMaxBytes <? off + zlen data then (Errno_is EFBIG, k)
      else if zlen data =? 0 then (Done 0, k)
      else
        match transfer (zlen data) k with
        | (Errno_is e, k) => (Errno_is e, k)
        | (Done n, k) => (Done n, k <| bytes := <[i := overwrite b off (ztake n data)]> (bytes k) |>)
        end
  end.

Definition pread (fd n off : Z) (k : t) : Sys (list Z) * t :=
  match find fd k with
  | None => (Errno_is EBADF, k)
  | Some (i, b) =>
      if off <? 0 then (Errno_is EINVAL, k)
      else if zlen (zsub off n b) =? 0 then (Done [], k)
      else
        match transfer (zlen (zsub off n b)) k with
        | (Errno_is e, k) => (Errno_is e, k)
        | (Done m, k) => (Done (ztake m (zsub off n b)), k)
        end
  end.

(** The names in [dir] as they are now, the others as they are on the platter. *)
Definition sync_names (dir : chars) (k : t) : gmap chars Z :=
  filter (fun e => SimDisk.parent_of e.1 = dir) (tree k) ∪ filter (fun e => SimDisk.parent_of e.1 <> dir) (tree_synced k).

Definition fsync (fd : Z) (k : t) : Sys unit * t :=
  match files k !! fd, find fd k with
  | Some ds, Some (i, b) =>
      (Done tt, k <| bytes_synced := <[i := b]> (bytes_synced k) |> <| tree_synced := sync_names (via ds) k |>)
  | _, _ => (Errno_is EBADF, k)
  end.

Definition ftruncate (fd n : Z) (k : t) : Sys unit * t :=
  match find fd k with
  | None => (Errno_is EBADF, k)
  | Some (i, b) =>
      if n <? 0 then (Errno_is EINVAL, k)
      else if kMaxBytes <? n then (Errno_is EFBIG, k)
      else (Done tt, k <| bytes := <[i := resize b n]> (bytes k) |>)
  end.

Definition fstat (fd : Z) (k : t) : Sys Z * t :=
  match find fd k with
  | None => (Errno_is EBADF, k)
  | Some (_, b) => (Done (zlen b), k)
  end.

Definition unlink (p : chars) (k : t) : Sys unit * t :=
  match tree k !! p with
  | None => (Errno_is ENOENT, k)
  | Some _ => (Done tt, k <| tree := delete p (tree k) |>)
  end.

(** Every directory is there. *)
Definition entries (dir : chars) (k : t) : list chars :=
  elements (list_to_set (SimDisk.basename_of <$>
    filter (fun p => SimDisk.parent_of p = dir) (map_to_list (tree k)).*1) : gset chars).

#[global] Instance machine_posix : Posix t := {
  sys_open := open; sys_close := close; sys_pwrite := pwrite; sys_pread := pread; sys_fsync := fsync;
  sys_ftruncate := ftruncate; sys_fstat := fstat; sys_unlink := unlink;
  create_directories _ k := (false, k);
  directory_iterator dir k := (inr (entries dir k), k);
  pending_signals k := length (filter (fun o => o = Interrupted) (script k)) }.

(** The power cut: what is on the platter. *)
Definition crash (k : t) : t :=
  mk (tree_synced k) (tree_synced k) (bytes_synced k ∪ ((fun _ => []) <$> bytes k)) (bytes_synced k) ∅
    (next_ino k) (next_fd k) [].

Record well_formed (k : t) : Prop := {
  wf_bytes : map_Forall (fun i b => i < next_ino k /\ bytes_ok b /\ zlen b <= kMaxBytes) (bytes k);
  wf_tree : map_Forall (fun _ i => is_Some (bytes k !! i)) (tree k);
  wf_distinct : forall p q i, tree k !! p = Some i -> tree k !! q = Some i -> p = q;
  wf_files : map_Forall (fun fd ds => 0 <= fd < next_fd k /\ is_Some (bytes k !! ino ds)) (files k);
  wf_next : 0 <= next_fd k;
  wf_platter : map_Forall (fun i b => is_Some (bytes k !! i) /\ bytes_ok b /\ zlen b <= kMaxBytes) (bytes_synced k);
  wf_tree_platter : map_Forall (fun _ i => is_Some (bytes k !! i)) (tree_synced k);
  wf_platter_distinct : forall p q i, tree_synced k !! p = Some i -> tree_synced k !! q = Some i -> p = q;
  wf_names : forall p q i, tree k !! p = Some i -> tree_synced k !! q = Some i -> p = q }.

#[global] Instance machine_view : PosixView t := {
  sane := well_formed;
  names := tree;
  inodes := bytes;
  descriptors := files;
  synced k i bs := bs `prefix_of` default [] (bytes_synced k !! i) /\ bs `prefix_of` default [] (bytes k !! i) }.

(** ** It keeps to POSIX *)

Lemma find_holds (k : t) fd i b : holds k fd i b -> find fd k = Some (i, b).
Proof. intros [(ds & Hds & <-) Hb]. unfold find. cbn in *. by rewrite Hds; cbn; rewrite Hb. Qed.

Lemma transfer_spec n (k k' : t) r : 0 < n -> transfer n k = (r, k') ->
  k' = k <| script := script k' |> /\ (pending_signals k' <= pending_signals k)%nat /\
  match r with
  | Done m => 0 < m <= n
  | Errno_is e => e = EINTR -> (pending_signals k' < pending_signals k)%nat
  end.
Proof.
  intros Hn. unfold transfer. destruct k as [a b c d e f g [|[|m|m] s]]; cbn; intros [= <- <-]; cbn;
    repeat case_decide; split_and!; auto; cbn; try lia; intros;
    first [done | apply Nat.le_succ_diag_r | apply Nat.lt_succ_diag_r].
Qed.

(** What does not show in the view. *)
Lemma idle_script (k : t) s : well_formed k ->
  (length (filter (fun o => o = Interrupted) s) <= pending_signals k)%nat -> idle k (k <| script := s |>).
Proof. intros [W1 W2 W3 W4 W5 W6 W7 W8 W9] Hs. by split. Qed.

Lemma idle_here (k : t) : well_formed k -> idle k k.
Proof. by split. Qed.

Lemma writes_here (k : t) i b b' n s : well_formed k -> bytes k !! i = Some b -> bytes_ok b' -> zlen b' <= kMaxBytes ->
  (forall bs, zlen bs <= n -> bs `prefix_of` b -> bs `prefix_of` b') ->
  (length (filter (fun o => o = Interrupted) s) <= pending_signals k)%nat ->
  writes i b' n k (k <| script := s |> <| bytes := <[i := b']> (bytes k) |>).
Proof.
  intros [W1 W2 W3 W4 W5 W6 W7 W8 W9] Hi Hb Hl Hp Hs.
  assert (forall j, is_Some (bytes k !! j) -> is_Some (<[i := b']> (bytes k) !! j)) as Hj.
  { intros j Hj. destruct (decide (j = i)) as [->|]; [rewrite lookup_insert_eq; eauto | by rewrite lookup_insert_ne]. }
  split; cbn; auto.
  - split; cbn; auto.
    + apply map_Forall_insert_2; [|done]. by destruct (W1 _ _ Hi).
    + intros p j Hpj. apply Hj. by apply (W2 p).
    + intros fd ds Hfd. destruct (W4 _ _ Hfd). auto.
    + intros j c Hc. destruct (W6 _ _ Hc). auto.
    + intros p j Hpj. apply Hj. by apply (W7 p).
  - intros j bs Hne [S1 S2]. by rewrite lookup_insert_ne.
  - intros bs Hn [S1 S2]. rewrite lookup_insert_eq. rewrite Hi in S2. auto.
Qed.

Lemma open_machine (k k' : t) p fl r : well_formed k -> open p fl k = (r, k') ->
  match r with
  | Errno_is _ => idle k k'
  | Done fd => exists i,
      0 <= fd /\ files k !! fd = None /\ well_formed k' /\
      files k' = <[fd := mkDescription p fl i]> (files k) /\
      (forall j bs, synced k j bs -> synced k' j bs) /\
      (tree k !! p = Some i /\ tree k' = tree k /\ bytes k' = bytes k \/
       o_creat fl = true /\ tree k !! p = None /\ bytes k !! i = None /\
       tree k' = <[p := i]> (tree k) /\ bytes k' = <[i := []]> (bytes k))
  end.
Proof.
  intros W. pose proof W as [W1 W2 W3 W4 W5 W6 W7 W8 W9]. unfold open.
  assert (files k !! next_fd k = None) as Hfd.
  { destruct (files k !! next_fd k) eqn:E; [|done]. destruct (W4 _ _ E). lia. }
  destruct (tree k !! p) as [i|] eqn:Ep; [|destruct (o_creat fl) eqn:Ec]; intros [= <- <-]; [| |by apply idle_here].
  - exists i. cbn. split_and!; auto. split; cbn; auto; [|lia].
    apply map_Forall_insert_2; [split; [lia | by apply (W2 p)]|].
    intros fd ds Hds. destruct (W4 _ _ Hds). split; [lia | done].
  - assert (bytes k !! next_ino k = None) as Hi.
    { destruct (bytes k !! next_ino k) eqn:E; [|done]. destruct (W1 _ _ E). lia. }
    assert (forall j, is_Some (bytes k !! j) -> is_Some (<[next_ino k := []]> (bytes k) !! j)) as Hj.
    { intros j [b Hb]. rewrite lookup_insert_ne; [eauto|]. congruence. }
    exists (next_ino k). cbn. split_and!; auto 7.
    + split; cbn; [| | | |lia | | |done|].
      * apply map_Forall_insert_2; [split_and!; [lia | constructor | done]|].
        intros j b Hb. destruct (W1 _ _ Hb). split; [lia | done].
      * apply map_Forall_insert_2; [rewrite lookup_insert_eq; eauto|]. intros q j Hq. apply Hj. by apply (W2 q).
      * intros q1 q2 j [[<- <-] | [N1 H1]]%lookup_insert_Some [[<- E2] | [N2 H2]]%lookup_insert_Some; auto.
        -- apply W2 in H2 as [b Hb]. congruence.
        -- subst j. apply W2 in H1 as [b Hb]. congruence.
        -- eauto.
      * apply map_Forall_insert_2; [split; [lia | rewrite lookup_insert_eq; eauto]|].
        intros fd ds Hds. destruct (W4 _ _ Hds). split; [lia | auto].
      * intros j c Hc. destruct (W6 _ _ Hc). auto.
      * intros q j Hq. apply Hj. by apply (W7 q).
      * intros q1 q2 j [[<- <-] | [N1 H1]]%lookup_insert_Some H2; [|eauto]. apply W7 in H2 as [b Hb]. congruence.
    + intros j bs [S1 S2]. split; [done|]. destruct (decide (j = next_ino k)) as [->|]; [|by rewrite lookup_insert_ne].
      rewrite lookup_insert_eq. cbn. by rewrite Hi in S2.
Qed.

Lemma pwrite_machine (k k' : t) fd i b data off r :
  well_formed k -> holds k fd i b -> bytes_ok data -> pwrite fd data off k = (r, k') ->
  match r with
  | Errno_is e => idle k k' /\ (e = EINTR -> (pending_signals k' < pending_signals k)%nat)
  | Done n => 0 <= off /\ 0 <= n <= zlen data /\ writes i (overwrite b off (ztake n data)) off k k'
  end.
Proof.
  intros W Hh Hb. unfold pwrite. rewrite (find_holds _ _ _ _ Hh). destruct Hh as [_ Hi]. cbn in Hi.
  destruct (wf_bytes _ W _ _ Hi) as (_ & Hok & Hlen).
  destruct (off <? 0) eqn:E1; [intros [= <- <-]; split; [by apply idle_here | done]|].
  destruct (kMaxBytes <? _) eqn:E2; [intros [= <- <-]; split; [by apply idle_here | done]|]. bool_prop.
  pose proof (zlen_nonneg data). destruct (zlen data =? 0) eqn:E3; bool_prop.
  { intros [= <- <-]. split_and!; [lia | done | lia |]. rewrite ztake_le by lia. cbn.
    replace k with (k <| script := script k |> <| bytes := <[i := b]> (bytes k) |>) at 2.
    - by apply writes_here with (b := b).
    - destruct k. cbn in *. by rewrite insert_id. }
  destruct (transfer _ k) as [[n|e] k1] eqn:T; apply transfer_spec in T as (Ek & Hs & Hr); try lia.
  2:{ intros [= <- <-]. split; [|done]. rewrite Ek. by apply idle_script. }
  intros [= <- <-]. split_and!; [lia | lia | lia |]. rewrite Ek. cbn.
  apply writes_here with (b := b); auto.
  - apply bytes_ok_overwrite; [done|]. by apply Forall_take.
  - rewrite zlen_overwrite, zlen_ztake by lia. destruct (_ =? 0); lia.
  - intros bs Hbs Hp. by apply prefix_overwrite.
Qed.

Lemma pread_machine (k k' : t) fd i b n off r :
  well_formed k -> holds k fd i b -> pread fd n off k = (r, k') ->
  idle k k' /\
  match r with
  | Errno_is e => e = EINTR -> (pending_signals k' < pending_signals k)%nat
  | Done bs => 0 <= off /\ bs `prefix_of` zsub off n b /\ (bs = [] -> zsub off n b = [])
  end.
Proof.
  intros W Hh. unfold pread. rewrite (find_holds _ _ _ _ Hh).
  destruct (off <? 0) eqn:E1; [intros [= <- <-]; split; [by apply idle_here | done]|]. bool_prop.
  destruct (_ =? 0) eqn:E2; bool_prop.
  { intros [= <- <-]. split; [by apply idle_here|]. split_and!; [lia | apply prefix_nil |]. intros _. by apply zlen_0. }
  pose proof (zlen_nonneg (zsub off n b)).
  destruct (transfer _ k) as [[m|e] k1] eqn:T; apply transfer_spec in T as (Ek & Hs & Hr); try lia;
    intros [= <- <-]; (split; [rewrite Ek; by apply idle_script|]); [|done].
  split_and!; [lia | apply prefix_take|]. intros E. apply (f_equal zlen) in E. rewrite zlen_ztake in E.
  change (zlen []) with 0 in E. lia.
Qed.

Lemma ftruncate_machine (k k' : t) fd i b n r :
  well_formed k -> holds k fd i b -> ftruncate fd n k = (r, k') ->
  match r with
  | Errno_is _ => idle k k'
  | Done _ => 0 <= n /\ writes i (resize b n) n k k'
  end.
Proof.
  intros W Hh. unfold ftruncate. rewrite (find_holds _ _ _ _ Hh). destruct Hh as [_ Hi]. cbn in Hi.
  destruct (wf_bytes _ W _ _ Hi) as (_ & Hok & Hlen).
  destruct (n <? 0) eqn:E1; [intros [= <- <-]; by apply idle_here|].
  destruct (kMaxBytes <? n) eqn:E2; [intros [= <- <-]; by apply idle_here|]. bool_prop. intros [= <- <-].
  split; [lia|]. apply (writes_here k i b _ n (script k)); auto.
  - by apply bytes_ok_resize.
  - by rewrite zlen_resize.
  - intros bs Hbs Hp. by apply prefix_resize.
Qed.

Lemma sync_names_elem dir (k : t) p i :
  sync_names dir k !! p = Some i -> tree k !! p = Some i \/ tree_synced k !! p = Some i.
Proof.
  unfold sync_names. intros [Hp | [_ Hp]]%lookup_union_Some_raw; apply map_lookup_filter_Some in Hp as [Hp _]; auto.
Qed.

Lemma synced_well_formed (k : t) dir i b : well_formed k -> bytes k !! i = Some b ->
  well_formed (k <| bytes_synced := <[i := b]> (bytes_synced k) |> <| tree_synced := sync_names dir k |>).
Proof.
  intros [W1 W2 W3 W4 W5 W6 W7 W8 W9] Hi. split; cbn; auto.
  - apply map_Forall_insert_2; [|done]. destruct (W1 _ _ Hi). eauto.
  - intros p j [Hp | Hp]%sync_names_elem; [by apply (W2 p) | by apply (W7 p)].
  - intros p q j [Hp | Hp]%sync_names_elem [Hq | Hq]%sync_names_elem; [eauto | eauto | | eauto]. symmetry. eauto.
  - intros p q j Hp [Hq | Hq]%sync_names_elem; eauto.
Qed.

#[global] Instance machine_laws : PosixLaws t.
Proof.
  split; cbn.
  - intros k i b W Hb. destruct (wf_bytes _ W _ _ Hb) as (_ & ? & ?). split; [done|].
    unfold kMaxBytes in *. change (2 ^ 40) with 1099511627776 in *. pow2. lia.
  - intros k p i W Hp. by apply (wf_tree _ W p).
  - intros k fd ds W Hd. destruct (wf_files _ W _ _ Hd). split; [lia | done].
  - intros k p q i W. apply (wf_distinct _ W).
  - intros k i bs b W [_ S] Hb. by rewrite Hb in S.
  - intros k i bs cs Hp [S1 S2]. split; by etrans.
  - intros k i. split; apply prefix_nil.
  - intros k p fl r k'. apply open_machine.
  - intros k fd W. split_and!; auto. destruct W as [W1 W2 W3 W4 W5 W6 W7 W8 W9]. split; auto. by apply map_Forall_delete.
  - intros k fd i b data off r k'. apply pwrite_machine.
  - intros k fd i b n off r k'. apply pread_machine.
  - intros k fd i b r k' W Hh. unfold fsync. rewrite (find_holds _ _ _ _ Hh). destruct Hh as [(ds & Hd & _) Hi]. cbn in Hd, Hi.
    rewrite Hd. intros [= <- <-]. split; cbn.
    + split; cbn; auto; [by apply synced_well_formed|].
      intros j bs [S1 S2].
      split; [|done]. destruct (decide (j = i)) as [->|]; [|by rewrite lookup_insert_ne].
      rewrite lookup_insert_eq. by rewrite Hi in S2.
    + intros _. by rewrite lookup_insert_eq, Hi.
  - intros k fd i b n r k'. apply ftruncate_machine.
  - intros k fd i b r k' W Hh. unfold fstat. rewrite (find_holds _ _ _ _ Hh). intros [= <- <-].
    split; [by apply idle_here|]. by intros n [= <-].
  - intros k p r k' W. unfold unlink. destruct (tree k !! p) as [i|] eqn:E; intros [= <- <-]; [|by apply idle_here].
    cbn. split_and!; auto. destruct W as [W1 W2 W3 W4 W5 W6 W7 W8 W9]. split; cbn; auto; [by apply map_Forall_delete | |].
    + intros p1 p2 j [_ H1]%lookup_delete_Some [_ H2]%lookup_delete_Some. eauto.
    + intros p1 p2 j [_ H1]%lookup_delete_Some H2. eauto.
  - intros k p r k' W [= <- <-]. by apply idle_here.
  - intros k dir r k' W Hd [= <- <-]. split; [by apply idle_here|]. intros es [= <-].
    split; [apply NoDup_elements|]. intros name _ Hn [i Hi]. apply elem_of_elements, elem_of_list_to_set, list_elem_of_fmap.
    destruct (SimDisk.join_parts dir name Hd Hn) as [Hp Hb]. exists (join dir name). split; [done|].
    apply list_elem_of_filter. split; [done|]. apply list_elem_of_fmap. exists (join dir name, i). split; [done|].
    by apply elem_of_map_to_list.
Qed.

Lemma boot_well_formed : well_formed boot.
Proof.
  split; cbn; [apply map_Forall_empty | apply map_Forall_empty | | apply map_Forall_empty | lia | apply map_Forall_empty
    | apply map_Forall_empty | |]; intros p q i Hp; by rewrite lookup_empty in Hp.
Qed.

Lemma with_name_well_formed p : well_formed (with_name p).
Proof.
  assert (forall p1 p2 i, ({[ p := 1 ]} : gmap chars Z) !! p1 = Some i -> ({[ p := 1 ]} : gmap chars Z) !! p2 = Some i -> p1 = p2) as Hd.
  { intros p1 p2 i [<- _]%lookup_singleton_Some [<- _]%lookup_singleton_Some. done. }
  assert (is_Some (({[ 1 := [] ]} : gmap Z (list Z)) !! 1)) as Hi by (rewrite lookup_singleton_eq; eauto).
  unfold with_name. split; cbn [bytes tree files next_ino next_fd bytes_synced tree_synced];
    [| by apply map_Forall_singleton | done | apply map_Forall_empty | lia | | by apply map_Forall_singleton | done | done];
    apply map_Forall_singleton; (split; [by auto || lia|]); (split; [constructor | done]).
Qed.

#[global] Instance machine_crash : PosixCrash t (fun k k' => k' = crash k).
Proof.
  split. intros k k' W ->. pose proof W as [W1 W2 W3 W4 W5 W6 W7 W8 W9].
  assert (forall i, is_Some (bytes k !! i) -> is_Some ((bytes_synced k ∪ ((fun _ => []) <$> bytes k)) !! i)) as Hi.
  { intros i Hb. apply lookup_union_is_Some. right. by rewrite lookup_fmap, fmap_is_Some. }
  split_and!; cbn.
  - split; cbn; auto.
    + intros i b [Hb | [_ Hb]]%lookup_union_Some_raw.
      * destruct (W6 _ _ Hb) as ([c Hc] & ? & ?). by destruct (W1 _ _ Hc).
      * rewrite lookup_fmap in Hb. destruct (bytes k !! i) as [c|] eqn:Ec; [|done]. injection Hb as <-.
        destruct (W1 _ _ Ec). split_and!; [done | constructor | done].
    + intros p i Hp. apply Hi. by apply (W7 p).
    + apply map_Forall_empty.
    + intros i b Hb. destruct (W6 _ _ Hb). auto.
    + intros p i Hp. apply Hi. by apply (W7 p).
  - done.
  - intros i bs [S1 S2]. split; [done|]. destruct (bytes_synced k !! i) as [c|] eqn:Ec.
    + by rewrite (lookup_union_Some_l _ _ _ _ Ec).
    + cbn in S1. apply prefix_nil_inv in S1 as ->. apply prefix_nil.
Qed.

(** ** A machine that promises more

    As long as its script is empty the machine writes all or nothing; [journalled] is a power
    cut of a file system with a journal: the names are as they were, and of every file what
    was synced comes back, as far as the file still reached. *)

Definition calm (k : t) : Prop := script k = [].
Definition calm_view : PosixView t := restricted_view calm.

Definition journalled (k : t) : t :=
  let platter := map_imap (fun i b => Some (ztake (zlen b) (default [] (bytes_synced k !! i)))) (bytes k) in
  mk (tree k) (tree k) platter platter ∅ (next_ino k) (next_fd k) [].

Lemma transfer_calm n (k : t) : calm k -> transfer n k = (Done n, k).
Proof. unfold transfer. by intros ->. Qed.

Lemma calm_keeps : keeps_calls calm.
Proof.
  split; cbn.
  - intros p fl k Hk. unfold open. destruct (tree k !! p); [done|]. by destruct (o_creat fl).
  - done.
  - intros fd data off k Hk. unfold pwrite. rewrite (transfer_calm _ _ Hk).
    destruct (find fd k) as [[i b]|]; [|done]. by repeat case_match; simplify_eq.
  - intros fd n off k Hk. unfold pread. destruct (find fd k) as [[i b]|]; [|done]. rewrite (transfer_calm _ _ Hk).
    by repeat case_match; simplify_eq.
  - intros fd k Hk. unfold fsync. destruct (files k !! fd); [|done]. by destruct (find fd k) as [[i b]|].
  - intros fd n k Hk. unfold ftruncate. destruct (find fd k) as [[i b]|]; [|done]. by repeat case_match.
  - intros fd k Hk. unfold fstat. by destruct (find fd k) as [[i b]|].
  - intros p k Hk. unfold unlink. by destruct (tree k !! p).
  - done.
  - done.
Qed.

Lemma calm_laws : PosixLaws t (H0 := calm_view).
Proof. apply restricted_laws, calm_keeps. Qed.

Lemma calm_whole : PosixWhole t (H0 := calm_view).
Proof.
  split; cbn.
  - intros k fd i b data off n k' [_ Hk] Hh Hb. unfold pwrite. rewrite (find_holds _ _ _ _ Hh), (transfer_calm _ _ Hk).
    destruct (off <? 0); [done|]. destruct (kMaxBytes <? _); [done|]. destruct (zlen data =? 0) eqn:E; bool_prop; by intros [= <- _].
  - intros k fd i b [_ Hk] Hh. unfold fstat. by rewrite (find_holds _ _ _ _ Hh).
  - intros k p _ [i Hi]. unfold unlink. by rewrite Hi.
Qed.

Lemma journalled_lookup (k : t) i :
  bytes (journalled k) !! i = (fun b => ztake (zlen b) (default [] (bytes_synced k !! i))) <$> bytes k !! i.
Proof. cbn. rewrite map_lookup_imap. by destruct (bytes k !! i). Qed.

Lemma journalled_well_formed (k : t) : well_formed k -> well_formed (journalled k).
Proof.
  intros [W1 W2 W3 W4 W5 W6 W7 W8 W9].
  assert (forall i, is_Some (bytes k !! i) -> is_Some (bytes (journalled k) !! i)) as Hi.
  { intros i Hb. rewrite journalled_lookup. by apply fmap_is_Some. }
  assert (forall i b, bytes (journalled k) !! i = Some b -> i < next_ino k /\ bytes_ok b /\ zlen b <= kMaxBytes) as Hb.
  { intros i b. rewrite journalled_lookup. destruct (bytes k !! i) as [c|] eqn:E; [|done]. intros [= <-].
    destruct (W1 _ _ E) as (A & B & C). pose proof (zlen_nonneg c). split_and!; [done | | rewrite zlen_ztake; lia]. apply Forall_take.
    destruct (bytes_synced k !! i) as [s|] eqn:Es; [by apply (W6 _ _ Es) | constructor]. }
  split; cbn; auto.
  - intros p i Hp. apply Hi. by apply (W2 p).
  - apply map_Forall_empty.
  - intros i b Hib. destruct (Hb i b Hib) as (A & B). split; [|done]. eauto.
  - intros p i Hp. apply Hi. by apply (W2 p).
Qed.

Lemma journalled_synced (k : t) i bs : synced k i bs -> synced (journalled k) i bs.
Proof.
  intros [S1 S2]. assert (bs `prefix_of` default [] (bytes (journalled k) !! i)) as Hp; [|by split].
  rewrite journalled_lookup. destruct (bytes k !! i) as [b|]; [|done]. cbn in *.
  destruct S1 as [x ->], S2 as [y ->]. exists (ztake (zlen y) x). rewrite zlen_app. unfold ztake, zlen.
  rewrite take_app_ge by lia. f_equal. f_equal. lia.
Qed.

Lemma calm_crash : PosixCrash t (H := calm_view) (fun k k' => k' = journalled k).
Proof.
  split. intros k k' [W Hk] ->. split; [split; [by apply journalled_well_formed | done]|]. split; [done|].
  intros i bs. apply journalled_synced.
Qed.

Lemma calm_journal : PosixJournal t (H := calm_view) (fun k k' => k' = journalled k).
Proof.
  split. intros k k' [W Hk] ->. split; [done|]. intros i b [S _] Hb.
  change (inodes (journalled k) !! i = Some b) with (bytes (journalled k) !! i = Some b).
  change (bytes k !! i = Some b) in Hb. rewrite journalled_lookup, Hb. cbn. f_equal. destruct S as [x ->].
  unfold ztake, zlen. by rewrite Nat2Z.id, take_app_length.
Qed.

End Machine.
