(* ===== verification/RealDiskProps.v ===== *)
(** * Properties of the disk of the process

    That [RealDisk] on a POSIX kernel implements the disk interface, that its write loop
    finishes what the kernel started, what [fsync] is worth across a power cut, and two runs
    of the partition log on [RealDisk] in which fsynced records are lost: one because the
    directory is not synced, one because a write that failed half-way left its bytes behind. *)
From S2P Require Import Prelude Random Base RecordBatch Disk SimDisk Segment Chain SegmentFacts SegmentProps.
From S2P Require Import Log LogFacts LogRecovery LogDurable LogProps Posix RealDisk Machine.

(** ** The contract *)

(** C27: The disk of the process implements the disk interface the storage layer is proved
    against, call by call, on every kernel that keeps to POSIX: short transfers are
    continued, interrupted ones repeated, and a new process starts with a good disk. *)
Theorem real_disk_refines_interface (K : Type) (PK : Posix K) (PV : PosixView K) :
  PosixLaws K -> Disk.laws (RealDisk.t K) /\ forall k : K, sane k -> Disk.good (RealDisk.new k).
Proof. intros PL. split; [apply _ | apply RealDisk.new_real_good]. Qed.

Lemma real_disk_refines_interface_witness :
  Disk.laws (RealDisk.t Machine.t) /\ Disk.good (RealDisk.new Machine.boot).
Proof.
  destruct (real_disk_refines_interface Machine.t Machine.machine_posix Machine.machine_view Machine.machine_laws) as [L G].
  exact (conj L (G Machine.boot Machine.boot_well_formed)).
Defined.

(** On a kernel that promises more than POSIX does, the disk of the process is what the
    theorems about durability ask for: steady, if a write takes all it is given or is refused
    and sizes and unlinks do not fail, and with every file still there after a power cut, if
    the cut keeps names and sizes. *)
Theorem real_disk_steady (K : Type) (PK : Posix K) (PV : PosixView K) (cut : K -> K -> Prop) :
  PosixLaws K -> PosixWhole K -> PosixCrash K cut -> PosixJournal K cut ->
  Disk.steady (RealDisk.t K) /\ Disk.crash_laws (RealDisk.t K) (RealDisk.power_cut cut).
Proof. split; apply _. Qed.

Lemma real_disk_steady_witness :
  let PV := Machine.calm_view in
  (Disk.steady (RealDisk.t Machine.t) /\
   Disk.crash_laws (RealDisk.t Machine.t) (RealDisk.power_cut (fun k k' => k' = Machine.journalled k))) /\
  Disk.good (RealDisk.new Machine.boot).
Proof.
  intros PV. split.
  - exact (real_disk_steady Machine.t Machine.machine_posix Machine.calm_view _
      Machine.calm_laws Machine.calm_whole Machine.calm_crash Machine.calm_journal).
  - by split; [split; [apply Machine.boot_well_formed|]|..].
Defined.

(** ** Writes are finished *)

Section Willing.
Context {K : Type} `{PL : PosixLaws K}.
Context (P : K -> Prop) (fd : Z) (data : list Z) (off : Z).

(** As long as [P] holds, a write of the rest of [data] makes progress or is interrupted. *)
Definition willing : Prop := forall k r k' m, P k -> 0 <= m < zlen data ->
  sys_pwrite fd (zdrop m data) (off + m) k = (r, k') ->
  P k' /\ match r with Done n => 0 < n | Errno_is e => e = EINTR end.

Lemma willing_loop : willing -> 0 <= off -> off + zlen data < 2 ^ 63 -> forall fuel written k r k',
  P k -> 0 <= written <= zlen data -> RealDisk.pwrite_loop fuel fd data off written k = Some (r, k') ->
  (forall n, r = Ok n -> n <= zlen data) -> r = Ok (zlen data).
Proof using PL.
  intros Hw Ho Hl. induction fuel as [|fuel IH]; intros written k r k' Pk Hn; cbn [RealDisk.pwrite_loop]; [done|].
  destruct (written <? zlen data) eqn:E; bool_prop; cbn [negb].
  2:{ intros [= <- <-] _. f_equal. lia. }
  assert (0 <= written < zlen data) as Hin by lia.
  rewrite (RealDisk.off_t_small (off + written)) by (pow2; lia). destruct (sys_pwrite _ _ _ k) as [[n|e] k1] eqn:W.
  - destruct (Hw _ _ _ _ Pk Hin W) as [Pk1 Hpos]. rewrite (proj2 (Z.eqb_neq _ _)) by lia.
    intros R Hle. destruct (Z_le_dec (written + n) (zlen data)); [by eapply IH in R; eauto; lia|].
    exfalso. destruct fuel as [|fuel']; cbn [RealDisk.pwrite_loop] in R; [done|].
    rewrite (proj2 (Z.ltb_ge _ _)) in R by lia. injection R as <- <-. specialize (Hle _ eq_refl). lia.
  - destruct (Hw _ _ _ _ Pk Hin W) as [Pk1 ->]. rewrite bool_decide_true by done. by apply IH.
Qed.

End Willing.

(** Short and interrupted writes are finished.  If the kernel never refuses, however
    little it takes at a time and however often a signal interrupts it, [pwrite] comes back
    with everything written and the file holds precisely the new bytes. *)
Theorem real_write_completes (K : Type) (PK : Posix K) (PV : PosixView K) (P : K -> Prop) (d d' : RealDisk.t K)
    (f : Z) (p : chars) (b data : list Z) (off : Z) (r : Result Z) :
  PosixLaws K -> Disk.good d -> Disk.opened d f p b -> bytes_ok data -> 0 <= off -> off + zlen data < 2 ^ 63 ->
  willing P (RealDisk.fd_for f d) data off -> P (RealDisk.kernel d) ->
  RealDisk.pwrite f data off d = (r, d') ->
  r = Ok (zlen data) /\ Disk.files d' !! p = Some (overwrite b off data).
Proof.
  intros PL Hg Ho Hb Hoff Hl Hw Pk E. pose proof (zlen_nonneg data).
  assert (0 <= off < 2 ^ 64) as Hoff' by (pow2; lia).
  destruct (RealDisk.pwrite_real _ _ _ _ _ _ _ _ Hg Ho Hoff' Hb E) as (k & _ & Hk & F & _ & R).
  assert (r = Ok (zlen data)) as ->.
  2:{ split; [done|]. subst k. by rewrite ztake_ge in F by lia. }
  destruct (RealDisk.opened_holds _ _ _ _ Hg Ho) as (i & Ef & _). unfold RealDisk.pwrite in E. rewrite Ef in E.
  destruct (RealDisk.pwrite_returns _ _ _ _ _ _ Hg Ho Hoff' Hb) as (r' & k' & _ & m & L & _ & _ & _ & _).
  rewrite L in E. injection E as -> _.
  refine (willing_loop P _ data off Hw Hoff Hl _ 0 _ r k' Pk _ L _); [lia|]. intros n ->. lia.
Qed.

(** Thirteen bytes through a kernel that takes five, is interrupted, takes one, and so on. *)
Definition stutter : list Machine.Outcome :=
  [Machine.Short 5; Machine.Interrupted; Machine.Short 1; Machine.Interrupted; Machine.Interrupted; Machine.Short 3].
Definition fresh_file := RealDisk.open (lit "f") kCreate (RealDisk.new Machine.boot).
Definition stuttering : RealDisk.t Machine.t :=
  fresh_file.2 <| RealDisk.kernel := RealDisk.kernel fresh_file.2 <| Machine.script := stutter |> |>.
Definition thirteen : list Z := [1; 2; 3; 4; 5; 6; 7; 8; 9; 10; 11; 12; 13].

(** The inode of the file is there and the script holds no refusal. *)
Definition obliging (k : Machine.t) : Prop :=
  (exists b, Machine.find 3 k = Some (1, b)) /\ Forall (fun o => forall n, o <> Machine.Refused n) (Machine.script k).

Lemma stuttering_willing : willing obliging 3 thirteen 0.
Proof.
  intros k r k' m [(b & Hf) Hs] Hm. cbn [sys_pwrite Machine.machine_posix]. unfold Machine.pwrite. rewrite Hf.
  rewrite (proj2 (Z.ltb_ge _ _)) by lia. assert (0 < zlen (zdrop m thirteen) <= 13) as Hl.
  { rewrite zlen_zdrop. change (zlen thirteen) with 13 in *. lia. }
  change (zlen thirteen) with 13 in Hm.
  rewrite (proj2 (Z.ltb_ge _ _)), (proj2 (Z.eqb_neq _ _)) by (unfold Machine.kMaxBytes; lia).
  assert (forall s c, Forall (fun o => forall n, o <> Machine.Refused n) s ->
    obliging (k <| Machine.script := s |> <| Machine.bytes := <[1 := c]> (Machine.bytes k) |>) /\
    obliging (k <| Machine.script := s |>)) as Ob.
  { intros s c Hs'. unfold obliging, Machine.find in *. cbn.
    destruct (Machine.files k !! 3) as [ds|]; [|done]. cbn in *.
    destruct (Machine.bytes k !! ino ds) as [b'|] eqn:Eb; [|done]. injection Hf as Hi _. rewrite Hi in *.
    rewrite lookup_insert_eq. cbn. by split; split; eauto. }
  unfold Machine.transfer. destruct (Machine.script k) as [|o s] eqn:Es.
  - intros [= <- <-]. split; [|lia]. destruct k. cbn in Es. subst. by apply Ob.
  - apply Forall_cons in Hs as [Ho Hs]. destruct o as [|n|n]; [| |by destruct (Ho n)]; intros [= <- <-].
    + split; [by apply (Ob _ [])|done].
    + split; [by apply Ob | lia].
Qed.

Lemma fresh_file_good : Disk.good fresh_file.2.
Proof.
  assert (RealDisk.open (lit "f") kCreate (RealDisk.new Machine.boot) = (Ok 0, fresh_file.2)) as E by (vm_compute; reflexivity).
  apply RealDisk.open_real in E as (_ & G & _); [done|]. apply RealDisk.new_real_good, Machine.boot_well_formed.
Qed.

(** Setting the script behind an object leaves its disk good. *)
Lemma scripted_good (d : RealDisk.t Machine.t) s :
  Disk.good d -> Disk.good (d <| RealDisk.kernel := RealDisk.kernel d <| Machine.script := s |> |>).
Proof. intros [[W1 W2 W3 W4 W5 W6 W7 W8 W9] G2 G3]. by split; [split|..]. Qed.

Lemma real_write_completes_witness :
  let w := RealDisk.pwrite 0 thirteen 0 stuttering in
  w.1 = Ok (zlen thirteen) /\ Disk.files w.2 !! lit "f" = Some (overwrite [] 0 thirteen).
Proof.
  refine (real_write_completes Machine.t Machine.machine_posix Machine.machine_view obliging stuttering
    (RealDisk.pwrite 0 thirteen 0 stuttering).2 0 (lit "f") [] thirteen 0 _ Machine.machine_laws _ _ _ _ _ _ _ _).
  - apply scripted_good, fresh_file_good.
  - split; [exists kCreate|]; vm_compute; reflexivity.
  - apply bytes_ok_forallb. vm_compute. reflexivity.
  - done.
  - vm_compute. reflexivity.
  - replace (RealDisk.fd_for 0 stuttering) with 3 by (vm_compute; reflexivity). apply stuttering_willing.
  - split; [exists []; vm_compute; reflexivity | by repeat constructor].
  - apply surjective_pairing.
Defined.

(** ** [fsync] and power cuts *)

(** What [fsync] is worth.  Once [fsync] returned, the bytes of the file are there after
    any power cut that left the file its name: a new process finds a file that begins with
    them. *)
Theorem real_fsync_durable (K : Type) (PK : Posix K) (PV : PosixView K) (cut : K -> K -> Prop)
    (d d' : RealDisk.t K) (k' : K) (f : Z) (p : chars) (b : list Z) :
  PosixLaws K -> PosixCrash K cut -> Disk.good d -> Disk.opened d f p b ->
  RealDisk.fsync f d = (Ok tt, d') -> cut (RealDisk.kernel d') k' ->
  names k' !! p = names (RealDisk.kernel d') !! p ->
  exists b', Disk.files (RealDisk.new k') !! p = Some b' /\ b `prefix_of` b'.
Proof.
  intros PL CL Hg Ho E Hc Hn. destruct (RealDisk.fsync_real _ _ _ _ _ _ Hg Ho E) as [S St]. specialize (St eq_refl).
  assert (Disk.good d') as Hg' by apply S.
  apply (Disk.settled_prefix (RealDisk.new k')).
  - apply RealDisk.new_real_good. by apply (cut_law _ _ (RealDisk.ids_sane _ _ Hg') Hc).
  - by eapply RealDisk.settled_survives.
Qed.

(** A machine on whose platter there is one empty file. *)
Definition one_file : Machine.t := Machine.with_name (lit "f").

Definition kept_open := RealDisk.open (lit "f") kReadWrite (RealDisk.new one_file).
Definition kept_write := RealDisk.pwrite 0 [1; 2; 3] 0 kept_open.2.
Definition kept_sync := RealDisk.fsync 0 kept_write.2.

Lemma kept_write_good : Disk.good kept_write.2 /\ Disk.opened kept_write.2 0 (lit "f") [1; 2; 3].
Proof.
  assert (RealDisk.open (lit "f") kReadWrite (RealDisk.new one_file) = (Ok 0, kept_open.2)) as E by (vm_compute; reflexivity).
  apply RealDisk.open_real in E as (_ & G & _); [|apply RealDisk.new_real_good, Machine.with_name_well_formed].
  assert (Disk.opened kept_open.2 0 (lit "f") []) as Ho by (split; [exists kReadWrite|]; vm_compute; reflexivity).
  assert (RealDisk.pwrite 0 [1; 2; 3] 0 kept_open.2 = (Ok 3, kept_write.2)) as W by (vm_compute; reflexivity).
  eapply RealDisk.pwrite_real in W as (k & On & _); [|done..|by repeat constructor]. split; [apply On|].
  split; [exists kReadWrite|]; vm_compute; reflexivity.
Qed.

Lemma real_fsync_durable_witness :
  exists b', Disk.files (RealDisk.new (Machine.crash (RealDisk.kernel kept_sync.2))) !! lit "f" = Some b' /\
    [1; 2; 3] `prefix_of` b'.
Proof.
  refine (real_fsync_durable Machine.t Machine.machine_posix Machine.machine_view (fun k k' => k' = Machine.crash k)
    kept_write.2 kept_sync.2 _ 0 (lit "f") [1; 2; 3] Machine.machine_laws Machine.machine_crash
    (proj1 kept_write_good) (proj2 kept_write_good) _ eq_refl _); vm_compute; reflexivity.
Defined.

(** ** Two ways to lose fsynced records *)

Abbreviation machine_disk := (RealDisk.t Machine.t).

Definition real_put (epoch : Z) (vs : list (list Z)) (l : Log.t) (d : machine_disk) :=
  Log.append (built vs) (log_meta epoch) l d.
Definition real_after {A B} (r : A * B * Log.t * machine_disk) : Log.t * machine_disk := (r.1.2, r.2).

(** A new log in a directory that is on the platter, one batch, [fsync]. *)
Definition lost0 := Log.open log_dir log_options (RealDisk.new (Machine.with_name log_dir)).
Definition lost1 := real_put 1 [[7; 8]; [9]] (log_of lost0.1) lost0.2.
Definition lost2 := Log.fsync (real_after lost1).1 (real_after lost1).2.

(** The power goes, and the log is opened again. *)
Definition reopened (k : Machine.t) := Log.open log_dir log_options (RealDisk.new (Machine.crash k)).

(** [open(dir, O_RDONLY)] and [fsync] of the descriptor. *)
Definition sync_directory (dir : chars) (k : Machine.t) : Sys unit * Machine.t :=
  match sys_open dir (mkFlags O_RDONLY false) k with
  | (Done fd, k) => sys_fsync fd k
  | (Errno_is e, k) => (Errno_is e, k)
  end.

(** C20: A power cut can take a whole log that was fsynced, because the storage layer does not
    sync the directory.  On a machine that keeps to POSIX, where [fsync] of a file reaches its
    bytes and [fsync] of a directory the names in it, a process opens a log in an existing
    directory and appends its first batch, and [fsync] succeeds.  The names on the platter are
    still those from before.  When the power goes now, the log that opens is empty; had the
    directory been opened and fsynced before the power went, the log would open with both
    records. *)
Theorem unsynced_directory_loses_log :
  PosixLaws Machine.t /\ PosixCrash Machine.t (fun k k' => k' = Machine.crash k) /\ sane (Machine.with_name log_dir) /\
  ok lost0.1 = true /\ lost1.1.1.1 = Ok 0 /\ lost2.1 = Ok tt /\ Log.next_offset_ (real_after lost1).1 = 2 /\
  let k := RealDisk.kernel lost2.2 in
  Machine.tree_synced k = Machine.tree_synced (Machine.with_name log_dir) /\
  (ok (reopened k).1 = true /\ Log.next_offset_ (log_of (reopened k).1) = 0) /\
  (sync_directory log_dir k).1 = Done tt /\
  let k' := (sync_directory log_dir k).2 in
  ok (reopened k').1 = true /\ Log.next_offset_ (log_of (reopened k').1) = 2.
Proof.
  split; [apply _|]. split; [apply _|]. split; [apply Machine.with_name_well_formed|]. cbv zeta.
  split_and!; vm_compute; reflexivity.
Qed.

(** A batch that the device refuses after 100 of its bytes, a smaller batch in its place, and
    one that needs a new segment. *)
Definition long_record : list Z := zrep 60 9.
Definition wide_options : Log.Options := Log.mkOptions 200 4096.
Definition scar0 := Log.open log_dir wide_options (RealDisk.new Machine.boot).
Definition scar1 := real_put 1 [[1]] (log_of scar0.1) scar0.2.
Definition full_device (d : machine_disk) : machine_disk :=
  d <| RealDisk.kernel := RealDisk.kernel d <| Machine.script := [Machine.Short 100; Machine.Refused 28] |> |>.
Definition scar2 := real_put 1 [long_record] (real_after scar1).1 (full_device (real_after scar1).2).
Definition scar3 := real_put 1 [[2]] (real_after scar2).1 (real_after scar2).2.
Definition scar4 := real_put 1 [long_record] (real_after scar3).1 (real_after scar3).2.
Definition scar5 := Log.fsync (real_after scar4).1 (real_after scar4).2.
Definition scar6 := Log.open log_dir wide_options scar5.2.

(** C21: A write that fails half-way can cost a later segment.  The device takes part of a
    batch and then is full; [append] reports the error and leaves the bytes behind the end of
    the segment.  A smaller batch overwrites some of them, a third one rolls to a new segment
    and is fsynced.  The next open, without any power cut, finds garbage behind the first
    segment, cuts it, and deletes the new segment with the fsynced batch. *)
Theorem failed_write_loses_segment :
  ok scar0.1 = true /\ scar1.1.1.1 = Ok 0 /\ scar2.1.1.1 = fail kIoError /\ scar3.1.1.1 = Ok 1 /\
  scar4.1.1.1 = Ok 2 /\ scar5.1 = Ok tt /\ bases (real_after scar4).1 = [0; 2] /\
  Log.next_offset_ (real_after scar4).1 = 3 /\
  ok scar6.1 = true /\ Log.next_offset_ (log_of scar6.1) = 2 /\ Disk.files scar6.2 !! log_path log_dir 2 = None.
Proof. vm_compute. by split_and!. Qed.
