(* ===== verification/CrashDemo.v ===== *)
(** * crash-demo

    Models [src/tools/crash_demo.cpp]: an appender that writes a batch, fsyncs the log and only
    then notes the batch in an ack file, and a verifier that opens the log again and looks for
    every batch of the ack file.  A printed line is a value of [Line].  The appender runs until
    it is killed: [append_loop] goes on for as many batches as it is given, and [None] in place
    of an exit code says that it is still running. *)
From S2P Require Import Prelude Base RecordBatch SparseIndex Disk Text Segment Log.
From S2P Require Import Posix RealDisk.
Import Strto.

Module AckFile.

Record Ack := mkAck { base_offset : Z; count : Z }.

Record t := mk { id_ : Z; pos_ : Z }.

#[export] Instance AckFile_eta : Settable t := fun a => mk (id_ a) (pos_ a).

Definition new : t := mk kInvalidFile 0.

(** A line of the file. *)
Definition line (base_offset count : Z) : chars := to_chars base_offset ++ space :: to_chars count ++ [newline].

(** The [while] of [read_all] over the text; every turn takes a newline out of it. *)
Fixpoint parse (fuel : nat) (text : chars) : list Ack :=
  match fuel with
  | O => []
  | S fuel' =>
      match split_at newline text with
      | (_, None) => []
      | (line, Some rest) =>
          match split_at space line with
          | (_, None) => parse fuel' rest
          | (_, Some behind) => mkAck (strtoul 10 line) (strtoul 10 behind) :: parse fuel' rest
          end
      end
  end.

Section File.
Context {D : Type} `{Disk.t D}.

Definition open_for_append (path : chars) (a : t) (d : D) : Status * t * D :=
  match Disk.open path kCreate d with
  | (fail e, d) => (fail e, a, d)
  | (Ok file, d) =>
      let a := a <| id_ := file |> in
      match Disk.size file d with
      | (fail e, d) => (fail e, a, d)
      | (Ok size, d) => (Ok tt, a <| pos_ := size |>, d)
      end
  end.

Definition record (base_offset count : Z) (a : t) (d : D) : Status * t * D :=
  match Disk.pwrite (id_ a) (bytes_of (line base_offset count)) (pos_ a) d with
  | (fail e, d) => (fail e, a, d)
  | (Ok written, d) =>
      let a := a <| pos_ := u64 (pos_ a + written) |> in
      let '(st, d) := Disk.fsync (id_ a) d in
      (st, a, d)
  end.

Definition read_all (path : chars) (d : D) : list Ack * D :=
  match Disk.open path kRead d with
  | (fail _, d) => ([], d)
  | (Ok file, d) =>
      match Disk.size file d with
      | (fail _, d) => ([], d)
      | (Ok size, d) =>
          let '(got, d) := Disk.pread file size 0 d in
          let d := Disk.close file d in
          match got with
          | fail _ => ([], d)
          | Ok bytes => (parse (length bytes) (chars_of bytes), d)
          end
      end
  end.

End File.

End AckFile.

Module CrashDemo.

Inductive Line :=
  | CannotOpenLog (e : ErrorCode)
  | CannotOpenAcks (e : ErrorCode)
  | WritingFrom (offset records : Z)
  | AppendError (e : ErrorCode)
  | FsyncFailed (e : ErrorCode)
  | AckFailed (e : ErrorCode)
  | BatchesAcked (batches next : Z)
  | NoAcks
  | RecoveryLine (r : Log.RecoveryReport)
  | LogLine (start next : Z)
  | AcksLine (batches records highest : Z)
  | LostOffsets (first last log_end : Z)
  | LostUnreadable (offset : Z)
  | WrongBatch (offset : Z)
  | WrongBytes (offset : Z)
  | CheckedLine (records : Z)
  | ExtraLine (records : Z)
  | Failed (missing mismatched : Z)
  | EveryAckSurvived
  | UnknownOption (key : chars)
  | Usage.

Definition payload_for (offset : Z) : list Z :=
  resize_with (code ".") 64 (bytes_of (lit "record-" ++ to_chars offset ++ lit "-")).

Definition options : Log.Options := Log.mkOptions (64 * 1024) kDefaultIndexIntervalBytes.
Definition no_meta : BatchMeta := mkBatchMeta 0 false 0 0 0 0.

Section Demo.
Context {D : Type} `{Disk.t D}.

(** ** append *)

Section Append.
Context (records_per_batch max_batches : Z).

(** The variables of the loop. *)
Record Appender := mkAppender { builder : BatchBuilder.t; acks : AckFile.t; log : Log.t }.

#[export] Instance Appender_eta : Settable Appender := fun a => mkAppender (builder a) (acks a) (log a).

Fixpoint add_values (n : nat) (offset : Z) (b : BatchBuilder.t) : bool * BatchBuilder.t :=
  match n with
  | O => (true, b)
  | S n' =>
      match BatchBuilder.add_record b (payload_for offset) with
      | (fail _, b) => (false, b)
      | (Ok _, b) => add_values n' (u64 (offset + 1)) b
      end
  end.

(** The body of the loop: whether it goes on, or returns 1. *)
Definition append_batch (batch : Z) (a : Appender) (d : D) : bool * list Line * Appender * D :=
  let '(added, b) := add_values (Z.to_nat records_per_batch) (Log.next_offset_ (log a)) (BatchBuilder.clear (builder a)) in
  let a := a <| builder := b |> in
  if negb added then (false, [], a, d)
  else
    let '(assigned, b, l, d) := Log.append (builder a) no_meta (log a) d in
    let a := a <| builder := b |> <| log := l |> in
    match assigned with
    | fail e => (false, [AppendError e], a, d)
    | Ok base =>
        match Log.fsync (log a) d with
        | (fail e, d) => (false, [FsyncFailed e], a, d)
        | (Ok _, d) =>
            let '(st, f, d) := AckFile.record base records_per_batch (acks a) d in
            let a := a <| acks := f |> in
            match st with
            | fail e => (false, [AckFailed e], a, d)
            | Ok _ =>
                (true, if batch mod 200 =? 0 then [BatchesAcked (u64 (batch + 1)) (Log.next_offset_ (log a))] else [], a, d)
            end
        end
    end.

Fixpoint append_loop (fuel : nat) (batch : Z) (a : Appender) (d : D) : option Z * list Line * Appender * D :=
  if negb ((max_batches =? 0) || (batch <? max_batches)) then (Some 0, [], a, d)
  else
    match fuel with
    | O => (None, [], a, d)
    | S fuel' =>
        match append_batch batch a d with
        | (false, lines, a, d) => (Some 1, lines, a, d)
        | (true, lines, a, d) =>
            let '(r, more, a, d) := append_loop fuel' (u64 (batch + 1)) a d in (r, lines ++ more, a, d)
        end
    end.

End Append.

(** Up to the loop: the log and the ack file, or what is printed. *)
Definition start_append (dir acks_path : chars) (d : D) : (list Line + Appender) * D :=
  match Log.open dir options d with
  | (fail e, d) => (inl [CannotOpenLog e], d)
  | (Ok l, d) =>
      match AckFile.open_for_append acks_path AckFile.new d with
      | (fail e, _, d) => (inl [CannotOpenAcks e], Log.destroy l d)
      | (Ok _, f, d) => (inr (mkAppender BatchBuilder.new f l), d)
      end
  end.

Definition run_append (fuel : nat) (dir acks_path : chars) (records_per_batch max_batches : Z) (d : D) : option Z * list Line * D :=
  match start_append dir acks_path d with
  | (inl lines, d) => (Some 1, lines, d)
  | (inr a, d) =>
      let first := WritingFrom (Log.next_offset_ (log a)) records_per_batch in
      match append_loop records_per_batch max_batches fuel 0 a d with
      | (None, lines, _, d) => (None, first :: lines, d)
      | (Some code, lines, a, d) => (Some code, first :: lines, Log.destroy (log a) d)
      end
  end.

(** ** verify *)

(** The records of a batch against what they were written as. *)
Fixpoint check_values (offset : Z) (values : list (list Z)) : list Line * Z * Z :=
  match values with
  | [] => ([], 0, 0)
  | value :: rest =>
      let '(lines, checked, mismatched) := check_values (u64 (offset + 1)) rest in
      if bool_decide (value = payload_for offset) then (lines, checked + 1, mismatched)
      else (WrongBytes offset :: lines, checked + 1, mismatched + 1)
  end.

(** The body of the loop over the acks: lines, [checked], [missing], [mismatched]. *)
Definition verify_ack (l : Log.t) (ack : AckFile.Ack) (d : D) : list Line * Z * Z * Z * D :=
  let base := AckFile.base_offset ack in
  let last := u64 (base + AckFile.count ack) in
  if Log.next_offset_ l <? last
  then ([LostOffsets base (u64 (last - 1)) (Log.next_offset_ l)], 0, AckFile.count ack, 0, d)
  else
    match Log.read l base (256 * 1024) d with
    | (fail _, d) | (Ok [], d) => ([LostUnreadable base], 0, AckFile.count ack, 0, d)
    | (Ok framed, d) =>
        match decode_header framed with
        | fail _ => ([WrongBatch base], 0, 0, 1, d)
        | Ok header =>
            if negb (RecordBatch.base_offset header =? base) then ([WrongBatch base], 0, 0, 1, d)
            else
              let '(lines, checked, mismatched) := check_values base (RecordIterator.records framed) in
              (lines, checked, 0, mismatched, d)
        end
    end.

Fixpoint verify_acks (l : Log.t) (acks : list AckFile.Ack) (d : D) : list Line * Z * Z * Z * D :=
  match acks with
  | [] => ([], 0, 0, 0, d)
  | ack :: rest =>
      let '(lines, c, m, x, d) := verify_ack l ack d in
      let '(more, c', m', x', d) := verify_acks l rest d in
      (lines ++ more, u64 (c + c'), u64 (m + m'), u64 (x + x'), d)
  end.

Definition no_ack : AckFile.Ack := AckFile.mkAck 0 0.

Definition run_verify (dir acks_path : chars) (d : D) : Z * list Line * D :=
  match AckFile.read_all acks_path d with
  | ([], d) => (1, [NoAcks], d)
  | (acks, d) =>
      match Log.open dir options d with
      | (fail e, d) => (1, [CannotOpenLog e], d)
      | (Ok l, d) =>
          let acked_records := u64 (foldr (fun ack n => AckFile.count ack + n) 0 acks) in
          let back := default no_ack (last acks) in
          let acked_end := u64 (AckFile.base_offset back + AckFile.count back) in
          let '(lines, checked, missing, mismatched, d) := verify_acks l acks d in
          let extra := if acked_end <? Log.next_offset_ l then Log.next_offset_ l - acked_end else 0 in
          let failed := (0 <? missing) || (0 <? mismatched) in
          ((if failed then 1 else 0),
           [RecoveryLine (Log.recovery_ l); LogLine (Log.start_offset_ l) (Log.next_offset_ l);
            AcksLine (zlen acks) acked_records (u64 (acked_end - 1))] ++ lines ++ [CheckedLine checked] ++
           (if 0 <? extra then [ExtraLine extra] else []) ++
           [if failed then Failed missing mismatched else EveryAckSurvived], Log.destroy l d)
      end
  end.

End Demo.

(** ** The command line *)

Record Args := mkArgs { dir : chars; acks_path : chars; records_per_batch : Z; batches : Z }.

#[export] Instance Args_eta : Settable Args := fun a => mkArgs (dir a) (acks_path a) (records_per_batch a) (batches a).

(** Pairs of a key and a value; one that is left over is not looked at. *)
Fixpoint parse_args (args : list chars) (a : Args) : Args + (Z * list Line) :=
  match args with
  | key :: value :: rest =>
      if bool_decide (key = lit "--dir") then parse_args rest (a <| dir := value |>)
      else if bool_decide (key = lit "--acks") then parse_args rest (a <| acks_path := value |>)
      else if bool_decide (key = lit "--records-per-batch") then parse_args rest (a <| records_per_batch := u32 (strtoul 10 value) |>)
      else if bool_decide (key = lit "--batches") then parse_args rest (a <| batches := strtoul 10 value |>)
      else inr (2, [UnknownOption key; Usage])
  | _ => inl a
  end.

Definition main {K} `{Posix K} (args : list chars) (fuel : nat) (kernel : K) : option Z * list Line * K :=
  let usage := (Some 2, [Usage], kernel) in
  match args with
  | [] => usage
  | mode :: rest =>
      match parse_args rest (mkArgs [] [] 4 0) with
      | inr (code, lines) => (Some code, lines, kernel)
      | inl a =>
          if bool_decide (dir a = []) || bool_decide (acks_path a = []) || (records_per_batch a =? 0) then usage
          else if bool_decide (mode = lit "append") then
            match run_append fuel (dir a) (acks_path a) (records_per_batch a) (batches a) (RealDisk.new kernel) with
            | (None, lines, d) => (None, lines, RealDisk.kernel d)
            | (Some code, lines, d) => (Some code, lines, RealDisk.destroy d)
            end
          else if bool_decide (mode = lit "verify") then
            let '(code, lines, d) := run_verify (dir a) (acks_path a) (RealDisk.new kernel) in (Some code, lines, RealDisk.destroy d)
          else usage
      end
  end.

End CrashDemo.
