(* ===== verification/CrashDemoProps.v ===== *)
(** * crash-demo: theorems

    What the ack file says survives.  On a disk with whole writes, whatever the appender's calls
    come back with, every line of its ack file stands for a batch that is in the log and on the
    platter; so when the verifier runs behind a kill or a power cut, it finds them all.  And a
    run in which a torn line of the ack file makes the verifier report a loss that is none. *)
From S2P Require Import Prelude Random Base Posix RealDisk Machine RecordBatch SparseIndex Disk SimDisk Text.
From S2P Require Import Segment Chain SegmentFacts SegmentProps.
From S2P Require Import Log LogFacts LogRecovery LogDurable LogCut LogProps CrashDemo.
Import Strto CrashDemo.

(** ** The ack file *)

Definition ack_line (a : AckFile.Ack) : chars := AckFile.line (AckFile.base_offset a) (AckFile.count a).
Definition ack_text (acks : list AckFile.Ack) : chars := concat (ack_line <$> acks).

Definition ack_fits (a : AckFile.Ack) : Prop := 0 <= AckFile.base_offset a < 2 ^ 64 /\ 0 <= AckFile.count a < 2 ^ 64.

Lemma newline_no_digit : digit 10 newline = None. Proof. reflexivity. Qed.
Lemma space_no_digit : digit 10 space = None. Proof. reflexivity. Qed.
#[local] Hint Resolve newline_no_digit space_no_digit : core.

(** A line is digits, a space, digits and a newline. *)
Lemma ack_line_parts a : ack_fits a -> exists s t,
  ack_line a = (s ++ space :: t) ++ [newline] /\ (space ∉ s) /\ (newline ∉ s ++ space :: t) /\
  strtoul 10 (s ++ space :: t) = AckFile.base_offset a /\ strtoul 10 t = AckFile.count a.
Proof.
  intros [Hb Hc]. exists (to_chars (AckFile.base_offset a)), (to_chars (AckFile.count a)).
  destruct (to_chars_digits (AckFile.base_offset a)) as (_ & Db & _); [lia|].
  destruct (to_chars_digits (AckFile.count a)) as (_ & Dc & _); [lia|].
  split; [unfold ack_line, AckFile.line; by rewrite <- app_assoc|]. split; [by apply not_digit|]. split_and!.
  - apply not_elem_of_app. split; [by apply not_digit|]. apply not_elem_of_cons. split; [done | by apply not_digit].
  - by apply strtoul_to_chars.
  - rewrite <- (app_nil_r (to_chars _)). by apply strtoul_to_chars.
Qed.

Lemma parse_line fuel a rest : ack_fits a -> AckFile.parse (S fuel) (ack_line a ++ rest) = a :: AckFile.parse fuel rest.
Proof.
  intros Ha. destruct (ack_line_parts a Ha) as (s & t & -> & Hs & Hn & E1 & E2). rewrite <- app_assoc. cbn [AckFile.parse app].
  rewrite split_at_behind by done. rewrite split_at_behind by done. rewrite E1, E2. by destruct a.
Qed.

(** The lines come back, and a line without its newline is no line. *)
Lemma parse_text acks torn : forall fuel, Forall ack_fits acks -> newline ∉ torn -> (length acks <= fuel)%nat ->
  AckFile.parse fuel (ack_text acks ++ torn) = acks.
Proof.
  induction acks as [|a acks IH]; intros fuel Ha Ht Hf.
  { destruct fuel; cbn [AckFile.parse ack_text]; [done|]. cbn [fmap list_fmap concat app]. by rewrite split_at_none. }
  apply Forall_cons in Ha as [Ha Has]. cbn [length] in Hf. destruct fuel as [|fuel]; [lia|].
  unfold ack_text. rewrite fmap_cons. cbn [concat]. rewrite <- app_assoc, parse_line by done. f_equal. apply IH; [done..|lia].
Qed.

Lemma ack_line_long a : (0 < length (ack_line a))%nat.
Proof. unfold ack_line, AckFile.line. rewrite length_app. cbn [length]. lia. Qed.

Lemma ack_text_long acks : (length acks <= length (ack_text acks))%nat.
Proof.
  induction acks as [|a acks IH]; [done|]. unfold ack_text in *. rewrite fmap_cons. cbn [concat length]. rewrite length_app.
  pose proof (ack_line_long a). lia.
Qed.

(** A file that was cut off somewhere: whole lines, and the beginning of one. *)
Lemma ack_text_cut acks : forall t, Forall ack_fits acks -> t `prefix_of` ack_text acks ->
  exists acks' torn, t = ack_text acks' ++ torn /\ acks' `prefix_of` acks /\ newline ∉ torn.
Proof.
  induction acks as [|a acks IH]; intros t Ha Ht.
  { apply prefix_nil_inv in Ht as ->. exists [], []. split_and!; [done | done | by apply not_elem_of_nil]. }
  apply Forall_cons in Ha as [Ha Has]. unfold ack_text in Ht. rewrite fmap_cons in Ht. cbn [concat] in Ht. fold (ack_text acks) in Ht.
  destruct Ht as [more E]. apply app_eq_app in E as [l [[El E] | [-> E]]].
  - destruct l as [|c l _] using rev_ind.
    + exists [a], []. rewrite app_nil_r in El. subst t. unfold ack_text. cbn. rewrite !app_nil_r.
      split_and!; [done | by exists acks | by apply not_elem_of_nil].
    + exists [], t. split_and!; [done | apply prefix_nil|]. destruct (ack_line_parts a Ha) as (s & u & Ea & _ & Hn & _).
      rewrite Ea, app_assoc in El. apply app_inj_tail in El as [El _]. rewrite El in Hn. by apply not_elem_of_app in Hn as [Hn _].
  - destruct (IH l Has) as (acks' & torn & -> & [k ->] & Hn); [by exists more|]. exists (a :: acks'), torn.
    split_and!; [unfold ack_text; rewrite fmap_cons; cbn [concat]; by rewrite <- app_assoc | by exists k | done].
Qed.

(** ** What an ack stands for *)

Fixpoint values (n : nat) (offset : Z) : list (list Z) :=
  match n with
  | O => []
  | S n' => payload_for offset :: values n' (u64 (offset + 1))
  end.

Definition batch_of (a : AckFile.Ack) : list Z :=
  batch_bytes (AckFile.base_offset a) no_meta (values (Z.to_nat (AckFile.count a)) (AckFile.base_offset a)).

(** The batch it names is one of [xs]. *)
Record in_log (xs : list (list Z)) (a : AckFile.Ack) : Prop := {
  il_base : 0 <= AckFile.base_offset a;
  il_count : 0 < AckFile.count a < 2 ^ 32;
  il_end : AckFile.base_offset a + AckFile.count a < 2 ^ 64;
  il_size : zlen (batch_of a) <= 64 * 1024;
  il_batch : batch_of a ∈ xs }.

Lemma in_log_fits xs a : in_log xs a -> ack_fits a.
Proof. intros [? ? ? _ _]. split; lia. Qed.

Lemma in_log_more xs ys a : (forall x, x ∈ xs -> x ∈ ys) -> in_log xs a -> in_log ys a.
Proof. intros Hs []. split; auto. Qed.

Lemma length_values n : forall offset, length (values n offset) = n.
Proof. induction n; intros; cbn; auto. Qed.

Lemma payload_ok offset : bytes_ok (payload_for offset).
Proof. apply resize_with_ok; [apply code_range | apply bytes_of_ok]. Qed.

Lemma values_ok n : forall offset, Forall bytes_ok (values n offset).
Proof. induction n; intros; cbn; constructor; auto using payload_ok. Qed.

Lemma no_meta_wf : meta_wf no_meta.
Proof. unfold meta_wf, no_meta. cbn. lia. Qed.

Lemma add_values_spec n : forall offset b b', add_values n offset b = (true, b') -> add_records b (values n offset) = (Ok tt, b').
Proof.
  induction n as [|n IH]; intros offset b b'; cbn [add_values values add_records]; [by intros [= ->]|].
  destruct (BatchBuilder.add_record b _) as [[u|e] b1]; [apply IH | done].
Qed.

(** ** The appender *)

Section Appender.
#[local] Set Default Proof Using "Type*".
Context {D : Type} `{DL : Disk.laws D} `{SD : !Disk.steady D}.
Context (dir path : chars) (n : Z).

Lemma standing_prefix (d : D) l all xs : standing d l all xs -> xs `prefix_of` all.
Proof using Type.
  intros (bss & bs & base & sbs & -> & _ & [more ->] & _ & Hx). etrans; [exact Hx|]. exists more. by rewrite <- app_assoc.
Qed.

(** Every line of the ack file stands for a batch on the platter. *)
Record promised (d : D) (a : Appender) (acked : list AckFile.Ack) (all xs : list (list Z)) : Prop := {
  pm_log : standing d (log a) all xs;
  pm_dir : Log.dir_ (log a) = dir;
  pm_options : Log.options_ (log a) = options;
  pm_file : Disk.opened d (AckFile.id_ (acks a)) path (bytes_of (ack_text acked));
  pm_pos : AckFile.pos_ (acks a) = zlen (bytes_of (ack_text acked));
  pm_kept : Forall (in_log xs) acked }.

Lemma opened_kept P (d d' : D) f p b : kept P d d' -> P p -> Disk.opened d f p b -> Disk.opened d' f p b.
Proof using Type.
  intros K Hp [[m Hm] F]. split; [exists m; by apply (kp_handles _ _ _ K) | by rewrite (kp_files _ _ _ K)].
Qed.

Lemma foreign_log p : foreign dir p -> ~ log_file_of dir p.
Proof using Type. intros Hf (v & _ & ->). apply (Hf v). by left. Qed.

Lemma bytes_of_app s t : bytes_of (s ++ t) = bytes_of s ++ bytes_of t.
Proof using Type. apply map_app. Qed.

Lemma zlen_bytes_of s : zlen (bytes_of s) = Z.of_nat (length s).
Proof using Type. unfold zlen, bytes_of. by rewrite length_map. Qed.

Lemma ack_text_snoc acked a : ack_text (acked ++ [a]) = ack_text acked ++ ack_line a.
Proof using Type. unfold ack_text. rewrite fmap_app, concat_app. cbn. by rewrite app_nil_r. Qed.

Lemma line_length a : ack_fits a -> zlen (bytes_of (ack_line a)) < 2 ^ 64.
Proof using Type.
  intros [Hb Hc]. apply to_chars_length in Hb, Hc. rewrite zlen_bytes_of. unfold ack_line, AckFile.line.
  rewrite length_app. cbn [length]. rewrite length_app. cbn [length]. lia.
Qed.

Lemma record_promised (d : D) f acked new st f' d' :
  Disk.good d -> Disk.opened d (AckFile.id_ f) path (bytes_of (ack_text acked)) -> AckFile.pos_ f = zlen (bytes_of (ack_text acked)) ->
  ack_fits new -> AckFile.record (AckFile.base_offset new) (AckFile.count new) f d = (st, f', d') ->
  kept (fun p => p <> path) d d' /\ exists acked', (acked' = acked \/ acked' = acked ++ [new]) /\
    Disk.opened d' (AckFile.id_ f') path (bytes_of (ack_text acked')) /\ AckFile.pos_ f' = zlen (bytes_of (ack_text acked')).
Proof.
  intros G Ho Hp Hf. unfold AckFile.record. fold (ack_line new). set (data := bytes_of (ack_line new)).
  pose proof (Disk.file_bytes _ _ _ G (proj2 Ho)) as [_ Hlt]. pose proof (zlen_nonneg (bytes_of (ack_text acked))) as Hnn.
  assert (bytes_ok data) as Hd by apply bytes_of_ok. pose proof (line_length new Hf) as Hl. fold data in Hl.
  assert (0 <= AckFile.pos_ f < 2 ^ 64) as Hpos by lia.
  destruct (Disk.pwrite _ data _ d) as [r d1] eqn:W. pose proof (Disk.steady_pwrite _ _ _ _ _ _ _ _ G Ho Hpos Hd Hl W) as Sp.
  destruct r as [w|e].
  2:{ intros [= <- <- <-]. split; [by apply same_kept|]. exists acked. split; [by left|]. split; [|done].
      by eapply opened_kept; [apply same_kept with (P := fun _ => True)| |]. }
  subst w. apply (Disk.pwrite_law _ _ _ _ _ _ _ _ G Ho Hpos Hd Hl) in W as [(e & [=] & _) | (k & On & _ & F & _ & Rk)].
  specialize (Rk _ eq_refl). subst k. rewrite Hp, ztake_ge in F by lia.
  pose proof (overwrite_behind (bytes_of (ack_text acked)) [] data) as Ow. unfold zdrop in Ow. rewrite drop_nil, !app_nil_r in Ow.
  rewrite Ow in F. unfold data in F. rewrite <- bytes_of_app, <- ack_text_snoc in F.
  assert (Disk.opened d1 (AckFile.id_ f) path (bytes_of (ack_text (acked ++ [new])))) as Ho1.
  { destruct Ho as [[m Hm] _]. split; [exists m; by rewrite (proj1 (proj2 On)) | done]. }
  pose proof (Disk.file_bytes _ _ _ (proj1 On) F) as [_ Hlt1]. rewrite ack_text_snoc, bytes_of_app, zlen_app in Hlt1. fold data in Hlt1.
  cbn [AckFile.id_]. destruct (Disk.fsync _ d1) as [r2 d2] eqn:Fs.
  apply (Disk.fsync_law _ _ _ _ _ _ (proj1 On) Ho1) in Fs as [Sm _]. intros [= <- <- <-].
  split; [eapply kept_trans; [|by apply only_kept|by apply same_kept with (P := fun _ => True)]; by intros|].
  exists (acked ++ [new]). split; [by right|]. split.
  - eapply opened_kept; [by apply same_kept with (P := fun _ => True) | done | exact Ho1].
  - cbn [AckFile.pos_]. pose proof (zlen_nonneg data). rewrite Hp, wrap_small by lia.
    rewrite ack_text_snoc, bytes_of_app, zlen_app. done.
Qed.

(** What a batch adds, however its calls end. *)
Lemma batch_promised (d : D) a acked all xs batch go lines a' d' :
  promised d a acked all xs -> foreign dir path -> offsets_left (log a) -> 0 < n < 2 ^ 32 ->
  append_batch n batch a d = (go, lines, a', d') ->
  (exists acked' all' xs', promised d' a' acked' all' xs') /\ Log.next_offset_ (log a') <= Log.next_offset_ (log a) + n.
Proof.
  intros [Sd Ed Eo Fo Ep Fk] Hf Ol Hn. unfold append_batch, set. cbn [builder log acks]. pose proof (standing_next _ _ _ _ Sd) as Hx.
  assert (Disk.good d) as G by (destruct Sd as (? & ? & ? & ? & _ & [I _ _ _] & _); apply I).
  change (BatchBuilder.clear (builder a)) with BatchBuilder.new.
  destruct (add_values _ _ _) as [added b] eqn:Av. destruct added; cbn [negb].
  2:{ intros [= <- <- <- <-]. cbn [log]. split; [|lia]. exists acked, all, xs. by split. }
  apply add_values_spec in Av. set (vs := values _ _) in Av.
  assert (zlen vs = n) as Lv by (unfold zlen, vs; rewrite length_values; lia).
  assert (vs <> []) as Nv by (intros E; rewrite E, zlen_nil in Lv; lia).
  cbn [builder log]. destruct (Log.append b no_meta (log a) d) as [[[r b1] l1] d1] eqn:Ap.
  pose proof (standing_append _ _ _ _ _ _ _ _ _ _ _ Sd Ol no_meta_wf Nv (values_ok _ _) Av Ap) as Sd1.
  destruct (append_foreign _ _ _ _ _ _ _ _ _ _ (standing_holds _ _ _ _ Sd) Ol no_meta_wf Nv (values_ok _ _) Av Ap) as (K1 & (S1 & S2 & _) & R1).
  rewrite Ed in *.
  pose proof (opened_kept _ _ _ _ _ _ K1 Hf Fo) as Fo1.
  destruct r as [o|e].
  2:{ intros [= <- <- <- <-]. cbn [log]. split; [|lia]. exists acked, all, xs. rewrite app_nil_r in Sd1.
      split; cbn [log acks builder]; (done || congruence). }
  destruct R1 as (-> & En & Sz). rewrite wrap_small, Lv in En by (unfold offsets_left in Ol; lia).
  cbn [log]. destruct (Log.fsync l1 d1) as [r2 d2] eqn:Fs.
  assert (Disk.same d1 d2) as Sm.
  { destruct Sd1 as (bss & bs & base & sbs & _ & [[_ (segs & active & E & _ & S) _] _ _ _] & _).
    unfold Log.fsync in Fs. rewrite E, back_snoc in Fs. by eapply fsync_same; [apply S|]. }
  destruct (standing_fsync _ _ _ _ _ _ Sd1 Fs) as [Sd2 Sy].
  assert (Disk.opened d2 (AckFile.id_ (acks a)) path (bytes_of (ack_text acked))) as Fo2
    by (eapply opened_kept; [by apply same_kept with (P := fun _ => True) | done | exact Fo1]).
  destruct r2 as [[]|e].
  2:{ intros [= <- <- <- <-]. cbn [log]. split; [|lia]. eexists acked, _, xs.
      split; cbn [log acks builder]; [exact Sd2 | congruence | congruence | done..]. }
  specialize (Sy eq_refl). cbn [acks].
  set (new := AckFile.mkAck (Log.next_offset_ (log a)) n).
  assert (batch_of new = batch_bytes (Log.next_offset_ (log a)) no_meta vs) as Eb by done.
  assert (xs `prefix_of` all) as Px by by eapply standing_prefix.
  assert (Forall (in_log (all ++ [batch_of new])) acked) as Fk2.
  { eapply Forall_impl; [exact Fk|]. intros x. apply in_log_more. intros y Hy. apply elem_of_app. left.
    destruct Px as [k ->]. apply elem_of_app. by left. }
  assert (in_log (all ++ [batch_of new]) new) as Hnew.
  { unfold offsets_left in Ol. split; unfold new; cbn [AckFile.base_offset AckFile.count]; [lia | lia | lia | |].
    - fold new. rewrite Eb. rewrite Eo in Sz. exact Sz.
    - apply elem_of_app. right. by apply list_elem_of_singleton. }
  destruct (AckFile.record _ n (acks a) d2) as [[st f3] d3] eqn:Re.
  destruct (record_promised _ _ acked new _ _ _ (proj1 Sm) Fo2 Ep (in_log_fits _ _ Hnew) Re) as (K3 & acked' & Ea & Fo3 & Ep3).
  assert (promised d3 (mkAppender b1 f3 l1) acked' (all ++ [batch_of new]) (all ++ [batch_of new])) as P.
  { split; cbn [log acks builder]; [ | congruence | congruence | done | done |].
    - rewrite Eb. eapply standing_kept; [exact Sy|]. eapply kept_weaken; [|exact K3]. intros p Hp ->.
      rewrite S1 in Hp. by apply (foreign_log path).
    - destruct Ea as [-> | ->]; [done|]. apply Forall_app. split; [done|]. by constructor. }
  destruct st as [u|e]; intros [= <- <- <- <-]; cbn [log]; (split; [by eexists _, _, _ | lia]).
Qed.

(** Any number of batches. *)
Lemma loop_promised max fuel : forall (d : D) batch a acked all xs r lines a' d',
  promised d a acked all xs -> foreign dir path -> 0 < n < 2 ^ 32 ->
  Log.next_offset_ (log a) + 2 ^ 32 * (Z.of_nat fuel + 1) <= 2 ^ 64 ->
  append_loop n max fuel batch a d = (r, lines, a', d') -> exists acked' all' xs', promised d' a' acked' all' xs'.
Proof.
  induction fuel as [|fuel IH]; intros d batch a acked all xs r lines a' d' P Hf Hn Hx; cbn [append_loop];
    (destruct (negb _); [intros [= <- <- <- <-]; by eexists _, _, _|]).
  { intros [= <- <- <- <-]. by eexists _, _, _. }
  destruct (append_batch n batch a d) as [[[go ls] a1] d1] eqn:B.
  destruct (batch_promised _ _ _ _ _ _ _ _ _ _ P Hf ltac:(unfold offsets_left; lia) Hn B) as [(k1 & l1 & x1 & P1) Hx1].
  destruct go; [|intros [= <- <- <- <-]; by eexists _, _, _].
  destruct (append_loop n max fuel _ a1 d1) as [[[r2 more] a2] d2] eqn:L. intros [= <- <- <- <-].
  eapply IH; [exact P1 | done | done | lia | exact L].
Qed.

Lemma options_small : Log.segment_max_bytes options < 2 ^ 32.
Proof using Type. by vm_compute. Qed.

(** A first run begins with nothing promised. *)
Lemma start_promised (d : D) vs a d1 :
  Disk.good d -> Disk.dir_path dir -> Disk.file_path path -> foreign dir path ->
  segment_files (Disk.make_directories dir d).2 dir vs -> Forall (honest_at d dir) vs -> all_settled d dir vs ->
  start_append dir path d = (inr a, d1) -> Disk.files d1 !! path = Some [] -> exists all, promised d1 a [] all all.
Proof.
  intros G Hd Hp Hf Sf Hh As. unfold start_append. destruct (Log.open dir options d) as [[l|e] d2] eqn:Lo; [|done].
  pose proof (open_standing _ _ _ _ _ _ G Hd options_small Sf Hh As Lo) as Sd. set (all := concat _) in Sd.
  destruct (open_grounded _ _ _ _ _ _ G Hd options_small Sf Hh Lo) as (El & Eo & _).
  assert (Disk.good d2) as G2 by (destruct Sd as (? & ? & ? & ? & _ & [I _ _ _] & _); apply I).
  unfold AckFile.open_for_append. destruct (Disk.open path kCreate d2) as [[f|e] d3] eqn:Op; [|done].
  destruct (open_opened _ _ _ _ _ G2 Hp Op) as (G3 & b & Hb & _).
  pose proof (Disk.open_law _ _ _ _ _ G2 Hp Op) as (Nf & _ & Hh3 & St3 & F3).
  cbn [AckFile.id_]. destruct (Disk.size f d3) as [[sz|e] d4] eqn:Es;
    apply (Disk.size_law _ _ _ _ _ _ G3 Hb) in Es as [Sm Hsz]; [|done]. specialize (Hsz _ eq_refl).
  intros [= <- <-] E0. exists all.
  assert (b = []) as -> by (destruct Hb as [_ Hb]; rewrite (proj1 (proj2 Sm)) in E0; congruence).
  assert (kept (log_file_of dir) d2 d4) as K.
  { eapply kept_trans; [|split|by apply same_kept with (P := fun _ => True)]; [by intros p Hl; split; [exact Hl|] | done | | |].
    - intros p Hl. destruct F3 as [[_ ->] | (_ & _ & -> & _)]; [done|]. rewrite lookup_insert_ne; [done|].
      intros ->. by apply (foreign_log _ Hf).
    - intros f' p m _ Hm. rewrite Hh3, lookup_insert_ne; [done|]. intros ->. congruence.
    - auto. }
  split; cbn [log acks AckFile.id_ AckFile.pos_]; [ | done | done | | done | constructor].
  - eapply standing_kept; [exact Sd | by rewrite El].
  - eapply opened_kept; [by apply same_kept with (P := fun _ => True) | done | exact Hb].
Qed.

End Appender.

(** ** The verifier *)

Lemma check_values_own m : forall offset, check_values offset (values m offset) = ([], Z.of_nat m, 0).
Proof.
  induction m as [|m IH]; intros offset; cbn [check_values values]; [done|]. rewrite IH, bool_decide_true by done.
  do 2 f_equal. lia.
Qed.

Section Verifier.
#[local] Set Default Proof Using "Type*".
Context {D : Type} `{DL : Disk.laws D}.

(** The batch of an ack, as the log has it. *)
Lemma in_log_batch xs a : in_log xs a ->
  let vs := values (Z.to_nat (AckFile.count a)) (AckFile.base_offset a) in
  zlen vs = AckFile.count a /\ 52 + zlen (body_bytes vs) <= kMaxBatchBytes /\ bytes_ok (batch_of a) /\
  exists h, is_batch (batch_of a) h /\ base_offset h = AckFile.base_offset a /\
    next_offset h = AckFile.base_offset a + AckFile.count a.
Proof using Type.
  intros [Hb Hc He Hs _] vs. assert (zlen vs = AckFile.count a) as L by (unfold zlen, vs; rewrite length_values; lia).
  assert (vs <> []) as Nv by (intros E; rewrite E, zlen_nil in L; lia).
  unfold batch_of in *. fold vs in Hs |- *. rewrite zlen_batch_bytes in Hs.
  assert (52 + zlen (body_bytes vs) <= kMaxBatchBytes) as Hm by (unfold kMaxBatchBytes; lia).
  destruct (batch_bytes_is_batch (AckFile.base_offset a) no_meta vs) as [Bo (h & B & E1 & _ & E2)];
    [lia | apply no_meta_wf | done | apply values_ok | done|].
  split_and!; [done | done | done|]. exists h. split_and!; [done | done|]. rewrite E2, L, wrap_small by lia. done.
Qed.

Lemma in_log_place (d : D) l all a : holds d l all -> in_log all a ->
  Log.start_offset_ l <= AckFile.base_offset a /\ AckFile.base_offset a + AckFile.count a <= Log.next_offset_ l /\
  forall v, v ∈ all -> contains (AckFile.base_offset a) v -> v = batch_of a.
Proof.
  intros Hh Ha. destruct (holds_linked _ _ _ Hh) as (hs & Fh & L).
  destruct (in_log_batch _ _ Ha) as (_ & _ & _ & h & (Dh & _) & Eb & En). pose proof (il_count _ _ Ha) as Hc.
  pose proof (il_batch _ _ Ha) as [i Hi]%list_elem_of_lookup.
  destruct (Forall2_lookup_l _ _ _ _ _ Fh Hi) as (h' & Hh' & Dh'). rewrite Dh in Dh'. injection Dh' as <-.
  pose proof (linked_lookup _ _ _ _ _ L Hh') as B. split; [lia|]. split; [lia|].
  intros v [j Hj]%list_elem_of_lookup (k & (Dk & _) & Hk).
  destruct (Forall2_lookup_l _ _ _ _ _ Fh Hj) as (k' & Hk' & Dk'). rewrite Dk in Dk'. injection Dk' as <-.
  assert (j = i) as -> by (eapply (linked_unique _ _ _ _ L); [done | done | exact Hk | lia]). congruence.
Qed.

(** What the verifier finds of one ack. *)
Lemma verify_ack_found (d : D) l all a lines c m x d' : holds d l all -> in_log all a ->
  verify_ack l a d = (lines, c, m, x, d') ->
  Disk.same d d' /\ x = 0 /\
  (lines = [] /\ m = 0 \/ lines = [LostUnreadable (AckFile.base_offset a)] /\ exists e, read_failed (D := D) e).
Proof.
  intros Hh Ha. destruct (in_log_place _ _ _ _ Hh Ha) as (P1 & P2 & Pu).
  destruct (in_log_batch _ _ Ha) as (Lv & Hm & Bo & _). destruct Ha as [Hb Hc He Hs Hin].
  unfold verify_ack. cbv zeta. rewrite (wrap_small 64 (_ + _)) by lia. rewrite (proj2 (Z.ltb_ge _ _)) by lia.
  destruct (Log.read l _ _ d) as [r d1] eqn:Rd.
  eapply log_read_inside in Rd as [Sm Out]; [|exact Hh | lia | lia].
  destruct Out as [(us & v & ws & zs & Ea & Cv & Out) | (e & -> & Rf)]; [|intros [= <- <- <- <- <-]; eauto 8].
  assert (v = batch_of a) as -> by (apply Pu; [rewrite Ea; apply elem_of_app; right; by left | done]).
  rewrite (proj2 (Z.ltb_ge _ _)) in Out by lia. destruct Out as (-> & _).
  assert (Forall bytes_ok (batch_of a :: ws)) as Bw.
  { pose proof (holds_bytes _ _ _ Hh) as Ba. rewrite Ea in Ba. apply Forall_app in Ba as [_ Ba].
    by apply Forall_app in Ba as [Ba _]. }
  cbn [concat]. set (vs1 := values _ _) in *.
  assert (0 < zlen vs1) as Hv by lia.
  pose proof (batch_bytes_decode (AckFile.base_offset a) no_meta vs1 (cat ws) ltac:(lia) no_meta_wf Hv (values_ok _ _) Hm) as Dh.
  change (batch_bytes _ no_meta vs1) with (batch_of a) in Dh.
  assert (RecordIterator.records (batch_of a ++ cat ws) = vs1) as Er.
  { pose proof (zlen_batch_bytes (AckFile.base_offset a) no_meta vs1) as Lb. change (batch_bytes _ no_meta vs1) with (batch_of a) in Lb.
    eapply records_of_body; [|exact Dh| | |].
    - apply Forall_cons in Bw as [B1 B2]. apply Forall_app. split; [done|]. by apply Forall_concat.
    - unfold total_bytes, kBatchLengthPrefixBytes. cbn [batch_length stamped_header]. pose proof (zlen_nonneg (cat ws)). len.
    - unfold total_bytes, kBatchLengthPrefixBytes. cbn [batch_length stamped_header].
      replace (12 + (40 + zlen (body_bytes vs1)) - 52) with (zlen (body_bytes vs1)) by lia.
      unfold batch_of, batch_bytes. rewrite <- app_assoc. apply zsub_app_mid; [by rewrite zlen_encode_header | done].
    - apply Forall_forall. intros w Hw. apply zlen_value_body in Hw. unfold kMaxBatchBytes in Hm. lia. }
  destruct (batch_of a ++ cat ws) as [|z rest] eqn:Ef.
  { apply (f_equal zlen) in Ef. rewrite zlen_app, zlen_nil in Ef. unfold batch_of in Ef. rewrite zlen_batch_bytes in Ef. fold vs1 in Ef.
    pose proof (zlen_nonneg (cat ws)). pose proof (zlen_nonneg (body_bytes vs1)). lia. }
  rewrite Dh. cbn [base_offset stamped_header]. rewrite Z.eqb_refl. cbn [negb]. rewrite Er. unfold vs1. rewrite check_values_own.
  intros [= <- <- <- <- <-]. eauto.
Qed.

Lemma holds_same (d d' : D) l all : holds d l all -> Disk.same d d' -> holds d' l all.
Proof.
  intros (bss & bs & base & E & I & C) Sm. exists bss, bs, base. split; [done|].
  by eapply log_files_kept; [| |apply same_kept].
Qed.

(** What it finds of all of them. *)
Lemma verify_acks_found l all acks : forall (d : D) lines c m x d', holds d l all -> Forall (in_log all) acks ->
  verify_acks l acks d = (lines, c, m, x, d') ->
  x = 0 /\ (m = 0 \/ exists o, LostUnreadable o ∈ lines) /\
  Forall (fun line => exists o, line = LostUnreadable o /\ exists e, read_failed (D := D) e) lines.
Proof.
  induction acks as [|a acks IH]; intros d lines c m x d' Hh Ha; cbn [verify_acks].
  { intros [= <- <- <- <- <-]. split_and!; [done | by left | constructor]. }
  apply Forall_cons in Ha as [Ha Has]. destruct (verify_ack l a d) as [[[[ls c1] m1] x1] d1] eqn:V.
  destruct (verify_ack_found _ _ _ _ _ _ _ _ _ Hh Ha V) as (Sm & -> & Out).
  destruct (verify_acks l acks d1) as [[[[more c2] m2] x2] d2] eqn:Vs.
  eapply IH in Vs as (-> & Hm2 & Hl); [|eapply holds_same; [exact Hh | exact Sm] | done]. intros [= <- <- <- <- <-]. split; [done|].
  destruct Out as [[-> ->] | [-> Rf]].
  - split; [|done]. destruct Hm2 as [-> | [o Ho]]; [by left | right; eauto].
  - split; [right; eexists; by left | constructor; eauto].
Qed.

Lemma read_all_spec (d : D) path t acks d' :
  Disk.good d -> Disk.file_path path -> Disk.files d !! path = Some (bytes_of t) -> AckFile.read_all path d = (acks, d') ->
  acks = [] \/ Disk.same d d' /\ acks = AckFile.parse (length t) t.
Proof.
  intros G Hp F. unfold AckFile.read_all. destruct (Disk.open path kRead d) as [[f|e] d1] eqn:Op; [|intros [= <- <-]; by left].
  destruct (open_opened _ _ _ _ _ G Hp Op) as (G1 & b & Hb & Eb).
  assert (b = bytes_of t) as -> by (destruct Eb as [Eb | [Eb _]]; congruence).
  pose proof (Disk.open_law _ _ _ _ _ G Hp Op) as (Nf & _ & Hh & St & Fl).
  destruct (Disk.size f d1) as [[n|e] d2] eqn:Es; [|intros [= <- <-]; by left].
  apply (Disk.size_law _ _ _ _ _ _ G1 Hb) in Es as [S2 En]. specialize (En _ eq_refl). subst n.
  assert (Disk.opened d2 f path (bytes_of t)) as Hb2
    by (eapply opened_kept; [by apply same_kept with (P := fun _ => True) | done | exact Hb]).
  destruct (Disk.pread f _ 0 d2) as [r d3] eqn:Rd.
  apply (Disk.pread_law _ _ _ _ _ _ _ _ (proj1 S2) Hb2) in Rd as [S3 Er]; [|apply zlen_nonneg | lia].
  destruct (Disk.close_law d3 f (proj1 S3)) as (G4 & F4 & H4 & T4).
  destruct r as [bs|e]; intros [= <- <-]; [right | by left]. specialize (Er _ eq_refl). subst bs.
  assert (zsub 0 (zlen (bytes_of t)) (bytes_of t) = bytes_of t) as -> by (unfold zsub; rewrite zdrop_le, ztake_ge by lia; done).
  split; [|unfold bytes_of at 1; by rewrite length_map, chars_of_bytes].
  destruct S2 as (_ & F2 & H2 & T2), S3 as (_ & F3 & H3 & T3). split_and!; [done | | |].
  - rewrite F4, F3, F2. destruct Fl as [[_ ->] | (_ & Hn & _)]; [done | congruence].
  - rewrite H4, H3, H2, Hh. by rewrite delete_insert_id.
  - auto.
Qed.

End Verifier.

(** ** Append, a crash, verify *)

Section Crash.
#[local] Set Default Proof Using "Type*".
Context {D : Type} `{DL : Disk.laws D} `{SD : !Disk.steady D} (crashed : D -> D -> Prop) `{CL : !Disk.crash_laws D crashed}.

(** A crash, and a look at a file behind it. *)
Definition looked (d d' : D) : Prop := exists d1, crashed d d1 /\ Disk.same d1 d'.

#[local] Instance looked_laws : Disk.crash_laws D looked.
Proof.
  split. intros d d' G (d1 & Cr & (G' & F & Hd & S)). destruct (Disk.crash_law _ _ G Cr) as (_ & H1 & Dm & S1 & W1).
  split_and!; [done | congruence | congruence | auto |]. intros p b Hs Hf. rewrite F. auto.
Qed.

(** No accusation but that of a read the disk refused. *)
Definition blameless (line : Line) : Prop :=
  match line with
  | LostOffsets _ _ _ | WrongBatch _ | WrongBytes _ => False
  | LostUnreadable _ => exists e, read_failed (D := D) e
  | _ => True
  end.

Lemma promised_found dir path (d d3 d4 : D) a acked all xs after ws code out :
  promised dir path d a acked all xs -> Disk.dir_path dir -> Disk.file_path path ->
  crashed d d3 -> Disk.files d3 !! path = Some after -> after `prefix_of` bytes_of (ack_text acked) ->
  segment_files (Disk.make_directories dir (AckFile.read_all path d3).2).2 dir ws -> Forall (honest_at d3 dir) ws ->
  run_verify dir path d3 = (code, out, d4) ->
  Forall blameless out /\
  (code = 0 \/ out = [NoAcks] \/ (exists e, out = [CannotOpenLog e]) \/ exists o, LostUnreadable o ∈ out).
Proof.
  intros [Sd Ed Eo Fo Ep Fk] Hd Hp Cr Fa Pf Sf Hh. assert (Disk.good d) as G by (destruct Sd as (? & ? & ? & ? & _ & [I _ _ _] & _); apply I).
  pose proof (Disk.crash_law _ _ G Cr) as (G3 & _).
  assert (exists t, after = bytes_of t /\ t `prefix_of` ack_text acked) as (t & -> & Pt).
  { destruct Pf as [k E]. unfold bytes_of in E. apply map_eq_app in E as (t & u & -> & <- & _). exists t. split; [done | by exists u]. }
  destruct (ack_text_cut acked t (Forall_impl _ _ _ Fk (in_log_fits xs)) Pt) as (acks' & torn & -> & [k Ek] & Ht).
  assert (Forall (in_log xs) acks') as Fk' by (rewrite Ek in Fk; by apply Forall_app in Fk as [Fk _]).
  unfold run_verify. destruct (AckFile.read_all path d3) as [got d5] eqn:Ra. cbn [snd] in Sf.
  destruct (read_all_spec _ _ _ _ _ G3 Hp Fa Ra) as [-> | [Sm ->]].
  { intros [= <- <- <-]. split; [by repeat constructor | eauto]. }
  rewrite parse_text; [|by eapply Forall_impl; [exact Fk' | apply in_log_fits] | done | rewrite length_app; pose proof (ack_text_long acks'); lia].
  destruct acks' as [|ack acks']; [intros [= <- <- <-]; split; [by repeat constructor | eauto]|].
  set (found := ack :: acks') in *.
  destruct (Log.open dir options d5) as [[l|e] d6] eqn:Lo; [|intros [= <- <- <-]; split; [by repeat constructor | eauto 6]].
  assert (Forall (honest_at d5 dir) ws) as Hh5
    by (eapply Forall_impl; [exact Hh|]; intros v Hv; eapply honest_kept; [by apply same_kept with (P := fun _ => True) | done..]).
  destruct (crash_reopens looked d d5 d6 (log a) all xs dir options ws l Sd) as [more Hl]; try done; [by exists d3|].
  destruct (verify_acks l found d6) as [[[[lines c] m] x] d7] eqn:V.
  destruct (verify_acks_found _ _ _ _ _ _ _ _ _ Hl (Forall_impl _ _ _ Fk' (fun y => in_log_more _ _ y (fun z Hz => proj2 (elem_of_app _ _ _) (or_introl Hz)))) V)
    as (-> & Hm & Hlines).
  intros [= <- <- <-]. split.
  - repeat constructor. apply Forall_app. split.
    + eapply Forall_impl; [exact Hlines|]. intros line (o & -> & Rf). exact Rf.
    + constructor; [done|]. apply Forall_app. split; [by destruct (0 <? _); repeat constructor|]. by destruct (_ || _); repeat constructor.
  - destruct Hm as [-> | [o Ho]]; [by left|]. right. right. right. exists o. do 3 right. apply elem_of_app. by left.
Qed.

End Crash.

(** ** Properties *)

(** C9: The demonstration holds on a steady disk, one on which a write that fails has written
    nothing, sizes are known and files can be removed; the disk of the process is one if the
    kernel under it gives as much.  The appender starts on an empty ack file and a log that is on
    the platter, and runs for any number of batches, any of its calls failing.  Then the machine
    dies in a way that leaves every file its name and every synced byte in place, and the ack
    file comes back as it was or cut off anywhere.  If the index sidecars are honest before and
    after (an entry is the boundary of a valid batch, or points behind the valid batches at bytes
    that are not the header it claims), the verifier that runs next never reports an acked batch
    as gone, wrong or altered: it exits with 0, unless there is no whole line in the ack file,
    the log cannot be opened, or the disk refuses to read a batch. *)
Theorem acks_survive (D : Type) (DO : Disk.t D) (DV : Disk.view D) (crashed : D -> D -> Prop) (dir path : chars)
    (n max : Z) (fuel : nat) (d d1 d2 d3 d4 : D) (a a' : Appender) (vs ws : list Z) (r : option Z) (lines out : list Line)
    (after : list Z) (code : Z) :
  Disk.laws D -> Disk.steady D -> Disk.crash_laws D crashed ->
  Disk.good d -> Disk.dir_path dir -> Disk.file_path path -> foreign dir path ->
  segment_files (Disk.make_directories dir d).2 dir vs -> Forall (honest_at d dir) vs -> all_settled d dir vs ->
  start_append dir path d = (inr a, d1) -> Disk.files d1 !! path = Some [] ->
  0 < n < 2 ^ 32 -> Log.next_offset_ (log a) + 2 ^ 32 * (Z.of_nat fuel + 1) <= 2 ^ 64 ->
  append_loop n max fuel 0 a d1 = (r, lines, a', d2) ->
  crashed d2 d3 -> Disk.files d3 !! path = Some after -> after `prefix_of` default [] (Disk.files d2 !! path) ->
  segment_files (Disk.make_directories dir (AckFile.read_all path d3).2).2 dir ws -> Forall (honest_at d3 dir) ws ->
  run_verify dir path d3 = (code, out, d4) ->
  Forall (blameless (D := D)) out /\
  (code = 0 \/ out = [NoAcks] \/ (exists e, out = [CannotOpenLog e]) \/ exists o, LostUnreadable o ∈ out).
Proof.
  intros DL SD CL G Hd Hp Hf Sf Hh As St E0 Hn Hx Lp Cr Fa Pf Sf' Hh' V.
  destruct (start_promised dir path d vs a d1 G Hd Hp Hf Sf Hh As St E0) as [all P].
  destruct (loop_promised dir path n max fuel _ _ _ _ _ _ _ _ _ _ P Hf Hn Hx Lp) as (acked & all' & xs & P').
  rewrite (proj2 (pm_file _ _ _ _ _ _ _ P')) in Pf. cbn [default] in Pf.
  exact (promised_found crashed dir path _ _ _ _ _ _ _ _ _ _ _ P' Hd Hp Cr Fa Pf Sf' Hh' V).
Qed.

(** Three batches, and the power goes. *)
Definition ack_path : chars := lit "acks".
Definition demo_start := start_append log_dir ack_path disk0.
Definition no_appender : Appender := mkAppender BatchBuilder.new AckFile.new no_log.
Definition demo_appender := match demo_start.1 with inr a => a | inl _ => no_appender end.
Definition demo_run := append_loop 2 3 5 0 demo_appender demo_start.2.
Definition demo_reboot := SimDisk.power_on (SimDisk.crash demo_run.2).
Definition demo_verify := run_verify log_dir ack_path demo_reboot.

Lemma ack_path_foreign : foreign log_dir ack_path.
Proof. intros v [E | E]; apply (f_equal last) in E; [rewrite log_path_last in E | rewrite index_path_last in E]; discriminate E. Qed.

Lemma acks_survive_witness :
  demo_verify.1.1 = 0 /\ Forall (blameless (D := SimDisk.t Z)) demo_verify.1.2.
Proof.
  split; [vm_compute; reflexivity|].
  assert (demo_start = (inr demo_appender, demo_start.2)) as E1 by (vm_compute; reflexivity).
  assert (segment_files (Disk.make_directories log_dir (AckFile.read_all ack_path demo_reboot).2).2 log_dir [0]) as Sf.
  { apply segment_files_check. vm_compute. reflexivity. }
  assert (Forall (honest_at demo_reboot log_dir) [0]) as Hh.
  { repeat constructor; apply honest_silent; vm_compute; reflexivity. }
  assert (exists after, Disk.files demo_reboot !! ack_path = Some after /\ after `prefix_of` default [] (Disk.files demo_run.2 !! ack_path))
    as (after & Fa & Pf).
  { eexists. split; [vm_compute; reflexivity|]. vm_compute. exists []. reflexivity. }
  exact (proj1 (acks_survive (SimDisk.t Z) SimDisk.sim_disk SimDisk.sim_view SimDisk.crashed log_dir ack_path 2 3 5 disk0 demo_start.2
    demo_run.2 demo_reboot demo_verify.2 demo_appender demo_run.1.2 [] [0] demo_run.1.1.1 demo_run.1.1.2 demo_verify.1.2 after
    demo_verify.1.1 SimDisk.sim_laws SimDisk.sim_steady SimDisk.sim_crash_laws (SimDisk.new_good 0 quiet) log_dir_path
    ltac:(done) ack_path_foreign disk0_fresh (Forall_nil_2 _) disk0_settled E1 ltac:(vm_compute; reflexivity) ltac:(lia)
    ltac:(vm_compute; discriminate) ltac:(vm_compute; reflexivity) eq_refl Fa Pf Sf Hh ltac:(vm_compute; reflexivity))).
Defined.

(** ** A torn line *)

Definition demo_args (mode batches : string) : list chars :=
  map lit [mode; "--dir"; "d"; "--acks"; "acks"; "--records-per-batch"; "2"; "--batches"; batches]%string.

(** The fourth transfer, the second line of the ack file, stops behind three bytes. *)
Definition torn_machine : Machine.t :=
  Machine.boot <| Machine.script := replicate 3 (Machine.Short 1000000) ++ [Machine.Short 3; Machine.Refused 5] |>.
Definition torn_run := main (demo_args "append" "3") 10 torn_machine.
Definition next_run := main (demo_args "append" "1") 10 torn_run.2.

(** A torn line outlives its run.  A run of the appender stops in the middle of a line of the
    ack file, and the next run appends behind the torn line, so that its first ack becomes part
    of it.  Although the log holds every batch that was ever acked, the verifier reads the two
    lines as one, reports 24 records as lost, and exits with 1. *)
Theorem torn_ack_accuses :
  torn_run.1 = (Some 1, [WritingFrom 0 2; BatchesAcked 1 2; AckFailed kIoError]) /\
  next_run.1 = (Some 0, [WritingFrom 4 2; BatchesAcked 1 6]) /\
  (main (demo_args "verify" "0") 10 next_run.2).1 =
    (Some 1, [RecoveryLine (Log.mkReport 1 0 3 0 false); LogLine 0 6; AcksLine 2 26 25; LostOffsets 2 25 6; CheckedLine 2; Failed 24 0]).
Proof. vm_compute. repeat split. Qed.
