(* ===== verification/RaftTypes.v ===== *)
(** * The types of the consensus layer

    Models [src/src/raft/types.h]: terms, indices, messages, the hard state, the cluster
    configuration and the [Ready] batch of effects.  Terms and indices are 64-bit words,
    node ids 32-bit words; all are [Z] here and wrap where the code does arithmetic on
    them. *)
From S2P Require Import Prelude.

Definition kNoNode : Z := 0xFFFFFFFF.
Definition kNoIndex : Z := 0xFFFFFFFFFFFFFFFF.
Definition kNoTerm : Z := 0.

Inductive Role := kFollower | kCandidate | kLeader.

#[export] Instance Role_eq_dec : EqDecision Role.
Proof. solve_decision. Defined.

Record Epoch := mkEpoch { ep_term : Z; ep_start : Z }.

#[export] Instance Epoch_eq_dec : EqDecision Epoch.
Proof. solve_decision. Defined.

Record HardState := mkHardState { hs_term : Z; hs_voted_for : Z }.

#[export] Instance HardState_eq_dec : EqDecision HardState.
Proof. solve_decision. Defined.

#[export] Instance HardState_eta : Settable HardState :=
  fun h => mkHardState (hs_term h) (hs_voted_for h).

Definition default_hard_state : HardState := mkHardState 0 kNoNode.

Inductive MessageType :=
  | kRequestVote | kRequestVoteResponse | kAppendEntries | kAppendEntriesResponse.

#[export] Instance MessageType_eq_dec : EqDecision MessageType.
Proof. solve_decision. Defined.

(** The enumerators' values. *)
Definition message_type_value (t : MessageType) : Z :=
  match t with
  | kRequestVote => 1 | kRequestVoteResponse => 2
  | kAppendEntries => 3 | kAppendEntriesResponse => 4
  end.

Record Message := mkMessage {
  msg_type : MessageType;
  from : Z;
  to : Z;
  msg_term : Z;
  log_index : Z;
  log_term : Z;
  msg_commit_index : Z;
  entry_index : Z;
  entry_end : Z;
  entry_term : Z;
  granted : bool }.

#[export] Instance Message_eq_dec : EqDecision Message.
Proof. solve_decision. Defined.

#[export] Instance Message_eta : Settable Message :=
  fun m => mkMessage (msg_type m) (from m) (to m) (msg_term m) (log_index m) (log_term m)
    (msg_commit_index m) (entry_index m) (entry_end m) (entry_term m) (granted m).

(** A default-constructed [Message]. *)
Definition default_message : Message :=
  mkMessage kRequestVote kNoNode kNoNode 0 0 0 0 kNoIndex 0 0 false.

Definition carries_entry (m : Message) : bool := negb (entry_index m =? kNoIndex).

Record Config := mkConfig {
  id : Z;
  peers : list Z;
  election_timeout_ticks : Z;
  election_timeout_jitter_ticks : Z;
  heartbeat_timeout_ticks : Z }.

Definition cluster_size (c : Config) : Z := zlen (peers c) + 1.
Definition quorum (c : Config) : Z := cluster_size c / 2 + 1.

Record Ready := mkReady {
  persist_hard_state : bool;
  hard_state : HardState;
  messages : list Message;
  truncate_from : Z;
  append_entry : bool;
  ready_commit_index : Z }.

Definition ready_empty (r : Ready) : bool :=
  negb (persist_hard_state r) && match messages r with [] => true | _ => false end &&
  negb (append_entry r) && (truncate_from r =? kNoIndex).
