(* ===== verification/RaftCodec.v ===== *)
(** * The Raft message codec

    Models [src/src/raft/codec.h]/[codec.cpp]: the fixed 72-byte header of a broker-to-broker
    message, optionally followed by one record batch.

    The theorems: a message and its batch survive the trip through the wire unchanged, and
    whatever bytes arrive, a message is only accepted when its length, its type and its claim
    to carry an entry agree with the payload. *)
From S2P Require Import Prelude Base Crc32c Wire RaftTypes.

Definition kMessageHeaderBytes : Z := 72.
Definition message_bytes (entry_size : Z) : Z := kMessageHeaderBytes + entry_size.

(** [attached] of [encode_message]. *)
Definition entry_attached (m : Message) (entry : list Z) : bool :=
  carries_entry m && negb (zlen entry =? 0).

Definition message_header (m : Message) (attached : bool) (entry_size : Z) : list Z :=
  [message_type_value (msg_type m)] ++ [if granted m then 1 else 0] ++ store_u16_le 0 ++
  store_u32_le (from m) ++ store_u32_le (to m) ++ store_u32_le (u32 entry_size) ++
  store_u64_le (msg_term m) ++ store_u64_le (log_index m) ++ store_u64_le (log_term m) ++
  store_u64_le (msg_commit_index m) ++
  store_u64_le (if attached then entry_index m else kNoIndex) ++
  store_u64_le (if attached then entry_term m else kNoTerm) ++
  store_u64_le (if attached then entry_end m else 0).

(** The contents of [out] afterwards; a buffer of the wrong size is left alone. *)
Definition encode_message (out : list Z) (m : Message) (entry : list Z) : list Z :=
  let attached := entry_attached m entry in
  let entry_size := if attached then zlen entry else 0 in
  if negb (zlen out =? message_bytes entry_size) then out
  else message_header m attached entry_size ++ (if attached then entry else []).

(** [static_cast<MessageType>] of a byte already checked. *)
Definition message_type_of (b : Z) : MessageType :=
  if b =? 1 then kRequestVote else if b =? 2 then kRequestVoteResponse
  else if b =? 3 then kAppendEntries else kAppendEntriesResponse.

(** The message and the batch that [*entry] points at. *)
Definition decode_message (payload : list Z) : Result (Message * list Z) :=
  fail_if zlen payload <? kMessageHeaderBytes with kInvalidRequest else
  let type := at_ payload 0 in
  fail_if (type <? 1) || (4 <? type) with kInvalidRequest else
  let entry_size := load_u32_le payload 12 in
  fail_if negb (zlen payload =? message_bytes entry_size) with kInvalidRequest else
  let m := {|
    msg_type := message_type_of type;
    granted := negb (at_ payload 1 =? 0);
    from := load_u32_le payload 4;
    to := load_u32_le payload 8;
    msg_term := load_u64_le payload 16;
    log_index := load_u64_le payload 24;
    log_term := load_u64_le payload 32;
    msg_commit_index := load_u64_le payload 40;
    entry_index := load_u64_le payload 48;
    entry_term := load_u64_le payload 56;
    entry_end := load_u64_le payload 64 |} in
  fail_if negb (Bool.eqb (carries_entry m) (negb (entry_size =? 0))) with kInvalidRequest else
  Ok (m, if negb (entry_size =? 0) then subslice payload kMessageHeaderBytes entry_size else []).

Definition api_key_for (type : MessageType) : Z :=
  match type with
  | kRequestVote | kRequestVoteResponse => kRequestVoteKey
  | kAppendEntries | kAppendEntriesResponse => kAppendEntriesKey
  end.

(** ** Specification vocabulary *)

(** Fields within their widths. *)
Record message_fits (m : Message) : Prop := {
  mf_from : 0 <= from m < 2 ^ 32;
  mf_to : 0 <= to m < 2 ^ 32;
  mf_term : 0 <= msg_term m < 2 ^ 64;
  mf_index : 0 <= log_index m < 2 ^ 64;
  mf_log_term : 0 <= log_term m < 2 ^ 64;
  mf_commit : 0 <= msg_commit_index m < 2 ^ 64;
  mf_entry_index : 0 <= entry_index m < 2 ^ 64;
  mf_entry_term : 0 <= entry_term m < 2 ^ 64;
  mf_entry_end : 0 <= entry_end m < 2 ^ 64 }.

(** What arrives: the entry fields of a message sent without its batch are blanked. *)
Definition on_the_wire (m : Message) (entry : list Z) : Message * list Z :=
  if entry_attached m entry then (m, entry)
  else (m <| entry_index := kNoIndex |> <| entry_term := kNoTerm |> <| entry_end := 0 |>, []).

Lemma zlen_message_header m a k : zlen (message_header m a k) = 72.
Proof. unfold message_header. len. Qed.
#[export] Hint Rewrite zlen_message_header : zlen.

Lemma message_type_of_value t : message_type_of (message_type_value t) = t.
Proof. by destruct t. Qed.

Lemma message_type_range t : 1 <= message_type_value t <= 4.
Proof. destruct t; simpl; lia. Qed.

Section HeaderFields.
Variables (m : Message) (a : bool) (k : Z) (rest : list Z).
Let p := message_header m a k ++ rest.
Hypothesis (Hm : message_fits m) (Hk : 0 <= k < 2 ^ 32).

#[local] Set Default Proof Using "Type*".

Ltac field := unfold p, message_header; load_field; first [reflexivity | try (apply wrap_small; first [apply Hm | done])].

Lemma header_type : at_ p 0 = message_type_value (msg_type m).
Proof. field. Qed.
Lemma header_granted : at_ p 1 = if granted m then 1 else 0.
Proof. field. Qed.
Lemma header_from : load_u32_le p 4 = from m.
Proof. field. Qed.
Lemma header_to : load_u32_le p 8 = to m.
Proof. field. Qed.
Lemma header_entry_size : load_u32_le p 12 = k.
Proof. field. rewrite wrap_wrap by lia. by apply wrap_small. Qed.
Lemma header_term : load_u64_le p 16 = msg_term m.
Proof. field. Qed.
Lemma header_log_index : load_u64_le p 24 = log_index m.
Proof. field. Qed.
Lemma header_log_term : load_u64_le p 32 = log_term m.
Proof. field. Qed.
Lemma header_commit : load_u64_le p 40 = msg_commit_index m.
Proof. field. Qed.
Lemma header_entry_index : load_u64_le p 48 = if a then entry_index m else kNoIndex.
Proof. field. destruct a; [apply wrap_small, Hm | done]. Qed.
Lemma header_entry_term : load_u64_le p 56 = if a then entry_term m else kNoTerm.
Proof. field. destruct a; [apply wrap_small, Hm | done]. Qed.
Lemma header_entry_end : load_u64_le p 64 = if a then entry_end m else 0.
Proof. field. destruct a; [apply wrap_small, Hm | done]. Qed.
End HeaderFields.

(** A Raft message survives the wire.  Encoding a message with its batch into a buffer
    of the size [message_bytes] announces, and decoding what is in it, gives the message and
    the batch back; without a batch, the message with its entry fields blanked. *)
Theorem message_roundtrip (out : list Z) (m : Message) (entry : list Z) :
  message_fits m -> zlen entry < 2 ^ 32 ->
  zlen out = message_bytes (zlen (on_the_wire m entry).2) ->
  decode_message (encode_message out m entry) = Ok (on_the_wire m entry).
Proof.
  intros Hm He Ho. unfold encode_message. unfold on_the_wire in Ho |- *. set (a := entry_attached m entry) in *.
  set (k := if a then zlen entry else 0). set (e := if a then entry else []).
  assert (zlen e = k) as Hek by (unfold e, k; by destruct a).
  assert (0 <= k < 2 ^ 32) as Hk by (unfold k; pose proof (zlen_nonneg entry); destruct a; pow2; lia).
  replace (zlen out =? message_bytes k) with true
    by (symmetry; apply Z.eqb_eq; rewrite Ho, <- Hek; unfold e; by destruct a).
  cbn [negb]. unfold decode_message.
  replace (zlen (message_header m a k ++ e) <? kMessageHeaderBytes) with false
    by (symmetry; apply Z.ltb_ge; unfold kMessageHeaderBytes; len).
  rewrite header_type, header_granted, header_from, header_to, header_entry_size, header_term,
    header_log_index, header_log_term, header_commit, header_entry_index, header_entry_term,
    header_entry_end by done.
  pose proof (message_type_range (msg_type m)).
  rewrite (proj2 (Z.ltb_ge _ 1)), (proj2 (Z.ltb_ge 4 _)) by lia. cbn [orb].
  replace (zlen (message_header m a k ++ e) =? message_bytes k) with true
    by (symmetry; apply Z.eqb_eq; unfold message_bytes, kMessageHeaderBytes; len).
  cbn [negb]. rewrite message_type_of_value.
  assert (negb ((if granted m then 1 else 0) =? 0) = granted m) as -> by (by destruct (granted m)).
  assert (subslice (message_header m a k ++ e) kMessageHeaderBytes k = e) as Hs.
  { unfold kMessageHeaderBytes. rewrite subslice_exact by len. apply zsub_app_end; len. }
  assert ((k =? 0) = negb a) as Hk0.
  { unfold k, a, entry_attached. destruct (carries_entry m), (zlen entry =? 0) eqn:Z0; cbn; bool_prop; done || lia. }
  rewrite Hk0, Hs. unfold carries_entry; cbn. unfold e. destruct a eqn:A; cbn; [|by destruct m].
  unfold a, entry_attached, carries_entry in A. apply andb_prop in A as [A _]. rewrite A. by destruct m.
Qed.

Lemma message_roundtrip_witness :
  decode_message (encode_message (zrep 75 0)
    (mkMessage kAppendEntries 1 2 7 41 6 40 42 45 7 false) [9; 8; 7]) =
  Ok (on_the_wire (mkMessage kAppendEntries 1 2 7 41 6 40 42 45 7 false) [9; 8; 7]).
Proof.
  apply (message_roundtrip (zrep 75 0) (mkMessage kAppendEntries 1 2 7 41 6 40 42 45 7 false) [9; 8; 7]).
  - split; cbn; pow2; lia.
  - vm_compute. reflexivity.
  - vm_compute. reflexivity.
Defined.

(** Hostile payloads.  Whatever arrives, [decode_message] accepts it only when it is as
    long as it declares, and then the message carries an entry exactly when there are batch
    bytes, which are the whole rest of the payload; every field is within its width. *)
Theorem decode_message_sound (payload : list Z) (m : Message) (entry : list Z) :
  bytes_ok payload -> decode_message payload = Ok (m, entry) ->
  zlen payload = message_bytes (zlen entry) /\ entry = zdrop 72 payload /\
  carries_entry m = negb (zlen entry =? 0) /\ message_fits m.
Proof.
  intros Hb. unfold decode_message. destruct (zlen payload <? _) eqn:E1; [done|].
  destruct (_ || _) eqn:E2; [done|]. destruct (zlen payload =? _) eqn:E3; cbn [negb]; [|done].
  destruct (Bool.eqb _ _) eqn:E4; cbn [negb]; [|done]. intros [= Em Ee]. apply Bool.eqb_prop in E4.
  pose proof (load_u32_range payload 12 Hb) as Hk. set (k := load_u32_le payload 12) in *.
  unfold message_bytes, kMessageHeaderBytes in *. bool_prop.
  assert (entry = zdrop 72 payload /\ zlen entry = k) as [He Hl].
  { rewrite <- Ee. destruct (k =? 0) eqn:K; bool_prop; cbn [negb].
    - rewrite zdrop_ge by lia. done.
    - rewrite subslice_exact by lia. unfold zsub. rewrite ztake_ge by (rewrite zlen_zdrop; lia).
      split; [done|]. rewrite zlen_zdrop. lia. }
  rewrite Em in E4. split_and!; [lia | done | by rewrite Hl |].
  rewrite <- Em. split; cbn; auto using load_u32_range, load_u64_range.
Qed.

Lemma decode_message_sound_witness :
  let payload := encode_message (zrep 75 0) (mkMessage kAppendEntries 1 2 7 41 6 40 42 45 7 false) [9; 8; 7] in
  zlen payload = message_bytes (zlen [9; 8; 7]) /\ [9; 8; 7] = zdrop 72 payload /\
  carries_entry (mkMessage kAppendEntries 1 2 7 41 6 40 42 45 7 false) = negb (zlen [9; 8; 7] =? 0) /\
  message_fits (mkMessage kAppendEntries 1 2 7 41 6 40 42 45 7 false).
Proof.
  intros payload. apply (decode_message_sound payload).
  - vm_compute. repeat constructor; discriminate.
  - vm_compute. reflexivity.
Defined.
