(* ===== verification/StateFile.v ===== *)
(** * The raft.state file

    Models [src/src/raft/state_file.h]/[state_file.cpp], the two alternating 32-byte slots
    that hold a node's term and vote, and the two functions of [src/src/server/broker.cpp]
    that use them, [load_hard_state] and [persist], on the bytes of the file.

    The theorems: what was persisted last is what is loaded; a write torn by a crash leaves
    the previous state or the new one, as long as the half-written slot does not pass its own
    CRC by accident; and the one write with no previous slot, the first, leaves a file that
    cannot be loaded at all when it is torn. *)
From S2P Require Import Prelude Base Crc32c RaftTypes.

Definition kStateSlotBytes : Z := 32.
Definition kStateFileBytes : Z := kStateSlotBytes * 2.
Definition kStateMagic : Z := 0x52.
Definition kStateVersion : Z := 0.

Record PersistedState := mkPersistedState { ps_hard : HardState; ps_sequence : Z }.

Definition state_slot_offset (sequence : Z) : Z := sequence mod 2 * kStateSlotBytes.

(** Bytes 4..31 of a slot, the part its CRC covers. *)
Definition slot_body (state : HardState) (sequence : Z) : list Z :=
  [kStateMagic] ++ [kStateVersion] ++ store_u16_le 0 ++ store_u64_le sequence ++
  store_u64_le (hs_term state) ++ store_u32_le (hs_voted_for state) ++ store_u32_le 0.

Definition slot_bytes (state : HardState) (sequence : Z) : list Z :=
  store_u32_le (crc32c 0 (slot_body state sequence)) ++ slot_body state sequence.

Definition encode_state_slot (out : list Z) (state : HardState) (sequence : Z) : list Z :=
  if negb (zlen out =? kStateSlotBytes) then out else slot_bytes state sequence.

Definition decode_state_slot (slot : list Z) : Result PersistedState :=
  fail_if negb (zlen slot =? kStateSlotBytes) with kCorruptRecord else
  fail_if negb (at_ slot 4 =? kStateMagic) with kCorruptRecord else
  fail_if negb (at_ slot 5 =? kStateVersion) with kUnsupportedVersion else
  fail_if negb (load_u32_le slot 0 =? crc32c 0 (zsub 4 28 slot)) with kCorruptRecord else
  Ok (mkPersistedState (mkHardState (load_u64_le slot 16) (load_u32_le slot 24)) (load_u64_le slot 8)).

(** The loop over the slots, [n] of them left. *)
Fixpoint scan_slots (file : list Z) (n : nat) (offset : Z) (best : option PersistedState) : option PersistedState :=
  match n with
  | O => best
  | S n' =>
      let best :=
        match decode_state_slot (subslice file offset kStateSlotBytes) with
        | fail _ => best
        | Ok slot =>
            match best with
            | None => Some slot
            | Some b => if ps_sequence b <? ps_sequence slot then Some slot else Some b
            end
        end in
      scan_slots file n' (offset + kStateSlotBytes) best
  end.

Definition scan_state_file (file : list Z) : Result PersistedState :=
  fail_if zlen file <? kStateSlotBytes with kCorruptRecord else
  let slots := Z.min (zlen file) kStateFileBytes / kStateSlotBytes in
  match scan_slots file (Z.to_nat slots) 0 None with
  | None => fail kCorruptRecord
  | Some best => Ok best
  end.

(** ** The broker's side, on the contents of the file *)

(** [pwrite]: past the end, the gap reads as zeros. *)
Definition pwrite_bytes (file : list Z) (off : Z) (data : list Z) : list Z :=
  ztake off (file ++ zrep (off - zlen file) 0) ++ data ++ zdrop (off + zlen data) file.

(** [Broker::load_hard_state]: the state and the next sequence number. *)
Definition load_hard_state (file : list Z) : Result (HardState * Z) :=
  if zlen file =? 0 then Ok (default_hard_state, 0)
  else
    let? scanned := scan_state_file (ztake kStateFileBytes file) in
    Ok (ps_hard scanned, u64 (ps_sequence scanned + 1)).

(** [Broker::persist] when the disk accepts the write: the file and the next sequence. *)
Definition persist (file : list Z) (state : HardState) (sequence : Z) : list Z * Z :=
  (pwrite_bytes file (state_slot_offset sequence)
     (encode_state_slot (zrep kStateSlotBytes 0) state sequence),
   u64 (sequence + 1)).

(** ** Specification vocabulary *)

Definition hard_fits (h : HardState) : Prop := 0 <= hs_term h < 2 ^ 64 /\ 0 <= hs_voted_for h < 2 ^ 32.

(** The other of the two slots. *)
Definition other_offset (sequence : Z) : Z := kStateSlotBytes - state_slot_offset sequence.

(** The file records [h], last written under [k]: its slot is intact and the other one, if
    there is one, holds nothing newer. *)
Record records (file : list Z) (h : HardState) (k : Z) : Prop := {
  rc_length : kStateSlotBytes <= zlen file <= kStateFileBytes;
  rc_sequence : 0 <= k < 2 ^ 64 - 2;
  rc_fits : hard_fits h;
  rc_slot : zsub (state_slot_offset k) kStateSlotBytes file = slot_bytes h k;
  rc_other : forall p, decode_state_slot (zsub (other_offset k) kStateSlotBytes file) = Ok p -> ps_sequence p < k }.

(** The file a crash leaves when it interrupts the write of a slot at [off]: that slot holds
    [t], whatever it is, and the rest of the file is as it was. *)
Definition torn_at (file : list Z) (off : Z) (t : list Z) : list Z :=
  ztake off file ++ t ++ zdrop (off + kStateSlotBytes) file.

(** What a slot can hold after an interrupted write: a whole slot, or a piece of one at the
    end of the file; and its CRC notices the tear, if there is one.  So it does not decode,
    or it still holds an older state, or it is completely the new one. *)
Record tear (file : list Z) (t : list Z) (new : HardState) (sequence : Z) : Prop := {
  tear_length : zlen t <= kStateSlotBytes;
  tear_at_end : zlen t = kStateSlotBytes \/ zlen file <= state_slot_offset sequence + zlen t;
  tear_noticed : t = slot_bytes new sequence \/
    forall p, decode_state_slot t = Ok p -> ps_sequence p < sequence - 1 }.

(** ** Slots *)

Lemma zlen_slot_body h k : zlen (slot_body h k) = 28.
Proof. unfold slot_body. len. Qed.
#[export] Hint Rewrite zlen_slot_body : zlen.

Lemma zlen_slot_bytes h k : zlen (slot_bytes h k) = 32.
Proof. unfold slot_bytes. len. Qed.
#[export] Hint Rewrite zlen_slot_bytes : zlen.

Lemma slot_body_ok h k : bytes_ok (slot_body h k).
Proof. unfold slot_body. repeat (apply Forall_app; split); auto with le; by repeat constructor. Qed.

Lemma slot_crc h k : u32 (crc32c 0 (slot_body h k)) = crc32c 0 (slot_body h k).
Proof. apply wrap_small, crc32c_range; [done | apply slot_body_ok]. Qed.

Lemma decode_slot_bytes h k :
  hard_fits h -> 0 <= k < 2 ^ 64 -> decode_state_slot (slot_bytes h k) = Ok (mkPersistedState h k).
Proof.
  intros [Ht Hv] Hk. unfold decode_state_slot.
  rewrite zlen_slot_bytes. change (negb (32 =? kStateSlotBytes)) with false. cbv iota.
  assert (zsub 4 28 (slot_bytes h k) = slot_body h k) as -> by (unfold slot_bytes; apply zsub_app_end; len).
  assert (load_u32_le (slot_bytes h k) 0 = crc32c 0 (slot_body h k)) as ->.
  { unfold slot_bytes. load_field. apply slot_crc. }
  unfold slot_bytes, slot_body. load_field. rewrite !Z.eqb_refl. cbn [negb].
  rewrite !wrap_small by done. by destruct h.
Qed.

Lemma decode_slot_length t p : decode_state_slot t = Ok p -> zlen t = 32.
Proof.
  unfold decode_state_slot, kStateSlotBytes. destruct (zlen t =? 32) eqn:E; [|done]. bool_prop. done.
Qed.

Lemma slot_offset_cases k :
  0 <= k -> (state_slot_offset k = 0 /\ other_offset k = 32 /\ state_slot_offset (k + 1) = 32) \/
            (state_slot_offset k = 32 /\ other_offset k = 0 /\ state_slot_offset (k + 1) = 0).
Proof. intros. unfold other_offset, state_slot_offset, kStateSlotBytes. dmlia. Qed.

(** ** Scanning *)

(** The choice of [scan_slots] between two slots. *)
Definition newer (a b : Result PersistedState) : option PersistedState :=
  match a, b with
  | fail _, fail _ => None
  | fail _, Ok y => Some y
  | Ok x, fail _ => Some x
  | Ok x, Ok y => if ps_sequence x <? ps_sequence y then Some y else Some x
  end.

Lemma subslice_past s off n : zlen s <= off -> 0 <= n -> subslice s off n = [].
Proof.
  intros. unfold subslice, zsub. rewrite zdrop_ge by lia. unfold ztake. by rewrite take_nil.
Qed.

Lemma subslice_short s off n : 0 <= off <= zlen s -> zlen s < off + n -> zlen (subslice s off n) < n.
Proof. intros. unfold subslice. destruct (_ <? _) eqn:E; bool_prop; unfold zsub; rewrite zlen_ztake, zlen_zdrop; lia. Qed.

(** Only whole slots count, so a half slot at the end is as good as none. *)
Lemma scan_two_slots file :
  32 <= zlen file <= 64 ->
  scan_state_file file =
  match newer (decode_state_slot (zsub 0 32 file)) (decode_state_slot (zsub 32 32 file)) with
  | None => fail kCorruptRecord
  | Some best => Ok best
  end.
Proof.
  intros Hl. unfold scan_state_file, kStateFileBytes, kStateSlotBytes.
  rewrite (proj2 (Z.ltb_ge _ _)) by lia. rewrite Z.min_l by lia.
  destruct (Z.eq_dec (zlen file) 64) as [E|E].
  - replace (Z.to_nat (zlen file / 32)) with 2%nat by (rewrite E; done). cbn [scan_slots].
    unfold kStateSlotBytes. rewrite !subslice_exact by lia.
    destruct (decode_state_slot (zsub 0 32 file)) as [x|], (decode_state_slot (zsub (0 + 32) 32 file)) as [y|] eqn:D2;
      change (0 + 32) with 32 in *; rewrite D2; cbn; try done.
  - replace (Z.to_nat (zlen file / 32)) with 1%nat by (replace (zlen file / 32) with 1 by dmlia; done).
    cbn [scan_slots]. unfold kStateSlotBytes. rewrite !subslice_exact by lia.
    destruct (decode_state_slot (zsub 32 32 file)) as [y|] eqn:D2.
    + apply decode_slot_length in D2. unfold zsub in D2. rewrite zlen_ztake, zlen_zdrop in D2. lia.
    + by destruct (decode_state_slot (zsub 0 32 file)).
Qed.

(** A file that records a state is loaded as that state. *)
Lemma load_records file h k :
  records file h k -> load_hard_state file = Ok (h, k + 1).
Proof.
  intros [Hl Hk Hf Hs Ho]. unfold kStateFileBytes, kStateSlotBytes in *. unfold load_hard_state.
  rewrite (proj2 (Z.eqb_neq _ _)) by lia. rewrite ztake_ge by (unfold kStateFileBytes, kStateSlotBytes; lia).
  rewrite scan_two_slots by lia.
  assert (decode_state_slot (zsub (state_slot_offset k) 32 file) = Ok (mkPersistedState h k)) as Hd
    by (rewrite Hs; apply decode_slot_bytes; [done | lia]).
  assert (newer (decode_state_slot (zsub 0 32 file)) (decode_state_slot (zsub 32 32 file)) =
          Some (mkPersistedState h k)) as ->.
  { unfold kStateSlotBytes in *.
    destruct (slot_offset_cases k ltac:(lia)) as [(E1 & E2 & _)|(E1 & E2 & _)]; rewrite E1 in Hd; rewrite E2 in Ho;
      rewrite Hd; unfold newer.
    - destruct (decode_state_slot (zsub 32 32 file)) as [p|]; [|done].
      specialize (Ho p eq_refl). simpl. by rewrite (proj2 (Z.ltb_ge _ _)) by lia.
    - destruct (decode_state_slot (zsub 0 32 file)) as [p|]; [|done].
      specialize (Ho p eq_refl). simpl. by rewrite (proj2 (Z.ltb_lt _ _)) by lia. }
  cbn. rewrite wrap_small by (pow2; lia). done.
Qed.

(** ** Writing a slot, completely or not *)

Lemma torn_layout file h k t new :
  records file h k -> tear file t new (k + 1) ->
  let file' := torn_at file (state_slot_offset (k + 1)) t in
  32 <= zlen file' <= 64 /\
  zsub (state_slot_offset k) 32 file' = slot_bytes h k /\ zsub (other_offset k) 32 file' = t.
Proof.
  intros [Hl Hk Hf Hs Ho] [Tl Te _]. unfold torn_at, kStateFileBytes, kStateSlotBytes in *. cbv zeta.
  pose proof (zlen_nonneg t).
  destruct (slot_offset_cases k ltac:(lia)) as [(E1 & E2 & E3)|(E1 & E2 & E3)]; rewrite E1 in *; rewrite E2, E3 in *.
  - rewrite (zdrop_ge (32 + 32)), app_nil_r by lia. split_and!.
    + len. + len.
    + rewrite zsub_app_l by len. unfold zsub in *. rewrite zdrop_le in * by lia. rewrite ztake_ztake. exact Hs.
    + rewrite zsub_app_r by len. replace (32 - zlen (ztake 32 file)) with 0 by len. apply zsub_all. lia.
  - assert (zlen file = 64) as L64.
    { pose proof (f_equal zlen Hs) as L. rewrite zlen_slot_bytes in L. unfold zsub in L.
      rewrite zlen_ztake, zlen_zdrop in L. lia. }
    assert (zlen t = 32) as Lt by lia. change (0 + 32) with 32. rewrite ztake_le by lia. cbn [app]. split_and!.
    + len. + len.
    + rewrite zsub_app_r by lia. rewrite Lt. change (32 - 32) with 0. unfold zsub in *. by rewrite zdrop_le by lia.
    + rewrite zsub_app_l by lia. apply zsub_all. lia.
Qed.

(** Either the old state is still recorded, or the new one is. *)
Lemma torn_records file h k t new :
  records file h k -> hard_fits new -> k + 1 < 2 ^ 64 - 2 -> tear file t new (k + 1) ->
  let file' := torn_at file (state_slot_offset (k + 1)) t in
  records file' h k \/ (records file' new (k + 1) /\ t = slot_bytes new (k + 1)).
Proof.
  intros R Hn Hk1 T. destruct (torn_layout file h k t new R T) as (L & S1 & S2). cbv zeta in *.
  set (file' := torn_at file (state_slot_offset (k + 1)) t) in *. clearbody file'.
  pose proof R as [Rl Rk Rf Rs Ro]. unfold kStateFileBytes, kStateSlotBytes in *.
  destruct (tear_noticed _ _ _ _ T) as [Et|Et].
  - right. split; [|done].
    assert (state_slot_offset (k + 1) = other_offset k /\ other_offset (k + 1) = state_slot_offset k) as [E1 E2].
    { unfold other_offset, state_slot_offset, kStateSlotBytes. dmlia. }
    split; unfold kStateFileBytes, kStateSlotBytes; [lia | lia | done | by rewrite E1, S2 |].
    rewrite E2, S1. intros p. rewrite decode_slot_bytes by (done || lia). intros [= <-]. simpl. lia.
  - left. split; unfold kStateFileBytes, kStateSlotBytes; [lia | lia | done | done |].
    rewrite S2. intros p Hp. specialize (Et p Hp). lia.
Qed.

Lemma persist_torn file h k new :
  records file h k ->
  (persist file new (k + 1)).1 = torn_at file (state_slot_offset (k + 1)) (slot_bytes new (k + 1)).
Proof.
  intros [Hl Hk _ _ _]. unfold persist, pwrite_bytes, torn_at, kStateFileBytes, kStateSlotBytes in *. cbn [fst].
  unfold encode_state_slot, kStateSlotBytes. rewrite zlen_zrep. change (negb (Z.max 0 32 =? 32)) with false. cbv iota.
  rewrite zlen_slot_bytes. f_equal. apply ztake_app_le.
  destruct (slot_offset_cases k ltac:(lia)) as [(_ & _ & ->)|(_ & _ & ->)]; lia.
Qed.

Lemma whole_tear file h k new :
  records file h k -> tear file (slot_bytes new (k + 1)) new (k + 1).
Proof. intros _. split; unfold kStateSlotBytes; [len | left; len | by left]. Qed.

Lemma persist_records file h k new :
  records file h k -> hard_fits new -> k + 1 < 2 ^ 64 - 2 ->
  records (persist file new (k + 1)).1 new (k + 1).
Proof.
  intros R Hn Hk. rewrite (persist_torn file h k new R).
  destruct (torn_records file h k _ new R Hn Hk (whole_tear file h k new R)) as [R'|[R' _]]; [|done].
  exfalso. destruct (torn_layout file h k _ new R (whole_tear file h k new R)) as (_ & _ & S2).
  pose proof (rc_other _ _ _ R') as Ho. unfold kStateSlotBytes in Ho. rewrite S2 in Ho.
  pose proof (rc_sequence _ _ _ R). rewrite decode_slot_bytes in Ho by (done || lia). specialize (Ho _ eq_refl). simpl in Ho. lia.
Qed.

Lemma first_persist new :
  hard_fits new -> records (persist [] new 0).1 new 0.
Proof.
  intros Hn. assert ((persist [] new 0).1 = slot_bytes new 0) as ->.
  { unfold persist, pwrite_bytes. cbn [fst]. change (state_slot_offset 0) with 0.
    unfold encode_state_slot, kStateSlotBytes. rewrite zlen_zrep. change (negb (Z.max 0 32 =? 32)) with false. cbv iota.
    rewrite ztake_le by lia. rewrite zdrop_ge by len. by rewrite app_nil_r. }
  split; unfold kStateFileBytes, kStateSlotBytes; [len | lia | done | apply zsub_all; len |].
  change (other_offset 0) with 32. intros p Hp%decode_slot_length.
  unfold zsub in Hp. rewrite zlen_ztake, zlen_zdrop, zlen_slot_bytes in Hp. lia.
Qed.

(** The latest slot written once more under its own number. *)
Lemma rewrite_records file h k new :
  records file h k -> hard_fits new ->
  records (pwrite_bytes file (state_slot_offset k) (slot_bytes new k)) new k.
Proof.
  intros [Hl Hk Hf Hs Ho] Hn. unfold pwrite_bytes, kStateFileBytes, kStateSlotBytes in *. rewrite zlen_slot_bytes.
  destruct (slot_offset_cases k ltac:(lia)) as [(E1 & E2 & _)|(E1 & E2 & _)]; rewrite E1 in *; rewrite E2 in Ho.
  - rewrite (ztake_le 0), app_nil_l by lia. split; unfold kStateFileBytes, kStateSlotBytes; rewrite ?E1, ?E2; [len | lia | done | |].
    + rewrite zsub_app_l by len. apply zsub_all. len.
    + rewrite zsub_app_r, zlen_slot_bytes by len. change (32 - 32) with 0. intros p. unfold zsub in *. rewrite zdrop_le by lia. apply Ho.
  - assert (zlen file = 64) as L64.
    { pose proof (f_equal zlen Hs) as L. rewrite zlen_slot_bytes in L. unfold zsub in L. rewrite zlen_ztake, zlen_zdrop in L. lia. }
    rewrite ztake_app_le by lia. rewrite (zdrop_ge (32 + 32)), app_nil_r by lia.
    split; unfold kStateFileBytes, kStateSlotBytes; rewrite ?E1, ?E2; [len | lia | done | |].
    + rewrite zsub_app_r by len. replace (32 - zlen (ztake 32 file)) with 0 by len. apply zsub_all. len.
    + rewrite zsub_app_l by len. intros p. unfold zsub in *. rewrite zdrop_le in * by lia. rewrite ztake_ztake. apply Ho.
Qed.

(** ** Properties *)

(** A history of writes: the states persisted so far, the latest last, each under the
    sequence number of its position. *)
Fixpoint persist_all (file : list Z) (sequence : Z) (states : list HardState) : list Z * Z :=
  match states with
  | [] => (file, sequence)
  | s :: states' => let '(file, sequence) := persist file s sequence in persist_all file sequence states'
  end.

Lemma persist_all_records states : forall file h k,
  records file h k -> Forall hard_fits states -> k + zlen states < 2 ^ 64 - 2 ->
  records (persist_all file (k + 1) states).1 (default h (last states)) (k + zlen states) /\
  (persist_all file (k + 1) states).2 = k + zlen states + 1.
Proof.
  induction states as [|s states IH]; intros file h k R F Hk; cbn [persist_all].
  - unfold zlen; simpl. by rewrite Z.add_0_r.
  - inversion F as [|? ? Fs Fss]; subst. rewrite zlen_cons in Hk. pose proof (zlen_nonneg states).
    pose proof (persist_records file h k s R Fs ltac:(lia)) as R1. pose proof (rc_sequence _ _ _ R).
    destruct (persist file s (k + 1)) as [file1 seq1] eqn:P. cbn in R1.
    assert (seq1 = k + 1 + 1) as ->.
    { unfold persist in P. injection P as _ <-. apply wrap_small. pow2. lia. }
    destruct (IH file1 s (k + 1) R1 Fss ltac:(lia)) as [R2 S2].
    rewrite zlen_cons. replace (k + (1 + zlen states)) with (k + 1 + zlen states) by lia. split; [|done].
    rewrite last_cons. by destruct (last states).
Qed.

(** C5: The vote survives.  After any number of writes of [raft.state] to a new file, and
    one more that a crash may tear anywhere as long as the slot's CRC notices, the broker
    loads the last state written completely: the one before the crash or the new one. *)
Theorem hard_state_survives (first : HardState) (states : list HardState) (new : HardState) (t : list Z) :
  Forall hard_fits (first :: states) -> hard_fits new -> zlen states < 2 ^ 64 - 4 ->
  let '(file, sequence) := persist_all [] 0 (first :: states) in
  load_hard_state file = Ok (default first (last states), sequence) /\
  (tear file t new sequence ->
   let file' := torn_at file (state_slot_offset sequence) t in
   load_hard_state file' = Ok (default first (last states), sequence) \/
   (t = slot_bytes new sequence /\ load_hard_state file' = Ok (new, sequence + 1))).
Proof.
  intros F Hn Hl. inversion F as [|? ? F1 F2]; subst. pose proof (zlen_nonneg states).
  cbn [persist_all]. destruct (persist [] first 0) as [f1 s1] eqn:P.
  pose proof (first_persist first F1) as R1. rewrite P in R1. cbn in R1.
  assert (s1 = 0 + 1) as -> by (unfold persist in P; injection P as _ <-; done).
  destruct (persist_all_records states f1 first 0 R1 F2 ltac:(lia)) as [R2 S2].
  destruct (persist_all f1 (0 + 1) states) as [file sequence] eqn:P2. cbn in R2, S2. subst sequence.
  split; [by apply load_records|]. intros T.
  destruct (torn_records file _ _ t new R2 Hn ltac:(lia) T) as [R3|[R3 Et]].
  - left. by apply load_records.
  - right. split; [done|]. by apply load_records.
Qed.

Lemma hard_state_survives_witness :
  let '(file, sequence) := persist_all [] 0 [mkHardState 1 0; mkHardState 2 kNoNode; mkHardState 2 1] in
  load_hard_state file = Ok (mkHardState 2 1, 3) /\
  (load_hard_state (torn_at file (state_slot_offset sequence) (zrep 32 0)) = Ok (mkHardState 2 1, sequence) \/
   (zrep 32 0 = slot_bytes (mkHardState 3 3) sequence /\
    load_hard_state (torn_at file (state_slot_offset sequence) (zrep 32 0)) = Ok (mkHardState 3 3, sequence + 1))).
Proof.
  assert (Forall hard_fits [mkHardState 1 0; mkHardState 2 kNoNode; mkHardState 2 1]) as F
    by (unfold hard_fits; ground).
  assert (hard_fits (mkHardState 3 3)) as Fn by (unfold hard_fits; ground).
  pose proof (hard_state_survives (mkHardState 1 0) [mkHardState 2 kNoNode; mkHardState 2 1]
    (mkHardState 3 3) (zrep 32 0) F Fn eq_refl) as T.
  assert ((persist_all [] 0 [mkHardState 1 0; mkHardState 2 kNoNode; mkHardState 2 1]).2 = 3) as S by (vm_compute; reflexivity).
  destruct (persist_all [] 0 [mkHardState 1 0; mkHardState 2 kNoNode; mkHardState 2 1]) as [file sequence].
  cbn [snd] in S. subst sequence. destruct T as [T1 T2]. split; [exact T1|]. apply T2.
  split; [vm_compute; discriminate | left; vm_compute; reflexivity | right].
  intros p Hp. vm_compute in Hp. discriminate.
Defined.

(** The first write has no other slot to fall back on.  If a crash leaves any piece of
    it short of a whole slot, the file is not empty and not loadable: the broker stays down
    for good, although it has never announced a vote. *)
Theorem torn_first_write_is_fatal (t : list Z) :
  0 < zlen t < 32 -> load_hard_state (torn_at [] (state_slot_offset 0) t) = fail kCorruptRecord.
Proof.
  intros Ht. assert (torn_at [] (state_slot_offset 0) t = t) as ->.
  { unfold torn_at. rewrite ztake_le by done. rewrite zdrop_ge by (vm_compute; done). by rewrite app_nil_r. }
  unfold load_hard_state. rewrite (proj2 (Z.eqb_neq _ _)) by lia.
  rewrite ztake_ge by (unfold kStateFileBytes, kStateSlotBytes; lia).
  unfold scan_state_file, kStateSlotBytes. by rewrite (proj2 (Z.ltb_lt _ _)) by lia.
Qed.

Lemma torn_first_write_is_fatal_witness :
  load_hard_state (torn_at [] (state_slot_offset 0) (ztake 20 (slot_bytes (mkHardState 1 2) 0))) = fail kCorruptRecord.
Proof. apply torn_first_write_is_fatal. vm_compute. split; reflexivity. Defined.
