(* ===== verification/RaftNode.v ===== *)
(** * The Raft state machine

    Models [src/src/raft/node.h]/[node.cpp], operation by operation.  A [Node] is a value;
    each member function is a function from the node (and its argument) to the node it
    leaves behind, the queue [out_] of messages included.  The generator behind
    [io::Random&] is the field [rng_], over any instance of [Random]. *)
From S2P Require Import Prelude Random RaftTypes.

Record Node (G : Type) := mkNode {
  config_ : Config;
  rng_ : G;
  hard_ : HardState;
  hard_state_dirty_ : bool;
  role_ : Role;
  leader_ : Z;
  votes_ : gset Z;
  log_end_ : Z;
  last_term_ : Z;
  commit_index_ : Z;
  epochs_ : list Epoch;
  match_ : gmap Z Z;
  next_ : gmap Z Z;
  pending_truncate_ : Z;
  pending_append_ : bool;
  election_elapsed_ : Z;
  heartbeat_elapsed_ : Z;
  election_timeout_ : Z;
  campaigns_ : Z;
  lease_refusals_ : Z;
  out_ : list Message }.

Arguments mkNode {G}.
Arguments config_ {G}. Arguments rng_ {G}. Arguments hard_ {G}. Arguments hard_state_dirty_ {G}.
Arguments role_ {G}. Arguments leader_ {G}. Arguments votes_ {G}. Arguments log_end_ {G}.
Arguments last_term_ {G}. Arguments commit_index_ {G}. Arguments epochs_ {G}. Arguments match_ {G}.
Arguments next_ {G}. Arguments pending_truncate_ {G}. Arguments pending_append_ {G}.
Arguments election_elapsed_ {G}. Arguments heartbeat_elapsed_ {G}. Arguments election_timeout_ {G}.
Arguments campaigns_ {G}. Arguments lease_refusals_ {G}. Arguments out_ {G}.

#[export] Instance Node_eta G : Settable (Node G) :=
  fun n => mkNode (config_ n) (rng_ n) (hard_ n) (hard_state_dirty_ n) (role_ n) (leader_ n)
    (votes_ n) (log_end_ n) (last_term_ n) (commit_index_ n) (epochs_ n) (match_ n) (next_ n)
    (pending_truncate_ n) (pending_append_ n) (election_elapsed_ n) (heartbeat_elapsed_ n)
    (election_timeout_ n) (campaigns_ n) (lease_refusals_ n) (out_ n).

Section Node.
Context {G : Type} `{Random G}.
Implicit Types (n : Node G) (m : Message).

Definition reset_election_timer n : Node G :=
  let '(jitter, g) :=
    if election_timeout_jitter_ticks (config_ n) =? 0 then (0, rng_ n)
    else
      let '(r, g) := next_below (election_timeout_jitter_ticks (config_ n)) (rng_ n) in
      (u32 r, g) in
  let timeout := u32 (election_timeout_ticks (config_ n) + jitter) in
  n <| election_elapsed_ := 0 |> <| rng_ := g |>
    <| election_timeout_ := (if timeout =? 0 then 1 else timeout) |>.

(** The constructor. *)
Definition new_node (config : Config) (rng : G) (persisted : HardState) : Node G :=
  reset_election_timer
    (mkNode config rng persisted false kFollower kNoNode ∅ 0 kNoTerm 0 [] ∅ ∅
       kNoIndex false 0 0 0 0 0 []).

Definition send m n : Node G :=
  n <| out_ := out_ n ++ [m <| from := id (config_ n) |> <| msg_term := hs_term (hard_ n) |>] |>.

Definition reply (req : Message) (type : MessageType) (grant : bool) n : Node G :=
  send (default_message <| msg_type := type |> <| to := from req |> <| granted := grant |>
          <| log_index := log_end_ n |> <| log_term := last_term_ n |>) n.

Definition log_is_up_to_date (end_ term : Z) n : bool :=
  if negb (term =? last_term_ n) then last_term_ n <? term else log_end_ n <=? end_.

(** [std::upper_bound] over the epochs' starts. *)
Definition epoch_upper_bound (index : Z) (epochs : list Epoch) : nat :=
  partition_point (fun e => negb (index <? ep_start e)) epochs.

Definition term_at (index : Z) n : Z :=
  if (log_end_ n <=? index) || match epochs_ n with [] => true | _ => false end then kNoTerm
  else
    match epoch_upper_bound index (epochs_ n) with
    | O => kNoTerm
    | S k => ep_term (nth k (epochs_ n) (mkEpoch kNoTerm 0))
    end.

Definition epoch_start_at (index : Z) n : Z :=
  match epochs_ n with
  | [] => 0
  | e0 :: _ =>
      match epoch_upper_bound index (epochs_ n) with
      | O => ep_start e0
      | S k => ep_start (nth k (epochs_ n) (mkEpoch kNoTerm 0))
      end
  end.

Definition append_epoch (term start : Z) n : Node G :=
  match last (epochs_ n) with
  | Some e =>
      if ep_term e =? term then n
      else n <| epochs_ := epochs_ n ++ [mkEpoch term start] |>
  | None => n <| epochs_ := epochs_ n ++ [mkEpoch term start] |>
  end.

(** The [while] loop; each round pops one epoch, so the length is fuel enough. *)
Fixpoint pop_epochs (fuel : nat) (index : Z) (epochs : list Epoch) : list Epoch :=
  match fuel with
  | O => epochs
  | S fuel' =>
      match last epochs with
      | Some e => if index <=? ep_start e then pop_epochs fuel' index (removelast epochs) else epochs
      | None => epochs
      end
  end.

Definition truncate_epochs_from (index : Z) n : Node G :=
  n <| epochs_ := pop_epochs (length (epochs_ n)) index (epochs_ n) |>.

(** [last_term_ = log_end_ == 0 ? kNoTerm : term_at(log_end_ - 1)] *)
Definition refresh_last_term n : Node G :=
  n <| last_term_ := (if log_end_ n =? 0 then kNoTerm else term_at (log_end_ n - 1) n) |>.

Definition restore_log (log_end : Z) (epochs : list Epoch) n : Node G :=
  let n := n <| log_end_ := log_end |> in
  let n := n <| epochs_ := epochs |> in
  let n := refresh_last_term n in
  if log_end_ n <? commit_index_ n then n <| commit_index_ := log_end_ n |> else n.

Definition match_end (peer : Z) n : Z := default 0 (match_ n !! peer).
Definition next_index (peer : Z) n : Z := default 0 (next_ n !! peer).

Definition advance_commit_index n : Node G :=
  if negb (bool_decide (role_ n = kLeader)) then n
  else
    let ends := log_end_ n :: ((fun peer => match_end peer n) <$> peers (config_ n)) in
    let sorted := merge_sort Z.ge ends in
    let quorum_end := at_ sorted (quorum (config_ n) - 1) in
    if quorum_end <=? commit_index_ n then n
    else if negb (term_at (quorum_end - 1) n =? hs_term (hard_ n)) then n
    else n <| commit_index_ := quorum_end |>.

Definition become_follower (term leader : Z) n : Node G :=
  let n :=
    if hs_term (hard_ n) <? term
    then n <| hard_ := mkHardState term kNoNode |> <| hard_state_dirty_ := true |>
    else n in
  reset_election_timer
    (n <| role_ := kFollower |> <| leader_ := leader |> <| votes_ := ∅ |>).

Definition become_candidate n : Node G :=
  reset_election_timer
    (n <| hard_ := mkHardState (u64 (hs_term (hard_ n) + 1)) (id (config_ n)) |>
       <| hard_state_dirty_ := true |>
       <| role_ := kCandidate |> <| leader_ := kNoNode |>
       <| votes_ := {[ id (config_ n) ]} |>
       <| campaigns_ := u64 (campaigns_ n + 1) |>).

(** The message [send_append_entries] builds. *)
Definition append_entries_message (peer : Z) n : Message :=
  let start := next_index peer n in
  let m := default_message <| msg_type := kAppendEntries |> <| to := peer |>
             <| msg_commit_index := commit_index_ n |> in
  let m :=
    if start =? 0 then m <| log_index := kNoIndex |> <| log_term := kNoTerm |>
    else m <| log_index := start - 1 |> <| log_term := term_at (start - 1) n |> in
  if start <? log_end_ n
  then m <| entry_index := start |> <| entry_term := term_at start n |>
  else m.

Definition send_append_entries (peer : Z) n : Node G := send (append_entries_message peer n) n.

Definition broadcast_heartbeat n : Node G :=
  foldl (fun n peer => send_append_entries peer n) n (peers (config_ n)).

Definition log_appended (index end_ term : Z) n : Node G :=
  let n := append_epoch term index n in
  let n := n <| log_end_ := (if index <? end_ then end_ else u64 (index + 1)) |> in
  let n := n <| last_term_ := term |> in
  if negb (bool_decide (role_ n = kLeader)) then n
  else
    let n := advance_commit_index n in
    foldl (fun n peer => if next_index peer n =? index then send_append_entries peer n else n)
      n (peers (config_ n)).

Definition become_leader n : Node G :=
  let n := n <| role_ := kLeader |> <| leader_ := id (config_ n) |> <| heartbeat_elapsed_ := 0 |> in
  let n := n <| match_ := ∅ |> <| next_ := ∅ |> in
  let n :=
    foldl (fun n peer => n <| match_ := <[peer := 0]> (match_ n) |>
                           <| next_ := <[peer := log_end_ n]> (next_ n) |>)
      n (peers (config_ n)) in
  broadcast_heartbeat n.

(** The message [campaign] sends to each peer. *)
Definition request_vote_message (peer : Z) n : Message :=
  default_message <| msg_type := kRequestVote |> <| to := peer |>
    <| log_index := log_end_ n |> <| log_term := last_term_ n |>.

Definition campaign n : Node G :=
  let n := become_candidate n in
  if quorum (config_ n) <=? Z.of_nat (size (votes_ n)) then become_leader n
  else foldl (fun n peer => send (request_vote_message peer n) n) n (peers (config_ n)).

Definition tick n : Node G :=
  if bool_decide (role_ n = kLeader) then
    let n := n <| heartbeat_elapsed_ := u32 (heartbeat_elapsed_ n + 1) |> in
    if heartbeat_timeout_ticks (config_ n) <=? heartbeat_elapsed_ n
    then broadcast_heartbeat (n <| heartbeat_elapsed_ := 0 |>)
    else n
  else
    let n := n <| election_elapsed_ := u32 (election_elapsed_ n + 1) |> in
    if election_timeout_ n <=? election_elapsed_ n then campaign n else n.

Definition handle_request_vote m n : Node G :=
  let already_committed_elsewhere :=
    negb (hs_voted_for (hard_ n) =? kNoNode) && negb (hs_voted_for (hard_ n) =? from m) in
  let grant :=
    negb already_committed_elsewhere && log_is_up_to_date (log_index m) (log_term m) n in
  let n :=
    if grant then
      let n :=
        if negb (hs_voted_for (hard_ n) =? from m)
        then n <| hard_ := hard_ n <| hs_voted_for := from m |> |> <| hard_state_dirty_ := true |>
        else n in
      n <| election_elapsed_ := 0 |>
    else n in
  reply m kRequestVoteResponse grant n.

Definition handle_request_vote_response m n : Node G :=
  if negb (bool_decide (role_ n = kCandidate)) then n
  else if negb (granted m) then n
  else
    let n := n <| votes_ := votes_ n ∪ {[ from m ]} |> in
    if quorum (config_ n) <=? Z.of_nat (size (votes_ n)) then become_leader n else n.

(** The [matches] test of [handle_append_entries]. *)
Definition log_matches m n : bool :=
  (log_index m =? kNoIndex) ||
  ((log_index m <? log_end_ n) && (term_at (log_index m) n =? log_term m)).

Definition append_position m : Z := if log_index m =? kNoIndex then 0 else u64 (log_index m + 1).

Definition entry_reach m : Z :=
  if entry_index m <? entry_end m then entry_end m else u64 (entry_index m + 1).

(** The [carries_entry] branch: drop a disagreeing tail, then take the entry if it lands at
    the end of the log. *)
Definition accept_entry m n : Node G :=
  let append_at := append_position m in
  let existing := term_at append_at n in
  let n :=
    if negb (existing =? kNoTerm) && negb (existing =? entry_term m)
    then refresh_last_term
           (truncate_epochs_from append_at (n <| pending_truncate_ := append_at |>)
              <| log_end_ := append_at |>)
    else n in
  if log_end_ n <=? append_at
  then log_appended append_at (entry_reach m) (entry_term m) (n <| pending_append_ := true |>)
  else n.

Definition handle_append_entries m n : Node G :=
  if bool_decide (role_ n = kLeader) then n
  else
    let n := become_follower (msg_term m) (from m) n in
    if negb (log_matches m n) then
      send (default_message <| msg_type := kAppendEntriesResponse |> <| to := from m |>
              <| granted := false |> <| log_term := last_term_ n |>
              <| log_index := (if log_end_ n <=? log_index m then log_end_ n
                               else epoch_start_at (log_index m) n) |>) n
    else
      let n := if carries_entry m then accept_entry m n else n in
      let n :=
        if commit_index_ n <? msg_commit_index m
        then n <| commit_index_ := Z.min (msg_commit_index m) (log_end_ n) |>
        else n in
      send (default_message <| msg_type := kAppendEntriesResponse |> <| to := from m |>
              <| granted := true |>
              <| log_index := (if carries_entry m then entry_reach m else append_position m) |>
              <| log_term := last_term_ n |>) n.

Definition handle_append_entries_response m n : Node G :=
  if negb (bool_decide (role_ n = kLeader)) then n
  else if negb (granted m) then
    let floor := match_end (from m) n in
    let retry := log_index m in
    let retry := if log_end_ n <? retry then log_end_ n else retry in
    let retry := if retry <? floor then floor else retry in
    send_append_entries (from m) (n <| next_ := <[from m := retry]> (next_ n) |>)
  else
    let confirmed := Z.min (log_index m) (log_end_ n) in
    let n :=
      if match_end (from m) n <? confirmed
      then n <| match_ := <[from m := confirmed]> (match_ n) |> else n in
    let n :=
      if next_index (from m) n <? confirmed
      then n <| next_ := <[from m := confirmed]> (next_ n) |> else n in
    let n := advance_commit_index n in
    if next_index (from m) n <? log_end_ n then send_append_entries (from m) n else n.

Definition step m n : Node G :=
  if bool_decide (msg_type m = kRequestVote) && bool_decide (role_ n = kFollower) &&
     negb (leader_ n =? kNoNode) && (election_elapsed_ n <? election_timeout_ticks (config_ n))
  then n <| lease_refusals_ := u64 (lease_refusals_ n + 1) |>
  else
    let n :=
      if hs_term (hard_ n) <? msg_term m then
        become_follower (msg_term m)
          (if bool_decide (msg_type m = kAppendEntries) then from m else kNoNode) n
      else n in
    if msg_term m <? hs_term (hard_ n) then
      match msg_type m with
      | kRequestVote => reply m kRequestVoteResponse false n
      | kAppendEntries => reply m kAppendEntriesResponse false n
      | kRequestVoteResponse | kAppendEntriesResponse => n
      end
    else
      match msg_type m with
      | kRequestVote => handle_request_vote m n
      | kRequestVoteResponse => handle_request_vote_response m n
      | kAppendEntries => handle_append_entries m n
      | kAppendEntriesResponse => handle_append_entries_response m n
      end.

Definition take_ready n : Ready * Node G :=
  (mkReady (hard_state_dirty_ n) (hard_ n) (out_ n) (pending_truncate_ n) (pending_append_ n)
     (commit_index_ n),
   n <| out_ := [] |> <| pending_truncate_ := kNoIndex |> <| pending_append_ := false |>).

Definition hard_state_persisted n : Node G := n <| hard_state_dirty_ := false |>.

End Node.
