(* ===== verification/RaftFacts.v ===== *)
(** * What each operation of the Raft node touches

    Equations for the building blocks of [node.cpp] (timers, sends, broadcasts), and the
    summary of a whole [tick] or [step] that the election argument uses: how the hard state,
    the role and the votes move, and what is queued for sending. *)
From S2P Require Import Prelude Random RaftTypes RaftNode.

Section Facts.
Context {G : Type} `{Random G}.
Implicit Types (n : Node G) (m x : Message).

(** ** Building blocks *)

Lemma reset_election_timer_eq n :
  exists g t, reset_election_timer n =
    n <| election_elapsed_ := 0 |> <| rng_ := g |> <| election_timeout_ := t |> /\ t <> 0.
Proof.
  unfold reset_election_timer.
  destruct (election_timeout_jitter_ticks (config_ n) =? 0).
  - eexists _, _. split; [done|]. destruct (u32 _ =? 0) eqn:E; bool_prop; lia.
  - destruct (next_below _ (rng_ n)) as [r g]. eexists _, _. split; [done|].
    destruct (u32 (_ + _) =? 0) eqn:E; bool_prop; lia.
Qed.

(** A message as [send] stamps it. *)
Definition stamped m n : Message := m <| from := id (config_ n) |> <| msg_term := hs_term (hard_ n) |>.

Lemma send_eq m n : send m n = n <| out_ := out_ n ++ [stamped m n] |>.
Proof. done. Qed.

Lemma broadcast_eq (f : Z -> Node G -> Message) n ps :
  (forall p o, f p (n <| out_ := o |>) = f p n) ->
  foldl (fun n p => send (f p n) n) n ps =
  n <| out_ := out_ n ++ ((fun p => stamped (f p n) n) <$> ps) |>.
Proof.
  intros Hf. enough (forall o, foldl (fun n p => send (f p n) n) (n <| out_ := o |>) ps =
    n <| out_ := o ++ ((fun p => stamped (f p n) n) <$> ps) |>) as E.
  { rewrite <- E. by destruct n. }
  induction ps as [|p ps IH]; intros o; cbn [foldl fmap list_fmap]; [by rewrite app_nil_r|].
  rewrite send_eq, Hf.
  change (n <| out_ := o |> <| out_ := out_ (n <| out_ := o |>) ++ [stamped (f p n) (n <| out_ := o |>)] |>)
    with (n <| out_ := o ++ [stamped (f p n) n] |>).
  rewrite IH. by rewrite <- app_assoc.
Qed.

Lemma broadcast_heartbeat_eq n :
  broadcast_heartbeat n =
  n <| out_ := out_ n ++ ((fun p => stamped (append_entries_message p n) n) <$> peers (config_ n)) |>.
Proof. unfold broadcast_heartbeat, send_append_entries. by rewrite (broadcast_eq append_entries_message). Qed.

Lemma append_entries_message_type p n :
  msg_type (append_entries_message p n) = kAppendEntries /\ to (append_entries_message p n) = p.
Proof.
  unfold append_entries_message. destruct (next_index p n =? 0), (next_index p n <? log_end_ n); done.
Qed.

Lemma advance_commit_index_eq n : exists c, advance_commit_index n = n <| commit_index_ := c |>.
Proof.
  unfold advance_commit_index. destruct (negb _); [exists (commit_index_ n); by destruct n|].
  destruct (_ <=? _); [exists (commit_index_ n); by destruct n|].
  destruct (negb _); [exists (commit_index_ n); by destruct n|]. by eexists.
Qed.

Lemma become_leader_maps n ps :
  (forall p v, match_ n !! p = Some v -> v = 0) ->
  exists ma ne, foldl (fun n peer => n <| match_ := <[peer := 0]> (match_ n) |>
                           <| next_ := <[peer := log_end_ n]> (next_ n) |>) n ps
    = n <| match_ := ma |> <| next_ := ne |> /\ forall p v, ma !! p = Some v -> v = 0.
Proof.
  revert n. induction ps as [|p ps IH]; intros n Hz; cbn [foldl].
  - exists (match_ n), (next_ n). split; [by destruct n | done].
  - destruct (IH (n <| match_ := <[p := 0]> (match_ n) |> <| next_ := <[p := log_end_ n]> (next_ n) |>))
      as (ma & ne & -> & Hma).
    + intros q v. cbn. rewrite lookup_insert. case_decide; [congruence | apply Hz].
    + by exists ma, ne.
Qed.

Lemma become_leader_eq n :
  exists ma ne sent,
    become_leader n =
      n <| role_ := kLeader |> <| leader_ := id (config_ n) |> <| heartbeat_elapsed_ := 0 |>
        <| match_ := ma |> <| next_ := ne |> <| out_ := out_ n ++ sent |> /\
    (forall p v, ma !! p = Some v -> v = 0) /\
    Forall (fun x => msg_type x = kAppendEntries /\ from x = id (config_ n) /\
                     msg_term x = hs_term (hard_ n) /\ to x ∈ peers (config_ n)) sent.
Proof.
  unfold become_leader.
  match goal with |- context [foldl _ ?n0 ?ps] =>
    destruct (become_leader_maps n0 ps) as (ma & ne & E & Hz);
      [intros p v; cbn; by rewrite lookup_empty|]; cbv zeta; rewrite E end.
  rewrite broadcast_heartbeat_eq. eexists ma, ne, _. split; [reflexivity|]. split; [done|].
  apply Forall_fmap, Forall_forall. intros p Hp. simpl.
  match goal with |- context [append_entries_message p ?k] =>
    destruct (append_entries_message_type p k) as [T1 T2] end.
  unfold stamped. fields. by rewrite T1, T2.
Qed.

(** The log fields are those of [n]. *)
Definition same_log n n' : Prop :=
  log_end_ n' = log_end_ n /\ last_term_ n' = last_term_ n /\ epochs_ n' = epochs_ n /\
  commit_index_ n' = commit_index_ n /\ pending_truncate_ n' = pending_truncate_ n /\
  pending_append_ n' = pending_append_ n.

Lemma become_leader_facts n :
  let n' := become_leader n in
  config_ n' = config_ n /\ hard_ n' = hard_ n /\ hard_state_dirty_ n' = hard_state_dirty_ n /\
  role_ n' = kLeader /\ votes_ n' = votes_ n /\ same_log n n' /\
  (forall p v, match_ n' !! p = Some v -> v = 0) /\
  exists sent, out_ n' = out_ n ++ sent /\
    Forall (fun x => msg_type x = kAppendEntries /\ from x = id (config_ n) /\
                     msg_term x = hs_term (hard_ n) /\ to x ∈ peers (config_ n)) sent.
Proof.
  destruct (become_leader_eq n) as (ma & ne & sent & E & Hz & Hs). cbv zeta. rewrite E. unfold same_log. cbn.
  repeat apply conj; try reflexivity; [exact Hz | by exists sent].
Qed.

Lemma become_follower_facts term leader n :
  let n' := become_follower term leader n in
  config_ n' = config_ n /\
  hard_ n' = (if hs_term (hard_ n) <? term then mkHardState term kNoNode else hard_ n) /\
  hard_state_dirty_ n' = (if hs_term (hard_ n) <? term then true else hard_state_dirty_ n) /\
  role_ n' = kFollower /\ leader_ n' = leader /\ votes_ n' = ∅ /\ election_elapsed_ n' = 0 /\
  out_ n' = out_ n /\ same_log n n'.
Proof.
  unfold become_follower, same_log. destruct (hs_term (hard_ n) <? term); cbv zeta;
    match goal with |- context [reset_election_timer ?k] =>
      destruct (reset_election_timer_eq k) as (g & t & E & _); rewrite E end;
    cbn; repeat apply conj; reflexivity.
Qed.

Lemma become_candidate_facts n :
  let n' := become_candidate n in
  config_ n' = config_ n /\
  hard_ n' = mkHardState (u64 (hs_term (hard_ n) + 1)) (id (config_ n)) /\
  hard_state_dirty_ n' = true /\ role_ n' = kCandidate /\ leader_ n' = kNoNode /\
  votes_ n' = {[ id (config_ n) ]} /\ election_elapsed_ n' = 0 /\ out_ n' = out_ n /\ same_log n n'.
Proof.
  unfold become_candidate, same_log. cbv zeta.
  match goal with |- context [reset_election_timer ?k] =>
    destruct (reset_election_timer_eq k) as (g & t & E & _); rewrite E end.
  cbn; repeat apply conj; reflexivity.
Qed.

(** ** The effect of an input on the election state *)

(** A hard state may only grow: a later term, or the same term with the vote it had. *)
Definition hs_le (a b : HardState) : Prop :=
  hs_term a < hs_term b \/
  (hs_term a = hs_term b /\ (hs_voted_for a = kNoNode \/ hs_voted_for a = hs_voted_for b)).

(** A node that stands or leads has voted for itself. *)
Definition self_voted n : Prop :=
  role_ n <> kFollower -> hs_voted_for (hard_ n) = id (config_ n).

(** What may be queued while handling [om] by a node that ends up as [n']. *)
Definition sent_ok (om : option Message) n' x : Prop :=
  from x = id (config_ n') /\ msg_term x = hs_term (hard_ n') /\
  (to x ∈ peers (config_ n') \/ exists m, om = Some m /\ to x = from m) /\
  match msg_type x with
  | kRequestVote => hs_voted_for (hard_ n') = id (config_ n')
  | kRequestVoteResponse =>
      granted x = true ->
      hs_voted_for (hard_ n') = to x /\
      exists m, om = Some m /\ msg_type m = kRequestVote /\ from m = to x /\
        msg_term m = hs_term (hard_ n')
  | kAppendEntries => role_ n' = kLeader
  | kAppendEntriesResponse => True
  end.

Inductive role_move (om : option Message) n n' : Prop :=
  | rm_same :
      hard_ n' = hard_ n -> role_ n' = role_ n -> votes_ n' = votes_ n -> role_move om n n'
  | rm_follower : role_ n' = kFollower -> role_move om n n'
  | rm_campaign :
      om = None ->
      hard_ n' = mkHardState (hs_term (hard_ n) + 1) (id (config_ n)) ->
      votes_ n' = {[ id (config_ n) ]} ->
      (role_ n' = kCandidate \/ (role_ n' = kLeader /\ quorum (config_ n) <= 1)) ->
      role_move om n n'
  | rm_count m :
      om = Some m -> msg_type m = kRequestVoteResponse -> granted m = true ->
      msg_term m = hs_term (hard_ n) -> role_ n = kCandidate -> hard_ n' = hard_ n ->
      votes_ n' = votes_ n ∪ {[ from m ]} ->
      (role_ n' = kCandidate \/
       (role_ n' = kLeader /\ quorum (config_ n) <= Z.of_nat (size (votes_ n')))) ->
      role_move om n n'.

Record effect (om : option Message) n n' : Prop := {
  ef_config : config_ n' = config_ n;
  ef_hard : hs_le (hard_ n) (hard_ n');
  ef_dirty : (hard_ n' = hard_ n /\ hard_state_dirty_ n' = hard_state_dirty_ n) \/
             hard_state_dirty_ n' = true;
  ef_sent : exists sent, out_ n' = out_ n ++ sent /\ Forall (sent_ok om n') sent;
  ef_role : role_move om n n' }.

Lemma hs_le_refl a : hs_le a a.
Proof. right. auto. Qed.

Lemma hs_le_trans a b c : hs_le a b -> hs_le b c -> hs_le a c.
Proof. unfold hs_le. intros [|[? [|]]] [|[? [|]]]; try (left; lia); right; split; try lia; left + right; congruence. Qed.

(** Nothing moved and only [sent] was queued. *)
Lemma effect_quiet om n n' sent :
  config_ n' = config_ n -> hard_ n' = hard_ n -> hard_state_dirty_ n' = hard_state_dirty_ n ->
  role_ n' = role_ n -> votes_ n' = votes_ n -> out_ n' = out_ n ++ sent ->
  Forall (sent_ok om n') sent -> effect om n n'.
Proof.
  intros Ec Eh Ed Er Ev Eo Hs. split; [done | rewrite Eh; apply hs_le_refl | by left | by exists sent |].
  by apply rm_same.
Qed.

Lemma campaign_cases n :
  let n1 := become_candidate n in
  (quorum (config_ n1) <= Z.of_nat (size (votes_ n1)) /\ campaign n = become_leader n1) \/
  (campaign n = n1 <| out_ := out_ n1 ++ ((fun p => stamped (request_vote_message p n1) n1) <$> peers (config_ n1)) |>).
Proof.
  intros n1. unfold campaign. fold n1. cbv zeta. destruct (_ <=? _) eqn:Q; bool_prop; [by left | right].
  by rewrite (broadcast_eq request_vote_message n1).
Qed.

Lemma campaign_effect n :
  0 <= hs_term (hard_ n) < 2 ^ 64 - 1 -> effect None n (campaign n).
Proof.
  intros Ht. pose proof (campaign_cases n) as C.
  destruct (become_candidate_facts n) as (Ec & Eh & Ed & Er & _ & Ev & _ & Eo & _).
  cbv zeta in *. revert C Ec Eh Ed Er Ev Eo. generalize (become_candidate n) (campaign n).
  intros n1 n2 C Ec Eh Ed Er Ev Eo. rewrite wrap_small in Eh by (pow2; lia).
  assert (hs_le (hard_ n) (hard_ n1)) as Hle by (rewrite Eh; left; simpl; lia).
  destruct C as [[Q ->] | ->].
  - destruct (become_leader_facts n1) as (Lc & Lh & Ld & Lr & Lv & _ & _ & sent & Lo & Ls).
    cbv zeta in *. split; [congruence | by rewrite Lh | right; congruence | |].
    + exists sent. split; [congruence|]. eapply Forall_impl; [exact Ls|]. intros x (T & F & M & P).
      unfold sent_ok. rewrite T, Lc, Lh. split_and!; auto.
    + apply rm_campaign; [done | congruence | congruence |]. right. split; [done|].
      rewrite Ev, size_singleton, Ec in Q. done.
  - split; cbn; [done | done | by right | |].
    + eexists. split; [by rewrite Eo|]. apply Forall_fmap, Forall_forall. intros p Hp.
      unfold sent_ok; cbn. rewrite Eh, Ec in *. split_and!; auto.
    + apply rm_campaign; cbn; [done | done | done | by left].
Qed.

Lemma tick_effect n :
  0 <= hs_term (hard_ n) < 2 ^ 64 - 1 -> effect None n (tick n).
Proof.
  intros Ht. unfold tick. case_bool_decide as R; cbv zeta.
  - destruct (_ <=? _).
    + rewrite broadcast_heartbeat_eq. eapply effect_quiet; try reflexivity.
      apply Forall_fmap, Forall_forall. intros p Hp. cbn.
      match goal with |- context [append_entries_message p ?k] =>
        destruct (append_entries_message_type p k) as [T1 T2] end.
      unfold sent_ok, stamped. cbn. rewrite T1, T2. split_and!; auto.
    + apply (effect_quiet _ _ _ []); try reflexivity; [cbn; by rewrite app_nil_r | constructor].
  - destruct (_ <=? _).
    + destruct (campaign_effect (n <| election_elapsed_ := u32 (election_elapsed_ n + 1) |>) Ht)
        as [Ec Eh Ed Es Er]. set (n' := campaign _) in *. clearbody n'. cbn in *. split; auto.
    + apply (effect_quiet _ _ _ []); try reflexivity; [cbn; by rewrite app_nil_r | constructor].
Qed.

(** The election fields are those of [n]. *)
Definition same_election n n' : Prop :=
  config_ n' = config_ n /\ hard_ n' = hard_ n /\ hard_state_dirty_ n' = hard_state_dirty_ n /\
  role_ n' = role_ n /\ votes_ n' = votes_ n.

Lemma same_election_trans n1 n2 n3 : same_election n1 n2 -> same_election n2 n3 -> same_election n1 n3.
Proof. unfold same_election. intuition congruence. Qed.

Lemma effect_same om n n' sent :
  same_election n n' -> out_ n' = out_ n ++ sent -> Forall (sent_ok om n') sent -> effect om n n'.
Proof. intros (? & ? & ? & ? & ?). by apply effect_quiet. Qed.

Lemma effect_refl om n : effect om n n.
Proof. apply (effect_same _ _ _ []); [done | by rewrite app_nil_r | done]. Qed.

Lemma append_epoch_frame term start n :
  same_election n (append_epoch term start n) /\ out_ (append_epoch term start n) = out_ n.
Proof. unfold append_epoch, same_election. destruct (last (epochs_ n)) as [e|]; [destruct (_ =? _)|]; done. Qed.

Lemma advance_commit_frame n :
  same_election n (advance_commit_index n) /\ out_ (advance_commit_index n) = out_ n.
Proof. destruct (advance_commit_index_eq n) as (c & ->). done. Qed.

Lemma send_append_entries_frame peer n :
  same_election n (send_append_entries peer n) /\
  out_ (send_append_entries peer n) = out_ n ++ [stamped (append_entries_message peer n) n].
Proof. done. Qed.

Lemma append_entries_sent om peer n n' :
  same_election n n' -> role_ n = kLeader ->
  (peer ∈ peers (config_ n) \/ exists m, om = Some m /\ peer = from m) ->
  sent_ok om n' (stamped (append_entries_message peer n) n).
Proof.
  intros (Ec & Eh & _ & Er & _) R Hp. destruct (append_entries_message_type peer n) as [T1 T2].
  unfold sent_ok, stamped. cbn. rewrite T1, T2, Ec, Eh. split_and!; [done | done | done | congruence].
Qed.

(** The loop of [log_appended] over the peers that were caught up. *)
Lemma push_out_frame (index : Z) (n0 : Node G) ps : forall n,
  role_ n0 = kLeader -> same_election n0 n -> Forall (fun p => p ∈ peers (config_ n0)) ps ->
  let n' := foldl (fun n peer => if next_index peer n =? index then send_append_entries peer n else n) n ps in
  same_election n0 n' /\
  exists sent, out_ n' = out_ n ++ sent /\
    Forall (fun x => forall k, same_election n0 k -> sent_ok None k x) sent.
Proof.
  induction ps as [|p ps IH]; intros n R S Hps; cbn [foldl].
  - split; [done|]. exists []. by rewrite app_nil_r.
  - inversion Hps; subst. destruct (_ =? _); [|by apply IH].
    destruct (send_append_entries_frame p n) as [F O].
    destruct (IH (send_append_entries p n) R) as [S' (sent & Es & Hs)];
      [by eapply same_election_trans | done |].
    split; [exact S'|]. eexists. rewrite Es, O, <- app_assoc. split; [reflexivity|].
    constructor; [|exact Hs]. intros k Sk. pose proof S as (Ec & Eh & _ & Er & _).
    apply append_entries_sent; [|congruence | left; by rewrite Ec].
    unfold same_election in *. intuition congruence.
Qed.

Lemma log_appended_effect index end_ term n : effect None n (log_appended index end_ term n).
Proof.
  unfold log_appended. cbv zeta. destruct (append_epoch_frame term index n) as [F O].
  revert F O. generalize (append_epoch term index n). intros n1 F O.
  case_bool_decide as R; cbn [negb].
  - match goal with |- context [advance_commit_index ?k] => destruct (advance_commit_frame k) as [F2 O2] end.
    revert F2 O2. match goal with |- context [advance_commit_index ?k] => generalize (advance_commit_index k) end.
    intros n2 F2 O2. cbn in R.
    assert (same_election n n2) as S.
    { eapply same_election_trans; [exact F|]. unfold same_election in *. cbn in F2. exact F2. }
    cbn in O2. pose proof S as (Ec & _ & _ & Er & _). destruct F as (_ & _ & _ & Er1 & _).
    destruct (push_out_frame index n (peers (config_ n2)) n2) as [S3 (sent & Es & Hs)];
      [congruence | done | rewrite Ec; by apply Forall_forall |].
    revert S3 Es. generalize (foldl (fun n peer => if next_index peer n =? index then send_append_entries peer n else n) n2 (peers (config_ n2))).
    intros n3 S3 Es. apply (effect_same _ _ _ sent); [done | congruence |].
    eapply Forall_impl; [exact Hs|]. intros x Hx. by apply Hx.
  - apply (effect_same _ _ _ []); [|cbn; by rewrite O, app_nil_r | done].
    unfold same_election in *. exact F.
Qed.

Lemma log_appended_follower index end_ term n :
  role_ n = kFollower -> same_election n (log_appended index end_ term n) /\
  out_ (log_appended index end_ term n) = out_ n.
Proof.
  intros R. unfold log_appended. cbv zeta. destruct (append_epoch_frame term index n) as [F O].
  revert F O. generalize (append_epoch term index n). intros n1 F O. pose proof F as (_ & _ & _ & Er & _).
  rewrite bool_decide_eq_false_2; [|cbn; congruence]. cbn [negb].
  split; [unfold same_election in *; exact F | exact O].
Qed.

Lemma accept_entry_frame m n :
  role_ n = kFollower -> same_election n (accept_entry m n) /\ out_ (accept_entry m n) = out_ n.
Proof.
  intros R. unfold accept_entry. cbv zeta.
  set (cut := if negb _ && negb _ then _ else n).
  assert (same_election n cut /\ out_ cut = out_ n) as [F O].
  { unfold cut. destruct (negb _ && negb _); done. }
  revert F O. generalize cut. intros n1 F O. clear cut. destruct (_ <=? _); [|done].
  pose proof F as (_ & _ & _ & Er & _).
  destruct (log_appended_follower (append_position m) (entry_reach m) (entry_term m)
              (n1 <| pending_append_ := true |>)) as [F2 O2]; [cbn; congruence|].
  split; [|rewrite O2; exact O]. eapply same_election_trans; [exact F|]. exact F2.
Qed.

(** ** The handlers *)

Lemma reply_effect req type n :
  type = kRequestVoteResponse \/ type = kAppendEntriesResponse ->
  effect (Some req) n (reply req type false n).
Proof.
  intros Ht. unfold reply. rewrite send_eq. eapply effect_same; [done | done |].
  constructor; [|done]. unfold sent_ok; cbn. split_and!; [done | done | by eauto |].
  destruct Ht as [-> | ->]; done.
Qed.

Lemma handle_request_vote_effect m n :
  msg_type m = kRequestVote -> msg_term m = hs_term (hard_ n) -> self_voted n ->
  id (config_ n) <> kNoNode ->
  effect (Some m) n (handle_request_vote m n).
Proof.
  intros Ty Tm Sv Hid. unfold handle_request_vote. cbv zeta.
  destruct (negb (negb (hs_voted_for (hard_ n) =? kNoNode) && negb (hs_voted_for (hard_ n) =? from m)) &&
            log_is_up_to_date (log_index m) (log_term m) n) eqn:Gr; [|apply reply_effect; auto].
  apply andb_prop in Gr as [Gr _]. apply negb_true_iff, andb_false_iff in Gr.
  rewrite !negb_false_iff, !Z.eqb_eq in Gr. unfold reply. rewrite send_eq.
  destruct (hs_voted_for (hard_ n) =? from m) eqn:V; bool_prop; cbn [negb].
  - eapply effect_same; [done | done |]. constructor; [|done]. unfold sent_ok; cbn.
    split_and!; [done | done | by eauto |]. intros _. split; [done|]. by exists m.
  - destruct Gr as [Gr|Gr]; [|done]. split; cbn; [done | right; auto | by right | |].
    + eexists. split; [done|]. constructor; [|done]. unfold sent_ok; cbn.
      split_and!; [done | done | by eauto |]. intros _. split; [done|]. by exists m.
    + apply rm_follower. cbn. destruct (decide (role_ n = kFollower)) as [R|R]; [done|].
      specialize (Sv R). congruence.
Qed.

Lemma handle_request_vote_response_effect m n :
  msg_type m = kRequestVoteResponse -> msg_term m = hs_term (hard_ n) ->
  effect (Some m) n (handle_request_vote_response m n).
Proof.
  intros Ty Tm. unfold handle_request_vote_response. case_bool_decide as R; cbn [negb]; [|apply effect_refl].
  destruct (granted m) eqn:Gr; cbn [negb]; [|apply effect_refl]. cbv zeta.
  set (n1 := n <| votes_ := _ |>). destruct (quorum (config_ n1) <=? Z.of_nat (size (votes_ n1))) eqn:Q; bool_prop.
  - destruct (become_leader_facts n1) as (Lc & Lh & Ld & Lr & Lv & _ & _ & sent & Lo & Ls).
    cbv zeta in *. revert Lc Lh Ld Lr Lv Lo. generalize (become_leader n1). intros n2 Lc Lh Ld Lr Lv Lo.
    cbn in Lc, Lh, Ld, Lv, Lo, Ls, Q.
    split; [done | rewrite Lh; apply hs_le_refl | by left | |].
    + exists sent. split; [done|]. eapply Forall_impl; [exact Ls|]. intros x (T & F & M & P).
      unfold sent_ok. rewrite T, Lc, Lh. split_and!; auto.
    + eapply rm_count; try done. right. split; [done|]. by rewrite Lv.
  - split; cbn; [done | apply hs_le_refl | by left | exists []; by rewrite app_nil_r |].
    eapply rm_count; try done. by left.
Qed.

Lemma handle_append_entries_response_effect m n :
  effect (Some m) n (handle_append_entries_response m n).
Proof.
  unfold handle_append_entries_response. case_bool_decide as R; cbn [negb]; [|apply effect_refl].
  destruct (granted m); cbn [negb]; cbv zeta.
  - set (c := Z.min _ _). set (n1 := if match_end (from m) n <? c then _ else n).
    assert (same_election n n1 /\ out_ n1 = out_ n) as [F1 O1] by (unfold n1; destruct (_ <? _); done).
    revert F1 O1. generalize n1. clear n1. intros n1 F1 O1.
    set (n2 := if next_index (from m) n1 <? c then _ else n1).
    assert (same_election n1 n2 /\ out_ n2 = out_ n1) as [F2 O2] by (unfold n2; destruct (_ <? _); done).
    revert F2 O2. generalize n2. clear n2. intros n2 F2 O2.
    destruct (advance_commit_frame n2) as [F3 O3]. revert F3 O3. generalize (advance_commit_index n2).
    intros n3 F3 O3. assert (same_election n n3) as F by (eauto using same_election_trans).
    destruct (_ <? _).
    + eapply effect_same; [exact F | cbn; rewrite O3, O2, O1; done |]. constructor; [|done].
      apply append_entries_sent; [done | |]; [destruct F as (_ & _ & _ & -> & _); done | by eauto].
    + apply (effect_same _ _ _ []); [exact F | rewrite app_nil_r; congruence | done].
  - eapply effect_same; [done | done |]. constructor; [|done].
    by apply append_entries_sent; [|cbn|eauto].
Qed.

Lemma handle_append_entries_effect m n :
  msg_term m = hs_term (hard_ n) -> effect (Some m) n (handle_append_entries m n).
Proof.
  intros Tm. unfold handle_append_entries. case_bool_decide as R; [apply effect_refl|]. cbv zeta.
  destruct (become_follower_facts (msg_term m) (from m) n) as (Ec & Eh & Ed & Er & _ & _ & _ & Eo & _).
  cbv zeta in *. rewrite Tm in Ec, Eh, Ed, Er, Eo |- *. rewrite Z.ltb_irrefl in Eh, Ed.
  revert Ec Eh Ed Er Eo. generalize (become_follower (hs_term (hard_ n)) (from m) n).
  intros n1 Ec Eh Ed Er Eo.
  assert (forall n2 x, same_election n1 n2 -> out_ n2 = out_ n1 ->
            msg_type x = kAppendEntriesResponse -> to x = from m ->
            effect (Some m) n (send x n2)) as Fin.
  { intros n2 x (Fc & Fh & Fd & Fr & _) O T1 T2. rewrite send_eq.
    split; cbn; [congruence | rewrite Fh, Eh; apply hs_le_refl | left; split; congruence | |].
    - eexists. split; [by rewrite O, Eo|]. constructor; [|done]. unfold sent_ok; cbn. rewrite T1.
      split_and!; [done | done | by eauto | done].
    - apply rm_follower. cbn. congruence. }
  destruct (negb _); [by apply Fin|].
  set (n2 := if carries_entry m then accept_entry m n1 else n1).
  assert (same_election n1 n2 /\ out_ n2 = out_ n1) as [F2 O2]
    by (unfold n2; destruct (carries_entry m); [by apply accept_entry_frame | done]).
  revert F2 O2. generalize n2. clear n2. intros n2 F2 O2. apply Fin; [|by destruct (_ <? _) | done | done].
  destruct (_ <? _); [|done]. exact F2.
Qed.

(** ** A whole step *)

(** A handler run after the node adopted a later term. *)
Lemma effect_adopted m n n1 n' :
  config_ n1 = config_ n -> out_ n1 = out_ n -> role_ n1 = kFollower ->
  hs_term (hard_ n) < hs_term (hard_ n1) -> hard_state_dirty_ n1 = true ->
  effect (Some m) n1 n' -> effect (Some m) n n'.
Proof.
  intros Ec Eo Er Et Ed [Fc Fh Fd (sent & Fo & Fs) Fr]. split; [congruence | | | |].
  - left. destruct Fh as [|[? _]]; lia.
  - right. destruct Fd as [[_ ->]|]; done.
  - exists sent. split; [congruence | done].
  - apply rm_follower. inversion Fr; congruence.
Qed.

(** [step]'s adoption of a later term. *)
Definition adopt m n : Node G :=
  if hs_term (hard_ n) <? msg_term m then
    become_follower (msg_term m)
      (if bool_decide (msg_type m = kAppendEntries) then from m else kNoNode) n
  else n.

(** [step]'s dispatch on the message once the term is adopted. *)
Definition dispatch m n : Node G :=
  if msg_term m <? hs_term (hard_ n) then
    match msg_type m with
    | kRequestVote => reply m kRequestVoteResponse false n
    | kAppendEntries => reply m kAppendEntriesResponse false n
    | kRequestVoteResponse | kAppendEntriesResponse => n
    end
  else
    match msg_type m with
    | kRequestVote => handle_request_vote m n
    | kRequestVoteResponse => handle_request_vote_response m n
    | kAppendEntries => handle_append_entries m n
    | kAppendEntriesResponse => handle_append_entries_response m n
    end.

(** The lease test of [step]. *)
Definition lease_refuses m n : bool :=
  bool_decide (msg_type m = kRequestVote) && bool_decide (role_ n = kFollower) &&
  negb (leader_ n =? kNoNode) && (election_elapsed_ n <? election_timeout_ticks (config_ n)).

Lemma step_eq m n :
  step m n = if lease_refuses m n then n <| lease_refusals_ := u64 (lease_refusals_ n + 1) |>
             else dispatch m (adopt m n).
Proof. reflexivity. Qed.

Lemma adopt_facts m n :
  (adopt m n = n /\ msg_term m <= hs_term (hard_ n)) \/
  (hs_term (hard_ n) < msg_term m /\ config_ (adopt m n) = config_ n /\ out_ (adopt m n) = out_ n /\
   hard_ (adopt m n) = mkHardState (msg_term m) kNoNode /\ hard_state_dirty_ (adopt m n) = true /\
   role_ (adopt m n) = kFollower /\ same_log n (adopt m n)).
Proof.
  unfold adopt. destruct (_ <? _) eqn:E; bool_prop; [right|by left].
  destruct (become_follower_facts (msg_term m)
    (if bool_decide (msg_type m = kAppendEntries) then from m else kNoNode) n)
    as (Ec & Eh & Ed & Er & _ & _ & _ & Eo & El). cbv zeta in *.
  rewrite (proj2 (Z.ltb_lt _ _) E) in Eh, Ed. by split_and!; try apply El.
Qed.

Lemma dispatch_effect m n :
  msg_term m <= hs_term (hard_ n) -> self_voted n -> id (config_ n) <> kNoNode ->
  effect (Some m) n (dispatch m n).
Proof.
  intros Ht Sv Hid. unfold dispatch. destruct (_ <? _) eqn:E; bool_prop.
  - destruct (msg_type m); try apply effect_refl; apply reply_effect; auto.
  - destruct (msg_type m) eqn:Ty.
    + apply handle_request_vote_effect; auto; lia.
    + apply handle_request_vote_response_effect; auto; lia.
    + apply handle_append_entries_effect; lia.
    + apply handle_append_entries_response_effect.
Qed.

Lemma step_effect m n :
  self_voted n -> id (config_ n) <> kNoNode -> effect (Some m) n (step m n).
Proof.
  intros Sv Hid. rewrite step_eq. destruct (lease_refuses m n).
  - apply (effect_same _ _ _ []); [done | cbn; by rewrite app_nil_r | done].
  - destruct (adopt_facts m n) as [[-> Ht] | (Ht & Ec & Eo & Eh & Ed & Er & _)]; [by apply dispatch_effect|].
    revert Ec Eo Eh Ed Er. generalize (adopt m n). intros n1 Ec Eo Eh Ed Er.
    apply (effect_adopted _ _ n1); try done; [by rewrite Eh|].
    apply dispatch_effect; [by rewrite Eh | by intros [] | congruence].
Qed.

(** An effect keeps the self-vote of candidates and leaders. *)
Lemma effect_self_voted om n n' : effect om n n' -> self_voted n -> self_voted n'.
Proof.
  intros [Ec _ _ _ Er] Sv R. inversion Er as [Hh Hr _ |? |? Hh _ _ |? ? ? ? ? Hc Hh _ _]; try congruence.
  - rewrite Hh, Ec. apply Sv. congruence.
  - by rewrite Hh, Ec.
  - rewrite Hh, Ec. apply Sv. congruence.
Qed.
End Facts.
