(* ===== verification/RaftVotes.v ===== *)
(** * Voting and timing of a single node

    The vote rule of [handle_request_vote] in [src/src/raft/node.cpp], and the election
    timer: a node that hears nothing stands for election after the timeout it drew, which
    lies between its configured bounds. *)
From S2P Require Import Prelude Random RaftTypes RaftNode RaftFacts.

Section Votes.
Context {G : Type} `{Random G}.
Implicit Types (n : Node G) (m : Message).

(** The vote the node holds in the term of [m], none if that term is new to it. *)
Definition vote_in_term m n : Z :=
  if hs_term (hard_ n) <? msg_term m then kNoNode else hs_voted_for (hard_ n).

(** Raft §5.2 and §5.4.1. *)
Definition may_grant m n : bool :=
  ((vote_in_term m n =? kNoNode) || (vote_in_term m n =? from m)) &&
  ((last_term_ n <? log_term m) || ((log_term m =? last_term_ n) && (log_end_ n <=? log_index m))).

Lemma up_to_date_spec end_ term n :
  log_is_up_to_date end_ term n =
  (last_term_ n <? term) || ((term =? last_term_ n) && (log_end_ n <=? end_)).
Proof.
  unfold log_is_up_to_date. destruct (term =? last_term_ n) eqn:E; bool_prop; cbn.
  - subst. by rewrite Z.ltb_irrefl.
  - by rewrite orb_false_r.
Qed.

(** [tick] before the timeout only counts. *)
Lemma tick_waits n :
  role_ n <> kLeader -> 0 <= election_elapsed_ n -> election_elapsed_ n + 1 < election_timeout_ n ->
  election_timeout_ n < 2 ^ 32 ->
  tick n = n <| election_elapsed_ := election_elapsed_ n + 1 |>.
Proof.
  intros R H0 H1 H2. unfold tick. rewrite bool_decide_eq_false_2 by done. cbv zeta.
  rewrite wrap_small by (pow2; lia). cbn [election_timeout_ election_elapsed_ set].
  by rewrite (proj2 (Z.leb_gt _ _)) by (cbn; lia).
Qed.

Lemma tick_fires n :
  role_ n <> kLeader -> 0 <= election_elapsed_ n -> election_elapsed_ n + 1 = election_timeout_ n ->
  election_timeout_ n < 2 ^ 32 ->
  tick n = campaign (n <| election_elapsed_ := election_timeout_ n |>).
Proof.
  intros R H0 H1 H2. unfold tick. rewrite bool_decide_eq_false_2 by done. cbv zeta.
  rewrite wrap_small by (pow2; lia). rewrite (proj2 (Z.leb_le _ _)) by (cbn; lia). by rewrite H1.
Qed.

Lemma ticks_fire k : forall n,
  role_ n <> kLeader -> 0 <= election_elapsed_ n -> election_timeout_ n < 2 ^ 32 ->
  election_elapsed_ n + Z.of_nat (S k) = election_timeout_ n ->
  Nat.iter (S k) tick n = campaign (n <| election_elapsed_ := election_timeout_ n |>).
Proof.
  induction k as [|k IH]; intros n R H0 H2 H1.
  - apply tick_fires; auto; lia.
  - rewrite Nat.iter_succ_r, tick_waits by (done || lia).
    rewrite IH; [done | done | cbn; lia | done | cbn; lia].
Qed.

(** The drawn timeout. *)
Lemma reset_bounds `{!RandomOk G} n :
  let cf := config_ n in
  0 <= election_timeout_ticks cf -> 0 <= election_timeout_jitter_ticks cf ->
  election_timeout_ticks cf + election_timeout_jitter_ticks cf < 2 ^ 32 ->
  let n' := reset_election_timer n in
  election_elapsed_ n' = 0 /\ 1 <= election_timeout_ n' /\
  election_timeout_ticks cf <= election_timeout_ n' <=
    Z.max 1 (election_timeout_ticks cf + Z.max 0 (election_timeout_jitter_ticks cf - 1)).
Proof.
  cbv zeta. intros H0 H1 H2. unfold reset_election_timer.
  assert (forall j, 0 <= j <= Z.max 0 (election_timeout_jitter_ticks (config_ n) - 1) ->
    let t := u32 (election_timeout_ticks (config_ n) + j) in
    1 <= (if t =? 0 then 1 else t) /\
    election_timeout_ticks (config_ n) <= (if t =? 0 then 1 else t) <=
      Z.max 1 (election_timeout_ticks (config_ n) + Z.max 0 (election_timeout_jitter_ticks (config_ n) - 1))) as Hj.
  { intros j Hj. cbv zeta. rewrite wrap_small by (pow2; lia).
    destruct (_ =? 0) eqn:E; bool_prop; lia. }
  destruct (election_timeout_jitter_ticks (config_ n) =? 0) eqn:J; bool_prop.
  - cbn. split; [done|]. apply Hj. lia.
  - pose proof (next_below_range (election_timeout_jitter_ticks (config_ n)) (rng_ n) ltac:(pow2; lia)) as Hr.
    destruct (next_below _ (rng_ n)) as [r g]. cbn in Hr |- *. split; [done|]. apply Hj.
    rewrite wrap_small by (pow2; lia). lia.
Qed.
End Votes.

(** ** Properties *)

(** The vote rule.  Unless its lease holds, a node asked for a vote in a term not
    behind its own answers once, in that term, and grants exactly when it has not voted for
    somebody else in it and the candidate's log is at least as current as its own; a vote
    that changes the hard state is owed to the disk before the answer may leave. *)
Theorem vote_rule {G} `{Random G} (m : Message) (n : Node G) :
  msg_type m = kRequestVote -> lease_refuses m n = false -> hs_term (hard_ n) <= msg_term m ->
  from m <> kNoNode ->
  let n' := step m n in
  let grant := may_grant m n in
  hard_ n' = mkHardState (msg_term m) (if grant then from m else vote_in_term m n) /\
  (hard_ n' <> hard_ n -> hard_state_dirty_ n' = true) /\
  exists answer, out_ n' = out_ n ++ [answer] /\ msg_type answer = kRequestVoteResponse /\
    to answer = from m /\ msg_term answer = msg_term m /\ granted answer = grant.
Proof.
  intros Ty Ls Ht Hf. cbv zeta. rewrite step_eq, Ls.
  assert (hard_ (adopt m n) = mkHardState (msg_term m) (vote_in_term m n) /\ out_ (adopt m n) = out_ n /\
    same_log n (adopt m n) /\
    ((hard_ (adopt m n) = hard_ n /\ hard_state_dirty_ (adopt m n) = hard_state_dirty_ n) \/
     hard_state_dirty_ (adopt m n) = true)) as (Eh & Eo & (El & Elt & _) & Ed).
  { unfold vote_in_term. destruct (adopt_facts m n) as [[-> Ht'] | (Ht' & _ & Eo & Eh & Ed & _ & El)].
    - rewrite (proj2 (Z.ltb_ge _ _)) by lia. split_and!; auto; try done. destruct (hard_ n) as [t v]. cbn in *. f_equal. lia.
    - rewrite (proj2 (Z.ltb_lt _ _)) by lia. split_and!; auto; apply El. }
  revert Eh Eo El Elt Ed. generalize (adopt m n). intros n1 Eh Eo El Elt Ed.
  unfold dispatch. rewrite Eh. cbn [hs_term]. rewrite Z.ltb_irrefl, Ty.
  unfold handle_request_vote. cbv zeta. rewrite Eh, up_to_date_spec, El, Elt. cbn [hs_voted_for].
  replace (negb (negb (vote_in_term m n =? kNoNode) && negb (vote_in_term m n =? from m)))
    with ((vote_in_term m n =? kNoNode) || (vote_in_term m n =? from m))
    by (by destruct (vote_in_term m n =? kNoNode), (vote_in_term m n =? from m)).
  fold (may_grant m n). unfold reply. rewrite send_eq.
  assert (hard_state_dirty_ n1 = true \/ hard_ n1 = hard_ n) as Hd by (destruct Ed as [[? _]|]; auto).
  destruct (may_grant m n).
  - destruct (vote_in_term m n =? from m) eqn:V; bool_prop; cbn.
    + split_and!; [by rewrite ?Eh, V | intros; destruct Hd; [done | congruence] |].
      eexists. split_and!; [by rewrite Eo | done | done | by cbn; rewrite ?Eh | done].
    + split_and!; [by rewrite ?Eh | done |]. eexists. split_and!; [by rewrite Eo | done | done | by cbn; rewrite ?Eh | done].
  - cbn. split_and!; [by rewrite ?Eh | intros; destruct Hd; [done | congruence] |].
    eexists. split_and!; [by rewrite Eo | done | done | by cbn; rewrite ?Eh | done].
Qed.

Lemma vote_rule_witness :
  let m := mkMessage kRequestVote 2 0 4 10 3 0 kNoIndex 0 0 false in
  let n := new_node (mkConfig 0 [1; 2] 15 15 5) 3 (mkHardState 3 1) in
  hard_ (step m n) = mkHardState 4 (if may_grant m n then 2 else vote_in_term m n) /\ may_grant m n = true.
Proof.
  intros m n. split; [|vm_compute; reflexivity].
  apply (vote_rule m n); vm_compute; try reflexivity; discriminate.
Defined.

(** C38: Liveness of the election timer.  A node that is not the leader and hears nothing
    after its timer was reset stands for election at a definite tick, no earlier than
    [election_timeout_ticks] and no later than the configured jitter allows. *)
Theorem silence_leads_to_election {G} `{RandomOk G} (n : Node G) :
  role_ n <> kLeader ->
  0 <= election_timeout_ticks (config_ n) -> 0 <= election_timeout_jitter_ticks (config_ n) ->
  election_timeout_ticks (config_ n) + election_timeout_jitter_ticks (config_ n) < 2 ^ 32 ->
  exists k n0,
    Nat.iter k tick (reset_election_timer n) = campaign n0 /\
    hard_ n0 = hard_ n /\ out_ n0 = out_ n /\
    1 <= Z.of_nat k /\ election_timeout_ticks (config_ n) <= Z.of_nat k <=
      Z.max 1 (election_timeout_ticks (config_ n) + Z.max 0 (election_timeout_jitter_ticks (config_ n) - 1)).
Proof.
  intros R H1 H2 H3. destruct (reset_bounds n H1 H2 H3) as (E0 & E1 & E2). cbv zeta in *.
  destruct (reset_election_timer_eq n) as (g & t & E & _). revert E0 E1 E2. rewrite E. clear E.
  set (n1 := _ <| election_timeout_ := t |>). change (election_timeout_ n1) with t. intros E0 E1 E2.
  exists (Z.to_nat t), (n1 <| election_elapsed_ := t |>). split_and!; try done; try lia.
  assert (exists k, Z.to_nat t = S k) as [k Hk] by (exists (pred (Z.to_nat t)); lia). rewrite Hk.
  apply (ticks_fire k n1); [done | done | change (election_timeout_ n1) with t; lia |].
  change (election_timeout_ n1) with t. change (election_elapsed_ n1) with 0. lia.
Qed.

Lemma silence_leads_to_election_witness :
  let n := new_node (mkConfig 0 [1; 2] 15 15 5) 3 (mkHardState 3 1) in
  exists k n0, Nat.iter k tick (reset_election_timer n) = campaign n0 /\ hard_ n0 = hard_ n /\ out_ n0 = out_ n /\
    1 <= Z.of_nat k /\ 15 <= Z.of_nat k <= 29.
Proof.
  intros n. apply (silence_leads_to_election n); vm_compute; try reflexivity; discriminate.
Defined.
