(* ===== verification/RaftLog.v ===== *)
(** * The log as the Raft node sees it

    [raft::Node] holds no entries, only the end of its log and the epoch cache that says
    which term produced which range of indices.  This file gives the log that pair stands
    for, the list of the terms of its entries, and shows that [node.cpp] implements the
    list operations of the Raft paper on it: [term_at] reads it, [log_appended] appends to
    it, an accepted AppendEntries cuts a conflicting tail and appends, and nothing else
    changes it.  It also states what [advance_commit_index] computes. *)
From S2P Require Import Prelude Random RaftTypes RaftNode RaftFacts.

(** ** The abstract log *)

(** The term of the last epoch that starts at or before [i]. *)
Definition term_of (epochs : list Epoch) (i : Z) : Z :=
  foldl (fun acc e => if ep_start e <=? i then ep_term e else acc) kNoTerm epochs.

Definition abs_log {G} (n : Node G) : list Z :=
  (fun i => term_of (epochs_ n) (Z.of_nat i)) <$> seq 0 (Z.to_nat (log_end_ n)).

Definition epoch_before (a b : Epoch) : Prop := ep_start a < ep_start b.

(** The epoch cache of a log that ends at [hi]: ascending starts inside the log, the first
    one at its beginning, no epoch of the absent term. *)
Record epochs_wf (epochs : list Epoch) (hi : Z) : Prop := {
  ew_sorted : StronglySorted epoch_before epochs;
  ew_inside : Forall (fun e => 0 <= ep_start e < hi /\ ep_term e <> kNoTerm) epochs;
  ew_head : 0 < hi -> exists e, head epochs = Some e /\ ep_start e = 0 }.

Record log_wf {G} (n : Node G) : Prop := {
  lw_end : 0 <= log_end_ n <= kNoIndex;
  lw_epochs : epochs_wf (epochs_ n) (log_end_ n);
  lw_last : last_term_ n = default kNoTerm (last (abs_log n)) }.

(** What a message on the wire can carry: 64-bit fields, and entries of a real term. *)
Record message_wf (m : Message) : Prop := {
  mw_index : 0 <= log_index m <= kNoIndex;
  mw_entry : carries_entry m = true ->
    0 <= entry_index m < kNoIndex /\ 0 <= entry_end m <= kNoIndex /\ entry_term m <> kNoTerm }.

(** Raft §5.3: an entry arriving at position [at_] with term [t] and spanning up to
    [reach].  A conflicting tail goes; an entry already held changes nothing. *)
Definition spec_accept (log : list Z) (pos reach t : Z) : list Z :=
  let log := match log !! Z.to_nat pos with
             | Some existing => if existing =? t then log else ztake pos log
             | None => log
             end in
  if zlen log <=? pos then log ++ zrep (Z.max reach (pos + 1) - pos) t else log.

(** The number of members whose log reaches [v]. *)
Definition count_reaching (v : Z) (ends : list Z) : nat := length (filter (fun e => v <= e) ends).

Definition member_ends {G} (n : Node G) : list Z :=
  log_end_ n :: ((fun peer => match_end peer n) <$> peers (config_ n)).

(** ** [term_of] and the epoch cache *)

Lemma term_of_app a b i :
  term_of (a ++ b) i = foldl (fun acc e => if ep_start e <=? i then ep_term e else acc) (term_of a i) b.
Proof. unfold term_of. by rewrite foldl_app. Qed.

Lemma foldl_above (acc i : Z) epochs :
  Forall (fun e => i < ep_start e) epochs ->
  foldl (fun acc e => if ep_start e <=? i then ep_term e else acc) acc epochs = acc.
Proof.
  intros H. revert acc. induction H as [|e es He Hes IH]; intros acc; simpl; [done|].
  rewrite IH. by rewrite (proj2 (Z.leb_gt _ _)).
Qed.

Lemma term_of_prefix a b i : Forall (fun e => i < ep_start e) b -> term_of (a ++ b) i = term_of a i.
Proof. intros. rewrite term_of_app. by apply foldl_above. Qed.

Lemma term_of_high epochs i :
  Forall (fun e => ep_start e <= i) epochs ->
  term_of epochs i = default kNoTerm (ep_term <$> last epochs).
Proof.
  intros H. destruct epochs as [|e es _] using rev_ind; [done|].
  rewrite term_of_app, last_snoc. simpl. apply Forall_app in H as [_ H].
  inversion H; subst. by rewrite (proj2 (Z.leb_le _ _)).
Qed.

Lemma epochs_partitioned epochs i :
  StronglySorted epoch_before epochs -> partitioned (fun e => negb (i <? ep_start e)) epochs.
Proof.
  intros Hs. induction Hs as [|e es Hs IH He]; intros a b x y Hab Hx Hy Hp; [done|].
  destruct a as [|a], b as [|b]; simpl in *; try lia; [congruence| |].
  - injection Hx as <-. assert (epoch_before e y) as L by (eapply Forall_lookup_1; eauto).
    unfold epoch_before in L. bool_prop. apply negb_true_iff, Z.ltb_ge. lia.
  - eapply IH; [|exact Hx|exact Hy|done]. lia.
Qed.

Lemma foldl_prefix_count epochs i : forall acc,
  StronglySorted epoch_before epochs ->
  foldl (fun acc e => if ep_start e <=? i then ep_term e else acc) acc epochs =
  match prefix_count (fun e => negb (i <? ep_start e)) epochs with
  | O => acc
  | S k => ep_term (nth k epochs (mkEpoch kNoTerm 0))
  end.
Proof.
  induction epochs as [|e es IH]; intros acc Hs; [done|].
  inversion Hs as [|? ? Hs' He]; subst. simpl. destruct (i <? ep_start e) eqn:E; bool_prop; simpl.
  - rewrite (proj2 (Z.leb_gt _ _)) by lia. apply foldl_above.
    eapply Forall_impl; [exact He|]. intros x. unfold epoch_before. lia.
  - rewrite (proj2 (Z.leb_le _ _)) by lia. rewrite IH by done. by destruct (prefix_count _ es).
Qed.

Lemma term_at_term_of {G} (n : Node G) i :
  epochs_wf (epochs_ n) (log_end_ n) ->
  term_at i n = if log_end_ n <=? i then kNoTerm else term_of (epochs_ n) i.
Proof.
  intros [Hs _ _]. unfold term_at, epoch_upper_bound. destruct (log_end_ n <=? i); [done|].
  destruct (epochs_ n) as [|e es] eqn:E; [done|]. rewrite orb_false_l. rewrite <- E in *. clear E.
  rewrite partition_point_spec by (by apply epochs_partitioned).
  unfold term_of. by rewrite foldl_prefix_count.
Qed.

Lemma abs_log_lookup {G} (n : Node G) i :
  abs_log n !! i =
  if decide (i < Z.to_nat (log_end_ n))%nat then Some (term_of (epochs_ n) (Z.of_nat i)) else None.
Proof.
  unfold abs_log. rewrite list_lookup_fmap. case_decide.
  - by rewrite lookup_seq_lt by done.
  - rewrite lookup_ge_None_2; [done|]. rewrite length_seq. lia.
Qed.

Lemma zlen_abs_log {G} (n : Node G) : 0 <= log_end_ n -> zlen (abs_log n) = log_end_ n.
Proof. intros. unfold zlen, abs_log. rewrite length_fmap, length_seq. lia. Qed.

Lemma term_at_abs {G} (n : Node G) i :
  log_wf n -> 0 <= i -> term_at i n = default kNoTerm (abs_log n !! Z.to_nat i).
Proof.
  intros [He Hw _] Hi. rewrite term_at_term_of by done. rewrite abs_log_lookup.
  destruct (log_end_ n <=? i) eqn:E; bool_prop; case_decide; try lia; [done|]. simpl. f_equal. lia.
Qed.

Lemma term_of_nonzero epochs hi i :
  epochs_wf epochs hi -> 0 <= i < hi -> term_of epochs i <> kNoTerm.
Proof.
  intros [Hs Hin Hh] Hi. destruct (Hh ltac:(lia)) as (e0 & E0 & S0).
  unfold term_of. rewrite foldl_prefix_count by done.
  destruct epochs as [|e es]; [done|]. simpl in E0. injection E0 as ->.
  destruct (prefix_count _ (e0 :: es)) as [|k] eqn:K.
  - simpl in K. rewrite S0, (proj2 (Z.ltb_ge _ _)) in K by lia. done.
  - pose proof (prefix_count_le (fun e => negb (i <? ep_start e)) (e0 :: es)) as L.
    destruct (nth_lookup_or_length (e0 :: es) k (mkEpoch kNoTerm 0)) as [X|X]; [|lia].
    rewrite Forall_lookup in Hin. by destruct (Hin _ _ X).
Qed.

Lemma abs_log_nonzero {G} (n : Node G) i t :
  log_wf n -> abs_log n !! i = Some t -> t <> kNoTerm.
Proof.
  intros [He Hw _]. rewrite abs_log_lookup. case_decide; [|done]. intros [= <-].
  eapply term_of_nonzero; [exact Hw | lia].
Qed.

(** ** Appending *)

Definition appended_epochs (term start : Z) (epochs : list Epoch) : list Epoch :=
  match last epochs with
  | Some e => if ep_term e =? term then epochs else epochs ++ [mkEpoch term start]
  | None => epochs ++ [mkEpoch term start]
  end.

Lemma append_epoch_eq {G} (n : Node G) term start :
  append_epoch term start n = n <| epochs_ := appended_epochs term start (epochs_ n) |>.
Proof.
  unfold append_epoch, appended_epochs.
  destruct (last (epochs_ n)) as [e|]; [destruct (ep_term e =? term)|]; by destruct n.
Qed.

Lemma epochs_wf_mono epochs hi hi' :
  epochs_wf epochs hi -> hi <= hi' -> (hi = 0 -> hi' = 0) -> 0 <= hi -> epochs_wf epochs hi'.
Proof.
  intros [Hs Hin Hh] Hle Hz H0. split; [done| |].
  - eapply Forall_impl; [exact Hin|]. simpl. intros e. lia.
  - intros. apply Hh. lia.
Qed.

Lemma epochs_sorted_snoc epochs e :
  StronglySorted epoch_before epochs -> Forall (fun x => ep_start x < ep_start e) epochs ->
  StronglySorted epoch_before (epochs ++ [e]).
Proof.
  intros Hs Hf. induction Hs as [|x xs Hs IH Hx]; simpl; [repeat constructor|].
  inversion Hf; subst. constructor; [by apply IH|]. apply Forall_app. split; [done|]. by constructor.
Qed.

Lemma appended_wf epochs hi hi' term :
  epochs_wf epochs hi -> 0 <= hi < hi' -> term <> kNoTerm -> epochs_wf (appended_epochs term hi epochs) hi'.
Proof.
  intros W Hhi Ht. pose proof W as [Hs Hin Hh]. unfold appended_epochs.
  assert (epochs_wf (epochs ++ [mkEpoch term hi]) hi') as Hsnoc.
  { split.
    - apply epochs_sorted_snoc; [done|]. eapply Forall_impl; [exact Hin|]. simpl. lia.
    - apply Forall_app. split; [eapply Forall_impl; [exact Hin|]; simpl; lia|].
      constructor; [simpl; split; [lia | done] | done].
    - intros _. destruct (Z.eq_dec hi 0) as [->|N].
      + destruct epochs as [|e es]; [eexists; split; [done|done]|].
        inversion Hin; subst. lia.
      + destruct (Hh ltac:(lia)) as (e & E & S). exists e. split; [|done]. by destruct epochs. }
  destruct (last epochs) as [e|] eqn:L; [|done]. destruct (ep_term e =? term); [|done].
  apply (epochs_wf_mono _ hi); [done | lia | | lia].
  intros ->. destruct epochs; [done|]. inversion Hin; subst. lia.
Qed.

Lemma term_of_appended epochs hi term i :
  epochs_wf epochs hi ->
  term_of (appended_epochs term hi epochs) i = if hi <=? i then term else term_of epochs i.
Proof.
  intros [Hs Hin Hh]. unfold appended_epochs.
  assert (term_of (epochs ++ [mkEpoch term hi]) i = if hi <=? i then term else term_of epochs i) as Hsnoc.
  { by rewrite term_of_app. }
  destruct (last epochs) as [e|] eqn:L; [|done]. destruct (ep_term e =? term) eqn:E; [|done].
  bool_prop. destruct (hi <=? i) eqn:Hi; [|done]. bool_prop.
  rewrite term_of_high by (eapply Forall_impl; [exact Hin|]; simpl; lia). rewrite L. simpl. lia.
Qed.

Lemma abs_log_ext {G} (n n' : Node G) :
  epochs_ n' = epochs_ n -> log_end_ n' = log_end_ n -> abs_log n' = abs_log n.
Proof. intros E1 E2. unfold abs_log. by rewrite E1, E2. Qed.

(** The effect of an append on the pair (log end, epoch cache). *)
Lemma abs_log_appended {G} (n n' : Node G) term hi' :
  epochs_wf (epochs_ n) (log_end_ n) -> 0 <= log_end_ n < hi' ->
  epochs_ n' = appended_epochs term (log_end_ n) (epochs_ n) -> log_end_ n' = hi' ->
  abs_log n' = abs_log n ++ zrep (hi' - log_end_ n) term.
Proof.
  intros W Hhi E1 E2. apply list_eq. intros i.
  rewrite abs_log_lookup, E1, E2, term_of_appended by done. unfold zrep.
  pose proof (zlen_abs_log n ltac:(lia)) as Hl. unfold zlen in Hl.
  destruct (decide (i < length (abs_log n))%nat) as [Hi|Hi].
  - rewrite lookup_app_l, abs_log_lookup by done.
    rewrite !decide_True by lia. by rewrite (proj2 (Z.leb_gt _ _)) by lia.
  - rewrite lookup_app_r by lia. case_decide.
    + rewrite lookup_replicate_2 by lia. by rewrite (proj2 (Z.leb_le _ _)) by lia.
    + symmetry. apply lookup_ge_None_2. rewrite length_replicate. lia.
Qed.

(** ** Truncating *)

Lemma pop_epochs_spec fuel index : forall epochs,
  (length epochs <= fuel)%nat ->
  exists cut, epochs = pop_epochs fuel index epochs ++ cut /\
    Forall (fun e => index <= ep_start e) cut /\
    (forall e, last (pop_epochs fuel index epochs) = Some e -> ep_start e < index).
Proof.
  induction fuel as [|fuel IH]; intros epochs Hl.
  - destruct epochs; [|simpl in Hl; lia]. by exists [].
  - destruct epochs as [|e es _] using rev_ind; [by exists []|].
    cbn [pop_epochs]. rewrite last_snoc. destruct (index <=? ep_start e) eqn:E; bool_prop.
    + rewrite removelast_last. rewrite length_app in Hl. simpl in Hl.
      destruct (IH es ltac:(lia)) as (cut & Hc & Hf & Hlast). exists (cut ++ [e]).
      split_and!; [by rewrite app_assoc, <- Hc | | done].
      apply Forall_app. split; [done|]. by constructor.
    + exists []. split_and!; [by rewrite app_nil_r | done |].
      intros e'. rewrite last_snoc. intros [= <-]. lia.
Qed.

Lemma sorted_below_last epochs index :
  StronglySorted epoch_before epochs -> (forall e, last epochs = Some e -> ep_start e < index) ->
  Forall (fun e => ep_start e < index) epochs.
Proof.
  intros Hs. induction Hs as [|e es Hs IH He]; intros Hl; [done|].
  destruct es as [|e' es]; [constructor; [by apply Hl | done]|].
  assert (Forall (fun e => ep_start e < index) (e' :: es)) as F by (by apply IH).
  constructor; [|done]. inversion He; inversion F; subst. unfold epoch_before in *. lia.
Qed.

Lemma sorted_app_prefix a b : StronglySorted epoch_before (a ++ b) -> StronglySorted epoch_before a.
Proof.
  induction a as [|x a IH]; intros H; [constructor|]. inversion H as [|? ? H1 H2]; subst.
  constructor; [by apply IH|]. by apply Forall_app in H2 as [? _].
Qed.

Lemma popped_wf epochs hi index :
  epochs_wf epochs hi -> 0 <= index <= hi ->
  let kept := pop_epochs (length epochs) index epochs in
  epochs_wf kept index /\ forall i, i < index -> term_of kept i = term_of epochs i.
Proof.
  intros [Hs Hin Hh] Hi kept.
  destruct (pop_epochs_spec (length epochs) index epochs ltac:(lia)) as (cut & Hc & Hf & Hl).
  fold kept in Hc, Hl. rewrite Hc in Hs, Hin. pose proof (sorted_app_prefix _ _ Hs) as Hs'.
  pose proof (sorted_below_last _ _ Hs' Hl) as Hb. apply Forall_app in Hin as [Hin _]. split.
  - split; [done| |].
    + apply Forall_forall. intros e He. rewrite Forall_forall in Hin, Hb.
      specialize (Hin e He). specialize (Hb e He). simpl in *. lia.
    + intros Hpos. destruct (Hh ltac:(lia)) as (e & E & S). exists e. split; [|done].
      destruct kept as [|k ks]; [|by rewrite Hc in E].
      simpl in Hc. subst cut. destruct epochs as [|x xs]; [done|].
      simpl in E. injection E as ->. inversion Hf; subst. lia.
  - intros i Hlt. rewrite Hc. symmetry. apply term_of_prefix.
    eapply Forall_impl; [exact Hf|]. simpl. lia.
Qed.

Lemma abs_log_truncated {G} (n n' : Node G) index :
  epochs_wf (epochs_ n) (log_end_ n) -> 0 <= index <= log_end_ n ->
  epochs_ n' = pop_epochs (length (epochs_ n)) index (epochs_ n) -> log_end_ n' = index ->
  abs_log n' = ztake index (abs_log n).
Proof.
  intros W Hi E1 E2. destruct (popped_wf _ _ _ W Hi) as [_ Ht].
  unfold abs_log, ztake. rewrite E1, E2, <- fmap_take, take_seq.
  replace (Z.to_nat index `min` _)%nat with (Z.to_nat index) by lia.
  apply list_fmap_ext. intros k j Hj. apply Ht.
  apply lookup_seq in Hj. lia.
Qed.

Lemma last_abs_log {G} (n : Node G) :
  0 <= log_end_ n ->
  default kNoTerm (last (abs_log n)) =
  if log_end_ n =? 0 then kNoTerm else term_of (epochs_ n) (log_end_ n - 1).
Proof.
  intros H. rewrite last_lookup, abs_log_lookup.
  pose proof (zlen_abs_log n H) as L. unfold zlen in L.
  destruct (log_end_ n =? 0) eqn:E; bool_prop.
  - by rewrite decide_False by lia.
  - rewrite decide_True by lia. simpl. f_equal. lia.
Qed.

(** ** Accepting an entry *)

(** The three fields that make the log. *)
Definition log_eq {G} (n n' : Node G) : Prop :=
  log_end_ n' = log_end_ n /\ last_term_ n' = last_term_ n /\ epochs_ n' = epochs_ n.

Lemma log_eq_abs {G} (n n' : Node G) : log_eq n n' -> abs_log n' = abs_log n.
Proof. intros (E1 & _ & E3). by apply abs_log_ext. Qed.

Lemma log_eq_wf {G} (n n' : Node G) : log_eq n n' -> log_wf n -> log_wf n'.
Proof.
  intros E [H1 H2 H3]. pose proof (log_eq_abs _ _ E) as A. destruct E as (E1 & E2 & E3).
  split; rewrite ?A, ?E1, ?E2, ?E3; done.
Qed.

Lemma log_eq_term_at {G} (n n' : Node G) i : log_eq n n' -> term_at i n' = term_at i n.
Proof. intros (E1 & _ & E3). unfold term_at. by rewrite E1, E3. Qed.

Lemma same_log_eq {G} (n n' : Node G) : same_log n n' -> log_eq n n'.
Proof. intros (? & ? & ? & _). done. Qed.

(** The match test of AppendEntries, on the log. *)
Definition spec_matches (log : list Z) (index term : Z) : bool :=
  (index =? kNoIndex) || bool_decide (log !! Z.to_nat index = Some term).

Lemma log_matches_spec {G} (n : Node G) m :
  log_wf n -> 0 <= log_index m -> log_matches m n = spec_matches (abs_log n) (log_index m) (log_term m).
Proof.
  intros W Hi. unfold log_matches, spec_matches. destruct (log_index m =? kNoIndex); [done|].
  rewrite !orb_false_l, term_at_abs, abs_log_lookup by done. pose proof (lw_end _ W).
  destruct (log_index m <? log_end_ n) eqn:E; bool_prop; case_decide; try lia; simpl.
  - case_bool_decide as B.
    + injection B as ->. apply Z.eqb_refl.
    + apply Z.eqb_neq. congruence.
  - done.
Qed.

Lemma append_position_range {G} (n : Node G) m :
  log_wf n -> 0 <= log_index m -> log_matches m n = true -> 0 <= append_position m <= log_end_ n.
Proof.
  intros W Hi Hm. pose proof (lw_end _ W) as He. unfold log_matches in Hm. unfold append_position.
  destruct (log_index m =? kNoIndex) eqn:E; [lia|]. rewrite orb_false_l in Hm. bool_prop.
  unfold kNoIndex in *. rewrite wrap_small by (pow2; lia). lia.
Qed.

(** The assignments [log_appended] begins with. *)
Definition appended_base {G} (p end_ term : Z) (n : Node G) : Node G :=
  append_epoch term p n <| log_end_ := (if p <? end_ then end_ else u64 (p + 1)) |>
    <| last_term_ := term |>.

Lemma appended_base_log {G} (n : Node G) p end_ term :
  p = log_end_ n -> log_wf n -> log_end_ n < kNoIndex -> end_ <= kNoIndex -> term <> kNoTerm ->
  let n' := appended_base p end_ term n in
  log_wf n' /\ abs_log n' = abs_log n ++ zrep (Z.max end_ (p + 1) - p) term.
Proof.
  intros -> W Hfull Hend Ht. pose proof (lw_end _ W) as He. unfold appended_base. cbv zeta.
  rewrite append_epoch_eq.
  set (hi' := if log_end_ n <? end_ then end_ else u64 (log_end_ n + 1)).
  assert (hi' = Z.max end_ (log_end_ n + 1)) as Hhi.
  { unfold hi', kNoIndex in *. destruct (log_end_ n <? end_) eqn:E; bool_prop; [lia|].
    rewrite wrap_small by (pow2; lia). lia. }
  set (n' := _ <| last_term_ := term |>).
  assert (abs_log n' = abs_log n ++ zrep (hi' - log_end_ n) term) as Ha.
  { apply (abs_log_appended n n' term hi'); [apply (lw_epochs _ W) | lia | done | done]. }
  split; [|by rewrite Ha, Hhi]. split; cbn; [unfold kNoIndex in *; lia | |].
  - apply (appended_wf _ (log_end_ n)); [apply (lw_epochs _ W) | lia | done].
  - rewrite Ha, last_app. unfold zrep.
    destruct (Z.to_nat (hi' - log_end_ n)) as [|k] eqn:K; [lia|]. by rewrite replicate_S_end, last_snoc.
Qed.

Lemma log_appended_eq {G} (n : Node G) p end_ term :
  log_appended p end_ term n =
  if bool_decide (role_ n = kLeader) then
    foldl (fun n peer => if next_index peer n =? p then send_append_entries peer n else n)
      (advance_commit_index (appended_base p end_ term n)) (peers (config_ n))
  else appended_base p end_ term n.
Proof.
  unfold log_appended. cbv zeta. fold (appended_base p end_ term n).
  destruct (append_epoch_frame term p n) as [(Ec & _ & _ & Er & _) _].
  destruct (advance_commit_index_eq (appended_base p end_ term n)) as (c & ->).
  assert (role_ (appended_base p end_ term n) = role_ n) as -> by exact Er.
  rewrite <- Ec. by case_bool_decide.
Qed.

(** [log_appended] at the end of the log of a follower. *)
Lemma log_appended_log {G} (n : Node G) p end_ term :
  p = log_end_ n -> role_ n = kFollower -> log_wf n -> log_end_ n < kNoIndex -> end_ <= kNoIndex -> term <> kNoTerm ->
  let n' := log_appended p end_ term n in
  log_wf n' /\ abs_log n' = abs_log n ++ zrep (Z.max end_ (p + 1) - p) term /\
  commit_index_ n' = commit_index_ n /\ pending_truncate_ n' = pending_truncate_ n /\ match_ n' = match_ n.
Proof.
  intros Hp R W Hfull Hend Ht. cbv zeta. rewrite log_appended_eq, bool_decide_eq_false_2 by congruence.
  destruct (appended_base_log n p end_ term Hp W Hfull Hend Ht) as [W' A']. split_and!; [done | done | ..];
    unfold appended_base; by rewrite append_epoch_eq.
Qed.

(** Dropping a conflicting tail. *)
Definition cut_tail {G} (p : Z) (n : Node G) : Node G :=
  refresh_last_term (truncate_epochs_from p (n <| pending_truncate_ := p |>) <| log_end_ := p |>).

Lemma cut_tail_log {G} (n : Node G) p :
  log_wf n -> 0 <= p <= log_end_ n ->
  log_wf (cut_tail p n) /\ abs_log (cut_tail p n) = ztake p (abs_log n) /\
  log_end_ (cut_tail p n) = p /\ role_ (cut_tail p n) = role_ n /\
  commit_index_ (cut_tail p n) = commit_index_ n /\ pending_truncate_ (cut_tail p n) = p /\
  match_ (cut_tail p n) = match_ n.
Proof.
  intros W Hp. pose proof (lw_end _ W). destruct (popped_wf _ _ _ (lw_epochs _ W) Hp) as [Wk _].
  split; [|split; [by apply abs_log_truncated; [apply (lw_epochs _ W)| | |]|done]].
  split; cbn; [lia | done |].
  set (n1 := truncate_epochs_from p (n <| pending_truncate_ := p |>) <| log_end_ := p |>).
  rewrite (abs_log_ext n1 (cut_tail p n)) by done. rewrite last_abs_log by (cbn; lia). cbn.
  destruct (p =? 0) eqn:E; [done|]. bool_prop.
  rewrite (term_at_term_of n1) by done. cbn. rewrite (proj2 (Z.leb_gt _ _)) by lia. done.
Qed.

Lemma accept_entry_log {G} (n : Node G) m :
  role_ n = kFollower -> log_wf n -> log_end_ n < kNoIndex -> message_wf m -> carries_entry m = true ->
  log_matches m n = true ->
  let n' := accept_entry m n in
  log_wf n' /\
  abs_log n' = spec_accept (abs_log n) (append_position m) (entry_reach m) (entry_term m) /\
  commit_index_ n' = commit_index_ n /\
  (pending_truncate_ n' = pending_truncate_ n /\ log_end_ n <= log_end_ n' \/
   pending_truncate_ n' = append_position m).
Proof.
  intros R W Hfull Mw Hc Hm. destruct (mw_entry _ Mw Hc) as (Hi & He & Ht).
  pose proof (append_position_range n m W (proj1 (mw_index _ Mw)) Hm) as Hp.
  set (p := append_position m) in *. pose proof (lw_end _ W) as Hend.
  assert (0 <= entry_reach m <= kNoIndex) as Hr.
  { unfold entry_reach, kNoIndex in *. destruct (_ <? _) eqn:E; bool_prop; [lia|].
    rewrite wrap_small by (pow2; lia). lia. }
  pose proof (zlen_abs_log n ltac:(lia)) as Hlen.
  unfold accept_entry, spec_accept. cbv zeta. fold p. rewrite term_at_abs by (done || lia).
  change (refresh_last_term _) with (cut_tail p n).
  destruct (abs_log n !! Z.to_nat p) as [e|] eqn:L; cbn [from_option]; unfold Datatypes.id.
  - pose proof (abs_log_nonzero n _ e W L) as Hnz. rewrite (proj2 (Z.eqb_neq _ _) Hnz).
    destruct (e =? entry_term m) eqn:E; cbn [negb andb].
    + apply lookup_lt_Some in L. unfold zlen in *.
      rewrite !(proj2 (Z.leb_gt _ _)) by lia. split_and!; auto. left. lia.
    + destruct (cut_tail_log n p W Hp) as (Wc & Ac & Ec & Rc & Cc & Pc & _).
      revert Wc Ac Ec Rc Cc Pc. generalize (cut_tail p n). intros n1 Wc Ac Ec Rc Cc Pc.
      rewrite Ec, Z.leb_refl, zlen_ztake, Hlen.
      rewrite (proj2 (Z.leb_le _ _)) by lia.
      destruct (log_appended_log (n1 <| pending_append_ := true |>) p (entry_reach m) (entry_term m))
        as (W2 & A2 & C2 & P2 & _); try (cbn; congruence || lia || done).
      { by apply (log_eq_wf n1). }
      split_and!; [exact W2 | | exact (eq_trans C2 Cc) | right; exact (eq_trans P2 Pc)].
      rewrite A2. rewrite (log_eq_abs n1) by done. by rewrite Ac.
  - apply lookup_ge_None in L. unfold zlen in Hlen. assert (p = log_end_ n) as Ep by lia.
    rewrite Z.eqb_refl. cbn [negb andb]. unfold zlen. rewrite !(proj2 (Z.leb_le _ _)) by lia.
    destruct (log_appended_log (n <| pending_append_ := true |>) p (entry_reach m) (entry_term m))
      as (W2 & A2 & C2 & P2 & _); try (cbn; congruence || lia || done).
    { by apply (log_eq_wf n). }
    assert (abs_log (n <| pending_append_ := true |>) = abs_log n) as A0 by (by apply log_eq_abs).
    rewrite A0 in A2. split_and!; [exact W2 | exact A2 | exact C2 | left; split; [exact P2|]].
    pose proof (zlen_abs_log _ (proj1 (lw_end _ W2))) as L2. rewrite <- L2, A2, zlen_app.
    unfold zlen in *. lia.
Qed.

(** ** A whole step *)

Section StepLog.
Context {G : Type} `{Random G}.
Implicit Types (n : Node G) (m : Message).

(** The step takes the entry into account. *)
Definition accepts m n : bool :=
  bool_decide (msg_type m = kAppendEntries) && (hs_term (hard_ n) <=? msg_term m) &&
  negb (bool_decide (role_ n = kLeader) && (msg_term m =? hs_term (hard_ n))) &&
  carries_entry m && spec_matches (abs_log n) (log_index m) (log_term m).

Definition spec_step m n : list Z :=
  if accepts m n
  then spec_accept (abs_log n) (append_position m) (entry_reach m) (entry_term m)
  else abs_log n.

Lemma log_eq_refl n : log_eq n n.
Proof. done. Qed.

Lemma log_eq_trans n1 n2 n3 : log_eq n1 n2 -> log_eq n2 n3 -> log_eq n1 n3.
Proof. unfold log_eq. intuition congruence. Qed.

Lemma advance_commit_log n : log_eq n (advance_commit_index n).
Proof. destruct (advance_commit_index_eq n) as (c & ->). done. Qed.

Lemma handle_request_vote_log m n : same_log n (handle_request_vote m n).
Proof.
  unfold handle_request_vote, reply. cbv zeta. rewrite send_eq.
  destruct (_ && log_is_up_to_date _ _ _); [destruct (negb (_ =? from m))|]; done.
Qed.

Lemma handle_request_vote_response_log m n : same_log n (handle_request_vote_response m n).
Proof.
  unfold handle_request_vote_response. destruct (negb _); [done|]. destruct (negb _); [done|]. cbv zeta.
  destruct (_ <=? _); [|done].
  destruct (become_leader_facts (n <| votes_ := votes_ n ∪ {[ from m ]} |>)) as (_ & _ & _ & _ & _ & S & _). exact S.
Qed.

Lemma handle_append_entries_response_log m n :
  log_eq n (handle_append_entries_response m n) /\
  pending_truncate_ (handle_append_entries_response m n) = pending_truncate_ n.
Proof.
  unfold handle_append_entries_response. destruct (negb _); [done|]. destruct (negb _); [done|]. cbv zeta.
  set (c := Z.min _ _). set (n1 := if match_end (from m) n <? c then _ else n).
  assert (log_eq n n1 /\ pending_truncate_ n1 = pending_truncate_ n) as [F1 P1] by (unfold n1; destruct (_ <? _); done).
  revert F1 P1. generalize n1. clear n1. intros n1 F1 P1.
  set (n2 := if next_index (from m) n1 <? c then _ else n1).
  assert (log_eq n1 n2 /\ pending_truncate_ n2 = pending_truncate_ n1) as [F2 P2] by (unfold n2; destruct (_ <? _); done).
  revert F2 P2. generalize n2. clear n2. intros n2 F2 P2. pose proof (advance_commit_log n2) as F3.
  assert (pending_truncate_ (advance_commit_index n2) = pending_truncate_ n2) as P3
    by (destruct (advance_commit_index_eq n2) as (k & ->); done).
  revert F3 P3. generalize (advance_commit_index n2). intros n3 F3 P3.
  assert (log_eq n n3 /\ pending_truncate_ n3 = pending_truncate_ n) as [F P]
    by (split; [eauto using log_eq_trans | congruence]).
  by destruct (_ <? _).
Qed.

(** AppendEntries of the node's own term, for a node that does not lead. *)
Lemma handle_append_entries_log m n :
  role_ n <> kLeader -> msg_term m = hs_term (hard_ n) ->
  log_wf n -> log_end_ n < kNoIndex -> message_wf m ->
  let n' := handle_append_entries m n in
  let take := carries_entry m && spec_matches (abs_log n) (log_index m) (log_term m) in
  log_wf n' /\
  abs_log n' = (if take then spec_accept (abs_log n) (append_position m) (entry_reach m) (entry_term m)
                else abs_log n) /\
  commit_index_ n' =
    (if spec_matches (abs_log n) (log_index m) (log_term m) && (commit_index_ n <? msg_commit_index m)
     then Z.min (msg_commit_index m) (log_end_ n') else commit_index_ n) /\
  (pending_truncate_ n' = pending_truncate_ n /\ log_end_ n <= log_end_ n' \/
   take = true /\ pending_truncate_ n' = append_position m).
Proof.
  intros R Tm W Hfull Mw. unfold handle_append_entries. rewrite bool_decide_eq_false_2 by done. cbv zeta.
  destruct (become_follower_facts (msg_term m) (from m) n) as (_ & _ & _ & Er & _ & _ & _ & _ & El).
  cbv zeta in *. revert Er El. generalize (become_follower (msg_term m) (from m) n). intros n1 Er El.
  pose proof (same_log_eq _ _ El) as Le. destruct El as (E1 & E2 & E3 & Ec & Ep & _).
  pose proof (log_eq_wf _ _ Le W) as W1. rewrite <- (log_eq_abs _ _ Le).
  rewrite <- (log_matches_spec n1 m W1 (proj1 (mw_index _ Mw))).
  destruct (log_matches m n1) eqn:Hm; cbn [negb andb].
  2:{ rewrite andb_false_r. rewrite send_eq. split_and!; [by apply (log_eq_wf n1) | done | exact Ec | left].
      split; [exact Ep | cbn; lia]. }
  rewrite andb_true_r. destruct (carries_entry m) eqn:Hc.
  - destruct (accept_entry_log n1 m Er W1 ltac:(lia) Mw Hc Hm) as (W2 & A2 & C2 & P2). cbv zeta in *.
    revert W2 A2 C2 P2. generalize (accept_entry m n1). intros n2 W2 A2 C2 P2.
    rewrite send_eq. rewrite <- Ec, <- C2. rewrite <- E1, <- Ep. rewrite <- A2.
    destruct (commit_index_ n2 <? msg_commit_index m); cbn;
      (split_and!; [by apply (log_eq_wf n2) | done | done | ]); destruct P2 as [|]; auto.
  - rewrite send_eq, <- Ec, <- E1, <- Ep.
    destruct (commit_index_ n1 <? msg_commit_index m); cbn;
      (split_and!; [by apply (log_eq_wf n1) | done | done | left; split; [done | lia]]).
Qed.

Lemma dispatch_other_log m n :
  msg_type m <> kAppendEntries \/ msg_term m < hs_term (hard_ n) ->
  log_eq n (dispatch m n) /\ pending_truncate_ (dispatch m n) = pending_truncate_ n.
Proof.
  intros Hty. unfold dispatch. destruct (msg_term m <? hs_term (hard_ n)) eqn:E; bool_prop.
  - destruct (msg_type m); done.
  - destruct (msg_type m); [| | destruct Hty; [done|lia] | apply handle_append_entries_response_log].
    + destruct (handle_request_vote_log m n) as (? & ? & ? & _ & ? & _). done.
    + destruct (handle_request_vote_response_log m n) as (? & ? & ? & _ & ? & _). done.
Qed.

Lemma adopt_log m n :
  same_log n (adopt m n) /\ hs_term (hard_ (adopt m n)) = Z.max (hs_term (hard_ n)) (msg_term m) /\
  (role_ (adopt m n) = if hs_term (hard_ n) <? msg_term m then kFollower else role_ n).
Proof.
  destruct (adopt_facts m n) as [[-> Ht] | (Ht & _ & _ & Eh & _ & Er & El)].
  - rewrite (proj2 (Z.ltb_ge _ _)) by lia. split_and!; [done | lia | done].
  - rewrite (proj2 (Z.ltb_lt _ _)) by lia. rewrite Eh. split_and!; [apply El.. | simpl; lia | done].
Qed.

(** The log after a step is the one of the Raft paper, and the epoch cache stays sound. *)
Lemma step_log m n :
  log_wf n -> log_end_ n < kNoIndex -> message_wf m ->
  log_wf (step m n) /\ abs_log (step m n) = spec_step m n.
Proof.
  intros W Hfull Mw. rewrite step_eq. unfold spec_step.
  assert (accepts m n = true -> msg_type m = kAppendEntries /\ hs_term (hard_ n) <= msg_term m /\
    ~ (role_ n = kLeader /\ msg_term m = hs_term (hard_ n))) as Ha.
  { unfold accepts. rewrite !andb_true_iff, negb_true_iff, bool_decide_eq_true, Z.leb_le.
    intros ((((Ty & Tm) & Nl) & _) & _). split_and!; [done | done |].
    intros [R T]. by rewrite T, Z.eqb_refl, bool_decide_eq_true_2 in Nl. }
  destruct (lease_refuses m n) eqn:Ls.
  { split; [by apply (log_eq_wf n)|]. destruct (accepts m n); [|done]. destruct (Ha eq_refl) as [T _].
    unfold lease_refuses in Ls. rewrite T in Ls. done. }
  destruct (adopt_log m n) as (El & Et & Er). pose proof (same_log_eq _ _ El) as Le.
  pose proof (log_eq_wf _ _ Le W) as W1.
  destruct (decide (msg_type m = kAppendEntries /\ hs_term (hard_ n) <= msg_term m)) as [[Ty Tm]|Hno].
  - destruct (decide (role_ (adopt m n) = kLeader)) as [Rl|Rl].
    + assert (accepts m n = false) as ->.
      { destruct (accepts m n); [|done]. destruct (Ha eq_refl) as (_ & _ & N). exfalso. apply N.
        rewrite Er in Rl. destruct (_ <? _) eqn:E; [done|]. bool_prop. split; [done|lia]. }
      unfold dispatch. rewrite (proj2 (Z.ltb_ge _ _)) by lia. rewrite Ty. unfold handle_append_entries.
      rewrite bool_decide_eq_true_2 by done. split; [done | by apply log_eq_abs].
    + assert (accepts m n = carries_entry m && spec_matches (abs_log n) (log_index m) (log_term m)) as ->.
      { unfold accepts. rewrite bool_decide_eq_true_2, (proj2 (Z.leb_le _ _)) by done. cbn.
        rewrite Er in Rl. case_bool_decide as R; [|done]. destruct (_ <? _) eqn:E in Rl; bool_prop; [|congruence].
        by rewrite (proj2 (Z.eqb_neq _ _)) by lia. }
      destruct (handle_append_entries_log m (adopt m n)) as (W2 & A2 & _); try done;
        [lia | destruct El as (-> & _); done |].
      unfold dispatch. rewrite (proj2 (Z.ltb_ge _ _)) by lia. rewrite Ty. split; [done|].
      rewrite A2. by rewrite (log_eq_abs _ _ Le).
  - assert (accepts m n = false) as ->.
    { destruct (accepts m n); [|done]. destruct (Ha eq_refl) as (? & ? & _). exfalso. auto. }
    destruct (dispatch_other_log m (adopt m n)) as [Ld _].
    { destruct (decide (msg_type m = kAppendEntries)); [right; rewrite Et | by left].
      destruct (Z.lt_ge_cases (msg_term m) (hs_term (hard_ n))); [lia | exfalso; auto]. }
    pose proof (log_eq_trans _ _ _ Le Ld) as L. split; [by apply (log_eq_wf n) | by apply log_eq_abs].
Qed.

(** ** The commit index *)

Lemma count_reaching_perm v (a b : list Z) : a ≡ₚ b -> count_reaching v a = count_reaching v b.
Proof. intros E. unfold count_reaching. by rewrite E. Qed.

Lemma count_reaching_le v l : (count_reaching v l <= length l)%nat.
Proof. apply length_filter. Qed.

Lemma count_reaching_app v a b : count_reaching v (a ++ b) = (count_reaching v a + count_reaching v b)%nat.
Proof. unfold count_reaching. by rewrite filter_app, length_app. Qed.

Lemma count_reaching_all v l : Forall (fun e => v <= e) l -> count_reaching v l = length l.
Proof. induction 1 as [|x l Hx F IH]; [done|]. unfold count_reaching in *. rewrite filter_cons_True by done. simpl. lia. Qed.

Lemma count_reaching_none v l : Forall (fun e => e < v) l -> count_reaching v l = O.
Proof. induction 1 as [|x l Hx F IH]; [done|]. unfold count_reaching in *. by rewrite filter_cons_False by lia. Qed.

(** The [q]-th of a descending list is the greatest value that [q] of its elements reach. *)
Lemma descending_quorum l q :
  StronglySorted Z.ge l -> 1 <= q <= zlen l ->
  q <= Z.of_nat (count_reaching (at_ l (q - 1)) l) /\
  forall v, at_ l (q - 1) < v -> Z.of_nat (count_reaching v l) < q.
Proof.
  intros Hs Hq. set (k := Z.to_nat (q - 1)). unfold zlen in Hq.
  assert (is_Some (l !! k)) as [x Hx] by (apply lookup_lt_is_Some; lia).
  assert (at_ l (q - 1) = x) as ->.
  { unfold at_. fold k. by rewrite (nth_lookup_Some _ _ _ _ Hx). }
  rewrite <- (take_drop_middle l k x Hx) in Hs |- *.
  assert (Forall (fun e => x <= e) (take k l) /\ Forall (fun e => e <= x) (drop (S k) l)) as [Ha Hb].
  { revert Hs. generalize (take k l) (drop (S k) l). intros a b Hs. induction a as [|y a IH]; simpl in Hs.
    - inversion Hs as [|? ? _ F]; subst. split; [constructor|]. eapply Forall_impl; [exact F|]. simpl. lia.
    - inversion Hs as [|? ? Hs' F]; subst. destruct (IH Hs') as [H1 H2]. split; [|done].
      constructor; [|done]. apply Forall_app in F as [_ F]. inversion F; subst. lia. }
  assert (length (take k l) = k) as Lk by (rewrite length_take; apply lookup_lt_Some in Hx; lia). split.
  - rewrite count_reaching_app, (count_reaching_all _ (take k l)), Lk by done.
    change (x :: ?r) with ([x] ++ drop (S k) l). rewrite count_reaching_app, (count_reaching_all x [x]) by (by constructor).
    simpl. lia.
  - intros v Hv. rewrite count_reaching_app.
    rewrite (count_reaching_none v (x :: _)) by (constructor; [done|]; eapply Forall_impl; [exact Hb|]; simpl; lia).
    pose proof (count_reaching_le v (take k l)). lia.
Qed.

Lemma quorum_bounds n : 1 <= quorum (config_ n) <= zlen (member_ends n).
Proof.
  unfold quorum, cluster_size, member_ends, zlen. simpl. rewrite length_fmap. dmlia.
Qed.

Lemma advance_commit_spec n :
  exists q,
    quorum (config_ n) <= Z.of_nat (count_reaching q (member_ends n)) /\
    (forall v, q < v -> Z.of_nat (count_reaching v (member_ends n)) < quorum (config_ n)) /\
    commit_index_ (advance_commit_index n) =
      if bool_decide (role_ n = kLeader) && (commit_index_ n <? q) &&
         (term_at (q - 1) n =? hs_term (hard_ n))
      then q else commit_index_ n.
Proof.
  set (sorted := merge_sort Z.ge (member_ends n)).
  assert (sorted ≡ₚ member_ends n) as Hp by apply merge_sort_Permutation.
  assert (StronglySorted Z.ge sorted) as Hs.
  { apply StronglySorted_merge_sort; [intros a b c; lia | intros a b; lia]. }
  exists (at_ sorted (quorum (config_ n) - 1)).
  destruct (descending_quorum sorted (quorum (config_ n)) Hs) as [H1 H2].
  { pose proof (quorum_bounds n). unfold zlen in *. by rewrite Hp. }
  rewrite <- (count_reaching_perm _ _ _ Hp). split_and!; [done | |].
  - intros v Hv. rewrite <- (count_reaching_perm _ _ _ Hp). by apply H2.
  - unfold advance_commit_index. fold (member_ends n). fold sorted. cbv zeta.
    case_bool_decide as R; cbn [negb andb]; [|done].
    destruct (at_ sorted _ <=? commit_index_ n) eqn:E; bool_prop.
    + by rewrite (proj2 (Z.ltb_ge _ _)) by lia.
    + rewrite (proj2 (Z.ltb_lt _ _)) by lia. cbn. by destruct (term_at _ _ =? _).
Qed.

(** ** Appending as the leader *)

Lemma push_out_log (p : Z) ps : forall n,
  let n' := foldl (fun n peer => if next_index peer n =? p then send_append_entries peer n else n) n ps in
  same_log n n' /\ role_ n' = role_ n /\ match_ n' = match_ n.
Proof.
  induction ps as [|q ps IH]; intros n; cbn [foldl]; [done|].
  destruct (_ =? _); [|apply IH]. destruct (IH (send_append_entries q n)) as (S & R & M).
  split_and!; [exact S | exact R | exact M].
Qed.

(** [log_appended] at the end of the log, in any role: the log grows by the entry. *)
Lemma log_appended_any n end_ term :
  log_wf n -> log_end_ n < kNoIndex -> end_ <= kNoIndex -> term <> kNoTerm ->
  let n' := log_appended (log_end_ n) end_ term n in
  log_wf n' /\ abs_log n' = abs_log n ++ zrep (Z.max end_ (log_end_ n + 1) - log_end_ n) term.
Proof.
  intros W Hfull Hend Ht. cbv zeta. rewrite log_appended_eq.
  destruct (appended_base_log n (log_end_ n) end_ term eq_refl W Hfull Hend Ht) as [W' A'].
  revert W' A'. generalize (appended_base (log_end_ n) end_ term n). intros n1 W' A'.
  case_bool_decide; [|done].
  destruct (push_out_log (log_end_ n) (peers (config_ n)) (advance_commit_index n1)) as (S & _).
  pose proof (log_eq_trans _ _ _ (advance_commit_log n1) (same_log_eq _ _ S)) as E.
  split; [by apply (log_eq_wf n1) | by rewrite (log_eq_abs _ _ E)].
Qed.
End StepLog.

(** ** Properties *)

(** C4: The node's compact view of its log refines the log of the Raft paper.  For every
    message, [step] leaves a sound epoch cache, and the terms it stands for are those of the
    specification: unchanged, unless the message is a current AppendEntries that matches and
    carries an entry, and then a conflicting tail is dropped and the entry appended, an entry
    already held changing nothing. *)
Theorem step_log_refines {G} `{Random G} (m : Message) (n : Node G) :
  log_wf n -> log_end_ n < kNoIndex -> message_wf m ->
  log_wf (step m n) /\ abs_log (step m n) = spec_step m n.
Proof. apply step_log. Qed.

(** A follower of term 1 that holds four records of term 1, offered one of term 2 at 3. *)
Definition sample_node : Node Z :=
  log_appended 2 4 1 (log_appended 0 2 1 (new_node (mkConfig 0 [1; 2] 15 15 5) 3 (mkHardState 1 1))).
Definition sample_append : Message :=
  mkMessage kAppendEntries 1 0 2 1 1 0 2 5 2 false.

Lemma sample_wf : log_wf sample_node.
Proof.
  split; [vm_compute; split; discriminate | | vm_compute; reflexivity]. split.
  - vm_compute. repeat constructor.
  - vm_compute. repeat constructor; discriminate.
  - intros _. exists (mkEpoch 1 0). split; reflexivity.
Qed.

Lemma step_log_refines_witness :
  log_wf (step sample_append sample_node) /\
  abs_log (step sample_append sample_node) = spec_step sample_append sample_node /\
  spec_step sample_append sample_node = [1; 1; 2; 2; 2].
Proof.
  assert (message_wf sample_append) as Mw.
  { split; [vm_compute; split; discriminate|]. intros _. vm_compute. repeat split; discriminate. }
  destruct (step_log_refines sample_append sample_node sample_wf ltac:(vm_compute; reflexivity) Mw) as [W A].
  split; [exact W | split; [exact A | vm_compute; reflexivity]].
Defined.

(** Appending, as [Broker::propose] reports it to the node, extends the log by exactly
    the new entry, in any role, and [term_at] reads back every position of the result. *)
Theorem append_extends_log {G} (n : Node G) (end_ term i : Z) :
  log_wf n -> log_end_ n < kNoIndex -> end_ <= kNoIndex -> term <> kNoTerm -> 0 <= i ->
  let n' := log_appended (log_end_ n) end_ term n in
  abs_log n' = abs_log n ++ zrep (Z.max end_ (log_end_ n + 1) - log_end_ n) term /\
  term_at i n' = default kNoTerm (abs_log n' !! Z.to_nat i).
Proof.
  intros W Hf He Ht Hi. destruct (log_appended_any n end_ term W Hf He Ht) as [W' A'].
  split; [done | by apply term_at_abs].
Qed.

Lemma append_extends_log_witness :
  let n' := log_appended (log_end_ sample_node) 7 3 sample_node in
  abs_log n' = abs_log sample_node ++ zrep (Z.max 7 (log_end_ sample_node + 1) - log_end_ sample_node) 3 /\
  term_at 5 n' = default kNoTerm (abs_log n' !! Z.to_nat 5).
Proof.
  apply (append_extends_log sample_node 7 3 5 sample_wf); vm_compute; try reflexivity; discriminate.
Defined.
