(* ===== verification/Cluster.v ===== *)
(** * A cluster of brokers, as seen by the election argument

    A cluster is a map from node ids to members, the messages that were ever handed to the
    network, and the leaders ever announced to the observer.  A member is the process (the
    Raft node, lost in a crash), the durable contents of [raft.state] and the [running_]
    flag of [src/src/server/broker.cpp].  Events are the broker's entry points: [start],
    [on_tick], [receive_raft] and [propose], plus the crash of a process.

    What the machine may do to a broker is part of an event: the results of the storage and
    of the [raft.state] writes, whether a failed write reached the platter all the same, and
    which of the messages really left.  The network keeps every message for ever and
    delivers any of them to its addressee at any time, any number of times, in any order:
    loss, duplication, delay and reordering are all runs of the model. *)
From S2P Require Import Prelude Random RaftTypes RaftNode Base.

Section Cluster.
Context {G : Type} `{Random G}.

Record Member := mkMember {
  raft_ : option (Node G);
  durable : HardState;
  running_ : bool }.

Record Cluster := mkCluster {
  nodes : gmap Z Member;
  net : list Message;
  leaders : list (Z * Z) }.

(** The machine's part in one call of [drive]. *)
Record Env := mkEnv {
  log_result : Result unit;      (* carry_out_log_orders *)
  persist_result : Result unit;  (* persist *)
  landed : bool;                 (* does an unconfirmed raft.state write survive? *)
  sent : list Message }.         (* the messages that left, extents filled in *)

Inductive Event :=
  | Boot (i : Z) (rng : G) (log_end : Z) (epochs : list Epoch)
  | Crash (i : Z)
  | Tick (i : Z) (env : Env)
  | Deliver (i : Z) (m : Message) (env : Env)
  | Propose (i : Z) (index end_ : Z) (env : Env).

(** The early return of [carry_out_log_orders]: without orders it cannot fail. *)
Definition has_log_orders (r : Ready) : bool := negb (truncate_from r =? kNoIndex) || append_entry r.

(** [Broker::drive]: the node left behind, the messages released, the write of the hard
    state that was tried with its result, and whether the broker still runs. *)
Definition drive (env : Env) (n : Node G) (running : bool) :
    Node G * list Message * option (HardState * bool) * bool :=
  let '(ready, n) := take_ready n in
  if ready_empty ready then (n, [], None, running)
  else if has_log_orders ready && negb (ok (log_result env)) then (n, [], None, false)
  else if persist_hard_state ready then
    if negb (ok (persist_result env)) then (n, [], Some (hard_state ready, false), running)
    else (hard_state_persisted n, messages ready, Some (hard_state ready, true), running)
  else (n, messages ready, None, running).

(** [Broker::note_transition]: the leadership it announces. *)
Definition announced (before after : Node G) : list (Z * Z) :=
  if bool_decide (role_ after = role_ before) && (hs_term (hard_ after) =? hs_term (hard_ before))
  then []
  else if bool_decide (role_ after = kLeader) then [(hs_term (hard_ after), id (config_ after))]
  else [].

(** [Broker::send_raft] fills in how far an entry reaches and changes nothing else. *)
Definition extent_of (x y : Message) : bool := bool_decide (y = x <| entry_end := entry_end y |>).

Definition transmits (released sent : list Message) : bool :=
  forallb (fun y => existsb (fun x => extent_of x y) released) sent.

Context (fsync_hard_state : bool).
Context (cfg : Z -> Config).

(** The contents of [raft.state] after a write: a confirmed write is on the platter when it
    was fsynced; any other may or may not have made it. *)
Definition durable_after (env : Env) (d : HardState) (write : option (HardState * bool)) : HardState :=
  match write with
  | None => d
  | Some (h, confirmed) => if (confirmed && fsync_hard_state) || landed env then h else d
  end.

(** Everything that follows the node's reaction: announce, drive, send. *)
Definition settle (c : Cluster) (i : Z) (mb : Member) (before after : Node G) (env : Env) : option Cluster :=
  let '(n, released, write, running) := drive env after (running_ mb) in
  if transmits released (sent env) then
    Some (mkCluster
      (<[i := mkMember (Some n) (durable_after env (durable mb) write) running]> (nodes c))
      (net c ++ sent env) (leaders c ++ announced before after))
  else None.

Definition apply_event (c : Cluster) (e : Event) : option Cluster :=
  match e with
  | Boot i rng log_end epochs =>
      match nodes c !! i with
      | Some mb =>
          match raft_ mb with
          | None =>
              let n := restore_log log_end epochs (new_node (cfg i) rng (durable mb)) in
              Some (mkCluster (<[i := mkMember (Some n) (durable mb) true]> (nodes c)) (net c) (leaders c))
          | Some _ => None
          end
      | None => None
      end
  | Crash i =>
      match nodes c !! i with
      | Some mb => Some (mkCluster (<[i := mkMember None (durable mb) false]> (nodes c)) (net c) (leaders c))
      | None => None
      end
  | Tick i env =>
      match nodes c !! i with
      | Some mb =>
          match raft_ mb with
          | Some n => if running_ mb then settle c i mb n (tick n) env else None
          | None => None
          end
      | None => None
      end
  | Deliver i m env =>
      match nodes c !! i with
      | Some mb =>
          match raft_ mb with
          | Some n =>
              if bool_decide (m ∈ net c) && (to m =? id (config_ n))
              then settle c i mb n (step m n) env else None
          | None => None
          end
      | None => None
      end
  | Propose i index end_ env =>
      match nodes c !! i with
      | Some mb =>
          match raft_ mb with
          | Some n =>
              if running_ mb && bool_decide (role_ n = kLeader)
              then settle c i mb n (log_appended index end_ (hs_term (hard_ n)) n) env else None
          | None => None
          end
      | None => None
      end
  end.

Definition init_cluster (members : list Z) : Cluster :=
  mkCluster (list_to_map ((fun i => (i, mkMember None default_hard_state false)) <$> members)) [] [].

(** Terms are 64-bit counters; the argument is about runs in which none is exhausted. *)
Definition terms_below_max (c : Cluster) : Prop :=
  forall i mb n, nodes c !! i = Some mb -> raft_ mb = Some n -> 0 <= hs_term (hard_ n) < 2 ^ 64 - 1.

Inductive reachable (members : list Z) : Cluster -> Prop :=
  | reach_init : reachable members (init_cluster members)
  | reach_step c e c' :
      reachable members c -> terms_below_max c -> apply_event c e = Some c' -> reachable members c'.

(** A sequence of events, run to the end. *)
Fixpoint run (c : Cluster) (es : list Event) : option Cluster :=
  match es with
  | [] => Some c
  | e :: es' => match apply_event c e with Some c' => run c' es' | None => None end
  end.
End Cluster.

Arguments Member : clear implicits.
Arguments Cluster : clear implicits.
Arguments Event : clear implicits.

(** Every node knows itself, and itself plus its peers are the members. *)
Record membership (members : list Z) (cfg : Z -> Config) : Prop := {
  mem_nodup : NoDup members;
  mem_real : kNoNode ∉ members;
  mem_id : forall i, i ∈ members -> id (cfg i) = i;
  mem_peers : forall i, i ∈ members -> i :: peers (cfg i) ≡ₚ members }.
