(* ===== verification/Scripts.v ===== *)
(** * Scripted runs of a cluster

    A small language for concrete runs of the model of [Cluster.v]: the disks answer, every
    message leaves the broker, entries hold one record, and the log of a broker that boots is
    what it wrote (empty in the scripts below).  The theorems about runs that end badly, and
    the witnesses of those about all runs, are scripts. *)
From S2P Require Import Prelude Random RaftTypes RaftNode Base Cluster.

Section Scripts.
Context {G : Type} `{Random G} (fsync_hard_state : bool) (cfg : Z -> Config).

Inductive Action :=
  | ABoot (i : Z) (rng : G)
  | ACrash (i : Z)
  | ATicks (i : Z) (k : nat)           (* k ticks in a row *)
  | ADeliver (src dst : Z) (type : MessageType)  (* the latest such message *)
  | APropose (i : Z).                  (* one record *)

(** One record per entry. *)
Definition fill (m : Message) : Message :=
  if carries_entry m then m <| entry_end := entry_index m + 1 |> else m.

(** The machine cooperates; a write that was not confirmed is lost in a crash. *)
Definition honest (after : Node G) (running : bool) : Env :=
  let env := mkEnv (Ok tt) (Ok tt) false [] in
  let '(_, released, _, _) := drive env after running in
  mkEnv (Ok tt) (Ok tt) false (fill <$> released).

Definition latest (src dst : Z) (type : MessageType) (msgs : list Message) : option Message :=
  head (filter (fun m => from m = src /\ to m = dst /\ msg_type m = type) (rev msgs)).

(** The events of an action in the current cluster. *)
Definition events_of (c : Cluster G) (a : Action) : list (Event G) :=
  match a with
  | ABoot i rng => [Boot i rng 0 []]
  | ACrash i => [Crash i]
  | ATicks i _ =>
      match nodes c !! i with
      | Some (mkMember (Some n) _ running) => [Tick i (honest (tick n) running)]
      | _ => []
      end
  | ADeliver src dst type =>
      match latest src dst type (net c), nodes c !! dst with
      | Some m, Some (mkMember (Some n) _ running) => [Deliver dst m (honest (step m n) running)]
      | _, _ => []
      end
  | APropose i =>
      match nodes c !! i with
      | Some (mkMember (Some n) _ running) =>
          [Propose i (log_end_ n) (log_end_ n + 1)
             (honest (log_appended (log_end_ n) (log_end_ n + 1) (hs_term (hard_ n)) n) running)]
      | _ => []
      end
  end.

Definition terms_below_max_b (c : Cluster G) : bool :=
  forallb (fun p => match raft_ p.2 with
                    | Some n => (0 <=? hs_term (hard_ n)) && (hs_term (hard_ n) <? 2 ^ 64 - 1)
                    | None => true
                    end) (map_to_list (nodes c)).

Definition perform (c : Cluster G) (a : Action) : option (Cluster G) :=
  if terms_below_max_b c then
    match events_of c a with
    | [e] => apply_event fsync_hard_state cfg c e
    | _ => None
    end
  else None.

Fixpoint perform_times (k : nat) (c : Cluster G) (a : Action) : option (Cluster G) :=
  match k with
  | O => Some c
  | S k' => match perform c a with Some c' => perform_times k' c' a | None => None end
  end.

Fixpoint play (c : Cluster G) (script : list Action) : option (Cluster G) :=
  match script with
  | [] => Some c
  | a :: script' =>
      let k := match a with ATicks _ k => k | _ => 1%nat end in
      match perform_times k c a with Some c' => play c' script' | None => None end
  end.

Lemma terms_below_max_spec c : terms_below_max_b c = true -> terms_below_max c.
Proof.
  unfold terms_below_max_b, terms_below_max. rewrite forallb_forall. intros F i mb n Hi Hn.
  assert (In (i, mb) (map_to_list (nodes c))) as Hin by (by apply list_elem_of_In, elem_of_map_to_list).
  specialize (F _ Hin). cbn in F. rewrite Hn in F. bool_prop. lia.
Qed.

Lemma perform_reachable members c a c' :
  reachable fsync_hard_state cfg members c -> perform c a = Some c' ->
  reachable fsync_hard_state cfg members c'.
Proof.
  unfold perform. intros R. destruct (terms_below_max_b c) eqn:T; [|done].
  destruct (events_of c a) as [|e [|? ?]]; try done. intros He.
  eapply reach_step; [done | by apply terms_below_max_spec | done].
Qed.

Lemma perform_times_reachable members k : forall c a c',
  reachable fsync_hard_state cfg members c -> perform_times k c a = Some c' ->
  reachable fsync_hard_state cfg members c'.
Proof.
  induction k as [|k IH]; intros c a c' R; cbn; [by intros [= <-]|].
  destruct (perform c a) as [c1|] eqn:P; [|done]. apply IH. by eapply perform_reachable.
Qed.

Lemma play_reachable members script : forall c c',
  reachable fsync_hard_state cfg members c -> play c script = Some c' ->
  reachable fsync_hard_state cfg members c'.
Proof.
  induction script as [|a script IH]; intros c c' R; cbn [play]; [by intros [= <-]|].
  destruct (perform_times _ c a) as [c1|] eqn:P; [|done]. apply IH. by eapply perform_times_reachable.
Qed.
End Scripts.

(** Three brokers, with the timeouts of [raft::Config]. *)
Definition cfg3 (i : Z) : Config := mkConfig i (filter (fun j => j <> i) [0; 1; 2]) 15 15 5.
Definition members3 : list Z := [0; 1; 2].

Lemma membership3 : membership members3 cfg3.
Proof.
  split.
  - repeat constructor; rewrite ?elem_of_cons, ?elem_of_nil; lia.
  - unfold members3, kNoNode. rewrite !elem_of_cons, elem_of_nil. lia.
  - done.
  - intros i Hi. unfold members3 in *. rewrite !elem_of_cons, elem_of_nil in Hi.
    destruct Hi as [->|[->|[->|[]]]]; cbn.
    + done. + apply Permutation_swap. + apply (Permutation_cons_append [0; 1] 2).
Qed.

(** Node 0 is elected in term 1 by node 1, and replicates a record to it. *)
Definition elect_zero : list (Action (G := Z)) :=
  [ABoot 0 0; ABoot 1 7; ABoot 2 11;
   ATicks 0 15; ADeliver 0 1 kRequestVote; ADeliver 1 0 kRequestVoteResponse].

Definition start3 : Cluster Z := init_cluster members3.

(** The process of a member, when it is up. *)
Definition process {G} (c : Cluster G) (i : Z) : option (Node G) :=
  match nodes c !! i with Some mb => raft_ mb | None => None end.

(** Node 0 leads term 1; node 1 takes over in term 2 with the vote of node 2. *)
Definition two_terms : list (Action (G := Z)) :=
  elect_zero ++
  [APropose 0; ADeliver 0 1 kAppendEntries; APropose 0;
   ATicks 1 24; ADeliver 1 2 kRequestVote; ADeliver 2 1 kRequestVoteResponse].

Definition after_script (fsync_hard_state : bool) (script : list (Action (G := Z))) : Cluster Z :=
  default start3 (play fsync_hard_state cfg3 start3 script).

Lemma after_script_reachable fsync script :
  match play fsync cfg3 start3 script with Some _ => true | None => false end = true ->
  reachable fsync cfg3 members3 (after_script fsync script).
Proof.
  unfold after_script. destruct (play fsync cfg3 start3 script) as [c|] eqn:P; [|done]. intros _.
  eapply play_reachable; [apply reach_init | exact P].
Qed.
