(* ===== verification/RaftCommit.v ===== *)
(** * The commit index

    What [src/src/raft/node.cpp] guarantees about [commit_index_], and where it stops short.
    A leader commits what a quorum holds and its own term produced.  On every node the
    commit index stays inside the log and never moves back, except when a message makes the
    node drop entries below it.  That exception is reachable: a follower adopts the leader's
    commit index clamped to the end of its own log rather than to the entries the message
    confirmed, so a divergent tail can be taken for committed.  The run that does it is
    replayed here. *)
From S2P Require Import Prelude Random RaftTypes RaftNode Base RaftFacts RaftLog Cluster Scripts.

(** The commit index lies in the log, and a leader's view of its peers does not exceed it. *)
Record commit_wf {G} (n : Node G) : Prop := {
  cw_log : log_wf n;
  cw_commit : 0 <= commit_index_ n <= log_end_ n;
  cw_match : role_ n = kLeader -> forall p v, match_ n !! p = Some v -> v <= log_end_ n }.

Section Commit.
Context {G : Type} `{Random G}.
Implicit Types (n : Node G) (m : Message).

(** The message makes the node replace an entry it considers committed. *)
Definition drops_committed m n : bool :=
  accepts m n && (append_position m <? commit_index_ n) &&
  match abs_log n !! Z.to_nat (append_position m) with
  | Some e => negb (e =? entry_term m)
  | None => false
  end.

Lemma commit_wf_frame n n' :
  commit_wf n -> log_eq n n' -> commit_index_ n' = commit_index_ n ->
  (role_ n' <> kLeader \/ (role_ n' = role_ n /\ match_ n' = match_ n)) -> commit_wf n'.
Proof.
  intros [Hl Hc Hm] E Ec Hr. split; [by apply (log_eq_wf n) | |]; destruct E as (E1 & _); rewrite E1.
  - congruence.
  - intros R p v. destruct Hr as [|[Er Em]]; [done|]. rewrite Em. apply Hm. congruence.
Qed.

Lemma count_reaching_some v l : (0 < count_reaching v l)%nat -> exists e, e ∈ l /\ v <= e.
Proof.
  unfold count_reaching. intros Hc. destruct (filter _ l) as [|e es] eqn:F; [simpl in Hc; lia|].
  exists e. assert (e ∈ filter (fun e => v <= e) l) as Hin by (rewrite F; apply list_elem_of_here).
  apply list_elem_of_filter in Hin. tauto.
Qed.

Lemma advance_commit_wf n :
  commit_wf n -> commit_wf (advance_commit_index n) /\ commit_index_ n <= commit_index_ (advance_commit_index n).
Proof.
  intros W. destruct (advance_commit_spec n) as (q & Hq & _ & E). pose proof (quorum_bounds n).
  destruct (count_reaching_some q (member_ends n) ltac:(lia)) as (e & He & Hqe).
  assert (bool_decide (role_ n = kLeader) = true -> q <= log_end_ n) as Hle.
  { intros R%bool_decide_eq_true. unfold member_ends in He. apply elem_of_cons in He as [->|He]; [lia|].
    apply list_elem_of_fmap in He as (p & -> & _). unfold match_end in Hqe.
    pose proof (cw_commit _ W). destruct (match_ n !! p) as [v|] eqn:M; simpl in Hqe; [|lia].
    pose proof (cw_match _ W R p v M). lia. }
  destruct (advance_commit_index_eq n) as (c & Ea). rewrite Ea in *. cbn in E. subst c.
  pose proof (cw_commit _ W).
  destruct (bool_decide (role_ n = kLeader)) eqn:R; cbn in *; [|split; [by destruct n|lia]].
  specialize (Hle eq_refl).
  destruct (commit_index_ n <? q) eqn:L; cbn; bool_prop; [|split; [by destruct n|lia]].
  destruct (term_at (q - 1) n =? hs_term (hard_ n)); [|split; [by destruct n|lia]].
  split; [|lia]. destruct W as [Wl Wc Wm]. split; [by apply (log_eq_wf n) | cbn; lia | exact Wm].
Qed.

Lemma spec_accept_length log p reach t :
  0 <= p <= zlen log ->
  zlen log <= zlen (spec_accept log p reach t) \/
  (exists e, log !! Z.to_nat p = Some e /\ e <> t /\ p < zlen (spec_accept log p reach t)).
Proof.
  intros Hp. unfold spec_accept. destruct (log !! Z.to_nat p) as [e|] eqn:L.
  - apply lookup_lt_Some in L as Ll. unfold zlen in Hp. destruct (e =? t) eqn:E; bool_prop.
    + left. rewrite (proj2 (Z.leb_gt _ _)) by (unfold zlen; lia). done.
    + right. exists e. split_and!; [done | done |].
      rewrite (proj2 (Z.leb_le _ _)) by (rewrite zlen_ztake; unfold zlen; lia).
      rewrite zlen_app, zlen_ztake, zlen_zrep. unfold zlen in *. lia.
  - left. destruct (_ <=? _); [|done]. rewrite zlen_app. pose proof (zlen_nonneg (zrep (Z.max reach (p + 1) - p) t)). lia.
Qed.

Lemma handle_append_entries_commit m n :
  role_ n <> kLeader -> msg_term m = hs_term (hard_ n) ->
  commit_wf n -> log_end_ n < kNoIndex -> message_wf m ->
  (carries_entry m && spec_matches (abs_log n) (log_index m) (log_term m) = true ->
   append_position m < commit_index_ n ->
   forall e, abs_log n !! Z.to_nat (append_position m) = Some e -> e = entry_term m) ->
  let n' := handle_append_entries m n in commit_wf n' /\ commit_index_ n <= commit_index_ n'.
Proof.
  intros R Tm W Hfull Mw Hno. destruct (handle_append_entries_log m n R Tm (cw_log _ W) Hfull Mw) as (W2 & A2 & C2 & _).
  cbv zeta in *.
  assert (role_ (handle_append_entries m n) = kFollower) as Rf.
  { unfold handle_append_entries. rewrite bool_decide_eq_false_2 by done. cbv zeta.
    destruct (become_follower_facts (msg_term m) (from m) n) as (_ & _ & _ & Er & _).
    revert Er. cbv zeta. generalize (become_follower (msg_term m) (from m) n). intros n1 Er.
    destruct (negb _); [done|]. destruct (carries_entry m).
    - destruct (accept_entry_frame m n1 Er) as [(_ & _ & _ & Er2 & _) _]. revert Er2.
      generalize (accept_entry m n1). intros n2 Er2. rewrite send_eq.
      destruct (commit_index_ n2 <? msg_commit_index m); cbn; congruence.
    - rewrite send_eq. by destruct (commit_index_ n1 <? msg_commit_index m). }
  revert W2 A2 C2 Rf. generalize (handle_append_entries m n). intros n' W2 A2 C2 Rf.
  pose proof (cw_commit _ W) as Hc. pose proof (lw_end _ (cw_log _ W)) as He.
  assert (commit_index_ n <= log_end_ n') as Hle.
  { rewrite <- (zlen_abs_log n' (proj1 (lw_end _ W2))), A2.
    destruct (_ && _) eqn:T in A2 |- *; [|rewrite zlen_abs_log; lia].
    assert (log_matches m n = true) as Hm.
    { rewrite log_matches_spec by (apply W || apply (mw_index _ Mw)). by apply andb_prop in T as [_ ?]. }
    pose proof (append_position_range n m (cw_log _ W) (proj1 (mw_index _ Mw)) Hm) as Hp.
    destruct (spec_accept_length (abs_log n) (append_position m) (entry_reach m) (entry_term m))
      as [L|(e & Le & Ne & L)]; rewrite ?zlen_abs_log in * by lia; [done | lia |].
    destruct (Z.lt_ge_cases (append_position m) (commit_index_ n)) as [Lt|]; [|lia].
    exfalso. apply Ne. by apply Hno. }
  assert (commit_index_ n <= commit_index_ n' <= log_end_ n') as Hres.
  { rewrite C2. destruct (spec_matches _ _ _ && (commit_index_ n <? _)) eqn:E; [|lia].
    apply andb_prop in E as [_ E]. bool_prop. lia. }
  split; [split; [done | lia | congruence] | lia].
Qed.

Lemma handle_append_entries_response_commit m n :
  commit_wf n ->
  let n' := handle_append_entries_response m n in commit_wf n' /\ commit_index_ n <= commit_index_ n'.
Proof.
  intros W. unfold handle_append_entries_response. case_bool_decide as R; cbn [negb]; [|done].
  destruct (granted m); cbn [negb]; cbv zeta; [|split; [by apply (commit_wf_frame n); auto | done]].
  set (c := Z.min _ _). set (n1 := if match_end (from m) n <? c then _ else n).
  assert (commit_wf n1 /\ commit_index_ n1 = commit_index_ n) as [W1 C1].
  { unfold n1. destruct (_ <? _); [|done]. split; [|done]. destruct W as [Wl Wc Wm].
    split; [by apply (log_eq_wf n) | exact Wc |]. cbn. intros _ p v. rewrite lookup_insert.
    case_decide; [intros [= <-]; lia | by apply Wm]. }
  revert W1 C1. generalize n1. clear n1. intros n1 W1 C1.
  set (n2 := if next_index (from m) n1 <? c then _ else n1).
  assert (commit_wf n2 /\ commit_index_ n2 = commit_index_ n1) as [W2 C2].
  { unfold n2. destruct (_ <? _); [|done]. split; [|done]. by apply (commit_wf_frame n1); auto. }
  revert W2 C2. generalize n2. clear n2. intros n2 W2 C2.
  destruct (advance_commit_wf n2 W2) as [W3 C3]. revert W3 C3. generalize (advance_commit_index n2).
  intros n3 W3 C3. destruct (_ <? _); (split; [|cbn; lia]); [by apply (commit_wf_frame n3); auto | done].
Qed.

Lemma handle_request_vote_response_commit m n :
  commit_wf n ->
  let n' := handle_request_vote_response m n in commit_wf n' /\ commit_index_ n' = commit_index_ n.
Proof.
  intros W. unfold handle_request_vote_response. destruct (negb _); [done|]. destruct (negb _); [done|]. cbv zeta.
  destruct (_ <=? _); [|split; [by apply (commit_wf_frame n); auto | done]].
  destruct (become_leader_facts (n <| votes_ := votes_ n ∪ {[ from m ]} |>)) as (_ & _ & _ & _ & _ & S & Z & _).
  cbv zeta in *. revert S Z. generalize (become_leader (n <| votes_ := votes_ n ∪ {[ from m ]} |>)).
  intros n' S Hz. pose proof (same_log_eq _ _ S) as E. destruct S as (E1 & _ & _ & Ec & _). cbn in E1, Ec.
  destruct W as [Wl Wc Wm]. split; [|done].
  split; [apply (log_eq_wf n); [exact E | done] | lia |]. intros _ p v Hv. rewrite (Hz p v Hv). lia.
Qed.

Lemma handle_request_vote_commit m n :
  commit_wf n -> let n' := handle_request_vote m n in commit_wf n' /\ commit_index_ n' = commit_index_ n.
Proof.
  intros W. cbv zeta. pose proof (handle_request_vote_log m n) as S. pose proof (same_log_eq _ _ S) as E.
  destruct S as (_ & _ & _ & Ec & _). split; [|done]. apply (commit_wf_frame n); [done | done | done | right].
  unfold handle_request_vote, reply. cbv zeta. rewrite send_eq.
  destruct (_ && log_is_up_to_date _ _ _); [destruct (negb (_ =? from m))|]; done.
Qed.

Lemma dispatch_commit m n :
  msg_term m <= hs_term (hard_ n) -> commit_wf n -> log_end_ n < kNoIndex -> message_wf m ->
  (msg_type m = kAppendEntries -> role_ n <> kLeader -> msg_term m = hs_term (hard_ n) ->
   carries_entry m && spec_matches (abs_log n) (log_index m) (log_term m) = true ->
   append_position m < commit_index_ n ->
   forall e, abs_log n !! Z.to_nat (append_position m) = Some e -> e = entry_term m) ->
  let n' := dispatch m n in commit_wf n' /\ commit_index_ n <= commit_index_ n'.
Proof.
  intros Ht W Hfull Mw Hno. unfold dispatch. destruct (msg_term m <? hs_term (hard_ n)) eqn:E; bool_prop.
  - destruct (msg_type m); (split; [|done]); try done; by apply (commit_wf_frame n); auto.
  - destruct (msg_type m) eqn:Ty.
    + destruct (handle_request_vote_commit m n W) as [? ->]. done.
    + destruct (handle_request_vote_response_commit m n W) as [? ->]. done.
    + destruct (decide (role_ n = kLeader)) as [R|R].
      * unfold handle_append_entries. by rewrite bool_decide_eq_true_2.
      * assert (msg_term m = hs_term (hard_ n)) by lia. apply handle_append_entries_commit; auto.
    + by apply handle_append_entries_response_commit.
Qed.

Lemma step_commit m n :
  commit_wf n -> log_end_ n < kNoIndex -> message_wf m -> drops_committed m n = false ->
  commit_wf (step m n) /\ commit_index_ n <= commit_index_ (step m n).
Proof.
  intros W Hfull Mw Hd. rewrite step_eq.
  destruct (lease_refuses m n); [split; [by apply (commit_wf_frame n); auto | done]|].
  destruct (adopt_log m n) as (El & Et & Er). pose proof (same_log_eq _ _ El) as Le.
  assert (commit_wf (adopt m n)) as W1.
  { destruct El as (_ & _ & _ & Ec & _). apply (commit_wf_frame n); [done | done | done |].
    rewrite Er. unfold adopt. destruct (_ <? _); [by left | by right]. }
  pose proof (log_eq_abs _ _ Le) as Ea. destruct El as (E1 & _ & _ & Ec & _).
  destruct (dispatch_commit m (adopt m n)) as [W2 C2]; try done; [lia | lia | | by rewrite <- Ec].
  intros Ty R Tm T P e Le'. rewrite Ea, Ec in *. unfold drops_committed in Hd.
  rewrite Le', (proj2 (Z.ltb_lt _ _) P) in Hd.
  assert (accepts m n = true) as A.
  { unfold accepts. rewrite <- !andb_assoc, T, bool_decide_eq_true_2, (proj2 (Z.leb_le _ _)) by (done || lia).
    rewrite Er in R. cbn. destruct (hs_term (hard_ n) <? msg_term m) eqn:L; bool_prop.
    - by rewrite (proj2 (Z.eqb_neq _ _)), andb_false_r by lia.
    - by rewrite bool_decide_eq_false_2. }
  rewrite A in Hd. cbn in Hd. bool_prop. done.
Qed.
End Commit.

(** ** Properties *)

(** C10: What a leader commits.  [advance_commit_index] finds the greatest index [q] that a
    quorum of the members, itself included, is known to have reached, and moves the commit
    index there exactly when that is forward and the entry below [q] is of the leader's own
    term (Raft 5.4.2); nothing else of the node changes. *)
Theorem leader_commit_rule {G} (n : Node G) :
  exists q,
    quorum (config_ n) <= Z.of_nat (count_reaching q (member_ends n)) /\
    (forall v, q < v -> Z.of_nat (count_reaching v (member_ends n)) < quorum (config_ n)) /\
    advance_commit_index n = n <| commit_index_ :=
      if bool_decide (role_ n = kLeader) && (commit_index_ n <? q) &&
         (term_at (q - 1) n =? hs_term (hard_ n))
      then q else commit_index_ n |>.
Proof.
  destruct (advance_commit_spec n) as (q & H1 & H2 & H3). exists q. split_and!; [done | done |].
  rewrite <- H3. destruct (advance_commit_index_eq n) as (c & ->). done.
Qed.

(** C25: The commit index lies inside the log and never moves back, whatever message
    arrives, as long as the message does not make the node replace an entry below it. *)
Theorem commit_monotone {G} `{Random G} (m : Message) (n : Node G) :
  commit_wf n -> log_end_ n < kNoIndex -> message_wf m -> drops_committed m n = false ->
  commit_wf (step m n) /\ commit_index_ n <= commit_index_ (step m n).
Proof. apply step_commit. Qed.

Lemma commit_monotone_witness :
  let n := sample_node <| commit_index_ := 2 |> in
  commit_wf (step sample_append n) /\ commit_index_ n <= commit_index_ (step sample_append n).
Proof.
  intros n. apply (commit_monotone sample_append n).
  - split; [apply (log_eq_wf sample_node); [done | apply sample_wf] | vm_compute; split; discriminate |].
    intros R. vm_compute in R. discriminate.
  - vm_compute. reflexivity.
  - split; [vm_compute; split; discriminate|]. intros _. vm_compute. repeat split; discriminate.
  - vm_compute. reflexivity.
Defined.

(** Node 0 leads term 1 and keeps a record of its own at index 1.  Node 1 takes over in term
    2 and commits another record at index 1 with node 2, which leads term 3 and brings node 0
    up to date, starting from the beginning of the epoch they disagree about. *)
Definition divergence : list (Action (G := Z)) :=
  two_terms ++
  [ADeliver 1 2 kAppendEntries; ADeliver 2 1 kAppendEntriesResponse;
   ADeliver 1 2 kAppendEntries; ADeliver 2 1 kAppendEntriesResponse;
   APropose 1; ADeliver 1 2 kAppendEntries; ADeliver 2 1 kAppendEntriesResponse;
   ATicks 1 5; ADeliver 1 2 kAppendEntries;
   ATicks 2 16; ADeliver 2 1 kRequestVote; ADeliver 1 2 kRequestVoteResponse;
   ADeliver 2 0 kAppendEntries; ADeliver 0 2 kAppendEntriesResponse; ADeliver 2 0 kAppendEntries].

(** Two nodes hold different entries at an index both have committed. *)
Definition committed_disagreement {G} (c : Cluster G) (a b i : Z) : bool :=
  match process c a, process c b with
  | Some x, Some y =>
      (i <? commit_index_ x) && (i <? commit_index_ y) && negb (term_at i x =? term_at i y)
  | _, _ => false
  end.

(** Every broker boots once, with nothing on its disk, and none of them crashes. *)
Definition booted {G} (a : Action (G := G)) : option Z := match a with ABoot i _ => Some i | _ => None end.
Definition is_crash {G} (a : Action (G := G)) : bool := match a with ACrash _ => true | _ => false end.
Definition faultless {G} (members : list Z) (script : list (Action (G := G))) : bool :=
  bool_decide (omap booted script = members) && forallb (fun a => negb (is_crash a)) script.

(** C17: The follower's commit rule is unsafe.  The run of [divergence] is faultless: three
    brokers boot once each, none crashes, every log operation and every write of the hard
    state succeeds, hard states are fsynced.  At its end node 0 and node 2 have committed
    different entries at index 1, and once the next answer is delivered a message is in flight
    that makes node 0 replace an entry it has committed. *)
Theorem follower_commit_diverges :
  faultless members3 divergence = true /\
  exists c c' n m, play true cfg3 start3 divergence = Some c /\ reachable true cfg3 members3 c /\
    committed_disagreement c 0 2 1 = true /\
    play true cfg3 c [ADeliver 0 2 kAppendEntriesResponse] = Some c' /\
    process c' 0 = Some n /\ m ∈ net c' /\ to m = 0 /\ drops_committed m n = true.
Proof.
  split; [vm_compute; reflexivity|]. exists (after_script true divergence).
  set (c' := default start3 (play true cfg3 (after_script true divergence) [ADeliver 0 2 kAppendEntriesResponse])).
  exists c', (default (new_node (cfg3 0) 0 default_hard_state) (process c' 0)),
    (default default_message (latest 2 0 kAppendEntries (net c'))).
  split_and!; [vm_compute; reflexivity | | vm_compute; reflexivity.. | | vm_compute; reflexivity | vm_compute; reflexivity].
  - apply after_script_reachable. vm_compute. reflexivity.
  - apply list_elem_of_In. vm_compute. tauto.
Qed.
