(* ===== verification/Election.v ===== *)
(** * Election safety

    At most one leader per term (I6), for every run of [Cluster.v]: any number of crashes
    and restarts, any loss, duplication and reordering of messages, any failing disk, as long
    as a confirmed write of [raft.state] survives.  The argument is the quorum one, carried
    by the votes that reached the platter: every message that counts was sent after the hard
    state it relies on was durable, which is what [Broker::drive] is written to guarantee.

    The same model run without the fsync elects two leaders in one term. *)
From S2P Require Import Prelude Random RaftTypes RaftNode Base RaftFacts Cluster Scripts.

#[local] Set Default Proof Using "Type*".

Section Election.
Context {G : Type} `{Random G}.
Context (members : list Z) (cfg : Z -> Config) (Hmem : membership members cfg).
Implicit Types (c : Cluster G) (n : Node G) (m x : Message) (hist : gmap (Z * Z) Z) (i j l T v : Z).

Definition cluster_quorum : Z := zlen members / 2 + 1.

Lemma quorum_cfg i : i ∈ members -> quorum (cfg i) = cluster_quorum.
Proof.
  intros Hi. unfold quorum, cluster_size, cluster_quorum, zlen.
  pose proof (Permutation_length (mem_peers _ _ Hmem i Hi)) as L. simpl in L.
  do 2 f_equal. lia.
Qed.

Lemma peers_other i p : i ∈ members -> p ∈ peers (cfg i) -> p <> i.
Proof.
  intros Hi Hp ->. pose proof (mem_nodup _ _ Hmem) as N. rewrite <- (mem_peers _ _ Hmem i Hi) in N.
  by inversion N.
Qed.

(** ** The durable votes *)

(** [hist] is the history of [raft.state] of every node: which candidate it recorded in
    which term. *)
Definition hist_matches hist i (d : HardState) : Prop :=
  (forall T, hs_term d < T -> hist !! (i, T) = None) /\
  hist !! (i, hs_term d) = if hs_voted_for d =? kNoNode then None else Some (hs_voted_for d).

Definition record_vote hist i (h : HardState) : gmap (Z * Z) Z :=
  if hs_voted_for h =? kNoNode then hist else <[(i, hs_term h) := hs_voted_for h]> hist.

Lemma record_vote_grows hist i d h :
  hist_matches hist i d -> hs_le d h -> hist ⊆ record_vote hist i h.
Proof.
  intros [Hgt Heq] Hle. unfold record_vote. destruct (hs_voted_for h =? kNoNode) eqn:E; [done|]. bool_prop.
  destruct Hle as [Hlt|[Ht [Hv|Hv]]].
  - apply insert_subseteq. auto.
  - apply insert_subseteq. rewrite <- Ht, Heq, Hv. done.
  - rewrite insert_id; [done|]. rewrite <- Ht, Heq, Hv. by rewrite (proj2 (Z.eqb_neq _ _)).
Qed.

Lemma record_vote_matches hist i d h :
  hist_matches hist i d -> hs_le d h -> hist_matches (record_vote hist i h) i h.
Proof.
  intros [Hgt Heq] Hle. unfold record_vote, hist_matches.
  destruct (hs_voted_for h =? kNoNode) eqn:E; bool_prop.
  - destruct Hle as [Hlt|[Ht Hv]]; [split; intros; apply Hgt; lia|].
    rewrite <- Ht. split; [done|]. rewrite Heq, (proj2 (Z.eqb_eq _ _)); [done|]. by destruct Hv; congruence.
  - split.
    + intros T HT. rewrite lookup_insert_ne by (intros [=]; lia). apply Hgt.
      destruct Hle as [|[? _]]; lia.
    + by rewrite lookup_insert_eq.
Qed.

Lemma record_vote_other hist i j h d :
  i <> j -> hist_matches hist j d -> hist_matches (record_vote hist i h) j d.
Proof.
  intros Hij [Hgt Heq]. unfold record_vote. destruct (hs_voted_for h =? kNoNode); [exact (conj Hgt Heq)|].
  split; intros; rewrite lookup_insert_ne by congruence; auto.
Qed.

(** ** The invariant *)

Record node_inv c hist (i : Z) (d : HardState) n : Prop := {
  ni_config : config_ n = cfg i;
  ni_term : 0 <= hs_term (hard_ n);
  ni_durable : hs_le d (hard_ n);
  ni_clean : hard_state_dirty_ n = false -> hard_ n = d;
  ni_self : self_voted n;
  ni_out : out_ n = [];
  ni_votes : role_ n = kCandidate -> forall v, v ∈ votes_ n ->
    v ∈ members /\
    (v <> i -> hist !! (v, hs_term (hard_ n)) = Some i /\ hist !! (i, hs_term (hard_ n)) = Some i);
  ni_leader : role_ n = kLeader -> (hs_term (hard_ n), i) ∈ leaders c }.

Definition elected hist (T l : Z) : Prop :=
  l ∈ members /\
  (cluster_quorum <= 1 \/
   exists Q : gset Z, Q ⊆ list_to_set members /\ cluster_quorum <= Z.of_nat (size Q) /\
     forall v, v ∈ Q -> hist !! (v, T) = Some l).

Definition net_ok c hist m : Prop :=
  from m ∈ members /\ to m <> from m /\
  match msg_type m with
  | kRequestVote => hist !! (from m, msg_term m) = Some (from m)
  | kRequestVoteResponse => granted m = true ->
      hist !! (from m, msg_term m) = Some (to m) /\ hist !! (to m, msg_term m) = Some (to m)
  | kAppendEntries => (msg_term m, from m) ∈ leaders c
  | kAppendEntriesResponse => True
  end.

Record Inv c hist : Prop := {
  inv_member : forall i mb, nodes c !! i = Some mb -> i ∈ members;
  inv_durable : forall i mb, nodes c !! i = Some mb ->
    0 <= hs_term (durable mb) /\ hist_matches hist i (durable mb);
  inv_node : forall i mb n, nodes c !! i = Some mb -> raft_ mb = Some n -> node_inv c hist i (durable mb) n;
  inv_leaders : forall T l, (T, l) ∈ leaders c -> elected hist T l;
  inv_net : forall m, m ∈ net c -> net_ok c hist m }.

(** What is recorded stays recorded. *)
Lemma elected_mono hist hist' T l : hist ⊆ hist' -> elected hist T l -> elected hist' T l.
Proof.
  intros S [Hl [Hq|(Q & H1 & H2 & H3)]]; split; auto. right. exists Q. split_and!; auto.
  intros v Hv. eapply lookup_weaken; eauto.
Qed.

Lemma net_ok_mono c c' hist hist' m :
  hist ⊆ hist' -> leaders c ⊆ leaders c' -> net_ok c hist m -> net_ok c' hist' m.
Proof.
  intros S L (Hf & Ht & Hm). split_and!; [done | done |]. destruct (msg_type m).
  - by eapply lookup_weaken.
  - intros Gr. destruct (Hm Gr). split; by eapply lookup_weaken.
  - by apply L.
  - done.
Qed.

Lemma node_inv_mono c c' hist hist' i d n :
  hist ⊆ hist' -> leaders c ⊆ leaders c' -> node_inv c hist i d n -> node_inv c' hist' i d n.
Proof.
  intros S L [? ? ? ? ? ? Hv Hl]. split; auto.
  intros R v Hin. destruct (Hv R v Hin) as [Hm Hh]. split; [done|]. intros Hne.
  destruct (Hh Hne). split; by eapply lookup_weaken.
Qed.

(** ** One reaction of one node *)

(** The transition of the node, relative to the leaders it may announce. *)
Lemma effect_node_inv om c hist i d n n' ldrs :
  i ∈ members ->
  node_inv c hist i d n -> effect om n n' ->
  (forall m, om = Some m -> net_ok c hist m /\ to m = i) ->
  leaders c ++ announced n n' = ldrs ->
  (role_ n' = kCandidate -> forall v, v ∈ votes_ n' ->
     v ∈ members /\
     (v <> i -> hist !! (v, hs_term (hard_ n')) = Some i /\ hist !! (i, hs_term (hard_ n')) = Some i)) /\
  (role_ n' = kLeader -> (hs_term (hard_ n'), i) ∈ ldrs) /\
  (forall T l, (T, l) ∈ announced n n' -> elected hist T l).
Proof.
  intros Hi N E Hom <-. pose proof (ni_config _ _ _ _ _ N) as Nc.
  pose proof (ef_config _ _ _ E) as Ec.
  assert (Hid : id (config_ n') = i) by (rewrite Ec, Nc; by apply (mem_id _ _ Hmem)).
  assert (Hq : quorum (config_ n) = cluster_quorum) by (rewrite Nc; by apply quorum_cfg).
  assert (forall T l, (T, l) ∈ announced n n' -> role_ n' = kLeader /\ T = hs_term (hard_ n') /\ l = i /\
            ~ (role_ n' = role_ n /\ hs_term (hard_ n') = hs_term (hard_ n))) as Ann.
  { intros T l. unfold announced. case_bool_decide as R1; destruct (_ =? _) eqn:R2; bool_prop; cbn;
      try (intros X; apply elem_of_nil in X; done);
      (case_bool_decide as R3; [|intros X; by apply elem_of_nil in X]);
      rewrite list_elem_of_singleton; intros [= -> ->]; rewrite Hid; split_and!; auto; intros [? ?]; congruence. }
  assert (role_ n' = kLeader -> ~ (role_ n' = role_ n /\ hs_term (hard_ n') = hs_term (hard_ n)) ->
          (hs_term (hard_ n'), i) ∈ announced n n') as Ann2.
  { intros R D. unfold announced. rewrite (bool_decide_eq_true_2 (role_ n' = kLeader)) by done. rewrite Hid.
    case_bool_decide as R1; destruct (_ =? _) eqn:R2; bool_prop; cbn; try (by apply list_elem_of_singleton).
    exfalso. auto. }
  destruct (ef_role _ _ _ E) as [Hh Hr Hv | Hr | _ Hh Hv Hr | m Hm Ty Gr Tm Rc Hh Hv Hr].
  - split_and!.
    + intros R v Hin. rewrite Hh. apply (ni_votes _ _ _ _ _ N); congruence.
    + intros R. apply elem_of_app. left. rewrite Hh. apply (ni_leader _ _ _ _ _ N). congruence.
    + intros T l Hin. destruct (Ann T l Hin) as (_ & _ & _ & D). exfalso. apply D. rewrite Hh. auto.
  - split_and!; [congruence | congruence |]. intros T l Hin. destruct (Ann T l Hin) as (R & _). congruence.
  - split_and!.
    + intros R v Hin. rewrite Hv in Hin. apply elem_of_singleton in Hin. rewrite <- Ec, Hid in Hin. subst v.
      split; [done | by intros []].
    + intros R. apply elem_of_app. right. apply Ann2; [done|]. rewrite Hh. simpl. intros [_ ?]. lia.
    + intros T l Hin. destruct (Ann T l Hin) as (R & -> & -> & _). split; [done|]. left.
      destruct Hr as [|[_ ?]]; [congruence|]. lia.
  - destruct (Hom m Hm) as [(Hf & Hne & Hnet) Hto]. rewrite Ty in Hnet. destruct (Hnet Gr) as [Hh1 Hh2].
    rewrite Hto, Tm in Hh1, Hh2.
    assert (forall v, v ∈ votes_ n' -> v ∈ members /\
      (v <> i -> hist !! (v, hs_term (hard_ n')) = Some i /\ hist !! (i, hs_term (hard_ n')) = Some i)) as Hvotes.
    { intros v Hin. rewrite Hh. rewrite Hv in Hin. apply elem_of_union in Hin as [Hin|Hin].
      - by apply (ni_votes _ _ _ _ _ N).
      - apply elem_of_singleton in Hin as ->. auto. }
    split_and!; [by intros _ | |].
    + intros R. apply elem_of_app. right. apply Ann2; [done|]. intros [? _]. congruence.
    + intros T l Hin. destruct (Ann T l Hin) as (R & -> & -> & _). split; [done|]. right.
      exists (votes_ n'). split_and!.
      * intros v Hin'. apply elem_of_list_to_set. by apply Hvotes.
      * destruct Hr as [|[_ ?]]; [congruence | lia].
      * intros v Hin'. destruct (decide (v = i)) as [->|Hvi]; [by rewrite Hh | by apply Hvotes].
Qed.

(** ** Driving the node: persist, then send *)

Lemma drive_cases env n running n' released write running' :
  drive env n running = (n', released, write, running') ->
  (config_ n' = config_ n /\ hard_ n' = hard_ n /\ role_ n' = role_ n /\ votes_ n' = votes_ n /\
   out_ n' = []) /\
  ((released = [] /\ write = None /\ hard_state_dirty_ n' = hard_state_dirty_ n) \/
   (released = [] /\ write = Some (hard_ n, false) /\ hard_state_dirty_ n' = true) \/
   (released = out_ n /\ write = Some (hard_ n, true) /\ hard_state_dirty_ n' = false) \/
   (released = out_ n /\ write = None /\ hard_state_dirty_ n = false /\ hard_state_dirty_ n' = false)).
Proof.
  unfold drive, take_ready. destruct (ready_empty _); [intros [= <- <- <- <-]; by split; [|left]|].
  destruct (has_log_orders _ && _); [intros [= <- <- <- <-]; by split; [|left]|].
  cbn. destruct (hard_state_dirty_ n) eqn:D.
  - destruct (negb _); intros [= <- <- <- <-]; (split; [done|]); right; [left|right; left]; done.
  - intros [= <- <- <- <-]. split; [done|]. right; right; right. done.
Qed.

Lemma transmits_from released sent y :
  transmits released sent = true -> y ∈ sent ->
  exists x, x ∈ released /\ y = x <| entry_end := entry_end y |>.
Proof.
  unfold transmits. rewrite forallb_forall. intros F Hy%list_elem_of_In.
  specialize (F y Hy). apply existsb_exists in F as (x & Hx & E). exists x.
  split; [by apply list_elem_of_In|]. unfold extent_of in E. by apply bool_decide_eq_true in E.
Qed.

(** A message released once the hard state it speaks of is durable. *)
Lemma released_ok om c c' hist hist' i n' x y :
  i ∈ members -> id (config_ n') = i -> config_ n' = cfg i ->
  hist ⊆ hist' -> hist_matches hist' i (hard_ n') ->
  (forall m, om = Some m -> net_ok c hist m /\ to m = i) ->
  (role_ n' = kLeader -> (hs_term (hard_ n'), i) ∈ leaders c') ->
  sent_ok om n' x -> y = x <| entry_end := entry_end y |> -> net_ok c' hist' y.
Proof.
  intros Hi Hid Hc Hsub [_ Hrec] Hom Hl (Sf & St & Sto & Sx) ->. unfold net_ok; cbn.
  assert (forall v, hs_voted_for (hard_ n') = v -> v ∈ members -> hist' !! (i, hs_term (hard_ n')) = Some v) as Hvote.
  { intros v Hv Hvm. rewrite Hrec, Hv, (proj2 (Z.eqb_neq _ _)); [done|].
    intros ->. by apply (mem_real _ _ Hmem). }
  rewrite Sf, St, Hid in *. split_and!; [done | |].
  - destruct Sto as [Hp | (m & Hm & ->)].
    + rewrite Hc in Hp. by apply peers_other.
    + destruct (Hom m Hm) as [(_ & Hne & _) Hto]. congruence.
  - destruct (msg_type x); [by apply Hvote | | by apply Hl | done].
    intros Gr. destruct (Sx Gr) as [Hv (m & Hm & Ty & Hf & Ht)].
    destruct (Hom m Hm) as [(Hfm & _ & Hreq) _]. rewrite Ty, Hf, Ht in Hreq. rewrite Hf in Hfm.
    split; [by apply Hvote | by eapply lookup_weaken].
Qed.

(** One member, the network and the leaders move on; the recorded votes grow. *)
Lemma update_inv c hist hist' i mb mb' msgs new :
  Inv c hist -> nodes c !! i = Some mb -> hist ⊆ hist' ->
  (0 <= hs_term (durable mb') /\ hist_matches hist' i (durable mb')) ->
  (forall j d, i <> j -> hist_matches hist j d -> hist_matches hist' j d) ->
  let c' := mkCluster (<[i := mb']> (nodes c)) (net c ++ msgs) (leaders c ++ new) in
  (forall n, raft_ mb' = Some n -> node_inv c' hist' i (durable mb') n) ->
  (forall T l, (T, l) ∈ new -> elected hist' T l) ->
  (forall m, m ∈ msgs -> net_ok c' hist' m) ->
  Inv c' hist'.
Proof.
  intros I Hmb Hsub Hdur Hother c' Hnode Hnew Hmsgs.
  assert (leaders c ⊆ leaders c') as Hls by (intros x; cbn; rewrite elem_of_app; auto).
  assert (forall j k, nodes c' !! j = Some k -> (j = i /\ k = mb') \/ (i <> j /\ nodes c !! j = Some k)) as Hl.
  { intros j k. cbn. destruct (decide (i = j)) as [<-|Hij].
    - rewrite lookup_insert_eq. intros [= <-]. auto.
    - rewrite lookup_insert_ne by done. auto. }
  split.
  - intros j k Hj. destruct (Hl j k Hj) as [[-> ->]|[_ Hj']]; by eapply (inv_member _ _ I).
  - intros j k Hj. destruct (Hl j k Hj) as [[-> ->]|[Hij Hj']]; [done|].
    destruct (inv_durable _ _ I j k Hj'). split; [done | by apply Hother].
  - intros j k n Hj Hk. destruct (Hl j k Hj) as [[-> ->]|[Hij Hj']]; [by apply Hnode|].
    eapply node_inv_mono; [done | exact Hls | by eapply (inv_node _ _ I)].
  - intros T l Hin. apply elem_of_app in Hin as [Hin|Hin]; [|by apply Hnew].
    eapply elected_mono; [done | by apply (inv_leaders _ _ I)].
  - intros m Hin. apply elem_of_app in Hin as [Hin|Hin]; [|by apply Hmsgs].
    eapply net_ok_mono; [done | exact Hls | by apply (inv_net _ _ I)].
Qed.

(** What the platter holds after a drive: the state it held or the node's, the node's
    whenever nothing is owed, and the node's whenever a message is released. *)
Lemma drive_durable om c hist i d n n' env running n2 released write running' :
  node_inv c hist i d n -> effect om n n' ->
  drive env n' running = (n2, released, write, running') ->
  let d' := durable_after true env d write in
  hs_le d d' /\ hs_le d' (hard_ n') /\
  (hard_state_dirty_ n2 = false -> d' = hard_ n') /\
  (forall x, x ∈ released -> x ∈ out_ n' /\ d' = hard_ n').
Proof.
  intros N E D d'. destruct (drive_cases _ _ _ _ _ _ _ D) as [_ Dcases].
  assert (hs_le d (hard_ n')) as Hle
    by (eapply hs_le_trans; [apply (ni_durable _ _ _ _ _ N) | apply (ef_hard _ _ _ E)]).
  assert (hard_state_dirty_ n' = false -> d = hard_ n') as Hcl.
  { intros Dn. destruct (ef_dirty _ _ _ E) as [[Eh Ed]|]; [|congruence]. rewrite Eh.
    symmetry. apply (ni_clean _ _ _ _ _ N). congruence. }
  unfold d', durable_after.
  destruct Dcases as [(-> & -> & X)|[(-> & -> & X)|[(-> & -> & X)|(-> & -> & X & Y)]]]; cbn.
  - split_and!; [apply hs_le_refl | done | intros; apply Hcl; congruence |].
    intros x Hx. by apply elem_of_nil in Hx.
  - split_and!; [destruct (landed env); auto using hs_le_refl .. | congruence |].
    intros x Hx. by apply elem_of_nil in Hx.
  - split_and!; auto using hs_le_refl.
  - split_and!; auto using hs_le_refl.
Qed.

Lemma settle_inv om c c' hist i mb n n' env :
  Inv c hist -> nodes c !! i = Some mb -> raft_ mb = Some n ->
  effect om n n' ->
  (forall m, om = Some m -> m ∈ net c /\ to m = i) ->
  settle true c i mb n n' env = Some c' -> exists hist', Inv c' hist'.
Proof.
  intros I Hmb Hn E Hom Hset. pose proof (inv_member _ _ I i mb Hmb) as Hi.
  destruct (inv_durable _ _ I i mb Hmb) as [Hd0 Hdm]. pose proof (inv_node _ _ I i mb n Hmb Hn) as N.
  unfold settle in Hset. destruct (drive env n' (running_ mb)) as [[[n2 released] write] running'] eqn:D.
  destruct (transmits released (sent env)) eqn:T; [|done]. injection Hset as <-.
  destruct (drive_cases _ _ _ _ _ _ _ D) as [(Dc & Dh & Dr & Dv & Do) _].
  destruct (drive_durable _ _ _ _ _ _ _ _ _ _ _ _ _ N E D) as (Hle1 & Hle2 & Hclean & Hrel).
  set (d' := durable_after true env (durable mb) write) in *.
  set (hist' := record_vote hist i d'). exists hist'.
  pose proof (record_vote_grows hist i _ _ Hdm Hle1) as Hsub. fold hist' in Hsub.
  pose proof (record_vote_matches hist i _ _ Hdm Hle1) as Hmatch. fold hist' in Hmatch.
  assert (forall m, om = Some m -> net_ok c hist m /\ to m = i) as Hom'.
  { intros m Hm. destruct (Hom m Hm). split; [by apply (inv_net _ _ I) | done]. }
  destruct (effect_node_inv om c hist i (durable mb) n n' _ Hi N E Hom' eq_refl) as (Fv & Fl & Fa).
  pose proof (ef_config _ _ _ E) as Ec. pose proof (ni_config _ _ _ _ _ N) as Nc.
  apply (update_inv c hist hist' i mb (mkMember (Some n2) d' running')); try done; cbn.
  - split; [destruct Hle1 as [|[? _]]; lia | done].
  - intros j d Hij Hm. by apply record_vote_other.
  - intros k [= <-]. split; rewrite ?Dh, ?Dr, ?Dc, ?Dv; auto.
    + congruence.
    + pose proof (ni_term _ _ _ _ _ N). destruct (ef_hard _ _ _ E) as [|[? _]]; lia.
    + intros. by rewrite Hclean.
    + pose proof (effect_self_voted _ _ _ E (ni_self _ _ _ _ _ N)) as Sv. unfold self_voted in *.
      by rewrite Dh, Dr, Dc.
    + intros R v Hin. destruct (Fv R v Hin) as [? Hh]. split; [done|]. intros Hne.
      destruct (Hh Hne). split; by eapply lookup_weaken.
  - intros T' l Hin. eapply elected_mono; [exact Hsub|]. by apply Fa.
  - intros y Hin. destruct (transmits_from _ _ _ T Hin) as (x & Hx & Hy).
    destruct (ef_sent _ _ _ E) as (new & Hnew & Hok). rewrite (ni_out _ _ _ _ _ N) in Hnew. cbn in Hnew.
    destruct (Hrel x Hx) as [Hxn Hdn]. rewrite Hnew in Hxn. rewrite Forall_forall in Hok.
    eapply (released_ok om c _ hist hist' i n' x y); try done.
    + rewrite Ec, Nc. by apply (mem_id _ _ Hmem).
    + congruence.
    + by rewrite <- Hdn.
    + by apply Hok.
Qed.

Lemma boot_facts rng d le eps (cf : Config) :
  let n := restore_log le eps (new_node cf rng d) in
  config_ n = cf /\ hard_ n = d /\ hard_state_dirty_ n = false /\ role_ n = kFollower /\ out_ n = [].
Proof.
  unfold new_node.
  match goal with |- context [reset_election_timer ?k] =>
    destruct (reset_election_timer_eq k) as (g & t & E & _); rewrite E end.
  unfold restore_log. cbv zeta. destruct (_ <? _); done.
Qed.

(** Replacing one process without touching the disk, the network or the leaders. *)
Lemma replace_inv c hist i mb mb' :
  Inv c hist -> nodes c !! i = Some mb -> durable mb' = durable mb ->
  (forall n, raft_ mb' = Some n -> node_inv c hist i (durable mb) n) ->
  Inv (mkCluster (<[i := mb']> (nodes c)) (net c) (leaders c)) hist.
Proof.
  intros I Hmb Hd Hn.
  replace (net c) with (net c ++ []) by apply app_nil_r.
  replace (leaders c) with (leaders c ++ []) by apply app_nil_r.
  eapply update_inv; try done; try rewrite Hd.
  - by eapply (inv_durable _ _ I).
  - intros n Hr. eapply node_inv_mono; [done | | by apply Hn]. cbn. by rewrite app_nil_r.
  - intros T l Hin. by apply elem_of_nil in Hin.
  - intros m Hin. by apply elem_of_nil in Hin.
Qed.

Lemma event_inv c e c' hist :
  Inv c hist -> terms_below_max c -> apply_event true cfg c e = Some c' -> exists hist', Inv c' hist'.
Proof.
  intros I Hmax He. destruct e as [i rng le eps | i | i env | i m env | i idx end_ env]; cbn [apply_event] in He;
    destruct (nodes c !! i) as [mb|] eqn:Hmb; try done.
  - destruct (raft_ mb) eqn:Hr; [done|]. injection He as <-. exists hist. eapply replace_inv; [done.. |].
    cbn. intros n [= <-].
    destruct (boot_facts rng (durable mb) le eps (cfg i)) as (Bc & Bh & Bd & Br & Bo). cbv zeta in *.
    revert Bc Bh Bd Br Bo. generalize (restore_log le eps (new_node (cfg i) rng (durable mb))). intros n Bc Bh Bd Br Bo.
    destruct (inv_durable _ _ I i mb Hmb). split; try congruence.
    rewrite Bh. apply hs_le_refl.
  - injection He as <-. exists hist. by eapply replace_inv.
  - destruct (raft_ mb) as [n|] eqn:Hr; [|done]. destruct (running_ mb); [|done].
    eapply (settle_inv None); try done. apply tick_effect. by eapply Hmax.
  - destruct (raft_ mb) as [n|] eqn:Hr; [|done].
    destruct (bool_decide (m ∈ net c) && (to m =? id (config_ n))) eqn:Hg; [|done].
    apply andb_prop in Hg as [Hin%bool_decide_eq_true Hto%Z.eqb_eq].
    pose proof (inv_node _ _ I i mb n Hmb Hr) as N. pose proof (inv_member _ _ I i mb Hmb) as Hi.
    assert (id (config_ n) = i) as Hid by (rewrite (ni_config _ _ _ _ _ N); by apply (mem_id _ _ Hmem)).
    eapply (settle_inv (Some m)); try done.
    + apply step_effect; [apply (ni_self _ _ _ _ _ N)|]. rewrite Hid. intros ->. by apply (mem_real _ _ Hmem).
    + intros m' [= <-]. split; [done | congruence].
  - destruct (raft_ mb) as [n|] eqn:Hr; [|done]. destruct (running_ mb && _); [|done].
    eapply (settle_inv None); try done. apply log_appended_effect.
Qed.

Lemma init_inv : Inv (init_cluster members) ∅.
Proof.
  assert (forall i mb, nodes (init_cluster (G := G) members) !! i = Some mb ->
    i ∈ members /\ mb = mkMember None default_hard_state false) as Hn.
  { intros i mb Hl. unfold init_cluster in Hl. cbn in Hl. apply elem_of_list_to_map_2 in Hl.
    apply list_elem_of_fmap in Hl as (j & [= -> ->] & Hj). done. }
  split.
  - intros i mb Hl. by apply Hn in Hl as [? _].
  - intros i mb Hl. apply Hn in Hl as [_ ->]. cbn. split; [done|]. split; intros; by rewrite lookup_empty.
  - intros i mb n Hl. apply Hn in Hl as [_ ->]. done.
  - intros T l Hl. by apply elem_of_nil in Hl.
  - intros m Hl. by apply elem_of_nil in Hl.
Qed.

Lemma reachable_inv c : reachable true cfg members c -> exists hist, Inv c hist.
Proof.
  induction 1 as [|c e c' Hr [hist IH] Hmax He]; [exists ∅; apply init_inv|]. by eapply event_inv.
Qed.

(** ** Quorums meet *)

Lemma quorums_meet (Q1 Q2 : gset Z) :
  Q1 ⊆ list_to_set members -> Q2 ⊆ list_to_set members ->
  cluster_quorum <= Z.of_nat (size Q1) -> cluster_quorum <= Z.of_nat (size Q2) ->
  exists v, v ∈ Q1 /\ v ∈ Q2.
Proof.
  intros S1 S2 H1 H2. destruct (decide (Q1 ## Q2)) as [Hd|Hd].
  - exfalso. assert (size (Q1 ∪ Q2) <= length members)%nat as Hs.
    { transitivity (size (list_to_set members : gset Z)); [apply subseteq_size; set_solver|].
      rewrite size_list_to_set; [done | apply (mem_nodup _ _ Hmem)]. }
    rewrite size_union in Hs by done. unfold cluster_quorum, zlen in *. dmlia.
  - assert (~ (Q1 ∩ Q2 ≡ ∅)) as Hne by set_solver. apply set_choose in Hne as [v Hv]. exists v. set_solver.
Qed.

Lemma elected_unique hist T l1 l2 : elected hist T l1 -> elected hist T l2 -> l1 = l2.
Proof.
  intros [M1 E1] [M2 E2].
  assert (cluster_quorum <= 1 -> l1 = l2) as Hone.
  { unfold cluster_quorum, zlen. intros Hq. destruct members as [|a [|b ms]]; [by apply elem_of_nil in M1 | |].
    - apply list_elem_of_singleton in M1, M2. congruence.
    - simpl in Hq. dmlia. }
  destruct E1 as [|(Q1 & S1 & Z1 & V1)]; [auto|]. destruct E2 as [|(Q2 & S2 & Z2 & V2)]; [auto|].
  destruct (quorums_meet Q1 Q2 S1 S2 Z1 Z2) as (v & Hv1 & Hv2).
  specialize (V1 v Hv1). specialize (V2 v Hv2). congruence.
Qed.
End Election.

(** ** Properties *)

(** C1: Election safety (I6).  In every run of a cluster whose [raft.state] writes are
    fsynced, across crashes, restarts, disk failures and any network, no two nodes are ever
    announced leader of the same term. *)
Theorem election_safety {G} `{Random G} (members : list Z) (cfg : Z -> Config) (c : Cluster G)
    (T a b : Z) :
  membership members cfg -> reachable true cfg members c ->
  (T, a) ∈ leaders c -> (T, b) ∈ leaders c -> a = b.
Proof.
  intros Hm Hr Ha Hb. destruct (reachable_inv members cfg Hm c Hr) as [hist I].
  eapply (elected_unique members cfg Hm hist T); by apply (inv_leaders _ _ _ _ I).
Qed.

Lemma election_safety_witness :
  leaders (after_script true two_terms) = [(1, 0); (2, 1)] /\
  forall b, (2, b) ∈ leaders (after_script true two_terms) -> 1 = b.
Proof.
  split; [vm_compute; reflexivity|]. intros b Hb.
  apply (election_safety members3 cfg3 (after_script true two_terms) 2 1 b membership3); [| |exact Hb].
  - apply after_script_reachable. vm_compute. reflexivity.
  - apply list_elem_of_In. vm_compute. tauto.
Defined.

(** Persist, then send (§13).  A granted vote that ever reached the network is on the
    voter's platter: its durable state is of a later term, or records that very vote.  So a
    crash cannot make a voter vote twice. *)
Theorem vote_durable_before_sent {G} `{Random G} (members : list Z) (cfg : Z -> Config) (c : Cluster G)
    (m : Message) (mb : Member G) :
  membership members cfg -> reachable true cfg members c ->
  m ∈ net c -> msg_type m = kRequestVoteResponse -> granted m = true ->
  nodes c !! from m = Some mb ->
  msg_term m < hs_term (durable mb) \/ durable mb = mkHardState (msg_term m) (to m).
Proof.
  intros Hm Hr Hin Ty Gr Hmb. destruct (reachable_inv members cfg Hm c Hr) as [hist I].
  destruct (inv_net _ _ _ _ I m Hin) as (_ & _ & Hn). rewrite Ty in Hn. destruct (Hn Gr) as [Hh _].
  destruct (inv_durable _ _ _ _ I _ _ Hmb) as [_ [Hgt Heq]].
  destruct (Z.lt_total (msg_term m) (hs_term (durable mb))) as [|[E|L]]; [by left | right | ].
  - rewrite E, Heq in Hh. destruct (_ =? _) eqn:V; [done|]. destruct (durable mb) as [t v]. cbn in *. congruence.
  - rewrite Hgt in Hh by done. done.
Qed.

Lemma vote_durable_before_sent_witness :
  exists m mb, m ∈ net (after_script true two_terms) /\
    nodes (after_script true two_terms) !! from m = Some mb /\
    (msg_term m < hs_term (durable mb) \/ durable mb = mkHardState (msg_term m) (to m)).
Proof.
  set (m := default default_message (latest 2 1 kRequestVoteResponse (net (after_script true two_terms)))).
  set (mb := default (mkMember None default_hard_state false) (nodes (after_script true two_terms) !! 2)).
  assert (m ∈ net (after_script true two_terms)) as Hin by (apply list_elem_of_In; vm_compute; tauto).
  assert (nodes (after_script true two_terms) !! from m = Some mb) as Hmb by (vm_compute; reflexivity).
  exists m, mb. split; [exact Hin|]. split; [exact Hmb|].
  apply (vote_durable_before_sent members3 cfg3 (after_script true two_terms) m mb membership3);
    [apply after_script_reachable; vm_compute; reflexivity | exact Hin | vm_compute; reflexivity
    | vm_compute; reflexivity | exact Hmb].
Defined.

(** The branch of [handle_append_entries] for a leader that hears from another leader
    of its own term is dead code: no message of the network can take it. *)
Theorem two_leaders_branch_dead {G} `{Random G} (members : list Z) (cfg : Z -> Config) (c : Cluster G)
    (i : Z) (n : Node G) (m : Message) :
  membership members cfg -> reachable true cfg members c ->
  process c i = Some n -> role_ n = kLeader ->
  m ∈ net c -> to m = i -> msg_type m = kAppendEntries -> msg_term m <> hs_term (hard_ n).
Proof.
  intros Hm Hr Hp Hrole Hin Hto Ty E. destruct (reachable_inv members cfg Hm c Hr) as [hist I].
  unfold process in Hp. destruct (nodes c !! i) as [mb|] eqn:Hmb; [|done].
  pose proof (ni_leader _ _ _ _ _ _ _ (inv_node _ _ _ _ I i mb n Hmb Hp) Hrole) as Hl.
  destruct (inv_net _ _ _ _ I m Hin) as (_ & Hne & Hn). rewrite Ty, E in Hn. apply Hne. rewrite Hto.
  eapply (elected_unique members cfg Hm hist); by apply (inv_leaders _ _ _ _ I).
Qed.

Lemma two_leaders_branch_dead_witness :
  match process (after_script true two_terms) 0,
        latest 1 0 kAppendEntries (net (after_script true two_terms)) with
  | Some n, Some m => msg_term m <> hs_term (hard_ n)
  | _, _ => False
  end.
Proof.
  destruct (process (after_script true two_terms) 0) as [n|] eqn:P; [|vm_compute in P; discriminate].
  destruct (latest 1 0 kAppendEntries (net (after_script true two_terms))) as [m|] eqn:L;
    [|vm_compute in L; discriminate].
  apply (two_leaders_branch_dead members3 cfg3 (after_script true two_terms) 0 n m membership3).
  - apply after_script_reachable. vm_compute. reflexivity.
  - exact P.
  - vm_compute in P. injection P as <-. reflexivity.
  - vm_compute in L. injection L as <-. apply list_elem_of_In. vm_compute. tauto.
  - vm_compute in L. injection L as <-. reflexivity.
  - vm_compute in L. injection L as <-. reflexivity.
Defined.

(** A voter that forgets: node 2 votes for node 0 in term 1, loses power, and votes for
    node 1 in term 1. *)
Definition amnesia : list (Action (G := Z)) :=
  [ABoot 0 0; ABoot 1 7; ABoot 2 11;
   ATicks 0 15; ADeliver 0 2 kRequestVote; ADeliver 2 0 kRequestVoteResponse;
   ACrash 2; ABoot 2 20;
   ATicks 1 22; ADeliver 1 2 kRequestVote; ADeliver 2 1 kRequestVoteResponse].

(** The fsync that [fsync_hard_state] turns off is what election safety rests on: with
    it off, a run with one power loss elects two leaders in one term. *)
Theorem no_fsync_two_leaders :
  exists c : Cluster Z,
    reachable false cfg3 members3 c /\ (1, 0) ∈ leaders c /\ (1, 1) ∈ leaders c.
Proof.
  exists (after_script false amnesia). split_and!.
  - apply after_script_reachable. vm_compute. reflexivity.
  - apply list_elem_of_In. vm_compute. tauto.
  - apply list_elem_of_In. vm_compute. tauto.
Qed.
