(* ===== verification/Network.v ===== *)
(** * The network behind the io seam

    Models [src/src/io/network.h].  The abstract class [io::Network] is the typeclass
    [Network.t] over a machine state [N]: every call returns its result and the state it
    leaves, and a read into a caller's buffer returns the bytes it copied.  A handler is a
    value of a type [H]; [poll], which runs handlers, acts on the world the network is part
    of and is not a member of the class.  [Network.laws] is what the broker relies on to
    come back from its loops. *)
From S2P Require Import Prelude Base Disk.

Definition kInvalidConn : Z := 2 ^ 64 - 1.

Module Interest.

Inductive t := kNone | kRead | kWrite | kReadWrite.

#[global] Instance t_eq_dec : EqDecision t.
Proof. solve_decision. Defined.

End Interest.

Definition wants_read (i : Interest.t) : bool :=
  match i with Interest.kRead | Interest.kReadWrite => true | _ => false end.
Definition wants_write (i : Interest.t) : bool :=
  match i with Interest.kWrite | Interest.kReadWrite => true | _ => false end.

(** The members of [ConnHandler]. *)
Inductive Upcall := on_readable | on_writable | on_hangup.

Module Network.

(** [io::Network].  [read conn n] reads into a buffer of [n] bytes. *)
Class t (N H : Type) := {
  listen : Z -> Z -> N -> Result Z * N;
  local_port : Z -> N -> Result Z * N;
  accept : Z -> N -> Result Z * N;
  connect : chars -> Z -> N -> Result Z * N;
  read : Z -> Z -> N -> Result (list Z) * N;
  write : Z -> list Z -> N -> Result Z * N;
  close : Z -> N -> N;
  watch : Z -> Interest.t -> option H -> N -> N }.

(** A write takes no more than it was given, and a read returns no more than was asked for. *)
Class laws (N H : Type) `{t N H} : Prop := {
  write_law c data n r n' : write c data n = (Ok r, n') -> 0 <= r <= zlen data;
  read_law c k n bs n' : 0 <= k -> read c k n = (Ok bs, n') -> zlen bs <= k }.

End Network.
