(* ===== verification/Broker.v ===== *)
(** * The broker

    Models [src/src/server/broker.h]/[broker.cpp] in full: the object with its log, its Raft
    node, its vote file and its connections, over any disk, network and event loop behind
    the io seam.

    A [World] is the broker and what it holds references to.  The observer is a function on
    the world, called where the code calls it; [observer_] says whether there is one.  The
    closure that [schedule_tick] hands to the event loop is the value [tick_task], the
    [this] that it registers with the network is [self].  The generator behind [rng_] is
    shared with the Raft node, which draws from it.  The loops over a connection's
    input run on fuel, since nothing but the network ends them: [None] is running out of
    it.  Counters are not wrapped.

    [~Broker] closes the vote file before the members go, the log among them. *)
From S2P Require Import Prelude Base Random Wire RecordBatch SparseIndex Disk Segment Log Network.
From S2P Require Import RaftTypes RaftCodec RaftNode StateFile.

(** [runtime::EventLoop], as far as the broker uses it. *)
Class Timers (L T : Type) := add_timer_after : Z -> T -> L -> L.

(** The members of [BrokerObserver]. *)
Inductive Observation :=
  | on_log_recovered (next_offset bytes_truncated : Z)
  | on_raft_recovered (term voted_for : Z)
  | on_appended (base count : Z)
  | on_fsynced (end_ : Z)
  | on_replicated (end_ : Z)
  | on_truncated (from : Z)
  | on_committed (from to : Z)
  | on_campaign (term : Z)
  | on_vote (term candidate : Z)
  | on_became_leader (term log_end : Z)
  | on_stepped_down (term leader : Z)
  | on_hard_state_persisted (term voted_for : Z)
  | on_protocol_error (what : string) (a b : Z).

Module Broker.

Record Peer := mkPeer { peer_host : chars; peer_port : Z; peer_id : Z }.

Record BrokerConfig := mkConfig {
  id : Z;
  data_dir : chars;
  port : Z;
  peers : list Peer;
  tick_interval : Z;
  election_timeout_ticks : Z;
  election_timeout_jitter_ticks : Z;
  heartbeat_timeout_ticks : Z;
  segment_max_bytes : Z;
  fsync_hard_state : bool;
  ack_on_local_append : bool }.

Record Stream := mkStream { in_ : Buffer.t; out : Buffer.t; outgoing : bool }.

#[global] Instance Stream_eta : Settable Stream := fun s => mkStream (in_ s) (out s) (outgoing s).

Definition new_stream : Stream := mkStream Buffer.empty_buffer Buffer.empty_buffer false.

Definition kStateFileName : chars := lit "raft.state".
Definition kEntryScratchBytes : Z := 64 * 1024.
Definition kReadChunk : Z := 4096.

Section Object.
Context {G : Type} {RG : Random G}.

Record t := mk {
  config_ : BrokerConfig;
  observer_ : bool;
  log_ : option Log.t;
  raft_ : option (Node G);
  state_file_ : Z;
  state_sequence_ : Z;
  last_commit_seen_ : Z;
  listener_ : Z;
  streams_ : gmap Z Stream;
  peer_conns_ : list Z;
  next_correlation_ : Z;
  ticks_ : Z;
  appends_ : Z;
  raft_sent_ : Z;
  raft_received_ : Z;
  hard_state_writes_ : Z;
  running_ : bool }.

#[global] Instance Broker_eta : Settable t := fun b =>
  mk (config_ b) (observer_ b) (log_ b) (raft_ b) (state_file_ b) (state_sequence_ b) (last_commit_seen_ b)
    (listener_ b) (streams_ b) (peer_conns_ b) (next_correlation_ b) (ticks_ b) (appends_ b) (raft_sent_ b)
    (raft_received_ b) (hard_state_writes_ b) (running_ b).

(** The constructor. *)
Definition new (config : BrokerConfig) (observer : bool) : t :=
  mk config observer None None kInvalidFile 0 0 kInvalidConn ∅
    (zrep (zlen (peers config)) kInvalidConn) 1 0 0 0 0 0 false.

Definition is_leader (b : t) : bool :=
  match raft_ b with Some n => bool_decide (role_ n = kLeader) | None => false end.
Definition term (b : t) : Z := match raft_ b with Some n => hs_term (hard_ n) | None => 0 end.
Definition leader (b : t) : Z := match raft_ b with Some n => leader_ n | None => kNoNode end.
Definition commit_index (b : t) : Z := match raft_ b with Some n => commit_index_ n | None => 0 end.
Definition log_end (b : t) : Z := match raft_ b with Some n => log_end_ n | None => 0 end.

Context {D : Type} {DO : Disk.t D}.
Context {N H : Type} {NO : Network.t N H}.
Context {L T : Type} {LO : Timers L T}.
(** What a broker runs in: the object itself and what it holds references to.  The parts of a
    world may share state: the simulator's are all driven by one generator. *)
Class Host (W : Type) := {
  broker : W -> t; put_broker : t -> W -> W;
  disk : W -> D; put_disk : D -> W -> W;
  net : W -> N; put_net : N -> W -> W;
  loop : W -> L; put_loop : L -> W -> W;
  rng : W -> G; put_rng : G -> W -> W }.

#[global] Instance broker_setter {W} {HO : Host W} : Setter broker := fun f w => put_broker (f (broker w)) w.
#[global] Instance disk_setter {W} {HO : Host W} : Setter disk := fun f w => put_disk (f (disk w)) w.
#[global] Instance net_setter {W} {HO : Host W} : Setter net := fun f w => put_net (f (net w)) w.
#[global] Instance loop_setter {W} {HO : Host W} : Setter loop := fun f w => put_loop (f (loop w)) w.
#[global] Instance rng_setter {W} {HO : Host W} : Setter rng := fun f w => put_rng (f (rng w)) w.

Section Members.
Context {W : Type} {HO : Host W}.
Abbreviation World := W.

Context (self : H) (tick_task : T) (observe : Observation -> World -> World).

(** [if (observer_ != nullptr) observer_->...] *)
Definition notify (o : Observation) (w : World) : World := if observer_ (broker w) then observe o w else w.

(** Assign to members of the broker. *)
Definition modify (f : t -> t) (w : World) : World := w <| broker := f (broker w) |>.

Definition stop (w : World) : World := modify (fun b => b <| running_ := false |>) w.

Definition load_hard_state (w : World) : Result HardState * World :=
  match Disk.open (data_dir (config_ (broker w)) ++ [slash] ++ kStateFileName) kCreate (disk w) with
  | (fail e, d) => (fail e, w <| disk := d |>)
  | (Ok f, d) =>
      let w := modify (fun b => b <| state_file_ := f |>) (w <| disk := d |>) in
      match Disk.size f (disk w) with
      | (fail e, d) => (fail e, w <| disk := d |>)
      | (Ok size, d) =>
          let w := w <| disk := d |> in
          if size =? 0 then (Ok default_hard_state, modify (fun b => b <| state_sequence_ := 0 |>) w)
          else
            match Disk.pread f kStateFileBytes 0 (disk w) with
            | (fail e, d) => (fail e, w <| disk := d |>)
            | (Ok bytes, d) =>
                let w := w <| disk := d |> in
                match scan_state_file bytes with
                | fail e => (fail e, w)
                | Ok scanned =>
                    (Ok (ps_hard scanned),
                     modify (fun b => b <| state_sequence_ := u64 (ps_sequence scanned + 1) |>) w)
                end
            end
      end
  end.

Definition schedule_tick (w : World) : World :=
  if negb (running_ (broker w)) then w
  else w <| loop := add_timer_after (tick_interval (config_ (broker w))) tick_task (loop w) |>.

Definition raft_config (c : BrokerConfig) : Config :=
  RaftTypes.mkConfig (id c) (map peer_id (peers c)) (election_timeout_ticks c) (election_timeout_jitter_ticks c)
    (heartbeat_timeout_ticks c).

(** The tail of [start]: the listener and the first tick. *)
Definition open_for_business (w : World) : World :=
  let w :=
    match Network.listen (port (config_ (broker w))) 16 (net w) with
    | (fail _, n) => w <| net := n |>
    | (Ok c, n) =>
        modify (fun b => b <| listener_ := c |>)
          (w <| net := Network.watch c Interest.kRead (Some self) n |>)
    end in
  schedule_tick (modify (fun b => b <| running_ := true |>) w).

Definition start (w : World) : Status * World :=
  let c := config_ (broker w) in
  match Log.open (data_dir c) (Log.mkOptions (segment_max_bytes c) kDefaultIndexIntervalBytes) (disk w) with
  | (fail e, d) => (fail e, w <| disk := d |>)
  | (Ok l, d) =>
      let w := modify (fun b => b <| log_ := Some l |>) (w <| disk := d |>) in
      let w := notify (on_log_recovered (Log.next_offset_ l) (Log.bytes_truncated (Log.recovery_ l))) w in
      match load_hard_state w with
      | (fail e, w) => (fail e, w)
      | (Ok hard, w) =>
          let n := new_node (raft_config c) (rng w) hard in
          let w := modify (fun b => b <| raft_ := Some n |>) (w <| rng := rng_ n |>) in
          match Log.scan_epochs l (disk w) with
          | (fail e, d) => (fail e, w <| disk := d |>)
          | (Ok epochs, d) =>
              let restored := map (fun b => mkEpoch (epoch b) (boundary_start b)) epochs in
              let n := restore_log (Log.next_offset_ l) restored n in
              let w := modify (fun b => b <| raft_ := Some n |>) (w <| disk := d |>) in
              let w := notify (on_raft_recovered (hs_term hard) (hs_voted_for hard)) w in
              (Ok tt, open_for_business w)
          end
      end
  end.

(** A call of the Raft node, with the generator they share. *)
Definition with_raft (f : Node G -> Node G) (w : World) : World :=
  match raft_ (broker w) with
  | None => w
  | Some n =>
      let n := f (n <| rng_ := rng w |>) in
      modify (fun b => b <| raft_ := Some n |>) (w <| rng := rng_ n |>)
  end.

Definition note_transition (role_before : Role) (term_before vote_before : Z) (w : World) : World :=
  match raft_ (broker w) with
  | None => w
  | Some n =>
      let role := role_ n in
      let term := hs_term (hard_ n) in
      let vote := hs_voted_for (hard_ n) in
      let w :=
        if negb (vote =? vote_before) && negb (vote =? kNoNode) && negb (vote =? id (config_ (broker w)))
        then notify (on_vote term vote) w else w in
      if bool_decide (role = role_before) && (term =? term_before) then w
      else
        match role with
        | kCandidate => notify (on_campaign term) w
        | kLeader => notify (on_became_leader term (log_end_ n)) w
        | kFollower => if negb (bool_decide (role_before = kFollower)) then notify (on_stepped_down term (leader_ n)) w else w
        end
  end.

Definition note_commit (commit_index : Z) (w : World) : World :=
  if commit_index <=? last_commit_seen_ (broker w) then w
  else
    let w := notify (on_committed (last_commit_seen_ (broker w)) commit_index) w in
    modify (fun b => b <| last_commit_seen_ := commit_index |>) w.

Definition persist (state : HardState) (w : World) : Status * World :=
  let b := broker w in
  if state_file_ b =? kInvalidFile then (fail kClosed, w)
  else
    let slot := encode_state_slot (zrep kStateSlotBytes 0) state (state_sequence_ b) in
    match Disk.pwrite (state_file_ b) slot (state_slot_offset (state_sequence_ b)) (disk w) with
    | (fail e, d) => (fail e, w <| disk := d |>)
    | (Ok written, d) =>
        let w := w <| disk := d |> in
        if negb (written =? zlen slot) then (fail kIoError, w)
        else
          let '(flushed, w) :=
            if fsync_hard_state (config_ b)
            then let '(r, d) := Disk.fsync (state_file_ b) (disk w) in (r, w <| disk := d |>)
            else (Ok tt, w) in
          match flushed with
          | fail e => (fail e, w)
          | Ok _ =>
              let w := modify (fun b => b <| state_sequence_ := u64 (state_sequence_ b + 1) |>
                                          <| hard_state_writes_ := hard_state_writes_ b + 1 |>) w in
              (Ok tt, notify (on_hard_state_persisted (hs_term state) (hs_voted_for state)) w)
          end
    end.

(** The append half of [carry_out_log_orders]. *)
Definition append_order (entry : list Z) (l : Log.t) (w : World) : Status * World :=
  match entry with
  | [] => (fail kInvalidRequest, w)
  | _ =>
      let '(wrote, l, d) := Log.append_replicated entry l (disk w) in
      let w := modify (fun b => b <| log_ := Some l |>) (w <| disk := d |>) in
      match wrote with
      | fail e => (fail e, w)
      | Ok _ =>
          let '(flushed, d) := Log.fsync l (disk w) in
          let w := w <| disk := d |> in
          match flushed with
          | fail e => (fail e, w)
          | Ok _ => (Ok tt, notify (on_replicated (Log.next_offset_ l)) w)
          end
      end
  end.

Definition carry_out_log_orders (ready : Ready) (entry : list Z) (w : World) : Status * World :=
  match log_ (broker w) with
  | None => (fail kClosed, w)
  | Some l =>
      if (truncate_from ready =? kNoIndex) && negb (append_entry ready) then (Ok tt, w)
      else
        let '(cut, l, w) :=
          if negb (truncate_from ready =? kNoIndex)
          then
            let '(cut, l, d) := Log.truncate_to (truncate_from ready) l (disk w) in
            let w := modify (fun b => b <| log_ := Some l |>) (w <| disk := d |>) in
            (cut, l, if ok cut then notify (on_truncated (truncate_from ready)) w else w)
          else (Ok tt, l, w) in
        match cut with
        | fail e => (fail e, w)
        | Ok _ => if append_entry ready then append_order entry l w else (Ok tt, w)
        end
  end.

(** The stream of a connection, made if it is not there: [streams_[conn]]. *)
Definition stream_at (conn : Z) (b : t) : Stream := default new_stream (streams_ b !! conn).
Definition put_stream (conn : Z) (s : Stream) (w : World) : World :=
  modify (fun b => b <| streams_ := <[conn := s]> (streams_ b) |>) w.

Definition watch (conn : Z) (interest : Interest.t) (handler : option H) (w : World) : World :=
  w <| net := Network.watch conn interest handler (net w) |>.

Definition forget (conn : Z) (w : World) : World :=
  let w := watch conn Interest.kNone None w in
  let w := w <| net := Network.close conn (net w) |> in
  modify (fun b => b <| streams_ := delete conn (streams_ b) |>
                     <| peer_conns_ := map (fun held => if held =? conn then kInvalidConn else held) (peer_conns_ b) |>) w.

(** The loop of [flush], over a stream that is there. *)
Fixpoint flush_loop (fuel : nat) (conn : Z) (s : Stream) (w : World) : World :=
  if Buffer.empty (out s) then watch conn Interest.kRead (Some self) w
  else
    match fuel with
    | O => w
    | S fuel' =>
        match Network.write conn (Buffer.slice (out s)) (net w) with
        | (fail e, n) =>
            let w := w <| net := n |> in
            if bool_decide (e = kWouldBlock) then watch conn Interest.kReadWrite (Some self) w
            else forget conn w
        | (Ok written, n) =>
            let w := w <| net := n |> in
            if written =? 0 then w
            else
              let s := s <| out := Buffer.consume (out s) written |> in
              flush_loop fuel' conn s (put_stream conn s w)
        end
    end.

Definition flush (conn : Z) (w : World) : World :=
  match streams_ (broker w) !! conn with
  | None => w
  | Some s => flush_loop (length (Buffer.slice (out s))) conn s w
  end.

Definition send (conn : Z) (header : FrameHeader) (payload : list Z) (w : World) : World :=
  let s := stream_at conn (broker w) in
  flush conn (put_stream conn (s <| out := encode_frame (out s) header payload |>) w).

Definition read_entry (index : Z) (w : World) : Result (list Z) * World :=
  match log_ (broker w) with
  | None => (fail kClosed, w)
  | Some l =>
      match Log.read l index kEntryScratchBytes (disk w) with
      | (fail e, d) => (fail e, w <| disk := d |>)
      | (Ok framed, d) =>
          let w := w <| disk := d |> in
          if zlen framed =? 0 then (fail kOffsetOutOfRange, w)
          else
            match decode_header framed with
            | fail _ => (fail kCorruptRecord, w)
            | Ok header =>
                if negb (base_offset header =? index) then (fail kOffsetOutOfRange, w)
                else (Ok (subslice framed 0 (total_bytes header)), w)
            end
      end
  end.

(** The message as it leaves, with its batch: [None] is an early return. *)
Definition outgoing_entry (m : Message) (w : World) : option (Message * list Z) * World :=
  if carries_entry m
  then
    match read_entry (entry_index m) w with
    | (fail _, w) => (None, w)
    | (Ok entry, w) =>
        match decode_header entry with
        | fail _ => (None, w)
        | Ok header => (Some (m <| entry_end := next_offset header |>, entry), w)
        end
    end
  else (Some (m, []), w).

(** The connection to the peer at [index], made if there is none. *)
Definition peer_conn (index : nat) (peer : Peer) (w : World) : option Z * World :=
  let held := default kInvalidConn (peer_conns_ (broker w) !! index) in
  if held =? kInvalidConn
  then
    match Network.connect (peer_host peer) (peer_port peer) (net w) with
    | (fail _, n) => (None, w <| net := n |>)
    | (Ok conn, n) =>
        let w := modify (fun b => b <| peer_conns_ := <[index := conn]> (peer_conns_ b) |>) (w <| net := n |>) in
        let w := put_stream conn (stream_at conn (broker w) <| outgoing := true |>) w in
        (Some conn, watch conn Interest.kRead (Some self) w)
    end
  else (Some held, w).

Definition send_raft (m : Message) (w : World) : World :=
  match list_find (fun p => peer_id p = to m) (peers (config_ (broker w))) with
  | None => w
  | Some (index, peer) =>
      match outgoing_entry m w with
      | (None, w) => w
      | (Some (m, entry), w) =>
          match peer_conn index peer w with
          | (None, w) => w
          | (Some conn, w) =>
              let payload := encode_message (zrep (message_bytes (zlen entry)) 0) m entry in
              let header := mkFrameHeader (api_key_for (msg_type m)) kApiVersion0 (next_correlation_ (broker w)) in
              let w := modify (fun b => b <| next_correlation_ := u32 (next_correlation_ b + 1) |>) w in
              modify (fun b => b <| raft_sent_ := raft_sent_ b + 1 |>) (send conn header payload w)
          end
      end
  end.

Definition drive (entry : list Z) (w : World) : World :=
  match raft_ (broker w) with
  | None => w
  | Some n =>
      let '(ready, n) := take_ready n in
      let w := modify (fun b => b <| raft_ := Some n |>) w in
      let w := note_commit (ready_commit_index ready) w in
      if ready_empty ready then w
      else
        match carry_out_log_orders ready entry w with
        | (fail _, w) => stop w
        | (Ok _, w) =>
            let '(stored, w) :=
              if persist_hard_state ready
              then
                match persist (hard_state ready) w with
                | (fail e, w) => (false, w)
                | (Ok _, w) => (true, with_raft hard_state_persisted w)
                end
              else (true, w) in
            if stored : bool then foldl (fun w m => send_raft m w) w (messages ready) else w
        end
  end.

(** A call of the node with what it changes announced and carried out. *)
Definition react (f : Node G -> Node G) (entry : list Z) (w : World) : World :=
  match raft_ (broker w) with
  | None => w
  | Some n =>
      drive entry (note_transition (role_ n) (hs_term (hard_ n)) (hs_voted_for (hard_ n)) (with_raft f w))
  end.

Definition on_tick (w : World) : World :=
  match raft_ (broker w) with
  | None => w
  | Some n =>
      if negb (running_ (broker w)) then w
      else schedule_tick (react tick [] (modify (fun b => b <| ticks_ := ticks_ b + 1 |>) w))
  end.

Definition deliver_locally (m : Message) (entry : list Z) (w : World) : World := react (step m) entry w.

Definition receive_raft (payload : list Z) (w : World) : World :=
  match decode_message payload with
  | fail _ => notify (on_protocol_error "undecodable raft message" (zlen payload) kMessageHeaderBytes) w
  | Ok (m, entry) =>
      if negb (to m =? id (config_ (broker w)))
      then notify (on_protocol_error "raft message for another node" (to m) (from m)) w
      else deliver_locally m entry (modify (fun b => b <| raft_received_ := raft_received_ b + 1 |>) w)
  end.

(** The batch [propose] stamps: a default [BatchMeta] with the term in it. *)
Definition proposed_meta (term : Z) : BatchMeta := mkBatchMeta (u32 term) false 0 0 0 0.

(** [propose] once the batch is in the log and on the platter. *)
Definition replicate (assigned : Z) (l : Log.t) (w : World) : World :=
  let w := notify (on_fsynced (Log.next_offset_ l)) w in
  let w := if ack_on_local_append (config_ (broker w)) then note_commit (Log.next_offset_ l) w else w in
  let w := with_raft (fun n => log_appended assigned (Log.next_offset_ l) (hs_term (hard_ n)) n) w in
  drive [] (modify (fun b => b <| appends_ := appends_ b + 1 |>) w).

Definition propose (builder : BatchBuilder.t) (w : World) : Result Z * BatchBuilder.t * World :=
  match log_ (broker w), raft_ (broker w) with
  | Some l, Some n =>
      if negb (running_ (broker w)) then (fail kClosed, builder, w)
      else if negb (bool_decide (role_ n = kLeader)) then (fail kNotLeader, builder, w)
      else
        let '(assigned, builder, l, d) := Log.append builder (proposed_meta (hs_term (hard_ n))) l (disk w) in
        let w := modify (fun b => b <| log_ := Some l |>) (w <| disk := d |>) in
        match assigned with
        | fail e => (fail e, builder, w)
        | Ok base =>
            let w := notify (on_appended base (u32 (Log.next_offset_ l - base))) w in
            let '(flushed, d) := Log.fsync l (disk w) in
            let w := w <| disk := d |> in
            match flushed with
            | fail e => (fail e, builder, w)
            | Ok _ => (Ok base, builder, replicate base l w)
            end
        end
  | _, _ => (fail kClosed, builder, w)
  end.

(** ** Connections *)

Definition on_writable (conn : Z) (w : World) : World := flush conn w.
Definition on_hangup (conn : Z) (w : World) : World := forget conn w.

(** Everything the listener has. *)
Fixpoint accept_loop (fuel : nat) (w : World) : option World :=
  match fuel with
  | 0%nat => None
  | S fuel' =>
      match Network.accept (listener_ (broker w)) (net w) with
      | (fail _, n) => Some (w <| net := n |>)
      | (Ok conn, n) =>
          let w := w <| net := n |> in
          let w := put_stream conn (stream_at conn (broker w) <| outgoing := false |>) w in
          accept_loop fuel' (watch conn Interest.kRead (Some self) w)
      end
  end.

(** The inner loop of [on_readable]: every whole frame of the input.  The flag says whether
    the outer loop goes on. *)
Fixpoint frame_loop (fuel : nat) (conn : Z) (w : World) : bool * World :=
  match fuel with
  | 0%nat => (false, w)
  | S fuel' =>
      match streams_ (broker w) !! conn with
      | None => (false, w)
      | Some current =>
          match next kDefaultMaxFrameBytes (in_ current) with
          | fail _ => (false, forget conn (notify (on_protocol_error "undecodable frame" conn 0) w))
          | Ok None => (true, w)
          | Ok (Some (header, payload)) =>
              if negb (is_broker_api (api_key header))
              then (false, forget conn (notify (on_protocol_error "non-broker api key on a peer connection"
                      (api_key header) 0) w))
              else
                let w := receive_raft payload w in
                match streams_ (broker w) !! conn with
                | None => (false, w)
                | Some after => frame_loop fuel' conn (put_stream conn (after <| in_ := consume_frame (in_ after) |>) w)
                end
          end
      end
  end.

(** Every frame takes bytes off the buffer. *)
Definition frame_fuel (conn : Z) (w : World) : nat := S (length (Buffer.slice (in_ (stream_at conn (broker w))))).

(** The bytes a [read] left in the 4096 that were reserved for it. *)
Definition took (s : Stream) (got : list Z) : Stream :=
  let into := Buffer.append_uninitialized (in_ s) kReadChunk in
  let filled := Buffer.write_at into (Buffer.size (in_ s)) got in
  s <| in_ := Buffer.shrink_by filled (kReadChunk - zlen got) |>.

Fixpoint read_loop (fuel : nat) (conn : Z) (w : World) : option World :=
  match fuel with
  | 0%nat => None
  | S fuel' =>
      match streams_ (broker w) !! conn with
      | None => Some w
      | Some stream =>
          match Network.read conn kReadChunk (net w) with
          | (fail e, n) =>
              let w := put_stream conn (took stream []) (w <| net := n |>) in
              Some (if bool_decide (e = kWouldBlock) then w else forget conn w)
          | (Ok got, n) =>
              let w := put_stream conn (took stream got) (w <| net := n |>) in
              if zlen got =? 0 then Some (forget conn w)
              else
                let '(more, w) := frame_loop (frame_fuel conn w) conn w in
                if more : bool then read_loop fuel' conn w else Some w
          end
      end
  end.

Definition on_readable (fuel : nat) (conn : Z) (w : World) : option World :=
  if conn =? listener_ (broker w) then accept_loop fuel w else read_loop fuel conn w.

(** [~Broker]; the log is a member and goes after the body. *)
Definition destroy (w : World) : World :=
  let b := broker w in
  let d := if negb (state_file_ b =? kInvalidFile) then Disk.close (state_file_ b) (disk w) else disk w in
  w <| disk := match log_ b with Some l => Log.destroy l d | None => d end |>.

End Members.

(** A broker whose disk, network, loop and generator have nothing to do with each other; [V] is
    what its observer keeps. *)
Record World (V : Type) := mkWorld {
  w_broker : t; w_disk : D; w_net : N; w_loop : L; w_rng : G; watching : V }.

#[global] Arguments mkWorld {V}.
#[global] Arguments w_broker {V}.
#[global] Arguments w_disk {V}.
#[global] Arguments w_net {V}.
#[global] Arguments w_loop {V}.
#[global] Arguments w_rng {V}.
#[global] Arguments watching {V}.

#[global] Instance World_eta V : Settable (World V) := fun w =>
  mkWorld (w_broker w) (w_disk w) (w_net w) (w_loop w) (w_rng w) (watching w).

#[global] Instance world_host V : Host (World V) := {
  broker := w_broker; put_broker b w := w <| w_broker := b |>;
  disk := w_disk; put_disk d w := w <| w_disk := d |>;
  net := w_net; put_net n w := w <| w_net := n |>;
  loop := w_loop; put_loop l w := w <| w_loop := l |>;
  rng := w_rng; put_rng g w := w <| w_rng := g |> }.

End Object.

#[global] Arguments t : clear implicits.
#[global] Arguments World : clear implicits.
#[global] Arguments Host : clear implicits.

End Broker.
