(* ===== verification/BrokerFacts.v ===== *)
(** * What the broker's members do

    Frame lemmas for the members of [Broker.v]: which parts of the world each of them can
    change, with [drive] taken apart into what happens before the first message and the
    messages themselves.  They assume an observer that only observes: it may change what it
    keeps for itself and nothing else. *)
From S2P Require Import Prelude Base Random Wire RecordBatch SparseIndex Disk Segment Log Network.
From S2P Require Import RaftTypes RaftCodec RaftNode StateFile Broker Cluster.

Section Frames.
Context {G : Type} {RG : Random G} {D : Type} {DO : Disk.t D} {N H : Type} {NO : Network.t N H}.
Context {L T : Type} {LO : Timers L T} {V : Type}.
Context (self : H) (tick_task : T).
Import Broker.
Abbreviation World := (Broker.World G D N L V).
Context (observe : Observation -> World -> World).
Implicit Type w : World.

(** [BrokerObserver]: an observation, never a decision. *)
Record passive : Prop := {
  ps_broker o w : broker (observe o w) = broker w;
  ps_disk o w : disk (observe o w) = disk w;
  ps_net o w : net (observe o w) = net w;
  ps_loop o w : loop (observe o w) = loop w;
  ps_rng o w : rng (observe o w) = rng w }.

Context (PS : passive).
#[local] Set Default Proof Using "PS".

Lemma notify_broker o w : broker (notify observe o w) = broker w.
Proof. unfold notify. destruct (observer_ _); [apply PS | done]. Qed.
Lemma notify_disk o w : disk (notify observe o w) = disk w.
Proof. unfold notify. destruct (observer_ _); [apply PS | done]. Qed.
Lemma notify_net o w : net (notify observe o w) = net w.
Proof. unfold notify. destruct (observer_ _); [apply PS | done]. Qed.
Lemma notify_loop o w : loop (notify observe o w) = loop w.
Proof. unfold notify. destruct (observer_ _); [apply PS | done]. Qed.
Lemma notify_rng o w : rng (notify observe o w) = rng w.
Proof. unfold notify. destruct (observer_ _); [apply PS | done]. Qed.

(** Rewrite away the observer. *)
Ltac unwatch := rewrite ?notify_broker, ?notify_disk, ?notify_net, ?notify_loop, ?notify_rng.

(** The connections, the timers and the generator are as they were, and the broker is [b]. *)
Definition still (b : t G) w w' : Prop :=
  broker w' = b /\ net w' = net w /\ loop w' = loop w /\ rng w' = rng w.

Lemma still_refl w : still (broker w) w w.
Proof using Type. done. Qed.

Lemma still_trans b c w1 w2 w3 : still b w1 w2 -> still c w2 w3 -> still c w1 w3.
Proof using Type. intros (A1 & A2 & A3 & A4) (B1 & B2 & B3 & B4). unfold still. split_and!; congruence. Qed.

Lemma still_notify o w : still (broker w) w (notify observe o w).
Proof. unfold still. unwatch. done. Qed.

Lemma note_commit_still i w : exists x,
  still (broker w <| last_commit_seen_ := x |>) w (note_commit observe i w) /\ disk (note_commit observe i w) = disk w.
Proof.
  unfold note_commit. destruct (_ <=? _).
  - exists (last_commit_seen_ (broker w)). split; [|done]. unfold still. split_and!; [by destruct w as [[]] | done..].
  - exists i. set (w1 := notify observe _ w). destruct (still_notify (on_committed (last_commit_seen_ (broker w)) i) w) as (E1 & E2 & E3 & E4).
    fold w1 in E1, E2, E3, E4. assert (disk w1 = disk w) as E5 by apply notify_disk. clearbody w1.
    split; [|exact E5]. rewrite <- E1. done.
Qed.

Lemma note_transition_still r k v w :
  still (broker w) w (note_transition observe r k v w) /\ disk (note_transition observe r k v w) = disk w.
Proof.
  unfold note_transition, still. destruct (raft_ (broker w)) as [n|]; [|done].
  set (w1 := if _ && _ && _ then _ else w).
  assert (broker w1 = broker w /\ net w1 = net w /\ loop w1 = loop w /\ rng w1 = rng w /\ disk w1 = disk w)
    as (E1 & E2 & E3 & E4 & E5).
  { unfold w1. destruct (_ && _ && _); unwatch; done. }
  clearbody w1. destruct (_ && _); [by split_and!|]. destruct (role_ n); [destruct (negb _)|..]; unwatch; by split_and!.
Qed.

(** [persist] numbers its writes and leaves the rest of the broker alone. *)
Lemma persist_still state w r w' : persist observe state w = (r, w') ->
  still (match r with
         | Ok _ => broker w <| state_sequence_ := u64 (state_sequence_ (broker w) + 1) |>
                            <| hard_state_writes_ := hard_state_writes_ (broker w) + 1 |>
         | fail _ => broker w
         end) w w'.
Proof.
  unfold persist. destruct (_ =? _); [by intros [= <- <-]|].
  destruct (Disk.pwrite _ _ _ _) as [[n|e] d]; [|by intros [= <- <-]].
  destruct (negb _); [by intros [= <- <-]|]. destruct (fsync_hard_state _).
  - destruct (Disk.fsync _ _) as [[u|e] d2]; intros [= <- <-]; [|done]. unfold still, modify. unwatch. done.
  - intros [= <- <-]. unfold still, modify. unwatch. done.
Qed.

(** The log may have changed, and is still there if it was. *)
Definition relogged w w' : Prop :=
  exists x, still (broker w <| log_ := x |>) w w' /\ (log_ (broker w) <> None -> x <> None).

Lemma relogged_refl w : relogged w w.
Proof using Type. exists (log_ (broker w)). split; [|done]. unfold still. split_and!; [by destruct w as [[]] | done..]. Qed.

Lemma append_order_still entry l w r w' : append_order observe entry l w = (r, w') -> relogged w w'.
Proof.
  unfold append_order. destruct entry as [|z entry]; [intros [= <- <-]; apply relogged_refl|].
  destruct (Log.append_replicated _ _ _) as [[[u|e] l1] d1]; [|intros [= <- <-]; by exists (Some l1)].
  destruct (Log.fsync _ _) as [[u2|e] d2]; intros [= <- <-]; exists (Some l1); [|done].
  unfold still, modify. unwatch. done.
Qed.

Lemma carry_out_still ready entry w r w' : carry_out_log_orders observe ready entry w = (r, w') -> relogged w w'.
Proof.
  unfold carry_out_log_orders. destruct (log_ (broker w)) as [l|] eqn:El; [|intros [= <- <-]; apply relogged_refl].
  destruct (_ && _); [intros [= <- <-]; apply relogged_refl|]. destruct (negb (_ =? _)).
  - destruct (Log.truncate_to _ _ _) as [[cut l1] d1].
    set (w1 := modify (fun b => b <| log_ := Some l1 |>) (w <| disk := d1 |>)).
    set (w2 := if ok cut then _ else w1).
    assert (still (broker w <| log_ := Some l1 |>) w w2) as S2.
    { unfold w2. destruct (ok cut); [|done]. unfold still. unwatch. done. }
    clearbody w2. destruct cut; [destruct (append_entry ready)|]; [|intros [= <- <-]; by exists (Some l1)..].
    intros E. apply append_order_still in E as (x & S3 & Hx). exists x. split; [|intros _; apply Hx; by rewrite (proj1 S2)].
    eapply still_trans; [exact S2|]. by rewrite (proj1 S2) in S3.
  - destruct (append_entry ready); [|intros [= <- <-]; apply relogged_refl]. apply append_order_still.
Qed.

(** Without orders there is nothing that could fail. *)
Lemma carry_out_nothing ready entry w :
  log_ (broker w) <> None -> has_log_orders ready = false -> carry_out_log_orders observe ready entry w = (Ok tt, w).
Proof using Type.
  unfold carry_out_log_orders, has_log_orders. destruct (log_ (broker w)); [|done]. intros _ E.
  apply orb_false_iff in E as [E1 ->]. apply negb_false_iff in E1. by rewrite E1.
Qed.

(** [drive], taken apart: nothing to do, a disk that refuses, or everything done that has to
    be done before the messages. *)
Lemma broker_drive_cases entry w n ready n1 : raft_ (broker w) = Some n -> take_ready n = (ready, n1) ->
  let w0 := note_commit observe (ready_commit_index ready) (modify (fun b => b <| raft_ := Some n1 |>) w) in
  let send_all w := foldl (fun w m => send_raft self m w) w (messages ready) in
  (ready_empty ready = true /\ drive self observe entry w = w0) \/
  (ready_empty ready = false /\ exists e wa, carry_out_log_orders observe ready entry w0 = (fail e, wa) /\
     drive self observe entry w = stop wa) \/
  (ready_empty ready = false /\ exists wa, carry_out_log_orders observe ready entry w0 = (Ok tt, wa) /\
     ((persist_hard_state ready = true /\ exists e wp, persist observe (hard_state ready) wa = (fail e, wp) /\
         drive self observe entry w = wp) \/
      (persist_hard_state ready = true /\ exists wp, persist observe (hard_state ready) wa = (Ok tt, wp) /\
         drive self observe entry w = send_all (with_raft hard_state_persisted wp)) \/
      (persist_hard_state ready = false /\ drive self observe entry w = send_all wa))).
Proof using Type.
  intros Hn Ht w0 send_all. unfold drive. rewrite Hn, Ht. fold w0. destruct (ready_empty ready); [by left|]. right.
  destruct (carry_out_log_orders _ _ _ _) as [[[]|e] wa] eqn:C; [|left; eauto]. right. split; [done|]. exists wa.
  split; [done|]. destruct (persist_hard_state ready); [|auto].
  destruct (persist _ _ _) as [[[]|e] wp] eqn:P; eauto 8.
Qed.

(** ** Talking to peers *)

(** Only connections, and the counters that go with them, changed. *)
Definition spoke w w' : Prop := exists s p c r,
  broker w' = broker w <| streams_ := s |> <| peer_conns_ := p |> <| next_correlation_ := c |> <| raft_sent_ := r |> /\
  loop w' = loop w /\ rng w' = rng w.

Lemma spoke_trans w1 w2 w3 : spoke w1 w2 -> spoke w2 w3 -> spoke w1 w3.
Proof using Type.
  intros (s & p & c & r & E & E1 & E2) (s' & p' & c' & r' & E' & E1' & E2'). exists s', p', c', r'.
  split_and!; [|congruence..]. rewrite E', E. done.
Qed.

(** A world with the same broker, timers and generator. *)
Lemma spoke_same w w' : broker w' = broker w -> loop w' = loop w -> rng w' = rng w -> spoke w w'.
Proof using Type.
  intros E E1 E2. exists (streams_ (broker w)), (peer_conns_ (broker w)), (next_correlation_ (broker w)), (raft_sent_ (broker w)).
  split_and!; [|done..]. rewrite E. by destruct (broker w).
Qed.

Lemma spoke_refl w : spoke w w.
Proof using Type. by apply spoke_same. Qed.

Lemma spoke_put conn s w : spoke w (put_stream conn s w).
Proof using Type. eexists _, _, _, _. split_and!; reflexivity. Qed.

Lemma spoke_forget conn w : spoke w (forget conn w).
Proof using Type.
  eexists (delete conn (streams_ (broker w))),
    (map (fun held => if held =? conn then kInvalidConn else held) (peer_conns_ (broker w))), _, _.
  split_and!; reflexivity.
Qed.

Lemma spoke_flush_loop fuel : forall conn s w, spoke w (flush_loop self fuel conn s w).
Proof using Type.
  induction fuel as [|fuel IH]; intros conn s w; cbn [flush_loop]; (destruct (Buffer.empty _); [by apply spoke_same|]);
    [apply spoke_refl|].
  destruct (Network.write _ _ _) as [[n|e] n1].
  - destruct (_ =? 0); [by apply spoke_same|]. eapply spoke_trans; [|apply IH].
    eapply spoke_trans; [|apply spoke_put]. by apply spoke_same.
  - destruct (bool_decide _); [by apply spoke_same|]. eapply spoke_trans; [|apply spoke_forget]. by apply spoke_same.
Qed.

Lemma spoke_flush conn w : spoke w (flush self conn w).
Proof using Type. unfold flush. destruct (_ !! _); [apply spoke_flush_loop | apply spoke_refl]. Qed.

Lemma spoke_send conn header payload w : spoke w (send self conn header payload w).
Proof using Type. unfold send. eapply spoke_trans; [apply spoke_put | apply spoke_flush]. Qed.

(** Reading an entry moves the disk and nothing else. *)
Lemma read_entry_still index w r w' : read_entry index w = (r, w') -> still (broker w) w w'.
Proof using Type.
  unfold read_entry. destruct (log_ _); [|by intros [= <- <-]]. destruct (Log.read _ _ _ _) as [[bs|e] d]; [|by intros [= <- <-]].
  destruct (_ =? 0); [by intros [= <- <-]|]. destruct (decode_header bs); [|by intros [= <- <-]].
  destruct (negb _); by intros [= <- <-].
Qed.

(** [send_raft] fills in how far the entry reaches, and nothing else. *)
Lemma outgoing_entry_spec m w r w' : outgoing_entry m w = (r, w') ->
  still (broker w) w w' /\ forall y entry, r = Some (y, entry) -> extent_of m y = true.
Proof using Type.
  unfold outgoing_entry, extent_of. destruct (carries_entry m).
  - destruct (read_entry _ w) as [[entry|e] w1] eqn:R; apply read_entry_still in R; [|by intros [= <- <-]].
    destruct (decode_header entry); intros [= <- <-]; (split; [done|]); [|done].
    intros y en [= <- <-]. by apply bool_decide_eq_true.
  - intros [= <- <-]. split; [done|]. intros y en [= <- <-]. apply bool_decide_eq_true. by destruct m.
Qed.

Lemma peer_conn_spoke i p w r w' : peer_conn self i p w = (r, w') -> spoke w w'.
Proof using Type.
  unfold peer_conn. destruct (_ =? _); [|intros [= <- <-]; apply spoke_refl].
  destruct (Network.connect _ _ _) as [[c|e] n]; intros [= <- <-]; [|by apply spoke_same].
  set (w1 := modify (fun b => b <| peer_conns_ := <[i := c]> (peer_conns_ b) |>) (w <| net := n |>)). assert (spoke w w1) as S1.
  { eexists _, _, _, _. split_and!; reflexivity. }
  eapply spoke_trans; [exact S1|]. eapply spoke_trans; [apply spoke_put | by apply spoke_same].
Qed.

(** One message: the peer is unknown or unreachable or the entry unreadable, and nothing is
    queued; or a frame with the message, its extent filled in, goes to a connection. *)
Inductive says (m : Message) w : list Message -> World -> Prop :=
  | says_nothing w' : spoke w w' -> says m w [] w'
  | says_one y entry conn header w1 w' :
      spoke w w1 -> extent_of m y = true -> api_key header = api_key_for (msg_type y) ->
      spoke (send self conn header (encode_message (zrep (message_bytes (zlen entry)) 0) y entry) w1) w' ->
      net w' = net (send self conn header (encode_message (zrep (message_bytes (zlen entry)) 0) y entry) w1) ->
      says m w [y] w'.

Lemma send_raft_says m w : exists sent, says m w sent (send_raft self m w).
Proof using Type.
  unfold send_raft. destruct (list_find _ _) as [[i p]|]; [|exists []; constructor; apply spoke_refl].
  destruct (outgoing_entry m w) as [r w1] eqn:O. apply outgoing_entry_spec in O as [S1 Ex].
  assert (spoke w w1) as S1' by (destruct S1 as (? & ? & ? & ?); by apply spoke_same).
  destruct r as [[y entry]|]; [|exists []; by constructor].
  destruct (peer_conn _ _ _ _) as [r w2] eqn:P. apply peer_conn_spoke in P.
  pose proof (spoke_trans _ _ _ S1' P) as S2. destruct r as [conn|]; [|exists []; by constructor].
  exists [y]. set (w3 := modify _ w2). assert (spoke w2 w3) as S3.
  { eexists _, _, _, _. split_and!; reflexivity. }
  set (header := mkFrameHeader _ _ _).
  apply (says_one m w y entry conn header w3); [by eapply spoke_trans | by eapply Ex | done | | done].
  eexists _, _, _, _. split_and!; reflexivity.
Qed.

(** The messages of a [Ready], in order. *)
Inductive says_all : list Message -> World -> list Message -> World -> Prop :=
  | says_all_nil w : says_all [] w [] w
  | says_all_cons m ms w sent w1 sent' w2 :
      says m w sent w1 -> says_all ms w1 sent' w2 -> says_all (m :: ms) w (sent ++ sent') w2.

Lemma send_all_says ms : forall w, exists sent, says_all ms w sent (foldl (fun w m => send_raft self m w) w ms).
Proof using Type.
  induction ms as [|m ms IH]; intros w; cbn; [exists []; constructor|].
  destruct (send_raft_says m w) as [s S]. destruct (IH (send_raft self m w)) as [s' S']. exists (s ++ s'). by econstructor.
Qed.

Lemma says_spoke m w sent w' : says m w sent w' -> spoke w w'.
Proof using Type.
  intros [w1 S | y entry conn header w1 w2 S1 _ _ S2 _]; [done|].
  eapply spoke_trans; [exact S1|]. eapply spoke_trans; [apply spoke_send | exact S2].
Qed.

Lemma says_all_spoke ms w sent w' : says_all ms w sent w' -> spoke w w'.
Proof using Type.
  induction 1 as [|m ms w sent w1 sent' w2 S _ IH]; [apply spoke_refl|].
  eapply spoke_trans; [by eapply says_spoke | done].
Qed.

(** What leaves are messages of the node with their extents filled in. *)
Lemma says_transmits ms w sent w' : says_all ms w sent w' -> transmits ms sent = true.
Proof using Type.
  intros S. apply forallb_forall. intros y Hy. apply existsb_exists.
  induction S as [|m ms w s w1 s' w2 S _ IH]; [done|].
  apply in_app_iff in Hy as [Hy | Hy].
  - destruct S as [|z entry conn header w3 w4 _ Ex]; [done|]. destruct Hy as [<- | []]. exists m. split; [by left | done].
  - destruct (IH Hy) as (x & Hx & Ex). exists x. split; [by right | done].
Qed.

End Frames.
