(* ===== verification/BrokerRefines.v ===== *)
(** * The broker refines a member of the cluster

    The election argument is about the members of [Cluster.v], whose storage results and
    whose network are parts of an event.  Here [drive] of the broker object of [Broker.v] is
    shown to be the cluster's: the node, the flag and the messages that leave are those of the
    cluster's member, with the results the broker's own disk gave.  [BrokerMember.v] goes on
    to the entry points of the broker and to its vote file. *)
From S2P Require Import Prelude Base Random Wire RecordBatch SparseIndex Disk Segment Log Network.
From S2P Require Import RaftTypes RaftCodec RaftNode StateFile Broker Cluster BrokerFacts.

(** ** A node keeps its configuration *)

Section Configuration.
Context {G : Type} {RG : Random G}.
Implicit Types (n : Node G) (m : Message).

Lemma foldl_config {A} (f : Node G -> A -> Node G) l :
  (forall n a, config_ (f n a) = config_ n) -> forall n, config_ (foldl f n l) = config_ n.
Proof. intros Hf. induction l as [|a l IH]; intros n; cbn; [done|]. by rewrite IH. Qed.

Lemma reset_election_timer_config n : config_ (reset_election_timer n) = config_ n.
Proof. unfold reset_election_timer. by repeat case_match. Qed.

Lemma append_epoch_config t s n : config_ (append_epoch t s n) = config_ n.
Proof. unfold append_epoch. by repeat case_match. Qed.

Lemma advance_commit_config n : config_ (advance_commit_index n) = config_ n.
Proof. unfold advance_commit_index. by repeat case_match. Qed.

Lemma become_follower_config t l n : config_ (become_follower t l n) = config_ n.
Proof. unfold become_follower. rewrite reset_election_timer_config. by case_match. Qed.

Lemma broadcast_config n : config_ (broadcast_heartbeat n) = config_ n.
Proof. unfold broadcast_heartbeat. by apply foldl_config. Qed.

Lemma become_leader_config n : config_ (become_leader n) = config_ n.
Proof. unfold become_leader. rewrite broadcast_config. by rewrite foldl_config. Qed.

Lemma log_appended_config i e t n : config_ (log_appended i e t n) = config_ n.
Proof.
  unfold log_appended. cbv zeta. destruct (negb _); [apply append_epoch_config|]. rewrite foldl_config.
  - rewrite advance_commit_config. apply append_epoch_config.
  - intros n0 p. by destruct (_ =? _).
Qed.

Lemma tick_config n : config_ (tick n) = config_ n.
Proof.
  unfold tick, campaign. destruct (bool_decide _); cbv zeta; [destruct (_ <=? _); [by rewrite broadcast_config | done]|].
  destruct (_ <=? _); [|done]. destruct (_ <=? _); [rewrite become_leader_config | rewrite foldl_config by done];
    by unfold become_candidate; rewrite reset_election_timer_config.
Qed.

Lemma accept_entry_config m n : config_ (accept_entry m n) = config_ n.
Proof.
  unfold accept_entry. cbv zeta. set (n1 := if _ && _ then _ else n).
  assert (config_ n1 = config_ n) as E by (unfold n1; by case_match). clearbody n1. rewrite <- E.
  case_match; [by rewrite log_appended_config | done].
Qed.

Lemma handle_append_entries_config m n : config_ (handle_append_entries m n) = config_ n.
Proof.
  unfold handle_append_entries. destruct (bool_decide _); [done|]. cbv zeta.
  pose proof (become_follower_config (msg_term m) (from m) n) as E. rewrite <- E.
  generalize (become_follower (msg_term m) (from m) n). intros n1. destruct (negb _); [done|].
  set (n2 := if carries_entry m then _ else n1).
  assert (config_ n2 = config_ n1) as E2 by (unfold n2; case_match; [apply accept_entry_config | done]).
  clearbody n2. rewrite <- E2. unfold send. cbn [config_ set]. by destruct (_ <? _).
Qed.

Lemma step_config m n : config_ (step m n) = config_ n.
Proof.
  unfold step. destruct (_ && _ && _ && _); [done|]. set (n1 := if _ <? msg_term m then _ else n).
  assert (config_ n1 = config_ n) as E by (unfold n1; case_match; [apply become_follower_config | done]).
  clearbody n1. cbv zeta. destruct (_ <? _); [by destruct (msg_type m)|]. rewrite <- E. destruct (msg_type m).
  - unfold handle_request_vote. cbv zeta. by repeat case_match.
  - unfold handle_request_vote_response. repeat case_match; try done. by rewrite become_leader_config.
  - apply handle_append_entries_config.
  - unfold handle_append_entries_response. cbv zeta. destruct (negb _); [done|]. destruct (negb _); [done|].
    set (n2 := if _ <? _ then _ else n1). assert (config_ n2 = config_ n1) as E2 by (unfold n2; by case_match).
    clearbody n2. set (n3 := if _ <? _ then _ else n2). assert (config_ n3 = config_ n2) as E3 by (unfold n3; by case_match).
    clearbody n3. destruct (_ <? _); cbn; rewrite advance_commit_config; congruence.
Qed.

End Configuration.

(** ** The simulation *)

Section Refinement.
Context {G : Type} {RG : Random G} {D : Type} {DO : Disk.t D} {N H : Type} {NO : Network.t N H}.
Context {L T : Type} {LO : Timers L T} {V : Type}.
Context (self : H) (tick_task : T).
Abbreviation World := (Broker.World G D N L V).
Context (observe : Observation -> World -> World) (PS : passive observe).
#[local] Set Default Proof Using "PS".
Implicit Type w : World.

(** A broker that is up: its node and its log are there, they share their generator, and
    they agree on who they are. *)
Record up w (n : Node G) : Prop := {
  up_raft : Broker.raft_ (Broker.broker w) = Some n;
  up_log : Broker.log_ (Broker.broker w) <> None;
  up_rng : rng_ n = Broker.rng w;
  up_id : id (config_ n) = Broker.id (Broker.config_ (Broker.broker w)) }.

(** Nothing reached the network and nothing was queued for it. *)
Definition silent w w' : Prop :=
  Broker.net w' = Broker.net w /\ Broker.streams_ (Broker.broker w') = Broker.streams_ (Broker.broker w) /\
  Broker.config_ (Broker.broker w') = Broker.config_ (Broker.broker w).

Lemma up_spoke w w' n : up w n -> spoke w w' -> up w' n.
Proof using Type.
  intros [U1 U2 U3 U4] (s & p & c & r & E & _ & R). split; rewrite ?E, ?R; done.
Qed.

Lemma node_rng (n : Node G) g : rng_ n = g -> n <| rng_ := g |> = n.
Proof using Type. intros <-. by destruct n. Qed.

(** The broker is up with the node [n], and nobody outside can tell. *)
Record calm w w' (n : Node G) : Prop := {
  cm_up : up w' n;
  cm_silent : silent w w';
  cm_running : Broker.running_ (Broker.broker w') = Broker.running_ (Broker.broker w) }.

Lemma calm_here w n : up w n -> calm w w n.
Proof using Type. by split. Qed.

Lemma calm_then w1 w2 w3 n n' : calm w1 w2 n -> calm w2 w3 n' -> calm w1 w3 n'.
Proof using Type.
  intros [_ (A1 & A2 & A3) A4] [U (B1 & B2 & B3) B4]. split; [done | | congruence]. unfold silent. split_and!; congruence.
Qed.

Lemma calm_still b w w' n : up w n -> still b w w' ->
  Broker.raft_ b = Broker.raft_ (Broker.broker w) -> Broker.log_ b <> None ->
  Broker.config_ b = Broker.config_ (Broker.broker w) -> Broker.streams_ b = Broker.streams_ (Broker.broker w) ->
  Broker.running_ b = Broker.running_ (Broker.broker w) -> calm w w' n.
Proof using Type.
  intros [U1 U2 U3 U4] (<- & Sn & Sl & Sr) E1 E2 E3 E4 E5. split; [split | |]; rewrite ?E1, ?E3, ?E4, ?E5, ?Sr; auto.
  unfold silent. by rewrite Sn, E3, E4.
Qed.

Lemma calm_with_raft f w n : up w n -> config_ (f n) = config_ n -> calm w (Broker.with_raft f w) (f n).
Proof using Type.
  intros [U1 U2 U3 U4] Hc. unfold Broker.with_raft. rewrite U1, node_rng by done.
  split; [|done|done]. split; cbn; [done | done | done | by rewrite Hc].
Qed.

(** Taking the node's [Ready] and noting how far it committed. *)
Lemma calm_take w n ready n1 : up w n -> take_ready n = (ready, n1) ->
  calm w (Broker.note_commit observe (ready_commit_index ready) (Broker.modify (fun b => b <| Broker.raft_ := Some n1 |>) w)) n1.
Proof.
  intros [U1 U2 U3 U4] Tr. set (wr := Broker.modify _ w).
  assert (up wr n1) as Ur by (injection Tr as _ <-; by split).
  eapply calm_then; [by apply (calm_then w wr wr n1 n1); split|].
  destruct (note_commit_still observe PS (ready_commit_index ready) wr) as (x & S & _).
  by eapply calm_still; [exact Ur | exact S | ..].
Qed.

Lemma calm_carry ready entry w n r w' : up w n -> Broker.carry_out_log_orders observe ready entry w = (r, w') -> calm w w' n.
Proof.
  intros U Ca. apply (carry_out_still observe PS) in Ca as (y & S & Hy).
  eapply calm_still; [exact U | exact S | done | | done | done | done]. apply Hy, U.
Qed.

Lemma calm_persist state w n r w' : up w n -> Broker.persist observe state w = (r, w') -> calm w w' n.
Proof.
  intros U P. apply (persist_still observe PS) in P as S. eapply calm_still; [exact U | exact S | ..]; destruct r; try done; apply U.
Qed.

Lemma calm_says w w1 w' n ms sent : calm w w1 n -> says_all self ms w1 sent w' ->
  up w' n /\ Broker.running_ (Broker.broker w') = Broker.running_ (Broker.broker w).
Proof using Type.
  intros [U Q R] S. pose proof (says_all_spoke _ _ _ _ _ S) as Sk. split; [by eapply up_spoke|].
  destruct Sk as (? & ? & ? & ? & -> & _). done.
Qed.

(** The slot that [persist] is about to write gets to the file whole. *)
Definition reaches_file (state : HardState) w : bool :=
  let b := Broker.broker w in
  negb (Broker.state_file_ b =? kInvalidFile) &&
  match Disk.pwrite (Broker.state_file_ b) (encode_state_slot (zrep kStateSlotBytes 0) state (Broker.state_sequence_ b))
          (state_slot_offset (Broker.state_sequence_ b)) (Broker.disk w) with
  | (Ok n, _) => n =? kStateSlotBytes
  | (fail _, _) => false
  end.

(** What the broker's own storage answers to [drive]: to the log orders, and behind them to
    the write of the hard state; and whether that write gets to the file. *)
Definition storage (entry : list Z) w : Result unit * Result unit * bool :=
  match Broker.raft_ (Broker.broker w) with
  | None => (Ok tt, Ok tt, false)
  | Some n =>
      let '(ready, n) := take_ready n in
      let w := Broker.note_commit observe (ready_commit_index ready) (Broker.modify (fun b => b <| Broker.raft_ := Some n |>) w) in
      match Broker.carry_out_log_orders observe ready entry w with
      | (fail e, _) => (fail e, Ok tt, false)
      | (Ok _, w) => (Ok tt, (Broker.persist observe (hard_state ready) w).1, reaches_file (hard_state ready) w)
      end
  end.

(** What [drive] does is what the cluster's [drive] does with the answers of the storage. *)
Lemma drive_refines entry w n lr pr landed : up w n -> storage entry w = (lr, pr, landed) ->
  exists n' released write running w1 sent, let w' := Broker.drive self observe entry w in
    (forall sent, Cluster.drive (mkEnv lr pr landed sent) n (Broker.running_ (Broker.broker w)) =
       (n', released, write, running)) /\
    silent w w1 /\ says_all self released w1 sent w' /\
    up w' n' /\ Broker.running_ (Broker.broker w') = running.
Proof.
  intros U St. cbv zeta. destruct (take_ready n) as [ready n1] eqn:Tr. pose proof (calm_take _ _ _ _ U Tr) as C0.
  pose proof (broker_drive_cases self observe entry w n ready n1 (up_raft _ _ U) Tr) as C. cbv zeta in C.
  unfold storage in St. rewrite (up_raft _ _ U), Tr in St.
  set (w0 := Broker.note_commit _ _ _) in *. clearbody w0. pose proof C0 as [U0 Q0 R0].
  unfold Cluster.drive. rewrite Tr. destruct C as [[-> ->] | [(-> & e & wa & Ca & ->) | (-> & wa & Ca & C)]].
  - exists n1, [], None, (Broker.running_ (Broker.broker w)), w0, []. split_and!; try done. constructor.
  - rewrite Ca in St. injection St as <- <- <-. assert (has_log_orders ready = true) as ->.
    { destruct (has_log_orders ready) eqn:Ho; [done|]. rewrite carry_out_nothing in Ca; [done | apply U0 | done]. }
    destruct (calm_then _ _ _ _ _ C0 (calm_carry _ _ _ _ _ _ U0 Ca)) as [Ua Qa _].
    exists n1, [], None, false, (Broker.stop wa), [].
    split_and!; [done | done | constructor | by destruct Ua; split | done].
  - rewrite Ca in St. injection St as <- Ep <-.
    pose proof (calm_then _ _ _ _ _ C0 (calm_carry _ _ _ _ _ _ U0 Ca)) as CA. pose proof CA as [Ua Qa Ra].
    destruct C as [(-> & e & wp & P & ->) | [(-> & wp & P & ->) | (-> & ->)]].
    + rewrite P in Ep. cbn in Ep. subst pr. destruct (calm_then _ _ _ _ _ CA (calm_persist _ _ _ _ _ Ua P)) as [Up Qp Rp].
      exists n1, [], (Some (hard_state ready, false)), (Broker.running_ (Broker.broker w)), wp, [].
      split_and!; try done; [|constructor]. intros. by rewrite andb_false_r.
    + rewrite P in Ep. cbn in Ep. subst pr. pose proof (calm_then _ _ _ _ _ CA (calm_persist _ _ _ _ _ Ua P)) as CP.
      pose proof (calm_then _ _ _ _ _ CP (calm_with_raft hard_state_persisted _ _ (cm_up _ _ _ CP) eq_refl)) as CH.
      destruct (send_all_says self (messages ready) (Broker.with_raft hard_state_persisted wp)) as [sent Sy].
      eexists (hard_state_persisted n1), _, _, _, _, sent.
      split_and!; [intros; by rewrite andb_false_r | apply CH | exact Sy | by eapply calm_says | by eapply calm_says].
    + destruct (send_all_says self (messages ready) wa) as [sent Sy].
      eexists n1, _, _, _, _, sent.
      split_and!; [intros; by rewrite andb_false_r | apply CA | exact Sy | by eapply calm_says | by eapply calm_says].
Qed.

(** A world that differs in counters and observations only. *)
Lemma calm_modify f w n : up w n ->
  (forall b, Broker.raft_ (f b) = Broker.raft_ b /\ (Broker.log_ b <> None -> Broker.log_ (f b) <> None) /\
     Broker.config_ (f b) = Broker.config_ b /\ Broker.streams_ (f b) = Broker.streams_ b /\
     Broker.running_ (f b) = Broker.running_ b) ->
  forall d, calm w (Broker.modify f (w <| Broker.disk := d |>)) n.
Proof using Type.
  intros [U1 U2 U3 U4] Hf d. destruct (Hf (Broker.broker w)) as (E1 & E2 & E3 & E4 & E5). cbn in *.
  split; [split | |]; cbn; rewrite ?E1, ?E3; auto. unfold silent. cbn. by rewrite E3, E4.
Qed.

Lemma calm_notify o w n : up w n -> calm w (Broker.notify observe o w) n.
Proof. intros U. eapply calm_still; [exact U | by apply still_notify | ..]; try done. apply U. Qed.

Lemma calm_note_commit i w n : up w n -> calm w (Broker.note_commit observe i w) n.
Proof.
  intros U. destruct (note_commit_still observe PS i w) as (x & S & _). eapply calm_still; [exact U | exact S | ..]; try done. apply U.
Qed.

End Refinement.
