(* ===== verification/BrokerDurable.v ===== *)
(** * What a broker has on disk when it speaks

    The durability half of [Broker::drive]: before the first message of a [Ready] leaves, the
    entry it answers for is in the log and on the platter, and so is the vote.  The disk is
    any disk that implements the interface, and a power cut any that keeps what is settled. *)
From S2P Require Import Prelude Base Random Wire RecordBatch SparseIndex Disk Segment Chain SegmentFacts SegmentProps.
From S2P Require Import Log LogFacts LogRecovery LogDurable LogCut Network RaftTypes RaftCodec RaftNode StateFile.
From S2P Require Import Broker Cluster BrokerFacts BrokerRefines.

(** ** Slots as file contents *)

Lemma encode_slot h k : encode_state_slot (zrep kStateSlotBytes 0) h k = slot_bytes h k.
Proof.
  unfold encode_state_slot, kStateSlotBytes. rewrite zlen_zrep. by change (negb (Z.max 0 32 =? 32)) with false.
Qed.

Lemma slot_bytes_ok h k : bytes_ok (slot_bytes h k).
Proof. unfold slot_bytes. apply Forall_app. split; [auto with le | apply slot_body_ok]. Qed.

Lemma slot_nonempty h k : slot_bytes h k <> [].
Proof. intros E%(f_equal zlen). by rewrite zlen_slot_bytes in E. Qed.

(** The disk's write and the vote file's are the same where there is no gap. *)
Lemma overwrite_pwrite file off data :
  0 <= off <= zlen file -> data <> [] -> overwrite file off data = pwrite_bytes file off data.
Proof.
  intros Ho Hd. unfold overwrite, pwrite_bytes. destruct data as [|x data]; [done|].
  set (bs := x :: data). unfold splice. rewrite !ztake_app_le by lia. do 2 f_equal.
  pose proof (zlen_nonneg bs). destruct (Z_le_dec (off + zlen bs) (zlen file)).
  - unfold zrep. replace (Z.to_nat _) with O by lia. by rewrite app_nil_r.
  - rewrite (zdrop_ge _ file) by lia. apply zdrop_ge. len.
Qed.

Section Durable.
Context {G : Type} {RG : Random G} {D : Type} {DO : Disk.t D} {DV : Disk.view D} {DL : Disk.laws D}.
Context {N H : Type} {NO : Network.t N H} {L T : Type} {LO : Timers L T} {V : Type}.
Context (self : H).
Abbreviation World := (Broker.World G D N L V).
Context (observe : Observation -> World -> World) (PS : passive observe).
Implicit Type w : World.

(** ** The vote file *)

Definition vote_path (c : Broker.BrokerConfig) : chars := Broker.data_dir c ++ [slash] ++ Broker.kStateFileName.

Lemma vote_path_last c : last (vote_path c) = Some "e"%char.
Proof using Type. unfold vote_path. rewrite !last_app. done. Qed.

Lemma vote_path_file c : Disk.file_path (vote_path c).
Proof using Type. unfold Disk.file_path. by rewrite vote_path_last. Qed.

Lemma vote_path_log c dir v : vote_path c <> log_path dir v.
Proof using Type. intros E. apply (f_equal last) in E. by rewrite vote_path_last, log_path_last in E. Qed.

Lemma vote_path_index c dir v : vote_path c <> index_path dir v.
Proof using Type. intros E. apply (f_equal last) in E. by rewrite vote_path_last, index_path_last in E. Qed.

(** The vote file is open, holds [file], and says [h]: it is empty, or its latest slot has the
    number before the next one. *)
Record vote_file (d : D) (b : Broker.t G) (h : HardState) (file : list Z) : Prop := {
  vf_open : Disk.opened d (Broker.state_file_ b) (vote_path (Broker.config_ b)) file;
  vf_says : file = [] /\ Broker.state_sequence_ b = 0 /\ h = default_hard_state \/
    exists k, records file h k /\ Broker.state_sequence_ b = k + 1 }.

Lemma next_slot (d : D) b h file new : vote_file d b h file -> hard_fits new -> Broker.state_sequence_ b < 2 ^ 64 - 2 ->
  0 <= Broker.state_sequence_ b /\ 0 <= state_slot_offset (Broker.state_sequence_ b) <= zlen file /\
  records (overwrite file (state_slot_offset (Broker.state_sequence_ b)) (slot_bytes new (Broker.state_sequence_ b)))
    new (Broker.state_sequence_ b).
Proof using Type.
  intros [_ [(-> & -> & ->) | (k & R & ->)]] Hn Hs.
  - split; [done|]. split; [vm_compute; by split|]. change (state_slot_offset 0) with 0.
    rewrite overwrite_pwrite by (apply slot_nonempty || (unfold zlen; simpl; lia)).
    rewrite <- encode_slot. by apply first_persist.
  - pose proof (rc_sequence _ _ _ R) as Hk. pose proof (rc_length _ _ _ R) as Hl. pose proof (rc_slot _ _ _ R) as Sl.
    unfold kStateFileBytes, kStateSlotBytes in *.
    assert (0 <= state_slot_offset (k + 1) <= zlen file) as Ho by (destruct (slot_offset_cases k); lia).
    split; [lia|]. split; [done|]. rewrite overwrite_pwrite by (done || apply slot_nonempty).
    rewrite <- encode_slot. by apply (persist_records _ _ _ _ R).
Qed.

(** The vote is in the file, and the file on the platter. *)
Definition on_platter (d : D) (c : Broker.BrokerConfig) (h : HardState) : Prop := exists file k,
  records file h k /\ Disk.files d !! vote_path c = Some file /\ Disk.settled d (vote_path c) file.

(** The write of a slot, before it is synced. *)
Lemma slot_written (d d' : D) b h file new r :
  Disk.good d -> vote_file d b h file -> hard_fits new -> Broker.state_sequence_ b < 2 ^ 64 - 2 ->
  Disk.pwrite (Broker.state_file_ b) (slot_bytes new (Broker.state_sequence_ b))
    (state_slot_offset (Broker.state_sequence_ b)) d = (r, d') ->
  Disk.only (vote_path (Broker.config_ b)) d d' /\
  (r = Ok kStateSlotBytes -> exists file', records file' new (Broker.state_sequence_ b) /\
     Disk.opened d' (Broker.state_file_ b) (vote_path (Broker.config_ b)) file').
Proof using DL.
  intros Gd Vf Hn Hs W. destruct (next_slot _ _ _ _ _ Vf Hn Hs) as (H0 & [Ho1 Ho2] & R). destruct Vf as [Op _].
  pose proof (Disk.file_bytes _ _ _ Gd (proj2 Op)) as [_ Hl].
  apply (Disk.pwrite_law _ _ _ _ _ _ _ _ Gd Op) in W; [|lia | apply slot_bytes_ok | by rewrite zlen_slot_bytes].
  destruct W as [(e & -> & Sm) | (k & On & Hk & F & _ & Ek)]; [by split; [apply same_only|]|].
  split; [done|]. intros Er. specialize (Ek _ Er) as <-. eexists. split; [exact R|]. split.
  - destruct Op as [[m Hm] _], On as (_ & -> & _). eauto.
  - by rewrite F, ztake_ge by (by rewrite zlen_slot_bytes).
Qed.

Lemma persist_vote state w h file r w' :
  Disk.good (Broker.disk w) -> vote_file (Broker.disk w) (Broker.broker w) h file -> hard_fits state ->
  Broker.state_sequence_ (Broker.broker w) < 2 ^ 64 - 2 -> Broker.persist observe state w = (r, w') ->
  Disk.only (vote_path (Broker.config_ (Broker.broker w))) (Broker.disk w) (Broker.disk w') /\
  (r = Ok tt -> Broker.fsync_hard_state (Broker.config_ (Broker.broker w)) = true ->
   exists file', vote_file (Broker.disk w') (Broker.broker w') state file' /\ on_platter (Broker.disk w') (Broker.config_ (Broker.broker w)) state).
Proof using DL PS.
  intros Gd Vf Hn Hs E. pose proof E as St. apply (persist_still observe PS) in St as (Eb & _). revert E.
  unfold Broker.persist. destruct (_ =? _); [intros [= <- <-]; by split; [apply same_only|]|].
  rewrite encode_slot. destruct (Disk.pwrite _ _ _ _) as [wr d1] eqn:W.
  apply (slot_written _ _ _ _ _ _ _ Gd Vf Hn Hs) in W as [On Wr].
  destruct wr as [n|e]; [|by intros [= <- <-]]. rewrite zlen_slot_bytes. destruct (n =? 32) eqn:En; cbn [negb]; [|by intros [= <- <-]].
  bool_prop. subst n. destruct (Wr eq_refl) as (file' & R & Op). destruct (Broker.fsync_hard_state _) eqn:Ef.
  2:{ intros [= <- <-]. unfold Broker.modify. rewrite (notify_disk observe PS). by split. }
  cbn [Broker.disk]. destruct (Disk.fsync _ _) as [fr d2] eqn:F. cbn in F.
  apply (Disk.fsync_law _ _ _ _ _ _ (proj1 On) Op) in F as [Sm Sd].
  assert (Disk.only (vote_path (Broker.config_ (Broker.broker w))) (Broker.disk w) d2) as On2.
  { destruct On as (_ & O1 & O2 & O3), Sm as (S1 & S2 & S3 & S4). split_and!; try done; [congruence | |]; intros; [rewrite S2 | apply S4]; auto. }
  destruct fr as [[]|e]; intros [= <- <-]; [|by split].
  rewrite !(notify_disk observe PS), (notify_broker observe PS). split; [exact On2|]. intros _ _. exists file'.
  split; [|eexists file', _; split_and!; [exact R | cbn; destruct Sm as (_ & -> & _); apply Op | by apply Sd]].
  split; cbn.
  - destruct Op as [[m Hm] Hf], Sm as (_ & S2 & S3 & _). cbn in *. split; [exists m|]; congruence.
  - right. exists (Broker.state_sequence_ (Broker.broker w)). split; [done|]. apply wrap_small. pose proof (rc_sequence _ _ _ R). pow2. lia.
Qed.

(** Somebody else's write leaves the vote file alone. *)
Lemma vote_kept P (d d' : D) b b' h file :
  vote_file d b h file -> kept P d d' -> P (vote_path (Broker.config_ b)) -> Broker.config_ b' = Broker.config_ b ->
  Broker.state_file_ b' = Broker.state_file_ b -> Broker.state_sequence_ b' = Broker.state_sequence_ b ->
  vote_file d' b' h file.
Proof using Type.
  intros [[[m Hm] Hf] Sy] K HP E1 E2 E3. split; rewrite ?E1, ?E2, ?E3; [|done].
  split; [exists m; by eapply (kp_handles _ _ _ K) | by rewrite (kp_files _ _ _ K)].
Qed.

Lemma vote_foreign c dir : foreign dir (vote_path c).
Proof using Type. intros v [E | E]; [by apply vote_path_log in E | by apply vote_path_index in E]. Qed.

(** ** Loading *)

Lemma open_kept (d d' : D) p m f :
  Disk.good d -> Disk.file_path p -> Disk.open p m d = (Ok f, d') -> kept (fun q => q <> p) d d'.
Proof using DL.
  intros Gd Hp O. apply (Disk.open_law _ _ _ _ _ Gd Hp) in O as (Hn & G' & Hh & Hs & Fs). split; [done | | | auto].
  - intros q Hq. destruct Fs as [[_ ->] | (_ & _ & -> & _)]; [done|]. by rewrite lookup_insert_ne.
  - intros g q m' _ Hg. rewrite Hh, lookup_insert_ne; [done|]. congruence.
Qed.

(** The disk failed a call of [load_hard_state]. *)
Definition refused_load (c : Broker.BrokerConfig) (e : ErrorCode) : Prop :=
  (exists d d', Disk.open (vote_path c) kCreate d = (fail e, d')) \/
  (exists f d d', Disk.size f d = (fail e, d')) \/ (exists f d d', Disk.pread f kStateFileBytes 0 d = (fail e, d')).

(** A vote that is in the file is the vote that is loaded, unless the disk fails the call. *)
Lemma load_vote w file h k r w' :
  Disk.good (Broker.disk w) -> Disk.files (Broker.disk w) !! vote_path (Broker.config_ (Broker.broker w)) = Some file ->
  records file h k -> Broker.load_hard_state w = (r, w') ->
  (r = Ok h /\ vote_file (Broker.disk w') (Broker.broker w') h file) \/
  (exists e, r = fail e /\ refused_load (Broker.config_ (Broker.broker w)) e).
Proof using DL.
  intros Gd F R. unfold Broker.load_hard_state. fold (vote_path (Broker.config_ (Broker.broker w))).
  destruct (Disk.open _ _ _) as [[f|e] d1] eqn:O; [|intros [= <- <-]; right; exists e; split; [done|]; left; eauto].
  apply (Disk.open_law _ _ _ _ _ Gd (vote_path_file _)) in O as (_ & G1 & H1 & _ & Fs).
  assert (Disk.opened d1 f (vote_path (Broker.config_ (Broker.broker w))) file) as Op1.
  { split; [exists kCreate; by rewrite H1, lookup_insert_eq|]. destruct Fs as [[_ ->] | (_ & Hn & _)]; congruence. }
  cbn [Broker.disk Broker.modify set]. destruct (Disk.size f _) as [sz d2] eqn:Sz. cbn in Sz.
  destruct sz as [n|e]; [|intros [= <- <-]; right; exists e; split; [done|]; right; left; eauto].
  apply (Disk.size_law _ _ _ _ _ _ G1 Op1) in Sz as [Sm2 Hn]. specialize (Hn n eq_refl) as ->.
  pose proof (rc_length _ _ _ R) as Hl. unfold kStateFileBytes, kStateSlotBytes in Hl.
  rewrite (proj2 (Z.eqb_neq _ _)) by lia. pose proof (same_opened _ _ _ _ _ Sm2 Op1) as Op2.
  cbn [Broker.disk set]. destruct (Disk.pread f _ _ _) as [got d3] eqn:Rd. cbn in Rd.
  destruct got as [bs|e]; [|intros [= <- <-]; right; exists e; split; [done|]; right; right; eauto].
  apply (Disk.pread_law _ _ _ _ _ _ _ _ (proj1 Sm2) Op2) in Rd as [Sm3 Hbs]; [|by vm_compute|done].
  specialize (Hbs bs eq_refl) as ->. pose proof (load_records _ _ _ R) as Ld. unfold StateFile.load_hard_state in Ld.
  rewrite (proj2 (Z.eqb_neq _ _)) in Ld by lia. change (zsub 0 kStateFileBytes file) with (ztake kStateFileBytes file).
  destruct (scan_state_file _) as [sc|e]; cbn in Ld; [|done]. injection Ld as Eh Es.
  intros [= <- <-]. left. rewrite Eh. split; [done|]. split; cbn.
  - eapply same_opened; [exact Sm3 | exact Op2].
  - right. exists k. by rewrite Es.
Qed.

(** ** Carrying out the node's orders *)

Section Steady.
Context {SD : Disk.steady D}.
#[local] Set Default Proof Using "Type*".

Lemma append_order_durable entry l w all xs w' :
  standing (Broker.disk w) l all xs -> offsets_left l -> bytes_ok entry ->
  Broker.append_order observe entry l w = (Ok tt, w') ->
  exists l', Broker.log_ (Broker.broker w') = Some l' /\ Log.dir_ l' = Log.dir_ l /\
    standing (Broker.disk w') l' (all ++ [entry]) (all ++ [entry]) /\
    kept (foreign (Log.dir_ l)) (Broker.disk w) (Broker.disk w').
Proof.
  intros St Ho Hb. unfold Broker.append_order. destruct entry as [|z entry]; [done|].
  destruct (Log.append_replicated _ _ _) as [[r1 l1] d1] eqn:Ap. pose proof Ap as K.
  apply (replicated_foreign _ _ _ _ _ _ _ (standing_holds _ _ _ _ St) Ho Hb) in K as [K Ed].
  apply (standing_replicated _ _ _ _ _ _ _ _ St Ho Hb) in Ap. destruct r1 as [u|e]; [|done].
  cbn [Broker.disk Broker.modify set]. destruct (Log.fsync l1 _) as [r2 d2] eqn:Fs. cbn in Fs.
  destruct r2 as [[]|e]; [|done].
  assert (Disk.same d1 d2) as Sm.
  { destruct Ap as (bss & bs & base & sbs & _ & [[_ (segs & active & E & _ & S) _] _ _ _] & _).
    unfold Log.fsync in Fs. rewrite E, back_snoc in Fs. by eapply fsync_same; [apply S|]. }
  apply (standing_fsync _ _ _ _ _ _ Ap) in Fs as [_ St2]. specialize (St2 eq_refl). intros [= <-].
  exists l1. rewrite (notify_broker observe PS), (notify_disk observe PS). cbn. split_and!; try done.
  eapply kept_trans; [|exact K | by apply (same_kept (fun _ => True))]. done.
Qed.

(** What the orders leave of a log: the batches in front of the cut, and everything if there is
    none. *)
Definition left_over (ready : Ready) (l : Log.t) (all' rest : list (list Z)) : Prop :=
  if truncate_from ready =? kNoIndex then rest = [] else chain (Log.start_offset_ l) all' (truncate_from ready).

(** Log orders that were carried out: a cut leaves a leading part, an appended entry is at the
    end and everything up to it on the platter, and without orders what was there still is. *)
Lemma carry_out_durable ready entry w l all xs w' :
  Broker.log_ (Broker.broker w) = Some l -> standing (Broker.disk w) l all xs -> offsets_left l -> bytes_ok entry ->
  Broker.carry_out_log_orders observe ready entry w = (Ok tt, w') ->
  exists l' all' rest, Broker.log_ (Broker.broker w') = Some l' /\ all = all' ++ rest /\ Log.dir_ l' = Log.dir_ l /\
    left_over ready l all' rest /\
    kept (foreign (Log.dir_ l)) (Broker.disk w) (Broker.disk w') /\
    if append_entry ready then standing (Broker.disk w') l' (all' ++ [entry]) (all' ++ [entry])
    else standing (Broker.disk w') l' all' (if truncate_from ready =? kNoIndex then xs else []).
Proof.
  intros El St Ho Hb. assert (Disk.good (Broker.disk w)) as Gd by (destruct St as (? & ? & ? & ? & _ & [I _ _ _] & _); apply I).
  unfold Broker.carry_out_log_orders, left_over. rewrite El. destruct (truncate_from ready =? kNoIndex) eqn:Et; cbn [negb andb].
  - destruct (append_entry ready) eqn:Ea; cbn [negb].
    + intros E. destruct (append_order_durable _ _ _ _ _ _ St Ho Hb E) as (l' & E1 & E2 & St' & K).
      exists l', all, []. rewrite app_nil_r. by split_and!.
    + intros [= <-]. exists l, all, []. rewrite app_nil_r. by split_and!.
  - bool_prop. destruct (Log.truncate_to _ _ _) as [[cut l1] d1] eqn:Tr. destruct cut as [[]|e]; [|done]. cbn [ok].
    apply (standing_truncate _ _ _ _ _ _ _ St) in Tr as (all' & rest & -> & St1 & (Ed & _ & Es) & En & Hle & K).
    pose proof (holds_chain _ _ _ (standing_holds _ _ _ _ St1)) as Ch. rewrite Es, En in Ch.
    set (w1 := Broker.modify _ _). set (w2 := Broker.notify _ _ _).
    assert (Broker.disk w2 = d1 /\ Broker.log_ (Broker.broker w2) = Some l1) as [E1 E2].
    { unfold w2. by rewrite (notify_disk observe PS), (notify_broker observe PS). }
    clearbody w2. destruct (append_entry ready) eqn:Ea.
    + intros E. rewrite <- E1 in St1. assert (offsets_left l1) as Ho1 by (unfold offsets_left in *; lia).
      destruct (append_order_durable _ _ _ _ _ _ St1 Ho1 Hb E) as (l' & E3 & E4 & St' & K').
      exists l', all', rest. split_and!; try done; [congruence|]. rewrite E1, Ed in K'. eapply kept_trans; [|exact K | exact K']. done.
    + intros [= <-]. exists l1, all', rest. rewrite E1. by split_and!.
Qed.

(** ** What is on the platter when a [Ready] is spoken *)

(** The entry and the vote of [ready], if it has them, are on the platter, and otherwise what
    was there before; [all] is what the log held before, [xs] the part of it that was on the
    platter, and [old] the votes that were. *)
Definition log_promised (ready : Ready) (entry : list Z) (all xs : list (list Z)) (l0 : Log.t) w : Prop :=
  exists l all' rest, Broker.log_ (Broker.broker w) = Some l /\ Log.dir_ l = Log.dir_ l0 /\ all = all' ++ rest /\
    left_over ready l0 all' rest /\
    if append_entry ready then standing (Broker.disk w) l (all' ++ [entry]) (all' ++ [entry])
    else standing (Broker.disk w) l all' (if truncate_from ready =? kNoIndex then xs else []).

Record promised (ready : Ready) (entry : list Z) (all xs : list (list Z)) (l0 : Log.t) (old : HardState -> Prop) w : Prop := {
  pm_log : log_promised ready entry all xs l0 w;
  pm_vote : persist_hard_state ready = true ->
    on_platter (Broker.disk w) (Broker.config_ (Broker.broker w)) (hard_state ready);
  pm_kept h : persist_hard_state ready = false -> old h ->
    on_platter (Broker.disk w) (Broker.config_ (Broker.broker w)) h }.

Lemma log_promised_kept ready entry all xs l0 w w' :
  log_promised ready entry all xs l0 w -> kept (log_file_of (Log.dir_ l0)) (Broker.disk w) (Broker.disk w') ->
  Broker.log_ (Broker.broker w') = Broker.log_ (Broker.broker w) -> log_promised ready entry all xs l0 w'.
Proof.
  intros (l & all' & rest & P1 & P2 & P3 & P4 & P5) K E. exists l, all', rest. split_and!; try done; [congruence|].
  rewrite <- P2 in K. case_match; (eapply standing_kept; [exact P5 | exact K]).
Qed.

Lemma promised_same ready entry all xs l0 old w w' :
  promised ready entry all xs l0 old w -> Disk.same (Broker.disk w) (Broker.disk w') ->
  Broker.log_ (Broker.broker w') = Broker.log_ (Broker.broker w) ->
  Broker.config_ (Broker.broker w') = Broker.config_ (Broker.broker w) -> promised ready entry all xs l0 old w'.
Proof.
  intros [Pl Pv Pk] Sm E1 E2.
  assert (forall h, on_platter (Broker.disk w) (Broker.config_ (Broker.broker w)) h -> on_platter (Broker.disk w') (Broker.config_ (Broker.broker w')) h) as On.
  { intros h (file & k & R & F & St). exists file, k. rewrite E2. destruct Sm as (_ & -> & _ & Sm). auto. }
  split; [eapply log_promised_kept; [exact Pl | by apply same_kept | done] | auto | auto].
Qed.

(** Sending reads the disk and no more. *)
Lemma flush_disk conn w : Broker.disk (Broker.flush self conn w) = Broker.disk w.
Proof using Type.
  unfold Broker.flush. destruct (_ !! _) as [s|]; [|done]. generalize (length (Buffer.slice (Broker.out s))) as fuel.
  intros fuel. revert s w. induction fuel as [|fuel IH]; intros s w; cbn [Broker.flush_loop]; (destruct (Buffer.empty _); [done|]); [done|].
  destruct (Network.write _ _ _) as [[n|e] n1]; [|by destruct (bool_decide _)]. destruct (n =? 0); [done|]. by rewrite IH.
Qed.

Lemma read_entry_same i w l all r w' : Broker.log_ (Broker.broker w) = Some l -> holds (Broker.disk w) l all ->
  Broker.read_entry i w = (r, w') -> Disk.same (Broker.disk w) (Broker.disk w').
Proof.
  intros El Hh. unfold Broker.read_entry. rewrite El. destruct (Log.read _ _ _ _) as [got d1] eqn:R.
  assert (Disk.same (Broker.disk w) d1) as Sm by (by eapply log_read_same; [exact Hh | | exact R]).
  destruct got as [bs|e]; [|by intros [= <- <-]]. destruct (_ =? 0); [by intros [= <- <-]|].
  destruct (decode_header bs); [|by intros [= <- <-]]. destruct (negb _); by intros [= <- <-].
Qed.

Lemma outgoing_same m w l all r w' : Broker.log_ (Broker.broker w) = Some l -> holds (Broker.disk w) l all ->
  Broker.outgoing_entry m w = (r, w') -> Disk.same (Broker.disk w) (Broker.disk w').
Proof.
  intros El Hh. assert (Disk.good (Broker.disk w)) as Gd by (destruct Hh as (? & ? & ? & _ & I & _); apply I).
  unfold Broker.outgoing_entry. destruct (carries_entry m); [|intros [= <- <-]; by apply same_refl].
  destruct (Broker.read_entry _ w) as [[en|e] w1] eqn:R; apply (read_entry_same _ _ _ _ _ _ El Hh) in R; [|by intros [= <- <-]].
  destruct (decode_header en); by intros [= <- <-].
Qed.

Lemma send_raft_same m w l all : Broker.log_ (Broker.broker w) = Some l -> holds (Broker.disk w) l all ->
  Disk.same (Broker.disk w) (Broker.disk (Broker.send_raft self m w)).
Proof.
  intros El Hh. assert (Disk.good (Broker.disk w)) as Gd by (destruct Hh as (? & ? & ? & _ & I & _); apply I).
  unfold Broker.send_raft. destruct (list_find _ _) as [[i p]|]; [|by apply same_refl].
  destruct (Broker.outgoing_entry m w) as [r w1] eqn:O. apply (outgoing_same _ _ _ _ _ _ El Hh) in O.
  destruct r as [[y entry]|]; [|done]. destruct (Broker.peer_conn _ _ _ _) as [c w2] eqn:P.
  assert (Broker.disk w2 = Broker.disk w1) as E2.
  { revert P. unfold Broker.peer_conn. destruct (_ =? _); [|by intros [= <- <-]]. destruct (Network.connect _ _ _) as [[?|?] ?]; by intros [= <- <-]. }
  rewrite <- E2 in O. destruct c as [conn|]; [|done]. unfold Broker.send.
  match goal with |- Disk.same _ (Broker.disk (Broker.modify _ ?x)) => change (Disk.same (Broker.disk w) (Broker.disk x)) end.
  by rewrite flush_disk.
Qed.

Lemma send_all_promised ready entry all xs l0 old ms : forall w,
  promised ready entry all xs l0 old w -> promised ready entry all xs l0 old (foldl (fun w m => Broker.send_raft self m w) w ms).
Proof.
  induction ms as [|m ms IH]; intros w Pm; cbn [foldl]; [done|]. apply IH.
  destruct (send_raft_says self m w) as [sent Sy]. apply says_spoke in Sy as (s & p & c & r & E & _ & _).
  eapply promised_same; [exact Pm | | by rewrite E..].
  destruct Pm as [(l & all' & rest & El & _ & _ & _ & St) _ _].
  by case_match; (eapply send_raft_same; [exact El | by eapply standing_holds]).
Qed.

(** The vote follows the log. *)
Lemma persist_promised ready entry all xs l0 old w h file w' :
  log_promised ready entry all xs l0 w -> Disk.good (Broker.disk w) ->
  vote_file (Broker.disk w) (Broker.broker w) h file -> Broker.state_sequence_ (Broker.broker w) < 2 ^ 64 - 2 ->
  hard_fits (hard_state ready) -> Broker.fsync_hard_state (Broker.config_ (Broker.broker w)) = true ->
  persist_hard_state ready = true -> Broker.persist observe (hard_state ready) w = (Ok tt, w') ->
  promised ready entry all xs l0 old (Broker.with_raft hard_state_persisted w').
Proof.
  intros Pl Gd Vf Hs Hf Fs Hp P. pose proof P as S. apply (persist_still observe PS) in S as (Eb & _).
  apply (persist_vote _ _ _ _ _ _ Gd Vf Hf Hs) in P as [On P]. destruct (P eq_refl Fs) as (file' & _ & Pf).
  assert (promised ready entry all xs l0 old w') as Pm.
  { split; [|intros _; by rewrite Eb | by rewrite Hp]. eapply log_promised_kept; [exact Pl | | by rewrite Eb].
    eapply kept_weaken; [|by apply only_kept]. intros p (v & _ & ->) E. by eapply vote_path_log. }
  unfold Broker.with_raft. destruct (Broker.raft_ _); [|done]. eapply promised_same; [exact Pm | | done..].
  apply same_refl, On.
Qed.

(** [drive] says nothing, or what it says has been made good before. *)
Lemma drive_promised entry w n ready n1 l all xs h file :
  up w n -> take_ready n = (ready, n1) -> Broker.log_ (Broker.broker w) = Some l ->
  standing (Broker.disk w) l all xs -> offsets_left l -> bytes_ok entry ->
  vote_file (Broker.disk w) (Broker.broker w) h file -> Broker.state_sequence_ (Broker.broker w) < 2 ^ 64 - 2 ->
  hard_fits (hard_state ready) -> Broker.fsync_hard_state (Broker.config_ (Broker.broker w)) = true ->
  let w' := Broker.drive self observe entry w in
  let old := on_platter (Broker.disk w) (Broker.config_ (Broker.broker w)) in
  silent w w' \/ exists w1 sent, silent w w1 /\ says_all self (messages ready) w1 sent w' /\
    promised ready entry all xs l old w1 /\ promised ready entry all xs l old w'.
Proof.
  intros U Tr El St Ho Hb Vf Hs Hf Fs. cbv zeta. set (old := on_platter _ _). pose proof (calm_take observe PS _ _ _ _ U Tr) as C0.
  pose proof (broker_drive_cases self observe entry w n ready n1 (up_raft _ _ U) Tr) as C. cbv zeta in C.
  destruct (note_commit_still observe PS (ready_commit_index ready) (Broker.modify (fun b => b <| Broker.raft_ := Some n1 |>) w)) as (x & (Eb & _) & Ed).
  set (w0 := Broker.note_commit _ _ _) in *. clearbody w0.
  change (Broker.broker w0 = Broker.broker w <| Broker.raft_ := Some n1 |> <| Broker.last_commit_seen_ := x |>) in Eb.
  change (Broker.disk w0 = Broker.disk w) in Ed.
  rewrite <- Ed in St. assert (Broker.log_ (Broker.broker w0) = Some l) as El0 by (by rewrite Eb).
  assert (vote_file (Broker.disk w0) (Broker.broker w0) h file) as Vf0 by (rewrite Ed, Eb; destruct Vf; by split).
  destruct C as [[_ ->] | [(_ & e & wa & Ca & ->) | (_ & wa & Ca & C)]]; [left; apply C0 | |].
  { left. destruct (calm_then _ _ _ _ _ C0 (calm_carry observe PS _ _ _ _ _ _ (cm_up _ _ _ C0) Ca)) as [_ Q _]. exact Q. }
  pose proof (calm_then _ _ _ _ _ C0 (calm_carry observe PS _ _ _ _ _ _ (cm_up _ _ _ C0) Ca)) as CA.
  pose proof Ca as Sa. apply (carry_out_still observe PS) in Sa as (y & (Ea & _) & _).
  apply (carry_out_durable _ _ _ _ _ _ _ El0 St Ho Hb) in Ca as (l' & all' & rest & E1 & E2 & E3 & E4 & K & St').
  assert (log_promised ready entry all xs l wa) as Pl by (by exists l', all', rest).
  assert (vote_file (Broker.disk wa) (Broker.broker wa) h file) as Vfa.
  { eapply vote_kept; [exact Vf0 | exact K | apply vote_foreign | by rewrite Ea..]. }
  assert (forall w1, silent w w1 -> promised ready entry all xs l old w1 ->
    let w' := foldl (fun w m => Broker.send_raft self m w) w1 (messages ready) in
    exists w1 sent, silent w w1 /\ says_all self (messages ready) w1 sent w' /\
      promised ready entry all xs l old w1 /\ promised ready entry all xs l old w') as Say.
  { intros w1 Q Pm. destruct (send_all_says self (messages ready) w1) as [sent Sy]. exists w1, sent.
    split_and!; try done. by apply send_all_promised. }
  destruct C as [(_ & e & wp & P & ->) | [(Hp & wp & P & ->) | (Hp & ->)]].
  - left. by destruct (calm_then _ _ _ _ _ CA (calm_persist observe PS _ _ _ _ _ (cm_up _ _ _ CA) P)).
  - right. apply Say.
    + pose proof (calm_then _ _ _ _ _ CA (calm_persist observe PS _ _ _ _ _ (cm_up _ _ _ CA) P)) as CP.
      apply (calm_then _ _ _ _ _ CP (calm_with_raft hard_state_persisted _ _ (cm_up _ _ _ CP) eq_refl)).
    + eapply persist_promised; [exact Pl | apply K | exact Vfa | by rewrite Ea, Eb | done | by rewrite Ea, Eb | done | exact P].
  - right. apply Say; [apply CA|]. split; [done | by rewrite Hp|]. intros h0 _ (vf & k & R & F & Sv). exists vf, k.
    rewrite Ea, Eb. rewrite <- Ed in F, Sv. split; [done|]. pose proof (vote_foreign (Broker.config_ (Broker.broker w)) (Log.dir_ l)) as Fg.
    split; [by rewrite (kp_files _ _ _ K) | by apply (kp_settled _ _ _ K)].
Qed.

(** ** After the power cut *)

Lemma promised_good ready entry all xs l0 old w : promised ready entry all xs l0 old w -> Disk.good (Broker.disk w).
Proof.
  intros [(l & all' & rest & _ & _ & _ & _ & St) _ _].
  case_match; destruct St as (? & ? & ? & ? & _ & [I _ _ _] & _); apply I.
Qed.

Lemma platter_survives (crashed : D -> D -> Prop) `{!Disk.crash_laws D crashed} w h d2 w2 r w3 :
  Disk.good (Broker.disk w) -> on_platter (Broker.disk w) (Broker.config_ (Broker.broker w)) h ->
  crashed (Broker.disk w) d2 -> Broker.disk w2 = d2 ->
  Broker.config_ (Broker.broker w2) = Broker.config_ (Broker.broker w) -> Broker.load_hard_state w2 = (r, w3) ->
  r = Ok h \/ exists e, r = fail e /\ refused_load (Broker.config_ (Broker.broker w)) e.
Proof.
  intros Gd (file & k & R & F & St) Cr Ed Ec Ld. destruct (Disk.crash_law _ _ Gd Cr) as (G2 & _ & _ & _ & Wh).
  eapply load_vote in Ld as [[-> _] | (e & -> & Rf)]; [by left | right; exists e; split; [done | by rewrite <- Ec] | by rewrite Ed | | exact R].
  rewrite Ed, Ec. by apply Wh.
Qed.

End Steady.

End Durable.
