(* ===== verification/BrokerMember.v ===== *)
(** * The broker as a member of the cluster

    Every entry point of a broker that is up, as an event of [Cluster.v]: the storage results
    of the event are the answers of the broker's own disk at the moment [drive] asks it, the
    messages of the event are those that leave, and the member's durable state is what the
    broker's vote file says, the state a restarted process loads. *)
From S2P Require Import Prelude Base Random Wire RecordBatch SparseIndex Disk Segment Chain SegmentFacts SegmentProps.
From S2P Require Import Log LogFacts LogRecovery LogDurable LogCut Network RaftTypes RaftCodec RaftNode StateFile.
From S2P Require Import Broker Cluster BrokerFacts BrokerRefines BrokerDurable.

Section Member.
Context {G : Type} {RG : Random G} {D : Type} {DO : Disk.t D} {DV : Disk.view D}.
Context {N H : Type} {NO : Network.t N H} {L T : Type} {LO : Timers L T} {V : Type}.
Context (self : H) (tick_task : T).
Abbreviation World := (Broker.World G D N L V).
Context (observe : Observation -> World -> World) (PS : passive observe).
Implicit Type w : World.

(** ** The vote file *)

(** The vote file is open and says [h]: it is empty, or its latest slot has the number before
    the next one, or the next one itself, after a write that reached the file and was not
    confirmed. *)
Definition vote_says (d : D) (b : Broker.t G) (h : HardState) : Prop := exists file,
  Disk.opened d (Broker.state_file_ b) (vote_path (Broker.config_ b)) file /\
  (file = [] /\ Broker.state_sequence_ b = 0 /\ h = default_hard_state \/
   exists k, records file h k /\ (Broker.state_sequence_ b = k + 1 \/ Broker.state_sequence_ b = k)).

(** Whoever leaves the file and its handle alone leaves the vote alone. *)
Lemma vote_says_kept P (d d' : D) b b' h :
  vote_says d b h -> kept P d d' -> P (vote_path (Broker.config_ b)) -> Broker.config_ b' = Broker.config_ b ->
  Broker.state_file_ b' = Broker.state_file_ b -> Broker.state_sequence_ b' = Broker.state_sequence_ b ->
  vote_says d' b' h.
Proof using Type.
  intros (file & [[m Hm] Hf] & Sy) K HP E1 E2 E3. exists file. rewrite E1, E2, E3. split; [|done].
  split; [exists m; by eapply (kp_handles _ _ _ K) | by rewrite (kp_files _ _ _ K)].
Qed.

(** The disk is as it was, and so is what the broker keeps there. *)
Definition stored w w' : Prop :=
  Broker.disk w' = Broker.disk w /\ Broker.log_ (Broker.broker w') = Broker.log_ (Broker.broker w) /\
  Broker.state_file_ (Broker.broker w') = Broker.state_file_ (Broker.broker w) /\
  Broker.state_sequence_ (Broker.broker w') = Broker.state_sequence_ (Broker.broker w) /\
  Broker.config_ (Broker.broker w') = Broker.config_ (Broker.broker w).

Lemma stored_trans w1 w2 w3 : stored w1 w2 -> stored w2 w3 -> stored w1 w3.
Proof using Type. intros (A1 & A2 & A3 & A4 & A5) (B1 & B2 & B3 & B4 & B5). unfold stored. split_and!; congruence. Qed.

Lemma stored_with_raft f w : stored w (Broker.with_raft f w).
Proof using Type. unfold stored, Broker.with_raft. by destruct (Broker.raft_ _). Qed.

Lemma stored_notify o w : stored w (Broker.notify observe o w).
Proof using PS. unfold stored. by rewrite (notify_disk observe PS), (notify_broker observe PS). Qed.

Lemma stored_note_commit i w : stored w (Broker.note_commit observe i w).
Proof using PS. destruct (note_commit_still observe PS i w) as (x & (E & _) & Ed). unfold stored. by rewrite E, Ed. Qed.

Lemma stored_vote w w' h : stored w w' -> vote_says (Broker.disk w) (Broker.broker w) h -> vote_says (Broker.disk w') (Broker.broker w') h.
Proof using Type. intros (E1 & _ & E3 & E4 & E5) (file & Hf). exists file. by rewrite E1, E3, E4, E5. Qed.

Section Steady.
Context {DL : Disk.laws D} {SD : Disk.steady D}.
#[local] Set Default Proof Using "DL SD PS RG LO".

Lemma vote_says_same (d d' : D) b b' h :
  vote_says d b h -> Disk.same d d' -> Broker.config_ b' = Broker.config_ b ->
  Broker.state_file_ b' = Broker.state_file_ b -> Broker.state_sequence_ b' = Broker.state_sequence_ b ->
  vote_says d' b' h.
Proof using DL. intros Vs Sm. by apply (vote_says_kept (fun _ => True) _ _ _ _ _ Vs (same_kept _ _ _ Sm)). Qed.

(** The next slot, written whole, records the new state under the next number. *)
Lemma says_next (b : Broker.t G) h file new :
  (file = [] /\ Broker.state_sequence_ b = 0 /\ h = default_hard_state \/
   exists k, records file h k /\ (Broker.state_sequence_ b = k + 1 \/ Broker.state_sequence_ b = k)) ->
  hard_fits new -> Broker.state_sequence_ b < 2 ^ 64 - 2 ->
  0 <= Broker.state_sequence_ b /\ 0 <= state_slot_offset (Broker.state_sequence_ b) <= zlen file /\
  records (overwrite file (state_slot_offset (Broker.state_sequence_ b)) (slot_bytes new (Broker.state_sequence_ b)))
    new (Broker.state_sequence_ b).
Proof using Type.
  intros [(-> & -> & ->) | (k & R & [-> | ->])] Hn Hs.
  - split; [done|]. split; [vm_compute; by split|]. change (state_slot_offset 0) with 0.
    rewrite overwrite_pwrite by (apply slot_nonempty || (unfold zlen; simpl; lia)).
    rewrite <- encode_slot. by apply first_persist.
  - pose proof (rc_sequence _ _ _ R) as Hk. pose proof (rc_length _ _ _ R) as Hl.
    unfold kStateFileBytes, kStateSlotBytes in *.
    assert (0 <= state_slot_offset (k + 1) <= zlen file) as Ho by (destruct (slot_offset_cases k); lia).
    split; [lia|]. split; [done|]. rewrite overwrite_pwrite by (done || apply slot_nonempty).
    rewrite <- encode_slot. by apply (persist_records _ _ _ _ R).
  - pose proof (rc_sequence _ _ _ R) as Hk. pose proof (rc_slot _ _ _ R) as Hl. apply (f_equal zlen) in Hl.
    rewrite zlen_slot_bytes in Hl. unfold zsub, kStateSlotBytes in Hl. rewrite zlen_ztake, zlen_zdrop in Hl.
    assert (0 <= state_slot_offset k <= zlen file) as Ho by (destruct (slot_offset_cases k); lia).
    split; [lia|]. split; [done|]. rewrite overwrite_pwrite by (done || apply slot_nonempty). by apply (rewrite_records _ h).
Qed.

(** Once the slot is in the file, syncing it and counting it leaves the vote there. *)
Lemma slot_says (d d1 d2 : D) (b b' : Broker.t G) state file :
  Disk.only (vote_path (Broker.config_ b)) d d1 -> Disk.same d1 d2 ->
  Disk.opened d1 (Broker.state_file_ b) (vote_path (Broker.config_ b)) file ->
  records file state (Broker.state_sequence_ b) -> 0 <= Broker.state_sequence_ b < 2 ^ 64 - 2 ->
  Broker.config_ b' = Broker.config_ b -> Broker.state_file_ b' = Broker.state_file_ b ->
  (Broker.state_sequence_ b' = u64 (Broker.state_sequence_ b + 1) \/ Broker.state_sequence_ b' = Broker.state_sequence_ b) ->
  Disk.only (vote_path (Broker.config_ b)) d d2 /\ vote_says d2 b' state.
Proof using DL.
  intros On Sm Op R Hs E1 E2 E3. split.
  - destruct On as (_ & O1 & O2 & O3), Sm as (S1 & S2 & S3 & S4). split_and!; try done; [congruence | |]; intros; [rewrite S2 | apply S4]; auto.
  - eexists. rewrite E1, E2. split; [by eapply same_opened|]. right. eexists. split; [exact R|].
    destruct E3 as [E3 | E3]; [left | by right]. rewrite E3. apply wrap_small. pow2. lia.
Qed.

(** [persist] on a steady disk: the file says the new state precisely if the slot got there,
    and a state that was confirmed did. *)
Lemma persist_says state w h r w' :
  Disk.good (Broker.disk w) -> vote_says (Broker.disk w) (Broker.broker w) h -> hard_fits state ->
  Broker.state_sequence_ (Broker.broker w) < 2 ^ 64 - 2 -> Broker.persist observe state w = (r, w') ->
  Disk.only (vote_path (Broker.config_ (Broker.broker w))) (Broker.disk w) (Broker.disk w') /\
  vote_says (Broker.disk w') (Broker.broker w') (if reaches_file state w then state else h) /\
  (ok r = true -> reaches_file state w = true).
Proof.
  intros Gd Vs Hn Hs. pose proof Vs as (file & Op & Sy). destruct (says_next _ _ _ _ Sy Hn Hs) as (H0 & Ho & R).
  unfold Broker.persist, reaches_file. destruct (_ =? _); cbn [negb andb].
  { intros [= <- <-]. split_and!; [by apply same_only | done | done]. }
  rewrite encode_slot. pose proof (Disk.file_bytes _ _ _ Gd (proj2 Op)) as [_ Hl].
  assert (0 <= state_slot_offset (Broker.state_sequence_ (Broker.broker w)) < 2 ^ 64) as Hoff by lia.
  set (s := slot_bytes state (Broker.state_sequence_ (Broker.broker w))) in *.
  assert (zlen s < 2 ^ 64) as Ls by (unfold s; by rewrite zlen_slot_bytes).
  assert (bytes_ok s) as Bs by apply slot_bytes_ok. destruct (Disk.pwrite _ _ _ _) as [wr d1] eqn:W.
  pose proof (Disk.steady_pwrite _ _ _ _ _ _ _ _ Gd Op Hoff Bs Ls W) as Wh. destruct wr as [n|e].
  2:{ intros [= <- <-]. split_and!; [by apply same_only | by eapply vote_says_same | done]. }
  subst n. apply (Disk.pwrite_law _ _ _ _ _ _ _ _ Gd Op Hoff Bs Ls) in W as [(e & [=] & _) | (m & On & Hm & F & _ & Em)].
  specialize (Em _ eq_refl) as <-. rewrite ztake_ge in F by lia. rewrite Z.eqb_refl. cbn [negb].
  assert (Disk.opened d1 (Broker.state_file_ (Broker.broker w)) (vote_path (Broker.config_ (Broker.broker w)))
    (overwrite file (state_slot_offset (Broker.state_sequence_ (Broker.broker w))) s)) as Op1.
  { destruct Op as [[md Hmd] _]. split; [exists md; by rewrite (proj1 (proj2 On)) | done]. }
  pose proof (fun d2 b' Sm => slot_says _ _ d2 _ b' _ _ On Sm Op1 R (conj H0 Hs)) as Out.
  assert ((zlen s =? kStateSlotBytes) = true) as -> by (unfold s, kStateSlotBytes; by rewrite zlen_slot_bytes).
  set (counted := Broker.broker w <| Broker.state_sequence_ := u64 (Broker.state_sequence_ (Broker.broker w) + 1) |>
    <| Broker.hard_state_writes_ := Broker.hard_state_writes_ (Broker.broker w) + 1 |>).
  cbn [Broker.disk set]. destruct (Broker.fsync_hard_state _).
  - destruct (Disk.fsync _ _) as [fr d2] eqn:Fs. cbn in Fs. apply (Disk.fsync_law _ _ _ _ _ _ (proj1 On) Op1) in Fs as [Sm _].
    destruct fr as [u|e]; intros [= <- <-].
    + rewrite !(notify_disk observe PS), !(notify_broker observe PS). destruct (Out d2 counted Sm) as [A B]; [done | done | by left | done].
    + destruct (Out d2 (Broker.broker w) Sm) as [A B]; [done | done | by right | done].
  - intros [= <- <-]. rewrite !(notify_disk observe PS), !(notify_broker observe PS).
    destruct (Out d1 counted (same_refl _ (proj1 On))) as [A B]; [done | done | by left | done].
Qed.

(** ** [drive] and the vote file *)

Lemma log_fsync_same (d d' : D) l all xs r : standing d l all xs -> Log.fsync l d = (r, d') -> Disk.same d d'.
Proof using DL.
  intros (bss & bs & base & sbs & _ & [[_ (segs & active & E & _ & S) _] _ _ _] & _) Fs.
  unfold Log.fsync in Fs. rewrite E, back_snoc in Fs. by eapply fsync_same; [apply S|].
Qed.

Lemma append_order_foreign entry l w all xs r w' :
  standing (Broker.disk w) l all xs -> offsets_left l -> bytes_ok entry ->
  Broker.append_order observe entry l w = (r, w') -> kept (foreign (Log.dir_ l)) (Broker.disk w) (Broker.disk w').
Proof.
  intros St Ho Hb. assert (Disk.good (Broker.disk w)) as Gd by (destruct St as (? & ? & ? & ? & _ & [I _ _ _] & _); apply I).
  unfold Broker.append_order. destruct entry as [|z entry]; [intros [= <- <-]; by apply kept_refl|].
  destruct (Log.append_replicated _ _ _) as [[r1 l1] d1] eqn:Ap. pose proof Ap as K.
  apply (replicated_foreign _ _ _ _ _ _ _ (standing_holds _ _ _ _ St) Ho Hb) in K as [K _].
  apply (standing_replicated _ _ _ _ _ _ _ _ St Ho Hb) in Ap. destruct r1 as [u|e]; [|by intros [= <- <-]].
  cbn [Broker.disk Broker.modify set]. destruct (Log.fsync l1 _) as [r2 d2] eqn:Fs. cbn in Fs.
  apply (log_fsync_same _ _ _ _ _ _ Ap) in Fs.
  assert (kept (foreign (Log.dir_ l)) (Broker.disk w) d2) as K2.
  { eapply kept_trans; [|exact K | by apply (same_kept (fun _ => True))]. done. }
  destruct r2; intros [= <- <-]; [by rewrite (notify_disk observe PS) | done].
Qed.

Lemma carry_out_foreign ready entry w l all xs r w' :
  Broker.log_ (Broker.broker w) = Some l -> standing (Broker.disk w) l all xs -> offsets_left l -> bytes_ok entry ->
  Broker.carry_out_log_orders observe ready entry w = (r, w') ->
  kept (foreign (Log.dir_ l)) (Broker.disk w) (Broker.disk w').
Proof.
  intros El St Ho Hb. assert (Disk.good (Broker.disk w)) as Gd by (destruct St as (? & ? & ? & ? & _ & [I _ _ _] & _); apply I).
  unfold Broker.carry_out_log_orders. rewrite El. destruct (truncate_from ready =? kNoIndex); cbn [negb andb].
  - destruct (append_entry ready); cbn [negb]; [by apply (append_order_foreign _ _ _ _ _ _ _ St Ho Hb) | intros [= <- <-]; by apply kept_refl].
  - destruct (Log.truncate_to _ _ _) as [[cut l1] d1] eqn:Tr. pose proof (truncate_foreign _ _ _ _ _ _ _ (standing_holds _ _ _ _ St) Tr) as K.
    destruct cut as [[]|e]; [|by intros [= <- <-]]. cbn [ok].
    apply (standing_truncate _ _ _ _ _ _ _ St) in Tr as (all' & rest & _ & St1 & (Ed & _) & En & Hle & _).
    set (w2 := Broker.notify _ _ _). assert (Broker.disk w2 = d1) as E1 by (unfold w2; by rewrite (notify_disk observe PS)). clearbody w2.
    destruct (append_entry ready); [|intros [= <- <-]; by rewrite E1]. intros E. rewrite <- E1 in St1, K.
    assert (offsets_left l1) as Ho1 by (unfold offsets_left in *; lia).
    pose proof (append_order_foreign _ _ _ _ _ _ _ St1 Ho1 Hb E) as K'. rewrite Ed in K'. eapply kept_trans; [|exact K | exact K']. done.
Qed.

(** Sending reads the disk and no more. *)
Lemma send_all_same ms l all : forall w, Broker.log_ (Broker.broker w) = Some l -> holds (Broker.disk w) l all ->
  Disk.same (Broker.disk w) (Broker.disk (foldl (fun w m => Broker.send_raft self m w) w ms)).
Proof.
  induction ms as [|m ms IH]; intros w El Hh; cbn [foldl].
  { destruct Hh as (? & ? & ? & _ & I & _). apply same_refl, I. }
  pose proof (send_raft_same self observe PS m w l all El Hh) as Sm.
  destruct (send_raft_says self m w) as [sent Sy]. apply says_spoke in Sy as (s & p & c & r & E & _ & _).
  assert (holds (Broker.disk (Broker.send_raft self m w)) l all) as Hh1.
  { destruct Hh as (bss & bs & base & Ea & I & C). exists bss, bs, base. split; [done|]. by eapply log_files_kept; [| |apply same_kept]. }
  assert (Broker.log_ (Broker.broker (Broker.send_raft self m w)) = Some l) as El1 by (by rewrite E).
  pose proof (IH _ El1 Hh1) as Sm1. destruct Sm as (A1 & A2 & A3 & A4), Sm1 as (B1 & B2 & B3 & B4).
  split_and!; [done | congruence | congruence | auto].
Qed.

Lemma send_all_vote ms w l all h : Broker.log_ (Broker.broker w) = Some l -> holds (Broker.disk w) l all ->
  vote_says (Broker.disk w) (Broker.broker w) h ->
  let w' := foldl (fun w m => Broker.send_raft self m w) w ms in vote_says (Broker.disk w') (Broker.broker w') h.
Proof.
  intros El Hh Vs. cbv zeta. destruct (send_all_says self ms w) as [sent Sy].
  apply says_all_spoke in Sy as (s & p & c & r & Es & _).
  eapply vote_says_same; [exact Vs | by eapply send_all_same | by rewrite Es..].
Qed.

(** What [drive] can rely on: a log in order, room for one more entry and one more vote. *)
Record drivable (entry : list Z) w : Prop := {
  dv_log : exists l all xs, Broker.log_ (Broker.broker w) = Some l /\ standing (Broker.disk w) l all xs /\ offsets_left l;
  dv_entry : bytes_ok entry;
  dv_room : Broker.state_sequence_ (Broker.broker w) < 2 ^ 64 - 2;
  dv_fits : forall n, Broker.raft_ (Broker.broker w) = Some n -> hard_fits (hard_ n) }.

Lemma holds_without_vote (d d' : D) l all c :
  holds d l all -> Disk.only (vote_path c) d d' -> holds d' l all.
Proof using DL.
  intros (bss & bs & base & Ea & I & C) On. exists bss, bs, base. split; [done|]. eapply log_files_kept; [exact I | exact C|].
  eapply kept_weaken; [|by apply only_kept]. intros p (v & _ & ->) E. by eapply vote_path_log.
Qed.

(** The vote file says what the cluster's [drive] leaves on the member's disk. *)
Lemma drive_says fsync_hard_state entry w n h lr pr landed sent running n' released write running' :
  up w n -> drivable entry w -> vote_says (Broker.disk w) (Broker.broker w) h ->
  storage observe entry w = (lr, pr, landed) ->
  Cluster.drive (mkEnv lr pr landed sent) n running = (n', released, write, running') ->
  let w' := Broker.drive self observe entry w in
  vote_says (Broker.disk w') (Broker.broker w') (durable_after fsync_hard_state (mkEnv lr pr landed sent) h write).
Proof.
  intros U [(l & all & xs & El & St & Ho) Hb Hs Hf] Vs Sg Cd. cbv zeta. specialize (Hf n (up_raft _ _ U)).
  destruct (take_ready n) as [ready n1] eqn:Tr. assert (hard_state ready = hard_ n) as Eh by (by injection Tr as <- _).
  pose proof (broker_drive_cases self observe entry w n ready n1 (up_raft _ _ U) Tr) as C. cbv zeta in C.
  unfold storage in Sg. rewrite (up_raft _ _ U), Tr in Sg. unfold Cluster.drive in Cd. rewrite Tr in Cd.
  destruct (note_commit_still observe PS (ready_commit_index ready) (Broker.modify (fun b => b <| Broker.raft_ := Some n1 |>) w)) as (x & (Eb & _) & Ed).
  set (w0 := Broker.note_commit _ _ _) in *. clearbody w0.
  change (Broker.broker w0 = Broker.broker w <| Broker.raft_ := Some n1 |> <| Broker.last_commit_seen_ := x |>) in Eb.
  change (Broker.disk w0 = Broker.disk w) in Ed.
  rewrite <- Ed in St. assert (Broker.log_ (Broker.broker w0) = Some l) as El0 by (by rewrite Eb).
  assert (vote_says (Broker.disk w0) (Broker.broker w0) h) as Vs0 by (rewrite Ed, Eb; exact Vs).
  destruct C as [[Em ->] | [(Em & e & wa & Ca & ->) | (Em & wa & Ca & C)]]; rewrite Em in Cd.
  { injection Cd as <- <- <- <-. exact Vs0. }
  all: pose proof (carry_out_foreign _ _ _ _ _ _ _ _ El0 St Ho Hb Ca) as K;
    pose proof Ca as Sa; apply (carry_out_still observe PS) in Sa as (y & (Ea & _) & _);
    (assert (vote_says (Broker.disk wa) (Broker.broker wa) h) as Va by (eapply vote_says_kept; [exact Vs0 | exact K | apply vote_foreign | by rewrite Ea..]));
    rewrite Ca in Sg.
  { injection Sg as <- <- <-. cbn [ok log_result negb] in Cd. rewrite andb_true_r in Cd. destruct (has_log_orders ready) eqn:Hl; [|].
    - injection Cd as <- <- <- <-. exact Va.
    - exfalso. rewrite carry_out_nothing in Ca; [done | by rewrite El0 | done]. }
  injection Sg as <- Ep <-. cbn [ok log_result negb] in Cd. rewrite andb_false_r in Cd.
  destruct (carry_out_durable self observe PS _ _ _ _ _ _ _ El0 St Ho Hb Ca) as (l' & all' & rest & E1 & _ & _ & _ & _ & Sd).
  assert (exists all2, holds (Broker.disk wa) l' all2) as [all2 Hh] by (case_match; eexists; by eapply standing_holds).
  assert (Disk.good (Broker.disk wa)) as Ga by apply K.
  destruct C as [(Hp & e & wp & P & ->) | [(Hp & wp & P & ->) | (Hp & ->)]]; rewrite Hp in Cd.
  - rewrite P in Ep. cbn in Ep. subst pr. injection Cd as <- <- <- <-. unfold durable_after. cbn [ok persist_result andb landed orb].
    rewrite <- Eh in Hf. by apply (persist_says _ _ _ _ _ Ga Va Hf) in P as (_ & Vp & _); [|by rewrite Ea, Eb].
  - rewrite P in Ep. cbn in Ep. subst pr. injection Cd as <- <- <- <-. unfold durable_after. cbn [ok persist_result andb landed orb].
    rewrite <- Eh in Hf. pose proof P as Sp. apply (persist_still observe PS) in Sp as (Epb & _).
    apply (persist_says _ _ _ _ _ Ga Va Hf) in P as (On & Vp & Rf); [|by rewrite Ea, Eb]. rewrite (Rf eq_refl) in *. rewrite orb_true_r.
    destruct (stored_with_raft hard_state_persisted wp) as (W1 & W2 & _).
    eapply send_all_vote; [rewrite W2; by rewrite Epb | rewrite W1; by eapply holds_without_vote|].
    by apply (stored_vote wp); [apply stored_with_raft|].
  - injection Cd as <- <- <- <-. by eapply send_all_vote.
Qed.

End Steady.

(** ** Entry points *)

(** The entry points of a broker that is up. *)
Inductive Input :=
  | OnTick
  | OnMessage (payload : list Z)
  | OnPropose (builder : BatchBuilder.t).

Definition serve (x : Input) w : World :=
  match x with
  | OnTick => Broker.on_tick self tick_task observe w
  | OnMessage payload => Broker.receive_raft self observe payload w
  | OnPropose builder => (Broker.propose self observe builder w).2
  end.

(** The node has reacted, the reaction is announced, and [drive] is next. *)
Definition reacted (f : Node G -> Node G) w : option World :=
  match Broker.raft_ (Broker.broker w) with
  | None => None
  | Some n =>
      Some (Broker.note_transition observe (role_ n) (hs_term (hard_ n)) (hs_voted_for (hard_ n)) (Broker.with_raft f w))
  end.

Definition proposed (assigned : Z) (l : Log.t) w : World :=
  let w := Broker.notify observe (on_fsynced (Log.next_offset_ l)) w in
  let w := if Broker.ack_on_local_append (Broker.config_ (Broker.broker w)) then Broker.note_commit observe (Log.next_offset_ l) w else w in
  let w := Broker.with_raft (fun n => log_appended assigned (Log.next_offset_ l) (hs_term (hard_ n)) n) w in
  Broker.modify (fun b => b <| Broker.appends_ := Broker.appends_ b + 1 |>) w.

(** The entry and the world with which [serve] calls [drive], if it does. *)
Definition poised (x : Input) w : option (list Z * World) :=
  match x with
  | OnTick =>
      if Broker.running_ (Broker.broker w)
      then pair [] <$> reacted tick (Broker.modify (fun b => b <| Broker.ticks_ := Broker.ticks_ b + 1 |>) w) else None
  | OnMessage payload =>
      match decode_message payload with
      | fail _ => None
      | Ok (m, entry) =>
          if to m =? Broker.id (Broker.config_ (Broker.broker w))
          then pair entry <$> reacted (step m) (Broker.modify (fun b => b <| Broker.raft_received_ := Broker.raft_received_ b + 1 |>) w)
          else None
      end
  | OnPropose builder =>
      match Broker.log_ (Broker.broker w), Broker.raft_ (Broker.broker w) with
      | Some l, Some n =>
          if Broker.running_ (Broker.broker w) && bool_decide (role_ n = kLeader) then
            let '(assigned, _, l, d) := Log.append builder (Broker.proposed_meta (hs_term (hard_ n))) l (Broker.disk w) in
            let w := Broker.modify (fun b => b <| Broker.log_ := Some l |>) (w <| Broker.disk := d |>) in
            match assigned with
            | fail _ => None
            | Ok base =>
                let w := Broker.notify observe (on_appended base (u32 (Log.next_offset_ l - base))) w in
                let '(flushed, d) := Log.fsync l (Broker.disk w) in
                if ok flushed then Some ([], proposed base l (w <| Broker.disk := d |>)) else None
            end
          else None
      | _, _ => None
      end
  end.

(** What is left to do behind [drive]. *)
Definition finish (x : Input) w : World :=
  match x with OnTick => Broker.schedule_tick tick_task w | _ => w end.

(** The node's reaction, up to [drive]. *)
Lemma reacted_calm f w n : up w n -> config_ (f n) = config_ n ->
  exists wd, reacted f w = Some wd /\ calm w wd (f n) /\ stored w wd.
Proof using PS.
  intros U Hc. unfold reacted. rewrite (up_raft _ _ U). eexists. split; [done|].
  pose proof (calm_with_raft f w n U Hc) as C1.
  destruct (note_transition_still observe PS (role_ n) (hs_term (hard_ n)) (hs_voted_for (hard_ n)) (Broker.with_raft f w)) as [S Ed].
  split.
  - eapply calm_then; [exact C1|]. eapply calm_still; [apply C1 | exact S | ..]; try done. apply C1.
  - eapply stored_trans; [apply (stored_with_raft f)|]. unfold stored. by rewrite (proj1 S), Ed.
Qed.

(** The rest of [propose], up to [drive]. *)
Lemma stored_proposed base l w : stored w (proposed base l w).
Proof using PS.
  unfold proposed. cbv zeta. eapply stored_trans; [apply (stored_notify (on_fsynced (Log.next_offset_ l)))|].
  set (w4 := Broker.notify _ _ w). set (w5 := if Broker.ack_on_local_append _ then _ else w4).
  assert (stored w4 w5) as S5 by (unfold w5; case_match; [apply stored_note_commit | done]).
  exact (stored_trans _ _ _ S5 (stored_with_raft _ w5)).
Qed.

Lemma proposed_calm base l w n : up w n ->
  calm w (proposed base l w) (log_appended base (Log.next_offset_ l) (hs_term (hard_ n)) n).
Proof using PS.
  intros U. unfold proposed. cbv zeta.
  set (w4 := Broker.notify _ _ w). assert (calm w w4 n) as C4 by by apply calm_notify. clearbody w4.
  set (w5 := if Broker.ack_on_local_append _ then _ else w4).
  assert (calm w w5 n) as C5.
  { unfold w5. case_match; [|done]. eapply calm_then; [exact C4 | apply calm_note_commit, C4; done]. }
  clearbody w5. set (f := fun n0 : Node G => log_appended base (Log.next_offset_ l) (hs_term (hard_ n0)) n0).
  pose proof (calm_with_raft f w5 n (cm_up _ _ _ C5) (log_appended_config _ _ _ _)) as C6.
  eapply calm_then; [exact C5|]. eapply calm_then; [exact C6|]. destruct C6 as [[] ? ?]. by split; [split|..].
Qed.

(** [propose] does not get as far as the node, or hands it a batch that is in the log. *)
Lemma propose_poised builder w n : up w n ->
  match poised (OnPropose builder) w with
  | None => calm w (serve (OnPropose builder) w) n
  | Some (entry, wd) => exists base l, entry = [] /\ (Broker.propose self observe builder w).1.1 = Ok base /\
      Broker.running_ (Broker.broker w) = true /\ role_ n = kLeader /\ Broker.log_ (Broker.broker wd) = Some l /\
      calm w wd (log_appended base (Log.next_offset_ l) (hs_term (hard_ n)) n) /\
      serve (OnPropose builder) w = Broker.drive self observe [] wd
  end.
Proof using PS.
  intros U. pose proof U as [U1 U2 U3 U4]. unfold poised, serve, Broker.propose. rewrite U1.
  destruct (Broker.log_ _) as [l|] eqn:El; [|done].
  destruct (Broker.running_ (Broker.broker w)) eqn:Er; cbn [negb andb]; [|by apply calm_here].
  destruct (bool_decide (role_ n = kLeader)) eqn:Eb; cbn [negb]; [|by apply calm_here].
  apply bool_decide_eq_true_1 in Eb.
  destruct (Log.append _ _ _ _) as [[[r1 b1] l1] d1]. set (w1 := Broker.modify _ _).
  assert (calm w w1 n) as C1 by (by apply calm_modify).
  destruct r1 as [base|e]; [|done].
  set (w2 := Broker.notify _ _ w1). assert (calm w w2 n) as C2 by (eapply calm_then; [exact C1 | by apply calm_notify, C1]).
  assert (Broker.log_ (Broker.broker w2) = Some l1) as El2 by (unfold w2; by rewrite (notify_broker observe PS)). clearbody w2 w1.
  destruct (Log.fsync l1 _) as [r2 d2]. assert (calm w (w2 <| Broker.disk := d2 |>) n) as C3 by (destruct C2 as [[] ? ?]; by split; [split|..]).
  destruct r2 as [u|e]; cbn [ok]; [|done]. set (w3 := w2 <| Broker.disk := d2 |>) in *.
  pose proof (proposed_calm base l1 w3 n (cm_up _ _ _ C3)) as C4. pose proof (stored_proposed base l1 w3) as S4. exists base, l1.
  split_and!; try done; [by rewrite (proj1 (proj2 S4)) | by eapply calm_then].
Qed.

(** An input whose bytes are bytes, on a broker with a log in order and room for an entry and
    a vote, and a term and a vote that fit their fields afterwards. *)
Record fit (x : Input) w : Prop := {
  ft_log : exists l all xs, Broker.log_ (Broker.broker w) = Some l /\ standing (Broker.disk w) l all xs /\
    Log.next_offset_ l + 2 ^ 33 <= 2 ^ 64;
  ft_room : Broker.state_sequence_ (Broker.broker w) < 2 ^ 64 - 2;
  ft_hard : forall entry wd n, poised x w = Some (entry, wd) -> Broker.raft_ (Broker.broker wd) = Some n -> hard_fits (hard_ n);
  ft_bytes : match x with
             | OnTick => True
             | OnMessage payload => bytes_ok payload
             | OnPropose builder => exists vs, vs <> [] /\ Forall bytes_ok vs /\ add_records BatchBuilder.new vs = (Ok tt, builder)
             end }.

(** The broker's own batch goes into the log and leaves the vote alone. *)
Lemma propose_keeps_vote `{!Disk.laws D} `{!Disk.steady D} builder w n h : up w n -> fit (OnPropose builder) w ->
  vote_says (Broker.disk w) (Broker.broker w) h ->
  match poised (OnPropose builder) w with
  | None => vote_says (Broker.disk (serve (OnPropose builder) w)) (Broker.broker (serve (OnPropose builder) w)) h
  | Some (entry, wd) => drivable entry wd /\ vote_says (Broker.disk wd) (Broker.broker wd) h
  end.
Proof using PS.
  intros U [(l & all & xs & El & St & Ho) Hs Hf (vs & Hv & Hvs & Ab)] Vs. pose proof (up_raft _ _ U) as U1. revert Hf.
  unfold poised, serve, Broker.propose. rewrite U1, El. intros Hf.
  destruct (Broker.running_ (Broker.broker w)); cbn [negb andb] in *; [|done].
  destruct (bool_decide (role_ n = kLeader)); cbn [negb] in *; [|done].
  destruct (Log.append _ _ _ _) as [[[r1 b1] l1] d1] eqn:Ap.
  assert (offsets_left l) as Ho1 by (unfold offsets_left; lia).
  assert (meta_wf (Broker.proposed_meta (hs_term (hard_ n)))) as Hm by (pose proof (wrap_range 32 (hs_term (hard_ n)) ltac:(lia)); by split_and!; cbn; lia).
  destruct (append_foreign _ _ _ _ _ _ _ _ _ _ (standing_holds _ _ _ _ St) Ho1 Hm Hv Hvs Ab Ap) as (K & _ & Nx).
  pose proof (standing_append _ _ _ _ _ _ _ _ _ _ _ St Ho1 Hm Hv Hvs Ab Ap) as St1.
  set (w1 := Broker.modify _ _) in *. assert (vote_says (Broker.disk w1) (Broker.broker w1) h) as V1.
  { eapply vote_says_kept; [exact Vs | exact K | apply vote_foreign | done..]. }
  destruct r1 as [base|e]; [|done]. cbn [fst snd] in *.
  set (w2 := Broker.notify _ _ w1) in *. assert (stored w1 w2) as S2 by apply stored_notify.
  assert (Broker.log_ (Broker.broker w2) = Some l1) as El2 by apply S2.
  pose proof (stored_vote _ _ _ S2 V1) as V2. assert (Broker.disk w2 = d1) as Ed2 by apply S2.
  assert (Broker.state_sequence_ (Broker.broker w2) = Broker.state_sequence_ (Broker.broker w)) as Es2 by apply S2. clearbody w2. rewrite Ed2 in *.
  destruct (Log.fsync l1 _) as [r2 d2] eqn:Fs. pose proof (log_fsync_same _ _ _ _ _ _ St1 Fs) as Sm.
  destruct (standing_fsync _ _ _ _ _ _ St1 Fs) as [St2 _].
  set (w3 := w2 <| Broker.disk := d2 |>) in *. assert (vote_says (Broker.disk w3) (Broker.broker w3) h) as V3.
  { eapply (vote_says_same d1 d2); [exact V2 | exact Sm | done..]. }
  destruct r2 as [u|e]; cbn [ok] in *; [|done]. pose proof (stored_proposed base l1 w3) as S4.
  split; [|by eapply stored_vote]. destruct S4 as (E1 & E2 & _ & E4 & _). split; rewrite ?E1, ?E2, ?E4; [|apply Forall_nil_2|by rewrite <- Es2 in Hs|eauto].
  exists l1. do 2 eexists. split; [done|]. split; [exact St2|]. destruct Nx as (-> & Nx & Sz). unfold offsets_left.
  pose proof (standing_next _ _ _ _ St). rewrite zlen_batch_bytes in Sz. pose proof (zlen_body_bytes vs). pose proof (zlen_nonneg vs).
  destruct St as (? & ? & ? & ? & _ & [[_ _ M] _ _ _] & _). rewrite Nx, wrap_small by lia. lia.
Qed.

(** ** Events *)

Section Events.
Context (fsync_hard_state : bool) (cfg : Z -> Config).
Abbreviation settle := (Cluster.settle fsync_hard_state).

(** The broker [w] is the member [i] of the cluster. *)
Definition takes_part (c : Cluster G) (i : Z) w : Prop := exists n mb,
  up w n /\ nodes c !! i = Some mb /\ Cluster.raft_ mb = Some n /\ Cluster.running_ mb = Broker.running_ (Broker.broker w).

(** The durable state of the member is what the broker's vote file says, and the broker is
    configured as the cluster is. *)
Definition tied (c : Cluster G) (i : Z) w : Prop := exists mb,
  nodes c !! i = Some mb /\ Broker.fsync_hard_state (Broker.config_ (Broker.broker w)) = fsync_hard_state /\
  vote_says (Broker.disk w) (Broker.broker w) (durable mb).

(** The messages [sent], and no others, left on the way from [w] to [w']. *)
Definition hands_over w (sent : list Message) w' : Prop := exists w1 w2 released,
  silent w w1 /\ says_all self released w1 sent w2 /\ silent w2 w'.

(** The storage results of the event are the answers of the broker's disk. *)
Definition answered (x : Input) w (env : Env) : Prop := exists entry wd,
  poised x w = Some (entry, wd) /\ storage observe entry wd = (log_result env, persist_result env, landed env).

(** The events of the member [i] that an input can be. *)
Definition event_for (i : Z) (x : Input) w (e : Event G) : Prop :=
  match x, e with
  | OnTick, Tick j env => j = i /\ answered x w env
  | OnMessage payload, Deliver j m env => j = i /\ (exists entry, decode_message payload = Ok (m, entry)) /\ answered x w env
  | OnPropose builder, Propose j index end_ env => j = i /\ answered x w env /\
      (Broker.propose self observe builder w).1.1 = Ok index /\
      exists entry wd l, poised x w = Some (entry, wd) /\ Broker.log_ (Broker.broker wd) = Some l /\ end_ = Log.next_offset_ l
  | _, _ => False
  end.

(** The network delivers what somebody sent. *)
Definition delivered (c : Cluster G) (x : Input) : Prop :=
  forall payload m entry, x = OnMessage payload -> decode_message payload = Ok (m, entry) -> m ∈ net c.

(** One event of the cluster, or nothing if the broker does not even ask its node. *)
Definition simulated (c : Cluster G) (i : Z) (x : Input) w : Prop :=
  exists c' sent,
    (poised x w = None /\ c' = c /\ sent = [] \/ exists e, event_for i x w e /\ apply_event fsync_hard_state cfg c e = Some c') /\
    net c' = net c ++ sent /\ takes_part c' i (serve x w) /\ hands_over w sent (serve x w) /\
    (Disk.laws D -> Disk.steady D -> fit x w -> tied c i w -> tied c' i (serve x w)).

Lemma silent_refl w : silent w w.
Proof using Type. done. Qed.

Lemma silent_trans w1 w2 w3 : silent w1 w2 -> silent w2 w3 -> silent w1 w3.
Proof using Type. intros (A1 & A2 & A3) (B1 & B2 & B3). unfold silent. split_and!; congruence. Qed.

Lemma hands_over_nothing w w' : silent w w' -> hands_over w [] w'.
Proof using Type. intros S. exists w', w', []. split_and!; [done | constructor | apply silent_refl]. Qed.

(** The node went from [n] to [n1], and [drive] does the rest. *)
Lemma drive_settles entry w wd n n1 c i mb :
  nodes c !! i = Some mb -> Cluster.running_ mb = Broker.running_ (Broker.broker w) -> calm w wd n1 ->
  exists env c', storage observe entry wd = (log_result env, persist_result env, landed env) /\
    settle c i mb n n1 env = Some c' /\ net c' = net c ++ sent env /\
    takes_part c' i (Broker.drive self observe entry wd) /\
    hands_over w (sent env) (Broker.drive self observe entry wd) /\
    (Disk.laws D -> Disk.steady D -> drivable entry wd ->
     Broker.fsync_hard_state (Broker.config_ (Broker.broker wd)) = fsync_hard_state ->
     vote_says (Broker.disk wd) (Broker.broker wd) (durable mb) -> tied c' i (Broker.drive self observe entry wd)).
Proof using PS RG LO.
  intros Hm Hr [U Q R]. destruct (storage observe entry wd) as [[lr pr] landed] eqn:Sg.
  destruct (drive_refines self observe PS entry wd n1 lr pr landed U Sg) as (n' & released & write & running & w1 & sent & Dr & Q1 & Sy & U' & R').
  exists (mkEnv lr pr landed sent). unfold settle. rewrite Hr, <- R, (Dr sent). cbn [Cluster.sent].
  rewrite (says_transmits _ _ _ _ _ Sy). eexists. split; [done|]. split; [done|]. split; [done|]. split_and!.
  - exists n'. eexists. split; [exact U'|]. cbn. rewrite lookup_insert_eq. split; [done|]. by split.
  - exists w1, (Broker.drive self observe entry wd), released. split_and!; [by eapply silent_trans | done | apply silent_refl].
  - intros DL SD Dv Ef Vs. eexists. split; [apply lookup_insert_eq|]. split; [|by eapply drive_says].
    apply says_all_spoke in Sy as (s & p & c0 & r & Es & _). rewrite Es.
    change (Broker.fsync_hard_state (Broker.config_ (Broker.broker w1)) = fsync_hard_state). by rewrite (proj2 (proj2 Q1)).
Qed.

(** The broker does not get as far as its node. *)
Lemma stutter c i x w n mb : nodes c !! i = Some mb -> Cluster.raft_ mb = Some n ->
  Cluster.running_ mb = Broker.running_ (Broker.broker w) -> poised x w = None -> calm w (serve x w) n ->
  (Disk.laws D -> Disk.steady D -> fit x w -> vote_says (Broker.disk w) (Broker.broker w) (durable mb) ->
   vote_says (Broker.disk (serve x w)) (Broker.broker (serve x w)) (durable mb)) ->
  simulated c i x w.
Proof using Type.
  intros Hm Hn Hr Hp [U Q R] Tie. exists c, []. split; [by left|]. rewrite app_nil_r. split; [done|]. split_and!.
  - exists n, mb. split_and!; [done..|congruence].
  - by apply hands_over_nothing.
  - intros DL SD F (mb' & Hm' & Ef & Vs). rewrite Hm in Hm'. injection Hm' as <-. exists mb.
    split_and!; [done | by rewrite (proj2 (proj2 Q)) | by apply Tie].
Qed.

(** It does, and the rest is [drive]. *)
Lemma serve_simulated c i x w n n1 mb entry wd :
  nodes c !! i = Some mb -> Cluster.running_ mb = Broker.running_ (Broker.broker w) ->
  poised x w = Some (entry, wd) -> calm w wd n1 -> serve x w = finish x (Broker.drive self observe entry wd) ->
  (forall env c', answered x w env -> settle c i mb n n1 env = Some c' ->
     exists e, event_for i x w e /\ apply_event fsync_hard_state cfg c e = Some c') ->
  (Disk.laws D -> Disk.steady D -> fit x w -> vote_says (Broker.disk w) (Broker.broker w) (durable mb) ->
   drivable entry wd /\ vote_says (Broker.disk wd) (Broker.broker wd) (durable mb)) ->
  simulated c i x w.
Proof using PS RG LO.
  intros Hm Hr Hp C Es Ev Tie. destruct (drive_settles entry w wd n n1 c i mb Hm Hr C)
    as (env & c' & Sg & Se & En & (n' & mb' & U' & Hm' & Hn' & Hr') & (w1 & w2 & ms & Q1 & Sy & Q2) & Td).
  set (w3 := Broker.drive self observe entry wd) in *.
  assert (Broker.broker (finish x w3) = Broker.broker w3 /\ Broker.disk (finish x w3) = Broker.disk w3 /\
    Broker.net (finish x w3) = Broker.net w3 /\ Broker.rng (finish x w3) = Broker.rng w3) as (F1 & F2 & F3 & F4).
  { destruct x; try done. cbn. unfold Broker.schedule_tick. by case_match. }
  exists c', (sent env). split; [right; apply (Ev env); [by exists entry, wd | done]|]. rewrite Es. split; [done|]. split_and!.
  - exists n', mb'. rewrite F1. split_and!; [|done..]. destruct U' as [A1 A2 A3 A4]. split; rewrite ?F1, ?F4; done.
  - exists w1, w2, ms. split_and!; [done | done |]. eapply silent_trans; [exact Q2|]. unfold silent. by rewrite F1, F3.
  - intros DL SD F (mb0 & Hm0 & Ef & Vs). rewrite Hm in Hm0. injection Hm0 as <-. destruct (Tie DL SD F Vs) as [Dv Vd].
    destruct (Td DL SD Dv) as (mb2 & M1 & M2 & M3); [by rewrite (proj2 (proj2 (cm_silent _ _ _ C))) | done |].
    exists mb2. by rewrite F1, F2.
Qed.

(** A log in order and room on the disk are there when [drive] starts. *)
Lemma fit_drivable x w entry wd : fit x w -> poised x w = Some (entry, wd) -> stored w wd -> bytes_ok entry -> drivable entry wd.
Proof using Type.
  intros [(l & all & xs & El & St & Ho) Hs Hf _] Hp (E1 & E2 & _ & E4 & _) Hb. split; rewrite ?E1, ?E2, ?E4; [|done|done|eauto].
  exists l, all, xs. split_and!; [done | done |]. unfold offsets_left. lia.
Qed.

Lemma tick_simulated c i w : takes_part c i w -> simulated c i OnTick w.
Proof using PS RG LO.
  intros (n & mb & U & Hm & Hn & Hr). pose proof U as [U1 _ _ _].
  destruct (Broker.running_ (Broker.broker w)) eqn:Er.
  2:{ assert (serve OnTick w = w) as Es by (unfold serve, Broker.on_tick; by rewrite U1, Er).
      eapply stutter; [done.. | congruence | unfold poised; by rewrite Er | rewrite Es; by apply calm_here | by rewrite Es]. }
  set (w0 := Broker.modify (fun b => b <| Broker.ticks_ := Broker.ticks_ b + 1 |>) w).
  assert (calm w w0 n) as C0 by (by apply calm_modify). assert (stored w w0) as S0 by done.
  destruct (reacted_calm tick w0 n (cm_up _ _ _ C0) (tick_config n)) as (wd & Ew & C & S).
  assert (poised OnTick w = Some ([], wd)) as Hp by (unfold poised; fold w0; by rewrite Er, Ew).
  eapply (serve_simulated c i OnTick w n); [done | congruence | exact Hp | by eapply calm_then | | |].
  - unfold serve, finish, Broker.on_tick, Broker.react. rewrite U1, Er. fold w0. unfold reacted in Ew.
    destruct (Broker.raft_ (Broker.broker w0)); [|done]. by injection Ew as <-.
  - intros env c' An Se. exists (Tick i env). split; [done|]. cbn. by rewrite Hm, Hn, Hr.
  - intros DL SD F Vs. pose proof (stored_trans _ _ _ S0 S) as Sw.
    split; [by eapply fit_drivable; [| | |apply Forall_nil_2] | by eapply stored_vote].
Qed.

Lemma message_simulated c i payload w : takes_part c i w -> delivered c (OnMessage payload) -> simulated c i (OnMessage payload) w.
Proof using PS RG LO.
  intros (n & mb & U & Hm & Hn & Hr) Dl. pose proof (stored_notify (on_protocol_error "undecodable raft message" (zlen payload) kMessageHeaderBytes) w) as S1.
  destruct (decode_message payload) as [[m entry]|e] eqn:Dm.
  2:{ eapply stutter; [done.. | unfold poised; by rewrite Dm | |]; unfold serve, Broker.receive_raft; rewrite Dm; [by apply calm_notify|].
      intros _ _ _. by apply stored_vote. }
  destruct (to m =? Broker.id (Broker.config_ (Broker.broker w))) eqn:Et.
  2:{ eapply stutter; [done.. | unfold poised; by rewrite Dm, Et | |]; unfold serve, Broker.receive_raft; rewrite Dm, Et; [by apply calm_notify|].
      intros _ _ _. apply stored_vote, stored_notify. }
  set (w0 := Broker.modify (fun b => b <| Broker.raft_received_ := Broker.raft_received_ b + 1 |>) w).
  assert (calm w w0 n) as C0 by (by apply calm_modify). assert (stored w w0) as S0 by done.
  destruct (reacted_calm (step m) w0 n (cm_up _ _ _ C0) (step_config m n)) as (wd & Ew & C & S).
  assert (poised (OnMessage payload) w = Some (entry, wd)) as Hp by (unfold poised; fold w0; by rewrite Dm, Et, Ew).
  eapply (serve_simulated c i (OnMessage payload) w n); [done | congruence | exact Hp | by eapply calm_then | | |].
  - unfold serve, finish, Broker.receive_raft, Broker.deliver_locally, Broker.react. rewrite Dm, Et. fold w0. unfold reacted in Ew. cbn [negb].
    destruct (Broker.raft_ (Broker.broker w0)); [|done]. by injection Ew as <-.
  - intros env c' An Se. exists (Deliver i m env). split; [by split_and!; [|exists entry|]|]. cbn. rewrite Hm, Hn, (up_id _ _ U), Et.
    by rewrite bool_decide_true by (by eapply Dl).
  - intros DL SD F Vs. pose proof (stored_trans _ _ _ S0 S) as Sw. split; [|by eapply stored_vote].
    eapply fit_drivable; [exact F | exact Hp | exact Sw|]. pose proof (ft_bytes _ _ F) as Hb. cbn in Hb.
    destruct (decode_message_sound payload m entry Hb Dm) as (_ & -> & _). by apply Forall_drop.
Qed.

Lemma propose_simulated c i builder w : takes_part c i w -> simulated c i (OnPropose builder) w.
Proof using PS RG LO.
  intros (n & mb & U & Hm & Hn & Hr). pose proof (propose_poised builder w n U) as P.
  pose proof (fun DL SD => propose_keeps_vote (H0 := DL) (H1 := SD) builder w n (durable mb) U) as Tie.
  destruct (poised (OnPropose builder) w) as [[entry wd]|] eqn:Hp.
  - destruct P as (base & l & -> & Ep & Er & Ro & El & C & Es).
    eapply (serve_simulated c i (OnPropose builder) w n); [done | done | exact Hp | exact C | exact Es | | exact Tie].
    intros env c' An Se. exists (Propose i base (Log.next_offset_ l) env). split; [by split_and!; [..|exists [], wd, l]|].
    cbn. rewrite Hm, Hn, Hr, Er. by rewrite bool_decide_true.
  - by eapply stutter.
Qed.

End Events.

End Member.
