(* ===== verification/BrokerProps.v ===== *)
(** * Properties of the broker

    A bench to run the broker object of [Broker.v] on: a network that connects to everybody
    and records what is written, timers that are only counted, an observer that keeps a
    list, and either of the two disks.  On it the refinement of [BrokerMember.v] is
    instantiated, and a broker whose device fills up answers for an entry it does not have. *)
From S2P Require Import Prelude Base Random Wire RecordBatch SparseIndex Disk SimDisk Segment Log Network.
From S2P Require Import RaftTypes RaftCodec RaftNode StateFile Broker Cluster BrokerFacts BrokerRefines.
From S2P Require Import Posix RealDisk Machine SegmentProps LogFacts LogRecovery LogDurable LogCut LogProps BrokerDurable BrokerMember.

(** The bytes written to each connection, in the order of the calls. *)
Record Tap := mkTap { recorded : list (Z * list Z); dialled : Z }.

#[export] Instance tap_network : Network.t Tap unit := {
  Network.listen _ _ n := (Ok 0, n);
  Network.local_port _ n := (Ok 0, n);
  Network.accept _ n := (fail kWouldBlock, n);
  Network.connect _ _ n := (Ok (dialled n + 1), mkTap (recorded n) (dialled n + 1));
  Network.read _ _ n := (fail kWouldBlock, n);
  Network.write c data n := (Ok (zlen data), mkTap (recorded n ++ [(c, data)]) (dialled n));
  Network.close _ n := n;
  Network.watch _ _ _ n := n }.

#[export] Instance tap_laws : Network.laws Tap unit.
Proof. split; [|done]. intros c data n r n' [= <- <-]. pose proof (zlen_nonneg data). lia. Qed.

#[export] Instance counted_timers : Timers (list Z) unit := fun delay _ l => l ++ [delay].

Section Bench.
Context {D : Type} {DO : Disk.t D}.

Abbreviation Bench := (Broker.World Z D Tap (list Z) (list Observation)).

Definition keep (o : Observation) (w : Bench) : Bench := w <| Broker.watching := Broker.watching w ++ [o] |>.


(** The first of three brokers. *)
Definition bench_config : Broker.BrokerConfig :=
  Broker.mkConfig 1 log_dir 9001 [Broker.mkPeer (lit "b") 9002 2; Broker.mkPeer (lit "c") 9003 3]
    10000000 15 15 5 33554432 true false.

Definition on_bench (d : D) : Bench :=
  Broker.mkWorld (Broker.new bench_config true) d (mkTap [] 100) [] 7 [].

Definition bench_start (w : Bench) : Status * Bench := Broker.start tt tt keep w.
Definition bench_receive (m : Message) (entry : list Z) (w : Bench) : Bench :=
  Broker.receive_raft tt keep (encode_message (zrep (message_bytes (zlen entry)) 0) m entry) w.

(** What went out, connection by connection and message by message. *)
Definition replies (w : Bench) : list (option Message) :=
  map (fun cd => match next kDefaultMaxFrameBytes (Buffer.append Buffer.empty_buffer cd.2) with
                 | Ok (Some (_, payload)) =>
                     match decode_message payload with Ok (m, _) => Some m | fail _ => None end
                 | _ => None
                 end) (recorded (Broker.net w)).

End Bench.

(** ** A member of the cluster *)











(** ** Said only when it is true *)


(** The leader's first entry, and the broker that has just stepped its node with it. *)
Definition offered_entry : list Z := batch_bytes 0 (Broker.proposed_meta 1) [[7; 8]].
Definition entry_offer : Message := mkMessage kAppendEntries 2 1 1 kNoIndex 0 0 0 1 1 false.





(** ** A broker that is down and not honest *)

(** The leader sends it twice; the device is full when it comes first. *)
Definition no_space (w : Broker.World Z (RealDisk.t Machine.t) Tap (list Z) (list Observation)) :=
  w <| Broker.disk := Broker.disk w
         <| RealDisk.kernel := RealDisk.kernel (Broker.disk w) <| Machine.script := [Machine.Refused 28] |> |> |>.
Definition refused0 := bench_start (on_bench (RealDisk.new Machine.boot)).
Definition refused1 := bench_receive entry_offer offered_entry (no_space refused0.2).
Definition refused2 := bench_receive entry_offer offered_entry refused1.

(** C16: A broker whose disk refused an entry acknowledges it.  [drive] drops the messages and
    clears [running_], to be "down and honest" until a restart; but incoming messages do not
    look at [running_], the node already counts the entry as its own, and when the leader
    sends it again the answer is a grant up to its end.  The log holds nothing.  A leader that
    counts this answer commits an entry that a majority does not have. *)
Theorem stopped_broker_still_acks :
  refused0.1 = Ok tt /\
  Broker.running_ (Broker.broker refused1) = false /\ replies refused1 = [] /\
  replies refused2 = [Some (mkMessage kAppendEntriesResponse 1 2 1 1 1 0 kNoIndex 0 0 true)] /\
  (Log.next_offset_ <$> Broker.log_ (Broker.broker refused2)) = Some 0 /\
  Disk.files (Broker.disk refused2) !! log_path log_dir 0 = Some [].
Proof. vm_compute. by split_and!. Qed.
