(* ===== verification/BrokerFrame.v ===== *)
(** * What a broker can do to its world

    Whatever a member of the broker does, it does through its seams: it writes its own object,
    hands new states to its disk, generator, loop and network, and tells its observer.  So a
    relation between worlds that each of these steps respects is respected by every member.
    The lemmas hold in every [Host], whether its parts share state or not. *)
From S2P Require Import Prelude Base Random Wire RecordBatch SparseIndex Disk Segment Log Network.
From S2P Require Import RaftTypes RaftCodec RaftNode StateFile Broker.

Create HintDb frame.

Section Frame.
Context {G : Type} {RG : Random G} {D : Type} {DO : Disk.t D} {N H : Type} {NO : Network.t N H}.
Context {L T : Type} {LO : Timers L T} {W : Type} {HO : Broker.Host G D N L W}.
Context (self : H) (tick_task : T) (observe : Observation -> W -> W).
Context (R : W -> W -> Prop).
Import Broker.
Implicit Type w : W.

(** Calls of the network that take it from [n] to [n']. *)
Inductive net_call : N -> N -> Prop :=
  | call_listen p b n : net_call n (Network.listen p b n).2
  | call_accept c n : net_call n (Network.accept c n).2
  | call_connect h p n : net_call n (Network.connect h p n).2
  | call_read c k n : net_call n (Network.read c k n).2
  | call_write c data n : net_call n (Network.write c data n).2
  | call_close c n : net_call n (Network.close c n)
  | call_watch c i h n : net_call n (Network.watch c i h n)
  | call_then n n1 n2 : net_call n n1 -> net_call n1 n2 -> net_call n n2.

(** [R] allows every step of a broker. *)
Record allows : Prop := {
  al_refl w : R w w;
  al_trans w1 w2 w3 : R w1 w2 -> R w2 w3 -> R w1 w3;
  al_broker b w : R w (put_broker b w);
  al_disk d w : R w (put_disk d w);
  al_loop l w : R w (put_loop l w);
  al_rng g w : R w (put_rng g w);
  al_net n w : net_call (net w) n -> R w (put_net n w);
  al_observe o w : R w (observe o w) }.

Context (A : allows).
#[local] Set Default Proof Using "A".

Lemma step_trans w1 w2 w3 : R w1 w2 -> R w2 w3 -> R w1 w3.
Proof. apply A. Qed.

(** The lemmas say that a step may follow what already happened since [v]. *)
Implicit Type v : W.

Lemma on_modify f v w : R v w -> R v (modify f w).
Proof. intros. eapply step_trans; [done | apply A]. Qed.
Lemma on_disk d v w : R v w -> R v (w <| disk := d |>).
Proof. intros. eapply step_trans; [done | apply A]. Qed.
Lemma on_loop l v w : R v w -> R v (w <| loop := l |>).
Proof. intros. eapply step_trans; [done | apply A]. Qed.
Lemma on_rng g v w : R v w -> R v (w <| rng := g |>).
Proof. intros. eapply step_trans; [done | apply A]. Qed.
Lemma on_net n v w : R v w -> net_call (net w) n -> R v (w <| net := n |>).
Proof. intros. eapply step_trans; [done | by apply A]. Qed.
Lemma on_notify o v w : R v w -> R v (notify observe o w).
Proof. intros. unfold notify. destruct (observer_ _); [|done]. eapply step_trans; [done | apply A]. Qed.
Lemma on_refl w : R w w.
Proof. apply A. Qed.
Lemma on_watch c i h v w : R v w -> R v (watch c i h w).
Proof. intros. apply on_net; [done | constructor]. Qed.
Lemma on_put c s v w : R v w -> R v (put_stream c s w).
Proof. apply on_modify. Qed.

#[local] Hint Resolve on_modify on_disk on_loop on_rng on_notify on_refl on_watch on_put : frame.

Ltac done_ := intros [<- <-]%pair_equal_spec; auto 10 with frame.

Lemma on_load v w r w' : R v w -> load_hard_state w = (r, w') -> R v w'.
Proof.
  intros Rv. unfold load_hard_state. destruct (Disk.open _ _ _) as [[f|e] d]; [|done_]. cbv zeta.
  match goal with |- context [Disk.size f (disk ?x)] => set (w1 := x) end.
  assert (R v w1) as R1 by (unfold w1; auto with frame). clearbody w1.
  destruct (Disk.size _ _) as [[n|e] d2]; [|done_]. destruct (n =? 0); [done_|]. cbv zeta.
  destruct (Disk.pread _ _ _ _) as [[bs|e] d3]; [|done_]. destruct (scan_state_file bs); done_.
Qed.

Lemma on_schedule_tick v w : R v w -> R v (schedule_tick tick_task w).
Proof. intros. unfold schedule_tick. destruct (negb _); auto with frame. Qed.

Lemma on_with_raft f v w : R v w -> R v (with_raft f w).
Proof. intros. unfold with_raft. destruct (raft_ _); auto with frame. Qed.

#[local] Hint Resolve on_schedule_tick on_with_raft : frame.

Lemma on_open_for_business v w : R v w -> R v (open_for_business self tick_task w).
Proof.
  intros Rv. unfold open_for_business. pose proof (call_listen (port (config_ (broker w))) 16 (net w)) as C.
  destruct (Network.listen _ _ _) as [[c|e] n]; cbn in C; apply on_schedule_tick, on_modify; [apply on_modify|];
    (apply on_net; [done|]); [|done]. eapply call_then; [exact C | constructor].
Qed.

Lemma on_start v w r w' : R v w -> start self tick_task observe w = (r, w') -> R v w'.
Proof.
  intros Rv. unfold start. destruct (Log.open _ _ _) as [[l|e] d]; [|done_]. cbv zeta.
  match goal with |- context [load_hard_state ?x] => assert (R v x) as R1 by auto 10 with frame end.
  destruct (load_hard_state _) as [[hard|e] w2] eqn:Ld; apply (on_load _ _ _ _ R1) in Ld; [|done_]. cbv zeta.
  destruct (Log.scan_epochs _ _) as [[epochs|e] d3]; [|done_]. intros [<- <-]%pair_equal_spec.
  apply on_open_for_business. auto 10 with frame.
Qed.

Lemma on_note_transition r k x v w : R v w -> R v (note_transition observe r k x w).
Proof.
  intros Rv. unfold note_transition. destruct (raft_ _); [|done]. cbv zeta.
  set (w1 := if _ && _ && _ then _ else w). assert (R v w1) as R1 by (unfold w1; destruct (_ && _ && _); auto with frame).
  clearbody w1. destruct (_ && _); [done|]. destruct (role_ _); [destruct (negb _)|..]; auto with frame.
Qed.

Lemma on_note_commit i v w : R v w -> R v (note_commit observe i w).
Proof. intros. unfold note_commit. destruct (_ <=? _); auto with frame. Qed.

Lemma on_persist state v w r w' : R v w -> persist observe state w = (r, w') -> R v w'.
Proof.
  intros Rv. unfold persist. cbv zeta. destruct (_ =? _); [done_|]. destruct (Disk.pwrite _ _ _ _) as [[n|e] d]; [|done_].
  destruct (negb _); [done_|]. destruct (fsync_hard_state _); [destruct (Disk.fsync _ _) as [[u|e] d2]|]; done_.
Qed.

Lemma on_append_order entry l v w r w' : R v w -> append_order observe entry l w = (r, w') -> R v w'.
Proof.
  intros Rv. unfold append_order. destruct entry as [|z entry]; [done_|].
  destruct (Log.append_replicated _ _ _) as [[[u|e] l1] d1]; [|done_]. cbv zeta.
  destruct (Log.fsync _ _) as [[u2|e] d2]; done_.
Qed.

Lemma on_carry_out ready entry v w r w' : R v w -> carry_out_log_orders observe ready entry w = (r, w') -> R v w'.
Proof.
  intros Rv. unfold carry_out_log_orders. destruct (log_ _) as [l|]; [|done_]. destruct (_ && _); [done_|].
  destruct (negb (_ =? _)).
  - destruct (Log.truncate_to _ _ _) as [[cut l1] d1]. cbv zeta. set (w2 := if ok cut then _ else _).
    assert (R v w2) as R2 by (unfold w2; destruct (ok cut); auto 10 with frame). clearbody w2.
    destruct cut; [destruct (append_entry ready)|]; [|done_..]. by apply on_append_order.
  - destruct (append_entry ready); [by apply on_append_order | done_].
Qed.

Lemma on_forget c v w : R v w -> R v (forget c w).
Proof.
  intros Rv. unfold forget. apply on_modify, on_net; [by apply on_watch | constructor].
Qed.

#[local] Hint Resolve on_note_transition on_note_commit on_forget : frame.

Lemma on_flush_loop fuel c : forall s v w, R v w -> R v (flush_loop self fuel c s w).
Proof.
  induction fuel as [|fuel IH]; intros s v w Rv; cbn [flush_loop]; (destruct (Buffer.empty _); [auto with frame|]); [done|].
  pose proof (call_write c (Buffer.slice (out s)) (net w)) as C.
  destruct (Network.write _ _ _) as [[n|e] n1]; cbn in C; assert (R v (w <| net := n1 |>)) as R1 by (by apply on_net).
  - cbv zeta. destruct (n =? 0); [done|]. apply IH. auto with frame.
  - cbv zeta. destruct (bool_decide _); auto with frame.
Qed.

Lemma on_flush c v w : R v w -> R v (flush self c w).
Proof. intros. unfold flush. destruct (_ !! _); [by apply on_flush_loop | done]. Qed.

Lemma on_send c h payload v w : R v w -> R v (send self c h payload w).
Proof. intros. apply on_flush. auto with frame. Qed.

Lemma on_read_entry i v w r w' : R v w -> read_entry i w = (r, w') -> R v w'.
Proof.
  intros Rv. unfold read_entry. destruct (log_ _); [|done_]. destruct (Log.read _ _ _ _) as [[bs|e] d]; [|done_].
  cbv zeta. destruct (_ =? 0); [done_|]. destruct (decode_header bs); [|done_]. destruct (negb _); done_.
Qed.

Lemma on_outgoing m v w r w' : R v w -> outgoing_entry m w = (r, w') -> R v w'.
Proof.
  intros Rv. unfold outgoing_entry. destruct (carries_entry m); [|done_].
  destruct (read_entry _ w) as [[en|e] w1] eqn:Rd; apply (on_read_entry _ _ _ _ _ Rv) in Rd; [|done_].
  destruct (decode_header en); done_.
Qed.

Lemma on_peer_conn i p v w r w' : R v w -> peer_conn self i p w = (r, w') -> R v w'.
Proof.
  intros Rv. unfold peer_conn. cbv zeta. destruct (_ =? _); [|done_].
  pose proof (call_connect (peer_host p) (peer_port p) (net w)) as C.
  destruct (Network.connect _ _ _) as [[c|e] n]; cbn in C; assert (R v (w <| net := n |>)) as R1 by (by apply on_net); done_.
Qed.

Lemma on_send_raft m v w : R v w -> R v (send_raft self m w).
Proof.
  intros Rv. unfold send_raft. destruct (list_find _ _) as [[i p]|]; [|done].
  destruct (outgoing_entry m w) as [r w1] eqn:O. apply (on_outgoing _ _ _ _ _ Rv) in O.
  destruct r as [[y entry]|]; [|done]. destruct (peer_conn _ _ _ _) as [c w2] eqn:P. apply (on_peer_conn _ _ _ _ _ _ O) in P.
  destruct c; [|done]. cbv zeta. apply on_modify, on_send. auto with frame.
Qed.

Lemma on_drive entry v w : R v w -> R v (drive self observe entry w).
Proof.
  intros Rv. unfold drive. destruct (raft_ _) as [n|]; [|done]. destruct (take_ready n) as [ready n1]. cbv zeta.
  set (w0 := note_commit _ _ _). assert (R v w0) as R0 by (unfold w0; auto with frame). clearbody w0.
  destruct (ready_empty ready); [done|].
  destruct (carry_out_log_orders _ _ _ _) as [[u|e] wa] eqn:C; apply (on_carry_out _ _ _ _ _ _ R0) in C; [|unfold stop; auto with frame].
  assert (forall ms w, R v w -> R v (foldl (fun w m => send_raft self m w) w ms)) as Say.
  { induction ms as [|m ms IH]; intros x Rx; cbn; [done|]. by apply IH, on_send_raft. }
  destruct (persist_hard_state ready); [|by apply Say].
  destruct (persist _ _ _) as [[u2|e] wp] eqn:P; apply (on_persist _ _ _ _ _ C) in P; [|done]. apply Say. auto with frame.
Qed.

Lemma on_react f entry v w : R v w -> R v (react self observe f entry w).
Proof. intros. unfold react. destruct (raft_ _); [|done]. apply on_drive. auto with frame. Qed.

Lemma on_on_tick v w : R v w -> R v (on_tick self tick_task observe w).
Proof.
  intros. unfold on_tick. destruct (raft_ _); [|done]. destruct (negb _); [done|]. apply on_schedule_tick, on_react. auto with frame.
Qed.

Lemma on_receive payload v w : R v w -> R v (receive_raft self observe payload w).
Proof.
  intros. unfold receive_raft. destruct (decode_message _) as [[m entry]|e]; [|auto with frame].
  destruct (negb _); [auto with frame|]. apply on_react. auto with frame.
Qed.

Lemma on_propose builder v w r b' w' : R v w -> propose self observe builder w = (r, b', w') -> R v w'.
Proof.
  intros Rv. unfold propose.
  assert (forall (a : Result Z) b c, (a, b, c) = (r, b', w') -> c = w') as E3 by (by intros a b c [= _ _ ->]).
  destruct (log_ _); [|intros <-%E3; done]. destruct (raft_ _); [|intros <-%E3; done]. destruct (negb _); [intros <-%E3; done|].
  destruct (negb _); [intros <-%E3; done|]. destruct (Log.append _ _ _ _) as [[[a b1] l1] d1]. cbv zeta.
  destruct a as [base|e]; [|intros <-%E3; auto with frame]. destruct (Log.fsync _ _) as [[u|e] d2]; intros <-%E3; [|auto 10 with frame].
  unfold replicate. cbv zeta. apply on_drive, on_modify, on_with_raft.
  match goal with |- R v (if _ then _ else ?x) => assert (R v x) as Rx by auto 10 with frame end.
  destruct (ack_on_local_append _); auto with frame.
Qed.

Lemma on_accept_loop fuel : forall v w w', R v w -> accept_loop self fuel w = Some w' -> R v w'.
Proof.
  induction fuel as [|fuel IH]; intros v w w' Rv; cbn [accept_loop]; [done|].
  pose proof (call_accept (listener_ (broker w)) (net w)) as C.
  destruct (Network.accept _ _) as [[c|e] n]; cbn in C; assert (R v (w <| net := n |>)) as R1 by (by apply on_net).
  - cbv zeta. apply IH. auto with frame.
  - by intros <-%(inj Some).
Qed.

Lemma on_frame_loop fuel : forall c v w more w', R v w -> frame_loop self observe fuel c w = (more, w') -> R v w'.
Proof.
  induction fuel as [|fuel IH]; intros c v w more w' Rv; cbn [frame_loop]; [done_|]. destruct (_ !! _) as [current|]; [|done_].
  destruct (next _ _) as [[[h payload]|]|e]; [|done_..]. destruct (negb _); [done_|]. cbv zeta.
  pose proof (on_receive payload _ _ Rv) as R1. destruct (_ !! _); [|done_]. apply IH. auto with frame.
Qed.

Lemma on_read_loop fuel : forall c v w w', R v w -> read_loop self observe fuel c w = Some w' -> R v w'.
Proof.
  induction fuel as [|fuel IH]; intros c v w w' Rv; cbn [read_loop]; [done|]. destruct (_ !! _) as [st|]; [|by intros <-%(inj Some)].
  pose proof (call_read c kReadChunk (net w)) as C.
  destruct (Network.read _ _ _) as [[got|e] n]; cbn in C; assert (R v (w <| net := n |>)) as R1 by (by apply on_net); cbv zeta.
  - destruct (_ =? 0); [intros <-%(inj Some); auto with frame|].
    destruct (frame_loop _ _ _ _ _) as [more w2] eqn:F. apply (on_frame_loop _ c v) in F; [|auto with frame].
    destruct more; [by apply IH | by intros <-%(inj Some)].
  - intros <-%(inj Some). destruct (bool_decide _); auto with frame.
Qed.

Lemma on_on_readable fuel c v w w' : R v w -> on_readable self observe fuel c w = Some w' -> R v w'.
Proof. intros Rv. unfold on_readable. destruct (_ =? _); [by apply on_accept_loop | by apply on_read_loop]. Qed.

Lemma on_destroy v w : R v w -> R v (destroy w).
Proof. intros. unfold destroy. auto with frame. Qed.

End Frame.
