(* ===== verification/Sockets.v ===== *)
(** * The sockets under the process

    Nothing here is code of the repository: the calls that
    [src/src/io/real/real_network.cpp] makes are the operations of the class [Sockets], over a
    machine state [K] and the addresses [A] of the resolver, and what their manual pages say
    of descriptors and of epoll's interest list is [SocketLaws].  A call gives its value or
    sets [errno]; [-1] is [Errno_is]. *)
From S2P Require Import Prelude Base Disk Posix.

(** [O_NONBLOCK], and the events of [epoll_event]. *)
Definition O_NONBLOCK : Z := 2048.
Definition EPOLLIN : Z := 1.
Definition EPOLLOUT : Z := 4.
Definition EPOLLERR : Z := 8.
Definition EPOLLHUP : Z := 16.

Inductive EpollOp := EPOLL_CTL_ADD (events : Z) | EPOLL_CTL_MOD (events : Z) | EPOLL_CTL_DEL.

Inductive Interface := INADDR_ANY | INADDR_LOOPBACK.

Class Sockets (K A : Type) := {
  ignore_sigpipe : K -> K;
  sys_socket : K -> Sys Z * K;
  set_reuseaddr : Z -> K -> K;
  set_nodelay : Z -> K -> K;
  sys_bind : Z -> Interface -> Z -> K -> Sys unit * K;
  sys_listen : Z -> Z -> K -> Sys unit * K;
  sys_getfl : Z -> K -> Sys Z * K;
  sys_setfl : Z -> Z -> K -> Sys unit * K;
  sys_accept : Z -> K -> Sys Z * K;
  sys_getsockname : Z -> K -> Sys Z * K;
  getaddrinfo : chars -> chars -> K -> option A * K;
  sys_connect : Z -> A -> K -> Sys unit * K;
  sys_read : Z -> Z -> K -> Sys (list Z) * K;
  sys_send : Z -> list Z -> K -> Sys Z * K;
  close_fd : Z -> K -> K;
  epoll_create1 : K -> Sys Z * K;
  epoll_ctl : Z -> EpollOp -> Z -> K -> Sys unit * K;
  epoll_wait : Z -> Z -> Z -> K -> Sys (list (Z * Z)) * K }.

(** The descriptors of sockets and of epoll instances, the interest list of an instance, and
    the sockets of which, since they were opened, a change to an interest list was refused
    for want of memory or of watches. *)
Class SocketView (K : Type) := {
  sockets : K -> gset Z;
  epolls : K -> gset Z;
  watched : K -> Z -> gmap Z Z;
  starved : K -> gset Z }.

#[export] Instance EpollOp_eq_dec : EqDecision EpollOp.
Proof. solve_decision. Defined.

(** When a call of [epoll_ctl] on a descriptor with the events [now] makes sense: adding what
    is there fails with [EEXIST], changing or deleting what is not with [ENOENT].  And what is
    there afterwards. *)
Definition op_fits (op : EpollOp) (now : option Z) : Prop :=
  match op with EPOLL_CTL_ADD _ => now = None | _ => is_Some now end.
Definition op_asks (op : EpollOp) : option Z :=
  match op with EPOLL_CTL_ADD ev | EPOLL_CTL_MOD ev => Some ev | EPOLL_CTL_DEL => None end.

#[export] Instance op_fits_dec op now : Decision (op_fits op now).
Proof. destruct op; apply _. Defined.

Section Frames.
Context {K : Type} `{SocketView K}.

(** A call that opens and closes nothing and leaves the interest lists alone. *)
Record undisturbed (k k' : K) : Prop := {
  un_sockets : sockets k' = sockets k;
  un_epolls : epolls k' = epolls k;
  un_watched ep : watched k' ep = watched k ep;
  un_starved : starved k' = starved k }.

(** POSIX says that a new descriptor is the lowest that is free; all the code needs is that
    nobody has it, and that it is an [int]. *)
Definition fresh (fd : Z) (k : K) : Prop := 0 <= fd < 2 ^ 31 /\ (fd ∉ sockets k) /\ (fd ∉ epolls k).

(** A call that may have opened a socket. *)
Definition opened (k : K) (r : Sys Z) (k' : K) : Prop :=
  match r with
  | Errno_is _ => undisturbed k k'
  | Done fd => fresh fd k /\ sockets k' = {[ fd ]} ∪ sockets k /\ epolls k' = epolls k /\
      (forall ep, watched k' ep = watched k ep) /\ starved k' = starved k
  end.

End Frames.

Class SocketLaws (K A : Type) `{Sockets K A} `{SocketView K} : Prop := {
  kinds_disjoint k fd : fd ∈ sockets k -> fd ∈ epolls k -> False;
  watched_sockets k ep fd : is_Some (watched k ep !! fd) -> fd ∈ sockets k;
  starved_sockets k fd : fd ∈ starved k -> fd ∈ sockets k;
  ignore_law k : undisturbed k (ignore_sigpipe k);
  socket_law k r k' : sys_socket k = (r, k') -> opened k r k';
  accept_law fd k r k' : sys_accept fd k = (r, k') -> opened k r k';
  reuseaddr_law fd k : undisturbed k (set_reuseaddr fd k);
  nodelay_law fd k : undisturbed k (set_nodelay fd k);
  bind_law fd i p k r k' : sys_bind fd i p k = (r, k') -> undisturbed k k';
  listen_law fd b k r k' : sys_listen fd b k = (r, k') -> undisturbed k k';
  getfl_law fd k r k' : sys_getfl fd k = (r, k') -> undisturbed k k';
  setfl_law fd fl k r k' : sys_setfl fd fl k = (r, k') -> undisturbed k k';
  getsockname_law fd k r k' : sys_getsockname fd k = (r, k') -> undisturbed k k';
  getaddrinfo_law h p k r k' : getaddrinfo h p k = (r, k') -> undisturbed k k';
  connect_law fd a k r k' : sys_connect fd a k = (r, k') -> undisturbed k k';
  epoll_wait_law ep n ms k r k' : epoll_wait ep n ms k = (r, k') -> undisturbed k k';

  read_law fd n k r k' : sys_read fd n k = (r, k') ->
    undisturbed k k' /\ match r with Done bs => 0 <= n -> zlen bs <= n | Errno_is _ => True end;
  send_law fd data k r k' : sys_send fd data k = (r, k') ->
    undisturbed k k' /\ match r with Done n => 0 <= n <= zlen data | Errno_is _ => True end;

  (* closing the last descriptor of a socket takes it off the interest lists *)
  close_law fd k :
    sockets (close_fd fd k) = sockets k ∖ {[ fd ]} /\ epolls (close_fd fd k) = epolls k ∖ {[ fd ]} /\
    (forall ep, ep <> fd -> watched (close_fd fd k) ep = delete fd (watched k ep)) /\
    starved (close_fd fd k) = starved k ∖ {[ fd ]};

  epoll_create_law k r k' : epoll_create1 k = (r, k') ->
    match r with
    | Errno_is _ => undisturbed k k'
    | Done ep => fresh ep k /\ sockets k' = sockets k /\ ep ∈ epolls k' /\ watched k' ep = ∅
    end;

  (* a call that succeeds takes effect and one that fails does not; it fails if it makes no
     sense, and a call that does make sense fails for want of memory or of watches *)
  epoll_ctl_law ep op fd k r k' : epoll_ctl ep op fd k = (r, k') -> ep ∈ epolls k -> fd ∈ sockets k ->
    sockets k' = sockets k /\ epolls k' = epolls k /\
    match r with
    | Done _ => op_fits op (watched k ep !! fd) /\ starved k' = starved k /\
        watched k' ep = partial_alter (fun _ => op_asks op) fd (watched k ep)
    | Errno_is _ => watched k' ep = watched k ep /\
        (op_fits op (watched k ep !! fd) -> starved k' = {[ fd ]} ∪ starved k) /\
        (~ op_fits op (watched k ep !! fd) -> starved k' = starved k)
    end }.
