(* ===== verification/RealNetwork.v ===== *)
(** * The network of the process

    Models [src/src/io/real/real_network.h]/[real_network.cpp] over the calls of [Sockets.v],
    with the epoll backend; the branch for kqueue is another program.

    The table of connections is a [std::vector] and [poll] holds on to a reference into it
    while it calls a handler, so the table is kept with the block of memory its elements are
    in: growing past the capacity, as libstdc++ grows, moves them to a new block.  Reading
    through a reference to a block that is gone, or calling a handler that is a null pointer,
    is undefined behaviour, and [poll] is [None] then. *)
From S2P Require Import Prelude Base Disk Posix Sockets Network.
From stdpp Require Import pretty.

#[local] Open Scope Z_scope.

(** [static_cast<int>] *)
Definition i32 (x : Z) : Z := let v := u32 x in if v <? 2 ^ 31 then v else v - 2 ^ 32.

Module RealNetwork.

Definition kMaxEventsPerPoll : Z := 256.

Definition errno_to_code (e : Errno) : ErrorCode :=
  match e with
  | EAGAIN | EINTR => kWouldBlock
  | EPIPE | ECONNRESET | ENOTCONN => kClosed
  | _ => kIoError
  end.

Definition fd_of (conn : Z) : Z := i32 conn.
Definition conn_of (fd : Z) : Z := u64 fd.

Section Real.
Context {K A H : Type} `{Sockets K A}.

Record Entry := mkEntry { active : bool; interest : Interest.t; handler : option H }.

#[global] Instance Entry_eta : Settable Entry := fun e => mkEntry (active e) (interest e) (handler e).

Definition no_entry : Entry := mkEntry false Interest.kNone None.

(** [capacity_] and [block_] belong to the vector [entries_]. *)
Record t := mk {
  poll_fd_ : Z;
  bind_all_ : bool;
  entries_ : list Entry;
  capacity_ : Z;
  block_ : Z;
  closed_during_dispatch_ : list bool;
  kernel : K }.

#[global] Instance RealNetwork_eta : Settable t := fun n =>
  mk (poll_fd_ n) (bind_all_ n) (entries_ n) (capacity_ n) (block_ n) (closed_during_dispatch_ n) (kernel n).

Definition set_nonblocking (fd : Z) (k : K) : bool * K :=
  match sys_getfl fd k with
  | (Errno_is _, k) => (false, k)
  | (Done flags, k) =>
      match sys_setfl fd (Z.lor flags O_NONBLOCK) k with
      | (Errno_is _, k) => (false, k)
      | (Done _, k) => (true, k)
      end
  end.

(** The constructor. *)
Definition new (bind_all_interfaces : bool) (k : K) : t :=
  match epoll_create1 (ignore_sigpipe k) with
  | (Errno_is _, k) => mk (-1) bind_all_interfaces [] 0 0 [] k
  | (Done fd, k) => mk fd bind_all_interfaces [] 0 0 [] k
  end.

(** [~RealNetwork] *)
Definition destroy (n : t) : K :=
  let k := foldl (fun k fe => if active fe.2 then close_fd (Z.of_nat fe.1) k else k) (kernel n) (imap pair (entries_ n)) in
  if 0 <=? poll_fd_ n then close_fd (poll_fd_ n) k else k.

(** [entries_.resize(needed)], when it grows *)
Definition grow (needed : Z) (n : t) : t :=
  let size := zlen (entries_ n) in
  let n := if capacity_ n <? needed
           then n <| capacity_ := size + Z.max size (needed - size) |> <| block_ := block_ n + 1 |> else n in
  n <| entries_ := entries_ n ++ repeat no_entry (Z.to_nat (needed - size)) |>.

Definition ensure_slot (fd : Z) (n : t) : t :=
  let needed := fd + 1 in
  let n := if zlen (entries_ n) <? needed then grow needed n else n in
  if zlen (closed_during_dispatch_ n) <? needed
  then n <| closed_during_dispatch_ :=
         closed_during_dispatch_ n ++ repeat false (Z.to_nat (needed - zlen (closed_during_dispatch_ n))) |>
  else n.

Definition entry_for (conn : Z) (n : t) : option Entry :=
  let fd := fd_of conn in
  if (fd <? 0) || (zlen (entries_ n) <=? fd) then None
  else
    match entries_ n !! Z.to_nat fd with
    | Some e => if active e then Some e else None
    | None => None
    end.

Definition put_entry (fd : Z) (e : Entry) (n : t) : t := n <| entries_ := <[Z.to_nat fd := e]> (entries_ n) |>.
Definition put_closed (fd : Z) (b : bool) (n : t) : t :=
  n <| closed_during_dispatch_ := <[Z.to_nat fd := b]> (closed_during_dispatch_ n) |>.

(** It cannot fail, and its callers' cleanup after a failure is dead code. *)
Definition register_fd (fd : Z) (n : t) : t :=
  put_closed fd false (put_entry fd (mkEntry true Interest.kNone None) (ensure_slot fd n)).

(** [::close(fd); return fail(code)] *)
Definition close_and_fail (fd : Z) (code : ErrorCode) (n : t) (k : K) : Result Z * t := (fail code, n <| kernel := close_fd fd k |>).

Definition listen (port backlog : Z) (n : t) : Result Z * t :=
  match sys_socket (kernel n) with
  | (Errno_is _, k) => (fail kIoError, n <| kernel := k |>)
  | (Done fd, k) =>
      let k := set_reuseaddr fd k in
      match sys_bind fd (if bind_all_ n then INADDR_ANY else INADDR_LOOPBACK) port k with
      | (Errno_is _, k) => close_and_fail fd kIoError n k
      | (Done _, k) =>
          match sys_listen fd backlog k with
          | (Errno_is _, k) => close_and_fail fd kIoError n k
          | (Done _, k) =>
              match set_nonblocking fd k with
              | (false, k) => close_and_fail fd kIoError n k
              | (true, k) => (Ok (conn_of fd), register_fd fd (n <| kernel := k |>))
              end
          end
      end
  end.

Definition local_port (listener : Z) (n : t) : Result Z * t :=
  match entry_for listener n with
  | None => (fail kNotFound, n)
  | Some _ =>
      match sys_getsockname (fd_of listener) (kernel n) with
      | (Errno_is _, k) => (fail kIoError, n <| kernel := k |>)
      | (Done port, k) => (Ok (u16 port), n <| kernel := k |>)
      end
  end.

(** What [accept] and [connect] do with a connected socket. *)
Definition adopt (fd : Z) (n : t) (k : K) : Result Z * t :=
  match set_nonblocking fd k with
  | (false, k) => close_and_fail fd kIoError n k
  | (true, k) => (Ok (conn_of fd), register_fd fd (n <| kernel := set_nodelay fd k |>))
  end.

Definition accept (listener : Z) (n : t) : Result Z * t :=
  match entry_for listener n with
  | None => (fail kNotFound, n)
  | Some _ =>
      match sys_accept (fd_of listener) (kernel n) with
      | (Errno_is e, k) => (fail (errno_to_code e), n <| kernel := k |>)
      | (Done fd, k) => adopt fd n k
      end
  end.

Definition connect (host : chars) (port : Z) (n : t) : Result Z * t :=
  match getaddrinfo host (lit (pretty port)) (kernel n) with
  | (None, k) => (fail kNotFound, n <| kernel := k |>)
  | (Some addr, k) =>
      match sys_socket k with
      | (Errno_is _, k) => (fail kIoError, n <| kernel := k |>)
      | (Done fd, k) =>
          match sys_connect fd addr k with
          | (Errno_is _, k) => close_and_fail fd kIoError n k
          | (Done _, k) => adopt fd n k
          end
      end
  end.

Definition read (conn size : Z) (n : t) : Result (list Z) * t :=
  match entry_for conn n with
  | None => (fail kNotFound, n)
  | Some _ =>
      match sys_read (fd_of conn) size (kernel n) with
      | (Errno_is e, k) => (fail (errno_to_code e), n <| kernel := k |>)
      | (Done bs, k) => (Ok bs, n <| kernel := k |>)
      end
  end.

Definition write (conn : Z) (data : list Z) (n : t) : Result Z * t :=
  match entry_for conn n with
  | None => (fail kNotFound, n)
  | Some _ =>
      match sys_send (fd_of conn) data (kernel n) with
      | (Errno_is e, k) => (fail (errno_to_code e), n <| kernel := k |>)
      | (Done w, k) => (Ok w, n <| kernel := k |>)
      end
  end.

(** [ev.events] *)
Definition epoll_mask (i : Interest.t) : Z :=
  Z.lor (if wants_read i then EPOLLIN else 0) (if wants_write i then EPOLLOUT else 0).

(** The results of [epoll_ctl] are ignored. *)
Definition apply_interest (fd : Z) (before after : Interest.t) (n : t) : t :=
  if bool_decide (before = after) then n
  else
    let was_registered := negb (bool_decide (before = Interest.kNone)) in
    let is_registered := negb (bool_decide (after = Interest.kNone)) in
    let ctl op := n <| kernel := (epoll_ctl (poll_fd_ n) op fd (kernel n)).2 |> in
    if negb was_registered && is_registered then ctl (EPOLL_CTL_ADD (epoll_mask after))
    else if was_registered && negb is_registered then ctl EPOLL_CTL_DEL
    else if is_registered then ctl (EPOLL_CTL_MOD (epoll_mask after))
    else n.

Definition close (conn : Z) (n : t) : t :=
  match entry_for conn n with
  | None => n
  | Some e =>
      let fd := fd_of conn in
      let n := apply_interest fd (interest e) Interest.kNone n in
      let n := put_closed fd true (put_entry fd no_entry n) in
      n <| kernel := close_fd fd (kernel n) |>
  end.

Definition watch (conn : Z) (after : Interest.t) (h : option H) (n : t) : t :=
  match entry_for conn n with
  | None => n
  | Some e =>
      put_entry (fd_of conn) (e <| interest := after |> <| handler := h |>)
        (apply_interest (fd_of conn) (interest e) after n)
  end.

Definition open_connection_count (n : t) : Z := zlen (filter (fun e => active e = true) (entries_ n)).

(** ** [poll] *)

(** Round up. *)
Definition timeout_ms (timeout : Z) : Z :=
  if 0 <=? timeout then i32 (Z.quot (timeout + 1000000 - 1) 1000000) else -1.

Context {W : Type} (net_of : W -> t) (set_net : t -> W -> W) (upcall : H -> Upcall -> Z -> W -> W).

Definition closed (fd : Z) (n : t) : bool := default false (closed_during_dispatch_ n !! Z.to_nat fd).
Definition entry_at (fd : Z) (n : t) : Entry := default no_entry (entries_ n !! Z.to_nat fd).
Definition has (mask bits : Z) : bool := negb (Z.land mask bits =? 0).

(** The end of the loop body, through the reference to an entry in [block]. *)
Definition maybe_writable (fd mask block : Z) (dispatched : Z) (w : W) : option (Z * W) :=
  if negb (has mask EPOLLOUT) then Some (dispatched, w)
  else if negb (block_ (net_of w) =? block) then None
  else if negb (active (entry_at fd (net_of w))) then Some (dispatched, w)
  else
    match handler (entry_at fd (net_of w)) with
    | None => None
    | Some h => Some (dispatched, upcall h on_writable (conn_of fd) w)
    end.

(** The body of the loop, for one event of the batch. *)
Definition dispatch (event : Z * Z) (dispatched : Z) (w : W) : option (Z * W) :=
  let '(fd, mask) := event in
  let n := net_of w in
  if (fd <? 0) || (zlen (entries_ n) <=? fd) then Some (dispatched, w)
  else if closed fd n then Some (dispatched, w)
  else
    let e := entry_at fd n in
    match handler e with
    | None => Some (dispatched, w)
    | Some h =>
        if negb (active e) then Some (dispatched, w)
        else
          let dispatched := dispatched + 1 in
          if has mask EPOLLERR then Some (dispatched, upcall h on_hangup (conn_of fd) w)
          else if has mask (Z.lor EPOLLIN EPOLLHUP) then
            let w := upcall h on_readable (conn_of fd) w in
            if closed fd (net_of w) then Some (dispatched, w)
            else maybe_writable fd mask (block_ n) dispatched w
          else maybe_writable fd mask (block_ n) dispatched w
    end.

Fixpoint dispatch_all (events : list (Z * Z)) (dispatched : Z) (w : W) : option (Z * W) :=
  match events with
  | [] => Some (dispatched, w)
  | event :: rest =>
      match dispatch event dispatched w with
      | None => None
      | Some (dispatched, w) => dispatch_all rest dispatched w
      end
  end.

Definition poll (timeout : Z) (w : W) : option (Z * W) :=
  let n := net_of w in
  let n := n <| closed_during_dispatch_ := map (fun _ => false) (closed_during_dispatch_ n) |> in
  match epoll_wait (poll_fd_ n) kMaxEventsPerPoll (timeout_ms timeout) (kernel n) with
  | (Errno_is _, k) => Some (0, set_net (n <| kernel := k |>) w)
  | (Done events, k) => dispatch_all events 0 (set_net (n <| kernel := k |>) w)
  end.

End Real.

#[global] Arguments Entry : clear implicits.
#[global] Arguments t : clear implicits.

#[export] Instance real_network {K A H} `{Sockets K A} : Network.t (t K H) H := {
  Network.listen := listen; Network.local_port := local_port; Network.accept := accept;
  Network.connect := connect; Network.read := read; Network.write := write;
  Network.close := close; Network.watch := watch }.

End RealNetwork.
