(* ===== verification/RealNetworkProps.v ===== *)
(** * The network of the process: theorems

    The table of connections and the kernel's interest list say the same; a handler is only
    ever called about a connection that is open and registered to it; and two runs of [poll]
    that go wrong. *)
From S2P Require Import Prelude Base Disk Posix Sockets Network RealNetwork.
From S2P Require Import RecordBatch SparseIndex Segment Log RaftTypes RaftNode Broker BrokerFrame.

Section Mirror.
Context {K A H : Type} {SO : Sockets K A} {SV : SocketView K} {SL : SocketLaws K A}.
#[local] Set Default Proof Using "Type SL".
Import RealNetwork.
Implicit Types (n : RealNetwork.t K H) (k : K).

#[export] Instance real_network_laws : Network.laws (RealNetwork.t K H) H.
Proof.
  split.
  - intros c data n r n'. cbn. unfold write. destruct (entry_for c n) as [en|]; [|done].
    destruct (sys_send _ _ _) as [[w|e] k] eqn:S; [|done]. intros [= <- _]. apply send_law in S. tauto.
  - intros c size n bs n' Hs. cbn. unfold read. destruct (entry_for c n) as [en|]; [|done].
    destruct (sys_read _ _ _) as [[w|e] k] eqn:S; [|done]. intros [= <- _]. apply read_law in S. tauto.
Qed.

(** What the table asks epoll for. *)
Definition wanted n (fd : Z) : option Z :=
  if fd <? 0 then None
  else
    match entries_ n !! Z.to_nat fd with
    | Some e => if bool_decide (interest e = Interest.kNone) then None else Some (epoll_mask (interest e))
    | None => None
    end.

(** The table [n] on the machine [k]. *)
Record mirrors n k : Prop := {
  mi_epoll : poll_fd_ n ∈ epolls k;
  mi_active i e : entries_ n !! i = Some e -> active e = true -> Z.of_nat i ∈ sockets k;
  mi_idle i e : entries_ n !! i = Some e -> active e = false -> interest e = Interest.kNone;
  mi_watched fd : fd ∉ starved k -> watched k (poll_fd_ n) !! fd = wanted n fd }.

Lemma mirrors_undisturbed n k k' : undisturbed k k' -> mirrors n k -> mirrors n k'.
Proof.
  intros [U1 U2 U3 U4] [M1 M2 M3 M4]. split; [by rewrite U2 | | done | by intros fd; rewrite U3, U4; apply M4]. intros i e. rewrite U1. apply M2.
Qed.

(** A descriptor that no entry is about. *)
Definition strange (fd : Z) n : Prop := 0 <= fd /\ forall e, entries_ n !! Z.to_nat fd = Some e -> active e = false.

Lemma strange_unwatched fd n k : mirrors n k -> strange fd n -> wanted n fd = None.
Proof.
  intros M [Hf Hs]. unfold wanted. destruct (fd <? 0); [done|]. destruct (entries_ n !! Z.to_nat fd) as [e|] eqn:E; [|done].
  by rewrite (mi_idle _ _ M _ _ E (Hs _ eq_refl)).
Qed.

Lemma mirrors_opened n k fd k' : mirrors n k -> opened k (Done fd) k' ->
  mirrors n k' /\ strange fd n /\ fd <> poll_fd_ n /\ fd ∈ sockets k'.
Proof.
  intros M (F & S & E & W & R). pose proof M as [M1 M2 M3 M4]. destruct F as (Hfd & Fs & Fe). split_and!.
  - split; [by rewrite E | | done | by intros f; rewrite W, R; apply M4]. intros i e Hi Ha. rewrite S. apply elem_of_union. right. eauto.
  - split; [lia|]. intros e Hi. destruct (active e) eqn:Ha; [|done]. exfalso. apply Fs.
    specialize (M2 _ _ Hi Ha). by rewrite Z2Nat.id in M2 by lia.
  - by intros ->.
  - rewrite S. by apply elem_of_union_l, elem_of_singleton.
Qed.

Lemma mirrors_close_strange n k fd : mirrors n k -> strange fd n -> fd <> poll_fd_ n -> mirrors n (close_fd fd k).
Proof.
  intros M St Hp. pose proof M as [M1 M2 M3 M4]. destruct (close_law fd k) as (S & E & W & R).
  split; [rewrite E; apply elem_of_difference; split; [done | intros X%elem_of_singleton; done] | | done |].
  - intros i e Hi Ha. rewrite S. apply elem_of_difference. split; [eauto|]. intros <-%elem_of_singleton. destruct St as [_ St].
    rewrite Nat2Z.id in St. rewrite (St _ Hi) in Ha. done.
  - intros f Hs. rewrite W by done. destruct (decide (f = fd)) as [->|Hf].
    + rewrite lookup_delete_eq. symmetry. by eapply strange_unwatched.
    + rewrite lookup_delete_ne by done. apply M4. intros X. apply Hs. rewrite R. by apply elem_of_difference; rewrite elem_of_singleton.
Qed.

(** ** The table grows *)

Lemma lookup_repeat_some {B} (x y : B) m i : repeat x m !! i = Some y -> y = x.
Proof. revert i. induction m as [|m IH]; intros [|i]; cbn; [done | done | by intros [= <-] | apply IH]. Qed.

(** A larger table has idle entries at its end. *)
Definition extends n n' : Prop :=
  poll_fd_ n' = poll_fd_ n /\ kernel n' = kernel n /\ exists m, entries_ n' = entries_ n ++ repeat no_entry m.

Lemma ensure_extends fd n : extends n (ensure_slot fd n) /\ (0 <= fd -> (Z.to_nat fd < length (entries_ (ensure_slot fd n)))%nat).
Proof.
  unfold ensure_slot, grow. cbv zeta.
  assert (forall b n0, extends n n0 -> extends n (if b : bool then n0 <| closed_during_dispatch_ := closed_during_dispatch_ n0 ++
     repeat false (Z.to_nat (fd + 1 - zlen (closed_during_dispatch_ n0))) |> else n0)) as Ec by by intros [].
  assert (forall (b : bool) (n0 : RealNetwork.t K H) x, entries_ (if b then n0 <| closed_during_dispatch_ := x |> else n0) = entries_ n0) as Ee by by intros [].
  rewrite Ee. destruct (zlen (entries_ n) <? fd + 1) eqn:L; bool_prop.
  - split; [apply Ec; destruct (capacity_ n <? fd + 1); (split_and!; [done | done |]); by eexists|].
    intros Hf. destruct (capacity_ n <? fd + 1); cbn; rewrite length_app, repeat_length; unfold zlen in *; lia.
  - split; [apply Ec; split_and!; [done | done |]; exists 0%nat; cbn; by rewrite app_nil_r|]. intros Hf. unfold zlen in *. lia.
Qed.

Lemma mirrors_extends n n' k : extends n n' -> mirrors n k -> mirrors n' k.
Proof.
  intros (Ep & _ & m & Ee) [M1 M2 M3 M4].
  assert (forall i e, entries_ n' !! i = Some e -> entries_ n !! i = Some e \/ entries_ n !! i = None /\ e = no_entry) as Look.
  { intros i e. rewrite Ee, lookup_app. destruct (entries_ n !! i); [by left|]. intros E%lookup_repeat_some. by right. }
  split; rewrite ?Ep; [done | | |].
  - intros i e Hi Ha. destruct (Look _ _ Hi) as [?|[_ ->]]; [eauto | done].
  - intros i e Hi Ha. destruct (Look _ _ Hi) as [?|[_ ->]]; [eauto | done].
  - intros fd Hs. rewrite M4 by done. unfold wanted. destruct (fd <? 0); [done|].
    destruct (entries_ n' !! Z.to_nat fd) as [e|] eqn:E; [destruct (Look _ _ E) as [->|[-> ->]]; done|].
    rewrite Ee, lookup_app in E. by destruct (entries_ n !! _).
Qed.

(** An idle entry becomes a connection nobody watches yet. *)
Lemma mirrors_register fd n k : mirrors n k -> strange fd n -> fd ∈ sockets k -> mirrors (register_fd fd n) k.
Proof.
  intros M [Hf Hs] Hk. unfold register_fd. destruct (ensure_extends fd n) as [X L]. specialize (L Hf).
  pose proof (mirrors_extends _ _ _ X M) as M'. set (n1 := ensure_slot fd n) in *.
  assert (strange fd n1) as [_ S1].
  { split; [done|]. intros e. destruct X as (_ & _ & m & ->). rewrite lookup_app. destruct (entries_ n !! _) eqn:E; [by intros [= <-]; apply Hs|].
    by intros ->%lookup_repeat_some. }
  assert (wanted n1 fd = None) as Wn by (by eapply strange_unwatched; [exact M' | split]). clearbody n1. destruct M' as [M1 M2 M3 M4].
  split; cbn; [done | | |].
  - intros i e. destruct (decide (i = Z.to_nat fd)) as [->|Hi]; [by rewrite Z2Nat.id|].
    rewrite list_lookup_insert_ne by done. apply M2.
  - intros i e. destruct (decide (i = Z.to_nat fd)) as [->|Hi]; [rewrite list_lookup_insert_eq by done; by intros [= <-]|].
    rewrite list_lookup_insert_ne by done. apply M3.
  - intros f Hst. rewrite M4 by done. destruct (decide (f = fd)) as [->|Hf'].
    + rewrite Wn. unfold wanted. cbn. destruct (fd <? 0); [done|]. by rewrite list_lookup_insert_eq.
    + unfold wanted. cbn. destruct (f <? 0) eqn:F; bool_prop; [done|]. by rewrite list_lookup_insert_ne by lia.
Qed.

(** ** The members *)

Definition sound n : Prop := mirrors n (kernel n).

Lemma sound_kernel n k : mirrors n k -> sound (n <| kernel := k |>).
Proof. by intros []. Qed.

Lemma nonblocking_undisturbed fd k r k' : set_nonblocking fd k = (r, k') -> undisturbed k k'.
Proof.
  unfold set_nonblocking. destruct (sys_getfl fd k) as [[fl|e] k1] eqn:G; apply getfl_law in G as [G1 G2 G3 G4]; [|by intros [= <- <-]].
  destruct (sys_setfl _ _ k1) as [[u|e] k2] eqn:S; apply setfl_law in S as [S1 S2 S3 S4]; intros [= <- <-]; split; congruence.
Qed.

(** A new socket: thrown away again, or in the table. *)
Record holding (fd : Z) n k : Prop := {
  ho_mirrors : mirrors n k;
  ho_strange : strange fd n;
  ho_poll : fd <> poll_fd_ n;
  ho_socket : fd ∈ sockets k }.

Lemma holding_undisturbed fd n k k' : undisturbed k k' -> holding fd n k -> holding fd n k'.
Proof. intros U [A1 A2 A3 A4]. split; [by eapply mirrors_undisturbed | done | done |]. by rewrite (un_sockets _ _ U). Qed.

Lemma give_up_sound fd code n k : holding fd n k -> sound (close_and_fail fd code n k).2.
Proof. intros [A1 A2 A3 A4]. by apply sound_kernel, mirrors_close_strange. Qed.

Lemma register_sound fd n k : holding fd n k -> sound (register_fd fd (n <| kernel := k |>)).
Proof.
  intros [A1 A2 A3 A4]. unfold sound. destruct (ensure_extends fd (n <| kernel := k |>)) as [(_ & Ek & _) _].
  assert (kernel (register_fd fd (n <| kernel := k |>)) = k) as -> by exact Ek. apply mirrors_register; [by destruct A1 | exact A2 | exact A4].
Qed.

Lemma adopt_sound fd n k : holding fd n k -> sound (adopt fd n k).2.
Proof.
  intros Ho. unfold adopt. destruct (set_nonblocking fd k) as [[] k1] eqn:B; apply nonblocking_undisturbed in B;
    pose proof (holding_undisturbed _ _ _ _ B Ho) as H1; [|by apply give_up_sound].
  apply register_sound. eapply holding_undisturbed; [apply nodelay_law | exact H1].
Qed.

Lemma holding_opened fd n k k' : mirrors n k -> opened k (Done fd) k' -> holding fd n k'.
Proof. intros M O. destruct (mirrors_opened _ _ _ _ M O) as (? & ? & ? & ?). by split. Qed.

Lemma listen_sound port backlog n : sound n -> sound (listen port backlog n).2.
Proof.
  intros M. unfold listen. destruct (sys_socket (kernel n)) as [[fd|e] k] eqn:S; apply socket_law in S;
    [|apply sound_kernel; by eapply mirrors_undisturbed].
  pose proof (holding_opened _ _ _ _ M S) as Ho. cbv zeta. pose proof (holding_undisturbed _ _ _ _ (reuseaddr_law fd k) Ho) as H1.
  destruct (sys_bind _ _ _ _) as [[u|e] k2] eqn:B; apply bind_law in B; pose proof (holding_undisturbed _ _ _ _ B H1) as H2;
    [|by apply give_up_sound].
  destruct (sys_listen _ _ k2) as [[u3|e] k3] eqn:L; apply listen_law in L; pose proof (holding_undisturbed _ _ _ _ L H2) as H3;
    [|by apply give_up_sound].
  destruct (set_nonblocking fd k3) as [[] k4] eqn:N; apply nonblocking_undisturbed in N; pose proof (holding_undisturbed _ _ _ _ N H3) as H4;
    [by apply register_sound | by apply give_up_sound].
Qed.

Lemma accept_sound listener n : sound n -> sound (accept listener n).2.
Proof.
  intros M. unfold accept. destruct (entry_for listener n) as [en|]; [|done].
  destruct (sys_accept _ _) as [[fd|e] k] eqn:S; apply accept_law in S; [|apply sound_kernel; by eapply mirrors_undisturbed].
  by eapply adopt_sound, holding_opened.
Qed.

Lemma connect_sound host port n : sound n -> sound (connect host port n).2.
Proof.
  intros M. unfold connect. destruct (getaddrinfo _ _ _) as [[addr|] k] eqn:G; apply getaddrinfo_law in G;
    pose proof (mirrors_undisturbed _ _ _ G M) as M1; [|by apply sound_kernel].
  destruct (sys_socket k) as [[fd|e] k1] eqn:S; apply socket_law in S; [|apply sound_kernel; by eapply mirrors_undisturbed].
  pose proof (holding_opened _ _ _ _ M1 S) as Ho.
  destruct (sys_connect _ _ k1) as [[u|e] k2] eqn:C; apply connect_law in C; pose proof (holding_undisturbed _ _ _ _ C Ho) as H2;
    [by apply adopt_sound | by apply give_up_sound].
Qed.

Lemma read_sound c size n : sound n -> sound (read c size n).2.
Proof.
  intros M. unfold read. destruct (entry_for c n) as [en|]; [|done].
  destruct (sys_read _ _ _) as [[bs|e] k] eqn:S; apply read_law in S as [U _]; apply sound_kernel; by eapply mirrors_undisturbed.
Qed.

Lemma write_sound c data n : sound n -> sound (write c data n).2.
Proof.
  intros M. unfold write. destruct (entry_for c n) as [en|]; [|done].
  destruct (sys_send _ _ _) as [[w|e] k] eqn:S; apply send_law in S as [U _]; apply sound_kernel; by eapply mirrors_undisturbed.
Qed.

Definition want (i : Interest.t) : option Z := if bool_decide (i = Interest.kNone) then None else Some (epoll_mask i).

Lemma entry_for_spec c n e : entry_for c n = Some e -> 0 <= fd_of c /\ entries_ n !! Z.to_nat (fd_of c) = Some e /\ active e = true.
Proof.
  unfold entry_for. cbv zeta. destruct (_ || _) eqn:B; [done|]. bool_prop. destruct (entries_ n !! _) as [x|]; [|done].
  destruct (active x) eqn:Ax; [|done]. intros [= ->]. split_and!; [lia | done..].
Qed.

(** A call that makes sense, wherever it was not the kernel that was short of something. *)
Lemma ctl_spec ep op fd k : ep ∈ epolls k -> fd ∈ sockets k -> (fd ∉ starved k -> op_fits op (watched k ep !! fd)) ->
  let k' := (epoll_ctl ep op fd k).2 in
  sockets k' = sockets k /\ epolls k' = epolls k /\ starved k ⊆ starved k' /\
  forall f, f ∉ starved k' -> watched k' ep !! f = if decide (f = fd) then op_asks op else watched k ep !! f.
Proof.
  intros Ep Sk Fit. destruct (epoll_ctl ep op fd k) as [r k'] eqn:C. destruct (epoll_ctl_law _ _ _ _ _ _ C Ep Sk) as (C1 & C2 & C3).
  cbn. split; [done|]. split; [done|]. destruct r as [u|e].
  - destruct C3 as (_ & C4 & C5). rewrite C4. split; [done|]. intros f _. rewrite C5, lookup_partial_alter.
    destruct (decide (f = fd)) as [->|Hne]; [by rewrite decide_True | by rewrite decide_False].
  - destruct C3 as (C4 & C5 & C6). assert (starved k ⊆ starved k') as Sub.
    { destruct (decide (op_fits op (watched k ep !! fd))) as [F|F]; [rewrite (C5 F); apply union_subseteq_r | by rewrite (C6 F)]. }
    split; [done|]. intros f Hs. rewrite C4. destruct (decide (f = fd)) as [->|Hne]; [|done].
    exfalso. assert (fd ∉ starved k) as Hk by (intros X; apply Hs, Sub, X). apply Hs. rewrite (C5 (Fit Hk)).
    by apply elem_of_union_l, elem_of_singleton.
Qed.

(** Asking epoll for something else. *)
Lemma apply_interest_spec fd e after n : sound n -> 0 <= fd -> entries_ n !! Z.to_nat fd = Some e -> active e = true ->
  let n' := apply_interest fd (interest e) after n in
  n' = n <| kernel := kernel n' |> /\ sockets (kernel n') = sockets (kernel n) /\ epolls (kernel n') = epolls (kernel n) /\
  starved (kernel n) ⊆ starved (kernel n') /\
  forall f, f ∉ starved (kernel n') ->
    watched (kernel n') (poll_fd_ n) !! f = if decide (f = fd) then want after else watched (kernel n) (poll_fd_ n) !! f.
Proof.
  intros M Hf He Ha. pose proof (mi_watched _ _ M fd) as Wf. unfold wanted in Wf.
  replace (fd <? 0) with false in Wf by (symmetry; apply Z.ltb_ge; lia). rewrite He in Wf. fold (want (interest e)) in Wf.
  pose proof (mi_active _ _ M _ _ He Ha) as Sk. rewrite Z2Nat.id in Sk by lia. pose proof (mi_epoll _ _ M) as Ep.
  assert (forall op, op_fits op (want (interest e)) -> op_asks op = want after ->
    let n' := n <| kernel := (epoll_ctl (poll_fd_ n) op fd (kernel n)).2 |> in
    n' = n <| kernel := kernel n' |> /\ sockets (kernel n') = sockets (kernel n) /\ epolls (kernel n') = epolls (kernel n) /\
    starved (kernel n) ⊆ starved (kernel n') /\
    forall f, f ∉ starved (kernel n') ->
      watched (kernel n') (poll_fd_ n) !! f = if decide (f = fd) then want after else watched (kernel n) (poll_fd_ n) !! f) as Ctl.
  { intros op Fit <-. cbn. split; [done|]. apply ctl_spec; [done | done |]. intros Hs. by rewrite Wf. }
  cbv zeta. unfold apply_interest. case_bool_decide as Eq.
  { split_and!; [by destruct n | done | done | done |]. intros f Hs. destruct (decide (f = fd)) as [->|]; [by rewrite Wf, Eq | done]. }
  clear Wf. unfold want in *. cbv zeta.
  destruct (bool_decide (interest e = Interest.kNone)) eqn:B; destruct (bool_decide (after = Interest.kNone)) eqn:Af; cbn [negb andb];
    [apply bool_decide_eq_true in B, Af; congruence | apply Ctl; cbn; eauto..].
Qed.

(** One entry is written, and the machine follows. *)
Lemma mirrors_put fd e e' n n' k' : sound n -> 0 <= fd -> entries_ n !! Z.to_nat fd = Some e ->
  entries_ n' = <[Z.to_nat fd := e']> (entries_ n) -> poll_fd_ n' = poll_fd_ n -> poll_fd_ n ∈ epolls k' ->
  (if active e' then fd ∈ sockets k' else interest e' = Interest.kNone) ->
  (forall f, f <> fd -> f ∈ sockets (kernel n) -> f ∈ sockets k') ->
  (forall f, f <> fd -> f ∈ starved (kernel n) -> f ∈ starved k') ->
  (forall f, f ∉ starved k' ->
    watched k' (poll_fd_ n) !! f = if decide (f = fd) then want (interest e') else watched (kernel n) (poll_fd_ n) !! f) ->
  mirrors n' k'.
Proof.
  intros [M1 M2 M3 M4] Hf He En Ep Hp He' Hs Hst Hw. pose proof (lookup_lt_Some _ _ _ He) as Hl.
  split; rewrite ?Ep, ?En; [done | | |].
  - intros i x. rewrite list_lookup_insert. case_decide as D; [destruct D as [<- _]; intros [= <-] Ha; rewrite Ha in He'; by rewrite Z2Nat.id|].
    intros Hi Ha. apply Hs; [|eauto]. intros Hi'. apply D. split; [by rewrite <- Hi', Nat2Z.id | done].
  - intros i x. rewrite list_lookup_insert. case_decide as D; [|apply M3]. intros [= <-] Ha. by rewrite Ha in He'.
  - intros f Hn. rewrite Hw by done. destruct (decide (f = fd)) as [->|Hne]; unfold wanted; rewrite En.
    + replace (fd <? 0) with false by (symmetry; apply Z.ltb_ge; lia). by rewrite list_lookup_insert_eq.
    + rewrite M4 by (intros X; by apply Hn, Hst). unfold wanted. destruct (f <? 0) eqn:F; bool_prop; [done|]. by rewrite list_lookup_insert_ne by lia.
Qed.

Lemma watch_sound c after h n : sound n -> sound (watch c after h n).
Proof.
  intros M. unfold watch. destruct (entry_for c n) as [e|] eqn:E; [|done]. apply entry_for_spec in E as (Hf & He & Ha).
  destruct (apply_interest_spec _ _ after _ M Hf He Ha) as (En & S & Ek & R & W). set (n1 := apply_interest _ _ _ _) in *. clearbody n1.
  pose proof (mi_active _ _ M _ _ He Ha) as Sk. rewrite Z2Nat.id in Sk by lia.
  eapply (mirrors_put (fd_of c) e _ n _ (kernel n1)); [exact M | done | done | by rewrite En | by rewrite En | rewrite Ek; apply M | | | | exact W]; cbn.
  - rewrite Ha, S. done.
  - intros f _. by rewrite S.
  - intros f _. apply R.
Qed.

Lemma close_sound c n : sound n -> sound (close c n).
Proof.
  intros M. unfold close. destruct (entry_for c n) as [e|] eqn:E; [|done]. apply entry_for_spec in E as (Hf & He & Ha).
  destruct (apply_interest_spec _ _ Interest.kNone _ M Hf He Ha) as (En & S & Ek & R & W). cbv zeta.
  set (n1 := apply_interest _ _ _ _) in *. clearbody n1.
  pose proof (mi_active _ _ M _ _ He Ha) as Sk. rewrite Z2Nat.id in Sk by lia.
  assert (poll_fd_ n <> fd_of c) as Hp by (intros Eq; eapply kinds_disjoint; [exact Sk | rewrite <- Eq; apply M]).
  destruct (close_law (fd_of c) (kernel n1)) as (C1 & C2 & C3 & C4).
  assert (forall f, f <> fd_of c -> f ∈ starved (close_fd (fd_of c) (kernel n1)) <-> f ∈ starved (kernel n1)) as Cs
    by (intros f Hne; rewrite C4, elem_of_difference, elem_of_singleton; tauto).
  eapply (mirrors_put (fd_of c) e no_entry n _ (close_fd (fd_of c) (kernel n1))); [exact M | done | done | by rewrite En | by rewrite En | | done | | |]; cbn.
  - rewrite C2, Ek. apply elem_of_difference. split; [apply M | intros X%elem_of_singleton; done].
  - intros f Hne Hs. rewrite C1, S. apply elem_of_difference. split; [done | by intros X%elem_of_singleton].
  - intros f Hne Hs. apply Cs; [done|]. by apply R.
  - intros f Hs. rewrite C3 by done. rewrite lookup_delete. destruct (decide (f = fd_of c)) as [->|Hne]; [by rewrite decide_True|].
    rewrite decide_False by done. rewrite W, decide_False; [done | done |]. by rewrite <- Cs.
Qed.

Lemma net_call_sound n n' : net_call n n' -> sound n -> sound n'.
Proof.
  induction 1 as [p b n|c n|h p n|c size n|c data n|c n|c i h n|n n1 n2 _ IH1 _ IH2]; cbn; [apply listen_sound | apply accept_sound
    | apply connect_sound | apply read_sound | apply write_sound | apply close_sound | apply watch_sound | auto].
Qed.

Lemma new_sound b k : 0 <= poll_fd_ (new (H := H) b k) -> sound (new (H := H) b k).
Proof.
  unfold new. destruct (epoll_create1 _) as [[fd|e] k1] eqn:E; [|done]. intros _. apply epoll_create_law in E as (F & S & Ek & W).
  split; cbn; [done | done | done |]. intros f. rewrite W. unfold wanted. cbn. by destruct (f <? 0).
Qed.

(** ** Polls *)

Section Polls.
Context {W : Type} (net_of : W -> RealNetwork.t K H) (set_net : RealNetwork.t K H -> W -> W).
Context (lens : forall n w, net_of (set_net n w) = n).
#[local] Set Default Proof Using "Type SL lens".
Implicit Type w : W.

Lemma poll_sound upcall timeout w d w' : (forall h u c w, sound (net_of w) -> sound (net_of (upcall h u c w))) ->
  sound (net_of w) -> poll net_of set_net upcall timeout w = Some (d, w') -> sound (net_of w').
Proof.
  intros Up. assert (forall event d0 w0 d1 w1, sound (net_of w0) -> dispatch net_of upcall event d0 w0 = Some (d1, w1) -> sound (net_of w1)) as Disp.
  { intros [fd mask] d0 w0 d1 w1 M. unfold dispatch. cbv zeta. destruct (_ || _); [by intros [= <- <-]|]. destruct (closed _ _); [by intros [= <- <-]|].
    destruct (handler _) as [h|]; [|by intros [= <- <-]]. destruct (negb _); [by intros [= <- <-]|].
    destruct (has mask EPOLLERR); [intros [= <- <-]; by apply Up|].
    assert (forall w2, sound (net_of w2) -> maybe_writable net_of upcall fd mask (block_ (net_of w0)) (d0 + 1) w2 = Some (d1, w1) -> sound (net_of w1)) as Wr.
    { intros w2 M2. unfold maybe_writable. destruct (negb _); [by intros [= <- <-]|]. destruct (negb _); [done|].
      destruct (negb _); [by intros [= <- <-]|]. destruct (handler _); [intros [= <- <-]; by apply Up | done]. }
    destruct (has mask _); [|by apply Wr]. destruct (closed _ _); [intros [= <- <-]; by apply Up | by apply Wr, Up]. }
  intros M. unfold poll. cbv zeta. destruct (epoll_wait _ _ _ _) as [[events|e] k] eqn:E; apply epoll_wait_law in E;
    match goal with |- context [set_net ?n w] => assert (sound (net_of (set_net n w))) as M1
      by (rewrite lens; apply (mirrors_undisturbed _ _ _ E) in M as []; by split) end.
  - generalize 0. revert M1. generalize (set_net (net_of w <| closed_during_dispatch_ := map (fun _ => false) (closed_during_dispatch_ (net_of w)) |> <| kernel := k |>) w).
    induction events as [|event events IH]; intros w1 M1 d1; cbn [dispatch_all]; [by intros [= <- <-]|].
    destruct (dispatch _ _ event d1 w1) as [[d2 w2]|] eqn:D; [|done]. apply IH. by eapply Disp.
  - by intros [= <- <-].
Qed.

(** The handler [h] has asked to hear of the open connection [c]. *)
Definition registered (h : H) (c : Z) n : Prop :=
  exists fd e, c = conn_of fd /\ 0 <= fd /\ entries_ n !! Z.to_nat fd = Some e /\ active e = true /\ handler e = Some h.

(** handlers hear only of what is theirs: at the moment [poll] calls a handler, the
    connection it passes is open and registered to that handler, whatever the handlers called
    before it did.  So what a handler would do on other calls makes no difference. *)
Theorem poll_calls_the_registered up1 up2 timeout w :
  (forall h u c w, registered h c (net_of w) -> up1 h u c w = up2 h u c w) ->
  poll net_of set_net up1 timeout w = poll net_of set_net up2 timeout w.
Proof using Type.
  intros Ext. unfold poll. cbv zeta. destruct (epoll_wait _ _ _ _) as [[events|e] k]; [|done]. generalize 0.
  generalize (set_net (net_of w <| closed_during_dispatch_ := map (fun _ => false) (closed_during_dispatch_ (net_of w)) |> <| kernel := k |>) w).
  assert (forall fd h w, 0 <= fd -> active (entry_at fd (net_of w)) = true -> handler (entry_at fd (net_of w)) = Some h -> registered h (conn_of fd) (net_of w)) as Reg.
  { intros fd h w0 Hf Ha Hh. unfold entry_at in *. destruct (entries_ _ !! _) as [x|] eqn:E; [|done]. by exists fd, x. }
  assert (forall event d w, dispatch net_of up1 event d w = dispatch net_of up2 event d w) as Disp.
  { intros [fd mask] d w0. unfold dispatch. cbv zeta. destruct (_ || _) eqn:B; [done|]. bool_prop. destruct (closed _ _); [done|].
    destruct (handler _) as [h|] eqn:Hh; [|done]. destruct (active _) eqn:Ha; [|done]. cbn [negb].
    rewrite !(Ext h _ _ w0) by (apply Reg; [lia | done..]).
    assert (forall block d w, maybe_writable net_of up1 fd mask block d w = maybe_writable net_of up2 fd mask block d w) as Wr.
    { intros block d1 w1. unfold maybe_writable. destruct (negb _); [done|]. destruct (negb _); [done|]. destruct (active (entry_at fd (net_of w1))) eqn:A1; [|done].
      cbn [negb]. destruct (handler (entry_at fd (net_of w1))) as [h1|] eqn:Hh1; [|done].
      rewrite (Ext h1) by (apply Reg; [lia | done..]). done. }
    by rewrite !Wr. }
  induction events as [|event events IH]; intros w1 d1; cbn [dispatch_all]; [done|]. rewrite Disp. by destruct (dispatch _ _ _ _ _) as [[]|].
Qed.

End Polls.

(** What happens to a network: its owner makes calls, and polls, and so do the handlers. *)
Inductive lives (upcall : H -> Upcall -> Z -> RealNetwork.t K H -> RealNetwork.t K H) (n0 : RealNetwork.t K H) : RealNetwork.t K H -> Prop :=
  | Born : lives upcall n0 n0
  | Calls n n' : lives upcall n0 n -> net_call n n' -> lives upcall n0 n'
  | Polls timeout n d n' : lives upcall n0 n ->
      poll (fun n => n) (fun n _ => n) upcall timeout n = Some (d, n') -> lives upcall n0 n'.

(** C28: The kernel is asked for what the table says: whatever the broker and its handlers
    call, in whatever order and from within [poll] or not, the interest list of the epoll
    instance has the connections with an interest and no others, with the events of that
    interest; except for connections of which, since they were opened, the kernel refused a
    call of [epoll_ctl] for want of memory or of watches, a result that [apply_interest] does
    not look at. *)
Theorem epoll_mirrors_table upcall b (k : K) n :
  (forall h u c n, upcall h u c n = n \/ net_call n (upcall h u c n)) -> 0 <= poll_fd_ (new (H := H) b k) -> lives upcall (new b k) n ->
  forall fd, fd ∉ starved (kernel n) -> watched (kernel n) (poll_fd_ n) !! fd = wanted n fd.
Proof.
  intros Up Hp Hn. apply mi_watched. fold (sound n). induction Hn as [|n n' _ IH C|timeout n d n' _ IH P].
  - by apply new_sound.
  - by eapply net_call_sound.
  - eapply (poll_sound (fun n => n) (fun n _ => n)); [done | | exact IH | exact P]. intros h u c m M.
    destruct (Up h u c m) as [->|C]; [done | by eapply net_call_sound].
Qed.

End Mirror.

(** ** A small machine *)

(** Descriptors are taken lowest first, connecting always succeeds, [epoll_wait] follows a
    script, and an interest list has no more than [kMaxWatches] entries. *)
Module Toy.

Record t := mk { socks : gset Z; eps : gset Z; lists : gmap Z (gmap Z Z); short : gset Z; script : list (list (Z * Z)) }.

#[export] Instance Toy_eta : Settable t := fun k => mk (socks k) (eps k) (lists k) (short k) (script k).

Definition free (k : t) : option Z := head (filter (fun fd => fd ∉ socks k ∪ eps k) (seqZ 0 32)).
Definition EMFILE : Errno := Eother 24.
Definition EEXIST : Errno := Eother 17.
Definition ENOSPC : Errno := Eother 28.
Definition kMaxWatches : nat := 6.

Definition new_socket (k : t) : Sys Z * t :=
  match free k with
  | Some fd => (Done fd, k <| socks := {[ fd ]} ∪ socks k |> <| lists := delete fd <$> lists k |> <| short := short k ∖ {[ fd ]} |>)
  | None => (Errno_is EMFILE, k)
  end.

Definition new_epoll (k : t) : Sys Z * t :=
  match free k with
  | Some fd => (Done fd, k <| eps := {[ fd ]} ∪ eps k |> <| lists := <[fd := ∅]> (lists k) |>)
  | None => (Errno_is EMFILE, k)
  end.

Definition set_list (ep : Z) (m : gmap Z Z) (k : t) : t := k <| lists := <[ep := m]> (lists k) |>.
Definition list_of (ep : Z) (k : t) : gmap Z Z := default ∅ (lists k !! ep).

Definition ctl (ep : Z) (op : EpollOp) (fd : Z) (k : t) : Sys unit * t :=
  let m := list_of ep k in
  let granted := (Done tt, set_list ep (partial_alter (fun _ => op_asks op) fd m) k) in
  match op, m !! fd with
  | EPOLL_CTL_ADD _, Some _ => (Errno_is EEXIST, k)
  | EPOLL_CTL_ADD _, None => if (kMaxWatches <=? size m)%nat then (Errno_is ENOSPC, k <| short := {[ fd ]} ∪ short k |>) else granted
  | _, Some _ => granted
  | _, None => (Errno_is ENOENT, k)
  end.

Definition wait (k : t) : Sys (list (Z * Z)) * t :=
  match script k with
  | [] => (Done [], k)
  | batch :: rest => (Done batch, k <| script := rest |>)
  end.

#[export] Instance toy_sockets : Sockets t unit := {
  ignore_sigpipe k := k;
  sys_socket := new_socket;
  set_reuseaddr _ k := k;
  set_nodelay _ k := k;
  sys_bind _ _ _ k := (Done tt, k);
  sys_listen _ _ k := (Done tt, k);
  sys_getfl _ k := (Done 0, k);
  sys_setfl _ _ k := (Done tt, k);
  sys_accept _ k := new_socket k;
  sys_getsockname _ k := (Done 0, k);
  getaddrinfo _ _ k := (Some tt, k);
  sys_connect _ _ k := (Done tt, k);
  sys_read _ _ k := (Errno_is EAGAIN, k);
  sys_send _ data k := (Done (zlen data), k);
  close_fd fd k := k <| socks := socks k ∖ {[ fd ]} |> <| eps := eps k ∖ {[ fd ]} |> <| short := short k ∖ {[ fd ]} |>;
  epoll_create1 := new_epoll;
  epoll_ctl := ctl;
  epoll_wait _ _ _ k := wait k }.

#[export] Instance toy_view : SocketView t := {
  sockets k := socks k ∖ eps k;
  epolls := eps;
  watched k ep := filter (fun kv => kv.1 ∈ socks k ∖ eps k) (list_of ep k);
  starved k := short k ∩ (socks k ∖ eps k) }.

Lemma free_unused k fd : free k = Some fd -> 0 <= fd < 32 /\ (fd ∉ socks k) /\ (fd ∉ eps k).
Proof.
  unfold free. intros E%head_Some_elem_of. apply list_elem_of_filter in E as [Hu Hr]. apply elem_of_seqZ in Hr.
  apply not_elem_of_union in Hu. split; [lia | done].
Qed.

Lemma free_fresh k fd : free k = Some fd -> fresh fd k.
Proof.
  intros (R & S & E)%free_unused. split; [lia|]. split; [|done]. cbn. by intros [? _]%elem_of_difference.
Qed.

Lemma lookup_watched k ep fd : watched k ep !! fd = if decide (fd ∈ socks k ∖ eps k) then list_of ep k !! fd else None.
Proof.
  cbn. destruct (decide _) as [D|D].
  - destruct (list_of ep k !! fd) as [m|] eqn:E; [by apply map_lookup_filter_Some | apply map_lookup_filter_None; by left].
  - apply map_lookup_filter_None. right. done.
Qed.

Ltac members := try (apply set_eq; intros ?); cbn; rewrite ?elem_of_intersection, ?elem_of_difference, ?elem_of_union, ?elem_of_difference, ?elem_of_singleton; intuition congruence.

(** [decide] of two memberships that say the same. *)
Lemma same_decide {B} (P Q : Prop) `{Decision P} `{Decision Q} (x y : B) : (P <-> Q) -> (if decide P then x else y) = if decide Q then x else y.
Proof. intros E. destruct (decide P), (decide Q); tauto. Qed.

Lemma toy_opened k r k' : new_socket k = (r, k') -> opened k r k'.
Proof.
  unfold new_socket. destruct (free k) as [fd|] eqn:F; intros [<- <-]%pair_equal_spec; [|done]. pose proof (free_unused _ _ F) as (R & Fs & Fe).
  split; [by apply free_fresh|]. split; [members|]. split; [done|]. split; [|members]. intros ep. apply map_eq. intros i. rewrite !lookup_watched.
  assert (list_of ep (k <| socks := {[ fd ]} ∪ socks k |> <| lists := delete fd <$> lists k |> <| short := short k ∖ {[ fd ]} |>) = delete fd (list_of ep k)) as ->.
  { unfold list_of. cbn. rewrite lookup_fmap. destruct (lists k !! ep); [done|]. cbn. by rewrite delete_empty. }
  cbn [socks eps]. destruct (decide (i = fd)) as [->|Hi].
  - rewrite lookup_delete_eq. rewrite (decide_False (P := fd ∈ socks k ∖ eps k)) by (by intros [? _]%elem_of_difference). by destruct (decide _).
  - rewrite lookup_delete_ne by done. apply same_decide. members.
Qed.

Lemma toy_close fd k : sockets (close_fd fd k) = sockets k ∖ {[ fd ]} /\ epolls (close_fd fd k) = epolls k ∖ {[ fd ]} /\
  (forall ep, ep <> fd -> watched (close_fd fd k) ep = delete fd (watched k ep)) /\
  starved (close_fd fd k) = starved k ∖ {[ fd ]}.
Proof.
  split_and!; [members | done | | apply set_eq; intros f; cbn; rewrite !elem_of_difference, !elem_of_intersection, !elem_of_difference; tauto]. intros ep _. apply map_eq. intros i. rewrite lookup_watched, lookup_delete, lookup_watched.
  change (list_of ep (close_fd fd k)) with (list_of ep k). cbn [socks eps close_fd toy_sockets].
  destruct (decide (fd = i)) as [->|Hi]; [rewrite decide_False; [done|]; members|]. apply same_decide. members.
Qed.

Lemma toy_granted ep op fd k : fd ∈ sockets k -> let k' := set_list ep (partial_alter (fun _ => op_asks op) fd (list_of ep k)) k in
  watched k' ep = partial_alter (fun _ => op_asks op) fd (watched k ep).
Proof.
  intros Fd. cbv zeta. apply map_eq. intros i. rewrite lookup_watched, lookup_partial_alter, lookup_watched.
  assert (forall m, list_of ep (set_list ep m k) = m) as -> by (intros m; unfold list_of, set_list; cbn; by rewrite lookup_insert_eq).
  rewrite lookup_partial_alter.
  destruct (decide (fd = i)) as [<-|Hi]; [by rewrite decide_True | done].
Qed.

Lemma toy_ctl ep op fd k r k' : ctl ep op fd k = (r, k') -> ep ∈ epolls k -> fd ∈ sockets k ->
  sockets k' = sockets k /\ epolls k' = epolls k /\
  match r with
  | Done _ => op_fits op (watched k ep !! fd) /\ starved k' = starved k /\
      watched k' ep = partial_alter (fun _ => op_asks op) fd (watched k ep)
  | Errno_is _ => watched k' ep = watched k ep /\
      (op_fits op (watched k ep !! fd) -> starved k' = {[ fd ]} ∪ starved k) /\
      (~ op_fits op (watched k ep !! fd) -> starved k' = starved k)
  end.
Proof.
  intros C Ep Fd. pose proof (toy_granted ep op fd k Fd) as W. rewrite lookup_watched, decide_True by done. unfold ctl in C. cbv zeta in C.
  destruct (list_of ep k !! fd) as [ev0|] eqn:L, op as [ev|ev|]; try (destruct (kMaxWatches <=? _)%nat); injection C as <- <-;
    (split; [done|]); (split; [done|]); cbn [op_fits]; split_and!; eauto; try done; try (by intros []); intros X; try (by destruct X; eauto).
  apply set_eq. intros f. cbn in Fd |- *. rewrite !elem_of_intersection, !elem_of_union, elem_of_intersection, elem_of_singleton.
  split; [tauto|]. intros [-> | ?]; tauto.
Qed.

#[export] Instance toy_laws : SocketLaws t unit.
Proof.
  split; try (intros; split; [done | done | done | done]); try (intros * [= <- <-]; done).
  - intros k fd. cbn. intros [_ Hs]%elem_of_difference. done.
  - intros k ep fd. rewrite lookup_watched. destruct (decide _); [done | by intros []].
  - intros k fd. cbn. by intros [_ ?]%elem_of_intersection.
  - intros k r k'. apply toy_opened.
  - intros fd k r k'. apply toy_opened.
  - intros ep n ms k r k'. cbn. unfold wait. destruct (script k); intros [<- <-]%pair_equal_spec; split; done.
  - intros fd data k r k'. cbn. intros [<- <-]%pair_equal_spec. split; [done|]. unfold zlen. lia.
  - apply toy_close.
  - intros k r k'. cbn. unfold new_epoll. destruct (free k) as [fd|] eqn:F; intros [<- <-]%pair_equal_spec; [|done].
    pose proof (free_unused _ _ F) as (R & Fs & Fe). split; [by apply free_fresh|]. split; [members|]. split; [members|].
    cbn [watched toy_view]. unfold list_of. cbn [lists]. fields. rewrite lookup_insert_eq. exact (map_filter_empty _).
  - intros ep op fd k r k'. apply toy_ctl.
Qed.

End Toy.

(** ** Two polls *)

Section Scenes.
Import RealNetwork Toy.

(** Descriptors 0 to 2 are taken, so the epoll instance is 3 and the first connection 4. *)
Definition machine (script : list (list (Z * Z))) : Toy.t := Toy.mk {[ 0; 1; 2 ]} ∅ ∅ ∅ script.

Definition net : Type := RealNetwork.t Toy.t unit.

Definition dial (n : net) : net := (connect [] 9000 n).2.
Definition listening (i : Interest.t) (c : Z) (n : net) : net := watch c i (Some tt) n.

(** What happens to the network and what the handler is told, latest last. *)
Inductive Note := Told (u : Upcall) (c : Z) | Shut (c : Z) | Dialled (c : Result Z).
Record scene := mkScene { stage : net; notes : list Note }.
#[local] Instance scene_eta : Settable scene := fun s => mkScene (stage s) (notes s).

Definition shut (c : Z) (s : scene) : scene := mkScene (close c (stage s)) (notes s ++ [Shut c]).
Definition redial (s : scene) : scene :=
  let '(r, n) := connect [] 9000 (stage s) in
  let n := match r with Ok c => listening Interest.kRead c n | fail _ => n end in
  mkScene n (notes s ++ [Dialled r]).

(** A handler as [server/broker.cpp] is one: what arrives on connection 4 makes it write to
    the peer behind connection 5, which fails, so it drops that connection and dials again;
    a hangup makes it drop the connection. *)
Definition handle (_ : unit) (u : Upcall) (c : Z) (s : scene) : scene :=
  let s := s <| notes := notes s ++ [Told u c] |> in
  match u with
  | on_readable => if c =? 4 then redial (shut 5 s) else s
  | on_writable => s
  | on_hangup => shut c s
  end.

Definition two_peers (script : list (list (Z * Z))) : scene :=
  mkScene (listening Interest.kRead 5 (listening Interest.kRead 4 (dial (dial (new false (machine script)))))) [].

Definition reset_mask : Z := Z.lor EPOLLIN (Z.lor EPOLLERR EPOLLHUP).

(** C23: an event is delivered to a connection it is not about.  In one batch connection 4 is
    readable and connection 5 was reset.  The handler of the first closes 5 and dials its peer
    again; the new connection gets the number that was just freed, [register_fd] clears the
    mark that 5 was closed, and the hangup of the old connection takes down the new one. *)
Theorem stale_event_hits_new_connection :
  (fun r => (r.1, notes r.2, open_connection_count (stage r.2))) <$>
    poll stage (fun n s => s <| stage := n |>) handle 0 (two_peers [[(4, EPOLLIN); (5, reset_mask)]]) =
  Some (2, [Told on_readable 4; Shut 5; Dialled (Ok 5); Told on_hangup 5; Shut 5], 1).
Proof. vm_compute. reflexivity. Qed.

(** A handler that answers what it reads over a connection it has to open first. *)
Definition answer (_ : unit) (u : Upcall) (c : Z) (n : net) : net :=
  match u with on_readable => dial n | _ => n end.

(** C22: [poll] uses a reference after the vector it points into has moved.  Connection 4 is
    readable and writable, the handler opens a connection while it reads, the table grows into
    a new block, and the test of [e.active] for the writable half reads the freed one.  With
    the same events and a handler that opens nothing, the same [poll] is fine. *)
Theorem poll_reads_freed_entry :
  let n := listening Interest.kReadWrite 4 (dial (new false (machine [[(4, Z.lor EPOLLIN EPOLLOUT)]]))) in
  poll (fun n => n) (fun n _ => n) answer 0 n = None /\
  is_Some (poll (fun n => n) (fun n _ => n) (fun _ _ _ n => n) 0 n).
Proof. split; vm_compute; [reflexivity | eauto]. Qed.

(** A connection that the kernel had no watch left for stays deaf.  The table says that
    connection 10 is watched; the next change of its interest is a modification of what epoll
    does not have, and fails as well. *)
Theorem starved_connection_stays_deaf :
  let n0 := foldl (fun n c => listening Interest.kRead c (dial n)) (new false (machine [])) [4; 5; 6; 7; 8; 9; 10] in
  let n := listening Interest.kReadWrite 10 n0 in
  (10 ∈ starved (kernel n0)) /\ watched (kernel n0) (poll_fd_ n0) !! 10 = None /\
  watched (kernel n) (poll_fd_ n) !! 10 = None /\ wanted n 10 = Some (Z.lor EPOLLIN EPOLLOUT) /\
  watched (kernel n) (poll_fd_ n) !! 9 = Some EPOLLIN.
Proof. cbv zeta. split; [by apply (bool_decide_unpack _); vm_compute | vm_compute; by split_and!]. Qed.

Lemma poll_calls_the_registered_witness :
  poll stage (fun n s => s <| stage := n |>) handle 0 (two_peers [[(4, EPOLLIN); (5, EPOLLIN)]]) =
  poll stage (fun n s => s <| stage := n |>) (fun h u c s => if c <? 0 then s else handle h u c s) 0
    (two_peers [[(4, EPOLLIN); (5, EPOLLIN)]]).
Proof.
  apply (poll_calls_the_registered stage (fun n s => s <| stage := n |>)).
  intros h u c s (fd & e & -> & Hf & _). unfold conn_of.
  destruct (u64 fd <? 0) eqn:N; [|done]. bool_prop. pose proof (wrap_range 64 fd ltac:(lia)). lia.
Defined.

Lemma epoll_mirrors_table_witness :
  let n := listening Interest.kReadWrite 4 (dial (new false (machine []))) in
  watched (kernel n) (poll_fd_ n) !! 4 = Some (Z.lor EPOLLIN EPOLLOUT) /\ watched (kernel n) (poll_fd_ n) !! 4 = wanted n 4.
Proof.
  cbv zeta. split; [vm_compute; reflexivity|].
  apply (epoll_mirrors_table (H := unit) (A := unit) (fun _ _ _ n => n) false (machine [])); [by left | vm_compute; discriminate | | by apply (bool_decide_unpack _); vm_compute].
  eapply Calls; [apply Born|]. eapply call_then; [apply (call_connect [] 9000) | exact (call_watch 4 Interest.kReadWrite (Some tt) (dial (new false (machine []))))].
Defined.

End Scenes.
