(* ===== verification/Queue.v ===== *)
(** * Priority queues over [std::push_heap]

    The scheduler and the event loop both keep a vector of things to do as a heap, ordered
    by deadline and then by id.  That order is total and nothing but the front of the vector
    is ever looked at, so the layout of the heap cannot be observed: the queue is a list
    kept in order, whose head is the front. *)
From S2P Require Import Prelude.

Lemma Forall_skip {A} (P : A -> Prop) l gone l' : Forall P (l ++ gone ++ l') -> Forall P (l ++ l').
Proof. intros [H1 [_ H2]%Forall_app]%Forall_app. by apply Forall_app_2. Qed.

Lemma NoDup_skip {A} (l gone l' : list A) : NoDup (l ++ gone ++ l') -> NoDup (l ++ l').
Proof.
  rewrite !NoDup_app. intros (H1 & H2 & _ & _ & H3). split_and!; [done | | done].
  intros x Hx Hx'. apply (H2 x Hx). apply elem_of_app. by right.
Qed.

Lemma omap_step {A B} (h : A -> option B) x l :
  omap h (x :: l) = match h x with Some y => y :: omap h l | None => omap h l end.
Proof. done. Qed.

Lemma sorted_snoc {A} (R : A -> A -> Prop) l x :
  StronglySorted R l -> Forall (fun y => R y x) l -> StronglySorted R (l ++ [x]).
Proof.
  induction 1 as [|y l Hl IH Hy]; intros Hx; cbn; [by repeat constructor|].
  apply Forall_cons in Hx as [Hyx Hx]. constructor; [by apply IH|]. apply Forall_app_2; [done|]. by constructor.
Qed.

Section Queue.
Context {E : Type} (due num : E -> Z).

(** The comparator [LaterFirst]. *)
Definition later_first (a b : E) : bool :=
  if negb (due a =? due b) then due b <? due a else num b <? num a.

(** [push_back] and [std::push_heap] *)
Fixpoint push (e : E) (q : list E) : list E :=
  match q with
  | [] => [e]
  | f :: q' => if later_first f e then e :: q else f :: push e q'
  end.

(** The order, as a relation. *)
Definition before (a b : E) : Prop := due a < due b \/ due a = due b /\ num a < num b.

Definition in_order (q : list E) : Prop := StronglySorted before q.

Lemma later_first_before a b : num a <> num b -> if later_first a b then before b a else before a b.
Proof.
  intros Hn. unfold later_first, before. destruct (due a =? due b) eqn:E1; cbn; bool_prop.
  - destruct (num b <? num a) eqn:E2; bool_prop; right; lia.
  - destruct (due b <? due a) eqn:E2; bool_prop; left; lia.
Qed.

Lemma before_trans a b c : before a b -> before b c -> before a c.
Proof. unfold before. lia. Qed.

Lemma before_irrefl a : ~ before a a.
Proof. unfold before. lia. Qed.

Lemma in_order_app q q' :
  in_order (q ++ q') <-> in_order q /\ in_order q' /\ forall a b, a ∈ q -> b ∈ q' -> before a b.
Proof.
  split.
  - intros H. split_and!; [by eapply StronglySorted_app_1_l | by eapply StronglySorted_app_1_r |].
    intros a b. by apply StronglySorted_app_1_elem_of.
  - intros (H1 & H2 & H3). induction H1 as [|a q H1 IH Ha]; [done|]. cbn. constructor.
    + apply IH. intros x y Hx. apply H3. by right.
    + apply Forall_app_2; [done|]. apply Forall_forall. intros b Hb. apply H3; [by left | done].
Qed.

Lemma in_order_skip q gone q' : in_order (q ++ gone ++ q') -> in_order (q ++ q').
Proof.
  rewrite !in_order_app. intros (H1 & (H2 & H3 & H4) & H5). split_and!; [done..|].
  intros a b Ha Hb. apply H5; [done|]. apply elem_of_app. by right.
Qed.

Lemma in_order_NoDup q : in_order q -> NoDup q.
Proof.
  induction 1 as [|a q H IH Ha]; constructor; [|done].
  intros Hin. rewrite Forall_forall in Ha. by eapply before_irrefl, Ha.
Qed.

(** The new element goes between what is due before it and what is due after it. *)
Lemma push_split e q : in_order q -> Forall (fun f => num f <> num e) q ->
  exists l r, q = l ++ r /\ push e q = l ++ e :: r /\
    Forall (fun f => before f e) l /\ Forall (before e) r.
Proof.
  induction 1 as [|f q Hq IH Hf]; intros Hn; [by exists [], []|].
  apply Forall_cons in Hn as [Hne Hn]. cbn. pose proof (later_first_before f e Hne) as Hl.
  destruct (later_first f e).
  - exists [], (f :: q). split_and!; [done | done | constructor |]. constructor; [done|].
    eapply Forall_impl; [exact Hf|]. intros g. by apply before_trans.
  - destruct (IH Hn) as (l & r & -> & -> & H1 & H2). exists (f :: l), r.
    split_and!; [done | done | by constructor | done].
Qed.

Lemma push_in_order e q : in_order q -> Forall (fun f => num f <> num e) q -> in_order (push e q).
Proof.
  intros Hq Hn. destruct (push_split e q Hq Hn) as (l & r & -> & -> & H1 & H2).
  rewrite Forall_forall in H1, H2. apply in_order_app in Hq as (Hl & Hr & Hlr).
  apply in_order_app. split_and!; [done | constructor; [done | by apply Forall_forall] |].
  intros a b Ha [->|Hb]%elem_of_cons; [by apply H1 | by apply Hlr].
Qed.

Lemma push_Permutation e q : push e q ≡ₚ e :: q.
Proof.
  induction q as [|f q IH]; cbn; [done|]. destruct (later_first f e); [done|].
  rewrite IH. apply Permutation_swap.
Qed.

Lemma elem_of_push e q f : f ∈ push e q <-> f = e \/ f ∈ q.
Proof. by rewrite push_Permutation, elem_of_cons. Qed.

Lemma Forall_push (P : E -> Prop) e q : P e -> Forall P q -> Forall P (push e q).
Proof. intros He Hq. rewrite push_Permutation. by constructor. Qed.

(** An element that is due after every element of some kind joins them at the end. *)
Lemma omap_push {B} (h : E -> option B) e x q :
  in_order q -> Forall (fun f => num f <> num e) q ->
  h e = Some x -> (forall f, f ∈ q -> is_Some (h f) -> due f <= due e /\ num f < num e) ->
  omap h (push e q) = omap h q ++ [x].
Proof.
  intros Hq Hn He Hall. destruct (push_split e q Hq Hn) as (l & r & -> & -> & H1 & H2).
  assert (omap h r = []) as Hr.
  { rewrite Forall_forall in H2. assert (forall f, f ∈ r -> h f = None) as Hno.
    { intros f Hf. apply eq_None_not_Some. intros Hs. specialize (H2 f Hf).
      destruct (Hall f) as [??]; [apply elem_of_app; by right | done |]. unfold before in H2. lia. }
    clear -Hno. induction r as [|f r IH]; [done|]. rewrite omap_step, (Hno f) by by left.
    apply IH. intros g Hg. apply Hno. by right. }
  by rewrite !omap_app, omap_step, He, Hr, app_nil_r.
Qed.

Lemma omap_push_other {B} (h : E -> option B) e q : h e = None -> omap h (push e q) = omap h q.
Proof.
  intros He. induction q as [|f q IH]; cbn [push]; [by rewrite omap_step, He|].
  destruct (later_first f e); rewrite !omap_step; [by rewrite He | by rewrite IH].
Qed.

End Queue.
