(* ===== verification/Trace.v ===== *)
(** * The event trace

    Models [src/src/sim/trace.h]/[trace.cpp]: the event kinds with their numbers, the FNV-1a
    fold of an event into the rolling hash, field by field and byte by byte, and the window
    of recent events kept in a ring.  Event counts are not wrapped: the run would have to
    record 2^64 events.

    The theorems: [recent] is the tail of everything recorded, oldest first; a run whose
    trace differs in one byte of one event has a different hash; a formatted line fits its
    buffer, and different events have different lines. *)
From S2P Require Import Prelude Base Disk Text.

Inductive EventKind :=
  | kTimer
  | kAppend | kFsync | kAck | kRecovered
  | kCrash | kRestart | kCorrupt
  | kConnect | kAccept | kSend | kDeliver | kReset | kDropped | kPartitionStart | kPartitionEnd
  | kCampaign | kVote | kLeader | kStepDown | kRaftPersist | kRaftRecover
  | kReplicate | kTruncate | kCommit.

#[export] Instance EventKind_eq_dec : EqDecision EventKind.
Proof. solve_decision. Defined.

(** [static_cast<base::u64>(kind)] *)
Definition kind_value (k : EventKind) : Z :=
  match k with
  | kTimer => 1
  | kAppend => 10 | kFsync => 11 | kAck => 12 | kRecovered => 13
  | kCrash => 20 | kRestart => 21 | kCorrupt => 22
  | kConnect => 30 | kAccept => 31 | kSend => 32 | kDeliver => 33 | kReset => 34 | kDropped => 35
  | kPartitionStart => 36 | kPartitionEnd => 37
  | kCampaign => 40 | kVote => 41 | kLeader => 42 | kStepDown => 43 | kRaftPersist => 44
  | kRaftRecover => 45
  | kReplicate => 46 | kTruncate => 47 | kCommit => 48
  end.

Definition kind_to_string (k : EventKind) : string :=
  match k with
  | kTimer => "TIMER"
  | kAppend => "APPEND" | kFsync => "FSYNC" | kAck => "ACK" | kRecovered => "RECOVERED"
  | kCrash => "CRASH" | kRestart => "RESTART" | kCorrupt => "CORRUPT"
  | kConnect => "CONNECT" | kAccept => "ACCEPT" | kSend => "SEND" | kDeliver => "DELIVER"
  | kReset => "RESET" | kDropped => "DROPPED"
  | kPartitionStart => "PARTITION_START" | kPartitionEnd => "PARTITION_END"
  | kCampaign => "CAMPAIGN" | kVote => "VOTE" | kLeader => "LEADER" | kStepDown => "STEP_DOWN"
  | kRaftPersist => "RAFT_PERSIST" | kRaftRecover => "RAFT_RECOVER"
  | kReplicate => "REPLICATE" | kTruncate => "TRUNCATE" | kCommit => "COMMIT"
  end.

Record TraceEvent := mkEvent {
  e_time : Z;
  e_node : Z;
  e_kind : EventKind;
  e_a : Z;
  e_b : Z }.

(** [TraceEvent{}] *)
Definition blank_event : TraceEvent := mkEvent 0 0 kTimer 0 0.

Module Trace.

Definition kFnvOffsetBasis : Z := 14695981039346656037.
Definition kFnvPrime : Z := 1099511628211.

(** One round of [mix]: the byte goes in and the hash is multiplied. *)
Definition mix_byte (hash b : Z) : Z := u64 (Z.lxor hash b * kFnvPrime).

(** [(value >> (byte * 8)) & 0xFF] for [byte] from 0 to 7 *)
Definition mix (hash value : Z) : Z :=
  foldl (fun h byte => mix_byte h (Z.land (Z.shiftr value (byte * 8)) 0xFF)) hash
    [0; 1; 2; 3; 4; 5; 6; 7].

Record t := mk {
  hash_ : Z;
  count_ : Z;
  recent_ : list TraceEvent;
  next_ : nat;
  wrapped_ : bool;
  capture_all_ : bool;
  all_ : list TraceEvent }.

#[export] Instance Trace_eta : Settable t := fun r =>
  mk (hash_ r) (count_ r) (recent_ r) (next_ r) (wrapped_ r) (capture_all_ r) (all_ r).

Definition new (recent_capacity : nat) : t :=
  mk kFnvOffsetBasis 0 (replicate (if (recent_capacity =? 0)%nat then 1%nat else recent_capacity) blank_event)
    0 false false [].

Definition set_capture_all (on : bool) (r : t) : t := r <| capture_all_ := on |>.

(** The five folds of [record]. *)
Definition hash_event (hash : Z) (e : TraceEvent) : Z :=
  let hash := mix hash (u64 (e_time e)) in
  let hash := mix hash (e_node e) in
  let hash := mix hash (kind_value (e_kind e)) in
  let hash := mix hash (e_a e) in
  mix hash (e_b e).

Definition record (e : TraceEvent) (r : t) : t :=
  let r := r <| hash_ := hash_event (hash_ r) e |> in
  let r := r <| count_ := count_ r + 1 |> in
  let r := r <| recent_ := <[next_ r := e]> (recent_ r) |> in
  let r := r <| next_ := ((next_ r + 1) mod length (recent_ r))%nat |> in
  let r := if (next_ r =? 0)%nat then r <| wrapped_ := true |> else r in
  if capture_all_ r then r <| all_ := all_ r ++ [e] |> else r.

(** The loop of [recent] reads slot [(next_ + i) % size] for every [i]. *)
Definition recent (r : t) : list TraceEvent :=
  if negb (wrapped_ r) then take (next_ r) (recent_ r)
  else
    map (fun i => nth ((next_ r + i) mod length (recent_ r)) (recent_ r) blank_event)
      (seq 0 (length (recent_ r))).

Definition format (e : TraceEvent) : chars :=
  pad_left 14 (to_chars (e_time e)) ++ space ::
  pad_left 3 (to_chars (e_node e)) ++ space ::
  pad_right 16 (lit (kind_to_string (e_kind e))) ++ space ::
  pad_left 20 (to_chars (e_a e)) ++ space ::
  pad_left 20 (to_chars (e_b e)).

(** Recording a whole run. *)
Definition record_all (es : list TraceEvent) (r : t) : t := foldl (fun r e => record e r) r es.

End Trace.

(** ** The window of recent events *)

Section Window.
Import Trace.

(** The ring holds the last [length recent_] of the events recorded so far. *)
Definition ring_ok (es : list TraceEvent) (r : t) : Prop :=
  (0 < length (recent_ r))%nat /\ (next_ r < length (recent_ r))%nat /\
  if wrapped_ r
  then exists old, es = old ++ drop (next_ r) (recent_ r) ++ take (next_ r) (recent_ r)
  else es = take (next_ r) (recent_ r).

Lemma record_ring e r :
  recent_ (record e r) = <[next_ r := e]> (recent_ r) /\
  next_ (record e r) = ((next_ r + 1) mod length (recent_ r))%nat /\
  wrapped_ (record e r) = (((next_ r + 1) mod length (recent_ r) =? 0)%nat || wrapped_ r).
Proof.
  unfold record; fields. rewrite length_insert.
  destruct (_ =? 0)%nat eqn:?; fields; destruct (capture_all_ r); fields; rewrite ?length_insert; by bool_prop.
Qed.

Lemma ring_record es e r : ring_ok es r -> ring_ok (es ++ [e]) (record e r).
Proof.
  intros (Hc & Hn & Hw). destruct (record_ring e r) as (E1 & E2 & E3).
  unfold ring_ok. rewrite E1, E2, E3, length_insert. clear E1 E2 E3.
  set (n := next_ r) in *. set (k := length (recent_ r)) in *.
  assert (take (S n) (<[n:=e]> (recent_ r)) = take n (recent_ r) ++ [e]) as Ht.
  { rewrite (take_S_r _ _ e) by (apply list_lookup_insert_eq; lia). by rewrite take_insert_ge by lia. }
  destruct (decide (S n = k)) as [Hk|Hk].
  - replace ((n + 1) mod k)%nat with O by (subst k; rewrite <- Hk, Nat.add_1_r; symmetry; apply Nat.Div0.mod_same).
    cbn. split_and!; rewrite ?length_insert; [lia | lia |].
    assert (<[n:=e]> (recent_ r) = take n (recent_ r) ++ [e]) as Hfull.
    { rewrite <- Ht. symmetry. apply take_ge. rewrite length_insert. lia. }
    rewrite drop_0, take_0, app_nil_r, Hfull. destruct (wrapped_ r).
    + destruct Hw as [old ->]. exists (old ++ drop n (recent_ r)). by rewrite <- !app_assoc.
    + exists []. by rewrite Hw.
  - replace ((n + 1) mod k)%nat with (S n) by (rewrite Nat.add_1_r; symmetry; apply Nat.mod_small; lia).
    cbn. split_and!; rewrite ?length_insert; [lia | lia |].
    rewrite Ht. destruct (wrapped_ r); [|by rewrite Hw].
    destruct Hw as [old ->]. destruct (lookup_lt_is_Some_2 (recent_ r) n ltac:(lia)) as [x Hx].
    exists (old ++ [x]). rewrite (drop_S _ x n) by done. rewrite drop_insert_lt by lia.
    by rewrite <- !app_assoc.
Qed.

Lemma ring_record_all es es' r : ring_ok es r -> ring_ok (es ++ es') (record_all es' r).
Proof.
  revert es r. induction es' as [|e es' IH]; intros es r H; [by rewrite app_nil_r|].
  replace (es ++ e :: es') with ((es ++ [e]) ++ es') by by rewrite <- app_assoc.
  apply IH. by apply ring_record.
Qed.

Lemma nth_rotate {A} (l : list A) (d : A) n :
  (n < length l)%nat -> map (fun i => nth ((n + i) mod length l) l d) (seq 0 (length l)) = drop n l ++ take n l.
Proof.
  intros Hn. apply (nth_ext _ _ d d).
  - rewrite length_map, length_seq, length_app, length_drop, length_take. lia.
  - intros i Hi. rewrite length_map, length_seq in Hi.
    rewrite (nth_indep _ d (nth ((n + 0) mod length l) l d)) by by rewrite length_map, length_seq.
    rewrite (map_nth (fun i => nth ((n + i) mod length l) l d)), seq_nth by done. cbn.
    destruct (decide (n + i < length l)%nat).
    + rewrite Nat.mod_small, app_nth1 by (rewrite ?length_drop; lia). symmetry. apply nth_skipn.
    + replace ((n + i) mod length l)%nat with (n + i - length l)%nat.
      * rewrite app_nth2 by (rewrite length_drop; lia). rewrite length_drop.
        rewrite nth_firstn. replace (_ <? n)%nat with true by (symmetry; apply Nat.ltb_lt; lia).
        f_equal. lia.
      * replace (n + i)%nat with ((n + i - length l) + 1 * length l)%nat at 2 by lia.
        rewrite Nat.Div0.mod_add. symmetry. apply Nat.mod_small. lia.
Qed.

Lemma ring_recent es r : ring_ok es r ->
  exists old, es = old ++ recent r /\ (length (recent r) = Nat.min (length es) (length (recent_ r)))%nat.
Proof.
  intros (Hc & Hn & Hw). unfold recent. destruct (wrapped_ r); cbn.
  - destruct Hw as [old ->]. exists old. rewrite nth_rotate by done. split; [done|].
    rewrite !length_app, length_drop, length_take. lia.
  - exists []. rewrite Hw at 1. split; [done|]. rewrite Hw, length_take. lia.
Qed.

Lemma length_record e r : length (recent_ (record e r)) = length (recent_ r).
Proof. destruct (record_ring e r) as (-> & _). apply length_insert. Qed.

Lemma length_record_all es r : length (recent_ (record_all es r)) = length (recent_ r).
Proof. revert r. induction es as [|e es IH]; intros r; [done|]. etrans; [apply IH|]. apply length_record. Qed.

End Window.

(** The window printed next to a failure.  After any run, [recent] is the run's tail,
    oldest event first, and as long as the capacity allows: everything while the ring has
    not filled up, and exactly the capacity from then on. *)
Theorem trace_recent_is_tail (capacity : nat) (es : list TraceEvent) :
  let r := Trace.record_all es (Trace.new capacity) in
  exists old, es = old ++ Trace.recent r /\
    length (Trace.recent r) = Nat.min (length es) (Nat.max 1 capacity).
Proof.
  intros r. assert (length (Trace.recent_ (Trace.new capacity)) = Nat.max 1 capacity) as Hc.
  { cbn. rewrite length_replicate. destruct (capacity =? 0)%nat eqn:E; apply Nat.eqb_eq in E || apply Nat.eqb_neq in E; lia. }
  destruct (ring_recent es r) as (old & He & Hl).
  - apply (ring_record_all []). split_and!; [rewrite Hc; change (Trace.next_ (Trace.new capacity)) with O; lia.. | done].
  - exists old. split; [done|]. rewrite Hl. unfold r. by rewrite length_record_all, Hc.
Qed.

(** ** The hash *)

Section Hash.
Import Trace.

(** The bytes [mix] feeds to the hash for one value, and [record] for one event. *)
Definition value_bytes (v : Z) : list Z :=
  map (fun byte => Z.land (Z.shiftr v (byte * 8)) 0xFF) [0; 1; 2; 3; 4; 5; 6; 7].

Definition event_bytes (e : TraceEvent) : list Z :=
  value_bytes (u64 (e_time e)) ++ value_bytes (e_node e) ++ value_bytes (kind_value (e_kind e)) ++
  value_bytes (e_a e) ++ value_bytes (e_b e).

Definition fold_bytes (hash : Z) (bs : list Z) : Z := foldl mix_byte hash bs.

Definition word (h : Z) : Prop := 0 <= h < 2 ^ 64.

(** Equal except for one byte, at one place. *)
Definition one_byte_apart (bs bs' : list Z) : Prop :=
  exists l b b' r, bs = l ++ b :: r /\ bs' = l ++ b' :: r /\ b <> b'.

Lemma fold_bytes_app h bs bs' : fold_bytes h (bs ++ bs') = fold_bytes (fold_bytes h bs) bs'.
Proof. apply foldl_app. Qed.

Lemma mix_fold h v : mix h v = fold_bytes h (value_bytes v).
Proof. unfold mix, fold_bytes, value_bytes. cbn [map foldl]. reflexivity. Qed.

Lemma hash_event_fold h e : hash_event h e = fold_bytes h (event_bytes e).
Proof. unfold hash_event, event_bytes. rewrite 4!fold_bytes_app, 5!mix_fold. reflexivity. Qed.

Lemma event_bytes_ok e : bytes_ok (event_bytes e).
Proof.
  assert (forall v, bytes_ok (value_bytes v)) as Hv.
  { intros v. apply Forall_map, Forall_true. intros k. cbn. rewrite land_ff. apply byte_ok_mod. }
  repeat apply Forall_app_2; apply Hv.
Qed.

Lemma mix_byte_word h b : word (mix_byte h b).
Proof. apply wrap_range. lia. Qed.

Lemma fold_bytes_word h bs : word h -> word (fold_bytes h bs).
Proof.
  intros Hh. destruct bs as [|b bs _] using rev_ind; [done|].
  rewrite fold_bytes_app. apply mix_byte_word.
Qed.

(** Multiplication by the prime is a bijection of the 64-bit words. *)
Lemma prime_cancel x y : word x -> word y -> u64 (x * kFnvPrime) = u64 (y * kFnvPrime) -> x = y.
Proof.
  intros Hx Hy E. apply (f_equal (fun z => (z * 14886173955864302971) mod 2 ^ 64)) in E. unfold wrap in E.
  rewrite !Zmult_mod_idemp_l, <- !Z.mul_assoc, <- !(Zmult_mod_idemp_r (kFnvPrime * _)) in E.
  change ((kFnvPrime * 14886173955864302971) mod 2 ^ 64) with 1 in E.
  by rewrite !Z.mul_1_r, !Z.mod_small in E.
Qed.

Lemma lxor_word h b : word h -> byte_ok b -> word (Z.lxor h b).
Proof. intros Hh Hb. apply lxor_bound; [lia | done |]. unfold byte_ok in Hb. lia. Qed.

Lemma mix_byte_inj h h' b : word h -> word h' -> byte_ok b -> mix_byte h b = mix_byte h' b -> h = h'.
Proof.
  intros Hh Hh' Hb E. apply prime_cancel in E; [|by apply lxor_word..].
  apply (f_equal (fun z => Z.lxor z b)) in E. by rewrite !Z.lxor_assoc, Z.lxor_nilpotent, !Z.lxor_0_r in E.
Qed.

Lemma fold_bytes_inj h h' bs :
  word h -> word h' -> bytes_ok bs -> fold_bytes h bs = fold_bytes h' bs -> h = h'.
Proof.
  intros Hh Hh' Hb. induction bs as [|b bs IH] using rev_ind; [done|].
  apply Forall_app in Hb as [Hbs Hb]. inv Hb.
  rewrite !fold_bytes_app. intros E. apply mix_byte_inj in E; [by apply IH | by apply fold_bytes_word.. | done].
Qed.

Lemma fold_bytes_apart h bs bs' :
  word h -> bytes_ok bs -> bytes_ok bs' -> one_byte_apart bs bs' -> fold_bytes h bs <> fold_bytes h bs'.
Proof.
  intros Hh Hb Hb' (l & b & b' & r & -> & -> & Hne) E.
  apply Forall_app in Hb as [_ Hb]. apply Forall_app in Hb' as [_ Hb']. inv Hb. inv Hb'.
  rewrite !fold_bytes_app in E. 
  apply (fold_bytes_inj (mix_byte _ b) (mix_byte _ b') r) in E; [|apply mix_byte_word.. | done].
  pose proof (fold_bytes_word h l Hh).
  apply prime_cancel in E; [|by apply lxor_word..].
  apply (f_equal (Z.lxor (fold_bytes h l))) in E.
  by rewrite <- !Z.lxor_assoc, Z.lxor_nilpotent, !Z.lxor_0_l in E.
Qed.

Lemma hash_record e r : hash_ (record e r) = fold_bytes (hash_ r) (event_bytes e).
Proof.
  rewrite <- hash_event_fold. unfold record; fields. rewrite length_insert.
  destruct (_ =? 0)%nat; fields; by destruct (capture_all_ r).
Qed.

Lemma hash_record_all es r : hash_ (record_all es r) = fold_bytes (hash_ r) (es ≫= event_bytes).
Proof.
  revert r. induction es as [|e es IH]; intros r; [done|].
  etrans; [apply (IH (record e r))|]. by rewrite hash_record, bind_cons, fold_bytes_app.
Qed.

End Hash.

(** The canary is sound for small divergences.  Two runs whose traces agree except for
    one byte of one event, however long they go on alike before and after it, have different
    hashes: every round is a bijection of the hash, so nothing that follows can mend it. *)
Theorem trace_hash_canary (capacity : nat) (before after : list TraceEvent) (e e' : TraceEvent) :
  one_byte_apart (event_bytes e) (event_bytes e') ->
  Trace.hash_ (Trace.record_all (before ++ e :: after) (Trace.new capacity)) <>
  Trace.hash_ (Trace.record_all (before ++ e' :: after) (Trace.new capacity)).
Proof.
  intros Hd. rewrite !hash_record_all, !bind_app, !bind_cons, !fold_bytes_app. cbn [Trace.hash_ Trace.new].
  assert (word (fold_bytes Trace.kFnvOffsetBasis (before ≫= event_bytes))) by by apply fold_bytes_word.
  intros E. apply fold_bytes_inj in E; [|by apply fold_bytes_word.. |].
  - revert E. apply fold_bytes_apart; auto using event_bytes_ok.
  - apply Forall_bind, Forall_true, event_bytes_ok.
Qed.

(** One unit of virtual time, in the middle of a run. *)
Lemma trace_hash_canary_witness :
  let e := mkEvent 1000 1 kSend 7 64 in
  let e' := mkEvent 1001 1 kSend 7 64 in
  Trace.hash_ (Trace.record_all ([blank_event] ++ e :: [e]) (Trace.new 64)) <>
  Trace.hash_ (Trace.record_all ([blank_event] ++ e' :: [e]) (Trace.new 64)).
Proof.
  intros e e'. apply trace_hash_canary. exists [], 232, 233, (drop 1 (event_bytes e)). by vm_compute.
Defined.

(** ** Lines *)

Section Lines.
Import Trace.

(** The members at their widths. *)
Record event_ok (e : TraceEvent) : Prop := {
  eo_time : - 2 ^ 63 <= e_time e < 2 ^ 63;
  eo_node : 0 <= e_node e < 2 ^ 32;
  eo_a : 0 <= e_a e < 2 ^ 64;
  eo_b : 0 <= e_b e < 2 ^ 64 }.

Lemma kind_solid k : solid (lit (kind_to_string k)).
Proof. split; [by destruct k|]. apply (bool_decide_unpack _). by destruct k. Qed.

Lemma kind_inj k k' : kind_to_string k = kind_to_string k' -> k = k'.
Proof. destruct k, k'; done. Qed.

Lemma kind_length k : (length (lit (kind_to_string k)) <= 16)%nat.
Proof. apply (bool_decide_unpack _). by destruct k. Qed.

(** Reading the columns of a line one after another. *)
Lemma format_columns e : exists l1 l2 l3 l4,
  column (format e) = (to_chars (e_time e), Some l1) /\ column l1 = (to_chars (e_node e), Some l2) /\
  column l2 = (lit (kind_to_string (e_kind e)), Some l3) /\ column l3 = (to_chars (e_a e), Some l4) /\
  column l4 = (to_chars (e_b e), None).
Proof.
  unfold format. eexists _, _. destruct (column_right 16 (lit (kind_to_string (e_kind e)))
    (pad_left 20 (to_chars (e_a e)) ++ space :: pad_left 20 (to_chars (e_b e))) (kind_solid _)) as [k Hk].
  eexists _, _. split; [apply column_left, to_chars_solid|]. split; [apply column_left, to_chars_solid|].
  split; [exact Hk|]. split; [apply column_left_spaces, to_chars_solid | apply column_last, to_chars_solid].
Qed.

Lemma format_inj e e' : format e = format e' -> e = e'.
Proof.
  intros E. destruct (format_columns e) as (l1 & l2 & l3 & l4 & H1 & H2 & H3 & H4 & H5).
  destruct (format_columns e') as (m1 & m2 & m3 & m4 & K1 & K2 & K3 & K4 & K5).
  rewrite E, K1 in H1. injection H1 as T <-. rewrite K2 in H2. injection H2 as N <-.
  rewrite K3 in H3. injection H3 as K <-. rewrite K4 in H4. injection H4 as A <-.
  rewrite K5 in H5. injection H5 as B. destruct e, e'. cbn in *.
  f_equal; try (symmetry; by apply to_chars_inj). symmetry. by apply kind_inj, lit_inj.
Qed.

Lemma signed_length n : - 2 ^ 63 <= n < 2 ^ 63 -> (length (to_chars n) <= 21)%nat.
Proof.
  intros Hn. destruct n as [|p|p].
  - cbn. lia.
  - pose proof (to_chars_length (Z.pos p)). lia.
  - rewrite to_chars_neg. cbn [length]. pose proof (to_chars_length (Z.pos p)). lia.
Qed.

Lemma format_length e : event_ok e -> (length (format e) <= 103)%nat.
Proof.
  intros [H1 H2 H3 H4]. unfold format. repeat (rewrite length_app; cbn [length]). rewrite !pad_left_length, pad_right_length.
  pose proof (signed_length _ H1). pose proof (to_chars_length (e_node e)). pose proof (to_chars_length _ H3).
  pose proof (to_chars_length _ H4). pose proof (kind_length (e_kind e)). lia.
Qed.

End Lines.

(** C36: A trace can be diffed line by line: the line of an event fits in the 128 bytes of the
    buffer, so that [format] returns the whole of it and reads nothing behind it, and two
    events with the same line are the same event. *)
Theorem trace_lines_faithful (e e' : TraceEvent) (He : event_ok e) :
  (length (Trace.format e) < 128)%nat /\ (Trace.format e = Trace.format e' -> e = e').
Proof. split; [pose proof (format_length e He); lia | apply format_inj]. Qed.

Lemma trace_lines_faithful_witness :
  (length (Trace.format (mkEvent (-9223372036854775808) 4294967295 kPartitionStart 18446744073709551615 0)) < 128)%nat.
Proof. apply (trace_lines_faithful _ blank_event). split; cbn; lia. Defined.

(** The line of a restart, as the program prints it. *)
Example format_restart :
  Trace.format (mkEvent 1000000 2 kRestart 7 0) =
  lit "       1000000   2 RESTART                             7                    0".
Proof. vm_compute. reflexivity. Qed.
