(* ===== verification/Scheduler.v ===== *)
(** * Virtual time: the scheduler and the simulated clock

    Models [src/src/sim/scheduler.h]/[scheduler.cpp] and [src/src/io/sim/sim_clock.h].  The
    closures a caller schedules are values of a type [C]; running one is the business of a
    function on the world the scheduler is part of, since the closure may schedule, cancel
    and record in its turn.  The vector [queue_] is a heap whose layout nobody can observe
    except for its front, kept as [Queue] describes: [pop_heap] and [pop_back] drop the head.
    Ids and counts are not wrapped: the run would have to schedule 2^64 events.

    The theorems: whatever is called in whatever order, events fire in strictly increasing
    [(when, id)] order, time never goes back, nothing is lost, and nothing cancelled fires. *)
From S2P Require Import Prelude Base Queue Trace.

Definition kNoTimeout : Z := -1.
Definition kNanosPerSecond : Z := 1000000000.
Definition millis (n : Z) : Z := n * 1000000.
Definition seconds (n : Z) : Z := n * kNanosPerSecond.
Definition kNanosPerMilli : Z := 1000000.

Record EventTag := mkTag { t_kind : EventKind; t_node : Z; t_a : Z; t_b : Z }.

Module Scheduler.

Definition kInvalidEvent : Z := 0.

Record Event (C : Type) := mkEv { when : Z; id : Z; tag : EventTag; callback : option C }.
#[global] Arguments mkEv {C}.
#[global] Arguments when {C}.
#[global] Arguments id {C}.
#[global] Arguments tag {C}.
#[global] Arguments callback {C}.

Section Scheduler.
Context {C : Type}.

Record t := mk {
  trace_ : Trace.t;
  queue_ : list (Event C);
  cancelled_ : gset Z;
  now_ : Z;
  next_id_ : Z;
  events_run_ : Z }.

#[global] Instance Scheduler_eta : Settable t := fun s =>
  mk (trace_ s) (queue_ s) (cancelled_ s) (now_ s) (next_id_ s) (events_run_ s).

Definition new (trace : Trace.t) : t := mk trace [] ∅ 0 1 0.

Definition schedule_at (at_ : Z) (tag : EventTag) (callback : option C) (s : t) : Z * t :=
  let event := mkEv (if at_ <? now_ s then now_ s else at_) (next_id_ s) tag callback in
  (id event, s <| next_id_ := next_id_ s + 1 |> <| queue_ := push when id event (queue_ s) |>).

Definition schedule_after (delay : Z) (tag : EventTag) (callback : option C) (s : t) : Z * t :=
  schedule_at (now_ s + (if delay <? 0 then 0 else delay)) tag callback s.

Definition cancel (i : Z) (s : t) : bool * t :=
  if i =? kInvalidEvent then (false, s)
  else (negb (bool_decide (i ∈ cancelled_ s)), s <| cancelled_ := {[ i ]} ∪ cancelled_ s |>).

Definition record (g : EventTag) (s : t) : t :=
  s <| trace_ := Trace.record (mkEvent (now_ s) (t_node g) (t_kind g) (t_a g) (t_b g)) (trace_ s) |>.

Fixpoint drop_loop (q : list (Event C)) (cancelled : gset Z) : list (Event C) * gset Z :=
  match q with
  | [] => ([], cancelled)
  | f :: q' =>
      if bool_decide (id f ∈ cancelled) then drop_loop q' (cancelled ∖ {[ id f ]})
      else (q, cancelled)
  end.

Definition drop_cancelled_from_top (s : t) : t :=
  let '(q, cancelled) := drop_loop (queue_ s) (cancelled_ s) in
  s <| queue_ := q |> <| cancelled_ := cancelled |>.

Definition next_deadline (s : t) : Z * t :=
  let s := drop_cancelled_from_top s in
  (match queue_ s with [] => kNoTimeout | f :: _ => when f end, s).

Definition empty (s : t) : bool * t :=
  let s := drop_cancelled_from_top s in
  (match queue_ s with [] => true | _ => false end, s).

Definition advance_to (at_ : Z) (s : t) : t := if now_ s <? at_ then s <| now_ := at_ |> else s.

(** [run_next_before] up to the call of the closure: the event taken off the queue, if one
    is due. *)
Definition take_next_before (limit : Z) (s : t) : option (Event C) * t :=
  let s := drop_cancelled_from_top s in
  match queue_ s with
  | [] => (None, s)
  | event :: q =>
      if limit <? when event then (None, s)
      else
        let s := s <| queue_ := q |> in
        let s := advance_to (when event) s in
        let s := record (tag event) s in
        (Some event, s <| events_run_ := events_run_ s + 1 |>)
  end.

(** The world a closure acts on holds the scheduler. *)
Context {W : Type} (scheduler_of : W -> t) (set_scheduler : t -> W -> W) (call : C -> W -> W).

Definition run_next_before (limit : Z) (w : W) : bool * W :=
  let '(event, s) := take_next_before limit (scheduler_of w) in
  let w := set_scheduler s w in
  match event with
  | None => (false, w)
  | Some event =>
      (true, match callback event with Some c => call c w | None => w end)
  end.

End Scheduler.

#[global] Arguments t : clear implicits.

End Scheduler.

Definition earlier_deadline (a b : Z) : Z :=
  if a =? kNoTimeout then b
  else if b =? kNoTimeout then a
  else if a <? b then a else b.

Module SimClock.

Record t := mk { boot_offset_ : Z; wall_epoch_ms_ : Z; wall_skew_ms_ : Z }.

#[export] Instance SimClock_eta : Settable t := fun c =>
  mk (boot_offset_ c) (wall_epoch_ms_ c) (wall_skew_ms_ c).

Definition new (boot_offset wall_epoch_ms : Z) : t := mk boot_offset wall_epoch_ms 0.

Definition monotonic_now {C} (s : Scheduler.t C) (c : t) : Z := Scheduler.now_ s + boot_offset_ c.

(** C++ division truncates. *)
Definition wall_now_ms {C} (s : Scheduler.t C) (c : t) : Z :=
  wall_epoch_ms_ c + wall_skew_ms_ c + Z.quot (Scheduler.now_ s) kNanosPerMilli.

Definition jump_wall_clock (delta_ms : Z) (c : t) : t := c <| wall_skew_ms_ := wall_skew_ms_ c + delta_ms |>.

End SimClock.

(** ** Runs of the scheduler

    Everything a run does to its scheduler, from outside and from inside the closures, is
    a sequence of these calls. *)

Section Order.
Context {C : Type}.
Import Scheduler.

Inductive Call :=
  | At (at_ : Z) (g : EventTag) (c : option C)
  | After (delay : Z) (g : EventTag) (c : option C)
  | Cancel (i : Z)
  | Note (g : EventTag)
  | NextDeadline
  | Advance (at_ : Z)
  | RunNext (limit : Z).

(** The events that fired and the events that were scheduled, oldest first. *)
Record History := mkHistory { fired : list (Event C); scheduled : list (Event C) }.

Definition scheduled_event (at_ : Z) (g : EventTag) (c : option C) (s : t C) : Event C :=
  mkEv (Z.max (now_ s) at_) (next_id_ s) g c.

Definition make (k : Call) (s : t C) : t C :=
  match k with
  | At at_ g c => (schedule_at at_ g c s).2
  | After delay g c => (schedule_after delay g c s).2
  | Cancel i => (cancel i s).2
  | Note g => record g s
  | NextDeadline => (next_deadline s).2
  | Advance at_ => advance_to at_ s
  | RunNext limit => (take_next_before limit s).2
  end.

Definition note (k : Call) (s : t C) (h : History) : History :=
  match k with
  | At at_ g c => mkHistory (fired h) (scheduled h ++ [scheduled_event at_ g c s])
  | After delay g c => mkHistory (fired h) (scheduled h ++ [scheduled_event (now_ s + Z.max 0 delay) g c s])
  | RunNext limit => mkHistory (fired h ++ option_list (take_next_before limit s).1) (scheduled h)
  | _ => h
  end.

Definition run_call (st : t C * History) (k : Call) : t C * History := (make k st.1, note k st.1 st.2).

Definition run_calls (ks : list Call) (st : t C * History) : t C * History := foldl run_call st ks.

Definition start (trace : Trace.t) : t C * History := (new trace, mkHistory [] []).

(** What holds of a scheduler and its past: the queue is in order, everything in it comes
    after everything that fired, and an event that was scheduled has fired, is in the
    queue, or was cancelled. *)
Record past_ok (cancels : list Z) (s : t C) (h : History) : Prop := {
  po_unique : NoDup (map id (fired h ++ queue_ s));
  po_sorted : in_order when id (fired h ++ queue_ s);
  po_now : Forall (fun e => when e <= now_ s) (fired h);
  po_ids : Forall (fun e => id e < next_id_ s) (fired h ++ queue_ s);
  po_known : Forall (fun e => e ∈ scheduled h) (fired h ++ queue_ s);
  po_kept : Forall (fun e => e ∈ fired h \/ e ∈ queue_ s \/ id e ∈ cancels) (scheduled h);
  po_cancelled : forall i, i ∈ cancelled_ s -> i ∈ cancels }.

Lemma drop_loop_spec q cancelled :
  let '(q', cancelled') := drop_loop q cancelled in
  exists gone, q = gone ++ q' /\ Forall (fun e : Event C => id e ∈ cancelled) gone /\
    cancelled' = cancelled ∖ list_to_set (map id gone) /\
    match q' with [] => True | f :: _ => id f ∉ cancelled' end.
Proof.
  revert cancelled. induction q as [|f q IH]; intros cancelled; cbn.
  - exists []. split_and!; [done | by apply Forall_nil_2 | symmetry; apply difference_empty_L | done].
  - case_bool_decide as Hf.
    + specialize (IH (cancelled ∖ {[id f]})). destruct (drop_loop q _) as [q' cancelled'].
      destruct IH as (gone & -> & Hg & -> & Hh). exists (f :: gone). split_and!; [done | | | done].
      * constructor; [done|]. eapply Forall_impl; [exact Hg|]. by intros e [??]%elem_of_difference.
      * cbn. by rewrite difference_difference_l_L.
    + exists []. split_and!; [done | by apply Forall_nil_2 | symmetry; apply difference_empty_L | done].
Qed.

Lemma drop_cancelled_spec s :
  let s' := drop_cancelled_from_top s in
  s' = s <| queue_ := queue_ s' |> <| cancelled_ := cancelled_ s' |> /\
  exists gone, queue_ s = gone ++ queue_ s' /\ Forall (fun e : Event C => id e ∈ cancelled_ s) gone /\
    cancelled_ s' = cancelled_ s ∖ list_to_set (map id gone) /\
    match queue_ s' with [] => True | f :: _ => id f ∉ cancelled_ s' end.
Proof.
  unfold drop_cancelled_from_top. pose proof (drop_loop_spec (queue_ s) (cancelled_ s)) as H.
  destruct (drop_loop _ _) as [q c]. fields. split; [done | exact H].
Qed.

(** Taking cancelled events off the front. *)
Lemma drop_past cancels s h : past_ok cancels s h -> past_ok cancels (drop_cancelled_from_top s) h.
Proof.
  intros [H0 H1 H2 H3 H4 H5 H6]. destruct (drop_cancelled_spec s) as (E & gone & Eq & Hg & Ec & _).
  set (s' := drop_cancelled_from_top s) in *. rewrite Eq in *.
  assert (now_ s' = now_ s /\ next_id_ s' = next_id_ s) as [En Ei] by by rewrite E.
  rewrite !map_app in H0. apply NoDup_skip in H0. rewrite <- map_app in H0.
  split; rewrite ?En, ?Ei; eauto using in_order_skip, Forall_skip.
  - eapply Forall_impl; [exact H5|]. intros e [?|[[?|?]%elem_of_app|?]]; auto.
    right; right. apply H6. rewrite Forall_forall in Hg. by apply Hg.
  - intros i. rewrite Ec. intros [? _]%elem_of_difference. auto.
Qed.

Lemma schedule_past cancels s h e :
  past_ok cancels s h -> id e = next_id_ s -> now_ s <= when e ->
  past_ok cancels (s <| next_id_ := next_id_ s + 1 |> <| queue_ := push when id e (queue_ s) |>)
    (mkHistory (fired h) (scheduled h ++ [e])).
Proof.
  intros [H0 H1 H2 H3 H4 H5 H6] He Hw. apply Forall_app in H3 as [H3 H3'].
  apply in_order_app in H1 as (Hf & Hq & Hfq).
  assert (Forall (fun f => id f <> id e) (queue_ s)) as Hne.
  { eapply Forall_impl; [exact H3'|]. cbn. lia. }
  assert (Forall (fun f => id f < id e) (fired h ++ queue_ s)) as Hlt by by rewrite He; apply Forall_app_2.
  split; fields.
  - rewrite push_Permutation, <- Permutation_middle. cbn. constructor; [|done].
    intros (f & Ef & Hin)%list_elem_of_fmap. rewrite Forall_forall in Hlt. specialize (Hlt f Hin). lia.
  - apply in_order_app. split_and!; [done | by apply push_in_order |].
    intros a b Ha [->|Hb]%elem_of_push; [|by apply Hfq].
    rewrite Forall_forall in H2, H3. specialize (H2 a Ha). specialize (H3 a Ha). unfold before. lia.
  - done.
  - apply Forall_app_2; [|apply Forall_push; [lia|]].
    + eapply Forall_impl; [exact H3|]. cbn; lia.
    + eapply Forall_impl; [exact H3'|]. cbn; lia.
  - apply Forall_app in H4 as [H4 H4']. apply Forall_app_2; [|apply Forall_push].
    + eapply Forall_impl; [exact H4|]. intros f ?. apply elem_of_app. by left.
    + apply elem_of_app. right. by apply list_elem_of_singleton.
    + eapply Forall_impl; [exact H4'|]. intros f ?. apply elem_of_app. by left.
  - apply Forall_app_2; [|constructor; [|done]].
    + eapply Forall_impl; [exact H5|]. intros f [?|[?|?]]; auto. right; left. apply elem_of_push. by right.
    + right; left. apply elem_of_push. by left.
  - done.
Qed.

Lemma advance_max at_ (s : t C) : advance_to at_ s = s <| now_ := Z.max (now_ s) at_ |>.
Proof.
  unfold advance_to. destruct (now_ s <? at_) eqn:?; bool_prop; fields; [by rewrite Z.max_r by lia|].
  rewrite Z.max_l by lia. by destruct s.
Qed.

Lemma take_past cancels s h limit :
  past_ok cancels s h -> past_ok cancels (make (RunNext limit) s) (note (RunNext limit) s h).
Proof.
  intros H%drop_past. cbn [make note]. unfold take_next_before. cbv zeta.
  set (s' := drop_cancelled_from_top s) in *. clearbody s'.
  destruct (queue_ s') as [|e q] eqn:Eq; cbn; [by rewrite app_nil_r; destruct h|].
  rewrite advance_max. destruct (limit <? when e) eqn:El; cbn; [by rewrite app_nil_r; destruct h|].
  destruct H as [H0 H1 H2 H3 H4 H5 H6]. rewrite Eq in *.
  split; fields; rewrite <- ?app_assoc; cbn; try done.
  - apply Forall_app_2; [|constructor; [lia | done]]. eapply Forall_impl; [exact H2|]. cbn; lia.
  - eapply Forall_impl; [exact H5|]. intros f. rewrite elem_of_app, list_elem_of_singleton, elem_of_cons. tauto.
Qed.

Definition cancel_ids (ks : list Call) : list Z :=
  omap (fun k => match k with Cancel i => Some i | _ => None end) ks.

Lemma clamp_max at_ (s : t C) : (if at_ <? now_ s then now_ s else at_) = Z.max (now_ s) at_.
Proof. destruct (_ <? _) eqn:?; bool_prop; lia. Qed.

Lemma at_past cancels s h at_ g c :
  past_ok cancels s h ->
  past_ok cancels (schedule_at at_ g c s).2 (mkHistory (fired h) (scheduled h ++ [scheduled_event at_ g c s])).
Proof.
  intros H. unfold schedule_at. rewrite clamp_max. apply schedule_past; [done | done |]. cbn; lia.
Qed.

Lemma call_past cancels s h k :
  past_ok cancels s h -> past_ok (cancels ++ cancel_ids [k]) (make k s) (note k s h).
Proof.
  intros H. destruct k as [at_ g c|delay g c|i|g| |at_|limit]; cbn [make note cancel_ids omap list_omap];
    rewrite ?app_nil_r.
  - by apply at_past.
  - replace (Z.max 0 delay) with (if delay <? 0 then 0 else delay) by (destruct (_ <? _) eqn:?; bool_prop; lia).
    by apply at_past.
  - destruct H as [H0 H1 H2 H3 H4 H5 H6].
    assert (forall j, j ∈ cancels -> j ∈ cancels ++ [i]) as Hl by (intros; apply elem_of_app; by left).
    unfold cancel. destruct (i =? kInvalidEvent); split; fields; try done;
      try (eapply Forall_impl; [exact H5|]; intros e [?|[?|?]]; auto).
    + auto.
    + intros j [->%elem_of_singleton|Hj]%elem_of_union; [|auto].
      apply elem_of_app; right. by apply list_elem_of_singleton.
  - destruct H. by split.
  - by apply drop_past.
  - rewrite advance_max. destruct H. split; fields; try done.
    eapply Forall_impl; [eassumption|]. cbn; lia.
  - by apply take_past.
Qed.

Lemma run_calls_snoc ks k st : run_calls (ks ++ [k]) st = run_call (run_calls ks st) k.
Proof. unfold run_calls. by rewrite foldl_app. Qed.

Lemma run_calls_app ks ks' st : run_calls (ks ++ ks') st = run_calls ks' (run_calls ks st).
Proof. unfold run_calls. by rewrite foldl_app. Qed.

Lemma cancel_ids_app ks ks' : cancel_ids (ks ++ ks') = cancel_ids ks ++ cancel_ids ks'.
Proof. apply omap_app. Qed.

Lemma run_past ks cancels st : past_ok cancels st.1 st.2 ->
  past_ok (cancels ++ cancel_ids ks) (run_calls ks st).1 (run_calls ks st).2.
Proof.
  intros H. induction ks as [|k ks IH] using rev_ind; [by rewrite app_nil_r|].
  rewrite run_calls_snoc, cancel_ids_app, app_assoc. by apply call_past.
Qed.

Lemma start_past trace : past_ok [] (start trace).1 (start trace).2.
Proof. split; cbn; try constructor. intros i []%elem_of_empty. Qed.

(** Time, as the captured trace shows it. *)
Definition stamps (s : t C) : list Z := map e_time (Trace.all_ (trace_ s)).

Definition stamps_ok (s : t C) : Prop :=
  StronglySorted Z.le (stamps s) /\ Forall (fun at_ => at_ <= now_ s) (stamps s).

Lemma stamps_advance s at_ : stamps_ok s -> stamps_ok (advance_to at_ s).
Proof.
  rewrite advance_max. intros [H1 H2]. split; [done|]. eapply Forall_impl; [exact H2|]. cbn; lia.
Qed.

Lemma stamps_record s g : stamps_ok s -> stamps_ok (record g s).
Proof.
  intros [H1 H2]. unfold stamps_ok, stamps, record; fields.
  set (e := mkEvent _ _ _ _ _).
  assert (Trace.all_ (Trace.record e (trace_ s)) = Trace.all_ (trace_ s) \/
          Trace.all_ (Trace.record e (trace_ s)) = Trace.all_ (trace_ s) ++ [e]) as [-> | ->].
  { unfold Trace.record; fields. destruct (_ =? 0)%nat; fields; destruct (Trace.capture_all_ _); fields; auto. }
  - done.
  - rewrite map_app. split; [by apply sorted_snoc|]. apply Forall_app_2; [done|]. by repeat constructor.
Qed.

Lemma stamps_same (s s' : t C) : trace_ s' = trace_ s -> now_ s' = now_ s -> stamps_ok s -> stamps_ok s'.
Proof. unfold stamps_ok, stamps. by intros -> ->. Qed.

Lemma stamps_call k s : stamps_ok s -> stamps_ok (make k s).
Proof.
  intros H. assert (stamps_ok (drop_cancelled_from_top s)) as Hd.
  { destruct (drop_cancelled_spec s) as (-> & _). exact H. }
  destruct k as [at_ g c|delay g c|i|g| |at_|limit]; cbn [make].
  - by apply (stamps_same s).
  - by apply (stamps_same s).
  - unfold cancel. destruct (_ =? _); [done|]. by apply (stamps_same s).
  - by apply stamps_record.
  - exact Hd.
  - by apply stamps_advance.
  - unfold take_next_before. cbv zeta. set (s' := drop_cancelled_from_top s) in *. clearbody s'.
    destruct (queue_ s') as [|e q]; [done|]. destruct (limit <? when e); [done|].
    eapply stamps_same; [| |apply stamps_record, stamps_advance, (stamps_same s'), Hd]; reflexivity.
Qed.

Lemma stamps_run ks st : stamps_ok st.1 -> stamps_ok (run_calls ks st).1.
Proof.
  intros H. induction ks as [|k ks IH] using rev_ind; [done|]. rewrite run_calls_snoc. by apply stamps_call.
Qed.

Lemma now_call k s : now_ s <= now_ (make k s).
Proof.
  assert (now_ (drop_cancelled_from_top s) = now_ s) as Hd by by destruct (drop_cancelled_spec s) as (-> & _).
  destruct k as [at_ g c|delay g c|i|g| |at_|limit]; cbn [make]; [done | done | | done | | |].
  - unfold cancel. by destruct (_ =? _).
  - cbn. lia.
  - rewrite advance_max. cbn. lia.
  - unfold take_next_before. cbv zeta. rewrite <- Hd. set (s' := drop_cancelled_from_top s). clearbody s'.
    destruct (queue_ s') as [|e q]; [done|]. destruct (limit <? when e); [done|]. rewrite advance_max. cbn. lia.
Qed.

(** ** Cancellation *)

(** The id was handed out, and if its event is still in the queue it has a tombstone. *)
Definition dead (i : Z) (s : t C) : Prop :=
  i < next_id_ s /\ Forall (fun e => id e = i -> i ∈ cancelled_ s) (queue_ s).

Lemma dead_drop cancels i s h : past_ok cancels s h -> dead i s -> dead i (drop_cancelled_from_top s).
Proof.
  intros Hp [Hi Hq]. destruct (drop_cancelled_spec s) as (E & gone & Eq & _ & Ec & _).
  set (s' := drop_cancelled_from_top s) in *. split; [by rewrite E|].
  apply Forall_forall. intros e He Hei. rewrite Eq in Hq. apply Forall_app in Hq as [_ Hq].
  rewrite Forall_forall in Hq. rewrite Ec. apply elem_of_difference. split; [by apply (Hq e)|].
  rewrite elem_of_list_to_set. intros Hg. destruct Hp as [Hu _ _ _ _ _ _]. rewrite Eq, !map_app in Hu.
  apply NoDup_app in Hu as (_ & _ & Hu). apply NoDup_app in Hu as (_ & Hu & _).
  apply (Hu i Hg). rewrite <- Hei. by apply list_elem_of_fmap_2.
Qed.

Lemma dead_at i s at_ g c : dead i s -> dead i (schedule_at at_ g c s).2.
Proof.
  intros [Hi Hq]. split; cbn; [lia|]. apply Forall_push; [|done]. cbn. lia.
Qed.

Lemma dead_call cancels i k s h : past_ok cancels s h -> dead i s ->
  dead i (make k s) /\ exists new, fired (note k s h) = fired h ++ new /\ Forall (fun e => id e <> i) new.
Proof.
  intros Hp Hd. pose proof (dead_drop _ _ _ _ Hp Hd) as Hd'.
  assert (exists new, fired h = fired h ++ new /\ Forall (fun e => id e <> i) new) as Hnone.
  { exists []. by rewrite app_nil_r. }
  destruct k as [at_ g c|delay g c|j|g| |at_|limit]; cbn [make note fired].
  - split; [by apply dead_at | done].
  - split; [by apply dead_at | done].
  - split; [|done]. unfold cancel. destruct (_ =? _); [done|]. destruct Hd as [Hi Hq]. split; [done|]. fields.
    eapply Forall_impl; [exact Hq|]. intros e He Ei. apply elem_of_union. right. by apply He.
  - split; [exact Hd | done].
  - by split.
  - rewrite advance_max. split; [exact Hd | done].
  - unfold take_next_before. cbv zeta.
    destruct (drop_cancelled_spec s) as (_ & gone & _ & _ & _ & Hh).
    set (s' := drop_cancelled_from_top s) in *. clearbody s'.
    destruct (queue_ s') as [|e q] eqn:Eq; [cbn; by rewrite app_nil_r|].
    destruct (limit <? when e); [cbn; by rewrite app_nil_r|]. destruct Hd' as [Hi Hq]. rewrite Eq in Hq.
    apply Forall_cons in Hq as [He Hq]. rewrite advance_max. split; [by split|].
    exists [e]. split; [done|]. constructor; [|done]. intros Ei. apply Hh. rewrite Ei. by apply He.
Qed.

Lemma dead_run cancels i ks st : past_ok cancels st.1 st.2 -> dead i st.1 ->
  exists new, fired (run_calls ks st).2 = fired st.2 ++ new /\ Forall (fun e => id e <> i) new.
Proof.
  intros Hp Hd.
  assert (dead i (run_calls ks st).1 /\
    exists new, fired (run_calls ks st).2 = fired st.2 ++ new /\ Forall (fun e => id e <> i) new) as [_ ?]; [|done].
  induction ks as [|k ks (Hd' & new & Ef & Hn)] using rev_ind.
  - split; [done|]. exists []. by rewrite app_nil_r.
  - rewrite run_calls_snoc. destruct (dead_call _ i k _ _ (run_past ks _ _ Hp) Hd') as (? & new' & Ef' & Hn').
    split; [done|]. exists (new ++ new'). cbn. rewrite Ef', Ef, app_assoc. split; [done|]. by apply Forall_app_2.
Qed.

End Order.

(** C30: Time and order.  Whatever a run schedules, cancels, records and runs, from outside
    or from inside its events, the events that fired and then the ones still queued are in
    strictly increasing [(when, id)] order; an event fires no earlier than it was due; what
    fired or is queued was scheduled, and what was scheduled has fired, is queued, or had
    its id cancelled; and the time stamps of the captured trace never go back. *)
Theorem events_fire_in_order {C} (capacity : nat) (ks : list (@Call C)) :
  let '(s, h) := run_calls ks (start (Trace.set_capture_all true (Trace.new capacity))) in
  in_order Scheduler.when Scheduler.id (fired h ++ Scheduler.queue_ s) /\
  (forall e, e ∈ fired h -> Scheduler.when e <= Scheduler.now_ s) /\
  (forall e, e ∈ fired h \/ e ∈ Scheduler.queue_ s -> e ∈ scheduled h) /\
  (forall e, e ∈ scheduled h ->
     e ∈ fired h \/ e ∈ Scheduler.queue_ s \/ Scheduler.id e ∈ cancel_ids ks) /\
  StronglySorted Z.le (stamps s ++ [Scheduler.now_ s]).
Proof.
  set (trace := Trace.set_capture_all true (Trace.new capacity)).
  pose proof (run_past ks [] _ (start_past trace)) as [_ H1 H2 _ H4 H5 _].
  pose proof (stamps_run ks (start trace)) as H6. destruct (run_calls ks (start trace)) as [s h].
  destruct H6 as [H6 H7]; [by split; constructor|]. cbn in *.
  rewrite Forall_forall in H2, H4, H5. split_and!; [done | done | | done | by apply sorted_snoc].
  intros e He. apply H4. by apply elem_of_app.
Qed.

(** Cancelling.  Once the id of a scheduled event has been cancelled, no event with
    that id fires any more, whatever the rest of the run does. *)
Theorem cancelled_never_fires {C} (trace : Trace.t) (ks ks' : list (@Call C)) (i : Z) :
  let st := run_calls ks (start trace) in
  0 < i < Scheduler.next_id_ st.1 ->
  exists new, fired (run_calls ks' (run_calls [Cancel i] st)).2 = fired st.2 ++ new /\
    Forall (fun e => Scheduler.id e <> i) new.
Proof.
  intros st Hi. pose proof (run_past (ks ++ [Cancel i]) [] _ (start_past trace)) as Hp.
  rewrite run_calls_app in Hp. apply (dead_run _ i ks' _ Hp). split; cbn; unfold Scheduler.cancel.
  - replace (i =? _) with false by (symmetry; apply Z.eqb_neq; unfold Scheduler.kInvalidEvent; lia). cbn. fold st. lia.
  - replace (i =? _) with false by (symmetry; apply Z.eqb_neq; unfold Scheduler.kInvalidEvent; lia). cbn.
    apply Forall_true. intros e _. apply elem_of_union_l. by apply elem_of_singleton.
Qed.

(** Two events at one instant, the first of them cancelled: the second fires alone. *)
Definition tag0 : EventTag := mkTag kTimer 0 0 0.

Lemma cancelled_never_fires_witness :
  let st := run_calls [At 5 tag0 (Some 1); At 5 tag0 (Some 2)] (start (Trace.new 4)) in
  0 < 1 < Scheduler.next_id_ st.1 /\
  exists new, fired (run_calls [RunNext 10; RunNext 10] (run_calls [Cancel 1] st)).2 = fired st.2 ++ new /\
    Forall (fun e => Scheduler.id e <> 1) new.
Proof.
  intros st. assert (0 < 1 < Scheduler.next_id_ st.1) as H by (vm_compute; by split).
  split; [exact H|]. exact (cancelled_never_fires (Trace.new 4) _ [RunNext 10; RunNext 10] 1 H).
Defined.
