(* ===== verification/SimNetwork.v ===== *)
(** * The simulated network

    Models [src/src/io/sim/sim_network.h]/[sim_network.cpp]: the fabric with
    its endpoints, its cuts and its deliveries in flight, and one node's view of it.  The references the fabric holds, to the scheduler and to the generator, are parts
    of its state.  Its three kinds of closure are constructors of [Closure], next to the
    closures [X] of the rest of the simulation; handlers are values of a type [H], and an
    upcall acts on the world the fabric is part of.  A [ConnId] is the index of its
    endpoint.  [std::map] and [std::set] iterate in key order, which only [heal_all] can
    show.  Byte counts are not wrapped. *)
From S2P Require Import Prelude Base Random Disk Network Queue Trace Scheduler.
From Stdlib Require Import SpecFloat Ascii.

Module Fabric.

Record NetworkFaultConfig := mkFaults {
  min_latency : Z;
  max_latency : Z;
  partial_write_probability : double;
  partition_reset_delay : Z;
  send_window_bytes : Z }.

Record Endpoint (H : Type) := mkEndpoint {
  node : Z;
  listener : bool;
  open : bool;
  reset : bool;
  hangup_delivered : bool;
  peer_closed : bool;
  port : Z;
  peer : Z;
  rx : Buffer.t;
  in_flight : Z;
  last_delivery : Z;
  interest : Interest.t;
  handler : option H;
  backlog : list Z }.
#[global] Arguments mkEndpoint {H}.
#[global] Arguments node {H}.
#[global] Arguments listener {H}.
#[global] Arguments open {H}.
#[global] Arguments reset {H}.
#[global] Arguments hangup_delivered {H}.
#[global] Arguments peer_closed {H}.
#[global] Arguments port {H}.
#[global] Arguments peer {H}.
#[global] Arguments rx {H}.
#[global] Arguments in_flight {H}.
#[global] Arguments last_delivery {H}.
#[global] Arguments interest {H}.
#[global] Arguments handler {H}.
#[global] Arguments backlog {H}.

#[global] Instance Endpoint_eta H : Settable (Endpoint H) := fun e =>
  mkEndpoint (node e) (listener e) (open e) (reset e) (hangup_delivered e) (peer_closed e) (port e)
    (peer e) (rx e) (in_flight e) (last_delivery e) (interest e) (handler e) (backlog e).

(** What the fabric schedules, and what the rest of the simulation does. *)
Inductive Closure (X : Type) :=
  | Deliver (conn peer_id : Z) (payload : list Z)
  | Arrive (listener_id server : Z)
  | CutTimeout (from to : Z)
  | Elsewhere (x : X).
#[global] Arguments Deliver {X}.
#[global] Arguments Arrive {X}.
#[global] Arguments CutTimeout {X}.
#[global] Arguments Elsewhere {X}.

Section Fabric.
Context {G : Type} {RG : Random G} {H X : Type}.

Record t := mk {
  scheduler_ : Scheduler.t (Closure X);
  rng_ : G;
  config_ : NetworkFaultConfig;
  endpoints_ : list (Endpoint H);
  networks_ : gset Z;
  node_endpoints_ : gmap Z (list Z);
  names_ : gmap (list ascii) Z;
  listeners_ : gmap (Z * Z) Z;
  cuts_ : gset (Z * Z);
  next_ephemeral_port_ : Z;
  bytes_delivered_ : Z;
  bytes_dropped_ : Z;
  connections_reset_ : Z }.

#[global] Instance Fabric_eta : Settable t := fun f =>
  mk (scheduler_ f) (rng_ f) (config_ f) (endpoints_ f) (networks_ f) (node_endpoints_ f) (names_ f)
    (listeners_ f) (cuts_ f) (next_ephemeral_port_ f) (bytes_delivered_ f) (bytes_dropped_ f)
    (connections_reset_ f).

Definition new (scheduler : Scheduler.t (Closure X)) (rng : G) (config : NetworkFaultConfig) : t :=
  mk scheduler rng config [] ∅ ∅ ∅ ∅ ∅ 40000 0 0 0.

(** The state behind the references. *)
Definition record (g : EventTag) (f : t) : t := f <| scheduler_ := Scheduler.record g (scheduler_ f) |>.

Definition schedule_at (at_ : Z) (g : EventTag) (c : Closure X) (f : t) : t :=
  f <| scheduler_ := (Scheduler.schedule_at at_ g (Some c) (scheduler_ f)).2 |>.

Definition schedule_after (delay : Z) (g : EventTag) (c : Closure X) (f : t) : t :=
  f <| scheduler_ := (Scheduler.schedule_after delay g (Some c) (scheduler_ f)).2 |>.

Definition draw_latency (f : t) : Z * t :=
  let '(n, g) := next_in_range (min_latency (config_ f)) (max_latency (config_ f)) (rng_ f) in
  (n, f <| rng_ := g |>).

Definition add_node (n : Z) (name : list ascii) (f : t) : t :=
  f <| networks_ := {[ n ]} ∪ networks_ f |> <| names_ := <[name := n]> (names_ f) |>
    <| node_endpoints_ := <[n := default [] (node_endpoints_ f !! n)]> (node_endpoints_ f) |>.

Definition endpoint (id : Z) (f : t) : option (Endpoint H) :=
  if (id =? kInvalidConn) || (zlen (endpoints_ f) <=? id) || (id <? 0) then None
  else endpoints_ f !! Z.to_nat id.

(** A write through the pointer [endpoint] returned. *)
Definition update (id : Z) (g : Endpoint H -> Endpoint H) (f : t) : t :=
  f <| endpoints_ := alter g (Z.to_nat id) (endpoints_ f) |>.

Definition fresh (n : Z) : Endpoint H :=
  mkEndpoint n false true false false false 0 kInvalidConn Buffer.empty_buffer 0 0 Interest.kNone None [].

Definition new_endpoint (n : Z) (f : t) : Z * t :=
  let id := zlen (endpoints_ f) in
  (id,
   f <| endpoints_ := endpoints_ f ++ [fresh n] |>
     <| node_endpoints_ := <[n := default [] (node_endpoints_ f !! n) ++ [id]]> (node_endpoints_ f) |>).

Definition is_cut (from to : Z) (f : t) : bool := bool_decide ((from, to) ∈ cuts_ f).

Definition schedule_partition_resets (from to : Z) (f : t) : t :=
  schedule_after (partition_reset_delay (config_ f)) (mkTag kReset from to 0) (CutTimeout from to) f.

Definition cut (from to : Z) (f : t) : t :=
  if from =? to then f
  else if is_cut from to f then f
  else
    let f := f <| cuts_ := {[ (from, to) ]} ∪ cuts_ f |> in
    schedule_partition_resets from to (record (mkTag kPartitionStart from to 0) f).

Definition heal (from to : Z) (f : t) : t :=
  if negb (is_cut from to f) then f
  else
    record (mkTag kPartitionEnd from to 0) (f <| cuts_ := cuts_ f ∖ {[ (from, to) ]} |>).

Definition cut_both (a b : Z) (f : t) : t := cut b a (cut a b f).
Definition heal_both (a b : Z) (f : t) : t := heal b a (heal a b f).

(** The order of [std::pair] *)
Definition pair_le (a b : Z * Z) : Prop := a.1 < b.1 \/ a.1 = b.1 /\ a.2 <= b.2.

#[global] Instance pair_le_dec a b : Decision (pair_le a b).
Proof. unfold pair_le. apply _. Defined.

Definition heal_all (f : t) : t :=
  foldl (fun f c => heal c.1 c.2 f) f (merge_sort pair_le (elements (cuts_ f))).

(** [reset_connection] calls itself at most once, on the peer and with [notify_peer] off. *)
Definition reset_endpoint (id : Z) (tell : Z -> t -> t) (f : t) : t :=
  match endpoint id f with
  | None => f
  | Some ep =>
      if reset ep then f
      else
        let f := update id (fun ep => ep <| reset := true |> <| open := false |>) f in
        let f := f <| connections_reset_ := connections_reset_ f + 1 |> in
        tell (peer ep) (record (mkTag kReset (node ep) id 0) f)
  end.

Definition reset_connection (id : Z) (notify_peer : bool) (f : t) : t :=
  reset_endpoint id
    (fun peer f => if notify_peer && negb (peer =? kInvalidConn) then reset_endpoint peer (fun _ f => f) f else f)
    f.

(** The closure of [schedule_partition_resets] *)
Definition cut_timeout (from to : Z) (f : t) : t :=
  if negb (is_cut from to f) then f
  else
    match node_endpoints_ f !! from with
    | None => f
    | Some ids =>
        foldl (fun f id =>
          match endpoint id f with
          | None => f
          | Some ep =>
              if listener ep || reset ep then f
              else
                match endpoint (peer ep) f with
                | None => f
                | Some p => if negb (node p =? to) then f else reset_connection id true f
                end
          end) f ids
    end.

Definition kill_node_connections (n : Z) (f : t) : t :=
  match node_endpoints_ f !! n with
  | None => f
  | Some ids =>
      let f :=
        foldl (fun f id =>
          match endpoint id f with
          | None => f
          | Some ep =>
              if listener ep
              then
                update id (fun ep => ep <| open := false |> <| backlog := [] |>)
                  (f <| listeners_ := delete (n, port ep) (listeners_ f) |>)
              else reset_connection id true f
          end) f ids in
      let f := foldl (fun f id => update id (fun ep => ep <| handler := None |> <| interest := Interest.kNone |>) f) f ids in
      f <| node_endpoints_ := <[n := []]> (node_endpoints_ f) |>
  end.

Definition deliver (from to : Z) (payload : list Z) (f : t) : t :=
  let f :=
    match endpoint from f with
    | None => f
    | Some src =>
        let size := zlen payload in
        update from (fun src =>
          src <| in_flight := in_flight src - (if in_flight src <? size then in_flight src else size) |>) f
    end in
  match endpoint to f with
  | None => f <| bytes_dropped_ := bytes_dropped_ f + zlen payload |>
  | Some dst =>
      if reset dst || negb (open dst)
      then f <| bytes_dropped_ := bytes_dropped_ f + zlen payload |>
      else
        update to (fun dst => dst <| rx := Buffer.append (rx dst) payload |>) f
          <| bytes_delivered_ := bytes_delivered_ f + zlen payload |>
  end.

(** The closure of [connect] *)
Definition arrive (listener_id server : Z) (f : t) : t :=
  match endpoint listener_id f with
  | None => reset_connection server true f
  | Some target =>
      if negb (open target) || negb (listener target) then reset_connection server true f
      else
        match endpoint server f with
        | None => f
        | Some pending =>
            if reset pending then f
            else update listener_id (fun target => target <| backlog := backlog target ++ [server] |>) f
        end
  end.

(** Calling a closure of the fabric. *)
Definition call (c : Closure X) (f : t) : t :=
  match c with
  | Deliver conn peer_id payload => deliver conn peer_id payload f
  | Arrive listener_id server => arrive listener_id server f
  | CutTimeout from to => cut_timeout from to f
  | Elsewhere _ => f
  end.

End Fabric.

#[global] Arguments t : clear implicits.

End Fabric.

(** One node's network: [fabric_] is the state and [node_] the first argument. *)
Module SimNetwork.
Import Fabric.

Section SimNetwork.
Context {G : Type} {RG : Random G} {H X : Type}.
Implicit Type f : Fabric.t G H X.

Definition listen (node_ port_ : Z) f : Result Z * Fabric.t G H X :=
  let '(bound, f) :=
    if port_ =? 0
    then (next_ephemeral_port_ f, f <| next_ephemeral_port_ := u16 (next_ephemeral_port_ f + 1) |>)
    else (port_, f) in
  match listeners_ f !! (node_, bound) with
  | Some _ => (fail kInvalidArgument, f)
  | None =>
      let '(id, f) := new_endpoint node_ f in
      let f := update id (fun ep => ep <| listener := true |> <| port := bound |>) f in
      (Ok id, f <| listeners_ := <[(node_, bound) := id]> (listeners_ f) |>)
  end.

Definition local_port (node_ listener_ : Z) f : Result Z :=
  match endpoint listener_ f with
  | None => fail kNotFound
  | Some ep =>
      fail_if negb (listener ep) || negb (node ep =? node_) with kNotFound else
      Ok (port ep)
  end.

Definition accept (node_ listener_ : Z) f : Result Z * Fabric.t G H X :=
  match endpoint listener_ f with
  | None => (fail kNotFound, f)
  | Some ep =>
      if negb (listener ep) || negb (node ep =? node_) || negb (open ep) then (fail kNotFound, f)
      else
        match backlog ep with
        | [] => (fail kWouldBlock, f)
        | conn :: rest => (Ok conn, update listener_ (fun ep => ep <| backlog := rest |>) f)
        end
  end.

Definition connect (node_ : Z) (host : list ascii) (port_ : Z) f : Result Z * Fabric.t G H X :=
  match names_ f !! host with
  | None => (fail kNotFound, f)
  | Some peer_node =>
      if is_cut node_ peer_node f || is_cut peer_node node_ f then (fail kRequestTimedOut, f)
      else
        match listeners_ f !! (peer_node, port_) with
        | None => (fail kNotFound, f)
        | Some listener_id =>
            let '(client, f) := new_endpoint node_ f in
            let '(server, f) := new_endpoint peer_node f in
            let f := update client (fun ep => ep <| peer := server |> <| port := port_ |>) f in
            let f := update server (fun ep => ep <| peer := client |> <| port := port_ |>) f in
            let f := record (mkTag kConnect node_ peer_node client) f in
            let '(latency, f) := draw_latency f in
            (Ok client,
             schedule_after latency (mkTag kAccept peer_node node_ server) (Arrive listener_id server) f)
        end
  end.

(** [room] is the size of the caller's buffer; the bytes copied into it are the result. *)
Definition read (node_ conn room : Z) f : Result (list Z) * Fabric.t G H X :=
  match endpoint conn f with
  | None => (fail kNotFound, f)
  | Some ep =>
      if negb (node ep =? node_) || listener ep then (fail kNotFound, f)
      else if reset ep then (fail kClosed, f)
      else if negb (Buffer.empty (rx ep)) then
        let n := Z.min room (Buffer.size (rx ep)) in
        (Ok (ztake n (Buffer.slice (rx ep))), update conn (fun ep => ep <| rx := Buffer.consume (rx ep) n |>) f)
      else if peer_closed ep then (Ok [], f)
      else if negb (open ep) then (fail kClosed, f)
      else (fail kWouldBlock, f)
  end.

(** How much of a write is taken: what the window leaves room for, or less. *)
Definition accepted (n : Z) f : Z * Fabric.t G H X :=
  if 1 <? n
  then
    let '(short, g) := next_bool_with_probability (partial_write_probability (config_ f)) (rng_ f) in
    if short
    then let '(k, g) := next_below n g in (1 + k, f <| rng_ := g |>)
    else (n, f <| rng_ := g |>)
  else (n, f).

Definition write (node_ conn : Z) (data : list Z) f : Result Z * Fabric.t G H X :=
  match endpoint conn f with
  | None => (fail kNotFound, f)
  | Some ep =>
      if negb (node ep =? node_) || listener ep then (fail kNotFound, f)
      else if reset ep || negb (open ep) then (fail kClosed, f)
      else if zlen data =? 0 then (Ok 0, f)
      else
        let window := send_window_bytes (config_ f) in
        if window <=? in_flight ep then (fail kWouldBlock, f)
        else
          let room := window - in_flight ep in
          let '(n, f) := accepted (Z.min (zlen data) room) f in
          match endpoint (peer ep) f with
          | None => (Ok n, f <| bytes_dropped_ := bytes_dropped_ f + n |>)
          | Some p =>
              if reset p then (Ok n, f <| bytes_dropped_ := bytes_dropped_ f + n |>)
              else if is_cut node_ (node p) f then
                (Ok n, record (mkTag kDropped node_ conn n) (f <| bytes_dropped_ := bytes_dropped_ f + n |>))
              else
                let '(latency, f) := draw_latency f in
                let at_ := Scheduler.now_ (scheduler_ f) + latency in
                let at_ := if at_ <? last_delivery ep then last_delivery ep else at_ in
                let f := update conn (fun ep => ep <| last_delivery := at_ |> <| in_flight := in_flight ep + n |>) f in
                let f := schedule_at at_ (mkTag kDeliver (node p) (peer ep) n) (Deliver conn (peer ep) (ztake n data)) f in
                (Ok n, record (mkTag kSend node_ conn n) f)
          end
  end.

Definition close (node_ conn : Z) f : Fabric.t G H X :=
  match endpoint conn f with
  | None => f
  | Some ep =>
      if negb (node ep =? node_) then f
      else
        let f :=
          if listener ep
          then
            let f := f <| listeners_ := delete (node_, port ep) (listeners_ f) |> in
            let f := update conn (fun ep => ep <| backlog := [] |>) f in
            foldl (fun f id => reset_connection id true f) f (backlog ep)
          else if negb (peer ep =? kInvalidConn)
          then
            match endpoint (peer ep) f with
            | None => f
            | Some _ => update (peer ep) (fun p => p <| peer_closed := true |>) f
            end
          else f in
        update conn (fun ep => ep <| open := false |> <| handler := None |> <| interest := Interest.kNone |>) f
  end.

Definition watch (node_ conn : Z) (interest_ : Interest.t) (handler_ : option H) f : Fabric.t G H X :=
  match endpoint conn f with
  | None => f
  | Some ep =>
      if negb (node ep =? node_) then f
      else update conn (fun ep => ep <| interest := interest_ |> <| handler := handler_ |>) f
  end.

(** [poll] hands control to the handlers, which act on a world that holds the fabric. *)
Context {W : Type} (fabric_of : W -> Fabric.t G H X) (set_fabric : Fabric.t G H X -> W -> W)
  (upcall : H -> Upcall -> Z -> W -> W).

Definition readable (ep : Endpoint H) : bool :=
  if listener ep then match backlog ep with [] => false | _ => true end
  else negb (Buffer.empty (rx ep)) || peer_closed ep.

Definition writable f (ep : Endpoint H) : bool :=
  open ep && negb (listener ep) && negb (reset ep) && (in_flight ep <? send_window_bytes (config_ f)).

(** One test-and-dispatch of the loop body: [None] is its [continue]. *)
Definition dispatch (id : Z) (up : Upcall) (ready : Fabric.t G H X -> Endpoint H -> bool) (n : Z) (w : W)
    : option (Z * W) :=
  match endpoint id (fabric_of w) with
  | None => None
  | Some ep =>
      match handler ep with
      | None => None
      | Some h => if ready (fabric_of w) ep then Some (n + 1, upcall h up id w) else Some (n, w)
      end
  end.

Definition poll_one (id : Z) (n : Z) (w : W) : Z * W :=
  match endpoint id (fabric_of w) with
  | None => (n, w)
  | Some ep =>
      match handler ep with
      | None => (n, w)
      | Some h =>
          if bool_decide (interest ep = Interest.kNone) then (n, w)
          else if reset ep && negb (hangup_delivered ep) then
            let w := set_fabric (update id (fun ep => ep <| hangup_delivered := true |>) (fabric_of w)) w in
            (n + 1, upcall h on_hangup id w)
          else
            match dispatch id on_readable (fun _ ep => readable ep && wants_read (interest ep)) n w with
            | None => (n, w)
            | Some (n, w) =>
                match dispatch id on_writable (fun f ep => writable f ep && wants_write (interest ep)) n w with
                | None => (n, w)
                | Some (n, w) => (n, w)
                end
            end
      end
  end.

(** The bound of the loop is read again every time round: a handler may connect. *)
Fixpoint poll_loop (fuel : nat) (node_ : Z) (i : nat) (n : Z) (w : W) : option (Z * W) :=
  match default [] (node_endpoints_ (fabric_of w) !! node_) !! i with
  | None => Some (n, w)
  | Some id =>
      match fuel with
      | O => None
      | S fuel' => let '(n, w) := poll_one id n w in poll_loop fuel' node_ (S i) n w
      end
  end.

Definition poll (fuel : nat) (node_ : Z) (w : W) : option (Z * W) :=
  match node_endpoints_ (fabric_of w) !! node_ with
  | None => Some (0, w)
  | Some _ => poll_loop fuel node_ 0 0 w
  end.

End SimNetwork.

End SimNetwork.
