(* ===== verification/SimNetworkFacts.v ===== *)
(** * Runs of the simulated network, and what they keep

    A run is a sequence of calls by any of the nodes, of faults and of scheduled events.
    [inv] relates the fabric to what was written and read so far: on every open endpoint,
    the bytes its peer put on the wire are the bytes read, then the bytes waiting in its
    buffer, then the bytes of the deliveries in flight, in the order of the queue. *)
From S2P Require Import Prelude Base Random Queue Trace Scheduler Network SimNetwork.
From Stdlib Require Import SpecFloat Ascii.
Import Fabric.

(** Case analysis on the first [if] of the goal. *)
Ltac case_if := match goal with |- context [if ?b then _ else _] => destruct b eqn:? end.

Section Runs.
Context {G : Type} {RG : Random G} {H X : Type}.
Abbreviation fabric := (Fabric.t G H X).

(** Everything that happens to the fabric: what nodes call, what [poll] writes itself, what
    the simulation does to the links, and the passing of time. *)
Inductive Act :=
  | AddNode (n : Z) (name : list ascii)
  | Listen (n port : Z)
  | Accept (n l : Z)
  | Connect (n : Z) (host : list ascii) (port : Z)
  | Read (n c : Z) (room : nat)
  | Write (n c : Z) (data : list Z)
  | Close (n c : Z)
  | Watch (n c : Z) (i : Interest.t) (h : option H)
  | HangupSeen (c : Z)
  | Cut (a b : Z)
  | Heal (a b : Z)
  | HealAll
  | Kill (n : Z)
  | Plan (at_ : Z) (g : EventTag) (x : X)
  | Advance (at_ : Z)
  | Step (limit : Z).

Definition act (a : Act) (f : fabric) : fabric :=
  match a with
  | AddNode n name => add_node n name f
  | Listen n port => (SimNetwork.listen n port f).2
  | Accept n l => (SimNetwork.accept n l f).2
  | Connect n host port => (SimNetwork.connect n host port f).2
  | Read n c room => (SimNetwork.read n c (Z.of_nat room) f).2
  | Write n c data => (SimNetwork.write n c data f).2
  | Close n c => SimNetwork.close n c f
  | Watch n c i h => SimNetwork.watch n c i h f
  | HangupSeen c =>
      match endpoint c f with
      | None => f
      | Some _ => update c (fun ep => ep <| hangup_delivered := true |>) f
      end
  | Cut a b => cut a b f
  | Heal a b => heal a b f
  | HealAll => heal_all f
  | Kill n => kill_node_connections n f
  | Plan at_ g x => schedule_at at_ g (Elsewhere x) f
  | Advance at_ => f <| scheduler_ := Scheduler.advance_to at_ (scheduler_ f) |>
  | Step limit =>
      (Scheduler.run_next_before scheduler_ (fun s f => f <| scheduler_ := s |>) call limit f).2
  end.

(** What each connection put on the wire and what it handed to its reader.  A write that
    was accepted and dropped, because the peer is gone or the link is cut, shows in
    [bytes_dropped_]. *)
Record Ghost := mkGhost { wired : Z -> list Z; got : Z -> list Z }.

Definition extend (m : Z -> list Z) (c : Z) (bs : list Z) : Z -> list Z :=
  fun c' => if c' =? c then m c' ++ bs else m c'.

Definition observe (a : Act) (f : fabric) (g : Ghost) : Ghost :=
  match a with
  | Write n c data =>
      match SimNetwork.write n c data f with
      | (Ok k, f') =>
          if bytes_dropped_ f' =? bytes_dropped_ f then mkGhost (extend (wired g) c (ztake k data)) (got g) else g
      | (fail _, _) => g
      end
  | Read n c room =>
      match SimNetwork.read n c (Z.of_nat room) f with
      | (Ok bs, _) => mkGhost (wired g) (extend (got g) c bs)
      | (fail _, _) => g
      end
  | _ => g
  end.

Definition run_acts (acts : list Act) (st : fabric * Ghost) : fabric * Ghost :=
  foldl (fun st a => (act a st.1, observe a st.1 st.2)) st acts.

Definition nothing : Ghost := mkGhost (fun _ => []) (fun _ => []).

(** ** The invariant *)

Definition queue (f : fabric) : list (Scheduler.Event (Closure X)) := Scheduler.queue_ (scheduler_ f).

Definition payload_to (p : Z) (e : Scheduler.Event (Closure X)) : option (list Z) :=
  match Scheduler.callback e with
  | Some (Deliver _ p' bs) => if p' =? p then Some bs else None
  | _ => None
  end.

(** The bytes in flight towards an endpoint, first to arrive first. *)
Definition in_transit (p : Z) (f : fabric) : list Z := concat (omap (payload_to p) (queue f)).

(** What the peer of an endpoint put on the wire. *)
Definition source (g : Ghost) (ep : Endpoint H) : list Z :=
  if peer ep =? kInvalidConn then [] else wired g (peer ep).

(** Neither closed by its own node nor reset. *)
Definition live (ep : Endpoint H) : bool := open ep && negb (reset ep).

Record sched_ok (s : Scheduler.t (Closure X)) : Prop := {
  so_order : in_order Scheduler.when Scheduler.id (Scheduler.queue_ s);
  so_ids : Forall (fun e => Scheduler.id e < Scheduler.next_id_ s) (Scheduler.queue_ s);
  so_live : Scheduler.cancelled_ s = ∅ }.

Record inv (f : fabric) (g : Ghost) : Prop := {
  i_sched : sched_ok (scheduler_ f);
  i_peer : forall c ep, endpoint c f = Some ep -> peer ep <> kInvalidConn ->
    exists ep', endpoint (peer ep) f = Some ep' /\ peer ep' = c;
  i_wires : forall e c p bs, e ∈ queue f -> Scheduler.callback e = Some (Deliver c p bs) ->
    exists ep, endpoint c f = Some ep /\ peer ep = p /\ p <> kInvalidConn /\
      Scheduler.when e <= Z.max (last_delivery ep) (Scheduler.now_ (scheduler_ f));
  i_wf : forall c ep, endpoint c f = Some ep -> Buffer.wf (rx ep);
  i_stream : forall p ep, endpoint p f = Some ep ->
    (got g p ++ Buffer.slice (rx ep)) `prefix_of` source g ep /\
    (live ep = true -> source g ep = got g p ++ Buffer.slice (rx ep) ++ in_transit p f);
  i_window : forall c ep, endpoint c f = Some ep ->
    in_flight ep = zlen (in_transit (peer ep) f) /\ in_flight ep <= send_window_bytes (config_ f);
  i_absent : forall c, endpoint c f = None -> wired g c = [] /\ got g c = [];
  i_unlinked : forall c ep, endpoint c f = Some ep -> peer ep = kInvalidConn -> wired g c = [] }.

(** ** Steps that leave the streams alone *)

(** What may change on an endpoint without the streams noticing. *)
Definition calm (ep ep' : Endpoint H) : Prop :=
  rx ep' = rx ep /\ peer ep' = peer ep /\ in_flight ep' = in_flight ep /\
  last_delivery ep' = last_delivery ep /\ (live ep' = true -> live ep = true).

Record quiet (f f' : fabric) : Prop := {
  q_sched : sched_ok (scheduler_ f) -> sched_ok (scheduler_ f');
  q_deliver : forall e, e ∈ queue f' -> (exists c p bs, Scheduler.callback e = Some (Deliver c p bs)) -> e ∈ queue f;
  q_transit : forall p, omap (payload_to p) (queue f') = omap (payload_to p) (queue f);
  q_now : Scheduler.now_ (scheduler_ f) <= Scheduler.now_ (scheduler_ f');
  q_config : config_ f' = config_ f;
  q_count : zlen (endpoints_ f') = zlen (endpoints_ f);
  q_ends : forall c, option_Forall2 calm (endpoint c f) (endpoint c f') }.

Lemma calm_refl ep : calm ep ep.
Proof. done. Qed.

Lemma calm_trans a b c : calm a b -> calm b c -> calm a c.
Proof. unfold calm. intuition congruence. Qed.

Lemma quiet_refl f : quiet f f.
Proof. split; auto; [done|]. intros c. destruct (endpoint c f); by constructor. Qed.

Lemma quiet_trans f1 f2 f3 : quiet f1 f2 -> quiet f2 f3 -> quiet f1 f3.
Proof.
  intros [A1 A2 A3 A4 A5 A7 A6] [B1 B2 B3 B4 B5 B7 B6]. split; [by auto | by auto | | lia | congruence | congruence |].
  - intros p. by rewrite B3.
  - intros c. specialize (A6 c). specialize (B6 c).
    destruct A6 as [x y A|]; inversion B6 as [x' y' B|]; subst; constructor. by eapply calm_trans.
Qed.

Lemma quiet_inv f f' g : quiet f f' -> inv f g -> inv f' g.
Proof.
  intros [Q1 Q2 Q3 Q4 Q5 _ Q6] [I1 I2 I3 I4 I5 I6 I7 I8].
  assert (forall c ep', endpoint c f' = Some ep' -> exists ep, endpoint c f = Some ep /\ calm ep ep') as Hback.
  { intros c ep' E. specialize (Q6 c). rewrite E in Q6. inv Q6. eauto. }
  assert (forall c ep, endpoint c f = Some ep -> exists ep', endpoint c f' = Some ep' /\ calm ep ep') as Hforth.
  { intros c ep E. specialize (Q6 c). rewrite E in Q6. inv Q6. eauto. }
  assert (forall p, in_transit p f' = in_transit p f) as Ht by (intros; unfold in_transit; by rewrite Q3).
  split; [by auto | | | | | | |].
  - intros c ep' E Hp. destruct (Hback _ _ E) as (ep & E' & _ & Hpe & _). rewrite Hpe in *.
    destruct (I2 _ _ E' Hp) as (q & Eq & Hq). destruct (Hforth _ _ Eq) as (q' & Eq' & _ & Hq' & _).
    exists q'. split; congruence.
  - intros e c p bs He Hc. destruct (I3 e c p bs) as (ep & E & Hp & Hk & Hw); [by apply Q2; eauto | done |].
    destruct (Hforth _ _ E) as (ep' & E' & _ & Hpe & _ & Hl & _). exists ep'. rewrite Hl, Hpe.
    split_and!; [done.. | lia].
  - intros c ep' E. destruct (Hback _ _ E) as (ep & E' & Hr & _). rewrite Hr. by apply (I4 c).
  - intros c ep' E. destruct (Hback _ _ E) as (ep & E' & Hr & Hp & _ & _ & Ho).
    destruct (I5 _ _ E') as [H1 H2]. unfold source in *. rewrite Hr, Hp, Ht. auto.
  - intros c ep' E. destruct (Hback _ _ E) as (ep & E' & _ & Hp & Hf & _). rewrite Hf, Hp, Ht, Q5. by apply (I6 c).
  - intros c E. apply I7. specialize (Q6 c). rewrite E in Q6. by inv Q6.
  - intros c ep' E Hp. destruct (Hback _ _ E) as (ep & E' & _ & Hpe & _). apply (I8 c ep); congruence.
Qed.

Lemma quiet_fields f f' :
  scheduler_ f' = scheduler_ f -> config_ f' = config_ f -> endpoints_ f' = endpoints_ f -> quiet f f'.
Proof.
  intros Es Ec Ee. split; unfold queue; rewrite ?Es, ?Ee; auto; [done|].
  intros c. unfold endpoint. rewrite Ee. case_if; [constructor|]. destruct (endpoints_ f !! _); by constructor.
Qed.

Lemma quiet_record g f : quiet f (record g f).
Proof.
  split; auto; [|done|].
  - by intros [??].
  - intros c. unfold endpoint, record; fields. case_if; [constructor|]. destruct (endpoints_ f !! _); by constructor.
Qed.

Lemma endpoint_range c (f : fabric) ep :
  endpoint c f = Some ep -> 0 <= c < zlen (endpoints_ f) /\ c <> kInvalidConn.
Proof. unfold endpoint. case_if; [done|]. intros _. bool_prop. lia. Qed.

Lemma endpoint_update c h (f : fabric) c' :
  0 <= c -> endpoint c' (update c h f) = if c' =? c then h <$> endpoint c' f else endpoint c' f.
Proof.
  intros Hc. unfold endpoint, update; fields.
  assert (zlen (alter h (Z.to_nat c) (endpoints_ f)) = zlen (endpoints_ f)) as ->
    by (unfold zlen; by rewrite length_alter).
  destruct (c' =? c) eqn:E; bool_prop; case_if; try done; bool_prop.
  - subst. by rewrite list_lookup_alter_eq.
  - apply list_lookup_alter_ne. lia.
Qed.

Lemma endpoint_update_same c h (f : fabric) ep :
  endpoint c f = Some ep -> endpoint c (update c h f) = Some (h ep).
Proof.
  intros E. pose proof (endpoint_range _ _ _ E). rewrite endpoint_update, Z.eqb_refl, E by lia. done.
Qed.

Lemma quiet_update c h f : (forall ep, calm ep (h ep)) -> quiet f (update c h f).
Proof.
  intros Hh. split; auto; [done | unfold update, zlen; fields; by rewrite length_alter |]. intros c'.
  set (k := Z.max 0 c). assert (update c h f = update k h f) as ->.
  { unfold update, k. by replace (Z.to_nat (Z.max 0 c)) with (Z.to_nat c) by lia. }
  rewrite endpoint_update by lia. destruct (_ =? _), (endpoint c' f); constructor; [apply Hh | apply calm_refl].
Qed.

Lemma sched_push s at_ g c : sched_ok s -> sched_ok (Scheduler.schedule_at at_ g c s).2.
Proof.
  intros [H1 H2 H3]. split; cbn; [|apply Forall_push; [cbn; lia|] |done].
  - apply push_in_order; [done|]. eapply Forall_impl; [exact H2|]. cbn; lia.
  - eapply Forall_impl; [exact H2|]. cbn; lia.
Qed.

Lemma quiet_schedule_at at_ g c f : (forall a p bs, c <> Deliver a p bs) -> quiet f (schedule_at at_ g c f).
Proof.
  intros Hc. split; [apply sched_push | | | done | done | done |].
  - intros e [->|He]%elem_of_push (a & p & bs & E); [|done]. cbn in E. injection E. intros E'. by destruct (Hc a p bs).
  - intros p. apply omap_push_other. unfold payload_to. cbn. destruct c; try done. by destruct (Hc conn peer_id payload).
  - intros c'. unfold endpoint, schedule_at; fields. case_if; [constructor|]. destruct (endpoints_ f !! _); by constructor.
Qed.

Lemma quiet_schedule_after delay g c f : (forall a p bs, c <> Deliver a p bs) -> quiet f (schedule_after delay g c f).
Proof. apply quiet_schedule_at. Qed.

Lemma quiet_cut a b f : quiet f (cut a b f).
Proof.
  unfold cut. do 2 (case_if; [apply quiet_refl|]). cbv zeta.
  eapply quiet_trans; [|by apply quiet_schedule_after]. eapply quiet_trans; [|apply quiet_record]. by apply quiet_fields.
Qed.

Lemma quiet_heal a b f : quiet f (heal a b f).
Proof.
  unfold heal. case_if; [apply quiet_refl|]. eapply quiet_trans; [|apply quiet_record]. by apply quiet_fields.
Qed.

Lemma quiet_fold {A} (h : fabric -> A -> fabric) l f : (forall f a, quiet f (h f a)) -> quiet f (foldl h f l).
Proof.
  intros Hh. revert f. induction l as [|a l IH]; intros f; [apply quiet_refl|]. cbn. by eapply quiet_trans.
Qed.

Lemma quiet_reset_endpoint c tell f : (forall p f, quiet f (tell p f)) -> quiet f (reset_endpoint c tell f).
Proof.
  intros Ht. unfold reset_endpoint. destruct (endpoint c f) as [ep|] eqn:E; [|apply quiet_refl].
  case_if; [apply quiet_refl|]. cbv zeta. eapply quiet_trans; [|apply Ht]. eapply quiet_trans; [|apply quiet_record].
  eapply quiet_trans; [by apply (quiet_update c (fun ep => ep <| reset := true |> <| open := false |>))|by apply quiet_fields].
Qed.

Lemma quiet_reset c notify f : quiet f (reset_connection c notify f).
Proof.
  apply quiet_reset_endpoint. intros p f'. case_if; [|apply quiet_refl].
  apply quiet_reset_endpoint. intros. apply quiet_refl.
Qed.

Lemma quiet_cut_timeout a b f : quiet f (cut_timeout a b f).
Proof.
  unfold cut_timeout. case_if; [apply quiet_refl|]. destruct (_ !! _); [|apply quiet_refl].
  apply quiet_fold. intros f' c. destruct (endpoint c f') as [ep|]; [|apply quiet_refl].
  case_if; [apply quiet_refl|]. destruct (endpoint (peer ep) f'); [|apply quiet_refl].
  case_if; [apply quiet_refl | apply quiet_reset].
Qed.

Lemma quiet_arrive l c f : quiet f (arrive l c f).
Proof.
  unfold arrive. destruct (endpoint l f) as [ep|] eqn:E; [|apply quiet_reset]. case_if; [apply quiet_reset|].
  destruct (endpoint c f); [|apply quiet_refl]. case_if; [apply quiet_refl|].
  by apply quiet_update.
Qed.

Lemma quiet_close n c f : quiet f (SimNetwork.close n c f).
Proof.
  unfold SimNetwork.close. destruct (endpoint c f) as [ep|] eqn:E; [|apply quiet_refl].
  case_if; [apply quiet_refl|]. cbv zeta. eapply quiet_trans; [|by apply quiet_update].
  case_if.
  - eapply quiet_trans; [|apply quiet_fold; intros; apply quiet_reset].
    eapply quiet_trans; [|by apply quiet_update]. by apply quiet_fields.
  - case_if; [|apply quiet_refl]. destruct (endpoint (peer ep) f) eqn:Ep; [|apply quiet_refl].
    by apply quiet_update.
Qed.

Lemma quiet_kill n f : quiet f (kill_node_connections n f).
Proof.
  unfold kill_node_connections. destruct (_ !! _) as [ids|]; [|apply quiet_refl]. cbv zeta.
  set (f1 := foldl _ f ids). set (f2 := foldl _ f1 ids). eapply (quiet_trans _ f2); [|by apply quiet_fields].
  eapply (quiet_trans _ f1); [|apply quiet_fold; intros; by apply quiet_update].
  apply quiet_fold. intros f' c. destruct (endpoint c f') as [ep|]; [|apply quiet_refl].
  case_if; [|apply quiet_reset]. eapply quiet_trans; [|by apply quiet_update]. by apply quiet_fields.
Qed.

Lemma quiet_accept n l f : quiet f (SimNetwork.accept n l f).2.
Proof.
  unfold SimNetwork.accept. destruct (endpoint l f) as [ep|]; [|apply quiet_refl]. case_if; [apply quiet_refl|].
  destruct (backlog ep); [apply quiet_refl|]. by apply quiet_update.
Qed.

Lemma quiet_watch n c i h f : quiet f (SimNetwork.watch n c i h f).
Proof.
  unfold SimNetwork.watch. destruct (endpoint c f) as [ep|]; [|apply quiet_refl]. case_if; [apply quiet_refl|].
  by apply quiet_update.
Qed.

Lemma quiet_heal_all f : quiet f (heal_all f).
Proof. apply quiet_fold. intros. apply quiet_heal. Qed.

Lemma quiet_advance at_ f : quiet f (f <| scheduler_ := Scheduler.advance_to at_ (scheduler_ f) |>).
Proof.
  rewrite advance_max. split; [| done | done | cbn; lia | done | done |].
  - by intros [???].
  - intros c. unfold endpoint; fields. case_if; [constructor|]. destruct (endpoints_ f !! _); by constructor.
Qed.

(** ** New endpoints *)

Lemma wires_linked f g e c p bs : inv f g -> e ∈ queue f -> Scheduler.callback e = Some (Deliver c p bs) ->
  exists ep ep', endpoint c f = Some ep /\ peer ep = p /\ endpoint p f = Some ep' /\ peer ep' = c.
Proof.
  intros I He Ec. destruct (i_wires _ _ I e c p bs He Ec) as (ep & E & Hp & Hk & _).
  destruct (i_peer _ _ I c ep E) as (ep' & E' & Hp'); [congruence|]. rewrite Hp in E'. eauto 6.
Qed.

(** Nothing is in flight to an endpoint that has no peer. *)
Lemma transit_unlinked f g p : inv f g ->
  (forall ep, endpoint p f = Some ep -> peer ep = kInvalidConn) -> in_transit p f = [].
Proof.
  intros I Hp. unfold in_transit.
  assert (forall e, e ∈ queue f -> payload_to p e = None) as Hno.
  { intros e He. unfold payload_to. destruct (Scheduler.callback e) as [[c p' bs| | |]|] eqn:Ec; try done.
    destruct (p' =? p) eqn:E; bool_prop; [subst p'|done].
    destruct (wires_linked _ _ _ _ _ _ I He Ec) as (ep & ep' & E1 & _ & E2 & E3).
    apply endpoint_range in E1 as [_ E1]. rewrite (Hp ep') in E3 by done. congruence. }
  clear -Hno. induction (queue f) as [|e q IH]; [done|]. rewrite omap_step, (Hno e) by by left.
  apply IH. intros e' He'. apply Hno. by right.
Qed.

Lemma endpoint_new n (f : fabric) c : zlen (endpoints_ f) < kInvalidConn ->
  endpoint c (new_endpoint n f).2 = if c =? zlen (endpoints_ f) then Some (fresh n) else endpoint c f.
Proof.
  intros Hlen. pose proof (zlen_nonneg (endpoints_ f)) as H0. unfold new_endpoint, endpoint; fields.
  rewrite zlen_app, zlen_cons, zlen_nil.
  destruct (c =? zlen (endpoints_ f)) eqn:E; bool_prop.
  - subst. rewrite !(proj2 (Z.eqb_neq _ _)) by lia. rewrite (proj2 (Z.leb_gt _ _)), (proj2 (Z.ltb_ge _ _)) by lia.
    cbn. unfold zlen. rewrite Nat2Z.id. by rewrite lookup_app_r, Nat.sub_diag by lia.
  - destruct (c =? kInvalidConn); [done|]. cbn. destruct (zlen (endpoints_ f) <=? c) eqn:E1; bool_prop.
    + replace (zlen (endpoints_ f) + (1 + 0) <=? c) with true by (symmetry; apply Z.leb_le; lia). done.
    + replace (zlen (endpoints_ f) + (1 + 0) <=? c) with false by (symmetry; apply Z.leb_gt; lia). cbn.
      destruct (c <? 0) eqn:E2; bool_prop; [done|]. apply lookup_app_l. unfold zlen in E1. lia.
Qed.

Lemma new_endpoint_inv n f g :
  inv f g -> zlen (endpoints_ f) < kInvalidConn -> 0 <= send_window_bytes (config_ f) ->
  inv (new_endpoint n f).2 g.
Proof.
  intros I Hlen Hw. pose proof (fun c => endpoint_new n f c Hlen) as Hnew.
  set (k := zlen (endpoints_ f)) in *. set (f' := (new_endpoint n f).2) in *.
  assert (endpoint k f = None) as Hk.
  { unfold endpoint. replace (zlen _ <=? k) with true by (symmetry; apply Z.leb_le; lia). by rewrite orb_true_r. }
  assert (forall p, in_transit p f' = in_transit p f) as Ht by done.
  assert (in_transit kInvalidConn f = []) as Hti.
  { apply (transit_unlinked f g _ I). intros ep E. by apply endpoint_range in E as [_ ?]. }
  destruct (i_absent _ _ I k Hk) as [Hwk Hgk]. pose proof I as [I1 I2 I3 I4 I5 I6 I7 I8].
  split; [done | | | | | | |].
  - intros c ep. rewrite Hnew. destruct (c =? k); [by intros [= <-]|]. intros E Hp.
    destruct (I2 c ep E Hp) as (ep' & E' & Hp'). exists ep'. rewrite Hnew.
    destruct (peer ep =? k) eqn:Epk; bool_prop; [congruence | done].
  - intros e c p bs He Ec. destruct (I3 e c p bs He Ec) as (ep & E & ?). exists ep. rewrite Hnew.
    destruct (c =? k) eqn:Eck; bool_prop; [congruence | done].
  - intros c ep. rewrite Hnew. destruct (c =? k); [by intros [= <-] | by apply I4].
  - intros c ep. rewrite Hnew. destruct (c =? k) eqn:Eck; bool_prop; [|rewrite Ht; by apply I5].
    intros [= <-]. subst c. unfold source; cbn. rewrite Hgk, Ht. split; [done|]. intros _.
    rewrite (transit_unlinked f g k I); [done|]. intros ep E. congruence.
  - intros c ep. rewrite Hnew. destruct (c =? k); [|by apply I6]. intros [= <-]. cbn. by rewrite Ht, Hti.
  - intros c. rewrite Hnew. destruct (c =? k); [done | by apply I7].
  - intros c ep. rewrite Hnew. destruct (c =? k) eqn:Eck; bool_prop; [by subst | by apply I8].
Qed.

(** An endpoint without a peer has neither sent nor received. *)
Lemma unlinked_empty f g c ep : inv f g -> endpoint c f = Some ep -> peer ep = kInvalidConn ->
  wired g c = [] /\ got g c = [] /\ Buffer.slice (rx ep) = [] /\ in_flight ep = 0 /\ in_transit c f = [].
Proof.
  intros I E Hp. destruct (i_stream _ _ I c ep E) as [Hs _]. unfold source in Hs. rewrite Hp in Hs. cbn in Hs.
  apply prefix_nil_inv, app_nil in Hs as [Hg Hr]. destruct (i_window _ _ I c ep E) as [Hf _]. rewrite Hp in Hf.
  split_and!; [by apply (i_unlinked _ _ I c ep) | done | done | |].
  - rewrite Hf, (transit_unlinked f g kInvalidConn I); [done|]. intros ep' E'. by apply endpoint_range in E' as [_ ?].
  - apply (transit_unlinked f g c I). intros ep' E'. congruence.
Qed.

Definition link (client server port_ : Z) (f : fabric) : fabric :=
  update server (fun ep => ep <| peer := client |> <| port := port_ |>)
    (update client (fun ep => ep <| peer := server |> <| port := port_ |>) f).

Lemma link_inv client server port_ f g epc eps :
  inv f g -> client <> server ->
  endpoint client f = Some epc -> peer epc = kInvalidConn ->
  endpoint server f = Some eps -> peer eps = kInvalidConn ->
  inv (link client server port_ f) g.
Proof.
  intros I Hne Ec Hc Es Hs.
  pose proof (endpoint_range _ _ _ Ec) as [Rc Kc]. pose proof (endpoint_range _ _ _ Es) as [Rs Ks].
  destruct (unlinked_empty f g client epc I Ec Hc) as (Wc & Gc & Bc & Fc & Tc).
  destruct (unlinked_empty f g server eps I Es Hs) as (Ws & Gs & Bs & Fs & Ts).
  set (epc' := epc <| peer := server |> <| port := port_ |>).
  set (eps' := eps <| peer := client |> <| port := port_ |>).
  assert (forall c, endpoint c (link client server port_ f) =
    if c =? client then Some epc' else if c =? server then Some eps' else endpoint c f) as Hl.
  { intros c. unfold link. rewrite !endpoint_update by lia.
    destruct (c =? server) eqn:E1; destruct (c =? client) eqn:E2; bool_prop; subst; [done| | |done].
    - by rewrite Es.
    - by rewrite Ec. }
  pose proof I as [I1 I2 I3 I4 I5 I6 I7 I8].
  assert (forall p, in_transit p (link client server port_ f) = in_transit p f) as Ht by done.
  assert (forall c ep, endpoint c (link client server port_ f) = Some ep ->
    c = client /\ ep = epc' \/ c = server /\ ep = eps' \/ c <> client /\ c <> server /\ endpoint c f = Some ep) as Hcase.
  { intros c ep. rewrite Hl. destruct (c =? client) eqn:E1; [bool_prop; intros [= <-]; auto|].
    destruct (c =? server) eqn:E2; bool_prop; [intros [= <-]|]; auto 6. }
  assert (endpoint client (link client server port_ f) = Some epc') as Ec' by by rewrite Hl, Z.eqb_refl.
  assert (endpoint server (link client server port_ f) = Some eps') as Es'.
  { rewrite Hl, Z.eqb_refl. by destruct (server =? client) eqn:?; bool_prop. }
  split; [done | | | | | | |].
  - intros c ep [[-> ->]|[[-> ->]|(H1 & H2 & E)]]%Hcase Hp; [by exists eps' | by exists epc' |].
    destruct (I2 c ep E Hp) as (ep' & E' & Hp'). exists ep'. rewrite Hl.
    destruct (peer ep =? client) eqn:E1; bool_prop.
    { rewrite E1, Ec in E'. simplify_eq. by rewrite Hc in *. }
    destruct (peer ep =? server) eqn:E2; bool_prop; [|done].
    rewrite E2, Es in E'. simplify_eq. by rewrite Hs in *.
  - intros e c p bs He Ecb. destruct (I3 e c p bs He Ecb) as (ep & E & Hp & Hk & Hw). rewrite Hl.
    destruct (c =? client) eqn:E1; bool_prop; [subst c; rewrite Ec in E; simplify_eq; congruence|].
    destruct (c =? server) eqn:E2; bool_prop; [subst c; rewrite Es in E; simplify_eq; congruence|]. eauto.
  - intros c ep [[-> ->]|[[-> ->]|(H1 & H2 & E)]]%Hcase; [by apply (I4 client epc) | by apply (I4 server eps) | by apply (I4 c)].
  - intros c ep [[-> ->]|[[-> ->]|(H1 & H2 & E)]]%Hcase; rewrite Ht; [| |by apply I5].
    + unfold source; cbn. rewrite Gc, Bc, Tc, Ws. by destruct (_ =? _).
    + unfold source; cbn. rewrite Gs, Bs, Ts, Wc. by destruct (_ =? _).
  - intros c ep [[-> ->]|[[-> ->]|(H1 & H2 & E)]]%Hcase; rewrite Ht; [| |by apply (I6 c)].
    + cbn. rewrite Ts. destruct (I6 _ _ Ec). by rewrite Fc in *.
    + cbn. rewrite Tc. destruct (I6 _ _ Es). by rewrite Fs in *.
  - intros c. rewrite Hl. destruct (c =? client); [done|]. destruct (c =? server); [done|]. apply I7.
  - intros c ep [[-> ->]|[[-> ->]|(H1 & H2 & E)]]%Hcase; [done | done | by apply I8].
Qed.

(** ** The streams *)

Lemma extend_same m c bs : extend m c bs c = m c ++ bs.
Proof. unfold extend. by rewrite Z.eqb_refl. Qed.

Lemma extend_other m c bs c' : c' <> c -> extend m c bs c' = m c'.
Proof. intros Hn. unfold extend. by destruct (c' =? c) eqn:?; bool_prop. Qed.

(** A step that keeps the peers keeps everything that is said about peers only. *)
Record same_peers (f f' : fabric) : Prop := {
  sp_back : forall c ep', endpoint c f' = Some ep' -> exists ep, endpoint c f = Some ep /\ peer ep' = peer ep;
  sp_forth : forall c ep, endpoint c f = Some ep -> exists ep', endpoint c f' = Some ep' /\ peer ep' = peer ep }.

Lemma same_peers_update c h f :
  (forall ep, peer (h ep) = peer ep) -> 0 <= c -> same_peers f (update c h f).
Proof.
  intros Hh Hc. split; intros c' ep; rewrite endpoint_update by done; destruct (c' =? c).
  - destruct (endpoint c' f) as [ep0|]; [|done]. intros [= <-]. eauto.
  - eauto.
  - intros ->. cbn. eauto.
  - eauto.
Qed.

Lemma same_peers_trans f1 f2 f3 : same_peers f1 f2 -> same_peers f2 f3 -> same_peers f1 f3.
Proof.
  intros [A1 A2] [B1 B2]. split; intros c ep E.
  - destruct (B1 _ _ E) as (ep2 & E2 & ->). by apply A1.
  - destruct (A2 _ _ E) as (ep2 & E2 & <-). by apply B2.
Qed.

Lemma same_peers_fields f f' : endpoints_ f' = endpoints_ f -> same_peers f f'.
Proof. intros E. split; intros c ep; unfold endpoint; rewrite E; eauto. Qed.

Lemma same_peers_peer f f' g : same_peers f f' -> inv f g ->
  forall c ep, endpoint c f' = Some ep -> peer ep <> kInvalidConn ->
    exists ep', endpoint (peer ep) f' = Some ep' /\ peer ep' = c.
Proof.
  intros [H1 H2] I c ep' E Hp. destruct (H1 _ _ E) as (ep & E' & Hpe). rewrite Hpe in *.
  destruct (i_peer _ _ I _ _ E' Hp) as (q & Eq & Hq). destruct (H2 _ _ Eq) as (q' & Eq' & Hq').
  exists q'. split; congruence.
Qed.

Lemma same_peers_none f f' c : same_peers f f' -> endpoint c f' = None -> endpoint c f = None.
Proof.
  intros [_ H2] E. destruct (endpoint c f) as [ep|] eqn:E'; [|done]. destruct (H2 _ _ E') as (? & ? & _). congruence.
Qed.

(** Reading moves bytes from the buffer to the reader. *)
Lemma read_inv f g c ep n :
  inv f g -> endpoint c f = Some ep -> 0 <= n <= Buffer.size (rx ep) ->
  inv (update c (fun ep => ep <| rx := Buffer.consume (rx ep) n |>) f)
    (mkGhost (wired g) (extend (got g) c (ztake n (Buffer.slice (rx ep))))).
Proof.
  intros I E Hn. pose proof (endpoint_range _ _ _ E) as [Hc _].
  destruct (consume_spec (rx ep) n (i_wf _ _ I c ep E) Hn) as (Hwf & Hsl & _).
  set (h := fun ep => ep <| rx := Buffer.consume (rx ep) n |>). fold h.
  assert (same_peers f (update c h f)) as Hsp by (apply same_peers_update; [done | lia]).
  assert (forall c' ep', endpoint c' (update c h f) = Some ep' ->
    c' = c /\ ep' = h ep \/ c' <> c /\ endpoint c' f = Some ep') as Hcase.
  { intros c' ep'. rewrite endpoint_update by lia. destruct (c' =? c) eqn:E1; bool_prop; [|by right].
    subst. rewrite E. intros [= <-]. by left. }
  assert (forall p, in_transit p (update c h f) = in_transit p f) as Ht by done.
  split; [apply I | by eapply same_peers_peer | | | | | |].
  - intros e c' p bs He Ecb. destruct (i_wires _ _ I e c' p bs He Ecb) as (ep0 & E0 & Hp).
    destruct (decide (c' = c)) as [->|Hne].
    + exists (h ep). rewrite (endpoint_update_same _ _ _ _ E). by simplify_eq.
    + exists ep0. rewrite endpoint_update by lia. by destruct (c' =? c) eqn:?; bool_prop.
  - intros c' ep' [[-> ->]|[_ E']]%Hcase; [done | by apply (i_wf _ _ I c')].
  - intros c' ep' [[-> ->]|[Hne E']]%Hcase; cbn [got]; rewrite Ht.
    + destruct (i_stream _ _ I c ep E) as [H1 H2]. rewrite extend_same. unfold source in *; cbn [h peer rx live wired] in *.
      fields. rewrite Hsl, <- !app_assoc, (app_assoc (ztake n _)), ztake_zdrop. auto.
    + rewrite extend_other by done. by apply (i_stream _ _ I c').
  - intros c' ep' [[-> ->]|[Hne E']]%Hcase; rewrite Ht; [by apply (i_window _ _ I c ep) | by apply (i_window _ _ I c')].
  - intros c' E'. apply (same_peers_none f) in E'; [|done]. cbn [wired got]. rewrite extend_other by congruence.
    by apply (i_absent _ _ I).
  - intros c' ep' [[-> ->]|[Hne E']]%Hcase; [by apply (i_unlinked _ _ I c ep) | by apply (i_unlinked _ _ I c')].
Qed.

(** Writing puts a delivery behind the ones already in flight to the peer. *)
Definition wire (c p at_ n : Z) (tag : EventTag) (bs : list Z) (f : fabric) : fabric :=
  schedule_at at_ tag (Deliver c p bs)
    (update c (fun ep => ep <| last_delivery := at_ |> <| in_flight := in_flight ep + n |>) f).

Lemma transit_wire f g c ep at_ n tag bs p' :
  inv f g -> endpoint c f = Some ep -> peer ep <> kInvalidConn -> last_delivery ep <= at_ ->
  in_transit p' (wire c (peer ep) at_ n tag bs f) = in_transit p' f ++ (if p' =? peer ep then bs else []).
Proof.
  intros I E Hp Hat. destruct (i_peer _ _ I c ep E Hp) as (epp & Epp & Hpp).
  unfold in_transit, queue, wire; fields. set (ev := Scheduler.mkEv _ _ _ _).
  destruct (i_sched _ _ I) as [S1 S2 _].
  assert (Forall (fun f => Scheduler.id f <> Scheduler.id ev) (Scheduler.queue_ (scheduler_ f))) as Hne.
  { eapply Forall_impl; [exact S2|]. cbn; lia. }
  destruct (p' =? peer ep) eqn:E1; bool_prop.
  - subst p'. rewrite (omap_push _ _ _ ev bs); [|done|done| |].
    + rewrite concat_app. cbn. by rewrite app_nil_r.
    + unfold payload_to; cbn. by rewrite Z.eqb_refl.
    + intros e He Hpay. unfold payload_to in Hpay.
      destruct (Scheduler.callback e) as [[c2 p2 bs2| | |]|] eqn:Ecb; try by destruct Hpay.
      destruct (p2 =? peer ep) eqn:E2; [bool_prop; subst p2|by destruct Hpay].
      destruct (wires_linked _ _ _ _ _ _ I He Ecb) as (_ & ep3 & _ & _ & E3 & Hp3).
      assert (c2 = c) as -> by (rewrite Epp in E3; simplify_eq; congruence).
      destruct (i_wires _ _ I _ _ _ _ He Ecb) as (ep4 & E4 & _ & _ & Hw). rewrite E in E4. simplify_eq.
      rewrite Forall_forall in S2. specialize (S2 e He). cbn. rewrite clamp_max. cbn in S2. lia.
  - rewrite app_nil_r, omap_push_other; [done|]. unfold payload_to; cbn.
    destruct (peer ep =? p') eqn:E2; bool_prop; congruence.
Qed.

(** Peers are paired: an endpoint whose peer is [c] is the peer of [c]. *)
Lemma paired f g c ep p epp : inv f g -> endpoint c f = Some ep -> endpoint p f = Some epp -> peer epp = c -> peer ep = p.
Proof.
  intros I E Ep Hp. pose proof (endpoint_range _ _ _ E) as [_ Hk].
  destruct (i_peer _ _ I p epp Ep) as (ep' & E' & Hp'); [congruence|]. rewrite Hp, E in E'. by simplify_eq.
Qed.

Lemma wire_inv f g c ep at_ n tag bs :
  inv f g -> endpoint c f = Some ep -> peer ep <> kInvalidConn -> last_delivery ep <= at_ ->
  n = zlen bs -> in_flight ep + n <= send_window_bytes (config_ f) ->
  inv (wire c (peer ep) at_ n tag bs f) (mkGhost (extend (wired g) c bs) (got g)).
Proof.
  intros I E Hp Hat -> Hwin. pose proof (endpoint_range _ _ _ E) as [Hc Hck].
  pose proof (fun p' => transit_wire f g c ep at_ (zlen bs) tag bs p' I E Hp Hat) as Ht.
  set (h := fun ep : Endpoint H => ep <| last_delivery := at_ |> <| in_flight := in_flight ep + zlen bs |>).
  set (f' := wire c (peer ep) at_ (zlen bs) tag bs f) in *.
  assert (same_peers f f') as Hsp.
  { eapply same_peers_trans; [apply (same_peers_update c h); [done | lia]|]. by apply same_peers_fields. }
  assert (forall c' ep', endpoint c' f' = Some ep' ->
    c' = c /\ ep' = h ep \/ c' <> c /\ endpoint c' f = Some ep') as Hcase.
  { intros c' ep'. change (endpoint c' f') with (endpoint c' (update c h f)).
    rewrite endpoint_update by lia. destruct (c' =? c) eqn:E1; bool_prop; [|by right].
    subst. rewrite E. intros [= <-]. by left. }
  assert (endpoint c f' = Some (h ep)) as Ec' by exact (endpoint_update_same c h f ep E).
  split; [apply sched_push, I | by eapply same_peers_peer | | | | | |].
  - intros e c' p bs' [->|He]%elem_of_push Ecb.
    + cbn in Ecb. injection Ecb as <- <- <-. exists (h ep). split_and!; [done | done | done |].
      cbn. rewrite clamp_max. cbn. lia.
    + destruct (i_wires _ _ I e c' p bs' He Ecb) as (ep0 & E0 & H1 & H2 & H3).
      destruct (decide (c' = c)) as [->|Hne].
      * exists (h ep). simplify_eq. split_and!; [done.. |]. cbn in *. lia.
      * exists ep0. change (endpoint c' f') with (endpoint c' (update c h f)).
        rewrite endpoint_update by lia. by destruct (c' =? c) eqn:?; bool_prop.
  - intros c' ep' [[-> ->]|[_ E']]%Hcase; [by apply (i_wf _ _ I c ep) | by apply (i_wf _ _ I c')].
  - intros c' ep' E'. destruct (sp_back _ _ Hsp _ _ E') as (ep0 & E0 & Hp0).
    assert (rx ep' = rx ep0 /\ live ep' = live ep0) as [Hr Ho].
    { destruct (Hcase _ _ E') as [[-> ->]|[_ E'']]; by simplify_eq. }
    destruct (i_stream _ _ I c' ep0 E0) as [H1 H2]. unfold source in *. rewrite Hr, Ho, Hp0, Ht. cbn [got wired].
    destruct (peer ep0 =? kInvalidConn) eqn:Ek; bool_prop.
    + split; [done|]. intros Hl. specialize (H2 Hl). destruct (c' =? peer ep) eqn:E1; bool_prop; [|by rewrite app_nil_r].
      destruct (i_peer _ _ I c ep E Hp) as (epp & Epp & Hpp). subst c'. rewrite E0 in Epp. simplify_eq.
    + destruct (decide (peer ep0 = c)) as [Hpc|Hpc].
      * rewrite Hpc, extend_same in *. rewrite (paired f g c ep c' ep0), Z.eqb_refl by done.
        split; [by apply prefix_app_r|]. intros Hl. by rewrite (H2 Hl), <- !app_assoc.
      * rewrite extend_other by done. replace (c' =? peer ep) with false; [by rewrite app_nil_r|].
        symmetry. apply Z.eqb_neq. intros ->. destruct (i_peer _ _ I c ep E Hp) as (epp & Epp & Hpp).
        rewrite E0 in Epp. by simplify_eq.
  - intros c' ep' [[-> ->]|[Hne E']]%Hcase; rewrite Ht.
    + cbn [h peer in_flight]. fields. rewrite Z.eqb_refl, zlen_app. destruct (i_window _ _ I c ep E) as [-> _].
      destruct (i_window _ _ I c ep E) as [E1 _]. rewrite <- E1. split; [done|]. cbn. lia.
    + destruct (i_window _ _ I c' ep' E') as [H1 H2]. split; [|done].
      destruct (peer ep' =? peer ep) eqn:E1; bool_prop; [|by rewrite app_nil_r].
      destruct (i_peer _ _ I c ep E Hp) as (epp & Epp & Hpp). rewrite <- E1 in Hp, Epp.
      destruct (i_peer _ _ I c' ep' E' Hp) as (epp' & Epp' & Hpp'). rewrite Epp in Epp'. by simplify_eq.
  - intros c' E'. apply (same_peers_none f) in E'; [|done]. cbn [wired got]. rewrite extend_other by congruence.
    by apply (i_absent _ _ I).
  - intros c' ep' [[-> ->]|[Hne E']]%Hcase Hk; cbn [wired].
    + by cbn in Hk.
    + rewrite extend_other by done. by apply (i_unlinked _ _ I c' ep').
Qed.

(** A scheduler that has taken its first event off the queue. *)
Record popped (e : Scheduler.Event (Closure X)) (s s' : Scheduler.t (Closure X)) : Prop := {
  pop_queue : Scheduler.queue_ s = e :: Scheduler.queue_ s';
  pop_ids : Scheduler.next_id_ s' = Scheduler.next_id_ s;
  pop_live : Scheduler.cancelled_ s' = Scheduler.cancelled_ s;
  pop_now : Scheduler.now_ s <= Scheduler.now_ s' }.

Lemma popped_ok e s s' : popped e s s' -> sched_ok s -> sched_ok s'.
Proof.
  intros [P1 P2 P3 P4] [S1 S2 S3]. rewrite P1 in *. apply Forall_cons in S2 as [_ S2].
  split; [by inv S1 | by rewrite P2 | congruence].
Qed.

Definition first_payload (p : Z) (e : Scheduler.Event (Closure X)) : list Z := default [] (payload_to p e).

Lemma transit_popped e s' f p : popped e (scheduler_ f) s' ->
  in_transit p f = first_payload p e ++ in_transit p (f <| scheduler_ := s' |>).
Proof.
  intros [P _ _ _]. unfold in_transit, queue; fields. rewrite P, omap_step. unfold first_payload.
  by destruct (payload_to p e).
Qed.

Lemma quiet_popped e s' f : popped e (scheduler_ f) s' ->
  (forall c p bs, Scheduler.callback e <> Some (Deliver c p bs)) -> quiet f (f <| scheduler_ := s' |>).
Proof.
  intros P Hno. pose proof P as [P1 P2 P3 P4]. split; [by apply (popped_ok e) | | | done | done | done |].
  - intros e' He _. unfold queue. rewrite P1. by right.
  - intros p. unfold queue; fields. rewrite P1, omap_step.
    destruct (payload_to p e) eqn:E; [|done]. unfold payload_to in E. destruct (Scheduler.callback e) as [[]|] eqn:Ec; try done.
    by destruct (Hno conn peer_id payload).
  - intros c. unfold endpoint; fields. case_if; [constructor|]. destruct (endpoints_ f !! _); by constructor.
Qed.

(** What a delivery does to the endpoints. *)
Lemma deliver_ends f c p bs ep : endpoint c f = Some ep -> 0 <= p -> zlen bs <= in_flight ep ->
  (forall c' ep', endpoint c' (deliver c p bs f) = Some ep' ->
    exists ep0, endpoint c' f = Some ep0 /\ peer ep' = peer ep0 /\ live ep' = live ep0 /\
      last_delivery ep' = last_delivery ep0 /\
      in_flight ep' = (if c' =? c then in_flight ep0 - zlen bs else in_flight ep0) /\
      rx ep' = (if (c' =? p) && live ep0 then Buffer.append (rx ep0) bs else rx ep0)) /\
  same_peers f (deliver c p bs f) /\
  scheduler_ (deliver c p bs f) = scheduler_ f /\ config_ (deliver c p bs f) = config_ f.
Proof.
  intros E Hp Hf. pose proof (endpoint_range _ _ _ E) as [Hc _]. unfold deliver. rewrite E. cbv zeta.
  set (h := fun src : Endpoint H => src <| in_flight := _ |>).
  assert (h ep = ep <| in_flight := in_flight ep - zlen bs |>) as Hh.
  { unfold h. by destruct (in_flight ep <? zlen bs) eqn:?; bool_prop; [lia|]. }
  assert (forall c', endpoint c' (update c h f) = if c' =? c then Some (h ep) else endpoint c' f) as He.
  { intros c'. rewrite endpoint_update by lia. destruct (c' =? c) eqn:E1; bool_prop; [subst; by rewrite E | done]. }
  assert (same_peers f (update c h f)) as Hsp by (apply same_peers_update; [done | lia]).
  assert (forall c' ep', endpoint c' (update c h f) = Some ep' ->
    exists ep0, endpoint c' f = Some ep0 /\ peer ep' = peer ep0 /\ live ep' = live ep0 /\
      last_delivery ep' = last_delivery ep0 /\
      in_flight ep' = (if c' =? c then in_flight ep0 - zlen bs else in_flight ep0) /\ rx ep' = rx ep0) as H1.
  { intros c' ep'. rewrite He. destruct (c' =? c) eqn:E1; bool_prop; [|by intros; exists ep'].
    intros [= <-]. exists ep. subst. by rewrite Hh. }
  set (f1 := update c h f) in *.
  assert (forall b c', endpoint c' (f1 <| bytes_dropped_ := b |>) = endpoint c' f1) as Hb by done.
  assert (forall (f2 : fabric) b c', endpoint c' (f2 <| bytes_delivered_ := b |>) = endpoint c' f2) as Hb' by done.
  destruct (endpoint p f1) as [dst|] eqn:Ep; [destruct (reset dst || negb (open dst)) eqn:Ed|].
  2: { split; [|split; [|done]].
    - intros c' ep'. rewrite Hb', endpoint_update by done. destruct (c' =? p) eqn:E1; bool_prop.
      + subst c'. rewrite Ep. intros [= <-]. destruct (H1 _ _ Ep) as (ep0 & E0 & A1 & A2 & A3 & A4 & A5).
        exists ep0. rewrite <- A2. unfold live. destruct (reset dst), (open dst); try done. cbn. by rewrite A5.
      + apply H1.
    - eapply same_peers_trans; [exact Hsp|]. set (k := fun dst => dst <| rx := Buffer.append (rx dst) bs |>).
      eapply same_peers_trans; [by apply (same_peers_update p k)|]. by apply same_peers_fields. }
  - split; [|split; [|done]]; [|by eapply same_peers_trans; [exact Hsp | apply same_peers_fields]].
    intros c' ep'. rewrite Hb. intros E'. destruct (H1 _ _ E') as (ep0 & E0 & A1 & A2 & A3 & A4 & A5).
    exists ep0. split_and!; try done. destruct (c' =? p) eqn:E1; bool_prop; [subst c'|done].
    rewrite Ep in E'. simplify_eq. rewrite <- A2. unfold live. by destruct (reset ep'), (open ep').
  - split; [|split; [|done]]; [|by eapply same_peers_trans; [exact Hsp | apply same_peers_fields]].
    intros c' ep'. rewrite Hb. intros E'. destruct (H1 _ _ E') as (ep0 & E0 & A1 & A2 & A3 & A4 & A5).
    exists ep0. split_and!; try done. destruct (c' =? p) eqn:E1; bool_prop; [congruence | done].
Qed.

Lemma deliver_inv f g e s' c p bs :
  inv f g -> popped e (scheduler_ f) s' -> Scheduler.callback e = Some (Deliver c p bs) ->
  inv (deliver c p bs (f <| scheduler_ := s' |>)) g.
Proof.
  intros I P Ecb. assert (e ∈ queue f) as He by (unfold queue; rewrite (pop_queue _ _ _ P); by left).
  destruct (wires_linked _ _ _ _ _ _ I He Ecb) as (ep & epp & E & Hp & Epp & Hpp).
  pose proof (endpoint_range _ _ _ E) as [_ Hck]. pose proof (endpoint_range _ _ _ Epp) as [Hp0 Hpk].
  pose proof (fun p' => transit_popped e s' f p' P) as Ht.
  assert (forall p', first_payload p' e = if p' =? p then bs else []) as Hfp.
  { intros p'. unfold first_payload, payload_to. rewrite Ecb, Z.eqb_sym. by destruct (p' =? p). }
  set (f1 := f <| scheduler_ := s' |>) in *.
  assert (forall c', endpoint c' f1 = endpoint c' f) as He1 by done.
  destruct (i_window _ _ I c ep E) as [Hfl Hwin]. rewrite Hp, Ht, Hfp, Z.eqb_refl, zlen_app in Hfl.
  pose proof (zlen_nonneg (in_transit p f1)) as Hz.
  destruct (deliver_ends f1 c p bs ep) as (Hends & Hsp1 & Es & Ecf); [done | lia | lia |].
  set (f2 := deliver c p bs f1) in *.
  assert (same_peers f f2) as Hsp by by eapply (same_peers_trans f f1); [apply same_peers_fields|].
  assert (forall p', in_transit p' f2 = in_transit p' f1) as Ht2.
  { intros p'. unfold in_transit, queue. by rewrite Es. }
  split.
  - rewrite Es. by apply (popped_ok e _ _ P), I.
  - by eapply same_peers_peer.
  - intros e' c' p' bs' He' Ecb'. unfold queue in He'. rewrite Es in He'.
    destruct (i_wires _ _ I e' c' p' bs') as (ep0 & E0 & A1 & A2 & A3); [|done|].
    { unfold queue. rewrite (pop_queue _ _ _ P). by right. }
    destruct (sp_forth _ _ Hsp _ _ E0) as (ep' & E' & B1). exists ep'. rewrite Es.
    destruct (Hends _ _ E') as (ep1 & E1 & _ & _ & B2 & _). rewrite He1, E0 in E1. simplify_eq.
    split_and!; [done | congruence | congruence |]. pose proof (pop_now _ _ _ P). cbn in *. lia.
  - intros c' ep' E'. destruct (Hends _ _ E') as (ep0 & E0 & _ & _ & _ & _ & ->).
    pose proof (i_wf _ _ I c' ep0 E0). case_if; [by apply append_wf | done].
  - intros c' ep' E'. destruct (Hends _ _ E') as (ep0 & E0 & B1 & B2 & _ & _ & B3).
    destruct (i_stream _ _ I c' ep0 E0) as [H1 H2]. pose proof (i_wf _ _ I c' ep0 E0).
    unfold source in *. rewrite B1, B2, B3, Ht2. rewrite Ht, Hfp in H2.
    destruct (c' =? p) eqn:E1; bool_prop; cbn; [|by split].
    destruct (live ep0); [|by split]. rewrite append_slice by done. specialize (H2 eq_refl). rewrite H2.
    split; [|intros _; by rewrite <- !app_assoc]. exists (in_transit c' f1). by rewrite <- !app_assoc.
  - intros c' ep' E'. destruct (Hends _ _ E') as (ep0 & E0 & B1 & _ & _ & B2 & _).
    destruct (i_window _ _ I c' ep0 E0) as [H1 H2]. rewrite B2, B1, Ht2, Ecf. rewrite Ht, Hfp in H1.
    destruct (c' =? c) eqn:E1; bool_prop.
    + subst c'. rewrite He1, E in E0. injection E0 as <-. rewrite Hp, Z.eqb_refl, zlen_app in H1. rewrite Hp.
      pose proof (zlen_nonneg bs). change (config_ f1) with (config_ f). lia.
    + replace (peer ep0 =? p) with false in H1; [done|]. symmetry. apply Z.eqb_neq. intros Hpe.
      destruct (i_peer _ _ I c' ep0 E0) as (q & Eq & Hq); [congruence|]. rewrite Hpe, Epp in Eq. simplify_eq.
  - intros c' E'. apply (i_absent _ _ I). by apply (same_peers_none f f2).
  - intros c' ep' E' Hk. destruct (sp_back _ _ Hsp _ _ E') as (ep0 & E0 & B1). apply (i_unlinked _ _ I c' ep0); congruence.
Qed.

(** ** Every act *)

Lemma drop_nothing (s : Scheduler.t (Closure X)) :
  Scheduler.cancelled_ s = ∅ -> Scheduler.drop_cancelled_from_top s = s.
Proof.
  intros Hc. unfold Scheduler.drop_cancelled_from_top. rewrite Hc.
  destruct s as [tr [|e q] cs now next run]; cbn in *; subst; [done|].
  by rewrite bool_decide_eq_false_2 by apply not_elem_of_empty.
Qed.

Lemma take_popped limit (s : Scheduler.t (Closure X)) : sched_ok s ->
  match Scheduler.take_next_before limit s with
  | (None, s') => s' = s
  | (Some e, s') => popped e s s'
  end.
Proof.
  intros [_ _ Hc]. unfold Scheduler.take_next_before. cbv zeta. rewrite drop_nothing by done.
  destruct (Scheduler.queue_ s) as [|e q] eqn:Eq; [done|]. case_if; [done|].
  rewrite advance_max. split; cbn; [done | done | done | lia].
Qed.

Lemma step_inv limit f g : inv f g -> inv (act (Step limit) f) g.
Proof.
  intros I. cbn. unfold Scheduler.run_next_before.
  pose proof (take_popped limit _ (i_sched _ _ I)) as Hp.
  destruct (Scheduler.take_next_before limit (scheduler_ f)) as [[e|] s']; cbn.
  - destruct (Scheduler.callback e) as [[c p bs|l c|a b|x]|] eqn:Ec; cbn [call]; try (by eapply quiet_inv; [eapply quiet_popped; [done|]; congruence|]).
    + by apply (deliver_inv f g e).
    + eapply quiet_inv; [|exact I]. eapply quiet_trans; [eapply quiet_popped; [done|congruence]|]. apply quiet_arrive.
    + eapply quiet_inv; [|exact I]. eapply quiet_trans; [eapply quiet_popped; [done|congruence]|]. apply quiet_cut_timeout.
  - rewrite Hp. by destruct f.
Qed.

Lemma count_deliver c p bs (f : fabric) :
  zlen (endpoints_ (deliver c p bs f)) = zlen (endpoints_ f) /\ config_ (deliver c p bs f) = config_ f.
Proof.
  unfold deliver. destruct (endpoint c f); cbv zeta; (destruct (endpoint p _) as [dst|]; [case_if|]);
    unfold update, zlen; fields; by rewrite ?length_alter.
Qed.

(** The settings stay, and few endpoints are added. *)
Definition grows (n : Z) (f f' : fabric) : Prop :=
  config_ f' = config_ f /\ zlen (endpoints_ f) <= zlen (endpoints_ f') <= zlen (endpoints_ f) + n.

Lemma quiet_grows f f' n : 0 <= n -> quiet f f' -> grows n f f'.
Proof. intros Hn Q. split; [apply (q_config _ _ Q)|]. rewrite (q_count _ _ Q). lia. Qed.

Definition room (f : fabric) : Prop :=
  zlen (endpoints_ f) + 2 < kInvalidConn /\ 0 <= send_window_bytes (config_ f) < 2 ^ 32.

Lemma fresh_endpoint n f : room f -> endpoint (zlen (endpoints_ f)) (new_endpoint n f).2 = Some (fresh n).
Proof. intros [Hr _]. rewrite endpoint_new by lia. by rewrite Z.eqb_refl. Qed.

Lemma listen_inv n port_ f g : inv f g -> room f ->
  inv (SimNetwork.listen n port_ f).2 g /\ grows 2 f (SimNetwork.listen n port_ f).2.
Proof.
  intros I Hr. unfold SimNetwork.listen.
  set (st := if port_ =? 0 then _ else _). destruct st as [bound f0] eqn:Est.
  assert (quiet f f0 /\ room f0) as [Q0 R0].
  { unfold st in Est. destruct (port_ =? 0); injection Est as <- <-; (split; [by apply quiet_fields | exact Hr]). }
  clearbody st. pose proof (quiet_inv _ _ _ Q0 I) as I0. pose proof (quiet_grows _ _ 0 ltac:(lia) Q0) as [G1 G2].
  destruct (listeners_ f0 !! (n, bound)); [split; [done|]; split; [done | cbn; lia]|].
  cbn [new_endpoint]. set (id := zlen (endpoints_ f0)). set (h := fun ep => ep <| listener := true |> <| port := bound |>).
  set (f1 := (new_endpoint n f0).2).
  assert (quiet f1 (update id h f1)) as Q1 by by apply quiet_update.
  assert (inv f1 g) as I1 by (destruct R0; apply new_endpoint_inv; [done | lia | lia]).
  split.
  - eapply quiet_inv; [|exact I1]. eapply quiet_trans; [exact Q1|]. by apply quiet_fields.
  - pose proof (q_count _ _ Q1) as Hcount. split; [done|].
    change (zlen (endpoints_ f1)) with (zlen (endpoints_ f0 ++ [fresh n])) in Hcount.
    rewrite zlen_app, zlen_cons, zlen_nil in Hcount. cbn. cbn in Hcount. lia.
Qed.

Lemma connect_inv n host port_ f g : inv f g -> room f ->
  inv (SimNetwork.connect n host port_ f).2 g /\ grows 2 f (SimNetwork.connect n host port_ f).2.
Proof.
  intros I Hr. assert (grows 2 f f) as Hsame by (split; [done | lia]). unfold SimNetwork.connect.
  destruct (names_ f !! host) as [pn|]; [|done]. case_if; [done|]. destruct (listeners_ f !! (pn, port_)) as [l|]; [|done].
  set (client := zlen (endpoints_ f)). set (f1 := (new_endpoint n f).2). set (f2 := (new_endpoint pn f1).2).
  assert (zlen (endpoints_ f1) = client + 1) as L1 by (cbn; rewrite zlen_app; done).
  assert (zlen (endpoints_ f2) = client + 2) as L2 by (cbn; rewrite !zlen_app, !zlen_cons, !zlen_nil; fold client; lia).
  pose proof Hr as [Hr1 Hr2].
  assert (inv f2 g) as I2.
  { apply new_endpoint_inv; [apply new_endpoint_inv; [done | lia | lia] | fold f1; unfold client in L1; lia | cbn; lia]. }
  assert (endpoint client f1 = Some (fresh n)) as E1 by by apply fresh_endpoint.
  assert (endpoint client f2 = Some (fresh n)) as Ec.
  { unfold f2. rewrite endpoint_new by lia. replace (client =? _) with false by (symmetry; apply Z.eqb_neq; lia). done. }
  set (server := zlen (endpoints_ f1)) in *.
  assert (endpoint server f2 = Some (fresh pn)) as Es by (unfold f2; rewrite endpoint_new by lia; by rewrite Z.eqb_refl).
  assert (inv (link client server port_ f2) g) as I3 by (eapply link_inv; [done | lia | done..]).
  cbn [new_endpoint]. fold client. fold f1. fold server. fold f2.
  change (update server _ (update client _ f2)) with (link client server port_ f2).
  set (f3 := record (mkTag kConnect n pn client) (link client server port_ f2)). unfold draw_latency.
  destruct (next_in_range _ _ _) as [latency rng']. cbn [fst snd].
  set (f4 := schedule_after latency (mkTag kAccept pn n server) (Arrive l server) (f3 <| rng_ := rng' |>)).
  change (inv f4 g /\ grows 2 f f4). assert (quiet (link client server port_ f2) f4) as Q.
  { eapply quiet_trans; [|by apply quiet_schedule_after]. apply (quiet_trans _ f3); [apply quiet_record | by apply quiet_fields]. }
  split; [by eapply quiet_inv|]. split; [done|]. pose proof (q_count _ _ Q) as Hcount.
  assert (zlen (endpoints_ (link client server port_ f2)) = client + 2) as L3.
  { rewrite <- L2. unfold link, update, zlen; fields. by rewrite !length_alter. }
  fold client. lia.
Qed.

Lemma accepted_spec `{!RandomOk G} n (f : fabric) : 0 < n < 2 ^ 64 ->
  let '(k, f') := SimNetwork.accepted n f in 1 <= k <= n /\ exists rng', f' = f <| rng_ := rng' |>.
Proof.
  intros Hn. unfold SimNetwork.accepted. case_if; bool_prop.
  - destruct (next_bool_with_probability _ _) as [[] rng']; [|split; [lia | eauto]].
    pose proof (next_below_range n rng' Hn) as Hb. destruct (next_below n rng') as [k rng2]. cbn in Hb.
    split; [lia | eauto].
  - split; [lia|]. exists (rng_ f). by destruct f.
Qed.

Lemma extend_nil m c c' : extend m c [] c' = m c'.
Proof. unfold extend. case_if; [apply app_nil_r | done]. Qed.

Lemma ghost_ext f g g' :
  (forall c, wired g' c = wired g c) -> (forall c, got g' c = got g c) -> inv f g -> inv f g'.
Proof.
  intros Hw Hg [I1 I2 I3 I4 I5 I6 I7 I8]. split; try done.
  - intros p ep E. unfold source. rewrite Hg, Hw. by apply I5.
  - intros p E. rewrite Hg, Hw. by apply I7.
  - intros c ep E Hp. rewrite Hw. by apply (I8 c ep).
Qed.

Lemma read_act_inv n c size f g : inv f g ->
  inv (act (Read n c size) f) (observe (Read n c size) f g) /\ grows 2 f (act (Read n c size) f).
Proof.
  intros I. assert (grows 2 f f) as Hsame by (split; [done | lia]).
  assert (inv f (mkGhost (wired g) (extend (got g) c []))) as Inil by (apply (ghost_ext f g); [done | apply extend_nil | done]).
  cbn [act observe]. unfold SimNetwork.read. destruct (endpoint c f) as [ep|] eqn:E; [|done].
  case_if; [done|]. case_if; [done|]. case_if; [|case_if; [done|case_if; done]].
  pose proof (i_wf _ _ I c ep E) as Hwf. unfold Buffer.wf in Hwf. unfold Buffer.size. cbn [fst snd]. split.
  - apply read_inv; [done | done |]. unfold Buffer.size. lia.
  - split; [done|]. unfold update, zlen; fields. rewrite length_alter. lia.
Qed.

(** A write that is dropped leaves a mark and nothing else. *)
Lemma dropped_write f g f' n bs c :
  inv f g -> quiet f f' -> bytes_dropped_ f' = bytes_dropped_ f + n -> 1 <= n ->
  inv f' (if bytes_dropped_ f' =? bytes_dropped_ f then mkGhost (extend (wired g) c bs) (got g) else g) /\
  grows 2 f f'.
Proof.
  intros I Q Hd Hn. split; [|by apply quiet_grows]. destruct (_ =? _) eqn:E; bool_prop; [lia|]. by eapply quiet_inv.
Qed.

Lemma write_act_inv `{!RandomOk G} n c data f g : inv f g -> room f ->
  inv (act (Write n c data) f) (observe (Write n c data) f g) /\ grows 2 f (act (Write n c data) f).
Proof.
  intros I [_ Hw]. assert (grows 2 f f) as Hsame by (split; [done | lia]).
  cbn [act observe]. unfold SimNetwork.write. destruct (endpoint c f) as [ep|] eqn:E; [|done].
  case_if; [done|]. case_if; [done|].
  destruct (zlen data =? 0) eqn:Ed.
  { rewrite Z.eqb_refl. split; [|done]. rewrite ztake_le by lia. apply (ghost_ext f g); [apply extend_nil | done | done]. }
  case_if; [done|]. bool_prop. destruct (i_window _ _ I c ep E) as [Hfl _].
  pose proof (zlen_nonneg (in_transit (peer ep) f)). pose proof (zlen_nonneg data).
  set (m := Z.min (zlen data) (send_window_bytes (config_ f) - in_flight ep)).
  pose proof (accepted_spec m f ltac:(unfold m; lia)) as Ha.
  destruct (SimNetwork.accepted m f) as [k f0]. destruct Ha as [Hk [rng' ->]].
  assert (quiet f (f <| rng_ := rng' |>)) as Q0 by by apply quiet_fields.
  change (endpoint (peer ep) (f <| rng_ := rng' |>)) with (endpoint (peer ep) f).
  destruct (endpoint (peer ep) f) as [epp|] eqn:Epp; cbn [fst snd].
  2: { apply (dropped_write f g _ k); [done | by apply quiet_fields | done | lia]. }
  case_if; cbn [fst snd]; [apply (dropped_write f g _ k); [done | by apply quiet_fields | done | lia]|].
  case_if; cbn [fst snd].
  { apply (dropped_write f g _ k); [done | | done | lia]. 
    eapply quiet_trans; [|apply quiet_record]. by apply quiet_fields. }
  unfold draw_latency. destruct (next_in_range _ _ _) as [latency rng2]. cbv zeta.
  set (now_ := Scheduler.now_ _). set (at_ := if now_ + latency <? last_delivery ep then _ else _).
  set (f1 := f <| rng_ := rng' |> <| rng_ := rng2 |>).
  set (f2 := wire c (peer ep) at_ k (mkTag kDeliver (node epp) (peer ep) k) (ztake k data) f1).
  assert (inv f1 g) as I1 by by apply (quiet_inv f); [apply quiet_fields|].
  assert (inv f2 (mkGhost (extend (wired g) c (ztake k data)) (got g))) as I2.
  { apply wire_inv; [done | done | by apply endpoint_range in Epp as [_ ?] | | |].
    - unfold at_. case_if; bool_prop; lia.
    - rewrite zlen_ztake. lia.
    - change (config_ f1) with (config_ f). lia. }
  change (inv (record (mkTag kSend n c k) f2)
    (if bytes_dropped_ f =? bytes_dropped_ f then mkGhost (extend (wired g) c (ztake k data)) (got g) else g) /\
    grows 2 f (record (mkTag kSend n c k) f2)).
  rewrite Z.eqb_refl. split; [by eapply quiet_inv; [apply quiet_record|]|].
  split; [done|]. unfold f2, f1, wire, update, zlen; fields. rewrite length_alter. lia.
Qed.

Lemma step_grows limit f : sched_ok (scheduler_ f) -> grows 2 f (act (Step limit) f).
Proof.
  intros Hs. cbn. unfold Scheduler.run_next_before. pose proof (take_popped limit _ Hs) as Hp.
  destruct (Scheduler.take_next_before limit (scheduler_ f)) as [[e|] s']; cbn; [|rewrite Hp; split; cbn; [done | lia]].
  set (f1 := f <| scheduler_ := s' |>). change (grows 2 f1 (match Scheduler.callback e with Some c => call c f1 | None => f1 end)).
  destruct (Scheduler.callback e) as [[c p bs|l c|a b|x]|]; cbn [call]; try (split; [done | lia]).
  - destruct (count_deliver c p bs f1) as [Hn Hc]. split; [done | lia].
  - apply quiet_grows; [lia | apply quiet_arrive].
  - apply quiet_grows; [lia | apply quiet_cut_timeout].
Qed.

Lemma act_inv `{!RandomOk G} a f g : inv f g -> room f -> inv (act a f) (observe a f g) /\ grows 2 f (act a f).
Proof.
  intros I Hr.
  assert (forall f', quiet f f' -> inv f' g /\ grows 2 f f') as Hq.
  { intros f' Q. split; [by eapply quiet_inv | by apply quiet_grows]. }
  destruct a; cbn [observe]; try (by apply Hq; cbn [act]; auto using quiet_accept, quiet_close, quiet_watch, quiet_cut,
    quiet_heal, quiet_heal_all, quiet_kill, quiet_advance).
  - by apply Hq, quiet_fields.
  - by apply listen_inv.
  - by apply connect_inv.
  - by apply read_act_inv.
  - by apply write_act_inv.
  - apply Hq. cbn [act]. destruct (endpoint c f); [by apply quiet_update | apply quiet_refl].
  - by apply Hq, quiet_schedule_at.
  - split; [by apply step_inv | apply step_grows, I].
Qed.

Lemma run_acts_app acts acts' st : run_acts (acts ++ acts') st = run_acts acts' (run_acts acts st).
Proof. unfold run_acts. by rewrite foldl_app. Qed.

Lemma run_inv `{!RandomOk G} acts f g :
  inv f g -> 0 <= send_window_bytes (config_ f) < 2 ^ 32 ->
  zlen (endpoints_ f) + 2 * (zlen acts + 1) < kInvalidConn ->
  inv (run_acts acts (f, g)).1 (run_acts acts (f, g)).2 /\ grows (2 * zlen acts) f (run_acts acts (f, g)).1.
Proof.
  intros I Hw. induction acts as [|a acts IH] using rev_ind; intros Hlen.
  - split; [done|]. split; [done|]. change (zlen (@nil Act)) with 0. cbn [run_acts foldl fst]. lia.
  - rewrite zlen_app, zlen_cons, zlen_nil in *. destruct IH as [I' [G1 G2]]; [lia|].
    rewrite run_acts_app. set (st := run_acts acts (f, g)) in *. cbn [run_acts foldl fst snd].
    destruct (act_inv a st.1 st.2 I') as [I'' [G3 G4]].
    { split; [lia | by rewrite G1]. }
    split; [done|]. split; [congruence | lia].
Qed.

(** A fabric nobody has used yet. *)
Lemma new_inv trace (rng : G) config : inv (new (Scheduler.new trace) rng config) nothing.
Proof.
  assert (forall c (f : fabric), endpoints_ f = [] -> endpoint c f = None) as Hn.
  { intros c f E. unfold endpoint. rewrite E. case_if; [done|]. unfold zlen in *. cbn [length] in *. bool_prop. lia. }
  split; try (intros c ep E; by rewrite Hn in E).
  - split; [constructor | constructor | done].
  - intros e c p bs He. by apply elem_of_nil in He.
  - done.
Qed.

End Runs.
