(* ===== verification/SimNetworkProps.v ===== *)
(** * What the simulated network promises, and where it does not

    The stream theorem over arbitrary runs, and two concrete runs in which a connection does
    what the comments of [sim_network.h] and [sim_network.cpp] rule out. *)
From S2P Require Import Prelude Base Random Queue Trace Scheduler Network SimNetwork SimNetworkFacts.
From Stdlib Require Import SpecFloat Ascii.
Import Fabric.

(** C29: A connection is a byte stream.  Whatever the nodes call, whatever links are cut and
    healed and whatever latencies are drawn, on every connected endpoint the bytes handed to
    the reader, followed by those in its buffer, are a prefix of the bytes its peer put on
    the wire; while the endpoint is neither closed nor reset, what is missing is exactly what
    is in flight, in order; and what a writer has in flight is counted exactly and never
    exceeds the send window. *)
Theorem stream_is_fifo {G} {RG : Random G} {ROK : RandomOk G} {H X : Type}
    (trace : Trace.t) (rng : G) (config : NetworkFaultConfig) (acts : list (@Act H X)) :
  0 <= send_window_bytes config < 2 ^ 32 -> 2 * (zlen acts + 1) < kInvalidConn ->
  let '(f, g) := run_acts acts (Fabric.new (Scheduler.new trace) rng config, nothing) in
  forall p ep, endpoint p f = Some ep -> peer ep <> kInvalidConn ->
    (got g p ++ Buffer.slice (rx ep)) `prefix_of` wired g (peer ep) /\
    (live ep = true -> wired g (peer ep) = got g p ++ Buffer.slice (rx ep) ++ in_transit p f) /\
    in_flight ep = zlen (in_transit (peer ep) f) /\ in_flight ep <= send_window_bytes config.
Proof.
  intros Hw Hlen. set (f0 := Fabric.new _ _ _).
  destruct (run_inv acts f0 nothing (new_inv trace rng config) Hw) as [I [Hc _]].
  { change (zlen (endpoints_ f0)) with 0. lia. }
  destruct (run_acts acts (f0, nothing)) as [f g]. cbn [fst snd] in *. intros p ep E Hp.
  destruct (i_stream _ _ I p ep E) as [H1 H2]. unfold source in *.
  destruct (peer ep =? kInvalidConn) eqn:Ek; bool_prop; [done|].
  destruct (i_window _ _ I p ep E) as [H3 H4]. rewrite Hc in H4. done.
Qed.

(** The fabric stays well formed.  After any run, every endpoint's buffer is within its
    storage, a connected endpoint's peer exists and points back to it, every delivery in the
    queue goes from a connected endpoint to its peer, and the queue is in order with ids that
    were handed out. *)
Theorem fabric_well_formed {G} {RG : Random G} {ROK : RandomOk G} {H X : Type}
    (trace : Trace.t) (rng : G) (config : NetworkFaultConfig) (acts : list (@Act H X)) :
  0 <= send_window_bytes config < 2 ^ 32 -> 2 * (zlen acts + 1) < kInvalidConn ->
  let f := (run_acts acts (Fabric.new (Scheduler.new trace) rng config, nothing)).1 in
  (forall c ep, endpoint c f = Some ep -> Buffer.wf (rx ep) /\
     (peer ep <> kInvalidConn -> exists ep', endpoint (peer ep) f = Some ep' /\ peer ep' = c)) /\
  (forall e c p bs, e ∈ Scheduler.queue_ (scheduler_ f) -> Scheduler.callback e = Some (Deliver c p bs) ->
     exists ep, endpoint c f = Some ep /\ peer ep = p /\ p <> kInvalidConn) /\
  in_order Scheduler.when Scheduler.id (Scheduler.queue_ (scheduler_ f)) /\
  Forall (fun e => Scheduler.id e < Scheduler.next_id_ (scheduler_ f)) (Scheduler.queue_ (scheduler_ f)).
Proof.
  intros Hw Hlen f. set (f0 := Fabric.new (Scheduler.new trace) rng config) in *.
  destruct (run_inv acts f0 nothing (new_inv trace rng config) Hw) as [I _].
  { change (zlen (endpoints_ f0)) with 0. lia. }
  fold f in I. split_and!; [| |apply I|apply I].
  - intros c ep E. split; [by eapply i_wf | by eapply i_peer].
  - intros e c p bs He Ec. destruct (i_wires _ _ I e c p bs He Ec) as (ep & ? & ? & ? & _). eauto.
Qed.

(** Two nodes, one connection: client 1 on node 0, server 2 on node 1. *)
Definition net_faults : NetworkFaultConfig := mkFaults 10 10 (S754_zero false) 50 100.
Definition net0 : Fabric.t Z unit unit * Ghost :=
  (Fabric.new (Scheduler.new (Trace.new 4)) 0 net_faults, nothing).
Definition name_b : list ascii := String.list_ascii_of_string "b".
Definition connected : list (@Act unit unit) :=
  [AddNode 0 (String.list_ascii_of_string "a"); AddNode 1 name_b; Listen 1 7000; Connect 0 name_b 7000;
   Step 1000; Accept 1 0].
Definition chatter : list (@Act unit unit) :=
  connected ++ [Write 0 1 [1; 2]; Write 0 1 [3]; Step 1000; Read 1 2 1].

Lemma stream_is_fifo_witness :
  let '(f, g) := run_acts chatter net0 in
  wired g 1 = [1; 2; 3] /\ got g 2 = [1] /\ in_transit 2 f = [3] /\
  forall p ep, endpoint p f = Some ep -> peer ep <> kInvalidConn ->
    (got g p ++ Buffer.slice (rx ep)) `prefix_of` wired g (peer ep) /\
    (live ep = true -> wired g (peer ep) = got g p ++ Buffer.slice (rx ep) ++ in_transit p f) /\
    in_flight ep = zlen (in_transit (peer ep) f) /\ in_flight ep <= 100.
Proof.
  assert (0 <= send_window_bytes net_faults < 2 ^ 32) as Hw by (vm_compute; by split).
  assert (2 * (zlen chatter + 1) < kInvalidConn) as Hlen by (vm_compute; reflexivity).
  pose proof (stream_is_fifo (Trace.new 4) 0 net_faults chatter Hw Hlen) as H.
  change (Fabric.new _ _ _, nothing) with net0 in H.
  assert (wired (run_acts chatter net0).2 1 = [1; 2; 3] /\ got (run_acts chatter net0).2 2 = [1] /\
    in_transit 2 (run_acts chatter net0).1 = [3]) as (H1 & H2 & H3) by (vm_compute; by split_and!).
  destruct (run_acts chatter net0) as [f g]. cbn [fst snd] in *. split_and!; [exact H1 | exact H2 | exact H3 | exact H].
Defined.

Lemma fabric_well_formed_witness :
  let f := (run_acts chatter net0).1 in
  zlen (endpoints_ f) = 3 /\
  (forall c ep, endpoint c f = Some ep -> Buffer.wf (rx ep) /\
     (peer ep <> kInvalidConn -> exists ep', endpoint (peer ep) f = Some ep' /\ peer ep' = c)) /\
  (forall e c p bs, e ∈ Scheduler.queue_ (scheduler_ f) -> Scheduler.callback e = Some (Deliver c p bs) ->
     exists ep, endpoint c f = Some ep /\ peer ep = p /\ p <> kInvalidConn) /\
  in_order Scheduler.when Scheduler.id (Scheduler.queue_ (scheduler_ f)) /\
  Forall (fun e => Scheduler.id e < Scheduler.next_id_ (scheduler_ f)) (Scheduler.queue_ (scheduler_ f)).
Proof.
  assert (0 <= send_window_bytes net_faults < 2 ^ 32) as Hw by (vm_compute; by split).
  assert (2 * (zlen chatter + 1) < kInvalidConn) as Hlen by (vm_compute; reflexivity).
  split; [vm_compute; reflexivity|].
  exact (fabric_well_formed (Trace.new 4) 0 net_faults chatter Hw Hlen).
Defined.

(** ** A link that is cut and healed *)

Definition state_after (acts : list (@Act unit unit)) : Fabric.t Z unit unit := (run_acts acts net0).1.

Definition cut_once : list (@Act unit unit) := connected ++ [Write 0 1 [1]; Cut 0 1].
Definition healed : list (@Act unit unit) := cut_once ++ [Write 0 1 [2]; Heal 0 1].
Definition settled : list (@Act unit unit) := healed ++ [Write 0 1 [3]; Step 1000; Step 1000; Step 1000].

(** A hole in the stream.  A link is cut and healed again before the reset delay is
    over: the three writes are all accepted, the connection is never reset, nothing is left
    in flight, and the reader gets the first and the third byte without the second. *)
Theorem healed_cut_leaves_hole :
  (SimNetwork.write 0 1 [1] (state_after connected)).1 = Ok 1 /\
  (SimNetwork.write 0 1 [2] (state_after cut_once)).1 = Ok 1 /\
  (SimNetwork.write 0 1 [3] (state_after healed)).1 = Ok 1 /\
  connections_reset_ (state_after settled) = 0 /\ in_transit 2 (state_after settled) = [] /\
  (SimNetwork.read 1 2 100 (state_after settled)).1 = Ok [1; 3].
Proof. vm_compute. by split_and!. Qed.

(** ** A close that races the data *)

Definition written : list (@Act unit unit) := connected ++ [Write 0 1 [1; 2]].
Definition closed_early : list (@Act unit unit) := written ++ [Close 0 1].

(** End of file before the data.  The writer sends two bytes and closes; the bytes are
    accepted and in flight, but the reader is told at once that the stream has ended, and
    the bytes arrive after that. *)
Theorem close_overtakes_data :
  (SimNetwork.write 0 1 [1; 2] (state_after connected)).1 = Ok 2 /\
  in_transit 2 (state_after closed_early) = [1; 2] /\
  (SimNetwork.read 1 2 100 (state_after closed_early)).1 = Ok [] /\
  (SimNetwork.read 1 2 100 (state_after (closed_early ++ [Step 1000]))).1 = Ok [1; 2].
Proof. vm_compute. by split_and!. Qed.

(** ** Polling *)

Section Poll.
Context {G : Type} {RG : Random G} {H X W : Type}.
Context (fabric_of : W -> Fabric.t G H X) (set_fabric : Fabric.t G H X -> W -> W) (upcall : H -> Upcall -> Z -> W -> W).
Context (Hlens : forall f w, fabric_of (set_fabric f w) = f).
Import SimNetwork.

(** The endpoints of a node, as [poll] walks them. *)
Definition ids (n : Z) (w : W) : list Z := default [] (node_endpoints_ (fabric_of w) !! n).

Context (n : Z) (Hup : forall h u c w, (length (ids n (upcall h u c w)) <= length (ids n w))%nat).

Lemma dispatch_bound c u ready k w :
  match dispatch fabric_of upcall c u ready k w with
  | None => True
  | Some (k', w') => k <= k' <= k + 1 /\ (length (ids n w') <= length (ids n w))%nat
  end.
Proof using Hup.
  unfold dispatch. destruct (endpoint c (fabric_of w)) as [ep|]; [|done]. destruct (handler ep); [|done].
  case_if; split; auto; lia.
Qed.

Lemma poll_one_bound c k w :
  let '(k', w') := poll_one fabric_of set_fabric upcall c k w in
  k <= k' <= k + 2 /\ (length (ids n w') <= length (ids n w))%nat.
Proof using Hup Hlens.
  assert (k <= k <= k + 2) as Hk by lia. unfold poll_one.
  destruct (endpoint c (fabric_of w)) as [ep|]; [|done]. destruct (handler ep) as [h|]; [|done].
  case_if; [done|]. case_if.
  { cbv zeta. split; [lia|]. etrans; [apply Hup|]. unfold ids. by rewrite Hlens. }
  pose proof (dispatch_bound c on_readable (fun _ ep => readable ep && wants_read (interest ep)) k w) as H1.
  destruct (dispatch _ _ c on_readable _ k w) as [[k1 w1]|]; [|done].
  pose proof (dispatch_bound c on_writable (fun f ep => writable f ep && wants_write (interest ep)) k1 w1) as H2.
  destruct (dispatch _ _ c on_writable _ k1 w1) as [[k2 w2]|]; (split; [|etrans]; try lia); by destruct H1, H2.
Qed.

Lemma poll_loop_bound fuel i k w : (length (ids n w) <= i + fuel)%nat ->
  exists k' w', poll_loop fabric_of set_fabric upcall fuel n i k w = Some (k', w') /\
    k <= k' <= k + 2 * Z.of_nat fuel /\ (length (ids n w') <= length (ids n w))%nat.
Proof using Hup Hlens.
  revert i k w. induction fuel as [|fuel IH]; intros i k w Hl; cbn [poll_loop]; fold (ids n w).
  - destruct (ids n w !! i) eqn:E; [apply lookup_lt_Some in E; lia|]. exists k, w. split; [done|]. split; [lia | done].
  - destruct (ids n w !! i) as [c|] eqn:E; [|exists k, w; split; [done|]; split; [lia | done]].
    pose proof (poll_one_bound c k w) as H1. destruct (poll_one _ _ _ c k w) as [k1 w1]. destruct H1 as [H1 H2].
    destruct (IH (S i) k1 w1) as (k' & w' & -> & H3 & H4); [lia|]. exists k', w'. split; [done|]. split; lia.
Qed.

End Poll.

(** Polling ends.  As long as handlers open no new connections on the node that polls,
    one step per endpoint is enough for [poll] to come back, with at most two dispatches per
    endpoint. *)
Theorem poll_terminates {G} {RG : Random G} {H X W : Type}
    (fabric_of : W -> Fabric.t G H X) (set_fabric : Fabric.t G H X -> W -> W) (upcall : H -> Upcall -> Z -> W -> W)
    (n : Z) (w : W) :
  (forall f w, fabric_of (set_fabric f w) = f) ->
  (forall h u c w, (length (ids fabric_of n (upcall h u c w)) <= length (ids fabric_of n w))%nat) ->
  exists k w', SimNetwork.poll fabric_of set_fabric upcall (length (ids fabric_of n w)) n w = Some (k, w') /\
    0 <= k <= 2 * Z.of_nat (length (ids fabric_of n w)).
Proof.
  intros Hlens Hup. unfold SimNetwork.poll.
  destruct (node_endpoints_ (fabric_of w) !! n) eqn:E; [|exists 0, w; split; [done | lia]].
  destruct (poll_loop_bound fabric_of set_fabric upcall Hlens n Hup (length (ids fabric_of n w)) 0 0 w) as (k & w' & -> & Hk & _);
    [lia|]. exists k, w'. split; [done | lia].
Qed.

(** A server that reads whatever comes. *)
Definition reader (h : unit) (u : Upcall) (c : Z) (f : Fabric.t Z unit unit) : Fabric.t Z unit unit :=
  match u with on_readable => (SimNetwork.read 1 c 100 f).2 | _ => f end.
Definition watched : list (@Act unit unit) :=
  connected ++ [Watch 1 2 Interest.kRead (Some tt); Write 0 1 [1; 2]; Step 1000].

Lemma reader_adds_nothing h u c f :
  (length (ids (fun f => f) 1 (reader h u c f)) <= length (ids (fun f : Fabric.t Z unit unit => f) 1 f))%nat.
Proof.
  destruct u; try done. cbn. unfold SimNetwork.read. destruct (endpoint c f) as [ep|]; [|done].
  repeat (case_if; try done).
Qed.

Lemma poll_terminates_witness :
  exists k w', SimNetwork.poll (fun f => f) (fun f _ => f) reader 2 1 (state_after watched) = Some (k, w') /\ 0 <= k <= 4.
Proof.
  exact (poll_terminates (fun f => f) (fun f _ => f) reader 1 (state_after watched)
    (fun f w => eq_refl) (fun h u c w => reader_adds_nothing h u c w)).
Defined.
