(* ===== verification/EventLoop.v ===== *)
(** * The event loop

    Models [src/src/runtime/event_loop.h]/[event_loop.cpp] and the [monotonic_now] of
    [src/src/io/clock.h].  The loop is part of a world: its tasks, values of a type [T], act
    on the whole of it, and so do the clock and the network.  The heap of timers is kept as
    [Queue] describes; [make_heap] after an [erase] restores the same order.  Timer ids are
    not wrapped.

    The theorems: an iteration fires exactly timers that were due when it looked at the
    clock, in [(deadline, id)] order, leaves none of them behind and comes back, as long as
    tasks arm their timers for later; a task that arms its timer for now never lets it. *)
From S2P Require Import Prelude Base Queue Trace Scheduler.

Module EventLoop.

Definition kInvalidTimer : Z := 0.

Record Timer (T : Type) := mkTimer { deadline : Z; id : Z; task : T }.
#[global] Arguments mkTimer {T}.
#[global] Arguments deadline {T}.
#[global] Arguments id {T}.
#[global] Arguments task {T}.

Section EventLoop.
Context {T : Type}.

Record t := mk {
  timers_ : list (Timer T);
  pending_ : list T;
  draining_ : list T;
  next_timer_id_ : Z;
  running_ : bool }.

#[global] Instance EventLoop_eta : Settable t := fun l =>
  mk (timers_ l) (pending_ l) (draining_ l) (next_timer_id_ l) (running_ l).

Definition new : t := mk [] [] [] 1 false.

Definition post (k : T) (l : t) : t := l <| pending_ := pending_ l ++ [k] |>.
Definition stop (l : t) : t := l <| running_ := false |>.
Definition has_pending_tasks (l : t) : bool := match pending_ l with [] => false | _ => true end.
Definition pending_timer_count (l : t) : Z := zlen (timers_ l).

Definition next_deadline (l : t) : Z :=
  match timers_ l with
  | [] => kNoTimeout
  | tm :: _ => deadline tm
  end.

(** [find_if] and [erase] *)
Fixpoint erase (i : Z) (tms : list (Timer T)) : option (list (Timer T)) :=
  match tms with
  | [] => None
  | tm :: rest => if id tm =? i then Some rest else cons tm <$> erase i rest
  end.

Definition cancel_timer (i : Z) (l : t) : bool * t :=
  match erase i (timers_ l) with
  | None => (false, l)
  | Some tms => (true, l <| timers_ := tms |>)
  end.

Context {W : Type} (loop_of : W -> t) (set_loop : t -> W -> W).
Context (monotonic_now : W -> Z * W) (poll : Z -> W -> Z * W) (call : T -> W -> W).

Definition add_timer_after (delay : Z) (k : T) (w : W) : Z * W :=
  let i := next_timer_id_ (loop_of w) in
  let w := set_loop (loop_of w <| next_timer_id_ := i + 1 |>) w in
  let '(now, w) := monotonic_now w in
  let tm := mkTimer (now + (if 0 <? delay then delay else 0)) i k in
  (i, set_loop (loop_of w <| timers_ := push deadline id tm (timers_ (loop_of w)) |>) w).

Definition drain_pending (w : W) : Z * W :=
  let l := loop_of w in
  match pending_ l with
  | [] => (0, w)
  | tasks =>
      let w := set_loop (l <| draining_ := tasks |> <| pending_ := [] |>) w in
      let w := foldl (fun w k => call k w) w tasks in
      (zlen tasks, set_loop (loop_of w <| draining_ := [] |>) w)
  end.

(** The loop of [fire_expired_timers]; [None] is running out of fuel. *)
Fixpoint fire_loop (fuel : nat) (now fired : Z) (w : W) : option (Z * W) :=
  match timers_ (loop_of w) with
  | [] => Some (fired, w)
  | tm :: rest =>
      if now <? deadline tm then Some (fired, w)
      else
        match fuel with
        | O => None
        | S fuel' =>
            fire_loop fuel' now (fired + 1) (call (task tm) (set_loop (loop_of w <| timers_ := rest |>) w))
        end
  end.

Definition fire_expired_timers (fuel : nat) (w : W) : option (Z * W) :=
  let '(now, w) := monotonic_now w in fire_loop fuel now 0 w.

(** How long [run_once] lets the network wait. *)
Definition poll_timeout (max_block : Z) (w : W) : Z * W :=
  match pending_ (loop_of w) with
  | _ :: _ => (0, w)
  | [] =>
      let at_ := next_deadline (loop_of w) in
      if negb (at_ =? kNoTimeout)
      then
        let '(now, w) := monotonic_now w in
        let until := at_ - now in
        let capped := if 0 <? until then until else 0 in
        (if max_block =? kNoTimeout then capped else Z.min max_block capped, w)
      else (max_block, w)
  end.

Definition run_once (fuel : nat) (max_block : Z) (w : W) : option (Z * W) :=
  let '(drained, w) := drain_pending w in
  let '(timeout, w) := poll_timeout max_block w in
  let '(polled, w) := poll timeout w in
  match fire_expired_timers fuel w with
  | None => None
  | Some (fired, w) => Some (drained + polled + fired, w)
  end.

(** [while (running_) run_once(kNoTimeout)], after [running_ = true]; [fuel] bounds the
    iterations and [fuel'] each of them. *)
Fixpoint run_loop (fuel fuel' : nat) (w : W) : option W :=
  if negb (running_ (loop_of w)) then Some w
  else
    match fuel with
    | O => None
    | S fuel0 =>
        match run_once fuel' kNoTimeout w with
        | None => None
        | Some (_, w) => run_loop fuel0 fuel' w
        end
    end.

Definition run (fuel fuel' : nat) (w : W) : option W :=
  run_loop fuel fuel' (set_loop (loop_of w <| running_ := true |>) w).

End EventLoop.

#[global] Arguments t : clear implicits.

End EventLoop.

(** ** What tasks may do *)

Section LoopFacts.
Context {T : Type}.
Import EventLoop.
Implicit Type l : EventLoop.t T.

Definition loop_ok l : Prop :=
  in_order deadline id (timers_ l) /\ Forall (fun tm => id tm < next_timer_id_ l) (timers_ l).

Definition is_due (now : Z) (tm : Timer T) : Prop := deadline tm <= now.

#[global] Instance is_due_dec now tm : Decision (is_due now tm).
Proof. unfold is_due. apply _. Defined.

(** A task arms nothing that is due at [now] already. *)
Record tame (now : Z) l l' : Prop := {
  tame_ok : loop_ok l -> loop_ok l';
  tame_due : forall tm, tm ∈ timers_ l' -> is_due now tm -> tm ∈ timers_ l }.

Lemma tame_refl now l : tame now l l.
Proof. by split. Qed.

Lemma tame_trans now l1 l2 l3 : tame now l1 l2 -> tame now l2 l3 -> tame now l1 l3.
Proof. intros [A1 A2] [B1 B2]. split; auto. Qed.

Lemma tame_post now k l : tame now l (post k l).
Proof. by split. Qed.

Lemma erase_split i (tms tms' : list (Timer T)) : erase i tms = Some tms' ->
  exists a tm b, tms = a ++ [tm] ++ b /\ tms' = a ++ b /\ id tm = i.
Proof.
  revert tms'. induction tms as [|tm tms IH]; intros tms'; cbn; [done|].
  destruct (id tm =? i) eqn:E; bool_prop; [intros [= <-]; by exists [], tm, tms|].
  destruct (erase i tms) as [r|]; [|done]. intros [= <-]. destruct (IH r eq_refl) as (a & x & b & -> & -> & Hx).
  by exists (tm :: a), x, b.
Qed.

Lemma tame_cancel now i l : tame now l (cancel_timer i l).2.
Proof.
  unfold cancel_timer. destruct (erase i (timers_ l)) as [tms|] eqn:E; [|apply tame_refl].
  apply erase_split in E as (a & tm & b & El & -> & _). split; cbn.
  - unfold loop_ok; cbn. rewrite El. intros [H1 H2]. split; [by eapply in_order_skip | by eapply Forall_skip].
  - intros x Hx _. rewrite El. apply elem_of_app in Hx as [Hx|Hx]; rewrite !elem_of_app; auto.
Qed.

(** Arming a timer for later. *)
Lemma tame_add now at_ k l : now < at_ ->
  tame now l (l <| next_timer_id_ := next_timer_id_ l + 1 |>
                <| timers_ := push deadline id (mkTimer at_ (next_timer_id_ l) k) (timers_ l) |>).
Proof.
  intros Hat. split; cbn.
  - intros [H1 H2]. split; cbn.
    + apply push_in_order; [done|]. eapply Forall_impl; [exact H2|]. cbn. lia.
    + apply Forall_push; [cbn; lia|]. eapply Forall_impl; [exact H2|]. cbn. lia.
  - intros tm [->|?]%elem_of_push Hd; [|done]. unfold is_due in Hd. cbn in Hd. lia.
Qed.

Definition due_count (now : Z) l : nat := length (filter (is_due now) (timers_ l)).

Lemma due_count_le now l l' : loop_ok l' -> (forall tm, tm ∈ timers_ l' -> is_due now tm -> tm ∈ timers_ l) ->
  (due_count now l' <= due_count now l)%nat.
Proof.
  intros [Ho _] Hsub. unfold due_count. apply submseteq_length, NoDup_submseteq.
  - apply NoDup_filter. by eapply in_order_NoDup.
  - intros tm [Hd Hin]%list_elem_of_filter. apply list_elem_of_filter. auto.
Qed.

End LoopFacts.

(** ** An iteration of the loop *)

Section Fire.
Context {T W : Type} (loop_of : W -> EventLoop.t T) (set_loop : EventLoop.t T -> W -> W).
Context (call : T -> W -> W).
Import EventLoop.

(** The run of [fire_expired_timers]: the timers it takes off the queue, in order. *)
Inductive fires (now : Z) : W -> list (Timer T) -> W -> Prop :=
  | fires_done w : (forall tm rest, timers_ (loop_of w) = tm :: rest -> now < deadline tm) -> fires now w [] w
  | fires_one w tm rest ts w' :
      timers_ (loop_of w) = tm :: rest -> deadline tm <= now ->
      fires now (call (task tm) (set_loop (loop_of w <| timers_ := rest |>) w)) ts w' ->
      fires now w (tm :: ts) w'.

Context (Hlens : forall l w, loop_of (set_loop l w) = l).
Context (now : Z) (Hcall : forall k w, tame now (loop_of w) (loop_of (call k w))).

(** The loop comes back; it ran timers that were there and due, in order; none is left. *)
Definition fired_well (fuel : nat) (n : Z) (w : W) : Prop :=
  exists ts w', fire_loop loop_of set_loop call fuel now n w = Some (n + zlen ts, w') /\
    fires now w ts w' /\ in_order deadline id ts /\
    Forall (fun tm => tm ∈ timers_ (loop_of w) /\ is_due now tm) ts /\
    Forall (fun tm => now < deadline tm) (timers_ (loop_of w')).

Lemma fire_stop fuel n w :
  in_order deadline id (timers_ (loop_of w)) ->
  (forall tm rest, timers_ (loop_of w) = tm :: rest -> now < deadline tm) -> fired_well fuel n w.
Proof using Type.
  intros Ho Hl.
  assert (fire_loop loop_of set_loop call fuel now n w = Some (n, w) /\
    Forall (fun tm => now < deadline tm) (timers_ (loop_of w))) as [E Hlate].
  { destruct fuel; cbn [fire_loop]; destruct (timers_ (loop_of w)) as [|tm rest]; try done.
    all: specialize (Hl tm rest eq_refl); rewrite (proj2 (Z.ltb_lt now (deadline tm))) by done.
    all: split; [done|]; inversion Ho as [|? ? _ Hb]; subst; constructor; [done|].
    all: eapply Forall_impl; [exact Hb|]; unfold before; intros; lia. }
  exists [], w. change (zlen []) with 0. rewrite Z.add_0_r.
  split_and!; [exact E | by constructor | constructor | constructor | exact Hlate].
Qed.

Lemma fire_step fuel n w tm rest :
  loop_ok (loop_of w) -> timers_ (loop_of w) = tm :: rest -> deadline tm <= now ->
  let l0 := loop_of w <| timers_ := rest |> in
  let w1 := call (task tm) (set_loop l0 w) in
  loop_ok (loop_of w1) /\ (due_count now (loop_of w1) < due_count now (loop_of w))%nat /\
  (fired_well fuel (n + 1) w1 -> fired_well (S fuel) n w).
Proof using Hlens Hcall.
  intros [Ho Hi] Et Hd l0 w1. rewrite Et in Ho, Hi. inversion Ho as [|? ? Ho' Hb]; subst.
  apply Forall_cons in Hi as [_ Hi].
  pose proof (Hcall (task tm) (set_loop l0 w)) as [Hok1 Hdue1]. rewrite Hlens in Hok1, Hdue1. fold w1 in Hok1, Hdue1.
  specialize (Hok1 (conj Ho' Hi)). split; [done|]. split.
  { eapply Nat.le_lt_trans; [exact (due_count_le now l0 _ Hok1 Hdue1)|].
    unfold due_count. rewrite Et, filter_cons_True by done. cbn. lia. }
  intros (ts & w' & E & Hfs & Hto & Hin & Hlate).
  assert (Forall (fun x => x ∈ rest /\ is_due now x) ts) as Hin'.
  { eapply Forall_impl; [exact Hin|]. intros x [Hx Hdx]. split; [by apply Hdue1 | done]. }
  exists (tm :: ts), w'. cbn [fire_loop]. rewrite Et, (proj2 (Z.ltb_ge now (deadline tm))) by done.
  rewrite zlen_cons. replace (n + (1 + zlen ts)) with (n + 1 + zlen ts) by lia.
  split_and!; [exact E | by eapply fires_one | | | done].
  - constructor; [done|]. eapply Forall_impl; [exact Hin'|]. intros x [Hx _]. rewrite Forall_forall in Hb. by apply Hb.
  - constructor; [split; [by left | done]|]. eapply Forall_impl; [exact Hin'|].
    intros x [Hx Hdx]. split; [by right | done].
Qed.

Lemma fire_loop_spec fuel n w :
  loop_ok (loop_of w) -> (due_count now (loop_of w) <= fuel)%nat -> fired_well fuel n w.
Proof using Hlens Hcall.
  revert n w. induction fuel as [|fuel IH]; intros n w Hok Hf; pose proof Hok as [Ho _];
    destruct (timers_ (loop_of w)) as [|tm rest] eqn:Et; try (apply fire_stop; congruence);
    (destruct (decide (now < deadline tm)) as [Hd|Hd];
      [apply fire_stop; [congruence|]; intros ? ? Et'; rewrite Et in Et'; by simplify_eq|]);
    destruct (fire_step O n w tm rest Hok Et ltac:(lia)) as (Hok1 & Hlt & _); [lia|].
  destruct (fire_step fuel n w tm rest Hok Et ltac:(lia)) as (_ & _ & Hgo). apply Hgo, IH; [done | lia].
Qed.

End Fire.

(** C34: Expired timers.  When every task arms its timers for later than the clock reading
    [now], [fire_expired_timers] comes back: as many steps as there are timers due are
    enough.  It ran only timers that were queued and due when it looked at the clock, in
    strictly increasing [(deadline, id)] order, and none that is due is left. *)
Theorem expired_timers_fire {T W : Type} (loop_of : W -> EventLoop.t T) (set_loop : EventLoop.t T -> W -> W)
    (monotonic_now : W -> Z * W) (call : T -> W -> W) (fuel : nat) (w w1 : W) (now : Z) :
  (forall l w, loop_of (set_loop l w) = l) ->
  monotonic_now w = (now, w1) -> loop_of w1 = loop_of w ->
  (forall k w, tame now (loop_of w) (loop_of (call k w))) ->
  loop_ok (loop_of w) -> (due_count now (loop_of w) <= fuel)%nat ->
  exists ts w', EventLoop.fire_expired_timers loop_of set_loop monotonic_now call fuel w = Some (zlen ts, w') /\
    fires loop_of set_loop call now w1 ts w' /\ in_order EventLoop.deadline EventLoop.id ts /\
    (forall tm, tm ∈ ts -> tm ∈ EventLoop.timers_ (loop_of w) /\ EventLoop.deadline tm <= now) /\
    (forall tm, tm ∈ EventLoop.timers_ (loop_of w') -> now < EventLoop.deadline tm).
Proof.
  intros Hlens Hnow Hsame Hcall Hok Hf. unfold EventLoop.fire_expired_timers. rewrite Hnow. rewrite <- Hsame in *.
  destruct (fire_loop_spec loop_of set_loop call Hlens now Hcall fuel 0 w1 Hok Hf) as (ts & w' & E & H1 & H2 & H3 & H4).
  rewrite Forall_forall in H3, H4. by exists ts, w'.
Qed.

(** A loop on a clock that stands still, with tasks that arm themselves again. *)
Definition frozen : Type := EventLoop.t Z * Z.
Definition frozen_loop (w : frozen) : EventLoop.t Z := w.1.
Definition frozen_set (l : EventLoop.t Z) (w : frozen) : frozen := (l, w.2).
Definition frozen_now (w : frozen) : Z * frozen := (w.2, w).
Definition rearm (k : Z) (w : frozen) : frozen :=
  (EventLoop.add_timer_after frozen_loop frozen_set frozen_now k k w).2.
Definition idle_poll (timeout : Z) (w : frozen) : Z * frozen := (0, w).

(** Two timers armed at time 0, and the clock at 10. *)
Definition armed : frozen := ((rearm 3 (rearm 7 (EventLoop.new, 0))).1, 10).

(** A task with a positive delay is tame from the clock reading on. *)
Definition rearm_later (k : Z) (w : frozen) : frozen := rearm (Z.max 1 k) (w.1, Z.max 10 w.2).

Lemma rearm_later_tame k w : tame 10 (frozen_loop w) (frozen_loop (rearm_later k w)).
Proof.
  unfold rearm_later, rearm, EventLoop.add_timer_after, frozen_loop, frozen_set, frozen_now. fields.
  rewrite (proj2 (Z.ltb_lt _ _)) by lia. apply (tame_add 10 _ _ w.1). lia.
Qed.

Lemma expired_timers_fire_witness :
  (due_count 10 (frozen_loop armed) <= 2)%nat /\
  exists ts w', EventLoop.fire_expired_timers frozen_loop frozen_set frozen_now rearm_later 2 armed = Some (zlen ts, w') /\
    fires frozen_loop frozen_set rearm_later 10 armed ts w' /\ in_order EventLoop.deadline EventLoop.id ts /\
    (forall tm, tm ∈ ts -> tm ∈ EventLoop.timers_ (frozen_loop armed) /\ EventLoop.deadline tm <= 10) /\
    (forall tm, tm ∈ EventLoop.timers_ (frozen_loop w') -> 10 < EventLoop.deadline tm).
Proof.
  assert (due_count 10 (frozen_loop armed) <= 2)%nat as Hf by (vm_compute; lia).
  split; [exact Hf|].
  refine (expired_timers_fire frozen_loop frozen_set frozen_now rearm_later 2 armed armed 10 _ _ _ rearm_later_tame _ Hf).
  - intros l w. reflexivity.
  - reflexivity.
  - reflexivity.
  - split.
    + repeat constructor.
    + repeat constructor.
Defined.

(** A task that arms its own timer for now keeps the loop inside one iteration for
    ever: on a clock that stands still, as virtual time does while a node runs, [run_once]
    has not come back after any number of steps. *)
Theorem zero_delay_timer_hangs (fuel : nat) (max_block : Z) :
  EventLoop.run_once frozen_loop frozen_set frozen_now idle_poll rearm fuel max_block (rearm 0 (EventLoop.new, 0)) = None.
Proof.
  assert (forall fuel n i (w : frozen),
    w.2 = 0 -> EventLoop.timers_ w.1 = [EventLoop.mkTimer 0 i 0] ->
    EventLoop.fire_loop frozen_loop frozen_set rearm fuel 0 n w = None) as Hloop.
  { clear. induction fuel as [|fuel IH]; intros n i [l at_] Hat Ht; cbn in Hat, Ht; subst at_; cbn; rewrite Ht; cbn; [done|].
    by eapply IH. }
  set (w0 := rearm 0 (EventLoop.new, 0)). unfold EventLoop.run_once.
  change (EventLoop.drain_pending frozen_loop frozen_set rearm w0) with (0, w0). cbv beta iota.
  assert ((EventLoop.poll_timeout frozen_loop frozen_now max_block w0).2 = w0) as Hp by reflexivity.
  destruct (EventLoop.poll_timeout frozen_loop frozen_now max_block w0) as [timeout w1]. cbn [snd] in Hp. subst w1.
  unfold idle_poll, EventLoop.fire_expired_timers. change (frozen_now w0) with (0, w0). cbv beta iota.
  by rewrite (Hloop fuel 0 1 w0).
Qed.

(** The poll never oversleeps.  With a timer armed, the time the network may wait is
    never negative, ends no later than the timer is due, and stays within the caller's
    bound. *)
Theorem poll_never_oversleeps {T W : Type} (loop_of : W -> EventLoop.t T) (monotonic_now : W -> Z * W)
    (max_block now : Z) (w w1 : W) (tm : EventLoop.Timer T) (rest : list (EventLoop.Timer T)) :
  monotonic_now w = (now, w1) -> EventLoop.timers_ (loop_of w) = tm :: rest -> 0 <= EventLoop.deadline tm ->
  max_block = kNoTimeout \/ 0 <= max_block ->
  let timeout := (EventLoop.poll_timeout loop_of monotonic_now max_block w).1 in
  0 <= timeout /\ now + timeout <= Z.max now (EventLoop.deadline tm) /\ (0 <= max_block -> timeout <= max_block).
Proof.
  intros Hnow Ht Hd Hm. unfold EventLoop.poll_timeout, EventLoop.next_deadline. cbv zeta. rewrite Ht, Hnow.
  destruct (EventLoop.pending_ (loop_of w)); [|cbn; lia].
  rewrite (proj2 (Z.eqb_neq _ _)) by (unfold kNoTimeout; lia). cbn.
  destruct (max_block =? kNoTimeout) eqn:E, (0 <? EventLoop.deadline tm - now) eqn:E2; bool_prop; unfold kNoTimeout in *; lia.
Qed.

Lemma poll_never_oversleeps_witness :
  let timeout := (EventLoop.poll_timeout frozen_loop frozen_now 5 (rearm 3 (EventLoop.new, 0))).1 in
  0 <= timeout /\ 0 + timeout <= Z.max 0 3 /\ (0 <= 5 -> timeout <= 5).
Proof.
  apply (poll_never_oversleeps frozen_loop frozen_now 5 0 _ (rearm 3 (EventLoop.new, 0)) (EventLoop.mkTimer 3 1 3) []).
  - reflexivity.
  - reflexivity.
  - cbn. lia.
  - right. lia.
Defined.
