(* ===== verification/Process.v ===== *)
(** * The broker process

    Models [src/src/io/real/real_clock.*] and [real_random.*], and the world [main] of
    [src/src/main/logengine.cpp] puts a broker in: the disk and the network of [RealDisk.v] and
    [RealNetwork.v], an event loop on the system's clock, and no observer.  There is one
    kernel: a disk or a network that is looked at through the [Host] is looked at with that
    kernel in it.

    [stuck_] is raised when a loop that only its callees end runs out of fuel, and when [poll]
    reads freed memory; nothing lowers it. *)
From S2P Require Import Prelude Base Random RecordBatch SparseIndex Disk Segment Log Network.
From S2P Require Import Posix RealDisk Sockets RealNetwork RaftTypes RaftNode Broker Queue Trace Scheduler EventLoop.

Inductive ClockId := CLOCK_MONOTONIC | CLOCK_REALTIME.

(** [clock_gettime] into seconds and nanoseconds, and [std::random_device]. *)
Class System (K : Type) := {
  clock_gettime : ClockId -> K -> (Z * Z) * K;
  random_device : K -> Z * K }.

Module RealClock.
Section Clock.
Context {K : Type} `{System K}.

Definition monotonic_now (k : K) : Z * K :=
  let '((sec, nsec), k) := clock_gettime CLOCK_MONOTONIC k in (sec * kNanosPerSecond + nsec, k).

(** C++ division truncates. *)
Definition wall_now_ms (k : K) : Z * K :=
  let '((sec, nsec), k) := clock_gettime CLOCK_REALTIME k in (sec * 1000 + Z.quot nsec 1000000, k).

End Clock.
End RealClock.

Module RealRandom.

Record t := mk { seed_ : Z; impl_ : SeededRandom.t }.

Definition from_seed (seed : Z) : t := mk seed (SeededRandom.reseed seed).

Section Seed.
Context {K : Type} `{System K}.

Definition os_seed (k : K) : Z * K :=
  let '(hi, k) := random_device k in
  let '(lo, k) := random_device k in
  (Z.lxor (u64 (Z.shiftl hi 32)) lo, k).

Definition new (k : K) : t * K := let '(seed, k) := os_seed k in (from_seed seed, k).

End Seed.

(** The rejection loop accepts each draw with probability at least a half. *)
Definition kDraws : nat := 4096.

#[export] Instance real_random : Random t := {
  next_u64 r := let '(x, g) := SeededRandom.next_u64 (impl_ r) in (x, mk (seed_ r) g);
  next_below b r :=
    match SeededRandom.next_below kDraws b (impl_ r) with
    | Some (x, g) => (x, mk (seed_ r) g)
    | None => (0, r)
    end }.

End RealRandom.

Module Process.

#[local] Existing Instances RealRandom.real_random RealDisk.real_disk RealNetwork.real_network.

Section Process.
Context {K A : Type} {PO : Posix K} {SO : Sockets K A} {SY : System K}.

Abbreviation net := (RealNetwork.t K unit).
Abbreviation events := (EventLoop.t unit).

Record t := mk {
  broker_ : Broker.t RealRandom.t;
  disk_ : RealDisk.t K;
  network_ : net;
  loop_ : events;
  rng_ : RealRandom.t;
  kernel : K;
  stuck_ : bool }.

#[global] Instance Process_eta : Settable t := fun p =>
  mk (broker_ p) (disk_ p) (network_ p) (loop_ p) (rng_ p) (kernel p) (stuck_ p).

Definition network (p : t) : net := network_ p <| RealNetwork.kernel := kernel p |>.
Definition put_network (n : net) (p : t) : t := p <| network_ := n |> <| kernel := RealNetwork.kernel n |>.

Definition monotonic_now (p : t) : Z * t := let '(now, k) := RealClock.monotonic_now (kernel p) in (now, p <| kernel := k |>).

(** An event loop reads the clock to arm a timer. *)
#[global] Instance process_timers : Timers (events * K) unit := fun delay k l =>
  (EventLoop.add_timer_after fst (fun l' x => (l', x.2))
     (fun x => let '(now, k) := RealClock.monotonic_now x.2 in (now, (x.1, k))) delay k l).2.

#[global] Instance process_host : Broker.Host RealRandom.t (RealDisk.t K) net (events * K) t := {
  Broker.broker := broker_;
  Broker.put_broker b p := p <| broker_ := b |>;
  Broker.disk p := disk_ p <| RealDisk.kernel := kernel p |>;
  Broker.put_disk d p := p <| disk_ := d |> <| kernel := RealDisk.kernel d |>;
  Broker.net := network;
  Broker.put_net := put_network;
  Broker.loop p := (loop_ p, kernel p);
  Broker.put_loop l p := p <| loop_ := l.1 |> <| kernel := l.2 |>;
  Broker.rng := rng_;
  Broker.put_rng g p := p <| rng_ := g |> }.

(** The null observer. *)
Definition nobody (o : Observation) (p : t) : t := p.

Section Run.
Context (fuel : nat).

Definition upcall (h : unit) (u : Upcall) (conn : Z) (p : t) : t :=
  match u with
  | on_readable => match Broker.on_readable tt nobody fuel conn p with Some p => p | None => p <| stuck_ := true |> end
  | on_writable => Broker.on_writable tt conn p
  | on_hangup => Broker.on_hangup conn p
  end.

Definition poll (timeout : Z) (p : t) : Z * t :=
  match RealNetwork.poll network put_network upcall timeout p with
  | Some r => r
  | None => (0, p <| stuck_ := true |>)
  end.

Definition call (k : unit) (p : t) : t := Broker.on_tick tt tt nobody p.

Definition run_once (max_block : Z) (p : t) : Z * t :=
  match EventLoop.run_once loop_ (fun l p => p <| loop_ := l |>) monotonic_now poll call fuel max_block p with
  | Some r => r
  | None => (0, p <| stuck_ := true |>)
  end.

End Run.

End Process.

#[global] Arguments t : clear implicits.

End Process.
