(* ===== verification/Histogram.v ===== *)
(** * Latency percentiles

    Models [src/bench/histogram.h]: every sample kept, sorted at the first question.  Ranks
    are doubles; the printed line is left out.  With it go the conversions of nanoseconds to
    doubles of [src/src/base/types.h]. *)
From S2P Require Import Prelude Base Random.
From stdpp Require Import sorting.
From Stdlib Require Import SpecFloat.

#[local] Open Scope Z_scope.

(** [base::to_millis_f] and [base::to_seconds_f] *)
Definition to_millis_f (n : Z) : double := SFdiv 53 1024 (double_of_u64 n) (double_of_u64 1000000).
Definition to_seconds_f (n : Z) : double := SFdiv 53 1024 (double_of_u64 n) (double_of_u64 1000000000).

Module Histogram.

Record t := mk { samples_ : list Z; sorted_ : bool }.

#[export] Instance Histogram_eta : Settable t := fun h => mk (samples_ h) (sorted_ h).

Definition new : t := mk [] false.

Definition add (sample : Z) (h : t) : t := h <| samples_ := samples_ h ++ [sample] |>.
Definition count (h : t) : Z := zlen (samples_ h).
Definition empty (h : t) : bool := match samples_ h with [] => true | _ => false end.

(** [static_cast<std::size_t>] of a double that is not negative and in range *)
Definition size_of_double (d : double) : Z :=
  match d with
  | S754_finite false m e => if 0 <=? e then Z.pos m * 2 ^ e else Z.pos m / 2 ^ (- e)
  | _ => 0
  end.

Definition half : double := S754_finite false 4503599627370496 (-53).

Definition sort (h : t) : t := if sorted_ h then h else mk (merge_sort Z.le (samples_ h)) true.

Definition index_of (p : double) (n : Z) : Z :=
  let rank := SFmul 53 1024 (SFdiv 53 1024 p (double_of_u64 100)) (double_of_u64 (n - 1)) in
  Z.min (size_of_double (SFadd 53 1024 rank half)) (n - 1).

Definition percentile (p : double) (h : t) : Z * t :=
  match samples_ h with
  | [] => (0, h)
  | _ => let h := sort h in (at_ (samples_ h) (index_of p (zlen (samples_ h))), h)
  end.

Definition max (h : t) : Z * t := if empty h then (0, h) else percentile (double_of_u64 100) h.

End Histogram.

Section Facts.
Import Histogram.

Lemma index_range p n : 0 < n -> 0 <= index_of p n < n.
Proof.
  intros Hn. unfold index_of. cbv zeta. set (d := SFadd _ _ _ _). assert (0 <= size_of_double d) as Hd.
  { unfold size_of_double. destruct d as [| | |[] m e]; try lia. destruct (0 <=? e) eqn:E; bool_prop.
    - pose proof (Z.pow_nonneg 2 e). lia.
    - apply Z.div_pos; [lia|]. apply Z.pow_pos_nonneg; lia. }
  lia.
Qed.

(** A percentile is one of the samples, and asking does not change them. *)
Lemma percentile_is_sample p h : samples_ h <> [] ->
  let '(v, h') := percentile p h in v ∈ samples_ h /\ samples_ h' ≡ₚ samples_ h.
Proof.
  intros Hne. unfold percentile. destruct (samples_ h) as [|x xs] eqn:Hs; [done|]. cbv zeta.
  assert (samples_ (sort h) ≡ₚ x :: xs) as P.
  { unfold sort. destruct (sorted_ h); [by rewrite Hs|]. cbn. rewrite merge_sort_Permutation. by rewrite Hs. }
  split; [|done]. rewrite <- P. pose proof (index_range p (zlen (samples_ (sort h)))) as R.
  assert (0 < zlen (samples_ (sort h))) as L by (unfold zlen; rewrite P; cbn; lia). specialize (R L).
  unfold at_. apply list_elem_of_In, nth_In. unfold zlen in *. lia.
Qed.

End Facts.

(** The flag outlives what it says: a sample added after a question is not sorted in, and the
    largest sample is not what [max] returns. *)
Example max_after_add :
  let h := Histogram.add 1 (Histogram.max (Histogram.add 5 Histogram.new)).2 in
  Histogram.samples_ h = [5; 1] /\ (Histogram.max h).1 = 1.
Proof. vm_compute. done. Qed.
