(* ===== verification/LogEngine.v ===== *)
(** * logengine

    Models [src/src/main/logengine.cpp]: the command line, starting the broker of a process,
    and the loop with its built-in producer.  A line of output is a value of [Line] with what
    it prints; the rates of the final report are left out.  Times and counts are not wrapped. *)
From S2P Require Import Prelude Base Random RecordBatch SparseIndex Disk Text Segment Log Network.
From S2P Require Import Posix RealDisk Sockets RealNetwork RaftTypes RaftNode Broker Queue Trace Scheduler EventLoop.
From S2P Require Import Process Histogram.

#[local] Open Scope Z_scope.

Import Strto.

Module LogEngine.

(** ** The peers *)

(** [id@host:port]: the last colon must be behind the first at. *)
Definition parse_peer (item : chars) : option Broker.Peer :=
  match split_at "@" item, rsplit_at ":" item with
  | (number, Some _), Some (before, port) =>
      if (length before <? length number)%nat then None
      else
        let host := drop (S (length number)) before in
        Some (Broker.mkPeer host (u16 (strtoul 10 port)) (u32 (strtoul 10 number)))
  | _, _ => None
  end.

(** The loop of [parse_peers]; [out] is the vector so far. *)
Fixpoint parse_peers (fuel : nat) (spec : chars) (out : list Broker.Peer) : option (list Broker.Peer) :=
  match fuel with
  | O => Some out
  | S fuel' =>
      match spec with
      | [] => Some out
      | _ =>
          let '(item, rest) := split_at "," spec in
          let rest := default [] rest in
          match item with
          | [] => parse_peers fuel' rest out
          | _ =>
              match parse_peer item with
              | None => None
              | Some peer => parse_peers fuel' rest (out ++ [peer])
              end
          end
      end
  end.

Definition role_name {G} (b : Broker.t G) : string :=
  if Broker.is_leader b then "leader" else if Broker.leader b =? kNoNode then "no-leader" else "follower".

(** ** Options *)

Record Options := mkOptions {
  config : Broker.BrokerConfig;
  produce : bool;
  produce_ms : Z;
  records_per_batch : Z;
  status_ms : Z;
  duration_s : Z;
  bench_rate : Z;
  record_size : Z;
  have_id : bool;
  bind_all : bool }.

#[export] Instance Options_eta : Settable Options := fun o =>
  mkOptions (config o) (produce o) (produce_ms o) (records_per_batch o) (status_ms o) (duration_s o) (bench_rate o)
    (record_size o) (have_id o) (bind_all o).

#[export] Instance BrokerConfig_eta : Settable Broker.BrokerConfig := fun c =>
  Broker.mkConfig (Broker.id c) (Broker.data_dir c) (Broker.port c) (Broker.peers c) (Broker.tick_interval c)
    (Broker.election_timeout_ticks c) (Broker.election_timeout_jitter_ticks c) (Broker.heartbeat_timeout_ticks c)
    (Broker.segment_max_bytes c) (Broker.fsync_hard_state c) (Broker.ack_on_local_append c).

Definition default_config : Broker.BrokerConfig :=
  Broker.mkConfig 0 [] 0 [] 10000000 15 15 5 (32 * 1024 * 1024) true false.

Definition default_options : Options := mkOptions default_config false 20 4 1000 0 0 1024 false false.

Inductive Line :=
  | Usage
  | BadPeers
  | UnknownArgument (arg : chars)
  | CannotCreate (dir : chars) (e : ErrorCode)
  | FailedToStart (id : Z) (e : ErrorCode)
  | Listening (id port : Z) (dir : chars) (peers : Z)
  | StatusLine (id : Z) (role : string) (term commit log_end proposed : Z)
  | BenchReport (id : Z) (leader : bool) (committed record_bytes rejected : Z) (latency : Histogram.t)
  | Stopping (id term commit proposed : Z).

Definition on_config (f : Broker.BrokerConfig -> Broker.BrokerConfig) (o : Options) : Options := o <| config := f (config o) |>.

(** An option that takes a value. *)
Definition take_value (arg value : chars) (o : Options) : option (Options + (Z * list Line)) :=
  if bool_decide (arg = lit "--id") then
    Some (inl (on_config (fun c => c <| Broker.id := u32 (strtoul 10 value) |>) o <| have_id := true |>))
  else if bool_decide (arg = lit "--port") then Some (inl (on_config (fun c => c <| Broker.port := u16 (strtoul 10 value) |>) o))
  else if bool_decide (arg = lit "--dir") then Some (inl (on_config (fun c => c <| Broker.data_dir := value |>) o))
  else if bool_decide (arg = lit "--peers") then
    match parse_peers (S (length value)) value (Broker.peers (config o)) with
    | None => Some (inr (2, [BadPeers]))
    | Some ps => Some (inl (on_config (fun c => c <| Broker.peers := ps |>) o))
    end
  else if bool_decide (arg = lit "--produce-ms") then Some (inl (o <| produce_ms := strtoll 10 value |>))
  else if bool_decide (arg = lit "--records") then Some (inl (o <| records_per_batch := u32 (strtoul 10 value) |>))
  else if bool_decide (arg = lit "--status-ms") then Some (inl (o <| status_ms := strtoll 10 value |>))
  else if bool_decide (arg = lit "--bench-rate") then Some (inl (o <| bench_rate := strtoul 10 value |>))
  else if bool_decide (arg = lit "--record-bytes") then Some (inl (o <| record_size := u32 (strtoul 10 value) |>))
  else if bool_decide (arg = lit "--duration-s") then Some (inl (o <| duration_s := strtoll 10 value |>))
  else None.

(** An argument without one. *)
Definition take_flag (arg : chars) (o : Options) : Options + (Z * list Line) :=
  if bool_decide (arg = lit "--produce") then inl (o <| produce := true |>)
  else if bool_decide (arg = lit "--bind-all") then inl (o <| bind_all := true |>)
  else if bool_decide (arg = lit "-h") || bool_decide (arg = lit "--help") then inr (0, [Usage])
  else inr (2, [UnknownArgument arg; Usage]).

Fixpoint parse_args (args : list chars) (o : Options) : Options + (Z * list Line) :=
  match args with
  | [] => inl o
  | arg :: rest =>
      let flag := match take_flag arg o with inr e => inr e | inl o => parse_args rest o end in
      match rest with
      | [] => flag
      | value :: rest' =>
          match take_value arg value o with
          | Some (inl o) => parse_args rest' o
          | Some (inr e) => inr e
          | None => flag
          end
      end
  end.

(** The check behind the loop. *)
Definition options (args : list chars) : Options + (Z * list Line) :=
  match parse_args args default_options with
  | inr e => inr e
  | inl o =>
      if negb (have_id o) || (Broker.port (config o) =? 0) || match Broker.data_dir (config o) with [] => true | _ => false end
      then inr (2, [Usage]) else inl o
  end.

(** ** The producer *)

Record Inflight := mkInflight { end_offset : Z; intended : Z }.

(** The variables of [main] the loop works on. *)
Record Load := mkLoad {
  builder : BatchBuilder.t;
  proposed : Z;
  rejected_not_leader : Z;
  inflight : list Inflight;
  latency : Histogram.t;
  committed_records : Z;
  record_bytes : Z;
  next_issue : Z;
  next_status : Z }.

#[export] Instance Load_eta : Settable Load := fun l =>
  mkLoad (builder l) (proposed l) (rejected_not_leader l) (inflight l) (latency l) (committed_records l) (record_bytes l)
    (next_issue l) (next_status l).


Definition bench (o : Options) : bool := 0 <? bench_rate o.
Definition issue_interval (o : Options) : Z :=
  if bench o then kNanosPerSecond * records_per_batch o / bench_rate o else millis (produce_ms o).

Definition payload (offset size : Z) : list Z :=
  resize_with (code ".") size (bytes_of (lit "r" ++ to_chars offset ++ lit "-")).

Fixpoint add_records (n : nat) (offset size : Z) (b : BatchBuilder.t) : bool * BatchBuilder.t :=
  match n with
  | O => (true, b)
  | S n' =>
      match BatchBuilder.add_record b (payload offset size) with
      | (fail _, b) => (false, b)
      | (Ok _, b) => add_records n' (u64 (offset + 1)) size b
      end
  end.

#[local] Existing Instances RealRandom.real_random RealDisk.real_disk RealNetwork.real_network.

Section Main.
Context {K A : Type} {PO : Posix K} {SO : Sockets K A} {SY : System K}.
Context (o : Options) (fuel : nat).
Abbreviation process := (Process.t K).

Definition next_offset_of (p : process) : option Z := Log.next_offset_ <$> Broker.log_ (Process.broker_ p).

Definition issue_one (due : Z) (l : Load) (p : process) : Load * process :=
  match Broker.is_leader (Process.broker_ p), next_offset_of p with
  | true, Some next =>
      let '(added, b) := add_records (Z.to_nat (records_per_batch o)) next (record_size o) (BatchBuilder.clear (builder l)) in
      let l := l <| builder := b |> in
      if negb added then (l, p)
      else
        let '(r, b, p) := Broker.propose tt Process.nobody (builder l) p in
        let l := l <| builder := b |> in
        match r with
        | fail _ => (l <| rejected_not_leader := rejected_not_leader l + 1 |>, p)
        | Ok _ =>
            let l := l <| proposed := proposed l + 1 |> in
            if bench o
            then (l <| inflight := inflight l ++ [mkInflight (default 0 (next_offset_of p)) due] |>
                    <| record_bytes := record_bytes l + records_per_batch o * record_size o |>, p)
            else (l, p)
        end
  | _, _ => (l <| rejected_not_leader := rejected_not_leader l + 1 |>, p)
  end.

(** [while (next_issue <= now && budget-- > 0)] *)
Fixpoint catch_up (budget : nat) (now : Z) (l : Load) (p : process) : Load * process :=
  if negb (next_issue l <=? now) then (l, p)
  else
    match budget with
    | O => (l, p)
    | S budget' =>
        let '(l, p) := issue_one (next_issue l) l p in
        catch_up budget' now (l <| next_issue := next_issue l + issue_interval o |>) p
    end.

Definition issue (now : Z) (l : Load) (p : process) : Load * process :=
  if produce o || bench o
  then
    let '(l, p) := catch_up 64 now l p in
    (if next_issue l <? now then l <| next_issue := now |> else l, p)
  else (l, p).

(** What has committed leaves [inflight], with its latency. *)
Fixpoint settle_loop (now commit : Z) (waiting : list Inflight) (l : Load) : Load :=
  match waiting with
  | [] => l <| inflight := [] |>
  | x :: rest =>
      if end_offset x <=? commit
      then settle_loop now commit rest
             (l <| latency := Histogram.add (now - intended x) (latency l) |>
                <| committed_records := committed_records l + records_per_batch o |>)
      else l <| inflight := waiting |>
  end.

Definition settle (now : Z) (l : Load) (p : process) : Load :=
  if bench o then settle_loop now (Broker.commit_index (Process.broker_ p)) (inflight l) l else l.

Definition status (now : Z) (l : Load) (p : process) : list Line * Load :=
  if (0 <? status_ms o) && (next_status l <=? now)
  then
    let b := Process.broker_ p in
    ([StatusLine (Broker.id (config o)) (role_name b) (Broker.term b) (Broker.commit_index b) (Broker.log_end b) (proposed l)],
     l <| next_status := now + millis (status_ms o) |>)
  else ([], l).

(** One round of [while (true)]: [None] is its [break]. *)
Definition round (deadline : Z) (l : Load) (p : process) : process * option (list Line * Load) :=
  let '(now, p) := Process.monotonic_now p in
  if negb (deadline =? kNoTimeout) && (deadline <=? now) then (p, None)
  else
    let '(l, p) := issue now l p in
    let l := settle now l p in
    let '(lines, l) := status now l p in
    let '(_, p) := Process.run_once fuel (millis 1) p in
    (p, Some (lines, l)).

Fixpoint rounds (k : nat) (deadline : Z) (l : Load) (p : process) : option (list Line * Load * process) :=
  match round deadline l p with
  | (p, None) => Some ([], l, p)
  | (p, Some (lines, l)) =>
      match k with
      | O => None
      | S k' =>
          match rounds k' deadline l p with
          | Some (more, l, p) => Some (lines ++ more, l, p)
          | None => None
          end
      end
  end.

(** The loop and what is printed behind it. *)
Definition serve (k : nat) (p : process) : option (list Line * process) :=
  let '(started_at, p) := Process.monotonic_now p in
  let deadline := if 0 <? duration_s o then started_at + seconds (duration_s o) else kNoTimeout in
  let l := mkLoad BatchBuilder.new 0 0 [] Histogram.new 0 0 started_at started_at in
  match rounds k deadline l p with
  | None => None
  | Some (lines, l, p) =>
      let b := Process.broker_ p in
      let id := Broker.id (config o) in
      let '(report, p) :=
        if bench o
        then
          let '(_, p) := Process.monotonic_now p in
          ([BenchReport id (Broker.is_leader b) (committed_records l) (record_bytes l) (rejected_not_leader l) (latency l)], p)
        else ([], p) in
      Some (lines ++ report ++ [Stopping id (Broker.term b) (Broker.commit_index b) (proposed l)], p)
  end.

(** What [main] constructs, and its [make_directories]. *)
Definition prepare (kernel : K) : Status * process :=
  let c := config o in
  let n := RealNetwork.new (bind_all o) kernel in
  let '(rng, kernel) := RealRandom.new (RealNetwork.kernel n) in
  let '(made, d) := RealDisk.make_directories (Broker.data_dir c) (RealDisk.new kernel) in
  (made, Process.mk (Broker.new c false) d n EventLoop.new rng (RealDisk.kernel d) false).

Definition start (p : process) : Status * process := Broker.start tt tt Process.nobody p.

(** The destructors, last constructed first; the broker is not constructed before the
    directory is there. *)
Definition shut_down (constructed : bool) (p : process) : K :=
  let p := if constructed then Broker.destroy p else p in
  let k := RealDisk.destroy (Broker.disk p) in
  RealNetwork.destroy (Process.network_ p <| RealNetwork.kernel := k |>).

(** [main] behind the command line; [k] bounds the rounds. *)
Definition run (k : nat) (kernel : K) : option (Z * list Line * K) :=
  let c := config o in
  match prepare kernel with
  | (fail e, p) => Some (1, [CannotCreate (Broker.data_dir c) e], shut_down false p)
  | (Ok _, p) =>
      match start p with
      | (fail e, p) => Some (1, [FailedToStart (Broker.id c) e], shut_down true p)
      | (Ok _, p) =>
          match serve k p with
          | None => None
          | Some (lines, p) =>
              Some (0, Listening (Broker.id c) (Broker.port c) (Broker.data_dir c) (zlen (Broker.peers c)) :: lines, shut_down true p)
          end
      end
  end.

End Main.

Definition main {K A} `{Posix K, Sockets K A, System K} (args : list chars) (fuel k : nat) (kernel : K) : option (Z * list Line * K) :=
  match options args with
  | inr (code, lines) => Some (code, lines, kernel)
  | inl o => run o fuel k kernel
  end.

End LogEngine.
