(* ===== verification/LogEngineProps.v ===== *)
(** * logengine: theorems

    A list of peers on the command line is read as it was written; the producer's latencies
    count from when a batch was due; and a process whose port is taken goes on without one. *)
From S2P Require Import Prelude Base Random RecordBatch SparseIndex Disk Text Segment Log Network.
From S2P Require Import Posix RealDisk Machine Sockets RealNetwork RealNetworkProps RaftTypes RaftNode Broker Queue Trace Scheduler.
From S2P Require Import EventLoop Process Histogram LogEngine.
Import Strto.

(** ** Peers *)

Section Peers.
Import LogEngine.

(** An entry of the list, as written. *)
Record Written := mkWritten { w_id : chars; w_host : chars; w_port : chars }.

Definition well_written (x : Written) : Prop :=
  all_digits (w_id x) /\ all_digits (w_port x) /\ digits 10 (w_id x) 0 < 2 ^ 32 /\ digits 10 (w_port x) 0 < 2 ^ 16 /\ (","%char ∉ w_host x).

Definition show (x : Written) : chars := w_id x ++ "@"%char :: w_host x ++ ":"%char :: w_port x.
Definition meant (x : Written) : Broker.Peer := Broker.mkPeer (w_host x) (digits 10 (w_port x) 0) (digits 10 (w_id x) 0).

Fixpoint listed (xs : list Written) : chars :=
  match xs with
  | [] => []
  | [x] => show x
  | x :: rest => show x ++ ","%char :: listed rest
  end.

Lemma parse_peer_show x : well_written x -> parse_peer (show x) = Some (meant x).
Proof.
  intros (Hi & Hp & Li & Lp & Hh). unfold parse_peer, show, meant.
  rewrite split_at_behind by (by apply not_digit).
  replace (w_id x ++ "@"%char :: w_host x ++ ":"%char :: w_port x)
    with ((w_id x ++ "@"%char :: w_host x) ++ ":"%char :: w_port x) by by rewrite <- app_assoc.
  rewrite rsplit_at_last by (by apply not_digit). rewrite length_app. cbn [length].
  replace (_ <? _)%nat with false by (symmetry; apply Nat.ltb_ge; lia).
  rewrite drop_app_ge by lia. replace (S _ - _)%nat with 1%nat by lia. cbn [drop].
  pose proof (digits_nonneg (w_id x) 0). pose proof (digits_nonneg (w_port x) 0).
  rewrite !strtoul_all by (done || lia). do 2 f_equal; apply wrap_small; lia.
Qed.

Lemma show_no_comma x : well_written x -> ","%char ∉ show x.
Proof.
  intros (Hi & Hp & _ & _ & Hh). unfold show.
  pose proof (not_digit ","%char _ eq_refl Hi). pose proof (not_digit ","%char _ eq_refl Hp).
  rewrite elem_of_app, elem_of_cons, elem_of_app, elem_of_cons. naive_solver.
Qed.

Lemma show_cons x : exists c s, show x = c :: s.
Proof. unfold show. destruct (w_id x); eexists _, _; reflexivity. Qed.

(** One turn of the loop over an entry. *)
Lemma parse_peers_step x rest fuel out : well_written x -> default ","%char (head rest) = ","%char ->
  parse_peers (S fuel) (show x ++ rest) out = parse_peers fuel (tail rest) (out ++ [meant x]).
Proof.
  intros Hx Hr. pose proof (show_no_comma x Hx). pose proof (parse_peer_show x Hx) as P. destruct (show_cons x) as (a & s & E).
  destruct rest as [|c more]; cbn in Hr; subst; cbn [parse_peers tail];
    rewrite ?app_nil_r; [rewrite split_at_none by done|rewrite split_at_behind by done];
    rewrite E in *; cbn [app]; by rewrite P.
Qed.

(** a list of peers [id@host:port,...] is read as it was written: whatever the hosts are
    (an IPv6 address with its colons, a name with an [@]) as long as no host has a comma in
    it, every entry is one peer, in order, with the host unchanged and the numbers of the two
    digit strings. *)
Theorem parse_peers_reads xs : Forall well_written xs ->
  parse_peers (S (length (listed xs))) (listed xs) [] = Some (map meant xs).
Proof.
  enough (forall fuel out, (length (listed xs) < fuel)%nat -> Forall well_written xs ->
    parse_peers fuel (listed xs) out = Some (out ++ map meant xs)) as G by (intros; apply (G _ []); [lia|done]).
  induction xs as [|x xs IH]; intros fuel out Hf Hx; (destruct fuel as [|fuel]; [cbn in Hf; lia|]); [by rewrite app_nil_r|].
  apply Forall_cons in Hx as [Hx Hxs]. destruct xs as [|y ys].
  - cbn [listed]. rewrite <- (app_nil_r (show x)), parse_peers_step by done. by destruct fuel.
  - change (listed (x :: y :: ys)) with (show x ++ ","%char :: listed (y :: ys)) in *.
    rewrite parse_peers_step by done. cbn [tail]. rewrite length_app in Hf. cbn [length] in Hf.
    rewrite IH by (done || lia). by rewrite <- app_assoc.
Qed.

Definition two_peers : list Written :=
  [mkWritten (lit "1") (lit "::1") (lit "09001"); mkWritten (lit "2") (lit "b@c") (lit "9002")].

Lemma parse_peers_reads_witness :
  listed two_peers = lit "1@::1:09001,2@b@c:9002" /\
  parse_peers 23 (listed two_peers) [] = Some [Broker.mkPeer (lit "::1") 9001 1; Broker.mkPeer (lit "b@c") 9002 2].
Proof.
  split; [reflexivity|]. apply (parse_peers_reads two_peers).
  repeat constructor; try (eexists; reflexivity); cbn; rewrite ?elem_of_cons, ?elem_of_nil; intuition discriminate.
Defined.

End Peers.

(** ** The producer *)

Section Producer.
Import LogEngine.
Context {K A : Type} {PO : Posix K} {SO : Sockets K A} {SY : System K}.
Context (o : Options).

(** No batch waits for a commit before it was due, and no sample is negative. *)
Definition honest (now : Z) (l : Load) : Prop :=
  Forall (fun x => intended x <= now) (inflight l) /\ Forall (Z.le 0) (Histogram.samples_ (latency l)).

Lemma issue_one_inflight due l (p : Process.t K) :
  let l' := (issue_one o due l p).1 in
  latency l' = latency l /\ next_issue l' = next_issue l /\
  (inflight l' = inflight l \/ exists e, inflight l' = inflight l ++ [mkInflight e due]).
Proof.
  unfold issue_one. repeat case_match; cbn; split_and!; eauto.
Qed.

Lemma catch_up_honest budget : forall now l (p : Process.t K), honest now l -> honest now (catch_up o budget now l p).1.
Proof.
  induction budget as [|budget IH]; intros now l p H; cbn; (destruct (next_issue l <=? now) eqn:E; cbn; [|done]); [done|].
  pose proof (issue_one_inflight (next_issue l) l p) as (L & _ & I). destruct (issue_one _ _ l p) as [l' p']. cbn in L, I.
  apply IH. destruct H as [H1 H2]. split; cbn; [|by rewrite L].
  destruct I as [-> | [e ->]]; [done|]. apply Forall_app. split; [done|]. constructor; [cbn; bool_prop; lia|done].
Qed.

Lemma issue_honest now l (p : Process.t K) : honest now l -> honest now (issue o now l p).1.
Proof.
  intros H. unfold issue. destruct (_ || _); [|done]. pose proof (catch_up_honest 64 now l p H).
  destruct (catch_up _ _ _ _ _) as [l' p']. cbn in *. by destruct (_ <? _).
Qed.

Lemma settle_loop_honest now commit waiting : forall l,
  Forall (fun x => intended x <= now) waiting -> Forall (Z.le 0) (Histogram.samples_ (latency l)) ->
  honest now (settle_loop o now commit waiting l).
Proof.
  induction waiting as [|x rest IH]; intros l Hw Hs; cbn; [by split; [constructor|]|].
  destruct (_ <=? _); [|by split]. apply Forall_cons in Hw as [Hx Hw]. apply IH; [done|].
  cbn. apply Forall_app. split; [done|]. constructor; [lia|done].
Qed.

Lemma honest_later now now' l : now <= now' -> honest now l -> honest now' l.
Proof. intros Hn [H1 H2]. split; [|done]. eapply Forall_impl; [exact H1|]. cbn. lia. Qed.

Section Rounds.
Context (fuel : nat) (deadline : Z).

Lemma round_honest l (p p' : Process.t K) lines l' : honest (Process.monotonic_now p).1 l ->
  round o fuel deadline l p = (p', Some (lines, l')) -> honest (Process.monotonic_now p).1 l'.
Proof.
  unfold round. destruct (Process.monotonic_now p) as [now q]. cbn. intros H. destruct (_ && _); [done|].
  pose proof (issue_honest now l q H) as Hi. destruct (issue o now l q) as [l1 q1]. cbn in Hi.
  assert (honest now (settle o now l1 q1)) as Hs by (unfold settle; destruct (bench o); [apply settle_loop_honest; apply Hi|done]).
  unfold status. destruct (_ && _); destruct (Process.run_once _ _ _); intros [= <- <- <-]; exact Hs.
Qed.

(** The rounds of a process whose clock does not go back: what they work on, and the time of
    the last one. *)
Inductive paced : Z -> Load -> Process.t K -> Prop :=
| paced_start now b p : paced now (mkLoad b 0 0 [] Histogram.new 0 0 now now) p
| paced_round now l p lines l' p' :
    paced now l p -> now <= (Process.monotonic_now p).1 ->
    round o fuel deadline l p = (p', Some (lines, l')) -> paced (Process.monotonic_now p).1 l' p'.

(** the latencies of the benchmark are never negative and no batch waits before it was due:
    a batch is issued in a round that has reached the time it was due at, however many of them
    a slow round has to catch up on, and a later round measures from that time. *)
Theorem latency_never_negative now l p : paced now l p ->
  Forall (Z.le 0) (Histogram.samples_ (latency l)) /\ Forall (fun x => intended x <= now) (inflight l).
Proof.
  intros H. enough (honest now l) as [] by done. induction H as [|now l p lines l' p' _ IH Hn E]; [by split; constructor|].
  eapply round_honest; [|exact E]. by eapply honest_later.
Qed.

End Rounds.

End Producer.

(** ** A box to run it on *)

(** A machine, its sockets, and a clock that moves whenever it is read; [taken] if somebody
    else has the port. *)
Module Box.

Record t := mk { machine : Machine.t; sockets : Toy.t; clock : Z; taken : bool }.

Definition on_machine {R} (f : Machine.t -> R * Machine.t) (k : t) : R * t :=
  let '(r, m) := f (machine k) in (r, mk m (sockets k) (clock k) (taken k)).
Definition on_sockets {R} (f : Toy.t -> R * Toy.t) (k : t) : R * t :=
  let '(r, s) := f (sockets k) in (r, mk (machine k) s (clock k) (taken k)).

#[local] Existing Instances Toy.toy_sockets Machine.machine_posix.

Definition EADDRINUSE : Errno := Eother 98.
Definition kStep : Z := 5000000.

#[export] Instance box_posix : Posix t := {
  sys_open p fl := on_machine (sys_open p fl);
  sys_close fd k := mk (sys_close fd (machine k)) (sockets k) (clock k) (taken k);
  sys_pwrite fd data off := on_machine (sys_pwrite fd data off);
  sys_pread fd n off := on_machine (sys_pread fd n off);
  sys_fsync fd := on_machine (sys_fsync fd);
  sys_ftruncate fd n := on_machine (sys_ftruncate fd n);
  sys_fstat fd := on_machine (sys_fstat fd);
  sys_unlink p := on_machine (sys_unlink p);
  create_directories p := on_machine (create_directories p);
  directory_iterator dir := on_machine (directory_iterator dir);
  pending_signals k := pending_signals (machine k) }.

#[export] Instance box_sockets : Sockets t unit := {
  ignore_sigpipe k := k;
  sys_socket := on_sockets sys_socket;
  set_reuseaddr _ k := k;
  set_nodelay _ k := k;
  sys_bind fd i port k := if taken k then (Errno_is EADDRINUSE, k) else on_sockets (sys_bind fd i port) k;
  sys_listen fd n := on_sockets (sys_listen fd n);
  sys_getfl fd := on_sockets (sys_getfl fd);
  sys_setfl fd fl := on_sockets (sys_setfl fd fl);
  sys_accept fd := on_sockets (sys_accept fd);
  sys_getsockname fd := on_sockets (sys_getsockname fd);
  getaddrinfo host port k := (Some tt, k);
  sys_connect fd a := on_sockets (sys_connect fd a);
  sys_read fd n := on_sockets (sys_read fd n);
  sys_send fd data := on_sockets (sys_send fd data);
  close_fd fd k := mk (machine k) (close_fd fd (sockets k)) (clock k) (taken k);
  epoll_create1 := on_sockets epoll_create1;
  epoll_ctl ep op fd := on_sockets (epoll_ctl ep op fd);
  epoll_wait ep n ms := on_sockets (epoll_wait ep n ms) }.

#[export] Instance box_system : System t := {
  clock_gettime _ k := ((clock k / 1000000000, clock k mod 1000000000), mk (machine k) (sockets k) (clock k + kStep) (taken k));
  random_device k := (7, k) }.

Definition boot (taken : bool) : t := mk Machine.boot (Toy.mk ∅ ∅ ∅ ∅ []) 0 taken.

End Box.
#[local] Existing Instances Box.box_posix Box.box_sockets Box.box_system.

(** ** Runs *)

Section Runs.
Import LogEngine.

Definition args (extra : list string) : list chars :=
  map lit (["--id"; "1"; "--port"; "9001"; "--dir"; "d"; "--duration-s"; "1"]%string ++ extra).
Definition bench_args : list chars := args ["--bench-rate"; "10"; "--records"; "1"; "--record-bytes"; "4"]%string.

Definition printed (r : option (Z * list Line * Box.t)) : option (Z * list Line) := fst <$> r.

(** A process alone in its cluster elects itself and commits what it is offered; the next one
    on the same machine finds the log and the term. *)
Example two_runs :
  let first := main bench_args 10 100 (Box.boot false) in
  let second := k ← first; main (args []) 10 100 k.2 in
  printed first =
    Some (0, [Listening 1 9001 (lit "d") 0; StatusLine 1 "no-leader" 0 0 0 0;
              BenchReport 1 true 4 16 6 (Histogram.mk [5000000; 5000000; 5000000; 5000000] false); Stopping 1 1 4 4]) /\
  printed second = Some (0, [Listening 1 9001 (lit "d") 0; StatusLine 1 "no-leader" 1 0 4 0; Stopping 1 2 0 0]).
Proof. vm_compute. split; reflexivity. Qed.

(** The process of [run] when it has started. *)
Definition started (o : Options) (kernel : Box.t) : Status * Process.t Box.t := start (prepare o kernel).2.

Definition options_of (a : list chars) : Options := match options a with inl o => o | inr _ => default_options end.

(** C24: a broker whose port another process has does not notice: [listen] fails with
    [EADDRINUSE], [start] succeeds and leaves the broker running without a listener, and the
    process goes on to print that it is listening and to exit with 0, with the very output of
    one that has the port. *)
Theorem port_taken_unnoticed :
  (let '(r, p) := started (options_of (args [])) (Box.boot true) in
   r = Ok tt /\ Broker.running_ (Process.broker_ p) = true /\ Broker.listener_ (Process.broker_ p) = kInvalidConn /\
   RealNetwork.open_connection_count (Process.network_ p) = 0) /\
  printed (main (args []) 10 100 (Box.boot true)) = printed (main (args []) 10 100 (Box.boot false)) /\
  (r ← main (args []) 10 100 (Box.boot true); head r.1.2) = Some (Listening 1 9001 (lit "d") 0).
Proof.
  vm_compute. repeat split.
Qed.

(** A process that has elected itself, and what [--bench-rate] makes of the next round. *)
Definition bench_options : Options := options_of bench_args.
Definition elected : Process.t Box.t :=
  let p := (started bench_options (Box.boot false)).2 in
  match rounds (bench_options <| bench_rate := 0 |>) 10 100 1000000000 (mkLoad BatchBuilder.new 0 0 [] Histogram.new 0 0 0 0) p with
  | Some (_, _, p) => p
  | None => p
  end.

Lemma latency_never_negative_witness :
  exists now l p, paced bench_options 10 2000000000 now l p /\ Histogram.samples_ (latency l) = [310000000; 210000000; 110000000; 10000000] /\ Forall (Z.le 0) (Histogram.samples_ (latency l)).
Proof.
  set (l0 := mkLoad BatchBuilder.new 0 0 [] Histogram.new 0 0 700000000 700000000).
  assert ((Histogram.samples_ ∘ latency ∘ snd) <$> (round bench_options 10 2000000000 l0 elected).2
    = Some [310000000; 210000000; 110000000; 10000000]) as S by (vm_compute; reflexivity).
  destruct (round bench_options 10 2000000000 l0 elected) as [p [[lines l]|]] eqn:E; [|discriminate S].
  assert (paced bench_options 10 2000000000 (Process.monotonic_now elected).1 l p) as H.
  { eapply paced_round; [apply paced_start| |exact E]. vm_compute. discriminate. }
  eexists _, _, _. split; [exact H|]. split; [by injection S|]. exact (proj1 (latency_never_negative _ _ _ _ _ _ H)).
Defined.

End Runs.
