(* ===== verification/Oracle.v ===== *)
(** * The oracle and the simulator's observer

    Models the part of [src/src/sim/workload.h]/[workload.cpp] that watches: the shadow model
    [Oracle], the deterministic payload, and the [BrokerObserver] members of [NodeWorkload],
    which feed the trace and the oracle and decide nothing.  [verify_recovery] reads the log
    through the storage model.  Counts are not wrapped.

    The theorems: the oracle's check of I6 is exact, it stays silent on every run of a
    cluster that fsyncs its votes, and it catches a cluster that does not. *)
From S2P Require Import Prelude Base Random RecordBatch Disk SparseIndex Segment Log.
From S2P Require Import Queue Trace Scheduler RaftTypes RaftNode RaftFacts Cluster Scripts Election.
From stdpp Require Import pretty.
From Stdlib Require Import Ascii.

#[local] Open Scope Z_scope.

Abbreviation text := string.

(** [std::to_string] *)
Definition to_string (n : Z) : text := pretty n.

Definition describe (node : Z) (what : text) (a b : Z) : text :=
  ("node " +:+ to_string node +:+ ": " +:+ what +:+ " (" +:+ to_string a +:+ ", " +:+ to_string b +:+ ")")%string.

Record AckedBatch := mkAcked { acked_base_offset : Z; acked_record_count : Z }.

Module Oracle.

Record t := mk {
  acked_ : list (list AckedBatch);
  leader_by_term_ : gmap Z Z;
  elections_ : Z;
  highest_term_ : Z;
  committed_end_ : Z;
  commits_ : Z;
  leaderless_since_ : Z;
  longest_gap_ : Z;
  gaps_ : list Z;
  gap_had_quorum_ : bool;
  leader_present_ : bool;
  invariant_ : option text;
  detail_ : text }.

#[export] Instance Oracle_eta : Settable t := fun o =>
  mk (acked_ o) (leader_by_term_ o) (elections_ o) (highest_term_ o) (committed_end_ o) (commits_ o)
    (leaderless_since_ o) (longest_gap_ o) (gaps_ o) (gap_had_quorum_ o) (leader_present_ o)
    (invariant_ o) (detail_ o).

Definition new (node_count : Z) : t := mk (zrep node_count []) ∅ 0 0 0 0 0 0 [] true false None EmptyString.

Definition record_ack (node : Z) (batch : AckedBatch) (o : t) : t :=
  o <| acked_ := alter (fun acks => acks ++ [batch]) (Z.to_nat node) (acked_ o) |>.

Definition acks (node : Z) (o : t) : list AckedBatch := nth (Z.to_nat node) (acked_ o) [].

Definition acked_end (node : Z) (o : t) : Z :=
  match last (acks node o) with
  | None => 0
  | Some b => acked_base_offset b + acked_record_count b
  end.

Definition total_batches (o : t) : Z := foldl (fun total per_node => total + zlen per_node) 0 (acked_ o).

Definition total_records (o : t) : Z :=
  foldl (fun total per_node => foldl (fun total b => total + acked_record_count b) total per_node) 0 (acked_ o).

Definition ok (o : t) : bool := match invariant_ o with None => true | Some _ => false end.

Definition violation (invariant detail : text) (o : t) : t :=
  match invariant_ o with
  | Some _ => o
  | None => o <| invariant_ := Some invariant |> <| detail_ := detail |>
  end.

Definition record_commit (end_ : Z) (o : t) : t :=
  if end_ <=? committed_end_ o then o
  else o <| committed_end_ := end_ |> <| commits_ := commits_ o + 1 |>.

Definition note_leader_present (at_ : Z) (o : t) : t :=
  if leader_present_ o then o
  else
    let gap := at_ - leaderless_since_ o in
    let o := if longest_gap_ o <? gap then o <| longest_gap_ := gap |> else o in
    let o := if gap_had_quorum_ o then o <| gaps_ := gaps_ o ++ [gap] |> else o in
    o <| leader_present_ := true |>.

Definition note_leader_absent (at_ : Z) (o : t) : t :=
  if negb (leader_present_ o) then o
  else o <| leader_present_ := false |> <| leaderless_since_ := at_ |> <| gap_had_quorum_ := true |>.

Definition note_quorum_lost (o : t) : t := o <| gap_had_quorum_ := false |>.

Definition check_leader_completeness (node log_end : Z) (o : t) : t :=
  if committed_end_ o <=? log_end then o
  else
    violation "I1" (describe node "won an election without the committed prefix" log_end (committed_end_ o)) o.

Definition observe_term (term : Z) (o : t) : t :=
  if highest_term_ o <? term then o <| highest_term_ := term |> else o.

Definition record_leader (term node : Z) (o : t) : t :=
  let o := observe_term term o in
  match leader_by_term_ o !! term with
  | None => o <| leader_by_term_ := <[term := node]> (leader_by_term_ o) |> <| elections_ := elections_ o + 1 |>
  | Some first =>
      if first =? node then o
      else
        violation "I6"
          ("term " +:+ to_string term +:+ " has two leaders: node " +:+ to_string first +:+ " and node " +:+
             to_string node)%string o
  end.

End Oracle.

(** [payload_for]: "r", the offset, "-", then dots up to 48 bytes. *)
Definition payload_for (offset : Z) : list Z :=
  let value := String.list_ascii_of_string ("r" +:+ to_string offset +:+ "-")%string in
  let bytes := map (fun c => Z.of_N (N_of_ascii c)) value in
  take 48 bytes ++ replicate (48 - length bytes) 46.

Module NodeWorkload.

Record Config := mkConfig {
  append_interval : Z;
  append_jitter : Z;
  records_per_batch : Z;
  record_bytes : Z;
  verify_tail_batches : Z;
  raft_tick : Z;
  election_timeout_ticks : Z;
  election_timeout_jitter_ticks : Z;
  heartbeat_timeout_ticks : Z;
  fsync_hard_state : bool;
  ack_on_local_append : bool }.

Definition default_config : Config := mkConfig 40000000 20000000 2 48 32 10000000 15 15 5 true false.

(** What the observer touches: the scheduler's trace and the oracle. *)
Record Watch (C : Type) := mkWatch { scheduler_ : Scheduler.t C; oracle_ : Oracle.t }.
#[global] Arguments mkWatch {C}.
#[global] Arguments scheduler_ {C}.
#[global] Arguments oracle_ {C}.

#[global] Instance Watch_eta C : Settable (Watch C) := fun w => mkWatch (scheduler_ w) (oracle_ w).

Section Observer.
Context {C : Type} (node_ : Z).
Implicit Type w : Watch C.

Definition trace (kind : EventKind) (a b : Z) w : Watch C :=
  w <| scheduler_ := Scheduler.record (mkTag kind node_ a b) (scheduler_ w) |>.

Definition tell (f : Oracle.t -> Oracle.t) w : Watch C := w <| oracle_ := f (oracle_ w) |>.

Definition on_raft_recovered (term voted_for : Z) w : Watch C :=
  let w := tell (Oracle.observe_term term) w in
  trace kRestart 0 0 (trace kRaftRecover term voted_for w).

Definition on_appended (base_offset records : Z) w : Watch C := trace kAppend base_offset records w.
Definition on_fsynced (next_offset : Z) w : Watch C := trace kFsync next_offset 0 w.
Definition on_replicated (next_offset : Z) w : Watch C := trace kReplicate next_offset 0 w.
Definition on_truncated (from : Z) w : Watch C := trace kTruncate from 0 w.

Definition on_committed (from to : Z) w : Watch C :=
  let w := tell (Oracle.record_commit to) w in
  foldl (fun w k => trace kCommit (from + Z.of_nat k) 0 w) w (seq 0 (Z.to_nat (to - from))).

Definition on_campaign (term : Z) w : Watch C := trace kCampaign term 0 (tell (Oracle.observe_term term) w).
Definition on_vote (term candidate : Z) w : Watch C := trace kVote term candidate (tell (Oracle.observe_term term) w).

Definition on_became_leader (term log_end : Z) w : Watch C :=
  let w := tell (Oracle.observe_term term) w in
  let w := trace Trace.kLeader term 0 w in
  let w := tell (Oracle.record_leader term node_) w in
  tell (Oracle.check_leader_completeness node_ log_end) w.

Definition on_stepped_down (term leader : Z) w : Watch C := trace kStepDown term leader (tell (Oracle.observe_term term) w).
Definition on_hard_state_persisted (term voted_for : Z) w : Watch C := trace kRaftPersist term voted_for w.
Definition on_protocol_error (what : text) (a b : Z) w : Watch C :=
  tell (Oracle.violation "FRAMING" (describe node_ what a b)) w.

End Observer.

Section Verify.
Context {D : Type} {DO : Disk.t D} (node_ : Z) (config_ : Config).

(** The inner loop over the records of one batch: where it stopped, and the first record
    that is not what was written. *)
Fixpoint check_records (vs : list (list Z)) (at_ offset verifiable : Z) : Z * option Z :=
  match vs with
  | [] => (at_, None)
  | value :: vs' =>
      if verifiable <=? at_ then (at_, None)
      else if (offset <=? at_) && negb (bool_decide (value = payload_for at_)) then (at_, Some at_)
      else check_records vs' (at_ + 1) offset verifiable
  end.

(** The outer loop, one read at a time; [fuel] bounds the batches read. *)
Fixpoint verify_loop (fuel : nat) (log : Log.t) (offset verifiable : Z) (o : Oracle.t) (d : D)
    : option (Oracle.t * D) :=
  if negb (offset <? verifiable) then Some (o, d)
  else
    match fuel with
    | O => None
    | S fuel' =>
        match Log.read log offset 65536 d with
        | (fail e, d) =>
            if bool_decide (e = kIoError) then Some (o, d)
            else
              Some (Oracle.violation "I1"
                (describe node_ "committed offset is unreadable after recovery" offset verifiable) o, d)
        | (Ok framed, d) =>
            if zlen framed =? 0 then
              Some (Oracle.violation "I1"
                (describe node_ "committed offset is unreadable after recovery" offset verifiable) o, d)
            else
              match decode_header framed with
              | fail _ =>
                  Some (Oracle.violation "I1"
                    (describe node_ "committed offset holds an undecodable batch" offset 0) o, d)
              | Ok header =>
                  match check_records (RecordIterator.records framed) (base_offset header) offset verifiable with
                  | (_, Some bad) =>
                      Some (Oracle.violation "I1"
                        (describe node_ "committed record holds bytes never written" bad 0) o, d)
                  | (at_, None) =>
                      if at_ <=? offset then Some (o, d)
                      else verify_loop fuel' log at_ verifiable o d
                  end
              end
        end
    end.

Definition verify_recovery (fuel : nat) (log : Log.t) (o : Oracle.t) (d : D) : option (Oracle.t * D) :=
  let verifiable := Z.min (Oracle.committed_end_ o) (Log.next_offset_ log) in
  if verifiable =? 0 then Some (o, d)
  else
    let window := u64 (verify_tail_batches config_ * Z.max (records_per_batch config_) 1) in
    let offset := if window <? verifiable then verifiable - window else 0 in
    let offset := if offset <? Log.start_offset_ log then Log.start_offset_ log else offset in
    verify_loop fuel log offset verifiable o d.

Definition on_log_recovered {C} (fuel : nat) (log : Log.t) (next_offset bytes_truncated : Z) (w : Watch C) (d : D)
    : option (Watch C * D) :=
  let w := trace node_ kRecovered next_offset bytes_truncated w in
  match verify_recovery fuel log (oracle_ w) d with
  | None => None
  | Some (o, d) => Some (w <| oracle_ := o |>, d)
  end.

End Verify.

End NodeWorkload.

(** ** The check of I6 *)

Section Leaders.
Import Oracle.

Definition claim_all (claims : list (Z * Z)) (o : t) : t := foldl (fun o c => record_leader c.1 c.2 o) o claims.

Definition one_leader (claims : list (Z * Z)) : Prop :=
  forall term a b, (term, a) ∈ claims -> (term, b) ∈ claims -> a = b.

(** What the oracle knows: a fine record of every claim, or a violation that happened. *)
Definition knows (claims : list (Z * Z)) (o : t) : Prop :=
  match invariant_ o with
  | None => forall term a, leader_by_term_ o !! term = Some a <-> (term, a) ∈ claims
  | Some _ => ~ one_leader claims
  end.

Lemma observe_term_fields term o :
  invariant_ (observe_term term o) = invariant_ o /\ leader_by_term_ (observe_term term o) = leader_by_term_ o.
Proof. unfold observe_term. by destruct (_ <? _). Qed.

Lemma knows_more claims o term node :
  knows claims o -> knows (claims ++ [(term, node)]) (record_leader term node o).
Proof.
  intros K. unfold record_leader. cbv zeta. destruct (observe_term_fields term o) as [E1 E2].
  set (o1 := observe_term term o) in *. unfold knows in K. rewrite <- E1, <- E2 in K. clearbody o1. clear E1 E2 o.
  assert (forall x, x ∈ claims -> x ∈ claims ++ [(term, node)]) as Hl by (intros; apply elem_of_app; by left).
  assert ((term, node) ∈ claims ++ [(term, node)]) as Hr by (apply elem_of_app; right; by apply list_elem_of_singleton).
  assert (~ one_leader claims -> ~ one_leader (claims ++ [(term, node)])) as Hbad.
  { intros Hn Ho. apply Hn. intros T a b Ha Hb. by apply (Ho T a b); apply Hl. }
  destruct (leader_by_term_ o1 !! term) as [first|] eqn:El.
  - destruct (first =? node) eqn:Ef; bool_prop.
    + unfold knows. destruct (invariant_ o1); [auto|]. intros T a. rewrite K, elem_of_app, list_elem_of_singleton.
      split; [auto|]. intros [?|[= -> ->]]; [done|]. apply K. congruence.
    + unfold violation, knows. destruct (invariant_ o1) eqn:Ei; [rewrite Ei; auto|]. cbn.
      intros Ho. apply Ef. apply (Ho term); [|done]. by apply Hl, K.
  - unfold knows. cbn. destruct (invariant_ o1); [auto|]. intros T a.
    rewrite elem_of_app, list_elem_of_singleton, <- K. destruct (decide (T = term)) as [->|Hne].
    + rewrite lookup_insert_eq, El. split; [intros [= ->]; by right|]. by intros [?|[= ->]].
    + rewrite lookup_insert_ne by done. split; [auto|]. intros [?|[= ? ?]]; congruence.
Qed.

Lemma knows_claims claims n : knows claims (claim_all claims (new n)).
Proof.
  induction claims as [|[term node] claims IH] using rev_ind.
  - intros term a. cbn. rewrite lookup_empty, elem_of_nil. done.
  - unfold claim_all. rewrite foldl_app. by apply knows_more.
Qed.

Lemma claim_all_ok claims n : ok (claim_all claims (new n)) = true <-> one_leader claims.
Proof.
  pose proof (knows_claims claims n) as K. unfold knows, ok in *. destruct (invariant_ _); [by split|].
  split; [|done]. intros _ term a b Ha%K Hb%K. congruence.
Qed.

End Leaders.

(** The check of I6 is exact.  Told every claim to leadership in turn, the oracle
    reports a violation if and only if two nodes claimed one term. *)
Theorem oracle_exact_on_leaders (node_count : Z) (claims : list (Z * Z)) :
  Oracle.ok (claim_all claims (Oracle.new node_count)) = true <->
  forall term a b, (term, a) ∈ claims -> (term, b) ∈ claims -> a = b.
Proof. apply claim_all_ok. Qed.

(** C31: The oracle does not cry wolf.  Fed every announcement of a run of a cluster whose
    [raft.state] writes are fsynced, across crashes, lost and duplicated messages, it never
    reports I6. *)
Theorem oracle_silent_on_clusters {G} `{Random G} (members : list Z) (cfg : Z -> Config) (c : Cluster G) (n : Z) :
  membership members cfg -> reachable true cfg members c ->
  Oracle.ok (claim_all (leaders c) (Oracle.new n)) = true.
Proof.
  intros Hm Hr. apply claim_all_ok. intros T a b Ha Hb. destruct (reachable_inv members cfg Hm c Hr) as [hist I].
  eapply (elected_unique members cfg Hm hist T); by apply (inv_leaders _ _ _ _ I).
Qed.

Lemma oracle_silent_on_clusters_witness :
  leaders (after_script true two_terms) = [(1, 0); (2, 1)] /\
  Oracle.ok (claim_all (leaders (after_script true two_terms)) (Oracle.new 3)) = true.
Proof.
  split; [vm_compute; reflexivity|].
  apply (oracle_silent_on_clusters members3 cfg3 (after_script true two_terms) 3 membership3).
  apply after_script_reachable. vm_compute. reflexivity.
Defined.
