(* ===== verification/Workload.v ===== *)
(** * One simulated broker process

    Models [NodeWorkload] of [src/src/sim/workload.h]/[workload.cpp] as an object: a broker on
    the simulated seam, the load generator, and the observer whose members are in
    [Oracle.v].  It owns the broker: it makes one when it starts and destroys it when the
    start fails.

    A [Site] is the world such a process runs in, as the broker sees it and with the
    scheduler's trace and the oracle besides. *)
From S2P Require Import Prelude Base Random RecordBatch SparseIndex Disk Segment Log Network.
From S2P Require Import RaftTypes RaftNode Broker Queue Trace Scheduler Oracle.

(** The closures a process hands to its event loop. *)
Inductive Task := TickTask | AppendTask.

Module Workload.

Section Object.
Context {G : Type} {RG : Random G}.

Record t := mk {
  node_ : Z;
  dir_ : chars;
  port_ : Z;
  peers_ : list Broker.Peer;
  config_ : NodeWorkload.Config;
  broker_ : option (Broker.t G);
  builder_ : BatchBuilder.t;
  running_ : bool }.

#[global] Instance Workload_eta : Settable t := fun x =>
  mk (node_ x) (dir_ x) (port_ x) (peers_ x) (config_ x) (broker_ x) (builder_ x) (running_ x).

(** The constructor. *)
Definition new (node : Z) (dir : chars) (port : Z) (peers : list Broker.Peer) (config : NodeWorkload.Config) : t :=
  mk node dir port peers config None BatchBuilder.new false.

Definition appends (x : t) : Z := match broker_ x with Some b => Broker.appends_ b | None => 0 end.
Definition raft_messages_sent (x : t) : Z := match broker_ x with Some b => Broker.raft_sent_ b | None => 0 end.
Definition hard_state_writes (x : t) : Z := match broker_ x with Some b => Broker.hard_state_writes_ b | None => 0 end.
Definition ticks (x : t) : Z := match broker_ x with Some b => Broker.ticks_ b | None => 0 end.
Definition is_leader (x : t) : bool := match broker_ x with Some b => Broker.is_leader b | None => false end.

(** The configuration of the broker. *)
Definition broker_config (x : t) : Broker.BrokerConfig :=
  let c := config_ x in
  Broker.mkConfig (node_ x) (dir_ x) (port_ x) (peers_ x) (NodeWorkload.raft_tick c)
    (NodeWorkload.election_timeout_ticks c) (NodeWorkload.election_timeout_jitter_ticks c)
    (NodeWorkload.heartbeat_timeout_ticks c) (32 * 1024) (NodeWorkload.fsync_hard_state c)
    (NodeWorkload.ack_on_local_append c).

Context {D : Type} {DO : Disk.t D} {N H : Type} {NO : Network.t N H} {L : Type} {LO : Timers L Task}.
Context {C : Type}.

Class Site (W : Type) := {
  site_host :: Broker.Host G D N L W;
  workload : W -> t; put_workload : t -> W -> W;
  watch : W -> NodeWorkload.Watch C; put_watch : NodeWorkload.Watch C -> W -> W }.

#[global] Instance workload_setter {W} {SO : Site W} : Setter workload := fun f w => put_workload (f (workload w)) w.
#[global] Instance watch_setter {W} {SO : Site W} : Setter watch := fun f w => put_watch (f (watch w)) w.

Section Members.
Context {W : Type} {SO : Site W} (self : H).
Implicit Type w : W.

(** ** The observer *)

(** [verify_recovery], with as many reads as there can be. *)
Definition verify_recovery w : W :=
  match broker_ (workload w) with
  | None => w
  | Some b =>
      match Broker.log_ b with
      | None => w
      | Some log =>
          let o := NodeWorkload.oracle_ (watch w) in
          match NodeWorkload.verify_recovery (node_ (workload w)) (config_ (workload w))
                  (Z.to_nat (Oracle.committed_end_ o)) log o (Broker.disk w) with
          | None => w
          | Some (o, d) => w <| Broker.disk := d |> <| watch := watch w <| NodeWorkload.oracle_ := o |> |>
          end
      end
  end.

Definition observe (o : Observation) w : W :=
  let node := node_ (workload w) in
  let tell f := w <| watch := f (watch w) |> in
  match o with
  | on_log_recovered next_offset bytes_truncated =>
      verify_recovery (tell (NodeWorkload.trace node kRecovered next_offset bytes_truncated))
  | on_raft_recovered term voted_for => tell (NodeWorkload.on_raft_recovered node term voted_for)
  | on_appended base count => tell (NodeWorkload.on_appended node base count)
  | on_fsynced end_ => tell (NodeWorkload.on_fsynced node end_)
  | on_replicated end_ => tell (NodeWorkload.on_replicated node end_)
  | on_truncated from => tell (NodeWorkload.on_truncated node from)
  | on_committed from to => tell (NodeWorkload.on_committed node from to)
  | on_campaign term => tell (NodeWorkload.on_campaign node term)
  | on_vote term candidate => tell (NodeWorkload.on_vote node term candidate)
  | on_became_leader term log_end => tell (NodeWorkload.on_became_leader node term log_end)
  | on_stepped_down term leader => tell (NodeWorkload.on_stepped_down node term leader)
  | on_hard_state_persisted term voted_for => tell (NodeWorkload.on_hard_state_persisted node term voted_for)
  | on_protocol_error what a b => tell (NodeWorkload.on_protocol_error node what a b)
  end.

(** ** The load generator *)

Definition schedule_append w : W :=
  if negb (running_ (workload w)) then w
  else
    let c := config_ (workload w) in
    let '(jitter, g) := next_in_range 0 (NodeWorkload.append_jitter c) (Broker.rng w) in
    let w := w <| Broker.rng := g |> in
    w <| Broker.loop := add_timer_after (NodeWorkload.append_interval c + jitter) AppendTask (Broker.loop w) |>.

(** The records of a batch, until one does not fit. *)
Fixpoint add_payloads (n : nat) (offset : Z) (b : BatchBuilder.t) : bool * BatchBuilder.t :=
  match n with
  | O => (true, b)
  | S n' =>
      match BatchBuilder.add_record b (payload_for offset) with
      | (fail _, b) => (false, b)
      | (Ok _, b) => add_payloads n' (u64 (offset + 1)) b
      end
  end.

Definition do_append w : W :=
  let x := workload w in
  match broker_ x with
  | None => w
  | Some b =>
      if negb (running_ x) then w
      else
        match Broker.log_ b with
        | None => w
        | Some log =>
            let expected := Log.next_offset_ log in
            let '(added, builder) :=
              add_payloads (Z.to_nat (NodeWorkload.records_per_batch (config_ x))) expected (BatchBuilder.clear (builder_ x)) in
            let w := w <| workload := workload w <| builder_ := builder |> |> in
            if negb added then schedule_append w
            else
              let committed_before := Oracle.committed_end_ (NodeWorkload.oracle_ (watch w)) in
              let '(assigned, builder, w) := Broker.propose self observe builder w in
              let w := w <| workload := workload w <| builder_ := builder |> |> in
              match assigned with
              | fail _ => schedule_append w
              | Ok offset =>
                  if offset <? committed_before
                  then w <| watch := NodeWorkload.tell (Oracle.violation "I2"
                              (describe (node_ x) "offset went backwards after recovery" offset committed_before)) (watch w) |>
                  else schedule_append w
              end
        end
  end.

(** ** Starting and stopping *)

(** [broker_.reset()] *)
Definition reset_broker w : W :=
  match broker_ (workload w) with
  | None => w
  | Some _ =>
      let w := Broker.destroy w in
      w <| workload := workload w <| broker_ := None |> |>
  end.

Definition start w : Status * W :=
  let w := w <| workload := workload w <| broker_ := Some (Broker.new (broker_config (workload w)) true) |> |> in
  match Broker.start self TickTask observe w with
  | (fail e, w) => (fail e, reset_broker w)
  | (Ok _, w) =>
      if negb (Oracle.ok (NodeWorkload.oracle_ (watch w))) then (Ok tt, w)
      else
        let w := w <| workload := workload w <| running_ := true |> |> in
        (Ok tt, schedule_append w)
  end.

(** Running a closure of the event loop. *)
Definition call (k : Task) w : W :=
  match k with
  | TickTask => Broker.on_tick self TickTask observe w
  | AppendTask => do_append w
  end.

End Members.

End Object.

#[global] Arguments t : clear implicits.
#[global] Arguments Site : clear implicits.

End Workload.
