(* ===== verification/Simulation.v ===== *)
(** * The simulation

    Models [src/src/sim/simulation.h]/[simulation.cpp]: brokers on simulated disks, clocks and
    networks, under one scheduler, one generator and one oracle, with crashes, partitions and
    clock jumps scheduled among their events.

    The generator is shared by reference: it is the one in the fabric, and a disk or a node
    that is looked at through a [Site] is looked at with that generator in it.  The scheduler
    with its trace is in the fabric as well.  Closures are values: a [Task] of an event loop, a
    closure of the fabric, or a [Chore] of the simulation itself.

    Loops that only their callees end ([SimNetwork::poll], [Broker::on_readable],
    [EventLoop::fire_expired_timers] and [run] itself) take [fuel]; running out of it raises
    [stuck_] and nothing lowers it.  Counts are not wrapped. *)
From S2P Require Import Prelude Base Random RecordBatch SparseIndex Disk SimDisk Segment Log Network.
From S2P Require Import RaftTypes RaftNode Broker Queue Trace Scheduler SimNetwork EventLoop Oracle Workload.
From stdpp Require Import pretty.
From Stdlib Require Import SpecFloat.

#[local] Open Scope Z_scope.

(** The generator the simulation is built with; sixty-four draws of [next_below]'s rejection
    loop are more than a run ever needs. *)
#[export] Instance seeded : Random SeededRandom.t := {
  next_u64 := SeededRandom.next_u64;
  next_below b g := match SeededRandom.next_below 64 b g with Some r => r | None => (0, g) end }.

Module Simulation.

Record FaultConfig := mkFaults {
  disk_faults : SimDisk.DiskFaultConfig;
  network : Fabric.NetworkFaultConfig;
  crash_interval : Z;
  restart_delay_min : Z;
  restart_delay_max : Z;
  partition_interval : Z;
  partition_duration_min : Z;
  partition_duration_max : Z;
  asymmetric_partition_probability : double;
  clock_jump_interval : Z;
  clock_jump_max_ms : Z;
  corruption_interval : Z }.

#[global] Instance FaultConfig_eta : Settable FaultConfig := fun f =>
  mkFaults (disk_faults f) (network f) (crash_interval f) (restart_delay_min f) (restart_delay_max f) (partition_interval f)
    (partition_duration_min f) (partition_duration_max f) (asymmetric_partition_probability f) (clock_jump_interval f)
    (clock_jump_max_ms f) (corruption_interval f).

(** The default member initialisers of the three fault configurations. *)
Definition default_faults : FaultConfig :=
  let dbl m e := S754_finite false m e in
  mkFaults
    (SimDisk.mkFaults (dbl 5404319552844595%positive (-55)) (dbl 5404319552844595%positive (-54)) (S754_zero false))
    (Fabric.mkFaults 50000 2000000 (dbl 7205759403792794%positive (-56)) 50000000 65536)
    (seconds 20) (millis 50) (seconds 3) (seconds 30) (millis 200) (seconds 5) (dbl 6305039478318694%positive (-54)) (seconds 90) 5000 0.

Record SimulationConfig := mkConfig {
  seed : Z;
  node_count : Z;
  duration : Z;
  faults : FaultConfig;
  workload_config : NodeWorkload.Config;
  capture_trace : bool;
  max_events : Z }.

#[global] Instance SimulationConfig_eta : Settable SimulationConfig := fun c =>
  mkConfig (seed c) (node_count c) (duration c) (faults c) (workload_config c) (capture_trace c) (max_events c).

Definition default_config : SimulationConfig :=
  mkConfig 1 3 (seconds 60) default_faults NodeWorkload.default_config false 0.

Record SimulationResult := mkResult {
  r_seed : Z;
  trace_hash : Z;
  trace_events : Z;
  scheduler_events : Z;
  simulated_time : Z;
  r_node_count : Z;
  records_acked : Z;
  r_appends : Z;
  ticks_per_node : list Z;
  raft_messages : Z;
  r_hard_state_writes : Z;
  elections : Z;
  highest_term : Z;
  leaders_at_end : Z;
  longest_leaderless : Z;
  leaderless_gaps : list Z;
  crashes : Z;
  partitions : Z;
  bytes_lost_to_crashes : Z;
  bytes_delivered : Z;
  connections_reset : Z;
  r_ok : bool;
  invariant : option text;
  detail : text;
  tail : list TraceEvent }.

Definition kServicePort : Z := 7000.
Definition kMaxDrainIterations : Z := 64.
Definition kMaxEventsPerInstant : Z := 100000.

Definition node_name (id : Z) : chars := lit ("n" +:+ to_string id).

(** What the simulation schedules for itself. *)
Inductive Chore :=
  | RestartNode (id : Z)
  | CrashNode (id : Z)
  | Partition
  | Heal (from to : Z) (asymmetric : bool)
  | ClockJump.

Section Simulation.
Context {G : Type} {RG : Random G}.

Record Node := mkNode {
  id : Z;
  dir : chars;
  port : Z;
  disk : SimDisk.t G;
  clock : SimClock.t;
  loop : option (EventLoop.t Task);
  workload : option (Workload.t G);
  up : bool }.

#[global] Instance Node_eta : Settable Node := fun n =>
  mkNode (id n) (dir n) (port n) (disk n) (clock n) (loop n) (workload n) (up n).

(** The handler of a connection is the broker of a node. *)
Abbreviation Fabric := (Fabric.t G Z Chore).

Record t := mk {
  config_ : SimulationConfig;
  fabric_ : Fabric;
  oracle_ : Oracle.t;
  nodes_ : list Node;
  crashes_ : Z;
  partitions_ : Z;
  raft_messages_ : Z;
  hard_state_writes_ : Z;
  stuck_ : bool }.

#[global] Instance Simulation_eta : Settable t := fun s =>
  mk (config_ s) (fabric_ s) (oracle_ s) (nodes_ s) (crashes_ s) (partitions_ s) (raft_messages_ s)
    (hard_state_writes_ s) (stuck_ s).

(** ** The members behind references *)

Definition scheduler_ (s : t) : Scheduler.t (Fabric.Closure Chore) := Fabric.scheduler_ (fabric_ s).
#[global] Instance scheduler_setter : Setter scheduler_ := fun f s =>
  s <| fabric_ := fabric_ s <| Fabric.scheduler_ := f (scheduler_ s) |> |>.

Definition rng_ (s : t) : G := Fabric.rng_ (fabric_ s).
#[global] Instance rng_setter : Setter rng_ := fun f s => s <| fabric_ := fabric_ s <| Fabric.rng_ := f (rng_ s) |> |>.

Definition record (g : EventTag) (s : t) : t := s <| scheduler_ := Scheduler.record g (scheduler_ s) |>.

Definition schedule_after (delay : Z) (g : EventTag) (c : Chore) (s : t) : t :=
  s <| scheduler_ := (Scheduler.schedule_after delay g (Some (Fabric.Elsewhere c)) (scheduler_ s)).2 |>.

Definition draw_in_range (lo hi : Z) (s : t) : Z * t :=
  let '(r, g) := next_in_range lo hi (rng_ s) in (r, s <| rng_ := g |>).

Definition draw_below (bound : Z) (s : t) : Z * t :=
  let '(r, g) := next_below bound (rng_ s) in (r, s <| rng_ := g |>).

Definition stick (s : t) : t := s <| stuck_ := true |>.

(** [*nodes_[i]]; the second is a write through the reference. *)
Definition node_at (i : Z) (s : t) : Node :=
  default (mkNode i [] 0 (SimDisk.new (rng_ s) (disk_faults (faults (config_ s)))) (SimClock.new 0 0) None None false)
    (nodes_ s !! Z.to_nat i).

Definition update_node (i : Z) (f : Node -> Node) (s : t) : t := s <| nodes_ := alter f (Z.to_nat i) (nodes_ s) |>.

(** An event loop with the time its clock shows. *)
#[global] Instance sim_timers : Timers (EventLoop.t Task * Z) Task := fun delay k l =>
  (EventLoop.add_timer_after fst (fun l' x => (l', x.2)) (fun x => (x.2, x)) delay k l).2.

(** ** One node *)

Section AtNode.
Context (fuel : nat) (i : Z).

#[local] Instance node_network : Network.t Fabric Z := {
  Network.listen port backlog f := SimNetwork.listen i port f;
  Network.local_port c f := (SimNetwork.local_port i c f, f);
  Network.accept c f := SimNetwork.accept i c f;
  Network.connect host port f := SimNetwork.connect i host port f;
  Network.read c n f := SimNetwork.read i c n f;
  Network.write c data f := SimNetwork.write i c data f;
  Network.close c f := SimNetwork.close i c f;
  Network.watch c interest h f := SimNetwork.watch i c interest h f }.

Definition monotonic_now (s : t) : Z := SimClock.monotonic_now (scheduler_ s) (clock (node_at i s)).

Definition workload_at (s : t) : Workload.t G :=
  default (Workload.new i [] 0 [] (workload_config (config_ s))) (workload (node_at i s)).
Definition put_workload_at (x : Workload.t G) (s : t) : t := update_node i (fun n => n <| workload := Some x |>) s.

Definition loop_at (s : t) : EventLoop.t Task := default EventLoop.new (loop (node_at i s)).
Definition put_loop_at (l : EventLoop.t Task) (s : t) : t := update_node i (fun n => n <| loop := Some l |>) s.

(** The world of the process on this node. *)
#[local] Instance node_host : Broker.Host G (SimDisk.t G) Fabric (EventLoop.t Task * Z) t := {
  Broker.broker s := default (Broker.new (Workload.broker_config (workload_at s)) true) (Workload.broker_ (workload_at s));
  Broker.put_broker b s := put_workload_at (workload_at s <| Workload.broker_ := Some b |>) s;
  Broker.disk s := disk (node_at i s) <| SimDisk.rng_ := rng_ s |>;
  Broker.put_disk d s := update_node i (fun n => n <| disk := d |>) s <| rng_ := SimDisk.rng_ d |>;
  Broker.net := fabric_;
  Broker.put_net f s := s <| fabric_ := f |>;
  Broker.loop s := (loop_at s, monotonic_now s);
  Broker.put_loop l s := put_loop_at l.1 s;
  Broker.rng := rng_;
  Broker.put_rng g s := s <| rng_ := g |> }.

#[local] Instance node_site : Workload.Site G (SimDisk.t G) Fabric (EventLoop.t Task * Z) (Fabric.Closure Chore) t := {
  Workload.workload := workload_at;
  Workload.put_workload := put_workload_at;
  Workload.watch s := NodeWorkload.mkWatch (scheduler_ s) (oracle_ s);
  Workload.put_watch x s := s <| scheduler_ := NodeWorkload.scheduler_ x |> <| oracle_ := NodeWorkload.oracle_ x |> }.

(** ** [EventLoop::run_once] *)

Definition or_stuck (before : t) (after : option t) : t := match after with Some s => s | None => stick before end.

Definition upcall (h : Z) (u : Upcall) (conn : Z) (s : t) : t :=
  match u with
  | on_readable => or_stuck s (Broker.on_readable i Workload.observe fuel conn s)
  | on_writable => Broker.on_writable i conn s
  | on_hangup => Broker.on_hangup conn s
  end.

(** The simulated network never waits. *)
Definition poll (timeout : Z) (s : t) : Z * t :=
  match SimNetwork.poll fabric_ (fun f s => s <| fabric_ := f |>) upcall fuel i s with
  | Some r => r
  | None => (0, stick s)
  end.

Definition run_once (s : t) : Z * t :=
  match EventLoop.run_once loop_at put_loop_at (fun s => (monotonic_now s, s)) poll (Workload.call i) fuel 0 s with
  | Some r => r
  | None => (0, stick s)
  end.

(** The [while] of [drain_nodes]: [false] is its [return]. *)
Fixpoint drain_loop (k : nat) (guard : Z) (s : t) : bool * t :=
  match k with
  | O => (true, s)
  | S k' =>
      let '(n, s) := run_once s in
      if negb (0 <? n) then (true, s)
      else if kMaxDrainIterations <=? guard + 1
      then (false, s <| oracle_ := Oracle.violation "LIVELOCK"
                    ("node " +:+ to_string (id (node_at i s)) +:+ " never went quiet at a single instant") (oracle_ s) |>)
      else if negb (up (node_at i s)) || negb (bool_decide (is_Some (loop (node_at i s)))) then (true, s)
      else drain_loop k' (guard + 1) s
  end.

Definition drain_node (s : t) : bool * t :=
  if negb (up (node_at i s)) || negb (bool_decide (is_Some (loop (node_at i s)))) then (true, s)
  else drain_loop (Z.to_nat kMaxDrainIterations) 0 s.

(** ** Booting and crashing *)

(** [node.workload.reset()] *)
Definition reset_workload (s : t) : t :=
  match workload (node_at i s) with
  | None => s
  | Some _ => update_node i (fun n => n <| workload := None |>) (Workload.reset_broker s)
  end.

Definition boot (s : t) : t :=
  let s := update_node i (fun n => n <| disk := SimDisk.power_on (disk n) |> <| loop := Some EventLoop.new |>) s in
  let self := node_at i s in
  let peers := map (fun other => Broker.mkPeer (node_name (id other)) (port other) (id other))
                 (filter (fun other => id other <> id self) (nodes_ s)) in
  let x := Workload.new (id self) (dir self) (port self) peers (workload_config (config_ s)) in
  match Workload.start i (put_workload_at x s) with
  | (fail _, s) => update_node i (fun n => n <| loop := None |> <| up := false |>) (reset_workload s)
  | (Ok _, s) => record (mkTag kRestart (id self) 0 0) (update_node i (fun n => n <| up := true |>) s)
  end.

Definition schedule_restart (s : t) : t :=
  let f := faults (config_ s) in
  let '(delay, s) := draw_in_range (restart_delay_min f) (restart_delay_max f) s in
  schedule_after delay (mkTag kRestart i 0 0) (RestartNode i) s.

Definition schedule_crash (s : t) : t :=
  let mean := crash_interval (faults (config_ s)) in
  if mean <=? 0 then s
  else
    let '(delay, s) := draw_in_range (Z.quot mean 2) (Z.quot (mean * 3) 2) s in
    schedule_after delay (mkTag kTimer i 0 0) (CrashNode i) s.

Definition crash_node (s : t) : t :=
  if negb (up (node_at i s)) then s
  else
    let unflushed := SimDisk.unflushed_bytes (disk (node_at i s)) in
    let s := s <| fabric_ := Fabric.kill_node_connections i (fabric_ s) |> in
    let d := SimDisk.crash (Broker.disk s) in
    let s := Broker.put_disk d s in
    let s := s <| raft_messages_ := raft_messages_ s + Workload.raft_messages_sent (workload_at s) |>
               <| hard_state_writes_ := hard_state_writes_ s + Workload.hard_state_writes (workload_at s) |> in
    let s := update_node i (fun n => n <| loop := None |> <| up := false |>) (reset_workload s) in
    let s := record (mkTag kCrash i unflushed 0) (s <| crashes_ := crashes_ s + 1 |>) in
    schedule_restart s.

(** The closure of [schedule_restart]. *)
Definition restart (s : t) : t :=
  let s := boot s in
  if up (node_at i s) then schedule_crash s else schedule_restart s.

End AtNode.

(** ** Faults *)

Definition schedule_partition (s : t) : t :=
  let mean := partition_interval (faults (config_ s)) in
  if (mean <=? 0) || (zlen (nodes_ s) <? 2) then s
  else
    let '(delay, s) := draw_in_range (Z.quot mean 2) (Z.quot (mean * 3) 2) s in
    schedule_after delay (mkTag kTimer 0 0 0) Partition s.

(** Its closure. *)
Definition partition (s : t) : t :=
  let f := faults (config_ s) in
  let count := zlen (nodes_ s) in
  let '(from, s) := draw_below count s in
  let '(to, s) := draw_below (count - 1) s in
  let to := if from <=? to then to + 1 else to in
  let '(asymmetric, g) := next_bool_with_probability (asymmetric_partition_probability f) (rng_ s) in
  let s := s <| rng_ := g |> in
  let s := s <| fabric_ := if asymmetric : bool then Fabric.cut from to (fabric_ s) else Fabric.cut_both from to (fabric_ s) |> in
  let s := s <| partitions_ := partitions_ s + 1 |> in
  let '(span, s) := draw_in_range (partition_duration_min f) (partition_duration_max f) s in
  schedule_partition (schedule_after span (mkTag kTimer from to 0) (Heal from to asymmetric) s).

Definition heal (from to : Z) (asymmetric : bool) (s : t) : t :=
  s <| fabric_ := if asymmetric then Fabric.heal from to (fabric_ s) else Fabric.heal_both from to (fabric_ s) |>.

Definition schedule_clock_jump (s : t) : t :=
  let mean := clock_jump_interval (faults (config_ s)) in
  if mean <=? 0 then s
  else
    let '(delay, s) := draw_in_range (Z.quot mean 2) (Z.quot (mean * 3) 2) s in
    schedule_after delay (mkTag kTimer 0 0 0) ClockJump s.

Definition clock_jump (s : t) : t :=
  let max := clock_jump_max_ms (faults (config_ s)) in
  let '(i, s) := draw_below (zlen (nodes_ s)) s in
  let '(jump, s) := draw_in_range (- max) max s in
  schedule_clock_jump (update_node i (fun n => n <| clock := SimClock.jump_wall_clock jump (clock n) |>) s).

(** Running an event of the scheduler. *)
Definition perform (c : Chore) (s : t) : t :=
  match c with
  | RestartNode i => restart i s
  | CrashNode i => crash_node i s
  | Partition => partition s
  | Heal from to asymmetric => heal from to asymmetric s
  | ClockJump => clock_jump s
  end.

Definition call (c : Fabric.Closure Chore) (s : t) : t :=
  match c with
  | Fabric.Elsewhere x => perform x s
  | _ => s <| fabric_ := Fabric.call c (fabric_ s) |>
  end.

(** ** Time *)

(** The loop of [next_node_deadline], over the nodes that are left. *)
Fixpoint node_deadline_loop (now : Z) (best : Z) (nodes : list Node) : Z :=
  match nodes with
  | [] => best
  | n :: rest =>
      match loop n with
      | Some l =>
          if negb (up n) then node_deadline_loop now best rest
          else if EventLoop.has_pending_tasks l then now
          else
            let local_ := EventLoop.next_deadline l in
            if local_ =? kNoTimeout then node_deadline_loop now best rest
            else node_deadline_loop now (earlier_deadline best (local_ - SimClock.boot_offset_ (clock n))) rest
      | None => node_deadline_loop now best rest
      end
  end.

Definition next_node_deadline (s : t) : Z := node_deadline_loop (Scheduler.now_ (scheduler_ s)) kNoTimeout (nodes_ s).

Section Run.
Context (fuel : nat).

(** The [for] of [drain_nodes], [k] nodes from the end. *)
Fixpoint drain_from (k : nat) (start : Z) (s : t) : t :=
  match k with
  | O => s
  | S k' =>
      let count := zlen (nodes_ s) in
      let '(go_on, s) := drain_node fuel ((start + (count - Z.of_nat k)) mod count) s in
      if go_on then drain_from k' start s else s
  end.

Definition drain_nodes (s : t) : t :=
  let count := zlen (nodes_ s) in
  if count =? 0 then s
  else let '(start, s) := draw_below count s in drain_from (length (nodes_ s)) start s.

(** Everything due now; [k] is what [kMaxEventsPerInstant] leaves. *)
Fixpoint run_instant (k : nat) (same_instant : Z) (s : t) : t :=
  match k with
  | O => s
  | S k' =>
      if negb (Oracle.ok (oracle_ s)) then s
      else
        let '(ran, s) := Scheduler.run_next_before scheduler_ (fun x s => s <| scheduler_ := x |>) call
                           (Scheduler.now_ (scheduler_ s)) s in
        if negb ran then s
        else if kMaxEventsPerInstant <=? same_instant + 1
        then s <| oracle_ := Oracle.violation "LIVELOCK"
                    ("virtual time stopped advancing: " +:+ to_string (same_instant + 1) +:+
                     " events scheduled at a single instant") (oracle_ s) |>
        else run_instant k' (same_instant + 1) s
  end.

(** I8: is there a leader, and could there be one? *)
Definition sample_leader (s : t) : t :=
  let alive := filter (fun n => up n && bool_decide (is_Some (workload n)) = true) (nodes_ s) in
  let any_leader := existsb (fun n => match workload n with Some x => Workload.is_leader x | None => false end) alive in
  let now := Scheduler.now_ (scheduler_ s) in
  if any_leader then s <| oracle_ := Oracle.note_leader_present now (oracle_ s) |>
  else
    let o := Oracle.note_leader_absent now (oracle_ s) in
    s <| oracle_ := if zlen alive <? zlen (nodes_ s) / 2 + 1 then Oracle.note_quorum_lost o else o |>.

Definition next_instant (s : t) : Z * t :=
  let '(at_, sch) := Scheduler.next_deadline (scheduler_ s) in
  let s := s <| scheduler_ := sch |> in
  (earlier_deadline at_ (next_node_deadline s), s).

(** One round of [run]'s loop: [inl] is leaving it, with [completed]. *)
Definition round (s : t) : (bool * t) + t :=
  if negb (Oracle.ok (oracle_ s)) then inl (false, s)
  else
    let '(next, s) := next_instant s in
    if (next =? kNoTimeout) || (duration (config_ s) <? next) then inl (true, s)
    else
      let s := s <| scheduler_ := Scheduler.advance_to next (scheduler_ s) |> in
      let s := run_instant (Z.to_nat kMaxEventsPerInstant) 0 s in
      if negb (Oracle.ok (oracle_ s)) then inl (false, s)
      else
        let s := sample_leader (drain_nodes s) in
        if negb (max_events (config_ s) =? 0) && (max_events (config_ s) <=? Scheduler.events_run_ (scheduler_ s))
        then inl (false, s)
        else inr s.

Fixpoint rounds (k : nat) (s : t) : option (bool * t) :=
  match round s with
  | inl r => Some r
  | inr s => match k with O => None | S k' => rounds k' s end
  end.

End Run.

(** ** A whole run *)

Definition new (config : SimulationConfig) (rng : G) : t :=
  let ids := map Z.of_nat (seq 0 (Z.to_nat (node_count config))) in
  let scheduler := Scheduler.new (Trace.set_capture_all (capture_trace config) (Trace.new 64)) in
  let fabric := foldl (fun f i => Fabric.add_node i (node_name i) f) (Fabric.new scheduler rng (network (faults config))) ids in
  let node i := mkNode i (lit "/data/" ++ node_name i) kServicePort (SimDisk.new rng (disk_faults (faults config)))
                  (SimClock.new (i * 137 * 1000000) 1700000000000) None None false in
  mk config fabric (Oracle.new (node_count config)) (map node ids) 0 0 0 0 false.

Definition snapshot (completed : bool) (s : t) : SimulationResult :=
  let o := oracle_ s in
  let works := omap workload (nodes_ s) in
  mkResult (seed (config_ s)) (Trace.hash_ (Scheduler.trace_ (scheduler_ s))) (Trace.count_ (Scheduler.trace_ (scheduler_ s)))
    (Scheduler.events_run_ (scheduler_ s))
    (if completed then duration (config_ s) else Scheduler.now_ (scheduler_ s)) (node_count (config_ s))
    (Oracle.committed_end_ o) (Oracle.commits_ o)
    (map (fun n => match workload n with Some x => Workload.ticks x | None => 0 end) (nodes_ s))
    (foldl Z.add (raft_messages_ s) (map Workload.raft_messages_sent works))
    (foldl Z.add (hard_state_writes_ s) (map Workload.hard_state_writes works))
    (Oracle.elections_ o) (Oracle.highest_term_ o) (zlen (filter (fun x => Workload.is_leader x = true) works))
    (Oracle.longest_gap_ o) (Oracle.gaps_ o) (crashes_ s) (partitions_ s)
    (foldl Z.add 0 (map (fun n => SimDisk.bytes_lost_ (disk n)) (nodes_ s)))
    (Fabric.bytes_delivered_ (fabric_ s)) (Fabric.connections_reset_ (fabric_ s))
    (Oracle.ok o) (Oracle.invariant_ o) (Oracle.detail_ o)
    (if Oracle.ok o then [] else Trace.recent (Scheduler.trace_ (scheduler_ s))).

(** [run] up to its loop. *)
Definition launch (s : t) : t :=
  let ids := map id (nodes_ s) in
  let s := foldl (fun s i => boot i s) s ids in
  let s := foldl (fun s i => schedule_crash i s) s ids in
  schedule_clock_jump (schedule_partition s).

(** [k] bounds the rounds and [fuel] the loops inside one. *)
Definition run (fuel k : nat) (s : t) : option (SimulationResult * t) :=
  match rounds fuel k (launch s) with
  | None => None
  | Some (completed, s) =>
      let s := if completed then s <| scheduler_ := Scheduler.advance_to (duration (config_ s)) (scheduler_ s) |> else s in
      Some (snapshot completed s, s)
  end.

End Simulation.

#[global] Arguments Node : clear implicits.
#[global] Arguments t : clear implicits.

End Simulation.

(** [run_simulation], with the trace the run leaves behind; [None] when a loop of the model ran
    out of fuel. *)
Definition run_simulation (fuel k : nat) (config : Simulation.SimulationConfig) : option (Simulation.SimulationResult * Trace.t) :=
  match Simulation.run fuel k (Simulation.new config (SeededRandom.reseed (Simulation.seed config))) with
  | Some (r, s) => if Simulation.stuck_ s then None else Some (r, Scheduler.trace_ (Simulation.scheduler_ s))
  | None => None
  end.
