(* ===== verification/SimulationFacts.v ===== *)
(** * What a simulation keeps

    Frame lemmas for the simulation: nothing that a process does, and nothing that the
    network does, takes an event off the scheduler's queue, moves the time, or changes which
    nodes are up.  The broker's part comes from [BrokerFrame.v]. *)
From S2P Require Import Prelude Base Random RecordBatch SparseIndex Disk SimDisk Segment Log Network.
From S2P Require Import RaftTypes RaftNode Broker BrokerFrame Queue Trace Scheduler SimNetwork EventLoop Oracle Workload Simulation.

(** ** The scheduler *)

Section SchedulerGrows.
Context {C : Type} (own : C -> bool).
Implicit Types s : Scheduler.t C.
Import Scheduler.

(** The queue is in order and nothing in it is overdue; nobody cancels. *)
Record timely s : Prop := {
  tl_order : in_order when id (queue_ s);
  tl_ids : Forall (fun e => id e < next_id_ s) (queue_ s);
  tl_due : Forall (fun e => now_ s <= when e) (queue_ s);
  tl_now : 0 <= now_ s;
  tl_cancelled : cancelled_ s = ∅ }.

(** An event whose closure somebody calls his own. *)
Definition owned (e : Event C) : Prop := match callback e with Some c => own c = true | None => False end.

#[global] Instance owned_dec e : Decision (owned e).
Proof. unfold owned. destruct (callback e); apply _. Defined.

(** Time stands still, and the owned events are the same. *)
Record keeps s s' : Prop := {
  ks_owned : filter owned (queue_ s') = filter owned (queue_ s);
  ks_timely : timely s -> timely s';
  ks_now : now_ s' = now_ s }.

Lemma keeps_refl s : keeps s s.
Proof. by split. Qed.

Lemma keeps_trans s1 s2 s3 : keeps s1 s2 -> keeps s2 s3 -> keeps s1 s3.
Proof. intros [A1 A2 A3] [B1 B2 B3]. split; [congruence | auto | congruence]. Qed.

Lemma keeps_record g s : keeps s (record g s).
Proof. split; [done | by intros [] | done]. Qed.

Lemma filter_push_other (P : Event C -> Prop) `{!forall e, Decision (P e)} e q :
  ~ P e -> filter P (push when id e q) = filter P q.
Proof.
  intros He. induction q as [|f q IH]; cbn [push]; [by rewrite filter_cons_False|].
  destruct (later_first _ _ f e); [by rewrite filter_cons_False|]. rewrite !filter_cons, IH. done.
Qed.

Lemma timely_schedule at_ g c s : timely s -> timely (schedule_at at_ g c s).2.
Proof.
  intros [A1 A2 A3 A4 A5]. unfold schedule_at. rewrite clamp_max. split; fields; try done.
  - apply push_in_order; [done|]. eapply Forall_impl; [exact A2|]. cbn. lia.
  - apply Forall_push; [cbn; lia|]. eapply Forall_impl; [exact A2|]. cbn. lia.
  - apply Forall_push; [cbn; lia | done].
Qed.

Lemma keeps_schedule_at at_ g c s : own c = false -> keeps s (schedule_at at_ g (Some c) s).2.
Proof.
  intros Hc. split; [|apply timely_schedule | done]. cbn. apply filter_push_other. unfold owned. cbn. congruence.
Qed.

Lemma keeps_schedule_after delay g c s : own c = false -> keeps s (schedule_after delay g (Some c) s).2.
Proof. apply keeps_schedule_at. Qed.

Lemma drop_none s : cancelled_ s = ∅ -> drop_cancelled_from_top s = s.
Proof.
  intros E. unfold drop_cancelled_from_top. rewrite E. destruct s as [tr q c now next runs]. cbn in *. subst c.
  destruct q as [|e q]; cbn; [done|]. by rewrite bool_decide_false by set_solver.
Qed.

(** The event that fires is the first in the queue, and its time comes. *)
Lemma take_timely limit s e s' : timely s -> take_next_before limit s = (e, s') ->
  timely s' /\
  match e with
  | None => s' = s
  | Some e => queue_ s = e :: queue_ s' /\ now_ s <= now_ s' /\ Forall (fun f => now_ s' <= when f) (queue_ s')
  end.
Proof.
  intros T. pose proof T as [A1 A2 A3 A4 A5]. unfold take_next_before. rewrite (drop_none s A5). cbv zeta.
  destruct (queue_ s) as [|f q] eqn:Q; [by intros [= <- <-]|]. destruct (limit <? when f); [by intros [= <- <-]|].
  rewrite advance_max. intros [<- <-]%pair_equal_spec. apply Forall_cons in A2 as [_ A2], A3 as [A3 _].
  apply StronglySorted_inv in A1 as [A1 A1'].
  assert (Forall (fun g => Z.max (now_ s) (when f) <= when g) q) as Due.
  { eapply Forall_impl; [exact A1'|]. intros g. unfold before. lia. }
  split; [split|split_and!]; fields; first [done | lia].
Qed.

(** Time moves on, but not past the first event. *)
Lemma advance_timely at_ s : timely s ->
  (match queue_ s with [] => True | e :: _ => at_ <= when e end) -> timely (advance_to at_ s).
Proof.
  intros [A1 A2 A3 A4 A5] H. rewrite advance_max. split; fields; try done; [|lia].
  destruct (queue_ s) as [|e q]; [done|]. apply Forall_cons in A3 as [A3 _]. constructor; [lia|].
  apply StronglySorted_inv in A1 as [_ A1]. eapply Forall_impl; [exact A1|]. intros g. unfold before. lia.
Qed.

End SchedulerGrows.

(** ** The fabric *)

Section FabricGrows.
Context {G : Type} {RG : Random G} {H X : Type}.
Implicit Types f v : Fabric.t G H X.
Import Fabric.

(** A closure that is not the network's. *)
Definition elsewhere (c : Fabric.Closure X) : bool := match c with Elsewhere _ => true | _ => false end.

Definition fabric_keeps v f : Prop := keeps elsewhere (Fabric.scheduler_ v) (Fabric.scheduler_ f).

Lemma fk_same v f f' : fabric_keeps v f -> Fabric.scheduler_ f' = Fabric.scheduler_ f -> fabric_keeps v f'.
Proof. unfold fabric_keeps. by intros ? ->. Qed.

Lemma fk_record g v f : fabric_keeps v f -> fabric_keeps v (Fabric.record g f).
Proof. intros. eapply keeps_trans; [done | apply keeps_record]. Qed.

Lemma fk_schedule_at at_ g c v f : elsewhere c = false -> fabric_keeps v f -> fabric_keeps v (schedule_at at_ g c f).
Proof. intros. eapply keeps_trans; [done | by apply keeps_schedule_at]. Qed.

Lemma fk_schedule_after delay g c v f : elsewhere c = false -> fabric_keeps v f -> fabric_keeps v (schedule_after delay g c f).
Proof. intros. eapply keeps_trans; [done | by apply keeps_schedule_after]. Qed.

Lemma fk_draw v f r f' : fabric_keeps v f -> draw_latency f = (r, f') -> fabric_keeps v f'.
Proof. unfold draw_latency. destruct (next_in_range _ _ _). intros ? [= <- <-]. by eapply fk_same. Qed.

Lemma fk_foldl {A} (g : Fabric.t G H X -> A -> Fabric.t G H X) xs : forall v f,
  (forall f x, fabric_keeps v f -> fabric_keeps v (g f x)) -> fabric_keeps v f -> fabric_keeps v (foldl g f xs).
Proof. induction xs as [|x xs IH]; intros v f Hg Hf; cbn; [done|]. apply IH; auto. Qed.

Lemma fk_reset_endpoint i tell v f :
  (forall p f, fabric_keeps v f -> fabric_keeps v (tell p f)) -> fabric_keeps v f -> fabric_keeps v (reset_endpoint i tell f).
Proof.
  intros Ht Hf. unfold reset_endpoint. destruct (endpoint i f) as [ep|]; [|done]. destruct (reset ep); [done|].
  apply Ht, fk_record. by eapply fk_same.
Qed.

Lemma fk_reset_connection i b v f : fabric_keeps v f -> fabric_keeps v (reset_connection i b f).
Proof.
  intros Hf. apply fk_reset_endpoint; [|done]. intros p f1 H1. destruct (_ && _); [|done]. by apply fk_reset_endpoint.
Qed.

Lemma fk_cut a b v f : fabric_keeps v f -> fabric_keeps v (cut a b f).
Proof.
  intros Hf. unfold cut. destruct (_ =? _); [done|]. destruct (is_cut _ _ _); [done|].
  apply fk_schedule_after; [done|]. apply fk_record. by eapply fk_same.
Qed.

Lemma fk_heal a b v f : fabric_keeps v f -> fabric_keeps v (heal a b f).
Proof. intros Hf. unfold heal. destruct (negb _); [done|]. apply fk_record. by eapply fk_same. Qed.

Lemma fk_kill n v f : fabric_keeps v f -> fabric_keeps v (kill_node_connections n f).
Proof.
  intros Hf. unfold kill_node_connections. destruct (_ !! n) as [ids|]; [|done]. eapply fk_same; [|done].
  apply fk_foldl; [intros; by eapply fk_same|]. apply fk_foldl; [|done]. intros f1 i H1.
  destruct (endpoint i f1) as [ep|]; [|done]. destruct (listener ep); [by eapply fk_same | by apply fk_reset_connection].
Qed.

Lemma fk_call c v f : fabric_keeps v f -> fabric_keeps v (Fabric.call c f).
Proof.
  intros Hf. destruct c as [from to payload|l s|from to|x]; cbn; [| | |done].
  - unfold deliver. cbv zeta. set (f1 := match endpoint from f with Some _ => _ | None => f end).
    assert (fabric_keeps v f1) as H1 by (unfold f1; destruct (endpoint from f); [by eapply fk_same | done]). clearbody f1.
    destruct (endpoint to f1) as [dst|]; [destruct (_ || _)|]; by eapply fk_same.
  - unfold arrive. destruct (endpoint l f) as [ep|]; [|by apply fk_reset_connection].
    destruct (_ || _); [by apply fk_reset_connection|]. destruct (endpoint s f) as [p|]; [|done].
    destruct (reset p); [done | by eapply fk_same].
  - unfold cut_timeout. destruct (negb _); [done|]. destruct (_ !! from); [|done]. apply fk_foldl; [|done]. intros f1 i H1.
    destruct (endpoint i f1) as [ep|]; [|done]. destruct (_ || _); [done|]. destruct (endpoint (peer ep) f1); [|done].
    destruct (negb _); [done | by apply fk_reset_connection].
Qed.

(** A node's network, call by call. *)
Lemma fk_listen i p v f : fabric_keeps v f -> fabric_keeps v (SimNetwork.listen i p f).2.
Proof.
  intros Hf. unfold SimNetwork.listen. destruct (p =? 0); cbn; destruct (_ !! _); by eapply fk_same.
Qed.

Lemma fk_accept i c v f : fabric_keeps v f -> fabric_keeps v (SimNetwork.accept i c f).2.
Proof.
  intros Hf. unfold SimNetwork.accept. destruct (endpoint c f) as [ep|]; [|done]. destruct (_ || _); [done|].
  destruct (backlog ep); [done | by eapply fk_same].
Qed.

Lemma fk_connect i h p v f : fabric_keeps v f -> fabric_keeps v (SimNetwork.connect i h p f).2.
Proof.
  intros Hf. unfold SimNetwork.connect. destruct (_ !! h) as [pn|]; [|done]. destruct (_ || _); [done|].
  destruct (_ !! (pn, p)) as [li|]; [|done]. cbn. destruct (draw_latency _) as [lat f1] eqn:Dr.
  eapply fk_draw in Dr; [|apply fk_record; by eapply fk_same]. by apply fk_schedule_after.
Qed.

Lemma fk_read i c k v f : fabric_keeps v f -> fabric_keeps v (SimNetwork.read i c k f).2.
Proof.
  intros Hf. unfold SimNetwork.read. destruct (endpoint c f) as [ep|]; [|done]. destruct (_ || _); [done|].
  destruct (reset ep); [done|]. destruct (negb _); [by eapply fk_same|]. destruct (peer_closed ep); [done|]. by destruct (negb _).
Qed.

Lemma fk_accepted n v f r f' : fabric_keeps v f -> SimNetwork.accepted n f = (r, f') -> fabric_keeps v f'.
Proof.
  intros Hf. unfold SimNetwork.accepted. destruct (1 <? n); [|by intros [= <- <-]].
  destruct (next_bool_with_probability _ _) as [[] g]; [destruct (next_below _ _)|]; intros [= <- <-]; by eapply fk_same.
Qed.

Lemma fk_write i c data v f : fabric_keeps v f -> fabric_keeps v (SimNetwork.write i c data f).2.
Proof.
  intros Hf. unfold SimNetwork.write. destruct (endpoint c f) as [ep|]; [|done]. destruct (_ || _); [done|].
  destruct (_ || _); [done|]. destruct (_ =? 0); [done|]. cbv zeta. destruct (_ <=? _); [done|].
  destruct (SimNetwork.accepted _ f) as [n f1] eqn:Ac. apply (fk_accepted _ _ _ _ _ Hf) in Ac.
  destruct (endpoint (peer ep) f1) as [q|]; [|by eapply fk_same]. destruct (reset q); [by eapply fk_same|].
  destruct (is_cut _ _ _); [apply fk_record; by eapply fk_same|]. destruct (draw_latency f1) as [lat f2] eqn:Dr.
  apply (fk_draw _ _ _ _ Ac) in Dr. apply fk_record, fk_schedule_at; [done|]. by eapply fk_same.
Qed.

Lemma fk_close i c v f : fabric_keeps v f -> fabric_keeps v (SimNetwork.close i c f).
Proof.
  intros Hf. unfold SimNetwork.close. destruct (endpoint c f) as [ep|]; [|done]. destruct (negb _); [done|]. cbv zeta.
  eapply fk_same; [|reflexivity]. destruct (listener ep).
  - apply fk_foldl; [intros; by apply fk_reset_connection | by eapply fk_same].
  - destruct (negb _); [|done]. destruct (endpoint (peer ep) f); [by eapply fk_same | done].
Qed.

Lemma fk_watch i c x h v f : fabric_keeps v f -> fabric_keeps v (SimNetwork.watch i c x h f).
Proof.
  intros Hf. unfold SimNetwork.watch. destruct (endpoint c f) as [ep|]; [|done]. destruct (negb _); [done | by eapply fk_same].
Qed.

End FabricGrows.

(** ** A process at work *)

Section AtWork.
Context {G : Type} {RG : Random G}.
Implicit Types s v : Simulation.t G.
Import Simulation.

(** Everything a process may do to the simulation it is part of: the simulation's own events
    stay, time stays, and so does who is up. *)
Record at_work v s : Prop := {
  aw_keeps : keeps elsewhere (scheduler_ v) (scheduler_ s);
  aw_config : config_ s = config_ v;
  aw_up : map up (nodes_ s) = map up (nodes_ v) }.

Lemma aw_refl s : at_work s s.
Proof. split; [apply keeps_refl | done..]. Qed.

Lemma aw_trans s1 s2 s3 : at_work s1 s2 -> at_work s2 s3 -> at_work s1 s3.
Proof. intros [A1 A2 A3] [B1 B2 B3]. split; [by eapply keeps_trans | congruence..]. Qed.

(** A member written, and its flag stays. *)
Lemma map_alter {A B} (g : A -> B) (f : A -> A) i (l : list A) :
  (forall x, g (f x) = g x) -> map g (alter f i l) = map g l.
Proof.
  intros Hf. revert i. induction l as [|x l IH]; intros [|i]; cbn; try done; [by rewrite Hf|]. f_equal. apply IH.
Qed.

Lemma aw_node i f v s : (forall n, up (f n) = up n) -> at_work v s -> at_work v (update_node i f s).
Proof. intros Hf [A1 A2 A3]. split; [done | done |]. cbn. by rewrite map_alter. Qed.

Lemma aw_scheduler x v s : at_work v s -> keeps elsewhere (scheduler_ s) x -> at_work v (s <| scheduler_ := x |>).
Proof. intros [A1 A2 A3] K. split; [|done..]. eapply keeps_trans; [exact A1 | exact K]. Qed.

Lemma aw_fabric f v s : at_work v s -> fabric_keeps (fabric_ s) f -> at_work v (s <| fabric_ := f |>).
Proof. intros [A1 A2 A3] K. split; [|done..]. eapply keeps_trans; [exact A1 | exact K]. Qed.

Lemma aw_rng g v s : at_work v s -> at_work v (s <| rng_ := g |>).
Proof. intros A. apply aw_fabric; [done | apply keeps_refl]. Qed.

Lemma aw_same v s s' : at_work v s -> fabric_ s' = fabric_ s -> config_ s' = config_ s -> nodes_ s' = nodes_ s -> at_work v s'.
Proof. intros [A1 A2 A3] Ef Ec En. split; [unfold scheduler_ in *; by rewrite Ef | congruence..]. Qed.

Lemma aw_oracle o v s : at_work v s -> at_work v (s <| oracle_ := o |>).
Proof. intros A. by eapply aw_same. Qed.

Lemma aw_stick v s : at_work v s -> at_work v (stick s).
Proof. intros A. by eapply aw_same. Qed.

Lemma aw_record g v s : at_work v s -> at_work v (record g s).
Proof. intros A. apply aw_scheduler; [done | apply keeps_record]. Qed.

(** What the observer does to the trace and the oracle. *)
Definition only_traced {C} (x y : NodeWorkload.Watch C) : Prop :=
  forall own, keeps own (NodeWorkload.scheduler_ x) (NodeWorkload.scheduler_ y).

Lemma traced {C} node k a b (x : NodeWorkload.Watch C) y : only_traced x y -> only_traced x (NodeWorkload.trace node k a b y).
Proof. intros A own. eapply keeps_trans; [apply A | apply keeps_record]. Qed.

Lemma told {C} f (x : NodeWorkload.Watch C) y : only_traced x y -> only_traced x (NodeWorkload.tell f y).
Proof. done. Qed.

Lemma traced_refl {C} (x : NodeWorkload.Watch C) : only_traced x x.
Proof. intros own. apply keeps_refl. Qed.

Lemma committed_traced {C} node from to (x : NodeWorkload.Watch C) : only_traced x (NodeWorkload.on_committed node from to x).
Proof.
  unfold NodeWorkload.on_committed. cbv zeta. set (y := NodeWorkload.tell _ x).
  assert (only_traced x y) as Hy by apply told, traced_refl. clearbody y. revert y Hy.
  induction (seq _ _) as [|k ks IH]; intros y Hy; cbn; [done|]. by apply IH, traced.
Qed.

Create HintDb sim.
#[local] Hint Resolve traced told traced_refl committed_traced : sim.
#[local] Hint Unfold NodeWorkload.on_raft_recovered NodeWorkload.on_appended NodeWorkload.on_fsynced NodeWorkload.on_replicated
  NodeWorkload.on_truncated NodeWorkload.on_campaign NodeWorkload.on_vote NodeWorkload.on_became_leader
  NodeWorkload.on_stepped_down NodeWorkload.on_hard_state_persisted NodeWorkload.on_protocol_error : sim.

(** ** On one node *)

Section OnNode.
Context (i : Z).

#[local] Hint Extern 0 (Network.t _ _) => exact (node_network i) : typeclass_instances.
#[local] Hint Extern 0 (Broker.Host _ _ _ _ _) => exact (node_host i) : typeclass_instances.
#[local] Hint Extern 0 (Workload.Site _ _ _ _ _ _) => exact (node_site i) : typeclass_instances.

Lemma aw_watch x v s : at_work v s -> only_traced (Workload.watch s) x -> at_work v (Workload.put_watch x s).
Proof. intros A K. apply aw_oracle. apply aw_scheduler; [done | exact (K elsewhere)]. Qed.

Lemma aw_workload x v s : at_work v s -> at_work v (Workload.put_workload x s).
Proof. by apply aw_node. Qed.

Lemma aw_disk d v s : at_work v s -> at_work v (Broker.put_disk d s).
Proof. intros A. by apply aw_rng, aw_node. Qed.

Lemma aw_verify v s : at_work v s -> at_work v (Workload.verify_recovery s).
Proof.
  intros A. unfold Workload.verify_recovery. destruct (Workload.broker_ _); [|done]. destruct (Broker.log_ _); [|done]. cbv zeta.
  destruct (NodeWorkload.verify_recovery _ _ _ _ _ _) as [[o d]|]; [|done]. apply aw_watch; [by apply aw_disk|].
  intros own. apply keeps_refl.
Qed.

Lemma aw_observe o v s : at_work v s -> at_work v (Workload.observe o s).
Proof.
  intros A. destruct o; cbn [Workload.observe]; [apply aw_verify | ..];
    (apply aw_watch; [done | autounfold with sim; cbv zeta; auto 10 with sim]).
Qed.

Lemma aw_network n v s : at_work v s -> net_call (fabric_ s) n -> at_work v (s <| fabric_ := n |>).
Proof.
  intros A C. apply aw_fabric; [done|]. clear A. set (f := fabric_ s) in C |- *. clearbody f.
  induction C as [p b n|c n|h p n|c k n|c data n|c n|c x h n|n n1 n2 _ IH1 _ IH2]; cbn.
  - apply fk_listen, keeps_refl.
  - apply fk_accept, keeps_refl.
  - apply fk_connect, keeps_refl.
  - apply fk_read, keeps_refl.
  - apply fk_write, keeps_refl.
  - apply fk_close, keeps_refl.
  - apply fk_watch, keeps_refl.
  - by eapply keeps_trans.
Qed.

Lemma broker_at_work : allows Workload.observe at_work.
Proof.
  split; intros; [apply aw_refl | by eapply aw_trans | ..].
  - apply aw_node; [done | apply aw_refl].
  - apply aw_disk, aw_refl.
  - apply aw_node; [done | apply aw_refl].
  - apply aw_rng, aw_refl.
  - apply aw_network; [apply aw_refl | done].
  - apply aw_observe, aw_refl.
Qed.

(** ** The workload *)

Lemma aw_schedule_append v s : at_work v s -> at_work v (Workload.schedule_append s).
Proof.
  intros A. unfold Workload.schedule_append. destruct (negb _); [done|]. destruct (next_in_range _ _ _) as [j g].
  apply (on_loop _ _ broker_at_work), (on_rng _ _ broker_at_work), A.
Qed.

Lemma aw_do_append v s : at_work v s -> at_work v (Workload.do_append i s).
Proof.
  intros A. unfold Workload.do_append. cbv zeta. destruct (Workload.broker_ _) as [b|]; [|done].
  destruct (negb _); [done|]. destruct (Broker.log_ b); [|done]. destruct (Workload.add_payloads _ _ _) as [added builder].
  match goal with |- context [if negb added then Workload.schedule_append ?x else _] => set (s1 := x) end.
  assert (at_work v s1) as A1 by by apply aw_workload. clearbody s1.
  destruct (negb added); [by apply aw_schedule_append|].
  destruct (Broker.propose _ _ _ _) as [[assigned b'] s2] eqn:P. eapply (on_propose _ _ _ broker_at_work) in P; [|exact A1].
  match goal with |- context [Workload.schedule_append ?x] => assert (at_work v x) as A3 by by apply aw_workload end.
  destruct assigned; [|by apply aw_schedule_append]. destruct (_ <? _); [|by apply aw_schedule_append].
  apply aw_watch; [done | apply told, traced_refl].
Qed.

Lemma aw_reset_broker v s : at_work v s -> at_work v (Workload.reset_broker s).
Proof.
  intros A. unfold Workload.reset_broker. destruct (Workload.broker_ _); [|done]. cbv zeta.
  apply aw_workload, (on_destroy _ _ broker_at_work), A.
Qed.

Lemma aw_start v s r s' : at_work v s -> Workload.start i s = (r, s') -> at_work v s'.
Proof.
  intros A. unfold Workload.start. cbv zeta.
  match goal with |- context [Broker.start _ _ _ ?x] => assert (at_work v x) as A1 by by apply aw_workload end.
  destruct (Broker.start _ _ _ _) as [[u|e] s2] eqn:St; eapply (on_start _ _ _ _ broker_at_work) in St; try exact A1.
  - destruct (negb _); intros [_ <-]%pair_equal_spec; [done|]. by apply aw_schedule_append, aw_workload.
  - intros [_ <-]%pair_equal_spec. by apply aw_reset_broker.
Qed.

Lemma aw_task k v s : at_work v s -> at_work v (Workload.call i k s).
Proof. intros A. destruct k; [by apply (on_on_tick _ _ _ _ broker_at_work) | by apply aw_do_append]. Qed.

(** ** The event loop *)

Lemma aw_upcall fuel h u c v s : at_work v s -> at_work v (upcall fuel i h u c s).
Proof.
  intros A. destruct u; cbn [upcall].
  - destruct (Broker.on_readable _ _ _ _ _) eqn:R; [|by apply aw_stick]. by eapply (on_on_readable _ _ _ broker_at_work) in R.
  - by apply (on_flush _ _ _ broker_at_work).
  - by apply (on_forget _ _ broker_at_work).
Qed.

Abbreviation set_fabric := (fun f s => s <| fabric_ := f |>).

Lemma aw_dispatch fuel c u ready n v s n' s' : at_work v s ->
  SimNetwork.dispatch fabric_ (upcall fuel i) c u ready n s = Some (n', s') -> at_work v s'.
Proof.
  intros A. unfold SimNetwork.dispatch. destruct (Fabric.endpoint _ _) as [ep|]; [|done]. destruct (Fabric.handler ep); [|done].
  destruct (ready _ _); intros [_ <-]%(inj Some)%pair_equal_spec; [by apply aw_upcall | done].
Qed.

Lemma aw_poll_one fuel c n v s : at_work v s -> at_work v (SimNetwork.poll_one fabric_ set_fabric (upcall fuel i) c n s).2.
Proof.
  intros A. unfold SimNetwork.poll_one. destruct (Fabric.endpoint c (fabric_ s)) as [ep|]; [|done].
  destruct (Fabric.handler ep); [|done]. case_bool_decide; [done|].
  destruct (_ && _); [apply aw_upcall, aw_fabric; [done|]; eapply fk_same; [apply keeps_refl | done]|].
  destruct (SimNetwork.dispatch _ _ _ on_readable _ _ _) as [[n1 s1]|] eqn:D1; [|done]. apply (aw_dispatch _ _ _ _ _ _ _ _ _ A) in D1.
  destruct (SimNetwork.dispatch _ _ _ on_writable _ _ _) as [[n2 s2]|] eqn:D2; [|done]. by apply (aw_dispatch _ _ _ _ _ _ _ _ _ D1) in D2.
Qed.

Lemma aw_poll_loop fuel0 : forall fuel k n v s n' s', at_work v s ->
  SimNetwork.poll_loop fabric_ set_fabric (upcall fuel0 i) fuel i k n s = Some (n', s') -> at_work v s'.
Proof.
  induction fuel as [|fuel IH]; intros k n v s n' s' A; cbn [SimNetwork.poll_loop];
    (destruct (_ !! k) as [c|]; [|by intros [_ <-]%(inj Some)%pair_equal_spec]); [done|].
  pose proof (aw_poll_one fuel0 c n _ _ A) as A1. destruct (SimNetwork.poll_one _ _ _ _ _ _) as [n1 s1]. by apply IH.
Qed.

Lemma aw_poll fuel timeout v s : at_work v s -> at_work v (poll fuel i timeout s).2.
Proof.
  intros A. unfold poll, SimNetwork.poll. destruct (_ !! _); [|done].
  destruct (SimNetwork.poll_loop _ _ _ _ _ _ _ _) as [[n s1]|] eqn:P; [by eapply aw_poll_loop in P | by apply aw_stick].
Qed.

Lemma aw_put_loop l v s : at_work v s -> at_work v (put_loop_at i l s).
Proof. by apply aw_node. Qed.

Lemma aw_drain v s : at_work v s -> at_work v (EventLoop.drain_pending (loop_at i) (put_loop_at i) (Workload.call i) s).2.
Proof.
  intros A. unfold EventLoop.drain_pending. cbv zeta. destruct (EventLoop.pending_ _) as [|k ks] eqn:P; [done|].
  cbn [snd]. apply aw_put_loop. generalize (k :: ks). intros tasks. set (s1 := put_loop_at i _ s).
  assert (at_work v s1) as A1 by by apply aw_put_loop. clearbody s1. revert s1 A1.
  induction tasks as [|x tasks IH]; intros s1 A1; cbn; [done|]. by apply IH, aw_task.
Qed.

Lemma aw_fire : forall fuel now n v s n' s', at_work v s ->
  EventLoop.fire_loop (loop_at i) (put_loop_at i) (Workload.call i) fuel now n s = Some (n', s') -> at_work v s'.
Proof.
  induction fuel as [|fuel IH]; intros now n v s n' s' A; cbn [EventLoop.fire_loop];
    (destruct (EventLoop.timers_ _) as [|tm rest]; [by intros [_ <-]%(inj Some)%pair_equal_spec|]);
    (destruct (_ <? _); [by intros [_ <-]%(inj Some)%pair_equal_spec|]); [done|].
  apply IH. by apply aw_task, aw_put_loop.
Qed.

Lemma aw_run_once fuel v s : at_work v s -> at_work v (run_once fuel i s).2.
Proof.
  intros A. unfold run_once, EventLoop.run_once. pose proof (aw_drain _ _ A) as A1.
  destruct (EventLoop.drain_pending _ _ _ s) as [n1 s1]. cbn in A1.
  assert (exists timeout, EventLoop.poll_timeout (loop_at i) (fun s => (monotonic_now i s, s)) 0 s1 = (timeout, s1)) as [timeout ->].
  { unfold EventLoop.poll_timeout. destruct (EventLoop.pending_ _); [|eauto]. destruct (negb _); cbv zeta; eauto. }
  pose proof (aw_poll fuel timeout _ _ A1) as A2. destruct (poll fuel i timeout s1) as [n2 s2]. cbn in A2.
  unfold EventLoop.fire_expired_timers.
  destruct (EventLoop.fire_loop _ _ _ _ _ _ _) as [[n3 s3]|] eqn:F; [by eapply aw_fire in F | by apply aw_stick].
Qed.

Lemma aw_drain_node fuel v s : at_work v s -> at_work v (drain_node fuel i s).2.
Proof.
  intros A. unfold drain_node. destruct (_ || _); [done|]. generalize 0. revert s A.
  induction (Z.to_nat kMaxDrainIterations) as [|k IH]; intros s A guard; cbn [drain_loop]; [done|].
  pose proof (aw_run_once fuel _ _ A) as A1. destruct (run_once fuel i s) as [n s1]. cbn in A1.
  destruct (negb _); [done|]. destruct (_ <=? _); [by apply aw_oracle|]. destruct (_ || _); [done | by apply IH].
Qed.

Lemma aw_reset_workload v s : at_work v s -> at_work v (reset_workload i s).
Proof. intros A. unfold reset_workload. destruct (workload _); [|done]. by apply aw_node, aw_reset_broker. Qed.

End OnNode.

End AtWork.
