(* ===== verification/SimulationProps.v ===== *)
(** * The simulation: nodes come back

    What makes a simulated crash a crash: the disk the dead process leaves behind is exactly
    what the power cut left, and the node is booted again.  A node that is down has one
    restart in the queue, due within the configured delay; a node that is up has none, so no
    live process is ever booted over. *)
From S2P Require Import Prelude Base Random RecordBatch SparseIndex Disk SimDisk Segment Log Network.
From S2P Require Import RaftTypes RaftNode Broker BrokerFrame Queue Trace Scheduler SimNetwork EventLoop Oracle Workload Simulation.
From S2P Require Import SimulationFacts.
From stdpp Require Import pretty.
From Stdlib Require Import SpecFloat.

#[local] Open Scope Z_scope.

Section Restarts.
Context {G : Type} {RG : Random G} {RK : RandomOk G}.
Implicit Types s v : Simulation.t G.
Import Simulation.

(** A chore, and an event, that boots node number [k] again. *)
Definition boots (k : nat) (c : Chore) : bool := match c with RestartNode i => (Z.to_nat i =? k)%nat | _ => false end.

Definition restart_of (k : nat) (e : Scheduler.Event (Fabric.Closure Chore)) : Prop :=
  match Scheduler.callback e with
  | Some (Fabric.Elsewhere c) => boots k c = true
  | _ => False
  end.

#[global] Instance restart_of_dec k e : Decision (restart_of k e).
Proof. unfold restart_of. destruct (Scheduler.callback e) as [[]|]; apply _. Defined.

Definition restarts (k : nat) s : list (Scheduler.Event (Fabric.Closure Chore)) :=
  filter (restart_of k) (Scheduler.queue_ (scheduler_ s)).

(** The delays are a range of 64-bit nanoseconds. *)
Definition sane_delays (f : FaultConfig) : Prop :=
  - 2 ^ 63 <= restart_delay_min f /\ restart_delay_max f < 2 ^ 63 /\ restart_delay_max f - restart_delay_min f < 2 ^ 63 - 1.

Definition longest_outage (f : FaultConfig) : Z := Z.max 0 (Z.max (restart_delay_min f) (restart_delay_max f)).

(** Node [k] is up, or else its restart is on its way. *)
Definition attended (k : nat) s : Prop :=
  exists n, nodes_ s !! k = Some n /\
    if up n then restarts k s = []
    else exists e, restarts k s = [e] /\
      Scheduler.now_ (scheduler_ s) <= Scheduler.when e <= Scheduler.now_ (scheduler_ s) + longest_outage (faults (config_ s)).

Record supervised (k : nat) s : Prop := {
  sv_timely : timely (scheduler_ s);
  sv_sane : sane_delays (faults (config_ s));
  sv_attended : attended k s }.

(** Between the end of an outage and what follows from the boot. *)
Record unattended (k : nat) s : Prop := {
  un_timely : timely (scheduler_ s);
  un_sane : sane_delays (faults (config_ s));
  un_restarts : restarts k s = [];
  un_node : is_Some (nodes_ s !! k) }.

(** ** Steps that are not about node [k] *)

Record steady (k : nat) v s : Prop := {
  st_timely : timely (scheduler_ v) -> timely (scheduler_ s);
  st_now : Scheduler.now_ (scheduler_ s) = Scheduler.now_ (scheduler_ v);
  st_restarts : restarts k s = restarts k v;
  st_config : config_ s = config_ v;
  st_up : up <$> nodes_ s !! k = up <$> nodes_ v !! k }.

Lemma steady_trans k s1 s2 s3 : steady k s1 s2 -> steady k s2 s3 -> steady k s1 s3.
Proof. intros [A1 A2 A3 A4 A5] [B1 B2 B3 B4 B5]. split; [auto | congruence..]. Qed.

Lemma steady_refl k s : steady k s s.
Proof. by split. Qed.

Lemma supervised_steady k v s : steady k v s -> supervised k v -> supervised k s.
Proof.
  intros [A1 A2 A3 A4 A5] [B1 B2 (m & Em & B3)]. split; [auto | by rewrite A4 |]. unfold attended. rewrite A2, A3, A4.
  rewrite Em in A5. destruct (nodes_ s !! k) as [n|]; [|done]. exists n. apply (inj Some) in A5 as ->. done.
Qed.

Lemma restarts_owned k s : restarts k s = filter (restart_of k) (filter (owned elsewhere) (Scheduler.queue_ (scheduler_ s))).
Proof.
  unfold restarts. symmetry. apply list_filter_filter_l. intros e. unfold restart_of, owned. by destruct (Scheduler.callback e) as [[]|].
Qed.

Lemma work_steady k v s : at_work v s -> steady k v s.
Proof.
  intros [[K1 K2 K3] A2 A3]. split; [done | done | | done |]; [by rewrite !restarts_owned, K1|].
  rewrite <- !list_lookup_fmap. by f_equal.
Qed.

Lemma node_steady k i f s : Z.to_nat i <> k -> steady k s (update_node i f s).
Proof. intros Hi. split; try done. cbn. by rewrite list_lookup_alter_ne. Qed.

Lemma schedule_steady k delay g c s :
  boots k c = false -> steady k s (schedule_after delay g c s).
Proof.
  intros Hc. split; [apply timely_schedule | done | | done | done].
  unfold restarts. cbn. apply filter_push_other. unfold restart_of. cbn. congruence.
Qed.

Lemma draw_at_work lo hi s r s' : draw_in_range lo hi s = (r, s') -> at_work s s'.
Proof. unfold draw_in_range. destruct (next_in_range _ _ _). intros [_ <-]%pair_equal_spec. apply aw_rng, aw_refl. Qed.

Lemma draw_below_at_work b s r s' : draw_below b s = (r, s') -> at_work s s'.
Proof. unfold draw_below. destruct (next_below _ _). intros [_ <-]%pair_equal_spec. apply aw_rng, aw_refl. Qed.

Lemma schedule_crash_steady k i s : steady k s (schedule_crash i s).
Proof.
  unfold schedule_crash. cbv zeta. destruct (_ <=? _); [apply steady_refl|]. destruct (draw_in_range _ _ s) as [r s1] eqn:D.
  eapply steady_trans; [by eapply work_steady, draw_at_work | by apply schedule_steady].
Qed.

Lemma schedule_restart_steady k i s : Z.to_nat i <> k -> steady k s (schedule_restart i s).
Proof.
  intros Hi. unfold schedule_restart. destruct (draw_in_range _ _ s) as [r s1] eqn:D.
  eapply steady_trans; [by eapply work_steady, draw_at_work|]. by apply schedule_steady, Nat.eqb_neq.
Qed.

Lemma schedule_partition_steady k s : steady k s (schedule_partition s).
Proof.
  unfold schedule_partition. cbv zeta. destruct (_ || _); [apply steady_refl|]. destruct (draw_in_range _ _ s) as [r s1] eqn:D.
  eapply steady_trans; [by eapply work_steady, draw_at_work | by apply schedule_steady].
Qed.

Lemma schedule_clock_jump_steady k s : steady k s (schedule_clock_jump s).
Proof.
  unfold schedule_clock_jump. cbv zeta. destruct (_ <=? _); [apply steady_refl|]. destruct (draw_in_range _ _ s) as [r s1] eqn:D.
  eapply steady_trans; [by eapply work_steady, draw_at_work | by apply schedule_steady].
Qed.

(** ** Faults *)

Lemma partition_steady k s : steady k s (partition s).
Proof.
  unfold partition. cbv zeta. destruct (draw_below _ s) as [from s1] eqn:D1. apply draw_below_at_work in D1.
  destruct (draw_below _ s1) as [to s2] eqn:D2. apply draw_below_at_work in D2. pose proof (aw_trans _ _ _ D1 D2) as D. clear D1 D2.
  destruct (next_bool_with_probability _ _) as [asymmetric g].
  match goal with |- context [draw_in_range _ _ ?x] => assert (at_work s x) as A end.
  { eapply aw_same; [apply aw_fabric|done..]; [by apply aw_rng|]. destruct asymmetric; repeat apply fk_cut; apply keeps_refl. }
  destruct (draw_in_range _ _ _) as [span s3] eqn:D3. apply draw_at_work in D3.
  eapply steady_trans; [apply work_steady, (aw_trans _ _ _ A D3)|].
  eapply steady_trans; [|apply schedule_partition_steady]. by apply schedule_steady.
Qed.

Lemma clock_jump_steady k s : steady k s (clock_jump s).
Proof.
  unfold clock_jump. cbv zeta. destruct (draw_below _ s) as [i s1] eqn:D1. apply draw_below_at_work in D1.
  destruct (draw_in_range _ _ s1) as [jump s2] eqn:D2. apply draw_at_work in D2.
  eapply steady_trans; [|apply schedule_clock_jump_steady]. apply work_steady, aw_node; [done|]. by eapply aw_trans.
Qed.

Lemma heal_steady k from to asymmetric s : steady k s (heal from to asymmetric s).
Proof.
  apply work_steady, aw_fabric; [apply aw_refl|]. destruct asymmetric; repeat apply fk_heal; apply keeps_refl.
Qed.

(** ** Boots and crashes *)

(** All that a boot does is work, but for the flag. *)
Lemma boot_work i s : exists s1 b (f : Node G -> Node G),
  at_work s s1 /\ (forall n, up (f n) = b) /\ at_work (update_node i f s1) (boot i s).
Proof.
  unfold boot. cbv zeta. match goal with |- context [Workload.start _ ?x] => assert (at_work s x) as A end.
  { apply (aw_workload i). apply aw_node; [done | apply aw_refl]. }
  destruct (Workload.start _ _) as [[u|e] s2] eqn:St; apply (aw_start _ _ _ _ _ A) in St.
  - exists s2, true, (fun n => n <| up := true |>). split_and!; [done | done | apply aw_record, aw_refl].
  - eexists _, false, _. split_and!; [apply aw_reset_workload, St | | apply aw_refl]. done.
Qed.

Lemma crash_work i s : up (node_at i s) = true -> exists s1 (f : Node G -> Node G),
  at_work s s1 /\ (forall n, up (f n) = false) /\ crash_node i s = schedule_restart i (update_node i f s1).
Proof.
  intros U. unfold crash_node. rewrite U. cbn [negb]. cbv zeta.
  pose proof (aw_fabric _ _ _ (aw_refl s) (fk_kill i _ _ (keeps_refl elsewhere (Fabric.scheduler_ (fabric_ s))))) as A.
  set (s1 := s <| fabric_ := _ |>) in *. clearbody s1. set (d := SimDisk.crash _). apply (aw_disk i d) in A.
  set (s2 := Broker.put_disk d s1) in *. clearbody s2. set (s3 := s2 <| raft_messages_ := _ |> <| hard_state_writes_ := _ |>).
  assert (at_work s s3) as A3 by by eapply aw_same. clearbody s3. apply (aw_reset_workload i) in A3.
  set (s4 := reset_workload i s3) in *. clearbody s4. set (g := mkTag kCrash _ _ _). clearbody g.
  exists (record g (s4 <| crashes_ := crashes_ s4 + 1 |>)), (fun n => n <| loop := None |> <| up := false |>).
  split_and!; [|done..]. apply aw_record. by eapply aw_same.
Qed.

Lemma node_at_some i s n : nodes_ s !! Z.to_nat i = Some n -> node_at i s = n.
Proof. intros H. unfold node_at. by rewrite H. Qed.

#[local] Set Default Proof Using "Type RK".

(** With no restart on its way, scheduling one is what a node that is down needs. *)
Lemma schedule_restart_attends k i s n :
  Z.to_nat i = k -> unattended k s -> nodes_ s !! k = Some n -> up n = false -> supervised k (schedule_restart i s).
Proof.
  intros Hi [T Sd Hr _] Hn Hu. unfold schedule_restart. cbv zeta.
  pose proof (next_in_range_inside (restart_delay_min (faults (config_ s))) (restart_delay_max (faults (config_ s))) (rng_ s)) as B.
  destruct (draw_in_range _ _ s) as [delay s1] eqn:D. pose proof (draw_at_work _ _ _ _ _ D) as W. apply (work_steady k) in W.
  unfold draw_in_range in D. destruct (next_in_range _ _ _) as [r g]. apply pair_equal_spec in D as [-> _].
  destruct Sd as (Sd1 & Sd2 & Sd3). specialize (B Sd1 Sd2 Sd3). cbn in B. destruct W as [A1 A2 A3 A4 A5].
  split; [by apply timely_schedule, A1 | cbn; by rewrite A4 |].
  rewrite Hn in A5. destruct (nodes_ s1 !! k) as [m|] eqn:Hm; [|done]. apply (inj Some) in A5.
  exists m. split; [done|]. rewrite A5, Hu. unfold restarts. cbn. set (e := Scheduler.mkEv _ _ _ _).
  rewrite Hr in A3. unfold restarts in A3. change (Fabric.scheduler_ (fabric_ s1)) with (scheduler_ s1). set (q := Scheduler.queue_ (scheduler_ s1)) in *.
  assert (filter (restart_of k) (push Scheduler.when Scheduler.id e q) ≡ₚ [e]) as P.
  { rewrite push_Permutation, filter_cons_True by by apply Nat.eqb_eq. by rewrite A3. }
  exists e. split; [by apply Permutation_singleton_r in P|]. unfold e. cbn [Scheduler.when]. rewrite A4, clamp_max. clear P e.
  unfold longest_outage. destruct (delay <? 0) eqn:?; bool_prop; lia.
Qed.

Lemma crash_supervised k i s : supervised k s -> supervised k (crash_node i s).
Proof.
  intros Sv. destruct (up (node_at i s)) eqn:U; [|by unfold crash_node; rewrite U].
  destruct (crash_work i s U) as (s1 & f & A & Hf & ->). pose proof (work_steady k _ _ A) as A1.
  destruct (decide (Z.to_nat i = k)) as [Hi|Hi].
  - pose proof (supervised_steady _ _ _ A1 Sv) as [T Sd At]. destruct A1 as [_ _ Ar _ Au].
    destruct At as (n & Hn & At). rewrite Hn in Au. destruct (nodes_ s !! k) as [m|] eqn:Hm; [|done]. apply (inj Some) in Au.
    rewrite <- Hi in Hm. rewrite (node_at_some _ _ _ Hm) in U. rewrite Au, U in At.
    assert (nodes_ (update_node i f s1) !! k = Some (f n)) as Hf' by (cbn; by rewrite Hi, list_lookup_alter_eq, Hn).
    by apply (schedule_restart_attends k i _ (f n)).
  - eapply supervised_steady; [|exact Sv]. eapply steady_trans; [exact A1|].
    eapply steady_trans; [by apply node_steady | by apply schedule_restart_steady].
Qed.

Lemma restart_supervised k i s :
  (if boots k (RestartNode i) then unattended k s else supervised k s) ->
  supervised k (restart i s).
Proof.
  intros Sv. cbn in Sv. unfold restart. cbv zeta. destruct (boot_work i s) as (s1 & b & f & A & Hf & A2).
  apply (work_steady k) in A, A2. destruct (Nat.eqb_spec (Z.to_nat i) k) as [Hi|Hi].
  - destruct Sv as [T Sd Hr [n0 Hn0]]. destruct A as [B1 B2 B3 B4 B5], A2 as [C1 C2 C3 C4 C5].
    change (scheduler_ (update_node i f s1)) with (scheduler_ s1) in *. change (restarts k (update_node i f s1)) with (restarts k s1) in *.
    change (config_ (update_node i f s1)) with (config_ s1) in *. cbn in C5. rewrite Hi, list_lookup_alter_eq in C5.
    assert (sane_delays (faults (config_ (boot i s)))) as Sd' by by rewrite C4, B4. assert (restarts k (boot i s) = []) as Hr' by congruence.
    rewrite Hn0 in B5. destruct (nodes_ s1 !! k) as [m|]; [|done]. cbn in C5.
    destruct (nodes_ (boot i s) !! k) as [n|] eqn:Hn; [|done]. rewrite (node_at_some i _ n) by by rewrite Hi.
    destruct (up n) eqn:U; [|by apply (schedule_restart_attends k i _ n); [|split; auto|..]].
    eapply supervised_steady; [apply schedule_crash_steady|]. split; [auto | done |]. exists n. by rewrite U.
  - assert (steady k s (boot i s)) as St.
    { eapply steady_trans; [exact A|]. eapply steady_trans; [by apply node_steady | exact A2]. }
    eapply supervised_steady; [|exact Sv]. eapply steady_trans; [exact St|].
    destruct (up _); [apply schedule_crash_steady | by apply schedule_restart_steady].
Qed.

Lemma perform_supervised k c s :
  (if boots k c then unattended k s else supervised k s) -> supervised k (perform c s).
Proof.
  destruct c as [i|i| |from to asymmetric|]; cbn [perform].
  - apply restart_supervised.
  - apply crash_supervised.
  - apply supervised_steady, partition_steady.
  - apply supervised_steady, heal_steady.
  - apply supervised_steady, clock_jump_steady.
Qed.

(** ** Time *)

Lemma restarts_due k v s : timely (scheduler_ s) -> restarts k s = restarts k v ->
  Scheduler.now_ (scheduler_ v) <= Scheduler.now_ (scheduler_ s) -> config_ s = config_ v -> nodes_ s = nodes_ v ->
  sane_delays (faults (config_ v)) -> attended k v -> supervised k s.
Proof.
  intros T Er Hn Ec En Sd (n & Hk & At). split; [done | by rewrite Ec |]. exists n. rewrite En, Er, Ec. split; [done|].
  destruct (up n); [done|]. destruct At as (e & He & Hb). exists e. split; [done|].
  assert (e ∈ restarts k s) as Hin by (rewrite Er, He; by left).
  apply list_elem_of_filter in Hin as [_ Hin]. pose proof (tl_due _ T) as D. rewrite Forall_forall in D. specialize (D e Hin). lia.
Qed.

Lemma call_supervised k c s :
  match c with Fabric.Elsewhere c => if boots k c then unattended k s else supervised k s | _ => supervised k s end ->
  supervised k (Simulation.call c s).
Proof.
  destruct c; cbn [Simulation.call]; [..|apply perform_supervised];
    (apply supervised_steady, work_steady, aw_fabric; [apply aw_refl | apply fk_call, keeps_refl]).
Qed.

Lemma run_next_supervised k limit s ran s' : supervised k s ->
  Scheduler.run_next_before scheduler_ (fun x s => s <| scheduler_ := x |>) Simulation.call limit s = (ran, s') -> supervised k s'.
Proof.
  intros Sv. unfold Scheduler.run_next_before. destruct (Scheduler.take_next_before limit (scheduler_ s)) as [e x] eqn:Tk.
  destruct (take_timely _ _ _ _ (sv_timely _ _ Sv) Tk) as [T E]. cbv zeta. set (s1 := s <| scheduler_ := x |>).
  destruct e as [e|]; intros [_ <-]%pair_equal_spec.
  - destruct E as (Q & Now & Due). destruct Sv as [T0 Sd At].
    assert (restarts k s = filter (restart_of k) [e] ++ restarts k s1) as Er.
    { unfold restarts. rewrite Q. by rewrite <- filter_app. }
    assert (restarts k s = restarts k s1 -> supervised k s1) as Others.
    { intros Er'. by eapply (restarts_due k s). }
    assert (~ restart_of k e -> supervised k s1) as Other.
    { intros Hne. apply Others. by rewrite Er, filter_cons_False. }
    unfold restart_of in Other. destruct (Scheduler.callback e) as [c|] eqn:Cb; [|apply Other; tauto].
    apply call_supervised. destruct c as [| | |c]; try (apply Other; tauto). destruct (boots k c) eqn:B; [|by apply Other].
    rewrite filter_cons_True in Er by (unfold restart_of; by rewrite Cb). cbn in Er.
    destruct At as (n & Hn & At). rewrite Er in At. split; [done | done | | by eauto].
    destruct (up n); [done|]. destruct At as (e' & [= _ Hr] & _). done.
  - subst x. eapply supervised_steady; [|exact Sv]. apply work_steady, aw_scheduler; [apply aw_refl | apply keeps_refl].
Qed.

Lemma instant_supervised k : forall n same s, supervised k s -> supervised k (run_instant n same s).
Proof.
  induction n as [|n IH]; intros same s Sv; cbn [run_instant]; [done|]. destruct (negb _); [done|].
  destruct (Scheduler.run_next_before _ _ _ _ _) as [ran s1] eqn:R. apply (run_next_supervised _ _ _ _ _ Sv) in R.
  destruct (negb ran); [done|]. destruct (_ <=? _); [|by apply IH].
  eapply supervised_steady; [|exact R]. apply work_steady, aw_oracle, aw_refl.
Qed.

(** The next instant is not past the first event. *)
Lemma next_instant_spec k s next s1 : supervised k s -> next_instant s = (next, s1) ->
  supervised k s1 /\ match Scheduler.queue_ (scheduler_ s1) with [] => True | e :: _ => next <= Scheduler.when e end.
Proof.
  intros Sv. unfold next_instant, Scheduler.next_deadline. rewrite drop_none by apply Sv. cbv zeta.
  intros [<- <-]%pair_equal_spec. split.
  - eapply supervised_steady; [|exact Sv]. apply work_steady, aw_scheduler; [apply aw_refl | apply keeps_refl].
  - change (scheduler_ (s <| scheduler_ := scheduler_ s |>)) with (scheduler_ s). pose proof (sv_timely _ _ Sv) as [_ _ D N _].
    destruct (Scheduler.queue_ _) as [|e q]; [done|]. apply Forall_cons in D as [D _].
    unfold earlier_deadline, kNoTimeout. destruct (_ =? _) eqn:E1; bool_prop; [lia|]. destruct (_ =? -1); [done|].
    destruct (_ <? _) eqn:E2; bool_prop; lia.
Qed.

Lemma drain_work fuel : forall n start v s, at_work v s -> at_work v (drain_from fuel n start s).
Proof using Type.
  induction n as [|n IH]; intros start v s A; cbn [drain_from]; [done|]. cbv zeta.
  pose proof (aw_drain_node ((start + (zlen (nodes_ s) - Z.of_nat (S n))) mod zlen (nodes_ s)) fuel _ _ A) as A1.
  destruct (drain_node _ _ _) as [go s1]. cbn in A1. destruct go; [by apply IH | done].
Qed.

Lemma drain_nodes_work fuel s : at_work s (drain_nodes fuel s).
Proof using Type.
  unfold drain_nodes. cbv zeta. destruct (_ =? 0); [apply aw_refl|]. destruct (draw_below _ s) as [start s1] eqn:D.
  by apply drain_work, (draw_below_at_work _ _ _ _ D).
Qed.

Lemma sample_work s : at_work s (sample_leader s).
Proof using Type. unfold sample_leader. cbv zeta. destruct (existsb _ _); apply aw_oracle, aw_refl. Qed.

Lemma round_supervised k fuel s : supervised k s ->
  match round fuel s with inl (_, s') => supervised k s' | inr s' => supervised k s' end.
Proof.
  intros Sv. unfold round. destruct (negb _); [done|]. destruct (next_instant s) as [next s1] eqn:N.
  destruct (next_instant_spec _ _ _ _ Sv N) as [Sv1 First]. destruct (_ || _); [done|]. cbv zeta.
  set (s2 := s1 <| scheduler_ := _ |>). assert (supervised k s2) as Sv2.
  { destruct Sv1 as [T Sd At]. eapply (restarts_due k s1); try done; [by apply advance_timely|..]; unfold s2; rewrite advance_max; [done|].
    cbn. lia. }
  clearbody s2. pose proof (instant_supervised k (Z.to_nat kMaxEventsPerInstant) 0 s2 Sv2) as Sv3.
  set (s3 := run_instant _ _ s2) in *. clearbody s3. destruct (negb _); [done|].
  assert (supervised k (sample_leader (drain_nodes fuel s3))) as Sv4.
  { eapply supervised_steady; [|exact Sv3]. apply work_steady. eapply aw_trans; [apply drain_nodes_work | apply sample_work]. }
  by destruct (_ && _).
Qed.

(** ** Runs *)

(** What a run has gone through when it has launched: [Stopped] is leaving the loop. *)
Inductive reached (fuel : nat) (s : Simulation.t G) : Simulation.t G -> Prop :=
  | Launched : reached fuel s (launch s)
  | Went s1 s2 : reached fuel s s1 -> round fuel s1 = inr s2 -> reached fuel s s2
  | Stopped s1 completed s2 : reached fuel s s1 -> round fuel s1 = inl (completed, s2) -> reached fuel s s2.

Lemma boot_idle k i s : timely (scheduler_ s) -> restarts k s = [] ->
  timely (scheduler_ (boot i s)) /\ restarts k (boot i s) = [] /\ config_ (boot i s) = config_ s.
Proof.
  intros T Hr. destruct (boot_work i s) as (s1 & b & f & A & Hf & A2). apply (work_steady k) in A as [B1 B2 B3 B4 _], A2 as [C1 C2 C3 C4 _].
  change (scheduler_ (update_node i f s1)) with (scheduler_ s1) in *. change (restarts k (update_node i f s1)) with (restarts k s1) in *.
  change (config_ (update_node i f s1)) with (config_ s1) in *. split_and!; [auto | congruence..].
Qed.

(** Launching schedules no restart. *)
Lemma launch_supervised k s n : timely (scheduler_ s) -> Scheduler.queue_ (scheduler_ s) = [] -> sane_delays (faults (config_ s)) ->
  nodes_ (launch s) !! k = Some n -> up n = true -> supervised k (launch s).
Proof.
  intros T Q Sd. assert (restarts k s = []) as Hr by (unfold restarts; by rewrite Q). unfold launch. cbv zeta.
  generalize (map Simulation.id (nodes_ s)). intros ids.
  assert (forall js s, timely (scheduler_ s) /\ restarts k s = [] /\ sane_delays (faults (config_ s)) ->
    let s' := foldl (fun s i => boot i s) s js in timely (scheduler_ s') /\ restarts k s' = [] /\ sane_delays (faults (config_ s'))) as Boots.
  { induction js as [|j js IH]; intros s0 (T0 & H0 & D0); cbn; [done|]. apply IH.
    destruct (boot_idle k j s0 T0 H0) as (? & ? & ->). done. }
  destruct (Boots ids s) as (T1 & H1 & D1); [done|]. set (s1 := foldl _ s ids) in *. clearbody s1.
  assert (forall js s, steady k s (foldl (fun s i => schedule_crash i s) s js)) as Crashes.
  { induction js as [|j js IH]; intros s0; cbn; [apply steady_refl|]. eapply steady_trans; [apply schedule_crash_steady | apply IH]. }
  pose proof (steady_trans _ _ _ _ (Crashes ids s1) (steady_trans _ _ _ _ (schedule_partition_steady k _) (schedule_clock_jump_steady k _))) as [A1 A2 A3 A4 A5].
  intros Hn U. split; [auto | by rewrite A4 |]. exists n. rewrite U, A3. done.
Qed.

End Restarts.

(** ** Power cuts *)

Section PowerCut.
Context {G : Type} {RG : Random G}.
Implicit Types s : Simulation.t G.
Import Simulation.

(** A disk that is off and has no open files: whoever still holds one cannot change it. *)
Definition dead (d : SimDisk.t G) : Prop := SimDisk.powered_ d = false /\ SimDisk.open_ d = ∅.

Lemma dead_crash (d : SimDisk.t G) : dead (SimDisk.crash d).
Proof. done. Qed.

Lemma dead_close file d : dead d -> Disk.close file d = d.
Proof. intros [P E]. destruct d. cbn in *. unfold SimDisk.close. fields. rewrite E, delete_empty. by subst. Qed.

Lemma dead_flush_index seg d : dead d -> (Segment.flush_index seg d).2 = d.
Proof. intros [P E]. unfold Segment.flush_index. cbn. unfold SimDisk.open. by rewrite P. Qed.

(** [~Log] writes the indexes and closes the files, or tries to. *)
Lemma dead_log l d : dead d -> Log.destroy l d = d.
Proof.
  intros Hd. unfold Log.destroy, Log.flush_indexes.
  match goal with |- context [foldl ?f (Ok tt, d) _] => assert (forall segs st, (foldl f (st, d) segs).2 = d) as Flush end.
  { induction segs as [|seg segs IH]; intros st; cbn [foldl]; [done|]. pose proof (dead_flush_index seg d Hd) as F.
    destruct (Segment.flush_index seg d) as [[u|e] d']; cbn in F; subst d'; apply IH. }
  specialize (Flush (Log.segments_ l) (Ok tt)). destruct (foldl _ _ _) as [st d']. cbn in Flush. subst d'.
  induction (Log.segments_ l) as [|seg segs IH]; cbn [foldl]; [done|].
  unfold Segment.destroy. destruct (_ =? _); [apply IH|]. rewrite dead_close by done. apply IH.
Qed.

Lemma dead_rng d g : dead d -> dead (d <| SimDisk.rng_ := g |>).
Proof. done. Qed.

Lemma reset_endpoint_rng {X} i tell (f : Fabric.t G Z X) :
  (forall p f, Fabric.rng_ (tell p f) = Fabric.rng_ f) -> Fabric.rng_ (Fabric.reset_endpoint i tell f) = Fabric.rng_ f.
Proof.
  intros Ht. unfold Fabric.reset_endpoint. destruct (Fabric.endpoint i f) as [ep|]; [|done]. destruct (Fabric.reset ep); [done|].
  cbv zeta. by rewrite Ht.
Qed.

(** Killing connections draws nothing. *)
Lemma kill_rng {X} n (f : Fabric.t G Z X) : Fabric.rng_ (Fabric.kill_node_connections n f) = Fabric.rng_ f.
Proof.
  unfold Fabric.kill_node_connections. destruct (_ !! n) as [ids|]; [|done]. cbv zeta. cbn.
  assert (forall (g : Fabric.t G Z X -> Z -> Fabric.t G Z X) js f, (forall f j, Fabric.rng_ (g f j) = Fabric.rng_ f) ->
    Fabric.rng_ (foldl g f js) = Fabric.rng_ f) as Fold.
  { intros g js. induction js as [|j js IH]; intros f0 Hg; cbn; [done|]. by rewrite IH, Hg. }
  rewrite Fold by done. apply Fold. intros f0 j. destruct (Fabric.endpoint j f0) as [ep|]; [|done]. destruct (Fabric.listener ep); [done|].
  apply reset_endpoint_rng. intros p f1. destruct (_ && _); [by apply reset_endpoint_rng | done].
Qed.

Lemma same_rng (d : SimDisk.t G) g : SimDisk.rng_ d = g -> d <| SimDisk.rng_ := g |> = d.
Proof. intros <-. by destruct d. Qed.

(** The process goes, and with its disk dead it leaves nothing behind. *)
Lemma reset_workload_dead i s n : nodes_ s !! Z.to_nat i = Some n -> dead (disk n) -> SimDisk.rng_ (disk n) = rng_ s ->
  disk <$> nodes_ (reset_workload i s) !! Z.to_nat i = Some (disk n) /\
  forall j, j <> Z.to_nat i -> nodes_ (reset_workload i s) !! j = nodes_ s !! j.
Proof.
  intros Hn Hd Hg. unfold reset_workload. rewrite (node_at_some i s n Hn). destruct (workload n); [|by rewrite Hn].
  unfold Workload.reset_broker. destruct (Workload.broker_ _) as [b|].
  - unfold Broker.destroy. cbv zeta. set (bk := Broker.broker s).
    assert (Broker.disk (Host := Workload.site_host (Site := node_site i)) s = disk n) as E by (transitivity (disk (node_at i s) <| SimDisk.rng_ := rng_ s |>); [done | rewrite (node_at_some i s n Hn); by apply same_rng]).
    rewrite !E.
    assert (forall d, d = disk n -> match Broker.log_ bk with Some l => Log.destroy l d | None => d end = disk n) as Logs.
    { intros d ->. destruct (Broker.log_ bk); [by apply dead_log | done]. }
    rewrite Logs by (destruct (negb _); [by apply dead_close | done]). cbn. split.
    + rewrite !list_lookup_alter_eq, Hn. done.
    + intros j Hj. by rewrite !list_lookup_alter_ne.
  - cbn. split; [by rewrite list_lookup_alter_eq, Hn|]. intros j Hj. by rewrite list_lookup_alter_ne.
Qed.

Lemma schedule_restart_nodes i s : nodes_ (schedule_restart i s) = nodes_ s.
Proof. unfold schedule_restart, draw_in_range. cbv zeta. by destruct (next_in_range _ _ _). Qed.

(** C33: crashing a node is a power cut and nothing else: when the process and its objects are
    gone and their destructors have run, the disk is exactly what [SimDisk::crash] made of it,
    although [~Log] writes indexes and [~Broker] closes files, and no other node is touched. *)
Theorem crash_is_power_cut i s n : nodes_ s !! Z.to_nat i = Some n -> up n = true ->
  (exists n', nodes_ (crash_node i s) !! Z.to_nat i = Some n' /\ up n' = false /\ loop n' = None /\
     disk n' = SimDisk.crash (disk n <| SimDisk.rng_ := rng_ s |>)) /\
  forall j, j <> Z.to_nat i -> nodes_ (crash_node i s) !! j = nodes_ s !! j.
Proof.
  intros Hn U. unfold crash_node. rewrite (node_at_some i s n Hn), U. cbn [negb]. cbv zeta.
  rewrite schedule_restart_nodes. set (s1 := s <| fabric_ := _ |>).
  assert (Broker.disk (Host := node_host i) s1 = disk n <| SimDisk.rng_ := rng_ s |>) as E.
  { transitivity (disk (node_at i s1) <| SimDisk.rng_ := rng_ s1 |>); [done|]. rewrite (node_at_some i s1 n Hn).
    unfold rng_, s1. cbn. by rewrite kill_rng. }
  rewrite !E. set (d := SimDisk.crash _). set (s2 := Broker.put_disk d s1).
  assert (nodes_ s2 = alter (fun m => m <| disk := d |>) (Z.to_nat i) (nodes_ s)) as N2 by done.
  assert (rng_ s2 = SimDisk.rng_ d) as R2 by done. clearbody s2.
  set (s3 := s2 <| raft_messages_ := _ |> <| hard_state_writes_ := _ |>).
  destruct (reset_workload_dead i s3 (n <| disk := d |>)) as [D O]; [|done|done|].
  { change (nodes_ s3) with (nodes_ s2). by rewrite N2, list_lookup_alter_eq, Hn. }
  set (s4 := reset_workload i s3) in *. change (nodes_ s3) with (nodes_ s2) in O. rewrite N2 in O. clearbody s4. cbn. split.
  - destruct (nodes_ s4 !! Z.to_nat i) as [m|] eqn:Hm; [|done]. apply (inj Some) in D.
    eexists. rewrite list_lookup_alter_eq, Hm. split_and!; [reflexivity | done..].
  - intros j Hj. rewrite list_lookup_alter_ne by done. rewrite (O j Hj). by rewrite list_lookup_alter_ne.
Qed.

End PowerCut.

(** ** Runs *)

Section Outages.
Context {G : Type} {RG : Random G} {RK : RandomOk G}.
Import Simulation.

Lemma new_scheduler (config : SimulationConfig) (rng : G) :
  scheduler_ (new config rng) = Scheduler.new (Trace.set_capture_all (capture_trace config) (Trace.new 64)).
Proof.
  unfold new, scheduler_. cbn. generalize (map Z.of_nat (seq 0 (Z.to_nat (node_count config)))). intros ids.
  set (f := Fabric.new _ _ _). change (Scheduler.new _) with (Fabric.scheduler_ f). clearbody f. revert f.
  induction ids as [|i ids IH]; intros f; cbn; [done|]. by rewrite IH.
Qed.

(** C32: outages end.  In every state a run goes through, a node that was up when the run began
    is up and has no restart pending, or is down and has exactly one: in the future, within the
    configured delay, whatever the other nodes, the network and the faults did. *)
Theorem one_restart_per_outage (config : SimulationConfig) (rng : G) (fuel : nat) (k : nat) (n : Node G) (s : Simulation.t G) :
  sane_delays (faults config) ->
  nodes_ (launch (new config rng)) !! k = Some n -> up n = true ->
  reached fuel (new config rng) s -> attended k s.
Proof using RK.
  intros Sd Hn U Hs. apply sv_attended.
  assert (supervised k (launch (new config rng))) as S0.
  { eapply launch_supervised; [| |exact Sd|exact Hn|exact U]; rewrite new_scheduler; [|done]. split; try constructor; done. }
  induction Hs as [|s1 s2 _ IH R|s1 completed s2 _ IH R]; [done|..];
    pose proof (round_supervised k fuel s1 IH) as H; by rewrite R in H.
Qed.

End Outages.

(** ** A node that crashes at once *)

Definition quiet_disk : SimDisk.DiskFaultConfig := SimDisk.mkFaults (S754_zero false) (S754_zero false) (S754_zero false).
Definition quiet_network : Fabric.NetworkFaultConfig := Fabric.mkFaults 50000 2000000 (S754_zero false) 50000000 65536.

Definition crashing : Simulation.FaultConfig :=
  Simulation.mkFaults quiet_disk quiet_network 20 100 3000 0 0 0 (S754_zero false) 0 0 0.

Definition lone : Simulation.SimulationConfig :=
  Simulation.mkConfig 1 1 1000 crashing NodeWorkload.default_config true 0.

Definition lone_start : Simulation.t Z := Simulation.new lone 40.

Definition lone_crashed : Simulation.t Z :=
  match Simulation.round 100 (Simulation.launch lone_start) with inl (_, s) => s | inr s => s end.

Lemma lone_up : exists n, Simulation.nodes_ (Simulation.launch lone_start) !! 0%nat = Some n /\ Simulation.up n = true.
Proof.
  assert (Simulation.up <$> Simulation.nodes_ (Simulation.launch lone_start) !! 0%nat = Some true) as E by (vm_compute; reflexivity).
  destruct (_ !! 0%nat) as [n|]; [|done]. exists n. split; [done|]. by apply (inj Some) in E.
Defined.

Lemma lone_reached : reached 100 lone_start lone_crashed.
Proof.
  unfold lone_crashed. pose proof (Launched 100 lone_start) as L. destruct (Simulation.round _ _) as [[b s]|s] eqn:R;
    [by eapply Stopped | by eapply Went].
Defined.

Lemma one_restart_per_outage_witness :
  map Simulation.up (Simulation.nodes_ lone_crashed) = [false] /\ attended 0 lone_crashed.
Proof.
  split; [vm_compute; reflexivity|]. destruct lone_up as (n & Hn & U).
  apply (one_restart_per_outage lone 40 100 0 n); [|exact Hn|exact U|exact lone_reached]. unfold sane_delays. cbn. lia.
Defined.

Lemma crash_is_power_cut_witness : exists n, Simulation.nodes_ (Simulation.launch lone_start) !! Z.to_nat 0 = Some n /\
  exists n', Simulation.nodes_ (Simulation.crash_node 0 (Simulation.launch lone_start)) !! Z.to_nat 0 = Some n' /\ Simulation.up n' = false.
Proof.
  destruct lone_up as (n & Hn & U). exists n. split; [exact Hn|].
  destruct (crash_is_power_cut 0 (Simulation.launch lone_start) n Hn U) as [(n' & H1 & H2 & _) _].
  exists n'. split; [exact H1 | exact H2].
Defined.

(** ** Replay *)

(** [SimulationConfig{}] with a seed and a duration, and no crashes, partitions or jumps. *)
Definition calm_config (seed duration : Z) : Simulation.SimulationConfig :=
  let f := Simulation.default_faults in
  Simulation.mkConfig seed 3 duration
    (Simulation.mkFaults (Simulation.disk_faults f) (Simulation.network f) 0 (Simulation.restart_delay_min f)
       (Simulation.restart_delay_max f) 0 (Simulation.partition_duration_min f) (Simulation.partition_duration_max f)
       (Simulation.asymmetric_partition_probability f) 0 (Simulation.clock_jump_max_ms f) 0)
    NodeWorkload.default_config true 0.

Definition replay (seed duration : Z) : option (Simulation.SimulationResult * Simulation.t SeededRandom.t) :=
  Simulation.run 1000 1000
    (Simulation.new (calm_config seed duration) (SeededRandom.reseed seed)).

(** Three hundred milliseconds of three nodes under seed 1: the hash of the trace is the one the
    program computes, no loop runs out of fuel, and the oracle has nothing to say. *)
Example replay_hash :
  (fun r => (Simulation.trace_hash r.1, Simulation.r_ok r.1, Simulation.stuck_ r.2)) <$> replay 1 300000000 =
  Some (6559066216794309239, true, false).
Proof. vm_compute. reflexivity. Qed.
