(* ===== verification/SimTool.v ===== *)
(** * sim and failover

    Models [src/tools/sim.cpp], which runs the simulation for one seed or for a range of them,
    and [src/bench/failover.cpp], which collects the leaderless stretches of many runs.  A
    printed line is a value of [Line] with what it prints.  A run of the simulation is
    [Simulation.run_simulation], which may run out of fuel; so may the loops over the seeds,
    and then there is no outcome.  [strtod] is an argument, and so is whether a file can be
    opened for writing; times that do not fit 64 bits are not wrapped. *)
From S2P Require Import Prelude Base Random RecordBatch SparseIndex Disk Text SimDisk Segment Log Network.
From S2P Require Import RaftTypes RaftNode Broker Queue Trace Scheduler SimNetwork EventLoop Oracle Workload Simulation Histogram.
From Stdlib Require Import SpecFloat.
Import Strto Simulation.

#[local] Open Scope Z_scope.

#[export] Instance DiskFaultConfig_eta : Settable SimDisk.DiskFaultConfig := fun f =>
  SimDisk.mkFaults (SimDisk.torn_write_probability f) (SimDisk.keep_unflushed_probability f) (SimDisk.io_error_probability f).

#[export] Instance WorkloadConfig_eta : Settable NodeWorkload.Config := fun c =>
  NodeWorkload.mkConfig (NodeWorkload.append_interval c) (NodeWorkload.append_jitter c) (NodeWorkload.records_per_batch c)
    (NodeWorkload.record_bytes c) (NodeWorkload.verify_tail_batches c) (NodeWorkload.raft_tick c)
    (NodeWorkload.election_timeout_ticks c) (NodeWorkload.election_timeout_jitter_ticks c)
    (NodeWorkload.heartbeat_timeout_ticks c) (NodeWorkload.fsync_hard_state c) (NodeWorkload.ack_on_local_append c).

Definition simulated_node_hours (r : SimulationResult) : double :=
  SFdiv 53 1024 (SFmul 53 1024 (to_seconds_f (simulated_time r)) (double_of_u64 (r_node_count r))) (double_of_u64 3600).

Module SimTool.

Inductive Line :=
  | Usage
  | UnknownOption (arg : chars)
  | NoNodes
  | CannotWrite (path : chars)
  | QuietResult (seed trace_hash trace_events : Z) (ok : bool)
  | Seed (seed : Z)
  | TraceHash (trace_hash trace_events : Z)
  | Simulated (seconds : double) (node_count : Z) (node_hours : double)
  | Acked (records batches : Z)
  | Faults (crashes partitions resets : Z)
  | UnflushedLost (bytes : Z)
  | NetworkUse (bytes messages : Z)
  | RaftUse (elections terms fsyncs : Z)
  | LongestLeaderless (seconds : double)
  | Violated (seed : Z) (invariant : text) (detail : text) (seconds : double)
  | LastEvents (events : list chars)
  | ReplayIt (seed : Z)
  | Progress (seed seeds : Z) (node_hours : double) (acked : Z)
  | AllGreen (seeds : Z) (node_hours : double) (acked crashes : Z).

Definition print_result (r : SimulationResult) (quiet : bool) : list Line :=
  if quiet then [QuietResult (r_seed r) (trace_hash r) (trace_events r) (r_ok r)]
  else
    [Seed (r_seed r); TraceHash (trace_hash r) (trace_events r);
     Simulated (to_seconds_f (simulated_time r)) (r_node_count r) (simulated_node_hours r);
     Acked (records_acked r) (r_appends r); Faults (crashes r) (partitions r) (connections_reset r);
     UnflushedLost (bytes_lost_to_crashes r); NetworkUse (bytes_delivered r) (raft_messages r);
     RaftUse (elections r) (highest_term r) (r_hard_state_writes r); LongestLeaderless (to_seconds_f (longest_leaderless r))].

Definition report_violation (r : SimulationResult) : Z * list Line :=
  (1, [Violated (r_seed r) (default "?"%string (invariant r)) (detail r) (to_seconds_f (simulated_time r));
       LastEvents (map Trace.format (tail r)); ReplayIt (r_seed r)]).

(** The lines of the file. *)
Definition dump_trace (trace : Trace.t) : list chars := map Trace.format (Trace.all_ trace).

Record Options := mkOptions {
  config : SimulationConfig;
  seeds : Z;
  single : bool;
  quiet : bool;
  trace_path : chars }.

#[export] Instance Options_eta : Settable Options := fun o =>
  mkOptions (config o) (seeds o) (single o) (quiet o) (trace_path o).

Definition defaults : Options := mkOptions default_config 10 false false [].

(** How the program ends: its exit code, what it printed, and the file it wrote. *)
Record Outcome := mkOutcome { code : Z; printed : list Line; dumped : option (chars * list chars) }.

Section Program.
Context (strtod : chars -> double) (writable : chars -> bool) (fuel rounds : nat).

Definition with_config (f : SimulationConfig -> SimulationConfig) (o : Options) : Options := o <| config := f (config o) |>.
Definition with_faults (f : FaultConfig -> FaultConfig) (o : Options) : Options :=
  with_config (fun c => c <| faults := f (faults c) |>) o.
Definition with_workload (f : NodeWorkload.Config -> NodeWorkload.Config) (o : Options) : Options :=
  with_config (fun c => c <| workload_config := f (workload_config c) |>) o.

(** The options that take a value. *)
Definition valued (key value : chars) (o : Options) : option Options :=
  if bool_decide (key = lit "--seeds") then Some (o <| seeds := strtoul 0 value |>)
  else if bool_decide (key = lit "--seed") then
    Some (with_config (fun c => c <| seed := strtoul 0 value |>) o <| single := true |>)
  else if bool_decide (key = lit "--nodes") then Some (with_config (fun c => c <| node_count := u32 (strtoul 0 value) |>) o)
  else if bool_decide (key = lit "--duration-s") then
    Some (with_config (fun c => c <| duration := seconds (strtoll 0 value) |>) o)
  else if bool_decide (key = lit "--dump-trace") then Some (o <| trace_path := value |>)
  else if bool_decide (key = lit "--io-errors") then
    Some (with_faults (fun f => f <| disk_faults := disk_faults f <| SimDisk.io_error_probability := strtod value |> |>) o)
  else if bool_decide (key = lit "--crash-s") then
    Some (with_faults (fun f => f <| crash_interval := seconds (strtoll 0 value) |>) o)
  else if bool_decide (key = lit "--restart-ms") then
    let longest := millis (strtoll 0 value) in
    Some (with_faults (fun f =>
      let f := f <| restart_delay_max := longest |> in
      if longest <? restart_delay_min f then f <| restart_delay_min := longest |> else f) o)
  else if bool_decide (key = lit "--partition-s") then
    let held := seconds (strtoll 0 value) in
    Some (with_faults (fun f => f <| partition_duration_min := held |> <| partition_duration_max := held |>) o)
  else None.

(** The options that stand alone. *)
Definition flag (key : chars) (o : Options) : option Options :=
  if bool_decide (key = lit "--unsafe-metadata") then
    Some (with_workload (fun c => c <| NodeWorkload.fsync_hard_state := false |>) o)
  else if bool_decide (key = lit "--acks-1") then
    Some (with_workload (fun c => c <| NodeWorkload.ack_on_local_append := true |>) o)
  else if bool_decide (key = lit "--no-faults") then
    Some (with_faults (fun f => f <| crash_interval := 0 |> <| partition_interval := 0 |> <| clock_jump_interval := 0 |>) o)
  else if bool_decide (key = lit "--quiet") then Some (o <| quiet := true |>)
  else None.

Fixpoint parse_args (args : list chars) (o : Options) : Options + Outcome :=
  match args with
  | [] => inl o
  | key :: rest =>
      let alone (k : Options -> Options + Outcome) :=
        match flag key o with
        | Some o => k o
        | None =>
            if bool_decide (key = lit "-h") || bool_decide (key = lit "--help") then inr (mkOutcome 0 [Usage] None)
            else inr (mkOutcome 2 [UnknownOption key; Usage] None)
        end in
      match rest with
      | value :: rest' =>
          match valued key value o with
          | Some o => parse_args rest' o
          | None => alone (parse_args rest)
          end
      | [] => alone inl
      end
  end.

(** What the loop over the seeds adds up. *)
Record Tally := mkTally { node_hours : double; acked : Z; crashed : Z }.

Definition add_run (r : SimulationResult) (y : Tally) : Tally :=
  mkTally (SFadd 53 1024 (node_hours y) (simulated_node_hours r)) (u64 (acked y + records_acked r)) (u64 (crashed y + crashes r)).

Definition after_seed (o : Options) (seed : Z) (r : SimulationResult) (y : Tally) : list Line :=
  if negb (quiet o) && ((seed mod 10 =? 0) || (seed =? seeds o)) then [Progress seed (seeds o) (node_hours y) (acked y)]
  else if quiet o then print_result r true
  else [].

(** [k] bounds the turns of the loop. *)
Fixpoint sweep (k : nat) (o : Options) (seed : Z) (y : Tally) : option (Z * list Line) :=
  if seed <=? seeds o then
    match k with
    | O => None
    | S k' =>
        match run_simulation fuel rounds (config o <| Simulation.seed := seed |>) with
        | None => None
        | Some (r, _) =>
            let y := add_run r y in
            if r_ok r then
              match sweep k' o (u64 (seed + 1)) y with
              | Some (code, lines) => Some (code, after_seed o seed r y ++ lines)
              | None => None
              end
            else let '(code, lines) := report_violation r in Some (code, print_result r false ++ lines)
        end
    end
  else Some (0, [AllGreen (seeds o) (node_hours y) (acked y) (crashed y)]).

Definition run_single (o : Options) : option Outcome :=
  let captured := negb (bool_decide (trace_path o = [])) in
  match run_simulation fuel rounds (config o <| capture_trace := captured |>) with
  | None => None
  | Some (r, trace) =>
      let shown := print_result r (quiet o) in
      if captured && negb (writable (trace_path o)) then Some (mkOutcome 2 (shown ++ [CannotWrite (trace_path o)]) None)
      else
        let file := if captured then Some (trace_path o, dump_trace trace) else None in
        if r_ok r then Some (mkOutcome 0 shown file)
        else let '(code, lines) := report_violation r in Some (mkOutcome code (shown ++ lines) file)
  end.

Definition main (k : nat) (args : list chars) : option Outcome :=
  match parse_args args defaults with
  | inr out => Some out
  | inl o =>
      if node_count (config o) =? 0 then Some (mkOutcome 2 [NoNodes] None)
      else if single o then run_single o
      else
        match sweep k o 1 (mkTally (S754_zero false) 0 0) with
        | Some (code, lines) => Some (mkOutcome code lines None)
        | None => None
        end
  end.

End Program.
End SimTool.

Module Failover.

Inductive Line :=
  | Usage
  | Broken (seed : Z) (invariant : text) (detail : text)
  | Report (failures seeds_run nodes : Z) (crash_every_s : Z) (node_hours : double) (crashes : Z)
      (p50 p99 p999 max : double) (pass : bool).

Record Options := mkOptions { wanted : Z; crash_every_s : Z; duration_s : Z; nodes : Z }.

#[export] Instance FailoverOptions_eta : Settable Options := fun o =>
  mkOptions (wanted o) (crash_every_s o) (duration_s o) (nodes o).

Fixpoint parse_args (args : list chars) (o : Options) : option Options :=
  match args with
  | [] => Some o
  | key :: value :: rest =>
      if bool_decide (key = lit "--failures") then parse_args rest (o <| wanted := strtoul 10 value |>)
      else if bool_decide (key = lit "--crash-s") then parse_args rest (o <| crash_every_s := strtoll 10 value |>)
      else if bool_decide (key = lit "--duration-s") then parse_args rest (o <| duration_s := strtoll 10 value |>)
      else if bool_decide (key = lit "--nodes") then parse_args rest (o <| nodes := u32 (strtoul 10 value) |>)
      else None
  | _ => None
  end.

(** The configuration of a run. *)
Definition config_for (o : Options) (seed : Z) : SimulationConfig :=
  default_config <| Simulation.seed := seed |> <| node_count := nodes o |> <| duration := seconds (duration_s o) |>
    <| faults := default_faults <| crash_interval := seconds (crash_every_s o) |> <| partition_interval := 0 |>
                   <| clock_jump_interval := 0 |> |>.

(** The loop over the gaps of a run; [gaps] are those behind the first. *)
Fixpoint add_gaps (wanted : Z) (gaps : list Z) (h : Histogram.t) : Histogram.t :=
  match gaps with
  | [] => h
  | gap :: rest =>
      let h := Histogram.add gap h in
      if wanted <=? Histogram.count h then h else add_gaps wanted rest h
  end.

Record Sums := mkSums { histogram : Histogram.t; seeds_run : Z; crashes : Z; node_hours : double }.

Section Program.
Context (fuel rounds : nat).

(** [k] bounds the turns of the loop; nothing in the code does. *)
Fixpoint collect (k : nat) (o : Options) (seed : Z) (y : Sums) : option (Sums + Line) :=
  if Histogram.count (histogram y) <? wanted o then
    match k with
    | O => None
    | S k' =>
        match run_simulation fuel rounds (config_for o seed) with
        | None => None
        | Some (r, _) =>
            if r_ok r then
              collect k' o (u64 (seed + 1))
                (mkSums (add_gaps (wanted o) (drop 1 (leaderless_gaps r)) (histogram y)) (u64 (seeds_run y + 1))
                   (u64 (crashes y + Simulation.crashes r)) (SFadd 53 1024 (node_hours y) (simulated_node_hours r)))
            else Some (inr (Broken seed (default "?"%string (invariant r)) (detail r)))
        end
    end
  else Some (inl y).

Definition kBoundMs : double := double_of_u64 900.

(** [99.9] *)
Definition p999_rank : double := S754_finite false 7029837543348634%positive (-46).

Definition report (o : Options) (y : Sums) : Z * list Line :=
  let h := histogram y in
  let '(p50, h) := Histogram.percentile (double_of_u64 50) h in
  let '(p99, h) := Histogram.percentile (double_of_u64 99) h in
  let '(p999, h) := Histogram.percentile p999_rank h in
  let '(longest, _) := Histogram.max h in
  let pass := SFleb (to_millis_f p99) kBoundMs in
  (if pass then 0 else 1,
   [Report (Histogram.count (histogram y)) (seeds_run y) (nodes o) (crash_every_s o) (node_hours y) (crashes y)
      (to_millis_f p50) (to_millis_f p99) (to_millis_f p999) (to_millis_f longest) pass]).

Definition main (k : nat) (args : list chars) : option (Z * list Line) :=
  match parse_args args (mkOptions 200 5 120 3) with
  | None => Some (2, [Usage])
  | Some o =>
      match collect k o 1 (mkSums Histogram.new 0 0 (S754_zero false)) with
      | None => None
      | Some (inr line) => Some (1, [line])
      | Some (inl y) => Some (report o y)
      end
  end.

End Program.
End Failover.
