(* ===== verification/SimToolProps.v ===== *)
(** * sim: the exit code and the seed

    What a sweep over seeds tells its caller: the exit code is zero exactly when every run is
    without a violation, and otherwise the seed that is printed is the first one that breaks an
    invariant.  A result is the result of the configuration it was asked for, which no event of
    a run changes.  And what [failover] measures: as many stretches as were asked for, each
    from a run without a violation and none of them the first of its run. *)
From S2P Require Import Prelude Base Random RecordBatch SparseIndex Disk Text SimDisk Segment Log Network.
From S2P Require Import RaftTypes RaftNode Broker Queue Trace Scheduler SimNetwork EventLoop Oracle Workload Simulation Histogram.
From S2P Require Import SimulationFacts SimulationProps SimTool.
From Stdlib Require Import SpecFloat.

#[local] Open Scope Z_scope.

(** ** The configuration of a run *)

Section Config.
Context {G : Type} {RG : Random G}.
Implicit Types s : Simulation.t G.
Import Simulation.

Lemma schedule_restart_config i s : config_ (schedule_restart i s) = config_ s.
Proof. unfold schedule_restart, draw_in_range. by destruct (next_in_range _ _ _). Qed.

Lemma boot_config i s : config_ (boot i s) = config_ s.
Proof.
  destruct (boot_work i s) as (s1 & b & f & A & _ & B). rewrite (aw_config _ _ B). apply (aw_config _ _ A).
Qed.

Lemma crash_config i s : config_ (crash_node i s) = config_ s.
Proof.
  destruct (up (node_at i s)) eqn:U; [|unfold crash_node; by rewrite U].
  destruct (crash_work i s U) as (s1 & f & A & _ & ->). rewrite schedule_restart_config. apply (aw_config _ _ A).
Qed.

Lemma restart_config i s : config_ (restart i s) = config_ s.
Proof.
  unfold restart. cbv zeta. rewrite <- (boot_config i s).
  destruct (up _); [apply (st_config 0), schedule_crash_steady | apply schedule_restart_config].
Qed.

Lemma perform_config c s : config_ (perform c s) = config_ s.
Proof.
  destruct c; cbn [perform];
    [apply restart_config | apply crash_config | apply (st_config 0), partition_steady | apply (st_config 0), heal_steady
    | apply (st_config 0), clock_jump_steady].
Qed.

Lemma call_config c s : config_ (call c s) = config_ s.
Proof. destruct c; cbn [call]; [done..|apply perform_config]. Qed.

Lemma run_next_config limit s :
  config_ (Scheduler.run_next_before scheduler_ (fun x s => s <| scheduler_ := x |>) call limit s).2 = config_ s.
Proof.
  unfold Scheduler.run_next_before. destruct (Scheduler.take_next_before _ _) as [[e|] x]; [|done]. cbn.
  destruct (Scheduler.callback e); [|done]. by rewrite call_config.
Qed.

Lemma instant_config : forall n same s, config_ (run_instant n same s) = config_ s.
Proof.
  induction n as [|n IH]; intros same s; cbn [run_instant]; [done|]. destruct (negb _); [done|].
  pose proof (run_next_config (Scheduler.now_ (scheduler_ s)) s) as E.
  destruct (Scheduler.run_next_before _ _ _ _ _) as [[] s1]; cbn [negb]; [|done].
  destruct (_ <=? _); [done|]. by rewrite IH.
Qed.

Lemma round_config fuel s : match round fuel s with inl (_, s') => config_ s' = config_ s | inr s' => config_ s' = config_ s end.
Proof.
  unfold round. destruct (negb _); [done|]. unfold next_instant. destruct (Scheduler.next_deadline _) as [at_ x].
  destruct (_ || _); [done|]. cbv zeta. set (s2 := _ <| scheduler_ := Scheduler.advance_to _ _ |>).
  assert (config_ s2 = config_ s) as E by done. clearbody s2. set (n := Z.to_nat kMaxEventsPerInstant).
  rewrite <- (instant_config n 0 s2) in E. set (s3 := run_instant n 0 s2) in *. clearbody s3. destruct (negb _); [done|].
  assert (config_ (sample_leader (drain_nodes fuel s3)) = config_ s3) as W
    by (rewrite (aw_config _ _ (sample_work _)); apply (aw_config _ _ (drain_nodes_work fuel s3))).
  destruct (_ && _); congruence.
Qed.

Lemma rounds_config fuel k : forall s b s', rounds fuel k s = Some (b, s') -> config_ s' = config_ s.
Proof.
  induction k as [|k IH]; intros s b s'; cbn [rounds]; pose proof (round_config fuel s) as R;
    (destruct (round fuel s) as [[b' s1]|s1]; [intros [= -> ->]; done|]); [done|]. intros E%IH. congruence.
Qed.

Lemma each_config (f : Simulation.t G -> Z -> Simulation.t G) ids :
  (forall i s, config_ (f s i) = config_ s) -> forall s, config_ (foldl f s ids) = config_ s.
Proof. intros Hf. induction ids as [|i ids IH]; intros s; cbn; [done|]. by rewrite IH. Qed.

Lemma launch_config s : config_ (launch s) = config_ s.
Proof.
  unfold launch. cbv zeta. rewrite (st_config 0 _ _ (schedule_clock_jump_steady 0 _)), (st_config 0 _ _ (schedule_partition_steady 0 _)).
  rewrite !each_config; [done | |]; intros; [apply boot_config | apply (st_config 0), schedule_crash_steady].
Qed.

Lemma run_config fuel k s r s' : run fuel k s = Some (r, s') ->
  r_seed r = seed (config_ s) /\ r_node_count r = node_count (config_ s).
Proof.
  unfold run. destruct (rounds fuel k (launch s)) as [[b s1]|] eqn:R; [|done]. apply rounds_config in R. rewrite launch_config in R.
  cbv zeta. intros [= <- _]. destruct b; cbn; by rewrite R.
Qed.

End Config.

(** A result carries the seed it was asked for. *)
Lemma result_seed fuel k config r trace : run_simulation fuel k config = Some (r, trace) ->
  Simulation.r_seed r = Simulation.seed config.
Proof.
  unfold run_simulation. destruct (Simulation.run fuel k _) as [[r' s]|] eqn:R; [|done].
  apply run_config in R as [R _]. destruct (Simulation.stuck_ s); [done|]. intros [= <- _]. exact R.
Qed.

(** ** A sweep *)

Section Sweep.
Context (fuel rounds : nat).
Import SimTool.

(** The run of one seed, and a run without a violation. *)
Definition run_of (o : Options) (s : Z) : option (Simulation.SimulationResult * Trace.t) :=
  run_simulation fuel rounds (config o <| Simulation.seed := s |>).

Definition green (o : Options) (s : Z) : Prop := exists r trace, run_of o s = Some (r, trace) /\ Simulation.r_ok r = true.

(** The seed [s] is the first from [from] on whose run breaks an invariant. *)
Definition first_violation (o : Options) (from s : Z) : Prop :=
  from <= s <= seeds o /\ (forall s', from <= s' < s -> green o s') /\
  exists r trace, run_of o s = Some (r, trace) /\ Simulation.r_ok r = false.

Lemma sweep_spec k o : seeds o < 2 ^ 64 - 1 -> forall seed y, 1 <= seed -> seeds o + 1 - seed <= Z.of_nat k ->
  (forall s, seed <= s <= seeds o -> is_Some (run_of o s)) ->
  exists code lines, sweep fuel rounds k o seed y = Some (code, lines) /\
    ((code = 0 /\ forall s, seed <= s <= seeds o -> green o s) \/
     (code = 1 /\ exists s, first_violation o seed s /\ ReplayIt s ∈ lines)).
Proof.
  intros Hw. induction k as [|k IH]; intros seed y H1 Hk Hs; cbn [sweep]; (destruct (seed <=? seeds o) eqn:L; bool_prop;
    [|eexists _, _; split; [done|]; left; split; [done|]; intros; lia]); [lia|].
  destruct (Hs seed ltac:(lia)) as [[r trace] Hr]. fold (run_of o seed). rewrite Hr. cbv zeta.
  destruct (Simulation.r_ok r) eqn:Ok.
  - rewrite wrap_small by lia. destruct (IH (seed + 1) (add_run r y)) as (code & lines & -> & C); [lia..| |].
    { intros s Hb. apply Hs. lia. }
    assert (green o seed) as Hg by by exists r, trace.
    eexists _, _. split; [done|]. destruct C as [[-> C] | [-> (s & (B & F & V) & Hin)]]; [left | right]; (split; [done|]).
    + intros s Hb. destruct (decide (s = seed)) as [->|]; [done|]. apply C. lia.
    + exists s. split; [|apply elem_of_app; by right]. split; [lia|]. split; [|done].
      intros s' Hb. destruct (decide (s' = seed)) as [->|]; [done|]. apply F. lia.
  - eexists _, _. split; [done|]. right. split; [done|]. exists seed. split; [split; [lia|]; split; [intros; lia | by exists r, trace]|].
    unfold run_of in Hr. apply result_seed in Hr. cbn in Hr. rewrite <- Hr at 1. apply elem_of_app. right. set_solver.
Qed.

End Sweep.

(** C35: The exit code of a sweep is the verdict: with runs that end, the program ends; it exits with
    0 exactly when no seed breaks an invariant, and otherwise with 1, and the seed it prints to
    be replayed is the first one that breaks one. *)
Theorem sweep_verdict (strtod : chars -> double) (writable : chars -> bool) (fuel rounds k : nat) (args : list chars) (o : SimTool.Options) :
  SimTool.parse_args strtod args SimTool.defaults = inl o -> SimTool.single o = false ->
  Simulation.node_count (SimTool.config o) <> 0 -> SimTool.seeds o < 2 ^ 64 - 1 -> SimTool.seeds o <= Z.of_nat k ->
  (forall s, 1 <= s <= SimTool.seeds o -> is_Some (run_of fuel rounds o s)) ->
  exists out, SimTool.main strtod writable fuel rounds k args = Some out /\
    (SimTool.code out = 0 <-> forall s, 1 <= s <= SimTool.seeds o -> green fuel rounds o s) /\
    (SimTool.code out <> 0 -> SimTool.code out = 1 /\
       exists s, first_violation fuel rounds o 1 s /\ SimTool.ReplayIt s ∈ SimTool.printed out).
Proof.
  intros Ha Hs Hn Hw Hk Hr. unfold SimTool.main. rewrite Ha, Hs. apply Z.eqb_neq in Hn as ->.
  destruct (sweep_spec fuel rounds k o Hw 1 (SimTool.mkTally (S754_zero false) 0 0)) as (code & lines & -> & C); [lia..|done|].
  eexists. split; [done|]. cbn [SimTool.code SimTool.printed].
  destruct C as [[-> C] | [-> (s & F & Hin)]]; (split; [split|]); try done; [|by eauto].
  intros C. destruct F as (B & _ & r & trace & Hv & Bad). destruct (C s B) as (r' & trace' & Hv' & Good). congruence.
Qed.

(** Two seeds of a single node that has nothing to do. *)
Definition idle_args : list chars := map lit ["--seeds"; "0x2"; "--nodes"; "1"; "--duration-s"; "0"; "--no-faults"]%string.
Definition idle_options : SimTool.Options :=
  match SimTool.parse_args (fun _ => S754_zero false) idle_args SimTool.defaults with inl o => o | inr _ => SimTool.defaults end.

Lemma idle_runs s : 1 <= s <= 2 -> is_Some (run_of 20 20 idle_options s).
Proof.
  intros Hs. assert (s = 1 \/ s = 2) as [-> | ->] by lia.
  all: match goal with |- is_Some ?x => assert ((fun _ => tt) <$> x = Some tt) as E by (vm_compute; reflexivity); by destruct x; eauto end.
Qed.

Lemma sweep_verdict_witness : exists out,
  SimTool.main (fun _ => S754_zero false) (fun _ => true) 20 20 2 idle_args = Some out /\
  (SimTool.code out = 0 <-> forall s, 1 <= s <= SimTool.seeds idle_options -> green 20 20 idle_options s).
Proof.
  destruct (sweep_verdict (fun _ => S754_zero false) (fun _ => true) 20 20 2 idle_args idle_options) as (out & H1 & H2 & _).
  - reflexivity.
  - reflexivity.
  - vm_compute. discriminate.
  - vm_compute. reflexivity.
  - vm_compute. discriminate.
  - exact idle_runs.
  - exists out. split; [exact H1 | exact H2].
Defined.

(** ** Failover times *)

Section Failover.
Context (fuel rounds : nat) (o : Failover.Options).
Import Failover.

(** What a seed contributes: every leaderless stretch of its run but the first. *)
Definition gaps_of (s : Z) : list Z :=
  match run_simulation fuel rounds (config_for o s) with
  | Some (r, _) => drop 1 (Simulation.leaderless_gaps r)
  | None => []
  end.

Definition sound_run (s : Z) : Prop :=
  exists r trace, run_simulation fuel rounds (config_for o s) = Some (r, trace) /\ Simulation.r_ok r = true.

Fixpoint gaps_from (n : nat) (s : Z) : list Z :=
  match n with O => [] | S n' => gaps_of s ++ gaps_from n' (s + 1) end.

Lemma add_gaps_spec gaps : forall h, Histogram.count h < wanted o ->
  Histogram.samples_ (add_gaps (wanted o) gaps h) = ztake (wanted o) (Histogram.samples_ h ++ gaps).
Proof.
  induction gaps as [|g gaps IH]; intros h Hc; cbn [add_gaps]; unfold Histogram.count in *.
  - rewrite app_nil_r. unfold ztake. rewrite firstn_all2; [done|]. unfold zlen in Hc. lia.
  - cbv zeta. destruct (_ <=? _) eqn:L; bool_prop; cbn [Histogram.add] in *.
    + cbn in L |- *. rewrite zlen_app in L. cbn in L. rewrite (cons_middle g (Histogram.samples_ h) gaps), app_assoc. unfold ztake.
      rewrite take_app_length'; [done|]. unfold zlen in *. rewrite length_app. cbn in *. lia.
    + rewrite IH; [|done]. cbn. by rewrite <- app_assoc.
Qed.

Lemma ztake_twice {A} n (xs ys : list A) : ztake n (ztake n xs ++ ys) = ztake n (xs ++ ys).
Proof.
  unfold ztake. set (k := Z.to_nat n). destruct (decide (k <= length xs)%nat).
  - rewrite (take_app_le xs) by lia. rewrite take_app_le by (rewrite length_take; lia). by rewrite take_take, Nat.min_id.
  - by rewrite (firstn_all2 xs) by lia.
Qed.

Lemma collect_spec k : forall s y, 1 <= s -> s + Z.of_nat k < 2 ^ 64 ->
  (forall i, s <= i < s + Z.of_nat k -> sound_run i) ->
  Histogram.count (histogram y) <= wanted o <= zlen (Histogram.samples_ (histogram y) ++ gaps_from k s) ->
  exists y', collect fuel rounds k o s y = Some (inl y') /\
    Histogram.samples_ (histogram y') = ztake (wanted o) (Histogram.samples_ (histogram y) ++ gaps_from k s).
Proof.
  induction k as [|k IH]; intros s y Hs Hb Hr Hw; cbn [collect gaps_from] in *;
    (destruct (_ <? _) eqn:L; bool_prop; [|exists y; split; [done|]; unfold Histogram.count in *; unfold ztake;
       rewrite take_app_length'; [done | unfold zlen in *; lia]]).
  { rewrite app_nil_r in Hw. unfold Histogram.count in *. lia. }
  destruct (Hr s ltac:(lia)) as (r & trace & Er & Ok). unfold gaps_of in *. rewrite Er in *. rewrite Ok.
  rewrite wrap_small by lia. set (y1 := mkSums _ _ _ _).
  assert (Histogram.samples_ (histogram y1) = ztake (wanted o) (Histogram.samples_ (histogram y) ++ drop 1 (Simulation.leaderless_gaps r))) as E1
    by (unfold y1; cbn [histogram]; by apply add_gaps_spec).
  destruct (IH (s + 1) y1) as (y' & H1 & H2); [lia..| | |].
  - intros i Hi. apply Hr. lia.
  - unfold Histogram.count in *. rewrite E1. rewrite !zlen_app, zlen_ztake, !zlen_app in *.
    pose proof (zlen_nonneg (Histogram.samples_ (histogram y))). pose proof (zlen_nonneg (gaps_from k (s + 1))).
    pose proof (zlen_nonneg (drop 1 (Simulation.leaderless_gaps r))). lia.
  - exists y'. split; [done|]. by rewrite H2, E1, ztake_twice, <- app_assoc.
Qed.

(** With no second stretch in any run the program does not end. *)
Lemma collect_endless : 0 < wanted o -> (forall s, sound_run s /\ gaps_of s = []) -> forall k s y,
  Histogram.count (histogram y) = 0 -> collect fuel rounds k o s y = None.
Proof.
  intros Hw Hs. induction k as [|k IH]; intros s y Hc; cbn [collect]; rewrite Hc, (proj2 (Z.ltb_lt _ _) Hw); [done|].
  destruct (Hs s) as [(r & trace & Er & Ok) Hg]. unfold gaps_of in Hg. rewrite Er in *. rewrite Ok, Hg. by apply IH.
Qed.

End Failover.

(** The samples are the first [wanted] failovers of the seeds in their order: when the runs of
    seeds 1 to [k] end without a violation and have that many stretches behind their first, the
    program ends, reports exactly [wanted] failures, and exits with 0 or 1. *)
Theorem failover_samples (fuel rounds k : nat) (args : list chars) (o : Failover.Options) :
  Failover.parse_args args (Failover.mkOptions 200 5 120 3) = Some o -> 0 <= Failover.wanted o -> Z.of_nat k < 2 ^ 64 - 1 ->
  (forall s, 1 <= s < 1 + Z.of_nat k -> sound_run fuel rounds o s) -> Failover.wanted o <= zlen (gaps_from fuel rounds o k 1) ->
  exists y, Failover.collect fuel rounds k o 1 (Failover.mkSums Histogram.new 0 0 (S754_zero false)) = Some (inl y) /\
    Histogram.samples_ (Failover.histogram y) = ztake (Failover.wanted o) (gaps_from fuel rounds o k 1) /\
    Histogram.count (Failover.histogram y) = Failover.wanted o /\
    Failover.main fuel rounds k args = Some (Failover.report o y).
Proof.
  intros Ha H0 Hk Hr Hw. destruct (collect_spec fuel rounds o k 1 (Failover.mkSums Histogram.new 0 0 (S754_zero false))) as (y & H1 & H2);
    [lia..|done| |].
  { change (Histogram.samples_ _ ++ ?g) with g. change (Histogram.count _) with 0. lia. }
  cbn in H2. exists y. split; [done|]. split; [done|]. split.
  - unfold Histogram.count. rewrite H2. len.
  - unfold Failover.main. by rewrite Ha, H1.
Qed.

Lemma failover_samples_witness : exists y,
  Failover.collect 0 0 0 (Failover.mkOptions 0 5 120 3) 1 (Failover.mkSums Histogram.new 0 0 (S754_zero false)) = Some (inl y) /\
  Failover.main 0 0 0 [lit "--failures"; lit "0"] = Some (Failover.report (Failover.mkOptions 0 5 120 3) y).
Proof.
  destruct (failover_samples 0 0 0 [lit "--failures"; lit "0"] (Failover.mkOptions 0 5 120 3)) as (y & H1 & _ & _ & H2).
  - reflexivity.
  - cbn. lia.
  - lia.
  - intros s Hs. lia.
  - vm_compute. discriminate.
  - exists y. split; [exact H1 | exact H2].
Defined.
