(* ===== verification/Echo.v ===== *)
(** * echo

    Models [src/bench/echo.cpp]: a server that decodes a frame and writes the same frame back,
    and a client that keeps a fixed number of requests in flight and times each round trip.
    Both are handlers of one event loop; they act on the network [N] they are given, and [self]
    is the handler they register.  Loops that only the network ends take [fuel], and [None]
    is running out of it.  The threads of [main] and its report are left out. *)
From S2P Require Import Prelude Base Wire Disk Text Random Network Trace Scheduler Histogram.
From Stdlib Require Import SpecFloat.
Import Strto.

#[local] Open Scope Z_scope.

Definition kEchoReadChunk : Z := 64 * 1024.

(** [append_uninitialized(kReadChunk)], a [read] of [got] into it, and [shrink_by] of the rest. *)
Definition took (b : Buffer.t) (got : list Z) : Buffer.t :=
  Buffer.shrink_by (Buffer.write_at (Buffer.append_uninitialized b kEchoReadChunk) (Buffer.size b) got)
    (kEchoReadChunk - zlen got).

Module EchoServer.

Record t := mk { listener_ : Z; max_frame_bytes_ : Z; in_ : Buffer.t; out_ : Buffer.t }.

#[export] Instance EchoServer_eta : Settable t := fun s => mk (listener_ s) (max_frame_bytes_ s) (in_ s) (out_ s).

Section Server.
Context {N H : Type} {NO : Network.t N H} (self : H).

Definition new (listener max_frame_bytes : Z) (n : N) : t * N :=
  (mk listener max_frame_bytes Buffer.empty_buffer Buffer.empty_buffer, Network.watch listener Interest.kRead (Some self) n).

Definition drop (conn : Z) (s : t) (n : N) : t * N :=
  (s <| in_ := Buffer.clear (in_ s) |> <| out_ := Buffer.clear (out_ s) |>, Network.close conn n).

Fixpoint accept_pending (fuel : nat) (s : t) (n : N) : option N :=
  match fuel with
  | O => None
  | S fuel' =>
      match Network.accept (listener_ s) n with
      | (fail _, n) => Some n
      | (Ok conn, n) => accept_pending fuel' s (Network.watch conn Interest.kRead (Some self) n)
      end
  end.

Fixpoint fill_from_socket (fuel : nat) (conn : Z) (s : t) (n : N) : option (bool * (t * N)) :=
  match fuel with
  | O => None
  | S fuel' =>
      match Network.read conn kEchoReadChunk n with
      | (fail e, n) =>
          let s := s <| in_ := took (in_ s) [] |> in
          Some (if bool_decide (e = kWouldBlock) then (true, (s, n)) else (false, drop conn s n))
      | (Ok got, n) =>
          let s := s <| in_ := took (in_ s) got |> in
          if zlen got =? 0 then Some (false, drop conn s n)
          else if zlen got <? kEchoReadChunk then Some (true, (s, n))
          else fill_from_socket fuel' conn s n
      end
  end.

(** A frame takes at least twelve bytes of [in_] with it. *)
Fixpoint drain_loop (fuel : nat) (conn : Z) (s : t) (n : N) : t * N :=
  match fuel with
  | O => (s, n)
  | S fuel' =>
      match Wire.next (max_frame_bytes_ s) (in_ s) with
      | fail _ => drop conn s n
      | Ok None => (s, n)
      | Ok (Some (header, payload)) =>
          let s := s <| out_ := encode_frame (out_ s) header payload |> in
          drain_loop fuel' conn (s <| in_ := consume_frame (in_ s) |>) n
      end
  end.

Definition drain_frames (conn : Z) (s : t) (n : N) : t * N := drain_loop (S (length (Buffer.slice (in_ s)))) conn s n.

Fixpoint flush (fuel : nat) (conn : Z) (s : t) (n : N) : option (t * N) :=
  if Buffer.empty (out_ s) then Some (s, Network.watch conn Interest.kRead (Some self) n)
  else
    match fuel with
    | O => None
    | S fuel' =>
        match Network.write conn (Buffer.slice (out_ s)) n with
        | (fail e, n) =>
            Some (if bool_decide (e = kWouldBlock) then (s, Network.watch conn Interest.kReadWrite (Some self) n)
                  else drop conn s n)
        | (Ok written, n) => flush fuel' conn (s <| out_ := Buffer.consume (out_ s) written |>) n
        end
    end.

Definition on_readable (fuel : nat) (conn : Z) (s : t) (n : N) : option (t * N) :=
  if conn =? listener_ s then (fun n => (s, n)) <$> accept_pending fuel s n
  else
    match fill_from_socket fuel conn s n with
    | None => None
    | Some (false, r) => Some r
    | Some (true, (s, n)) => let '(s, n) := drain_frames conn s n in flush fuel conn s n
    end.

(** The three members of [ConnHandler]. *)
Definition upcall (fuel : nat) (u : Upcall) (conn : Z) (s : t) (n : N) : option (t * N) :=
  match u with
  | Network.on_readable => on_readable fuel conn s n
  | Network.on_writable => flush fuel conn s n
  | Network.on_hangup => Some (drop conn s n)
  end.

End Server.
End EchoServer.

Module EchoClient.

Record Options := mkOptions { duration_s : Z; payload_bytes : Z; pipeline_depth : Z; max_frame_bytes : Z }.

#[export] Instance EchoOptions_eta : Settable Options := fun o =>
  mkOptions (duration_s o) (payload_bytes o) (pipeline_depth o) (max_frame_bytes o).

(** [stopped] is [loop_.stop()]. *)
Record t := mk {
  conn_ : Z;
  opts_ : Options;
  payload_ : list Z;
  sent_at_ : list Z;
  latencies_ : list Z;
  in_ : Buffer.t;
  out_ : Buffer.t;
  deadline_ : Z;
  completed_ : Z;
  bytes_ : Z;
  stopped : bool }.

#[export] Instance EchoClient_eta : Settable t := fun c =>
  mk (conn_ c) (opts_ c) (payload_ c) (sent_at_ c) (latencies_ c) (in_ c) (out_ c) (deadline_ c) (completed_ c) (bytes_ c) (stopped c).

(** [monotonic_now] reads the clock of the machine. *)
Section Client.
Context {N H : Type} {NO : Network.t N H} (self : H) (monotonic_now : N -> Z * N).

Definition new (conn : Z) (opts : Options) (n : N) : t * N :=
  (mk conn opts (zrep (payload_bytes opts) 0x41) (zrep (pipeline_depth opts) 0) [] Buffer.empty_buffer Buffer.empty_buffer 0 0 0 false,
   Network.watch conn Interest.kRead (Some self) n).

Definition stop (c : t) : t := c <| stopped := true |>.

Definition slot_of (correlation_id : Z) (c : t) : Z := correlation_id mod zlen (sent_at_ c).

Definition send (correlation_id : Z) (c : t) (n : N) : t * N :=
  let '(now, n) := monotonic_now n in
  let c := c <| sent_at_ := <[Z.to_nat (slot_of correlation_id c) := now]> (sent_at_ c) |> in
  (c <| out_ := encode_frame (out_ c) (mkFrameHeader kEcho kApiVersion0 correlation_id) (payload_ c) |>, n).

Fixpoint fill_from_socket (fuel : nat) (conn : Z) (c : t) (n : N) : option (bool * (t * N)) :=
  match fuel with
  | O => None
  | S fuel' =>
      match Network.read conn kEchoReadChunk n with
      | (fail e, n) =>
          let c := c <| in_ := took (in_ c) [] |> in
          Some (if bool_decide (e = kWouldBlock) then (true, (c, n)) else (false, (stop c, n)))
      | (Ok got, n) =>
          let c := c <| in_ := took (in_ c) got |> in
          if zlen got =? 0 then Some (false, (stop c, n))
          else if zlen got <? kEchoReadChunk then Some (true, (c, n))
          else fill_from_socket fuel' conn c n
      end
  end.

Fixpoint flush (fuel : nat) (c : t) (n : N) : option (t * N) :=
  if Buffer.empty (out_ c) then Some (c, Network.watch (conn_ c) Interest.kRead (Some self) n)
  else
    match fuel with
    | O => None
    | S fuel' =>
        match Network.write (conn_ c) (Buffer.slice (out_ c)) n with
        | (fail e, n) =>
            Some (if bool_decide (e = kWouldBlock) then (c, Network.watch (conn_ c) Interest.kReadWrite (Some self) n)
                  else (stop c, n))
        | (Ok written, n) => flush fuel' (c <| out_ := Buffer.consume (out_ c) written |>) n
        end
    end.

Fixpoint send_slots (ids : list Z) (c : t) (n : N) : t * N :=
  match ids with
  | [] => (c, n)
  | slot :: rest => let '(c, n) := send (u32 slot) c n in send_slots rest c n
  end.

Definition start (fuel : nat) (deadline : Z) (c : t) (n : N) : option (t * N) :=
  let c := c <| deadline_ := deadline |> in
  let '(c, n) := send_slots (seqZ 0 (pipeline_depth (opts_ c))) c n in flush fuel c n.

(** One response: its latency, and the request that takes its place. *)
Definition complete (header : FrameHeader) (payload : list Z) (c : t) (n : N) : bool * (t * N) :=
  let '(now, n) := monotonic_now n in
  let c := c <| latencies_ := latencies_ c ++ [now - at_ (sent_at_ c) (slot_of (correlation_id header) c)] |> in
  let c := c <| completed_ := completed_ c + 1 |> <| bytes_ := bytes_ c + zlen payload |> in
  let c := c <| in_ := consume_frame (in_ c) |> in
  if deadline_ c <=? now then (false, (stop c, n)) else (true, send (correlation_id header) c n).

(** The loop of [on_readable]; [false] is its early returns. *)
Fixpoint response_loop (fuel : nat) (c : t) (n : N) : bool * (t * N) :=
  match fuel with
  | O => (true, (c, n))
  | S fuel' =>
      match Wire.next (max_frame_bytes (opts_ c)) (in_ c) with
      | fail _ => (false, (stop c, n))
      | Ok None => (true, (c, n))
      | Ok (Some (header, payload)) =>
          match complete header payload c n with
          | (false, r) => (false, r)
          | (true, (c, n)) => response_loop fuel' c n
          end
      end
  end.

Definition on_readable (fuel : nat) (conn : Z) (c : t) (n : N) : option (t * N) :=
  match fill_from_socket fuel conn c n with
  | None => None
  | Some (false, r) => Some r
  | Some (true, (c, n)) =>
      match response_loop (S (length (Buffer.slice (in_ c)))) c n with
      | (false, r) => Some r
      | (true, (c, n)) => flush fuel c n
      end
  end.

Definition upcall (fuel : nat) (u : Upcall) (conn : Z) (c : t) (n : N) : option (t * N) :=
  match u with
  | Network.on_readable => on_readable fuel conn c n
  | Network.on_writable => flush fuel c n
  | Network.on_hangup => Some (stop c, n)
  end.

End Client.
End EchoClient.

(** ** Arguments and percentiles *)

Definition percentile (sorted : list Z) (p : double) : Z :=
  match sorted with
  | [] => 0
  | _ => at_ sorted (Z.min (Histogram.size_of_double (SFmul 53 1024 p (double_of_u64 (zlen sorted - 1)))) (zlen sorted - 1))
  end.

(** [std::atoi]: the number as a [long], and the low half of it. *)
Definition atoi (s : chars) : Z := let v := u32 (strtoll 10 s) in if v <? 2 ^ 31 then v else v - 2 ^ 32.

Section Args.
Import EchoClient.

(** [None] is [--help], which ends the program. *)
Fixpoint parse_loop (args : list chars) (o : Options) : option Options :=
  match args with
  | [] => Some o
  | key :: rest =>
      let alone (k : option Options) := if bool_decide (key = lit "--help") then None else k in
      match rest with
      | value :: rest' =>
          if bool_decide (key = lit "--duration-s") then parse_loop rest' (o <| duration_s := atoi value |>)
          else if bool_decide (key = lit "--payload-bytes") then parse_loop rest' (o <| payload_bytes := u64 (strtoll 10 value) |>)
          else if bool_decide (key = lit "--pipeline") then parse_loop rest' (o <| pipeline_depth := atoi value |>)
          else alone (parse_loop rest o)
      | [] => alone (Some o)
      end
  end.

Definition parse_args (args : list chars) : option Options :=
  match parse_loop args (mkOptions 5 128 32 kDefaultMaxFrameBytes) with
  | None => None
  | Some o =>
      let o := if duration_s o <? 1 then o <| duration_s := 1 |> else o in
      Some (if pipeline_depth o <? 1 then o <| pipeline_depth := 1 |> else o)
  end.

End Args.
