(* ===== verification/EchoProps.v ===== *)
(** * echo: byte for byte

    On any network, what the server has sent, what it still has to send and the part of a frame
    it waits for are together the bytes it has received.  The two buffers are the server's and
    not a connection's, so with two clients the bytes of one reach the other. *)
From S2P Require Import Prelude Base Wire Disk Text Random Network Trace Scheduler Histogram Echo.

#[local] Open Scope Z_scope.

(** ** A network that keeps a record *)

Module Logged.

(** Bytes read, pieces written with where they went, and whether a connection was closed. *)
Record t (N : Type) := mk { base : N; received : list Z; sent : list (Z * list Z); closed : bool }.
#[global] Arguments mk {N}.
#[global] Arguments base {N}.
#[global] Arguments received {N}.
#[global] Arguments sent {N}.
#[global] Arguments closed {N}.

#[global] Instance Logged_eta N : Settable (t N) := fun n => mk (base n) (received n) (sent n) (closed n).

Definition start {N} (n : N) : t N := mk n [] [] false.

Definition sent_bytes {N} (n : t N) : list Z := concat (map snd (sent n)).

Section Network.
Context {N H : Type} {NO : Network.t N H}.

Definition lift {A} (f : N -> A * N) (n : t N) : A * t N := let '(r, b) := f (base n) in (r, n <| base := b |>).

#[global] Instance network : Network.t (t N) H := {
  listen p b := lift (Network.listen p b);
  local_port c := lift (Network.local_port c);
  accept c := lift (Network.accept c);
  connect h p := lift (Network.connect h p);
  read c k n :=
    match Network.read c k (base n) with
    | (Ok bs, b) => (Ok bs, n <| base := b |> <| received := received n ++ bs |>)
    | (fail e, b) => (fail e, n <| base := b |>)
    end;
  write c data n :=
    match Network.write c data (base n) with
    | (Ok r, b) => (Ok r, n <| base := b |> <| sent := sent n ++ [(c, ztake r data)] |>)
    | (fail e, b) => (fail e, n <| base := b |>)
    end;
  close c n := n <| base := Network.close c (base n) |> <| closed := true |>;
  watch c i h n := n <| base := Network.watch c i h (base n) |> }.

End Network.
End Logged.

(** ** Buffers and frames *)

Lemma took_slice b got : Buffer.wf b -> zlen got <= kEchoReadChunk ->
  Buffer.wf (took b got) /\ Buffer.slice (took b got) = Buffer.slice b ++ got.
Proof.
  intros W Hl. pose proof (zlen_nonneg got). unfold took. set (b1 := Buffer.append_uninitialized b kEchoReadChunk).
  assert (0 <= kEchoReadChunk) as Hk by (vm_compute; discriminate).
  assert (Buffer.write_at b1 (Buffer.size b) got = Buffer.append b (got ++ zrep (kEchoReadChunk - zlen got) 0)) as ->.
  { unfold Buffer.write_at, b1, Buffer.append_uninitialized, Buffer.append, Buffer.size. cbn. f_equal.
    replace (Buffer.read_pos_ b + (zlen (Buffer.bytes_ b) - Buffer.read_pos_ b)) with (zlen (Buffer.bytes_ b)) by lia.
    unfold splice. rewrite ztake_app by done. f_equal. f_equal. rewrite zdrop_app_ge by lia.
    replace (zlen (Buffer.bytes_ b) + zlen got - zlen (Buffer.bytes_ b)) with (zlen got) by lia. unfold zdrop, zrep.
    rewrite drop_replicate. f_equal. lia. }
  destruct (shrink_by_slice (Buffer.append b (got ++ zrep (kEchoReadChunk - zlen got) 0)) (kEchoReadChunk - zlen got)) as [W1 S1].
  { by apply append_wf. }
  { unfold Buffer.size, Buffer.append in *. cbn. unfold Buffer.wf in W. len. }
  split; [done|]. rewrite S1, append_slice, app_assoc by done. rewrite ztake_app; [done|].
  rewrite size_slice, append_slice by (done || by apply append_wf). len.
Qed.

Lemma zsub_then {A} off n (l : list A) : 0 <= off -> 0 <= n -> zsub off n l ++ zdrop (off + n) l = zdrop off l.
Proof.
  intros. unfold zsub, ztake, zdrop. rewrite Z2Nat.inj_add, <- drop_drop by lia. apply take_drop.
Qed.

(** A decoded frame encodes to the bytes it was decoded from. *)
Lemma parse_frame_exact max data f rest : bytes_ok data -> parse_frame max data = PFrame f rest -> data = frame_bytes f ++ rest.
Proof.
  intros Hb E. unfold parse_frame in E. cases_if_in E; try discriminate. injection E as <- <-. bool_prop.
  pose proof (load_u32_range _ 0 Hb). set (k := load_u32_le data 0) in *. unfold frame_bytes, kHeaderBytes.
  cbn [fst snd api_key api_version correlation_id].
  assert (zlen (zsub 12 (k - 8) data) = k - 8) as -> by len. rewrite wrap_small by lia. replace (8 + (k - 8)) with k by lia. unfold k.
  rewrite !store_u32_load, !store_u16_load by (done || lia). fold k. rewrite <- !app_assoc.
  replace (4 + k) with (12 + (k - 8)) by lia. rewrite (zsub_then 12) by lia.
  rewrite (zsub_then 8 4), (zsub_then 6 2), (zsub_then 4 2), (zsub_then 0 4) by lia. done.
Qed.
(** ** Byte for byte *)

Section Echo.
Context {N H : Type} {NO : Network.t N H} {NL : Network.laws N H} (self : H).
Context (read_bytes : forall c k (n : N) bs n', Network.read c k n = (Ok bs, n') -> bytes_ok bs).
Implicit Types (s : EchoServer.t) (n : Logged.t N).
Import EchoServer.

Record echoing s n : Prop := {
  ec_in : Buffer.wf (in_ s);
  ec_out : Buffer.wf (out_ s);
  ec_bytes : bytes_ok (Buffer.slice (in_ s));
  ec_all : Logged.closed n = false ->
    Logged.received n = Logged.sent_bytes n ++ Buffer.slice (out_ s) ++ Buffer.slice (in_ s) }.

(** Calls that carry no bytes. *)
Lemma echoing_same s n n' : Logged.received n' = Logged.received n -> Logged.sent n' = Logged.sent n -> Logged.closed n' = Logged.closed n ->
  echoing s n -> echoing s n'.
Proof. intros E1 E2 E3 [A B C D]. split; [done..|]. unfold Logged.sent_bytes. by rewrite E1, E2, E3. Qed.

Lemma empty_echoing : Buffer.wf Buffer.empty_buffer.
Proof. vm_compute. split; discriminate. Qed.

Lemma dropped_echoing s n : in_ s = Buffer.empty_buffer -> out_ s = Buffer.empty_buffer -> Logged.closed n = true -> echoing s n.
Proof. intros E1 E2 E3. split; [rewrite ?E1, ?E2; apply empty_echoing.. | rewrite E1; constructor | congruence]. Qed.

Lemma accept_echoing fuel : forall s n n', echoing s n -> accept_pending self fuel s n = Some n' -> echoing s n'.
Proof.
  induction fuel as [|fuel IH]; intros s n n' E; cbn [accept_pending]; [done|].
  cbn. unfold Logged.lift. destruct (Network.accept (listener_ s) (Logged.base n)) as [[conn|e] b].
  - apply IH. by apply (echoing_same s n).
  - intros [= <-]. by apply (echoing_same s n).
Qed.

Lemma took_echoing s n n' got : zlen got <= kEchoReadChunk -> bytes_ok got -> Logged.received n' = Logged.received n ++ got ->
  Logged.sent n' = Logged.sent n -> Logged.closed n' = Logged.closed n -> echoing s n -> echoing (s <| in_ := took (in_ s) got |>) n'.
Proof.
  intros Hl Hb Er Es Ec [A B C D]. destruct (took_slice _ _ A Hl) as [W E]. split; cbn; [done | done | |].
  - rewrite E. by apply Forall_app.
  - rewrite Ec, Er, E. intros F. unfold Logged.sent_bytes. rewrite Es, (D F). unfold Logged.sent_bytes. by rewrite <- !app_assoc.
Qed.

Lemma fill_echoing fuel conn : forall s n b s' n', echoing s n ->
  fill_from_socket fuel conn s n = Some (b, (s', n')) -> echoing s' n'.
Proof using NL read_bytes.
  assert (0 <= kEchoReadChunk) as Hk by (vm_compute; discriminate).
  induction fuel as [|fuel IH]; intros s n b s' n' E; cbn [fill_from_socket]; [done|]. cbn [Network.read Logged.network].
  destruct (Network.read conn kEchoReadChunk (Logged.base n)) as [[got|e] x] eqn:R.
  - pose proof (Network.read_law _ _ _ _ _ Hk R) as Hl. pose proof (read_bytes _ _ _ _ _ R) as Hb.
    assert (echoing (s <| in_ := took (in_ s) got |>) (n <| Logged.base := x |> <| Logged.received := Logged.received n ++ got |>)) as E1
      by by apply (took_echoing s n).
    destruct (zlen got =? 0); [intros [= _ <- <-]; by apply dropped_echoing|]. destruct (zlen got <? _); [by intros [= _ <- <-]|].
    by apply IH.
  - assert (echoing (s <| in_ := took (in_ s) [] |>) (n <| Logged.base := x |>)) as E1.
    { apply (took_echoing s n); try done. cbn. by rewrite app_nil_r. }
    case_bool_decide; intros [= _ <- <-]; [done | by apply dropped_echoing].
Qed.

Lemma drain_echoing fuel conn : forall s n, echoing s n -> echoing (drain_loop fuel conn s n).1 (drain_loop fuel conn s n).2.
Proof.
  induction fuel as [|fuel IH]; intros s n E; cbn [drain_loop]; [done|]. destruct E as [A B C D].
  rewrite next_parse by done. destruct (parse_frame _ _) as [e| |[h p] rest] eqn:P; [by apply dropped_echoing | done |].
  apply IH. destruct (consume_frame_parse _ _ _ _ A C P) as [W S]. destruct (encode_frame_slice (out_ s) h p B) as [W1 S1].
  split; cbn; [done | done | |].
  - rewrite S. by apply (parse_frame_rest _ _ _ _ C P).
  - intros F. rewrite S, S1, (D F). apply parse_frame_exact in P; [|done]. rewrite P. by rewrite <- !app_assoc.
Qed.

Lemma flush_echoing fuel conn : forall s n s' n', echoing s n -> flush self fuel conn s n = Some (s', n') -> echoing s' n'.
Proof using NL.
  induction fuel as [|fuel IH]; intros s n s' n' E; cbn [flush]; destruct (Buffer.empty (out_ s)) eqn:Em;
    try (by intros [= <- <-]; apply (echoing_same s n)). cbn [Network.write Logged.network].
  destruct (Network.write conn (Buffer.slice (out_ s)) (Logged.base n)) as [[r|e] x] eqn:Wr.
  - apply IH. pose proof (Network.write_law _ _ _ _ _ Wr) as Hr. destruct E as [A B C D].
    destruct (consume_spec (out_ s) r B) as (W & S & _); [by rewrite size_slice|]. split; cbn; [done..|].
    intros F. rewrite (D F). unfold Logged.sent_bytes. cbn. rewrite map_app, concat_app. cbn. rewrite app_nil_r, S, <- app_assoc.
    f_equal. rewrite (app_assoc (ztake r _)). by rewrite ztake_zdrop.
  - case_bool_decide; intros [= <- <-]; [by apply (echoing_same s n) | by apply dropped_echoing].
Qed.

Lemma upcall_echoing fuel u conn s n s' n' : echoing s n -> upcall self fuel u conn s n = Some (s', n') -> echoing s' n'.
Proof using NL read_bytes.
  intros E. destruct u; cbn [upcall]; [|by apply flush_echoing | intros [= <- <-]; by apply dropped_echoing].
  unfold on_readable. destruct (conn =? listener_ s).
  - destruct (accept_pending self fuel s n) as [n1|] eqn:A; cbn; [|done]. intros [= <- <-]. by eapply accept_echoing.
  - destruct (fill_from_socket fuel conn s n) as [[[] [s1 n1]]|] eqn:F; [| |done]; apply (fill_echoing _ _ _ _ _ _ _ E) in F.
    + pose proof (drain_echoing (S (length (Buffer.slice (in_ s1)))) conn s1 n1 F) as D. unfold drain_frames.
      destruct (drain_loop _ _ _ _) as [s2 n2]. by apply flush_echoing.
    + by intros [= <- <-].
Qed.

(** The event loop calls the server. *)
Fixpoint serve (fuel : nat) (calls : list (Upcall * Z)) s n : option (EchoServer.t * Logged.t N) :=
  match calls with
  | [] => Some (s, n)
  | (u, conn) :: rest => match upcall self fuel u conn s n with Some (s, n) => serve fuel rest s n | None => None end
  end.

Lemma serve_echoing fuel calls : forall s n s' n', echoing s n -> serve fuel calls s n = Some (s', n') -> echoing s' n'.
Proof using NL read_bytes.
  induction calls as [|[u conn] calls IH]; intros s n s' n' E; cbn [serve]; [by intros [= <- <-]|].
  destruct (upcall self fuel u conn s n) as [[s1 n1]|] eqn:U; [|done]. apply IH. by eapply upcall_echoing.
Qed.

(** Writing what is pending comes to an end on a network that takes something whenever it takes
    anything. *)
Lemma flush_returns fuel conn : (forall c data (n : N) r (n' : N), data <> [] -> Network.write c data n = (Ok r, n') -> 0 < r) ->
  forall s n, Buffer.wf (out_ s) -> (length (Buffer.slice (out_ s)) <= fuel)%nat -> is_Some (flush self fuel conn s n).
Proof using NL.
  intros Hp. induction fuel as [|fuel IH]; intros s n W Hl; cbn [flush]; unfold Buffer.empty; rewrite size_slice by done;
    (destruct (zlen (Buffer.slice (out_ s)) =? 0) eqn:Em; bool_prop; [by eexists|]); [unfold zlen in Em; lia|].
  cbn [Network.write Logged.network]. destruct (Network.write conn (Buffer.slice (out_ s)) (Logged.base n)) as [[r|e] x] eqn:Wr; [|by eexists].
  pose proof (Network.write_law _ _ _ _ _ Wr) as Hr. apply Hp in Wr; [|intros E; by rewrite E in Em].
  destruct (consume_spec (out_ s) r W) as (W' & S & _); [by rewrite size_slice|]. apply IH; cbn; [done|].
  rewrite S. unfold zdrop, zlen in *. rewrite length_drop. lia.
Qed.

End Echo.

(** Whatever the network does with reads and writes, and whoever is called for which connection:
    until a connection is closed, the server has sent back exactly the bytes it received, in
    their order, up to those it holds for writing and the incomplete frame it holds for reading. *)
Theorem echo_byte_for_byte {N H : Type} {NO : Network.t N H} {NL : Network.laws N H} (self : H) (fuel : nat) (calls : list (Upcall * Z))
    (listener max : Z) (n : N) (s' : EchoServer.t) (n' : Logged.t N) :
  (forall c k (n : N) bs n', Network.read c k n = (Ok bs, n') -> bytes_ok bs) ->
  (let '(s, n) := EchoServer.new self listener max (Logged.start n) in serve self fuel calls s n) = Some (s', n') ->
  Logged.closed n' = false ->
  Logged.received n' = Logged.sent_bytes n' ++ Buffer.slice (EchoServer.out_ s') ++ Buffer.slice (EchoServer.in_ s').
Proof.
  intros Hb. cbn [EchoServer.new]. intros Sv. eapply serve_echoing in Sv; [apply Sv | done |].
  split; cbn; [apply empty_echoing.. | constructor | done].
Qed.

(** ** Pipes *)

Module Pipe.

(** What is there to read from a connection, piece by piece, and the answers to the writes. *)
Record t := mk { incoming : list (Z * list Z); answers : list (Result Z) }.

#[global] Instance Pipe_eta : Settable t := fun p => mk (incoming p) (answers p).

Fixpoint read_from (c k : Z) (l : list (Z * list Z)) : Result (list Z) * list (Z * list Z) :=
  match l with
  | [] => (fail kWouldBlock, [])
  | (c', bs) :: rest =>
      if c' =? c then (Ok (ztake k (map u8 bs)), rest)
      else let '(r, rest) := read_from c k rest in (r, (c', bs) :: rest)
  end.

#[global] Instance network : Network.t t unit := {
  listen _ _ p := (fail kIoError, p);
  local_port _ p := (fail kIoError, p);
  accept _ p := (fail kWouldBlock, p);
  connect _ _ p := (fail kIoError, p);
  read c k p := let '(r, l) := read_from c k (incoming p) in (r, p <| incoming := l |>);
  write c data p :=
    match answers p with
    | [] => (fail kWouldBlock, p)
    | Ok r :: rest => (Ok (Z.max 0 (Z.min r (zlen data))), p <| answers := rest |>)
    | fail e :: rest => (fail e, p <| answers := rest |>)
    end;
  close _ p := p;
  watch _ _ _ p := p }.

Lemma read_from_spec c k l bs l' : read_from c k l = (Ok bs, l') -> bytes_ok bs /\ (0 <= k -> zlen bs <= k).
Proof.
  revert l'. induction l as [|[c' x] l IH]; intros l'; cbn [read_from]; [done|]. destruct (c' =? c).
  - intros [= <- _]. split; [|intros; len]. apply Forall_take, Forall_fmap, Forall_true. intros b. apply wrap_range. lia.
  - destruct (read_from c k l) as [r l1]. intros [= -> _]. by eapply IH.
Qed.

#[global] Instance laws : Network.laws t unit.
Proof.
  split; cbn.
  - intros c data n r n'. destruct (answers n) as [|[q|e] rest]; [done| |done]. intros [= <- _]. pose proof (zlen_nonneg data). lia.
  - intros c k n bs n' Hk. destruct (read_from c k (incoming n)) as [r l] eqn:R. intros [= -> _]. by apply read_from_spec in R as [_ R]; apply R.
Qed.

End Pipe.

Definition a_frame (id : Z) : list Z := frame_bytes (mkFrameHeader kEcho kApiVersion0 id, [id]).

(** A frame and part of the next one on connection 7, and a socket that takes three bytes. *)
Definition half_sent : Pipe.t := Pipe.mk [(7, a_frame 1); (7, ztake 5 (a_frame 2))] [Ok 3; fail kWouldBlock].

Definition half_sent_server : EchoServer.t :=
  EchoServer.mk 3 64 (Buffer.mk [9; 0; 0; 0; 232] 0) (Buffer.mk [9; 0; 0; 0; 232; 3; 0; 0; 1; 0; 0; 0; 1] 3).
Definition half_sent_network : Logged.t Pipe.t :=
  Logged.mk (Pipe.mk [] []) [9; 0; 0; 0; 232; 3; 0; 0; 1; 0; 0; 0; 1; 9; 0; 0; 0; 232] [(7, [9; 0; 0])] false.

Lemma echo_byte_for_byte_witness :
  Logged.received half_sent_network =
  Logged.sent_bytes half_sent_network ++ Buffer.slice (EchoServer.out_ half_sent_server) ++ Buffer.slice (EchoServer.in_ half_sent_server).
Proof.
  apply (echo_byte_for_byte (NL := Pipe.laws) tt 20 [(Network.on_readable, 7); (Network.on_readable, 7)] 3 64 half_sent).
  - intros c k n bs n1. cbn. destruct (Pipe.read_from c k (Pipe.incoming n)) as [r l] eqn:R. intros [= -> _].
    apply Pipe.read_from_spec in R as [R _]. exact R.
  - vm_compute. reflexivity.
  - reflexivity.
Defined.

(** Connection 8 is sent the answer to connection 7: the socket of 7 is full when its frame
    arrives, and the next to be served is 8. *)
Theorem echo_mixes_clients :
  (let '(s, n) := EchoServer.new tt 3 64 (Logged.start (Pipe.mk [(7, a_frame 1); (8, a_frame 2)] [fail kWouldBlock; Ok 100])) in
   Logged.sent ∘ snd <$> serve tt 20 [(Network.on_readable, 7); (Network.on_readable, 8)] s n) =
  Some [(8, a_frame 1 ++ a_frame 2)].
Proof. vm_compute. reflexivity. Qed.

(** ** The client's books *)

Section Client.
Context {N H : Type} {NO : Network.t N H} (self : H) (monotonic_now : N -> Z * N).
Implicit Types (c : EchoClient.t) (n : N).
Import EchoClient.

(** A slot for every request in flight, and a latency for every response. *)
Record booked c : Prop := {
  bk_slots : zlen (sent_at_ c) = pipeline_depth (opts_ c);
  bk_depth : 1 <= pipeline_depth (opts_ c);
  bk_latencies : zlen (latencies_ c) = completed_ c }.

Lemma booked_same c c' : sent_at_ c' = sent_at_ c -> opts_ c' = opts_ c -> latencies_ c' = latencies_ c -> completed_ c' = completed_ c ->
  booked c -> booked c'.
Proof. intros E1 E2 E3 E4 [A B C]. split; congruence. Qed.

Lemma send_booked id c n : booked c -> booked (send monotonic_now id c n).1.
Proof.
  intros [A B C]. unfold send. destruct (monotonic_now n) as [now n1]. split; cbn; [|done..].
  unfold zlen in *. by rewrite length_insert.
Qed.

Lemma send_slots_booked ids : forall c n, booked c -> booked (send_slots monotonic_now ids c n).1.
Proof.
  induction ids as [|id ids IH]; intros c n E; cbn [send_slots]; [done|]. apply (send_booked (u32 id) c n) in E.
  destruct (send _ _ c n) as [c1 n1]. by apply IH.
Qed.

Lemma client_fill_booked fuel conn : forall c n b c' n', booked c -> fill_from_socket fuel conn c n = Some (b, (c', n')) -> booked c'.
Proof.
  induction fuel as [|fuel IH]; intros c n b c' n' E; cbn [fill_from_socket]; [done|].
  destruct (Network.read conn kEchoReadChunk n) as [[got|e] x].
  - destruct (zlen got =? 0); [intros [= _ <- _]; by apply (booked_same c)|].
    destruct (zlen got <? _); [intros [= _ <- _]; by apply (booked_same c)|]. apply IH. by apply (booked_same c).
  - case_bool_decide; intros [= _ <- _]; by apply (booked_same c).
Qed.

Lemma client_flush_booked fuel : forall c n c' n', booked c -> flush self fuel c n = Some (c', n') -> booked c'.
Proof.
  induction fuel as [|fuel IH]; intros c n c' n' E; cbn [flush]; (destruct (Buffer.empty (out_ c)); [by intros [= <- _]|]); [done|].
  destruct (Network.write (conn_ c) _ n) as [[r|e] x].
  - apply IH. by apply (booked_same c).
  - case_bool_decide; intros [= <- _]; [done|]. by apply (booked_same c).
Qed.

Lemma complete_booked h p c n : booked c -> booked (complete monotonic_now h p c n).2.1.
Proof.
  intros [A B C]. unfold complete. destruct (monotonic_now n) as [now n1]. cbv zeta. destruct (_ <=? now).
  - split; cbn; [done..|]. rewrite zlen_app. cbn. by rewrite C.
  - apply send_booked. split; cbn; [done..|]. rewrite zlen_app. cbn. by rewrite C.
Qed.

Lemma responses_booked fuel : forall c n, booked c -> booked (response_loop monotonic_now fuel c n).2.1.
Proof.
  induction fuel as [|fuel IH]; intros c n E; cbn [response_loop]; [done|].
  destruct (Wire.next _ _) as [[[h p]|]|e]; [|done | by apply (booked_same c)].
  apply (complete_booked h p c n) in E. destruct (complete _ h p c n) as [[] [c1 n1]]; [by apply IH | done].
Qed.

Lemma client_upcall_booked fuel u conn c n c' n' : booked c -> upcall self monotonic_now fuel u conn c n = Some (c', n') -> booked c'.
Proof.
  intros E. destruct u; cbn [upcall]; [|by apply client_flush_booked | intros [= <- _]; by apply (booked_same c)].
  unfold on_readable. destruct (fill_from_socket fuel conn c n) as [[[] [c1 n1]]|] eqn:F; [| |done]; apply (client_fill_booked _ _ _ _ _ _ _ E) in F.
  - apply (responses_booked (S (length (Buffer.slice (in_ c1)))) c1 n1) in F.
    destruct (response_loop _ _ c1 n1) as [[] [c2 n2]]; [by apply client_flush_booked | by intros [= <- _]].
  - by intros [= <- _].
Qed.

Fixpoint client_calls (fuel : nat) (calls : list (Upcall * Z)) c n : option (EchoClient.t * N) :=
  match calls with
  | [] => Some (c, n)
  | (u, conn) :: rest =>
      match upcall self monotonic_now fuel u conn c n with Some (c, n) => client_calls fuel rest c n | None => None end
  end.

(** With the options the command line gives, a client that was started keeps a slot for every
    request in flight, whatever responses arrive: no correlation id leads out of the table, and
    there is one latency for every response that was counted. *)
Theorem client_slots_in_range fuel args opts conn deadline calls n c1 n1 c' n' id :
  Echo.parse_args args = Some opts ->
  start self monotonic_now fuel deadline (new self conn opts n).1 (new self conn opts n).2 = Some (c1, n1) ->
  client_calls fuel calls c1 n1 = Some (c', n') ->
  0 <= slot_of id c' < zlen (sent_at_ c') /\ zlen (latencies_ c') = completed_ c'.
Proof.
  intros Ha St Cs. assert (1 <= pipeline_depth opts) as Hd.
  { unfold Echo.parse_args in Ha. destruct (parse_loop _ _) as [o|]; [|done]. injection Ha as <-.
    destruct (duration_s o <? 1); destruct (pipeline_depth _ <? 1) eqn:L; cbn in *; bool_prop; lia. }
  assert (booked (new self conn opts n).1) as E by (split; cbn; [len | done | done]).
  assert (booked c1) as E1.
  { unfold start in St. destruct (new self conn opts n) as [c0 n0]. cbn [fst snd] in *.
    assert (booked (c0 <| deadline_ := deadline |>)) as E0 by by apply (booked_same c0).
    apply (send_slots_booked (seqZ 0 (pipeline_depth (opts_ (c0 <| deadline_ := deadline |>)))) _ n0) in E0.
    destruct (send_slots _ _ _ n0) as [c2 n2]. by eapply client_flush_booked. }
  clear St E. assert (booked c') as [A B C]; [|split; [unfold slot_of; apply Z.mod_pos_bound; lia | done]].
  revert c1 n1 E1 Cs. induction calls as [|[u k] calls IH]; intros c1 n1 E1; cbn [client_calls]; [by intros [= <- _]|].
  destruct (upcall _ _ fuel u k c1 n1) as [[c2 n2]|] eqn:U; [|done]. apply IH. by eapply client_upcall_booked.
Qed.

End Client.

Lemma client_slots_in_range_witness : exists c' n',
  client_calls (NO := Pipe.network) tt (fun n => (0, n)) 20 [(Network.on_readable, 7)] c' n' = Some (c', n') /\
  0 <= EchoClient.slot_of 99 c' < zlen (EchoClient.sent_at_ c') /\ zlen (EchoClient.latencies_ c') = EchoClient.completed_ c'.
Proof.
  set (o := EchoClient.mkOptions 5 3 2 kDefaultMaxFrameBytes).
  set (c1 := EchoClient.mk 7 o [65; 65; 65] [0; 0] [] Buffer.empty_buffer Buffer.empty_buffer 0 0 0 false).
  exists c1, (Pipe.mk [] []). split; [vm_compute; reflexivity|].
  apply (client_slots_in_range (NO := Pipe.network) tt (fun n => (0, n)) 20 (map lit ["--pipeline"; "2"; "--payload-bytes"; "3"]%string) o 7 0 []
    (Pipe.mk [] [Ok 100]) c1 (Pipe.mk [] []) c1 (Pipe.mk [] [])); [reflexivity | vm_compute; reflexivity | reflexivity].
Defined.
